(* ===== verification/_CoqProject ===== *)
-Q . S2P
Prelude.v
StateMonad.v
BaseUint.v
Issue.v
Decimal.v
IOUAmount.v
STAmount.v
BigNum.v
STAmountFacts.v
STAmountArith.v
STAmountArithFacts.v
MulDivFacts.v
Quality.v
Serializer.v
SerialIter.v
STAmountWire.v
Views.v
Overlay.v
RawStateTable.v
RawFacts.v
RawIterFacts.v
ApplyStateTable.v
ApplyFacts.v
ViewLogic.v
Objects.v
Directory.v
Indexes.v
DirectoryRep.v
DirectoryFacts.v
DirectoryDelete.v
DirectoryProps.v
TrustLines.v
TrustRep.v
TrustFacts.v
TrustBalance.v
TrustPay.v
TrustRefer.v
TrustProps.v
SHAMapNode.v
SHAMap.v
SHAMapSync.v
SHAMapDelta.v
SHAMapRep.v
SHAMapRepFacts.v
SHAMapGrow.v
SHAMapWalk.v
SHAMapModify.v
SHAMapAdd.v
SHAMapDelete.v
SHAMapIter.v
SHAMapMerkle.v
SHAMapWire.v
SHAMapParse.v
SHAMapStore.v
SHAMapBranch.v
SHAMapFlush.v
SHAMapUnshare.v
SHAMapSpec.v
SHAMapSnapshot.v
SHAMapWalkBranch.v
SHAMapCompare.v
SHAMapProps.v
LedgerFormats.v
LoadFeeTrack.v
Transaction.v
HashRouter.v
Metadata.v
Transactor.v
SignFacts.v
TxSettings.v
Payment.v
TxTrust.v
TxSystem.v
MetadataFacts.v
Funds.v
TransactorFacts.v
TxLaws.v
PaymentFacts.v
TxProps.v
