(* ===== verification/Prelude.v ===== *)
(** * A verification development for radard

    radard is a ledger server derived from rippled.  This library models parts of
    its C++ sources (under src/src/ripple, written without that prefix below) as
    Rocq functions and proves what they compute.

    ** The parts of the program

    At the bottom are the value types: fixed width integers ([base_uint]),
    currencies and issues, decimal amounts ([IOUAmount], [STAmount]) with their
    arithmetic, qualities of offers, and the binary format ([Serializer],
    [SerialIter]).  Above them are the views of a ledger.  A closed ledger is read
    through [ReadView]; an [OpenView] buffers changes over it in a
    [RawStateTable]; an apply view buffers the changes of one transaction in an
    [ApplyStateTable], and hands them down through [RawView] when the transaction
    succeeds.  Transactors change the ledger through an apply view with the
    functions of ledger/View.cpp, among them those for directories, which list the
    entries an account owns.  The entries of a closed ledger, and its transactions,
    are in a [SHAMap]: a radix tree over the 64 hexadecimal digits of the keys that
    is a Merkle tree as well, whose nodes are shared between ledgers, cached, and
    kept in a node store.

    ** The files

    - Prelude: the error monad, machine integers, loops with fuel, big endian
      bytes, and the tactics and rewrite databases the other files share.
    - BaseUint: basics/base_uint.h and basics/strHex.h.  A value is its list of
      32-bit limbs; the two hexadecimal parsers work on lists of characters.
    - Issue: protocol/UintTypes, protocol/Issue.  Currencies and accounts are
      160-bit integers.
    - Decimal: what the decimal formats share.  [sval k m e] is the integer
      [m * 10 ^ (e + k)], which stands for [m * 10 ^ e] when [k] is large enough
      for the exponents to stay positive; [norm] is normalisation to sixteen
      digits and [canonical] its range.
    - IOUAmount: protocol/IOUAmount, in Module [IOU].
    - STAmount, STAmountFacts: protocol/STAmount.h and protocol/impl/STAmount.cpp
      without arithmetic: representation, constructors, [canonicalize], order,
      addition, in Module [Amt] and [AmtFacts].
    - BigNum: crypto/impl/CBigNum.cpp over an interface to OpenSSL.  The class
      [BigNum] has the OpenSSL calls the sources make and [BigNumLaws] their
      documented behaviour; [exactBN] is an instance with unbounded integers.
    - STAmountArith, STAmountArithFacts, MulDivFacts: products, quotients, the
      rounding variants, rates and [mulDiv], in Module [Arith], [ArithFacts] and
      [MulDiv].
    - Quality: protocol/Quality.h and its implementation, in Module [Qual].
    - Serializer, SerialIter, STAmountWire: protocol/Serializer.h and
      protocol/impl/Serializer.cpp, and the wire form of amounts.
    - Views: protocol/Keylet, ledger/ReadView.h and ledger/RawView.h: the classes
      [ReadView], [RawView] and [RawViewLaws], and what it means for a view to
      read as a map from keys to entries ([reads_as]).
    - Overlay: what the two state tables share: the map that items over a base
      stand for, and [succ].
    - RawStateTable, RawFacts, RawIterFacts: ledger/impl/RawStateTable.cpp and
      ledger/impl/OpenView.cpp, in Module [Raw], [RawFacts] and [RawIter].
    - ApplyStateTable, ApplyFacts: ledger/impl/ApplyStateTable.cpp and
      ledger/impl/ApplyViewBase.cpp, in Module [Apply] and [ApplyFacts].  Callers
      change entries in place through pointers, so the view has a store of
      entries and its items hold locations.
    - ViewLogic: the monad the functions of ledger/View.cpp are written in, and a
      logic of total correctness for it, in Module [VL].
    - Directory, DirectoryRep, DirectoryFacts, DirectoryDelete, DirectoryProps:
      the directories of ledger/impl/View.cpp, in Module [Dir] and those after
      it.  [dir_rep] relates the entries of the ledger to a map from page numbers
      to lists of keys.

    - StateMonad: programs over a state, with the rules of total correctness.
    - SHAMapNode: shamap/SHAMapNodeID, SHAMapItem and SHAMapTreeNode, in Module
      [Node]: positions, inner nodes and leaves, hashes, binary forms.  The digest
      is the class [Digest]; [DigestLaws] says that digests are positive 256-bit
      integers.
    - SHAMap: shamap/SHAMap.h and shamap/impl/SHAMap.cpp, in Module [SM].  Nodes
      are shared and changed in place, so a [world] has a heap of nodes, the tree
      cache and the node store; a [SHAMap] has the location of its root, and its
      methods are programs over a world and a map.
    - SHAMapSync: the filters of a synchronisation and reading a map by its hash.
    - SHAMapRep, SHAMapRepFacts: digits and prefixes of keys, the Merkle hash of a
      finite map of items ([root_hash]), and what it means for a node to represent
      one ([rep], [inner_at]); children that are not in memory are in the store.
    - SHAMapGrow, SHAMapWalk: descending, which may fetch and link nodes and changes
      nothing else; [inv] is the invariant of a map in a world.
    - SHAMapModify, SHAMapAdd, SHAMapUpdate, SHAMapDelete: copying shared nodes on
      the way to a key, and the three modifications.
    - SHAMapIter: iterators and [upper_bound].
    - SHAMapMerkle: maps with the same Merkle hash have the same items.
    - SHAMapWire, SHAMapParse: binary forms read back, and what arbitrary bytes are
      read as.
    - SHAMapStore, SHAMapBranch, SHAMapFlush, SHAMapUnshare: writing nodes, work on
      one branch, [walkSubTree], and with it [unshare], [getHash] and [flushDirty].
    - SHAMapSpec, SHAMapSnapshot, SHAMapFetch: commands on one map and on two maps
      in one world against finite maps, snapshots, reading back.
    - SHAMapProps: the theorems about whole maps, with examples over a digest that
      can be computed.

    ** What is proved

    Value types: the arithmetic of [base_uint] is arithmetic modulo its width;
    text parses back; normalisation truncates to sixteen digits and reports
    overflow; order and equality are those of the numbers; sums, products and
    quotients have stated errors and the rounding variants err on a stated side;
    [mulDiv] never exceeds the ratio and is exact when the product fits; amounts,
    integers, field identifiers and variable length data read back from their wire
    form, and the wire form of an amount is unique.  The addition of issued
    [STAmount]s refines that of [IOUAmount].

    Views: a state table over a base reads as the overlay of its items, in each
    of [exists], [read], [succ] and the iteration over entries; modifications are
    map operations on the overlay; applying a view makes the one below it hold the
    overlay.  The theorems about application are proved against [RawViewLaws],
    which both kinds of view satisfy ([open_laws], [apply_laws]), so they compose
    along a stack of views.  For apply views the theorems also say which pointers
    are accepted, and that a change reaches the view below only if the table was
    told about it.

    Directories: [dirAdd] and [dirDelete] keep the chain of pages well-formed, add
    or remove exactly one entry, touch nothing else and do not throw; iteration
    visits every entry.

    Trees: any sequence of commands on a [SHAMap] gives the answers of a finite map
    and the Merkle hash of its items, nothing throws, and nodes of other maps are
    not touched; a snapshot and its original are two finite maps from then on,
    unless the map was empty; maps have the same hash exactly when they have the
    same items; iteration is in the order of keys and complete; nodes read back from
    both binary forms; what [flushDirty] has written is read back by the hash alone.

    Some theorems show where the code does not do what its comments or names say:
    native amounts that wrap, a product rounded up to less than itself, a division
    by zero in [mulDiv], issues that count as consistent, a directory that is left
    behind empty, a snapshot that is not apart from an empty original, a node from a
    peer with a branch that leads nowhere.

    ** Conventions

    A function that can throw returns a [result].  Assertions are not executed, as
    in a release build, and logging is left out.  Unsigned integers are wrapped
    explicitly at their width.  Signed sums that could overflow are wrapped too;
    where C++ leaves the result undefined the model either has [Throw (Undefined
    _)] or, for the drop counters of the state tables, two's complement.

    Loops that are not structural take fuel.  The loops of the amounts are bounded
    by the number of digits, and lemmas such as [while_do_exit] show that the fuel
    given suffices; the search for a successor passes at most every item once; the
    iteration over entries takes as many steps as there are entries and items; the
    walk over a directory as many as it has pages; [dirDelete] tries at most
    twenty pages; walks in a tree have fuel 64, the number of digits of a key.  The
    theorems about them give the result, not only its correctness if there is one.

    Hashes are parameters: [PageHash] with the law that the pages of one directory
    have different keys, and [Digest] for the nodes of trees.  That different
    strings have different digests is not a law: theorems that need it say of which
    strings ([no_collision]).  When an entry of the tree cache is dropped is not
    modelled; a map that is read back from an empty cache is ([restart]).  Ledger entries have typed field maps; templates, which
    say which fields an entry may have, are not enforced.

    ** What is not modelled

    Of the files above: base58 text, JSON, [IOUAmount] text, transaction objects
    and metadata (hence the closed ledger branch of [ApplyStateTable::apply]),
    object templates.  Of ledger/View.cpp: trust lines, transfers, referrals,
    asset release, ledger hashes and freezes.  Of SHAMaps: adding nodes from
    peers and the search for missing ones, comparison, threads.  Everything else in
    the server: transactors, payment paths, consensus, the overlay network, RPC,
    storage, and the bundled libraries; most of it is input and output, threads or
    third-party code.

    The next steps are the trust line functions of ledger/View.cpp as programs of
    [ViewLogic], [PaymentSandbox], transaction metadata over typed fields, order
    book directories, and the fee arithmetic of core/LoadFeeTrack. *)

From stdpp Require Export base option list gmap strings.
From Stdlib Require Export ZArith Lia.

#[global] Set Default Proof Using "Type".

Open Scope Z_scope.

(** ** Exceptions and the error monad

    A C++ function that can throw returns a [result].  The constructors of
    [exn] are the standard exception classes the sources throw; [LogicError]
    is [ripple::LogicError] (basics/contract.h), which terminates the process,
    [SHAMapMissingNode] has the key or digest of a node that cannot be found,
    and [Undefined] marks behaviour C++ leaves undefined, such as an integer
    division by zero. *)

Inductive exn :=
  | runtime_error (what : string)
  | overflow_error (what : string)
  | logic_error (what : string)
  | LogicError (what : string)
  | SHAMapMissingNode (hash : Z)
  | Undefined (what : string).

Inductive result (A : Type) :=
  | Ok (a : A)
  | Throw (e : exn).
Arguments Ok {A} a.
Arguments Throw {A} e.

#[global] Instance exn_eq_dec : EqDecision exn.
Proof. solve_decision. Defined.
#[global] Instance result_eq_dec {A} `{EqDecision A} : EqDecision (result A).
Proof. solve_decision. Defined.

Definition rbind {A B} (m : result A) (k : A → result B) : result B :=
  match m with Ok a => k a | Throw e => Throw e end.

Definition rmap {A B} (f : A → B) (m : result A) : result B :=
  rbind m (λ a, Ok (f a)).

Definition is_Ok {A} (m : result A) : bool :=
  match m with Ok _ => true | Throw _ => false end.

Declare Scope result_scope.
Delimit Scope result_scope with result.
Notation "'let*' x ':=' m 'in' k" := (rbind m (λ x, k))
  (at level 10, x pattern, m at level 100, k at level 200) : result_scope.
Open Scope result_scope.

Lemma rbind_Ok_inv {A B} (m : result A) (k : A → result B) b :
  rbind m k = Ok b → ∃ a, m = Ok a ∧ k a = Ok b.
Proof. destruct m; simpl; [eauto | done]. Qed.

Lemma rbind_assoc {A B C} (m : result A) (f : A → result B) (g : B → result C) :
  rbind (rbind m f) g = rbind m (λ a, rbind (f a) g).
Proof. by destruct m. Qed.

(** ** Machine integers

    A w-bit unsigned integer is a [Z] in [0, 2^w); the operations that can
    leave the range are wrapped explicitly. *)

Definition uwrap (w z : Z) : Z := z mod 2 ^ w.
Definition u8 : Z → Z := uwrap 8.
Definition u16 : Z → Z := uwrap 16.
Definition u32 : Z → Z := uwrap 32.
Definition u64 : Z → Z := uwrap 64.

(** Two's complement reading of the low [w] bits. *)
Definition swrap (w z : Z) : Z := (z + 2 ^ (w - 1)) mod 2 ^ w - 2 ^ (w - 1).
Definition i32 : Z → Z := swrap 32.
Definition i64 : Z → Z := swrap 64.

Definition u32_max : Z := 2 ^ 32 - 1.
Definition u64_max : Z := 2 ^ 64 - 1.

Lemma uwrap_id w z : 0 ≤ z < 2 ^ w → uwrap w z = z.
Proof. apply Z.mod_small. Qed.

Lemma uwrap_range w z : 0 ≤ w → 0 ≤ uwrap w z < 2 ^ w.
Proof. intros. apply Z.mod_pos_bound. by apply Z.pow_pos_nonneg. Qed.

Lemma u64_id z : 0 ≤ z < 2 ^ 64 → u64 z = z.
Proof. apply uwrap_id. Qed.

Lemma u32_id z : 0 ≤ z < 2 ^ 32 → u32 z = z.
Proof. apply uwrap_id. Qed.

Lemma u8_id z : 0 ≤ z < 256 → u8 z = z.
Proof. apply (uwrap_id 8). Qed.

Lemma u64_range z : 0 ≤ u64 z < 2 ^ 64.
Proof. by apply uwrap_range. Qed.

Lemma u8_range z : 0 ≤ u8 z < 256.
Proof. by apply (uwrap_range 8). Qed.

Lemma i64_id z : - 2 ^ 63 ≤ z < 2 ^ 63 → i64 z = z.
Proof.
  intros. unfold i64, swrap. change (64 - 1) with 63.
  rewrite Z.mod_small; lia.
Qed.

(** A wrap of a value in range, where [lia] can see the range. *)
Create Rewrite HintDb wraps.
#[export] Hint Rewrite u64_id u32_id u8_id i64_id using lia : wraps.

(** Decidable facts about concrete data, by computation. *)
Ltac by_computation := apply (bool_decide_unpack _); vm_compute; exact I.

(** Bits put above an [n]-bit field add up with it. *)
Lemma land_shifted x m n : 0 ≤ n → 0 ≤ m < 2 ^ n → Z.land (x * 2 ^ n) m = 0.
Proof.
  intros Hn Hm. apply Z.bits_inj_0. intros i. rewrite Z.land_spec.
  destruct (Z.lt_ge_cases i n) as [Hi|Hi].
  - by rewrite Z.mul_pow2_bits_low by lia.
  - destruct (Z.eq_dec m 0) as [->|]; [rewrite Z.bits_0; apply andb_false_r|].
    rewrite (Z.bits_above_log2 m); [apply andb_false_r|lia|].
    apply Z.log2_lt_pow2; [lia|]. apply Z.lt_le_trans with (2 ^ n); [lia|].
    apply Z.pow_le_mono_r; lia.
Qed.

Lemma lor_shifted x m n : 0 ≤ n → 0 ≤ m < 2 ^ n → Z.lor (x * 2 ^ n) m = x * 2 ^ n + m.
Proof.
  intros Hn Hm. pose proof (land_shifted x m n Hn Hm).
  by rewrite Z.add_nocarry_lxor, Z.lxor_lor.
Qed.

(** Testing and clearing one bit. *)
Lemma land_pow2 v k : 0 ≤ k → Z.land v (2 ^ k) = if Z.testbit v k then 2 ^ k else 0.
Proof.
  intros Hk. apply Z.bits_inj'. intros i Hi. rewrite Z.land_spec, Z.pow2_bits_eqb by done.
  destruct (Z.eqb_spec k i) as [<-|Hne].
  - rewrite andb_true_r. destruct (Z.testbit v k); [by rewrite Z.pow2_bits_true|by rewrite Z.bits_0].
  - rewrite andb_false_r. destruct (Z.testbit v k); [by rewrite Z.pow2_bits_false|by rewrite Z.bits_0].
Qed.

(** Flags tested with a mask of one bit. *)
Lemma flag_testbit x n : 0 ≤ n → (Z.land x (2 ^ n) =? 0) = negb (Z.testbit x n).
Proof.
  intros Hn. rewrite land_pow2 by done. destruct (Z.testbit x n); [|done].
  apply Z.eqb_neq. pose proof (Z.pow_pos_nonneg 2 n). lia.
Qed.

Lemma land_u64 v x : 0 ≤ v < 2 ^ 64 → Z.land v (u64 x) = Z.land v x.
Proof.
  intros Hv. unfold u64, uwrap. rewrite <- Z.land_ones by done.
  rewrite (Z.land_comm x), Z.land_assoc, Z.land_ones by done. by rewrite Z.mod_small.
Qed.

Lemma land_clear v k :
  0 ≤ v < 2 ^ 64 → 0 ≤ k →
  Z.land v (u64 (Z.lnot (2 ^ k))) = if Z.testbit v k then v - 2 ^ k else v.
Proof.
  intros Hv Hk. rewrite land_u64, <- Z.ldiff_land by done.
  destruct (Z.testbit v k) eqn:Hb.
  - symmetry. apply Z.sub_nocarry_ldiff. rewrite Z.ldiff_land.
    apply Z.bits_inj_0. intros i. rewrite Z.land_spec.
    destruct (Z.lt_ge_cases i 0) as [Hi|Hi]; [by rewrite !Z.testbit_neg_r|].
    rewrite Z.lnot_spec, Z.pow2_bits_eqb by done. destruct (Z.eqb_spec k i) as [<-|]; [by rewrite Hb|done].
  - rewrite Z.ldiff_land. apply Z.bits_inj'. intros i Hi. rewrite Z.land_spec, Z.lnot_spec by done.
    rewrite Z.pow2_bits_eqb by done. destruct (Z.eqb_spec k i) as [<-|]; [by rewrite Hb|].
    by rewrite andb_true_r.
Qed.

Lemma testbit_split b m k : 0 ≤ k → 0 ≤ m < 2 ^ k → Z.testbit (b * 2 ^ k + m) k = Z.odd b.
Proof.
  intros Hk Hm. replace k with (0 + k) at 2 by lia.
  rewrite <- Z.div_pow2_bits by lia.
  rewrite Z.add_comm, Z.div_add, Z.div_small, Z.add_0_l by lia. apply Z.bit0_odd.
Qed.

Lemma testbit_low b m k i : 0 ≤ i < k → Z.testbit (b * 2 ^ k + m) i = Z.testbit m i.
Proof.
  intros Hi. rewrite <- (Z.mod_pow2_bits_low (b * 2 ^ k + m) k i) by lia.
  rewrite Z.add_comm, Z.mod_add by (apply Z.pow_nonzero; lia).
  by rewrite Z.mod_pow2_bits_low by lia.
Qed.

Lemma testbit_high m k i : 0 ≤ m < 2 ^ k → k ≤ i → Z.testbit m i = false.
Proof.
  intros Hm Hi. destruct (Z.eq_dec m 0) as [->|]; [apply Z.bits_0|].
  apply Z.bits_above_log2; [lia|]. apply Z.lt_le_trans with k; [|done].
  apply Z.log2_lt_pow2; lia.
Qed.

(** ** Loops

    A C++ [while] loop is [while_do fuel cond body], with the fuel a bound on
    the number of iterations computed from the loop variables.  That the bound
    is enough is [while_do_exit]: the loop leaves with its condition false. *)

Section while.
Context {S : Type} (cond : S → bool) (body : S → S).

Fixpoint while_do (fuel : nat) (s : S) : S :=
  match fuel with
  | O => s
  | Datatypes.S n => if cond s then while_do n (body s) else s
  end.

Lemma while_do_ind (P : S → Prop) :
  (∀ s, P s → cond s = true → P (body s)) →
  ∀ fuel s s', P s → while_do fuel s = s' → P s'.
Proof.
  intros Hstep fuel. induction fuel as [|n IH]; simpl; intros s s' Hs.
  - by intros <-.
  - destruct (cond s) eqn:E; [eauto|by intros <-].
Qed.

Lemma while_do_exit (measure : S → nat) :
  (∀ s, cond s = true → (measure (body s) < measure s)%nat) →
  ∀ fuel s s', (measure s ≤ fuel)%nat → while_do fuel s = s' → cond s' = false.
Proof.
  intros Hdec fuel. induction fuel as [|n IH]; simpl; intros s s' Hm.
  - intros <-. destruct (cond s) eqn:E; [|done]. apply Hdec in E. lia.
  - destruct (cond s) eqn:E; [|by intros <-]. apply IH. apply Hdec in E. lia.
Qed.

Lemma while_do_false fuel s : cond s = false → while_do fuel s = s.
Proof. destruct fuel; simpl; [done|]. by intros ->. Qed.

Lemma while_do_step fuel s :
  cond s = true → while_do (Datatypes.S fuel) s = while_do fuel (body s).
Proof. simpl. by intros ->. Qed.
End while.

(** The same for a loop whose body can throw. *)
Section while_throw.
Context {S : Type} (cond : S → bool) (body : S → result S).

Fixpoint while_throw (fuel : nat) (s : S) : result S :=
  match fuel with
  | O => Ok s
  | Datatypes.S n =>
      if cond s then let* s' := body s in while_throw n s' else Ok s
  end.

Lemma while_throw_ind (P : S → Prop) :
  (∀ s s', P s → cond s = true → body s = Ok s' → P s') →
  ∀ fuel s s', P s → while_throw fuel s = Ok s' → P s'.
Proof.
  intros Hstep fuel. induction fuel as [|n IH]; simpl; intros s s' Hs.
  - by intros [= ->].
  - destruct (cond s) eqn:E; [|by intros [= ->]].
    intros (s1 & H1 & H2)%rbind_Ok_inv. eauto.
Qed.

Lemma while_throw_exit (measure : S → nat) :
  (∀ s s', cond s = true → body s = Ok s' → (measure s' < measure s)%nat) →
  ∀ fuel s s', (measure s < fuel)%nat →
    while_throw fuel s = Ok s' → cond s' = false.
Proof.
  intros Hdec fuel. induction fuel as [|n IH]; simpl; intros s s' Hm.
  - lia.
  - destruct (cond s) eqn:E; [|by intros [= <-]].
    intros (s1 & H1 & H2)%rbind_Ok_inv. eapply IH; [|done].
    apply (Hdec _ _ E) in H1. lia.
Qed.
End while_throw.

(** ** Byte strings, most significant byte first *)

Definition is_byte (b : Z) : Prop := 0 ≤ b < 256.
Definition bytes_ok (bs : list Z) : Prop := Forall is_byte bs.

#[global] Instance is_byte_dec b : Decision (is_byte b).
Proof. unfold is_byte. apply _. Defined.

Fixpoint be_bytes (n : nat) (z : Z) : list Z :=
  match n with
  | O => []
  | S n' => u8 (z / 256 ^ Z.of_nat n') :: be_bytes n' z
  end.

Fixpoint be_int (bs : list Z) : Z :=
  match bs with
  | [] => 0
  | b :: bs' => b * 256 ^ Z.of_nat (length bs') + be_int bs'
  end.

Lemma length_be_bytes n z : length (be_bytes n z) = n.
Proof. induction n; simpl; congruence. Qed.

Lemma be_bytes_ok n z : bytes_ok (be_bytes n z).
Proof. induction n; constructor; [apply u8_range|done]. Qed.

Lemma pow256_pos n : 0 < 256 ^ Z.of_nat n.
Proof. apply Z.pow_pos_nonneg; lia. Qed.

Lemma pow256_S n : 256 ^ Z.of_nat (S n) = 256 * 256 ^ Z.of_nat n.
Proof. rewrite Nat2Z.inj_succ, Z.pow_succ_r; lia. Qed.

Lemma be_int_be_bytes n z : be_int (be_bytes n z) = z mod 256 ^ Z.of_nat n.
Proof.
  induction n as [|n IH]; cbn [be_bytes be_int]; [by rewrite Z.mod_1_r|].
  rewrite length_be_bytes, IH, pow256_S. unfold u8, uwrap. change (2 ^ 8) with 256.
  pose proof (pow256_pos n). rewrite (Z.mul_comm 256).
  rewrite Z.rem_mul_r by lia. lia.
Qed.

Lemma be_int_range bs : bytes_ok bs → 0 ≤ be_int bs < 256 ^ Z.of_nat (length bs).
Proof.
  induction 1 as [|b bs Hb _ IH]; cbn [be_int length]; [lia|].
  rewrite pow256_S. unfold is_byte in Hb. nia.
Qed.

Lemma be_bytes_inj n x y :
  0 ≤ x < 256 ^ Z.of_nat n → 0 ≤ y < 256 ^ Z.of_nat n → be_bytes n x = be_bytes n y → x = y.
Proof.
  intros Hx Hy E. apply (f_equal be_int) in E. rewrite !be_int_be_bytes in E. by rewrite !Z.mod_small in E.
Qed.

Lemma be_bytes_add n z y :
  be_bytes n (y * 256 ^ Z.of_nat n + z) = be_bytes n z.
Proof.
  assert (∀ m : nat, (m ≤ n)%nat →
    be_bytes m (y * 256 ^ Z.of_nat n + z) = be_bytes m z) as H; [|by apply H].
  intros m. induction m as [|m IH]; intros Hm; [done|]. cbn [be_bytes]. f_equal; [|apply IH; lia].
  replace (256 ^ Z.of_nat n) with
    (256 ^ Z.of_nat (n - S m) * 256 * 256 ^ Z.of_nat m).
  2:{ rewrite <- Z.mul_assoc, <- pow256_S, <- Z.pow_add_r by lia. f_equal. lia. }
  pose proof (pow256_pos m).
  rewrite Z.mul_assoc, Z.div_add_l by lia.
  unfold u8, uwrap. change (2 ^ 8) with 256.
  replace (y * (256 ^ Z.of_nat (n - S m) * 256)) with (y * 256 ^ Z.of_nat (n - S m) * 256) by lia.
  by rewrite Z.add_comm, Z.mod_add by lia.
Qed.

Lemma be_bytes_be_int bs n : bytes_ok bs → length bs = n → be_bytes n (be_int bs) = bs.
Proof.
  intros H. revert n. induction H as [|b bs Hb Hbs IH]; intros n <-; [done|].
  cbn [be_bytes be_int length]. f_equal.
  - pose proof (be_int_range bs Hbs). pose proof (pow256_pos (length bs)).
    rewrite Z.div_add_l, Z.div_small by lia. rewrite Z.add_0_r. by apply u8_id.
  - rewrite be_bytes_add. by apply IH.
Qed.

Lemma be_int_app bs bs' :
  be_int (bs ++ bs') = be_int bs * 256 ^ Z.of_nat (length bs') + be_int bs'.
Proof.
  induction bs as [|b bs IH]; cbn [app be_int]; [lia|].
  rewrite IH, length_app, Nat2Z.inj_add, Z.pow_add_r by lia. lia.
Qed.

Lemma be_int_inj bs bs' :
  bytes_ok bs → bytes_ok bs' → length bs = length bs' →
  be_int bs = be_int bs' → bs = bs'.
Proof.
  intros H H' Hl Heq. rewrite <- (be_bytes_be_int bs (length bs)), Heq by done.
  by apply be_bytes_be_int.
Qed.

(** A decidable property of bytes is checked by enumeration. *)
Lemma byte_forall (P : Z → Prop) `{∀ c, Decision (P c)} :
  bool_decide (Forall P (seqZ 0 256)) = true → ∀ c, is_byte c → P c.
Proof.
  intros Hb c Hc. apply bool_decide_eq_true in Hb. rewrite Forall_forall in Hb.
  apply Hb, elem_of_seqZ. unfold is_byte in Hc. lia.
Qed.

(** ** The digest *)

(** The digest, [sha512Half] of protocol/digest.h, of the bytes its arguments
    append to the hasher.  SHA-512 is not part of the sources; that digests are
    256-bit integers is in [DigestLaws], with the assumption the program makes
    when it takes the zero digest to mean that there is none. *)
Class Digest := sha512Half : list Z → Z.

Class DigestLaws `{Digest} := {
  digest_range bs : 0 < sha512Half bs < 2 ^ 256
}.
