(* ===== verification/StateMonad.v ===== *)
(** * Programs with state

    A C++ function that changes the objects it is given and may throw is a
    function from the state to a result.  With it comes a small logic of total
    correctness: what holds after a program when it is run, including that it
    does not throw. *)

From S2P Require Import Prelude.

Section monad.
Context {S : Type}.

Definition M (A : Type) : Type := S → result (A * S).

Definition ret {A} (a : A) : M A := λ s, Ok (a, s).

Definition bind {A B} (m : M A) (k : A → M B) : M B :=
  λ s, let* r := m s in k r.1 r.2.

Definition throw {A} (e : exn) : M A := λ _, Throw e.

(** A function without state as a program. *)
Definition lift {A} (r : result A) : M A := λ s, let* a := r in Ok (a, s).

Definition gets {A} (f : S → A) : M A := λ s, Ok (f s, s).

Definition modify (f : S → S) : M () := λ s, Ok ((), f s).

(** [if (b) m] *)
Definition when (b : bool) (m : M ()) : M () := if b then m else ret ().

(** Using a pointer that may be null. *)
Definition non_null {A} (r : option A) : M A :=
  match r with Some p => ret p | None => throw (Undefined "null pointer") end.

(** A loop over a list. *)
Section fold.
Context {A B : Type} (f : A → B → M A).

Fixpoint foldM (a : A) (l : list B) : M A :=
  match l with
  | [] => ret a
  | b :: l => bind (f a b) (λ a, foldM a l)
  end.
End fold.

(** The program ends without throwing, with a value and a state that satisfy
    the postcondition. *)
Definition wp {A} (m : M A) (s : S) (Q : A → S → Prop) : Prop :=
  match m s with Ok (a, s') => Q a s' | Throw _ => False end.

Lemma wp_ret {A} (a : A) s (Q : A → S → Prop) : Q a s → wp (ret a) s Q.
Proof. done. Qed.

Lemma wp_gets {A} (f : S → A) s (Q : A → S → Prop) : Q (f s) s → wp (gets f) s Q.
Proof. done. Qed.

Lemma wp_modify (f : S → S) s (Q : () → S → Prop) : Q () (f s) → wp (modify f) s Q.
Proof. done. Qed.

Lemma wp_bind {A B} (m : M A) (k : A → M B) s Q :
  wp m s (λ a s', wp (k a) s' Q) → wp (bind m k) s Q.
Proof. unfold wp, bind. destruct (m s) as [[a s']|]; done. Qed.

Lemma wp_bind_inv {A B} (m : M A) (k : A → M B) s Q :
  wp (bind m k) s Q → wp m s (λ a s', wp (k a) s' Q).
Proof. unfold wp, bind. destruct (m s) as [[a s']|]; done. Qed.

Lemma bind_run {A B} (m : M A) (k : A → M B) s a s' : m s = Ok (a, s') → bind m k s = k a s'.
Proof. unfold bind. by intros ->. Qed.

(** What holds of the outcome, exceptions included, after a program that does not
    throw. *)
Lemma wp_then {A B} (m : M A) (k : A → M B) s (P : result (B * S) → Prop) :
  wp m s (λ a s', P (k a s')) → P (bind m k s).
Proof. unfold wp, bind. by destruct (m s) as [[a s']|]. Qed.

Lemma wp_throw {A B} (m : M A) (k : A → M B) s e :
  wp m s (λ a s', k a s' = Throw e) → bind m k s = Throw e.
Proof. apply (wp_then m k s (λ r, r = Throw e)). Qed.

Lemma wp_mono {A} (m : M A) s (P Q : A → S → Prop) :
  wp m s P → (∀ a s', P a s' → Q a s') → wp m s Q.
Proof. unfold wp. destruct (m s) as [[a s']|]; auto. Qed.

Lemma wp_and {A} (m : M A) s (P Q : A → S → Prop) :
  wp m s P → wp m s Q → wp m s (λ a s', P a s' ∧ Q a s').
Proof. unfold wp. destruct (m s) as [[a s']|]; auto. Qed.

Lemma wp_run {A} (m : M A) s Q : wp m s Q → ∃ a s', m s = Ok (a, s') ∧ Q a s'.
Proof. unfold wp. destruct (m s) as [[a s']|]; [eauto|done]. Qed.

Lemma wp_of_run {A} (m : M A) s (Q : A → S → Prop) a s' : m s = Ok (a, s') → Q a s' → wp m s Q.
Proof. unfold wp. by intros ->. Qed.

Lemma wp_same {A} (m m' : M A) s (Q : A → S → Prop) : m s = m' s → wp m' s Q → wp m s Q.
Proof. unfold wp. by intros ->. Qed.

(** A result that is known. *)
Lemma wp_lift {A B} (r : result A) a (k : A → M B) s Q : r = Ok a → wp (k a) s Q → wp (bind (lift r) k) s Q.
Proof. intros ->. by unfold bind, lift, wp. Qed.

Lemma wp_when (b : bool) (m : M ()) s (Q : () → S → Prop) :
  (b = true → wp m s Q) → (b = false → Q () s) → wp (when b m) s Q.
Proof. destruct b; simpl; intros H1 H2; [by apply H1|by apply H2]. Qed.

(** A loop over the first numbers, with an invariant. *)
Lemma wp_foldM_seq {A} (f : A → nat → M A) (I : nat → A → S → Prop) n a s (Q : A → S → Prop) :
  I 0%nat a s → (∀ k a s, (k < n)%nat → I k a s → wp (f a k) s (I (k + 1)%nat)) →
  (∀ a s, I n a s → Q a s) → wp (foldM f a (seq 0 n)) s Q.
Proof.
  intros H0 HS HQ. assert (∀ m k a s, (k + m = n)%nat → I k a s → wp (foldM f a (seq k m)) s Q) as Hgen.
  { induction m as [|m IH]; intros k a' s' Hk HI; cbn [seq foldM].
    - apply wp_ret, HQ. by replace n with k by lia.
    - apply wp_bind. eapply wp_mono; [apply HS; [lia|done]|]. intros a2 s2 HI2.
      apply IH; [lia|]. by replace (Datatypes.S k) with (k + 1)%nat by lia. }
  by apply (Hgen n 0%nat).
Qed.

End monad.

Arguments M S A : clear implicits.

Declare Scope prog_scope.
Delimit Scope prog_scope with prog.
Notation "'let!' x := m 'in' k" := (bind m (λ x, k))
  (at level 10, x pattern, m at level 100, k at level 200) : prog_scope.
Notation "m ;; k" := (bind m (λ _, k)) (at level 100, right associativity) : prog_scope.
Open Scope prog_scope.
