(* ===== verification/BaseUint.v ===== *)
(** * base_uint

    basics/base_uint.h and basics/strHex.h: the fixed width big-endian integers
    that hash, account and currency identifiers are made of.  The limbs are
    listed most significant first, each read in host order (the code stores
    them big-endian and converts with [bigendToHost] and [hostToBigend]).  The
    theorems identify the type with the integers modulo [2 ^ (32 * WIDTH)],
    which is how the other files of the development use it. *)

From S2P Require Import Prelude.

Definition limb_ok (x : Z) : Prop := 0 ≤ x < 2 ^ 32.
Definition limbs_ok (ws : list Z) : Prop := Forall limb_ok ws.

(** The integer a limb list stands for. *)
Fixpoint val (ws : list Z) : Z :=
  match ws with
  | [] => 0
  | w :: ws' => w * (2 ^ 32) ^ Z.of_nat (length ws') + val ws'
  end.

(** [begin () .. end ()]. *)
Definition bytes (ws : list Z) : list Z := concat (be_bytes 4 <$> ws).

Definition signum (ws : list Z) : Z :=
  if forallb (λ w, w =? 0) ws then 0 else 1.

(** [operator= (std::uint64_t)], for a width of [n] limbs. *)
Definition of_u64 (n : nat) (b : Z) : list Z :=
  replicate (n - 2) 0 ++ [u32 (b / 2 ^ 32); u32 b].

Definition bnot (ws : list Z) : list Z := (λ w, Z.lxor w (2 ^ 32 - 1)) <$> ws.
Definition bxor (a b : list Z) : list Z := zip_with Z.lxor a b.
Definition band (a b : list Z) : list Z := zip_with Z.land a b.
Definition bor (a b : list Z) : list Z := zip_with Z.lor a b.

(** The loops of [operator++], [operator--] and [operator+=] run from the last
    limb to the first: they are recursions on the reversed list. *)
Fixpoint incr_le (ws : list Z) : list Z :=
  match ws with
  | [] => []
  | w :: ws' =>
      let w' := u32 (w + 1) in
      w' :: (if w' =? 0 then incr_le ws' else ws')
  end.

Fixpoint decr_le (ws : list Z) : list Z :=
  match ws with
  | [] => []
  | w :: ws' =>
      let prev := w in
      u32 (w - 1) :: (if prev =? 0 then decr_le ws' else ws')
  end.

Fixpoint add_le (carry : Z) (a b : list Z) : list Z :=
  match a, b with
  | x :: a', y :: b' =>
      let n := u64 (carry + x + y) in
      Z.land n (2 ^ 32 - 1) :: add_le (Z.shiftr n 32) a' b'
  | _, _ => []
  end.

Definition incr (ws : list Z) : list Z := reverse (incr_le (reverse ws)).
Definition decr (ws : list Z) : list Z := reverse (decr_le (reverse ws)).
Definition add (a b : list Z) : list Z := reverse (add_le 0 (reverse a) (reverse b)).

(** [compare]: the first byte that differs decides. *)
Fixpoint compare_bytes (a b : list Z) : Z :=
  match a, b with
  | x :: a', y :: b' =>
      if x =? y then compare_bytes a' b' else if y <? x then 1 else -1
  | _, _ => 0
  end.

Definition compare (a b : list Z) : Z := compare_bytes (bytes a) (bytes b).

(** ** Hexadecimal text, as character codes *)

Definition charHex (digit : Z) : Z :=
  if digit <? 10 then 48 + digit else 65 + (digit - 10).

Definition charUnHex (c : Z) : option Z :=
  if (48 <=? c) && (c <=? 57) then Some (c - 48)
  else if (65 <=? c) && (c <=? 70) then Some (10 + (c - 65))
  else if (97 <=? c) && (c <=? 102) then Some (10 + (c - 97))
  else None.

Definition strHex (bs : list Z) : list Z :=
  concat ((λ c, [charHex (Z.shiftr c 4); charHex (Z.land c 15)]) <$> bs).

(** [SetHexExact] for a width of [n] bytes; [None] is [return false]. *)
Fixpoint SetHexExact (n : nat) (s : list Z) : option (list Z) :=
  match n with
  | O => match s with [] => Some [] | _ => None end
  | S n' =>
      match s with
      | c1 :: c2 :: s' =>
          match charUnHex c1, charUnHex c2 with
          | Some hi, Some lo =>
              cons (Z.lor (Z.shiftl hi 4) lo) <$> SetHexExact n' s'
          | _, _ => None
          end
      | _ => None
      end
  end.

Definition isspace (c : Z) : bool := (c =? 32) || ((9 <=? c) && (c <=? 13)).

Fixpoint skip_spaces (s : list Z) : list Z :=
  match s with
  | c :: s' => if isspace c then skip_spaces s' else s
  | [] => []
  end.

Definition skip_0x (s : list Z) : list Z :=
  match s with
  | 48 :: x :: s' => if (x =? 120) || (x =? 88) then s' else s
  | _ => s
  end.

(** The longest hexadecimal prefix, as digit values, and what follows it. *)
Fixpoint hex_span (s : list Z) : list Z * list Z :=
  match s with
  | c :: s' =>
      match charUnHex c with
      | Some d => let '(ds, r) := hex_span s' in (d :: ds, r)
      | None => ([], s)
      end
  | [] => ([], [])
  end.

Fixpoint hex_pairs (ds : list Z) : list Z :=
  match ds with
  | hi :: lo :: ds' => Z.lor (Z.shiftl hi 4) lo :: hex_pairs ds'
  | [hi] => [Z.shiftl hi 4]
  | [] => []
  end.

Definition hex_pack (ds : list Z) : list Z :=
  if Nat.odd (length ds) then
    match ds with d :: ds' => d :: hex_pairs ds' | [] => [] end
  else hex_pairs ds.

(** [SetHex]: the value stored, and whether the text was consumed. *)
Definition SetHex (n : nat) (strict : bool) (s : list Z) : list Z * bool :=
  let s := if strict then s else skip_0x (skip_spaces s) in
  let '(ds, rest) := hex_span s in
  let ds := drop (length ds - 2 * n) ds in
  let out := hex_pack ds in
  (replicate (n - length out) 0 ++ out, match rest with [] => true | _ => false end).

(** ** The limb list as an integer *)

#[local] Abbreviation B := (2 ^ 32).

Lemma limb_pow_pos n : 0 < B ^ Z.of_nat n.
Proof. apply Z.pow_pos_nonneg; lia. Qed.

Lemma limb_pow_S n : B ^ Z.of_nat (S n) = B * B ^ Z.of_nat n.
Proof. rewrite Nat2Z.inj_succ, Z.pow_succ_r; lia. Qed.

Lemma val_app a b : val (a ++ b) = val a * B ^ Z.of_nat (length b) + val b.
Proof.
  induction a as [|x a IH]; cbn [app val]; [lia|].
  rewrite IH, length_app, Nat2Z.inj_add, (Z.pow_add_r B) by lia. lia.
Qed.

Lemma val_range ws : limbs_ok ws → 0 ≤ val ws < B ^ Z.of_nat (length ws).
Proof.
  induction 1 as [|w ws Hw _ IH]; cbn [val length]; [lia|].
  rewrite limb_pow_S. unfold limb_ok in Hw. nia.
Qed.

Lemma val_reverse_cons w ws : val (reverse (w :: ws)) = val (reverse ws) * B + w.
Proof. rewrite reverse_cons, val_app. cbn [val length]. lia. Qed.

Lemma val_reverse_range ws :
  limbs_ok ws → 0 ≤ val (reverse ws) < B ^ Z.of_nat (length ws).
Proof.
  intros H. rewrite <- length_reverse. apply val_range.
  unfold limbs_ok. by rewrite Forall_reverse.
Qed.

(** Splitting off the least significant limb of a remainder. *)
Lemma limb_mod q r n :
  0 ≤ r < B → (q * B + r) mod B ^ Z.of_nat (S n) = (q mod B ^ Z.of_nat n) * B + r.
Proof.
  intros. pose proof (limb_pow_pos n). rewrite limb_pow_S, Z.rem_mul_r by lia.
  rewrite Z.div_add_l, Z.div_small, Z.add_0_r by lia.
  rewrite (Z.add_comm (q * B)), Z.mod_add, Z.mod_small by lia. lia.
Qed.

Lemma incr_le_val ws :
  limbs_ok ws →
  val (reverse (incr_le ws)) = (val (reverse ws) + 1) mod B ^ Z.of_nat (length ws).
Proof.
  induction 1 as [|w ws Hw Hws IH]; [done|].
  cbn [incr_le length]. rewrite !val_reverse_cons. unfold limb_ok in Hw.
  destruct (Z.eqb_spec (u32 (w + 1)) 0) as [H0|H0].
  - assert (w = B - 1) as ->.
    { destruct (Z.eq_dec w (B - 1)); [done|].
      rewrite u32_id in H0 by lia. lia. }
    rewrite H0, IH. rewrite <- limb_mod by lia. f_equal. lia.
  - assert (w ≠ B - 1) by (intros ->; done).
    rewrite u32_id by lia. rewrite <- Z.add_assoc, limb_mod by lia.
    rewrite Z.mod_small by (by apply val_reverse_range). lia.
Qed.

Lemma decr_le_val ws :
  limbs_ok ws →
  val (reverse (decr_le ws)) = (val (reverse ws) - 1) mod B ^ Z.of_nat (length ws).
Proof.
  induction 1 as [|w ws Hw Hws IH]; [done|].
  cbn [decr_le length]. rewrite !val_reverse_cons. unfold limb_ok in Hw.
  destruct (Z.eqb_spec w 0) as [->|H0].
  - rewrite IH. change (u32 (0 - 1)) with (B - 1). rewrite <- limb_mod by lia.
    f_equal. lia.
  - rewrite u32_id by lia. rewrite <- Z.add_sub_assoc, limb_mod by lia.
    rewrite Z.mod_small by (by apply val_reverse_range). lia.
Qed.

Lemma add_le_val carry a b :
  0 ≤ carry < B → limbs_ok a → limbs_ok b → length a = length b →
  val (reverse (add_le carry a b)) =
    (carry + val (reverse a) + val (reverse b)) mod B ^ Z.of_nat (length a).
Proof.
  intros Hc Ha. revert carry Hc b. induction Ha as [|x a Hx Ha IH]; intros carry Hc b Hb Hl.
  { by destruct b; [rewrite Z.mod_1_r|]. }
  destruct Hb as [|y b Hy Hb]; [done|]. injection Hl as Hl.
  unfold limb_ok in *. cbn [add_le length]. rewrite !val_reverse_cons.
  rewrite u64_id by lia. set (n := carry + x + y).
  change (B - 1) with (Z.ones 32). rewrite Z.land_ones, Z.shiftr_div_pow2 by lia.
  assert (0 ≤ n / B < B).
  { split; [apply Z.div_pos; lia|]. apply Z.div_lt_upper_bound; lia. }
  rewrite IH by done. rewrite <- limb_mod by (apply Z.mod_pos_bound; lia).
  f_equal. pose proof (Z.div_mod n B). lia.
Qed.

Lemma limbs_ok_reverse ws : limbs_ok (reverse ws) ↔ limbs_ok ws.
Proof. unfold limbs_ok. by rewrite Forall_reverse. Qed.

Lemma bytes_val ws : limbs_ok ws → be_int (bytes ws) = val ws ∧
  length (bytes ws) = (4 * length ws)%nat ∧ bytes_ok (bytes ws).
Proof.
  induction 1 as [|w ws Hw _ (IH & IHl & IHb)]; [repeat constructor|].
  unfold bytes in *. rewrite fmap_cons. cbn [concat val length].
  rewrite be_int_app, length_app, be_int_be_bytes, IH, IHl, length_be_bytes.
  split_and!.
  - unfold limb_ok in Hw. rewrite Z.mod_small by (simpl; lia).
    rewrite Nat2Z.inj_mul, (Z.pow_mul_r 256) by lia. done.
  - lia.
  - apply Forall_app. split; [apply be_bytes_ok|done].
Qed.

Lemma compare_bytes_sgn a b :
  bytes_ok a → bytes_ok b → length a = length b →
  compare_bytes a b = Z.sgn (be_int a - be_int b).
Proof.
  intros Ha. revert b. induction Ha as [|x a Hx Ha IH]; intros b Hb Hl.
  { by destruct b. }
  destruct Hb as [|y b Hy Hb]; [done|]. injection Hl as Hl.
  cbn [compare_bytes be_int]. rewrite IH, Hl by done.
  pose proof (be_int_range a Ha). pose proof (be_int_range b Hb). rewrite Hl in *.
  destruct (Z.eqb_spec x y) as [->|]; [f_equal; lia|].
  set (P := 256 ^ Z.of_nat (length b)) in *.
  destruct (Z.ltb_spec y x).
  - assert (1 * P ≤ (x - y) * P) by (apply Z.mul_le_mono_nonneg_r; lia). lia.
  - assert (1 * P ≤ (y - x) * P) by (apply Z.mul_le_mono_nonneg_r; lia). lia.
Qed.

(** ** Hexadecimal round trips *)

Lemma hex_byte c :
  is_byte c →
  charUnHex (charHex (Z.shiftr c 4)) = Some (Z.shiftr c 4) ∧
  charUnHex (charHex (Z.land c 15)) = Some (Z.land c 15) ∧
  Z.lor (Z.shiftl (Z.shiftr c 4) 4) (Z.land c 15) = c ∧
  isspace (charHex (Z.shiftr c 4)) = false ∧
  charHex (Z.land c 15) ≠ 120 ∧ charHex (Z.land c 15) ≠ 88.
Proof.
  revert c. apply (byte_forall (λ c,
    charUnHex (charHex (Z.shiftr c 4)) = Some (Z.shiftr c 4) ∧
    charUnHex (charHex (Z.land c 15)) = Some (Z.land c 15) ∧
    Z.lor (Z.shiftl (Z.shiftr c 4) 4) (Z.land c 15) = c ∧
    isspace (charHex (Z.shiftr c 4)) = false ∧
    charHex (Z.land c 15) ≠ 120 ∧ charHex (Z.land c 15) ≠ 88)).
  vm_compute. reflexivity.
Qed.

Lemma strHex_SetHexExact bs n :
  bytes_ok bs → length bs = n → SetHexExact n (strHex bs) = Some bs.
Proof.
  intros H. revert n. induction H as [|c bs Hc _ IH]; intros n <-; [done|].
  unfold strHex in *. rewrite fmap_cons. cbn [concat app length SetHexExact].
  destruct (hex_byte c Hc) as (-> & -> & -> & _). by rewrite IH.
Qed.

Lemma strHex_span bs :
  bytes_ok bs → ∃ ds, hex_span (strHex bs) = (ds, []) ∧
    length ds = (2 * length bs)%nat ∧ hex_pairs ds = bs.
Proof.
  induction 1 as [|c bs Hc _ (ds & IH & Hl & Hp)]; [by exists []|].
  unfold strHex in *. rewrite fmap_cons. cbn [concat app hex_span length].
  destruct (hex_byte c Hc) as (-> & -> & Hlor & _). rewrite IH.
  eexists. split; [done|]. cbn [length hex_pairs]. rewrite Hp, Hlor. split; [lia|done].
Qed.

Lemma strHex_no_prefix bs :
  bytes_ok bs → skip_0x (skip_spaces (strHex bs)) = strHex bs.
Proof.
  destruct 1 as [|c bs Hc _]; [done|]. unfold strHex. rewrite fmap_cons. cbn [concat app].
  destruct (hex_byte c Hc) as (_ & _ & _ & Hs & Hx & HX).
  cbn [skip_spaces]. rewrite Hs. set (h := charHex (Z.shiftr c 4)).
  set (l := charHex (Z.land c 15)) in *. unfold skip_0x.
  destruct (Z.eqb_spec l 120), (Z.eqb_spec l 88); try done. cbn [orb].
  repeat (case_match; try done).
Qed.

Lemma strHex_SetHex bs n strict :
  bytes_ok bs → length bs = n → SetHex n strict (strHex bs) = (bs, true).
Proof.
  intros H Hl. unfold SetHex. rewrite strHex_no_prefix by done.
  destruct (strHex_span bs H) as (ds & Hs & Hd & Hp).
  replace (if strict then strHex bs else strHex bs) with (strHex bs) by (by destruct strict).
  rewrite Hs. replace (length ds - 2 * n)%nat with 0%nat by lia. rewrite drop_0.
  unfold hex_pack. rewrite Hd, Nat.odd_mul. change (Nat.odd 2) with false. cbn [andb].
  by rewrite Hp, Hl, Nat.sub_diag.
Qed.

(** ** Properties *)

(** the limb arithmetic of [base_uint] is arithmetic modulo [2 ^ Bits], and
    its byte-wise comparison is the order of the integers: [operator++],
    [operator--], [operator+=] and [compare]. *)
Theorem base_uint_arith a b :
  limbs_ok a → limbs_ok b → length a = length b →
  let M := (2 ^ 32) ^ Z.of_nat (length a) in
  val (incr a) = (val a + 1) mod M ∧
  val (decr a) = (val a - 1) mod M ∧
  val (add a b) = (val a + val b) mod M ∧
  compare a b = Z.sgn (val a - val b) ∧
  (compare a b = 0 ↔ a = b).
Proof.
  intros Ha Hb Hl M.
  assert (compare a b = Z.sgn (val a - val b)) as Hc.
  { destruct (bytes_val a Ha) as (Hva & Hla & Hba), (bytes_val b Hb) as (Hvb & Hlb & Hbb).
    unfold compare. rewrite compare_bytes_sgn, Hva, Hvb by (done || congruence). done. }
  split_and!; try done.
  - unfold incr. rewrite incr_le_val, reverse_involutive, length_reverse; [done|].
    by apply limbs_ok_reverse.
  - unfold decr. rewrite decr_le_val, reverse_involutive, length_reverse; [done|].
    by apply limbs_ok_reverse.
  - unfold add. rewrite add_le_val, !reverse_involutive, length_reverse; [done|lia|..].
    + by apply limbs_ok_reverse.
    + by apply limbs_ok_reverse.
    + by rewrite !length_reverse.
  - rewrite Hc. split; [|intros ->; lia].
    intros Heq. assert (val a = val b) by lia. clear Hc M Heq. revert b Hb Hl H.
    induction Ha as [|x a Hx Ha IH]; intros [|y b] Hb Hl; try done.
    injection Hl as Hl. apply Forall_cons in Hb as [Hy Hb]. cbn [val]. rewrite Hl. intros Hv.
    pose proof (val_range a Ha). pose proof (val_range b Hb).
    pose proof (limb_pow_pos (length b)). rewrite Hl in *.
    assert (x = y) as -> by nia. f_equal. apply IH; auto. lia.
Qed.

Lemma base_uint_arith_witness :
  val (incr [1; 2 ^ 32 - 1]) = (val [1; 2 ^ 32 - 1] + 1) mod (2 ^ 32) ^ 2 ∧
  compare [1; 2 ^ 32 - 1] [2; 0] = -1.
Proof.
  destruct (base_uint_arith [1; 2 ^ 32 - 1] [2; 0]) as (H1 & _ & _ & H2 & _).
  - repeat constructor; unfold limb_ok; lia.
  - repeat constructor; unfold limb_ok; lia.
  - reflexivity.
  - split; [exact H1|]. rewrite H2. reflexivity.
Defined.

(** The hexadecimal text of a value parses back to it, both with the exact
    parser and with the lenient one. *)
Theorem hex_roundtrip bs n strict :
  bytes_ok bs → length bs = n →
  SetHexExact n (strHex bs) = Some bs ∧ SetHex n strict (strHex bs) = (bs, true).
Proof. auto using strHex_SetHexExact, strHex_SetHex. Qed.

Lemma hex_roundtrip_witness :
  SetHexExact 3 (strHex [0; 171; 255]) = Some [0; 171; 255].
Proof.
  apply (hex_roundtrip [0; 171; 255] 3 false).
  - repeat constructor; unfold is_byte; lia.
  - reflexivity.
Defined.

Lemma length_strHex bs : length (strHex bs) = (2 * length bs)%nat.
Proof.
  induction bs as [|c bs IH]; [done|]. unfold strHex in *. rewrite fmap_cons.
  cbn [concat app length]. rewrite IH. lia.
Qed.
