(* ===== verification/Issue.v ===== *)
(** * Currencies, accounts and issues

    protocol/UintTypes.h, protocol/AccountID.h, protocol/Issue.h and their
    implementations.  Currencies and accounts are 160-bit identifiers, read as
    integers (BaseUint.v).  Radar has two native currencies: VRP, which keeps
    ripple's name XRP in the code, and VBC. *)

From S2P Require Import Prelude BaseUint.

Definition Currency := Z.
Definition AccountID := Z.

Definition xrpCurrency : Currency := 0.
Definition vbcCurrency : Currency := 0xFF.
Definition noCurrency : Currency := 1.
Definition badCurrency : Currency := 0x5652500000000000.
Definition assetCurrency : Currency := 0x4153534554000000000000000000000000000000.

Definition xrpAccount : AccountID := 0.
Definition vbcAccount : AccountID := 0xFF.
Definition noAccount : AccountID := 1.

(** [isXRP], [isVBC] and [isNative] are overloaded on currencies and
    accounts, with the same distinguished values. *)
Definition isXRP (c : Z) : bool := c =? 0.
Definition isVBC (c : Z) : bool := c =? vbcCurrency.
Definition isNative (c : Z) : bool := isXRP c || isVBC c.

Record Issue := mkIssue { currency : Currency; account : AccountID }.

#[global] Instance Issue_eq_dec : EqDecision Issue.
Proof. solve_decision. Defined.

Definition xrpIssue : Issue := mkIssue xrpCurrency xrpAccount.
Definition vbcIssue : Issue := mkIssue vbcCurrency vbcAccount.
Definition noIssue : Issue := mkIssue noCurrency noAccount.

Definition isConsistent (ac : Issue) : bool :=
  Bool.eqb (isXRP (currency ac)) (isXRP (account ac)) ||
  Bool.eqb (isVBC (currency ac)) (isVBC (account ac)).

(** [compare] on issues, with [base_uint]'s [compare] as the sign of the
    difference (BaseUint.v, [base_uint_arith]). *)
Definition compare (lhs rhs : Issue) : Z :=
  let diff := Z.sgn (currency lhs - currency rhs) in
  if negb (diff =? 0) then diff
  else if isNative (currency lhs) then 0
  else Z.sgn (account lhs - account rhs).

Definition issue_eqb (lhs rhs : Issue) : bool := compare lhs rhs =? 0.
Definition issue_ltb (lhs rhs : Issue) : bool := compare lhs rhs <? 0.

(** ** Currency codes *)

Definition chars (s : string) : list Z :=
  (λ a, Z.of_nat (Ascii.nat_of_ascii a)) <$> String.list_ascii_of_string s.

Definition systemCurrencyCode : list Z := chars "VRP".
Definition systemCurrencyCodeVBC : list Z := chars "VBC".

Definition allowed_characters : list Z :=
  chars "abcdefghijklmnopqrstuvwxyzABCDEFGHIJKLMNOPQRSTUVWXYZ0123456789<>(){}[]|?!@#$%^&*".

Definition sIsoBits : Z := 0xFFFFFFFFFFFFFFFFFFFFFFFF000000FFFFFFFFFF.

Definition currency_to_string (c : Currency) : list Z :=
  if c =? 0 then systemCurrencyCode
  else if c =? vbcCurrency then systemCurrencyCodeVBC
  else if c =? noCurrency then chars "1"
  else
    let hex := strHex (be_bytes 20 c) in
    if Z.land c sIsoBits =? 0 then
      let iso := take 3 (drop 12 (be_bytes 20 c)) in
      if bool_decide (iso ≠ systemCurrencyCode) &&
         bool_decide (iso ≠ systemCurrencyCodeVBC) &&
         forallb (λ ch, bool_decide (ch ∈ allowed_characters)) iso
      then iso else hex
    else hex.

Definition toupper (c : Z) : Z := if (97 <=? c) && (c <=? 122) then c - 32 else c.

(** [to_currency (Currency&, code)]: [None] is [return false]. *)
Definition to_currency (code : list Z) : option Currency :=
  if bool_decide (code = []) || bool_decide (code = systemCurrencyCode) then Some 0
  else if bool_decide (code = systemCurrencyCodeVBC) then Some vbcCurrency
  else if (length code =? 3)%nat then
    Some (be_int (replicate 12 0 ++ (toupper <$> code) ++ replicate 2 0 ++ replicate 3 0))
  else if (length code =? 40)%nat then
    let '(bs, ok) := SetHex 20 false code in
    if ok then Some (be_int bs) else None
  else None.

(** ** Facts about issues *)

(** The account as far as the order looks at it. *)
Definition order_account (i : Issue) : AccountID :=
  if isNative (currency i) then 0 else account i.

Lemma compare_key lhs rhs :
  compare lhs rhs =
    if currency lhs =? currency rhs then Z.sgn (order_account lhs - order_account rhs)
    else Z.sgn (currency lhs - currency rhs).
Proof.
  unfold compare, order_account.
  destruct (Z.eqb_spec (currency lhs) (currency rhs)) as [Heq|Hne].
  - rewrite Heq, Z.sub_diag. cbn. by destruct (isNative _).
  - destruct (Z.eqb_spec (Z.sgn (currency lhs - currency rhs)) 0); [lia|done].
Qed.

(** Issues are ordered by currency and, unless the currency is native, by
    account: equality of issues ignores the account of a native currency, and
    the order is a strict weak order whose incomparability is that equality. *)
Theorem issue_order a b c :
  (issue_eqb a b = true ↔
     currency a = currency b ∧ (isNative (currency a) = true ∨ account a = account b)) ∧
  issue_ltb a a = false ∧
  (issue_ltb a b = true → issue_ltb b c = true → issue_ltb a c = true) ∧
  (issue_ltb a b = false → issue_ltb b a = false → issue_eqb a b = true) ∧
  compare b a = - compare a b.
Proof.
  unfold issue_eqb, issue_ltb. rewrite !compare_key, Z.eqb_refl, Z.sub_diag.
  assert (currency a = currency b → order_account a = order_account b ↔
    isNative (currency a) = true ∨ account a = account b) as Hk.
  { unfold order_account. intros ->. destruct (isNative _); [split; auto|]. split; [auto|by intros [|]]. }
  destruct (Z.eqb_spec (currency a) (currency b)), (Z.eqb_spec (currency b) (currency c)),
    (Z.eqb_spec (currency a) (currency c)), (Z.eqb_spec (currency b) (currency a));
    try congruence; split_and!; try lia; rewrite <- ?Hk by done; lia.
Qed.

(** [isConsistent] rejects only the two issues that name one native
    currency and the other native account: an issue that pairs a native
    currency with an ordinary account is accepted. *)
Theorem isConsistent_false ac :
  isConsistent ac = false ↔
  (currency ac = xrpCurrency ∧ account ac = vbcAccount) ∨
  (currency ac = vbcCurrency ∧ account ac = xrpAccount).
Proof.
  unfold isConsistent, isXRP, isVBC, vbcAccount, vbcCurrency, xrpAccount, xrpCurrency.
  destruct (Z.eqb_spec (currency ac) 0), (Z.eqb_spec (account ac) 0),
    (Z.eqb_spec (currency ac) 255), (Z.eqb_spec (account ac) 255); simpl; lia.
Qed.

(** The three letters of an ISO style currency code. *)
Definition iso_code (c : Currency) : list Z := take 3 (drop 12 (be_bytes 20 c)).

Lemma iso_bits c :
  0 ≤ c < 2 ^ 160 → Z.land c sIsoBits = 0 → c = be_int (iso_code c) * 256 ^ 5.
Proof.
  intros Hc Hm.
  assert (c mod 2 ^ 40 = 0) as Hlow.
  { rewrite <- Z.land_ones by lia.
    replace (Z.ones 40) with (Z.land sIsoBits (Z.ones 40)) by done.
    by rewrite Z.land_assoc, Hm. }
  assert (c / 2 ^ 64 = 0) as Hhigh.
  { assert (Z.land (Z.shiftr c 64) (Z.shiftr sIsoBits 64) = 0) as H
      by (by rewrite <- Z.shiftr_land, Hm).
    change (Z.shiftr sIsoBits 64) with (Z.ones 96) in H.
    rewrite Z.land_ones, Z.shiftr_div_pow2 in H by lia.
    rewrite Z.mod_small in H; [done|]. split; [apply Z.div_pos; lia|].
    apply Z.div_lt_upper_bound; lia. }
  pose proof (be_int_be_bytes 20 c) as Hb. rewrite Z.mod_small in Hb by (simpl; lia).
  unfold iso_code.
  assert (Hok : bytes_ok (be_bytes 20 c)) by apply be_bytes_ok.
  assert (Hl : length (be_bytes 20 c) = 20%nat) by apply length_be_bytes.
  set (bs := be_bytes 20 c) in *. clearbody bs.
  assert (Hs : bs = take 12 bs ++ take 3 (drop 12 bs) ++ drop 15 bs).
  { rewrite <- (take_drop 12 bs) at 1. f_equal.
    rewrite <- (take_drop 3 (drop 12 bs)) at 1. by rewrite drop_drop. }
  rewrite Hs, !be_int_app in Hb. rewrite !length_app, length_take, !length_drop, Hl in Hb.
  change (3 `min` (20 - 12) + (20 - 15))%nat with 8%nat in Hb.
  change (20 - 15)%nat with 5%nat in Hb.
  pose proof (be_int_range (drop 15 bs) ltac:(by apply Forall_drop)) as Hr1.
  pose proof (be_int_range (take 3 (drop 12 bs)) ltac:(by apply Forall_take, Forall_drop)) as Hr2.
  rewrite length_drop, Hl in Hr1. rewrite length_take, length_drop, Hl in Hr2.
  simpl in Hr1, Hr2, Hb.
  assert (0 ≤ be_int (take 12 bs)).
  { pose proof (be_int_range (take 12 bs) ltac:(by apply Forall_take)). lia. }
  assert (be_int (take 12 bs) = 0) by (apply Z.div_small_iff in Hhigh; lia).
  assert (be_int (drop 15 bs) = 0).
  { apply Z.mod_divide in Hlow as [q Hq]; [|lia]. simpl in Hq. lia. }
  simpl. lia.
Qed.

(** The text of a currency parses back to the currency, for every currency
    but the placeholder [noCurrency] and those whose three letter code has a
    lower case letter ([to_currency] folds the code to upper case). *)
Theorem currency_roundtrip c :
  0 ≤ c < 2 ^ 160 → c ≠ noCurrency →
  Forall (λ ch, ¬ (97 ≤ ch ≤ 122)) (iso_code c) →
  to_currency (currency_to_string c) = Some c.
Proof.
  intros Hc Hno Hup. unfold currency_to_string.
  destruct (Z.eqb_spec c 0) as [->|]; [done|].
  destruct (Z.eqb_spec c vbcCurrency) as [->|]; [done|].
  destruct (Z.eqb_spec c noCurrency); [done|].
  assert (Hhex : to_currency (strHex (be_bytes 20 c)) = Some c).
  { assert (Hl : length (strHex (be_bytes 20 c)) = 40%nat)
      by (by rewrite length_strHex, length_be_bytes).
    unfold to_currency. rewrite Hl.
    rewrite !bool_decide_eq_false_2 by (intros Hx; by rewrite Hx in Hl).
    cbn [orb Nat.eqb]. rewrite strHex_SetHex by (apply be_bytes_ok || apply length_be_bytes).
    rewrite be_int_be_bytes, Z.mod_small; [done|]. simpl. lia. }
  destruct (Z.eqb_spec (Z.land c sIsoBits) 0) as [Hm|]; [|done].
  fold (iso_code c). pose proof (iso_bits c Hc Hm) as Hiso.
  assert (Hl : length (iso_code c) = 3%nat).
  { unfold iso_code. by rewrite length_take, length_drop, length_be_bytes. }
  destruct (_ && _) eqn:Hb; [|done].
  apply andb_true_iff in Hb as [[H1 H2]%andb_true_iff _].
  apply bool_decide_eq_true in H1. apply bool_decide_eq_true in H2.
  unfold to_currency. rewrite Hl.
  rewrite !bool_decide_eq_false_2 by (done || (intros Hx; by rewrite Hx in Hl)).
  cbn [orb Nat.eqb]. f_equal.
  assert (toupper <$> iso_code c = iso_code c) as ->.
  { rewrite <- (list_fmap_id (iso_code c)) at 2. apply list_fmap_ext.
    intros i ch Hi%list_elem_of_lookup_2. rewrite Forall_forall in Hup.
    specialize (Hup ch Hi). unfold toupper. simpl. destruct (_ && _) eqn:?; lia. }
  rewrite Hiso at 2. rewrite !be_int_app. cbn [replicate be_int length app].
  simpl. lia.
Qed.

Lemma currency_roundtrip_witness :
  to_currency (currency_to_string (be_int (replicate 12 0 ++ [85; 83; 68] ++ replicate 5 0)))
    = Some (be_int (replicate 12 0 ++ [85; 83; 68] ++ replicate 5 0)).
Proof.
  apply (currency_roundtrip (be_int (replicate 12 0 ++ [85; 83; 68] ++ replicate 5 0))).
  - vm_compute. split; congruence.
  - vm_compute. congruence.
  - vm_compute. repeat constructor; intros [? ?]; congruence.
Defined.

(** A lower case code is printed as it is and parsed as its upper case. *)
Example currency_lower_case :
  let usd := be_int (replicate 12 0 ++ chars "usd" ++ replicate 5 0) in
  currency_to_string usd = chars "usd" ∧ to_currency (currency_to_string usd) ≠ Some usd.
Proof. split; [reflexivity|]. vm_compute. congruence. Qed.
