(* ===== verification/Decimal.v ===== *)
(** * Decimal floating point normalisation

    [IOUAmount::normalize] (protocol/impl/IOUAmount.cpp) and the non-native
    branch of [STAmount::canonicalize] (protocol/impl/STAmount.cpp) bring a
    mantissa and a decimal exponent into the same normal form with the same two
    loops.  This file holds the loops, on the mantissa's magnitude, and their
    meaning in terms of the number [m * 10 ^ e]. *)

From S2P Require Import Prelude.

Definition minExponent : Z := -96.
Definition maxExponent : Z := 80.
Definition minMantissa : Z := 1000000000000000.
Definition maxMantissa : Z := 9999999999999999.

(** The normal form of a non-zero magnitude. *)
Definition canonical (m e : Z) : Prop :=
  minMantissa ≤ m ≤ maxMantissa ∧ minExponent ≤ e ≤ maxExponent.

#[global] Instance canonical_dec m e : Decision (canonical m e).
Proof. unfold canonical. apply _. Defined.

(** [sval k m e] is the integer [m * 10 ^ e] scaled by [10 ^ k]; statements
    about amounts quantify over a [k] that makes every exponent in sight
    non-negative. *)
Definition sval (k m e : Z) : Z := m * 10 ^ (e + k).

Section loops.
(** [wrap] is the width of the mantissa, [overflow] what the loop throws. *)
Context (wrap : Z → Z) (overflow : exn).

Definition scale_up (m e : Z) : Z * Z :=
  while_do
    (λ s, (s.1 <? minMantissa) && (minExponent <? s.2))
    (λ s, (wrap (s.1 * 10), s.2 - 1))
    (Z.to_nat (e - minExponent)) (m, e).

Definition scale_down (m e : Z) : result (Z * Z) :=
  while_throw
    (λ s, maxMantissa <? s.1)
    (λ s, if maxExponent <=? s.2 then Throw overflow
          else Ok (s.1 / 10, s.2 + 1))
    (S (Z.to_nat (maxExponent - e))) (m, e).
End loops.

Ltac dec_consts := unfold minMantissa, maxMantissa, minExponent, maxExponent in *.

Lemma pow10_pos k : 0 ≤ k → 0 < 10 ^ k.
Proof. intros. by apply Z.pow_pos_nonneg. Qed.

Lemma pow10_succ k : 0 ≤ k → 10 ^ (k + 1) = 10 * 10 ^ k.
Proof. intros. rewrite Z.pow_add_r by lia. lia. Qed.

Lemma pow10_split a b : 0 ≤ a → 0 ≤ b → 10 ^ (a + b) = 10 ^ a * 10 ^ b.
Proof. apply Z.pow_add_r. Qed.

Lemma div_pow10_step m k : 0 ≤ k → m / 10 ^ k / 10 = m / 10 ^ (k + 1).
Proof.
  intros. rewrite pow10_succ, Z.div_div by (try apply pow10_pos; lia).
  f_equal. lia.
Qed.

Section loop_specs.
Context (wrap : Z → Z) (overflow : exn).
Context (Hwrap : ∀ z, 0 ≤ z ≤ maxMantissa → wrap z = z).

Lemma scale_up_spec m e :
  0 < m →
  let '(m1, e1) := scale_up wrap m e in
  e1 ≤ e ∧ m1 = m * 10 ^ (e - e1) ∧
  (e1 = e ∨ minExponent ≤ e1 ∧ m1 ≤ maxMantissa) ∧
  (minMantissa ≤ m1 ∨ e1 ≤ minExponent).
Proof using Hwrap.
  intros Hm. unfold scale_up. destruct (while_do _ _ _ _) as [m1 e1] eqn:E.
  eapply (while_do_ind _ _ (λ s, 0 < s.1 ∧ s.2 ≤ e ∧ s.1 = m * 10 ^ (e - s.2) ∧
    (s.2 = e ∨ minExponent ≤ s.2 ∧ s.1 ≤ maxMantissa))) in E as Hind; cbn [fst snd] in *.
  2:{ intros [m2 e2] (Hp & Hle & Heq & _) [??]%andb_true_iff. cbn [fst snd] in *.
      dec_consts. rewrite Hwrap by lia.
      split_and!; [lia|lia| |right; lia].
      replace (e - (e2 - 1)) with (e - e2 + 1) by lia.
      rewrite pow10_succ by lia. lia. }
  2:{ rewrite Z.sub_diag. lia. }
  eapply (while_do_exit _ _ (λ s, Z.to_nat (s.2 - minExponent))) in E as Hex;
    cbn [fst snd] in *; [| |done].
  - destruct Hind as (? & ? & ? & ?). split_and!; try done. lia.
  - intros [m2 e2] [??]%andb_true_iff. cbn [fst snd] in *. lia.
Qed.

Lemma scale_down_Ok m e m2 e2 :
  0 < m → scale_down overflow m e = Ok (m2, e2) →
  e ≤ e2 ∧ m2 = m / 10 ^ (e2 - e) ∧ m2 ≤ maxMantissa ∧
  (e2 = e ∨ e2 ≤ maxExponent ∧ minMantissa ≤ m2).
Proof.
  intros Hm E.
  eapply (while_throw_ind _ _ (λ s, 0 < s.1 ∧ e ≤ s.2 ∧
      s.1 = m / 10 ^ (s.2 - e) ∧
      (s.2 = e ∨ s.2 ≤ maxExponent ∧ minMantissa ≤ s.1))) in E as Hind; cbn [fst snd] in *.
  2:{ intros [m3 e3] [m4 e4] (? & ? & Heq & _) Hc. cbn [fst snd] in *. dec_consts.
      destruct (80 <=? e3) eqn:?; [done|]. intros [= <- <-].
      assert (1000000000000000 ≤ m3 / 10) by (apply Z.div_le_lower_bound; lia).
      split_and!; [lia|lia| |right; lia].
      subst m3. rewrite div_pow10_step by lia. f_equal. f_equal. lia. }
  2:{ split_and!; [lia|lia| |by left]. rewrite Z.sub_diag. simpl. by rewrite Z.div_1_r. }
  eapply (while_throw_exit _ _ (λ s, Z.to_nat (maxExponent - s.2))) in E as Hex;
    cbn [fst snd] in *.
  - destruct Hind as (? & ? & ? & ?). split_and!; try done. lia.
  - intros [m3 e3] [m4 e4] Hc. cbn [fst snd].
    destruct (maxExponent <=? e3) eqn:?; [done|].
    intros [= <- <-]. dec_consts. lia.
  - lia.
Qed.

Lemma scale_down_Throw m e x :
  scale_down overflow m e = Throw x →
  x = overflow ∧ maxMantissa < m ∧
  (e ≤ maxExponent → maxMantissa < m / 10 ^ (maxExponent - e)).
Proof.
  unfold scale_down. generalize (S (Z.to_nat (maxExponent - e))) as fuel.
  intros fuel. revert m e. induction fuel as [|n IH]; intros m e; [done|].
  cbn [while_throw fst snd]. destruct (maxMantissa <? m) eqn:Hc; [|done].
  destruct (maxExponent <=? e) eqn:He; cbn [rbind].
  - intros [= <-]. split_and!; [done|lia|]. intros.
    replace (maxExponent - e) with 0 by lia. rewrite Z.pow_0_r, Z.div_1_r. lia.
  - intros (-> & Hm & Hk)%IH. split_and!; [done|lia|]. intros _.
    replace (maxExponent - e) with (1 + (maxExponent - (e + 1))) by lia.
    rewrite pow10_split, <- Z.div_div by (try apply pow10_pos; lia).
    apply Hk. lia.
Qed.
End loop_specs.

(** ** Normalisation of a magnitude *)

Definition norm (wrap : Z → Z) (overflow overflow' : exn) (m e : Z)
    : result (option (Z * Z)) :=
  if m =? 0 then Ok None else
  let '(m1, e1) := scale_up wrap m e in
  let* (m2, e2) := scale_down overflow m1 e1 in
  if (e2 <? minExponent) || (m2 <? minMantissa) then Ok None
  else if maxExponent <? e2 then Throw overflow'
  else Ok (Some (m2, e2)).

Lemma sval_shift k m e d :
  0 ≤ d → 0 ≤ e - d + k → sval k (m * 10 ^ d) (e - d) = sval k m e.
Proof.
  intros. unfold sval. rewrite <- Z.mul_assoc, <- pow10_split by lia.
  do 2 f_equal. lia.
Qed.

Lemma sval_le_mono k m m' e e' :
  0 ≤ m ≤ m' → 0 ≤ e + k → e ≤ e' → sval k m e ≤ sval k m' e'.
Proof.
  intros. unfold sval. apply Z.mul_le_mono_nonneg; try lia.
  apply Z.pow_le_mono_r; lia.
Qed.

Lemma sval_lt_l k m m' e : 0 ≤ e + k → m < m' ↔ sval k m e < sval k m' e.
Proof.
  intros. unfold sval. pose proof (pow10_pos (e + k)).
  symmetry. by rewrite <- Z.mul_lt_mono_pos_r by lia.
Qed.

Lemma sval_le_l k m m' e : 0 ≤ e + k → m ≤ m' ↔ sval k m e ≤ sval k m' e.
Proof.
  intros. unfold sval. pose proof (pow10_pos (e + k)).
  symmetry. by rewrite <- Z.mul_le_mono_pos_r by lia.
Qed.

(** Dividing the mantissa by a power of ten truncates the number. *)
Lemma sval_div k m e e' :
  e ≤ e' → 0 ≤ e + k →
  sval k (m / 10 ^ (e' - e)) e' ≤ sval k m e < sval k (m / 10 ^ (e' - e) + 1) e'.
Proof.
  intros. pose proof (pow10_pos (e' - e)). pose proof (pow10_pos (e + k)).
  assert (Hs : ∀ q, sval k q e' = sval k (q * 10 ^ (e' - e)) e).
  { intros q. rewrite <- (sval_shift k q e' (e' - e)) by lia. f_equal. lia. }
  rewrite !Hs, <- sval_le_l, <- sval_lt_l by lia.
  pose proof (Z.div_mod m (10 ^ (e' - e))).
  pose proof (Z.mod_pos_bound m (10 ^ (e' - e))). lia.
Qed.

Section norm_spec.
Context (wrap : Z → Z) (overflow overflow' : exn).
Context (Hwrap : ∀ z, 0 ≤ z ≤ maxMantissa → wrap z = z).

(** The three outcomes of normalisation, by the size of the number: below
    the least canonical magnitude it is zero, at or above [10 ^ 96] it
    throws, and in between it is the canonical truncation. *)
Lemma norm_spec k m e :
  0 < m → 96 ≤ k → 0 ≤ e + k →
  match norm wrap overflow overflow' m e with
  | Ok None => sval k m e < sval k minMantissa minExponent
  | Ok (Some (m', e')) =>
      canonical m' e' ∧ sval k m' e' ≤ sval k m e < sval k (m' + 1) e'
  | Throw _ => sval k (maxMantissa + 1) maxExponent ≤ sval k m e
  end.
Proof using Hwrap.
  intros Hm Hk He. unfold norm. destruct (Z.eqb_spec m 0); [lia|].
  pose proof (scale_up_spec wrap Hwrap m e Hm) as Hup.
  destruct (scale_up wrap m e) as [m1 e1]. destruct Hup as (Hle & Hm1 & Hr & Hx).
  assert (0 < m1) by (subst m1; apply Z.mul_pos_pos; [lia|apply pow10_pos; lia]).
  assert (0 ≤ e1 + k) by (dec_consts; lia).
  assert (Hv : sval k m e = sval k m1 e1).
  { subst m1. rewrite <- (sval_shift k m e (e - e1)) by lia. f_equal. lia. }
  rewrite Hv. clear Hv Hm1 Hr Hm n.
  destruct (scale_down overflow m1 e1) as [[m2 e2]|x] eqn:Hd; cbn [rbind].
  - apply scale_down_Ok in Hd as (Hle2 & Hm2 & Hmax & Hr2); [|done].
    pose proof (sval_div k m1 e1 e2 Hle2) as Ht. rewrite <- Hm2 in Ht.
    assert (0 ≤ m2) by (subst m2; apply Z.div_pos; [lia|apply pow10_pos; lia]).
    destruct ((e2 <? minExponent) || (m2 <? minMantissa)) eqn:Hz.
    + assert (Hlt : e2 < minExponent ∨ m2 < minMantissa ∧ e1 ≤ minExponent ∧ m2 = m1 ∧ e2 = e1).
      { destruct (e2 <? minExponent) eqn:?; [left; lia|right].
        cbn [orb] in Hz. apply Z.ltb_lt in Hz. destruct Hr2 as [->|]; [|lia].
        rewrite Z.sub_diag, Z.pow_0_r, Z.div_1_r in Hm2. subst m2.
        split_and!; [lia|lia|done|done]. }
      destruct Hlt as [Hlt|(? & ? & -> & ->)].
      * apply Z.lt_le_trans with (sval k (m2 + 1) e2); [apply Ht; lia|].
        replace minMantissa with (1000000000000000) by done.
        transitivity (sval k 10000000000000000 (minExponent - 1)).
        -- apply sval_le_mono; dec_consts; lia.
        -- rewrite <- (sval_shift k 1000000000000000 minExponent 1) by (dec_consts; lia). done.
      * apply Z.lt_le_trans with (sval k minMantissa e1).
        -- apply sval_lt_l; lia.
        -- apply sval_le_mono; dec_consts; lia.
    + destruct (maxExponent <? e2) eqn:Hb; [|split; [unfold canonical; lia|apply Ht; lia]].
      assert (e2 = e1) as -> by lia. rewrite Z.sub_diag, Z.pow_0_r, Z.div_1_r in Hm2.
      subst m2. replace (maxMantissa + 1) with (minMantissa * 10 ^ 1) by done.
      replace maxExponent with (maxExponent + 1 - 1) by lia.
      rewrite sval_shift by (dec_consts; lia). apply sval_le_mono; dec_consts; lia.
  - apply scale_down_Throw in Hd as (_ & Hbig & Hd).
    destruct (decide (e1 ≤ maxExponent)) as [Hc|Hc].
    + pose proof (sval_div k m1 e1 maxExponent Hc) as Ht.
      etransitivity; [|apply Ht; lia]. apply sval_le_l; [dec_consts; lia|].
      specialize (Hd Hc). lia.
    + apply sval_le_mono; dec_consts; lia.
Qed.
End norm_spec.

(** ** Canonical magnitudes are ordered by exponent, then by mantissa *)

Lemma canonical_exp_lt k m e m' e' :
  canonical m e → canonical m' e' → 96 ≤ k → e < e' →
  sval k (m + 1) e ≤ sval k m' e'.
Proof.
  unfold canonical. dec_consts. intros. transitivity (sval k (1000000000000000 * 10 ^ 1) (e' - 1)).
  - apply sval_le_mono; simpl; lia.
  - rewrite sval_shift by lia. apply sval_le_l; lia.
Qed.

Lemma canonical_sval_lt k m e m' e' :
  canonical m e → canonical m' e' → 96 ≤ k →
  sval k m e < sval k m' e' ↔ e < e' ∨ e = e' ∧ m < m'.
Proof.
  intros Hc Hc' Hk.
  assert (0 ≤ e + k) by (destruct Hc as [_ ?]; dec_consts; lia).
  assert (0 ≤ e' + k) by (destruct Hc' as [_ ?]; dec_consts; lia).
  destruct (Z.lt_trichotomy e e') as [Hlt|[<-|Hgt]].
  - pose proof (canonical_exp_lt k _ _ _ _ Hc Hc' Hk Hlt).
    pose proof (proj1 (sval_lt_l k m (m + 1) e ltac:(done)) ltac:(lia)). lia.
  - rewrite <- sval_lt_l by lia. lia.
  - pose proof (canonical_exp_lt k _ _ _ _ Hc' Hc Hk Hgt).
    pose proof (proj1 (sval_lt_l k m' (m' + 1) e' ltac:(done)) ltac:(lia)). lia.
Qed.

Lemma canonical_sval_inj k m e m' e' :
  canonical m e → canonical m' e' → 96 ≤ k →
  sval k m e = sval k m' e' → m = m' ∧ e = e'.
Proof.
  intros Hc Hc' Hk Heq.
  pose proof (canonical_sval_lt k _ _ _ _ Hc Hc' Hk).
  pose proof (canonical_sval_lt k _ _ _ _ Hc' Hc Hk). lia.
Qed.

(** At most one canonical magnitude is the truncation of a number. *)
Lemma canonical_trunc_unique k m e m' e' x :
  canonical m e → canonical m' e' → 96 ≤ k →
  sval k m e ≤ x < sval k (m + 1) e → sval k m' e' ≤ x < sval k (m' + 1) e' →
  m = m' ∧ e = e'.
Proof.
  intros Hc Hc' Hk Hx Hx'.
  assert (0 ≤ e' + k) by (destruct Hc' as [_ ?]; dec_consts; lia).
  destruct (Z.lt_trichotomy e e') as [Hlt|[<-|Hgt]].
  - pose proof (canonical_exp_lt k _ _ _ _ Hc Hc' Hk Hlt). lia.
  - assert (sval k m e < sval k (m' + 1) e) as ?%sval_lt_l by lia; [|lia].
    assert (sval k m' e < sval k (m + 1) e) as ?%sval_lt_l by lia; lia.
  - pose proof (canonical_exp_lt k _ _ _ _ Hc' Hc Hk Hgt). lia.
Qed.

Lemma canonical_bounds k m e :
  canonical m e → 96 ≤ k →
  sval k minMantissa minExponent ≤ sval k m e < sval k (maxMantissa + 1) maxExponent.
Proof.
  unfold canonical. dec_consts. intros [??] ?. split.
  - apply sval_le_mono; lia.
  - apply Z.lt_le_trans with (sval k 10000000000000000 e).
    + apply sval_lt_l; lia.
    + apply sval_le_mono; lia.
Qed.

(** What normalisation does is determined by the number alone, up to the
    text of the exception. *)
Definition same_outcome {A} (r r' : result A) : Prop :=
  match r, r' with
  | Ok a, Ok a' => a = a'
  | Throw _, Throw _ => True
  | _, _ => False
  end.

#[global] Instance same_outcome_equiv {A} : Equivalence (@same_outcome A).
Proof.
  split.
  - by intros [].
  - intros [] []; simpl; auto.
  - intros [] [] []; simpl; congruence || tauto.
Qed.

Lemma norm_ext wrap o1 o2 wrap' o1' o2' m e m' e' k :
  (∀ z, 0 ≤ z ≤ maxMantissa → wrap z = z) →
  (∀ z, 0 ≤ z ≤ maxMantissa → wrap' z = z) →
  0 < m → 0 < m' → 96 ≤ k → 0 ≤ e + k → 0 ≤ e' + k →
  sval k m e = sval k m' e' →
  same_outcome (norm wrap o1 o2 m e) (norm wrap' o1' o2' m' e').
Proof.
  intros Hw Hw' Hm Hm' Hk He He' Heq.
  pose proof (norm_spec wrap o1 o2 Hw k m e Hm Hk He) as H1.
  pose proof (norm_spec wrap' o1' o2' Hw' k m' e' Hm' Hk He') as H2.
  rewrite Heq in H1.
  destruct (norm wrap o1 o2 m e) as [[[m1 e1]|]|],
    (norm wrap' o1' o2' m' e') as [[[m2 e2]|]|]; simpl; try done.
  - destruct H1 as [Hc1 Ht1], H2 as [Hc2 Ht2].
    destruct (canonical_trunc_unique k m1 e1 m2 e2 (sval k m' e')) as [-> ->]; auto.
  - destruct H1 as [Hc1 Ht1]. pose proof (canonical_bounds k _ _ Hc1 Hk). lia.
  - destruct H1 as [Hc1 Ht1]. pose proof (canonical_bounds k _ _ Hc1 Hk).
    destruct Hc1 as [[? ?] [? ?]].
    assert (sval k (m1 + 1) e1 ≤ sval k (maxMantissa + 1) maxExponent); [|lia].
    apply sval_le_mono; dec_consts; lia.
  - destruct H2 as [Hc1 Ht1]. pose proof (canonical_bounds k _ _ Hc1 Hk). lia.
  - pose proof (sval_le_mono k minMantissa (maxMantissa + 1) minExponent maxExponent).
    dec_consts; lia.
  - destruct H2 as [Hc1 Ht1].
    assert (sval k (m2 + 1) e2 ≤ sval k (maxMantissa + 1) maxExponent); [|lia].
    destruct Hc1 as [[? ?] [? ?]]. apply sval_le_mono; dec_consts; lia.
  - pose proof (sval_le_mono k minMantissa (maxMantissa + 1) minExponent maxExponent).
    dec_consts; lia.
Qed.

Lemma norm_canonical wrap o1 o2 m e :
  canonical m e → norm wrap o1 o2 m e = Ok (Some (m, e)).
Proof.
  intros [Hm He]. unfold norm, scale_up, scale_down. dec_consts.
  destruct (Z.eqb_spec m 0); [lia|].
  rewrite while_do_false by (cbn [fst snd]; lia).
  cbn [while_throw fst snd]. destruct (9999999999999999 <? m) eqn:?; [lia|].
  cbn [rbind]. destruct (_ || _) eqn:?; [lia|]. destruct (80 <? e) eqn:?; [lia|done].
Qed.

(** ** Aligning exponents

    [while (e < target) { m /= 10; ++e; }], on a signed mantissa: C++ division
    truncates towards zero. *)

Definition align (m e target : Z) : Z * Z :=
  while_do (λ s, s.2 <? target) (λ s, (Z.quot s.1 10, s.2 + 1))
    (Z.to_nat (target - e)) (m, e).

Lemma align_spec m e target :
  align m e target =
    if e <? target then (Z.quot m (10 ^ (target - e)), target) else (m, e).
Proof.
  unfold align. destruct (e <? target) eqn:Hc.
  2:{ by rewrite while_do_false. }
  destruct (while_do _ _ _ _) as [m' e'] eqn:E.
  eapply (while_do_ind _ _ (λ s, e ≤ s.2 ≤ target ∧ s.1 = Z.quot m (10 ^ (s.2 - e)))) in E as Hi;
    cbn [fst snd] in *.
  - eapply (while_do_exit _ _ (λ s, Z.to_nat (target - s.2))) in E; cbn [fst snd] in *.
    + destruct Hi as [? ->]. by replace e' with target by lia.
    + intros [m2 e2] ?. cbn [fst snd] in *. lia.
    + done.
  - intros [m2 e2] [? ->] ?. cbn [fst snd] in *. split; [lia|].
    rewrite Z.quot_quot by (try (pose proof (pow10_pos (e2 - e))); lia).
    f_equal. replace (e2 + 1 - e) with (e2 - e + 1) by lia.
    rewrite pow10_succ; lia.
  - split; [lia|]. rewrite Z.sub_diag, Z.pow_0_r, Z.quot_1_r. done.
Qed.

Lemma quot_opp_pow10 m k : 0 ≤ k → Z.quot (- m) (10 ^ k) = - Z.quot m (10 ^ k).
Proof. intros. apply Z.quot_opp_l. pose proof (pow10_pos k). lia. Qed.

Lemma quot_pow10_abs_le m k : 0 ≤ k → Z.abs (Z.quot m (10 ^ k)) ≤ Z.abs m.
Proof.
  intros Hk. pose proof (pow10_pos k Hk).
  rewrite <- Z.quot_abs by lia. rewrite Z.quot_div_nonneg by lia.
  apply Z.div_le_upper_bound; nia.
Qed.

(** The aligned number is off by less than one unit of the target exponent. *)
Lemma quot_sval k m e target :
  e ≤ target → 0 ≤ e + k →
  Z.abs (sval k (Z.quot m (10 ^ (target - e))) target - sval k m e) < sval k 1 target.
Proof.
  intros. set (d := target - e). pose proof (pow10_pos d ltac:(lia)).
  assert (Hs : ∀ q, sval k q target = sval k (q * 10 ^ d) e).
  { intros q. rewrite <- (sval_shift k q target d) by lia. f_equal. lia. }
  rewrite !Hs. unfold sval. pose proof (pow10_pos (e + k)).
  pose proof (Z.quot_rem' m (10 ^ d)). pose proof (Z.rem_bound_abs m (10 ^ d)).
  replace (Z.quot m (10 ^ d) * 10 ^ d * 10 ^ (e + k) - m * 10 ^ (e + k))
    with (- Z.rem m (10 ^ d) * 10 ^ (e + k)) by lia.
  rewrite Z.abs_mul, (Z.abs_eq (10 ^ (e + k))) by lia. nia.
Qed.
