(* ===== verification/IOUAmount.v ===== *)
(** * IOUAmount

    protocol/IOUAmount.h and protocol/impl/IOUAmount.cpp: the signed decimal
    floating point numbers in which balances of issued currencies are kept. *)

From S2P Require Import Prelude Decimal.

Module IOU.

Record IOUAmount := mkIOU { mantissa_ : Z; exponent_ : Z }.

#[global] Instance IOUAmount_eq_dec : EqDecision IOUAmount.
Proof. solve_decision. Defined.

(** [operator= (beast::Zero)]: the exponent -100 sorts zero below every
    positive amount. *)
Definition zero : IOUAmount := mkIOU 0 (-100).

Definition signum (a : IOUAmount) : Z :=
  if mantissa_ a <? 0 then -1 else if mantissa_ a =? 0 then 0 else 1.

Definition normalize (a : IOUAmount) : result IOUAmount :=
  if mantissa_ a =? 0 then Ok zero else
  let negative := mantissa_ a <? 0 in
  let m := if negative then i64 (- mantissa_ a) else mantissa_ a in
  let '(m1, e1) := scale_up i64 m (exponent_ a) in
  let* (m2, e2) := scale_down (overflow_error "IOUAmount::normalize") m1 e1 in
  if (e2 <? minExponent) || (m2 <? minMantissa) then Ok zero
  else if maxExponent <? e2 then Throw (overflow_error "value overflow")
  else Ok (mkIOU (if negative then - m2 else m2) e2).

(** The constructor [IOUAmount (mantissa, exponent)]. *)
Definition make (m e : Z) : result IOUAmount := normalize (mkIOU m e).

Definition eqb (a b : IOUAmount) : bool :=
  (exponent_ a =? exponent_ b) && (mantissa_ a =? mantissa_ b).

Definition add (a b : IOUAmount) : result IOUAmount :=
  if signum b =? 0 then Ok a else
  if signum a =? 0 then Ok b else
  let '(m1, e1) := align (mantissa_ a) (exponent_ a) (exponent_ b) in
  let '(m2, e2) := align (mantissa_ b) (exponent_ b) e1 in
  let fv := i64 (m1 + m2) in
  if (-10 <=? fv) && (fv <=? 10) then Ok zero
  else normalize (mkIOU fv e1).

Definition neg (a : IOUAmount) : result IOUAmount :=
  make (i64 (- mantissa_ a)) (exponent_ a).

Definition sub (a b : IOUAmount) : result IOUAmount :=
  let* nb := neg b in add a nb.

Definition lt (a b : IOUAmount) : bool :=
  let lneg := mantissa_ a <? 0 in
  let rneg := mantissa_ b <? 0 in
  if negb (Bool.eqb lneg rneg) then lneg
  else if mantissa_ a =? 0 then 0 <? mantissa_ b
  else if mantissa_ b =? 0 then false
  else if exponent_ b <? exponent_ a then lneg
  else if exponent_ a <? exponent_ b then negb lneg
  else mantissa_ a <? mantissa_ b.

(** ** The representation invariant *)

Definition wf (a : IOUAmount) : Prop :=
  a = zero ∨ canonical (Z.abs (mantissa_ a)) (exponent_ a).

#[global] Instance wf_dec a : Decision (wf a).
Proof. unfold wf. apply _. Defined.

(** The amount as a number, scaled by [10 ^ k]. *)
Definition value (k : Z) (a : IOUAmount) : Z := sval k (mantissa_ a) (exponent_ a).

(** ** Normalisation *)

Lemma i64_small z : 0 ≤ z ≤ maxMantissa → i64 z = z.
Proof. dec_consts. intros. apply i64_id. lia. Qed.

(** The signed amount a normalised magnitude stands for. *)
Definition of_norm (negative : bool) (o : option (Z * Z)) : IOUAmount :=
  match o with
  | None => zero
  | Some (m, e) => mkIOU (if negative then - m else m) e
  end.

Lemma normalize_norm a :
  - 2 ^ 63 < mantissa_ a < 2 ^ 63 →
  normalize a =
    rmap (of_norm (mantissa_ a <? 0))
      (norm i64 (overflow_error "IOUAmount::normalize") (overflow_error "value overflow")
         (Z.abs (mantissa_ a)) (exponent_ a)).
Proof.
  destruct a as [m e]; cbn [mantissa_ exponent_]. intros Hm. unfold normalize, norm.
  cbn [mantissa_ exponent_].
  destruct (Z.eqb_spec m 0) as [->|]; [done|].
  destruct (Z.eqb_spec (Z.abs m) 0); [lia|].
  replace (if m <? 0 then i64 (- m) else m) with (Z.abs m)
    by (destruct (Z.ltb_spec m 0); [rewrite i64_id|]; lia).
  destruct (scale_up i64 (Z.abs m) e) as [m1 e1].
  destruct (scale_down _ m1 e1) as [[m2 e2]|]; cbn [rbind rmap]; [|done].
  by destruct (_ || _), (maxExponent <? e2).
Qed.

Lemma value_abs k a :
  0 ≤ exponent_ a + k →
  Z.abs (value k a) = sval k (Z.abs (mantissa_ a)) (exponent_ a).
Proof.
  intros. unfold value, sval. pose proof (pow10_pos (exponent_ a + k)).
  rewrite Z.abs_mul. f_equal. lia.
Qed.

Lemma of_norm_wf negative o :
  match o with Some (m, e) => canonical m e | None => True end →
  wf (of_norm negative o).
Proof.
  destruct o as [[m e]|]; [|by left]. intros Hc. right. simpl.
  destruct Hc as [? ?]. split; [|done]. destruct negative; dec_consts; lia.
Qed.

(** Complete description of [normalize], by the number its argument stands
    for. *)
Lemma normalize_spec k a :
  - 2 ^ 63 < mantissa_ a < 2 ^ 63 → 100 ≤ k → 0 ≤ exponent_ a + k →
  match normalize a with
  | Ok r =>
      if decide (r = zero) then
        Z.abs (value k a) < sval k minMantissa minExponent
      else
        canonical (Z.abs (mantissa_ r)) (exponent_ r) ∧
        Z.sgn (mantissa_ r) = Z.sgn (mantissa_ a) ∧
        Z.abs (value k r) ≤ Z.abs (value k a) <
          Z.abs (value k r) + sval k 1 (exponent_ r)
  | Throw x =>
      (∃ what, x = overflow_error what) ∧
      sval k (maxMantissa + 1) maxExponent ≤ Z.abs (value k a)
  end.
Proof.
  intros Hm Hk He. rewrite normalize_norm by done. rewrite value_abs by done.
  destruct (Z.eqb_spec (mantissa_ a) 0) as [H0|H0].
  { unfold norm. rewrite H0. simpl. unfold sval. dec_consts.
    pose proof (pow10_pos (-96 + k)). lia. }
  pose proof (norm_spec i64 (overflow_error "IOUAmount::normalize")
    (overflow_error "value overflow") i64_small k (Z.abs (mantissa_ a)) (exponent_ a)) as Hn.
  destruct (norm _ _ _ _ _) as [[[m e]|]|x] eqn:E; cbn [rmap rbind of_norm].
  - destruct Hn as [Hc Ht]; [lia..|]. set (neg := mantissa_ a <? 0).
    assert (Hma : Z.abs (if neg then - m else m) = m).
    { destruct Hc. unfold neg. destruct (mantissa_ a <? 0); dec_consts; lia. }
    destruct (decide _) as [Hz|Hz].
    { exfalso. injection Hz as Hz _. destruct Hc. dec_consts. lia. }
    cbn [mantissa_ exponent_]. rewrite Hma. split; [done|]. split.
    + destruct Hc as [Hc _]. dec_consts. unfold neg.
      destruct (Z.ltb_spec (mantissa_ a) 0); lia.
    + rewrite value_abs by (destruct Hc; dec_consts; cbn; lia).
      cbn [mantissa_ exponent_]. rewrite Hma. unfold sval in *. lia.
  - apply Hn; lia.
  - split; [|apply Hn; lia]. clear Hn. unfold norm in E.
    destruct (_ =? 0); [done|]. destruct (scale_up _ _ _) as [m1 e1].
    destruct (scale_down _ m1 e1) as [[m2 e2]|y] eqn:E2; cbn [rbind] in E.
    + destruct (_ || _); [done|]. destruct (_ <? _); [|done].
      injection E as <-. eauto.
    + apply scale_down_Throw in E2 as [-> _]. injection E as <-. eauto.
Qed.

Lemma normalize_wf a r :
  - 2 ^ 63 < mantissa_ a < 2 ^ 63 → normalize a = Ok r → wf r.
Proof.
  intros Hm Hn. pose proof (normalize_spec (Z.max 100 (- exponent_ a)) a Hm) as H.
  rewrite Hn in H. unfold wf. destruct (decide (r = zero)); [auto|].
  right. apply H; lia.
Qed.

Lemma normalize_idemp a : wf a → normalize a = Ok a.
Proof.
  intros [->|Hc]; [done|]. rewrite normalize_norm by (destruct Hc; dec_consts; lia).
  rewrite norm_canonical by done. destruct a as [m e]; simpl in *.
  destruct (Z.ltb_spec m 0); do 2 f_equal; lia.
Qed.

(** ** Order *)

Lemma wf_signum k a : wf a → 100 ≤ k → Z.sgn (value k a) = Z.sgn (mantissa_ a).
Proof.
  intros Hw Hk. unfold value, sval. rewrite Z.sgn_mul.
  assert (0 < 10 ^ (exponent_ a + k)).
  { apply pow10_pos. destruct Hw as [->|[_ ?]]; simpl; dec_consts; lia. }
  lia.
Qed.

Lemma wf_nonzero a : wf a → mantissa_ a ≠ 0 → canonical (Z.abs (mantissa_ a)) (exponent_ a).
Proof. intros [->|]; [done|auto]. Qed.

Lemma lt_value k a b :
  wf a → wf b → 100 ≤ k → lt a b = true ↔ value k a < value k b.
Proof.
  intros Ha Hb Hk. pose proof (wf_signum k a Ha Hk). pose proof (wf_signum k b Hb Hk).
  unfold lt.
  destruct (Z.ltb_spec (mantissa_ a) 0), (Z.ltb_spec (mantissa_ b) 0); cbn [Bool.eqb negb];
    try lia.
  - (* both negative *)
    destruct (Z.eqb_spec (mantissa_ a) 0), (Z.eqb_spec (mantissa_ b) 0); try lia.
    pose proof (wf_nonzero a Ha ltac:(lia)) as Hca. pose proof (wf_nonzero b Hb ltac:(lia)) as Hcb.
    pose proof (canonical_sval_lt k _ _ _ _ Hcb Hca ltac:(lia)) as Hlt.
    rewrite <- !value_abs in Hlt by (destruct Hca, Hcb; dec_consts; lia).
    destruct (Z.ltb_spec (exponent_ b) (exponent_ a)); [lia|].
    destruct (Z.ltb_spec (exponent_ a) (exponent_ b)); lia.
  - destruct (Z.eqb_spec (mantissa_ a) 0); [lia|].
    destruct (Z.eqb_spec (mantissa_ b) 0); [lia|].
    pose proof (wf_nonzero a Ha ltac:(lia)) as Hca. pose proof (wf_nonzero b Hb ltac:(lia)) as Hcb.
    pose proof (canonical_sval_lt k _ _ _ _ Hca Hcb ltac:(lia)) as Hlt.
    rewrite <- !value_abs in Hlt by (destruct Hca, Hcb; dec_consts; lia).
    destruct (Z.ltb_spec (exponent_ b) (exponent_ a)); [lia|].
    destruct (Z.ltb_spec (exponent_ a) (exponent_ b)); lia.
Qed.

(** ** Addition *)

(** The mantissas aligned on the larger exponent, by truncation. *)
Definition aligned_sum (a b : IOUAmount) : Z * Z :=
  let e := Z.max (exponent_ a) (exponent_ b) in
  (Z.quot (mantissa_ a) (10 ^ (e - exponent_ a)) +
   Z.quot (mantissa_ b) (10 ^ (e - exponent_ b)), e).

Lemma aligned_sum_comm a b : aligned_sum a b = aligned_sum b a.
Proof. unfold aligned_sum. rewrite Z.max_comm. f_equal. lia. Qed.

Lemma signum_0 a : (signum a =? 0) = (mantissa_ a =? 0).
Proof. unfold signum. destruct (_ <? 0) eqn:?, (mantissa_ a =? 0) eqn:?; lia. Qed.

Lemma wf_range a : wf a → -100 ≤ exponent_ a ≤ 80 ∧ Z.abs (mantissa_ a) ≤ maxMantissa.
Proof. unfold wf, canonical. intros [->|[? ?]]; simpl; dec_consts; lia. Qed.

Lemma aligned_sum_range a b :
  wf a → wf b →
  Z.abs (aligned_sum a b).1 ≤ 2 * maxMantissa ∧ -100 ≤ (aligned_sum a b).2 ≤ 80.
Proof.
  intros [Hea Hma]%wf_range [Heb Hmb]%wf_range. unfold aligned_sum; cbn [fst snd].
  set (e := Z.max _ _).
  pose proof (quot_pow10_abs_le (mantissa_ a) (e - exponent_ a) ltac:(lia)).
  pose proof (quot_pow10_abs_le (mantissa_ b) (e - exponent_ b) ltac:(lia)). lia.
Qed.

Lemma small_sum_abs (fv : Z) : (-10 <=? fv) && (fv <=? 10) = (Z.abs fv <=? 10).
Proof. lia. Qed.

Lemma add_aligned a b :
  wf a → wf b → mantissa_ a ≠ 0 → mantissa_ b ≠ 0 →
  add a b =
    let '(fv, e) := aligned_sum a b in
    if Z.abs fv <=? 10 then Ok zero else normalize (mkIOU fv e).
Proof.
  intros Ha Hb Hna Hnb. pose proof (aligned_sum_range a b Ha Hb) as Hr.
  unfold add. rewrite !signum_0, !align_spec. unfold aligned_sum in *. cbn [fst snd] in Hr.
  destruct (Z.eqb_spec (mantissa_ b) 0), (Z.eqb_spec (mantissa_ a) 0); try done.
  destruct (Z.ltb_spec (exponent_ a) (exponent_ b)) as [Hlt|Hle].
  - rewrite Z.max_r, Z.sub_diag, Z.pow_0_r, Z.quot_1_r in * by lia.
    rewrite align_spec, Z.ltb_irrefl, i64_id by (dec_consts; lia).
    by rewrite small_sum_abs.
  - rewrite Z.max_l, Z.sub_diag, Z.pow_0_r, Z.quot_1_r in * by lia. rewrite align_spec.
    destruct (Z.ltb_spec (exponent_ b) (exponent_ a)) as [Hlt'|Hge].
    + rewrite i64_id by (dec_consts; lia).
      by rewrite small_sum_abs.
    + replace (exponent_ a - exponent_ b) with 0 in * by lia.
      rewrite Z.pow_0_r, Z.quot_1_r in *. rewrite i64_id by (dec_consts; lia).
      by rewrite small_sum_abs.
Qed.

Lemma add_zero_r a : add a zero = Ok a.
Proof. unfold add. by rewrite signum_0. Qed.

Lemma wf_mantissa_0 a : wf a → mantissa_ a = 0 → a = zero.
Proof. intros [->|[Hc _]] H; [done|]. dec_consts. lia. Qed.

Lemma add_zero_l a : wf a → add zero a = Ok a.
Proof.
  intros Ha. unfold add. rewrite !signum_0. cbn [mantissa_ zero].
  destruct (Z.eqb_spec (mantissa_ a) 0) as [H|]; [|done].
  by rewrite (wf_mantissa_0 a).
Qed.

Lemma add_commutes a b : wf a → wf b → add a b = add b a.
Proof.
  intros Ha Hb.
  destruct (Z.eq_dec (mantissa_ a) 0) as [->%wf_mantissa_0|]; [|done|].
  { by rewrite add_zero_r, add_zero_l. }
  destruct (Z.eq_dec (mantissa_ b) 0) as [->%wf_mantissa_0|]; [|done|].
  { by rewrite add_zero_r, add_zero_l. }
  by rewrite !add_aligned, aligned_sum_comm.
Qed.

Lemma add_wf a b r : wf a → wf b → add a b = Ok r → wf r.
Proof.
  intros Ha Hb.
  destruct (Z.eq_dec (mantissa_ a) 0) as [->%wf_mantissa_0|]; [|done|].
  { rewrite add_zero_l by done. by intros [= <-]. }
  destruct (Z.eq_dec (mantissa_ b) 0) as [->%wf_mantissa_0|]; [|done|].
  { rewrite add_zero_r. by intros [= <-]. }
  rewrite add_aligned by done. pose proof (aligned_sum_range a b Ha Hb) as Hr.
  destruct (aligned_sum a b) as [fv e]. cbn [fst snd] in Hr.
  destruct (_ <=? 10); [intros [= <-]; by left|].
  apply normalize_wf. simpl. dec_consts. lia.
Qed.

(** Aligning loses less than one unit of the larger exponent: only the
    operand with the smaller one is truncated. *)
Lemma aligned_sum_error k a b :
  wf a → wf b → 100 ≤ k →
  Z.abs (sval k (aligned_sum a b).1 (aligned_sum a b).2 - (value k a + value k b))
    < sval k 1 (aligned_sum a b).2.
Proof.
  intros [Ha _]%wf_range [Hb _]%wf_range Hk. unfold aligned_sum, value; cbn [fst snd].
  set (e := Z.max _ _).
  assert (Hd : ∀ x y, sval k (x + y) e = sval k x e + sval k y e)
    by (intros; unfold sval; lia).
  rewrite Hd.
  pose proof (quot_sval k (mantissa_ a) (exponent_ a) e ltac:(lia) ltac:(lia)) as H1.
  pose proof (quot_sval k (mantissa_ b) (exponent_ b) e ltac:(lia) ltac:(lia)) as H2.
  destruct (Z.le_ge_cases (exponent_ a) (exponent_ b)).
  - replace (exponent_ b) with e in * by lia.
    rewrite Z.sub_diag, Z.pow_0_r, Z.quot_1_r in *. lia.
  - replace (exponent_ a) with e in * by lia.
    rewrite Z.sub_diag, Z.pow_0_r, Z.quot_1_r in *. lia.
Qed.

Lemma add_error k a b r :
  wf a → wf b → 100 ≤ k → add a b = Ok r → r ≠ zero →
  Z.abs (value k r - (value k a + value k b)) <
    sval k 11 (Z.max (exponent_ a) (exponent_ b)).
Proof.
  intros Ha Hb Hk Hr Hz.
  assert (Hpos : ∀ e n, 0 < n → -100 ≤ e → 0 < sval k n e).
  { intros. unfold sval. pose proof (pow10_pos (e + k)). nia. }
  pose proof (wf_range a Ha). pose proof (wf_range b Hb).
  destruct (Z.eq_dec (mantissa_ a) 0) as [->%wf_mantissa_0|Hna]; [|done|].
  { rewrite add_zero_l in Hr by done. injection Hr as ->.
    change (value k zero) with 0. replace (_ - _) with 0 by lia. apply Hpos; lia. }
  destruct (Z.eq_dec (mantissa_ b) 0) as [->%wf_mantissa_0|Hnb]; [|done|].
  { rewrite add_zero_r in Hr. injection Hr as ->.
    change (value k zero) with 0. replace (_ - _) with 0 by lia. apply Hpos; lia. }
  rewrite add_aligned in Hr by done.
  pose proof (aligned_sum_range a b Ha Hb) as Hrange.
  pose proof (aligned_sum_error k a b Ha Hb Hk) as Herr.
  change (Z.max _ _) with (aligned_sum a b).2.
  destruct (aligned_sum a b) as [fv e]. cbn [fst snd] in *.
  destruct (_ <=? 10); [congruence|].
  pose proof (normalize_spec k (mkIOU fv e)) as Hn. cbn [mantissa_ exponent_] in Hn.
  rewrite Hr in Hn. destruct (decide _); [done|].
  destruct Hn as (Hc & Hsgn & Ht); [dec_consts; lia|lia|lia|].
  assert (exponent_ r ≤ e + 1) as Hexp.
  { destruct (Z.le_gt_cases (exponent_ r) (e + 1)) as [|Hgt]; [done|exfalso].
    rewrite value_abs in Ht by (destruct Hc; dec_consts; lia).
    rewrite value_abs in Ht by (simpl; lia). cbn [mantissa_ exponent_] in Ht.
    assert (sval k (minMantissa * 10 ^ 2) (e + 2 - 2) ≤ sval k (Z.abs fv) e) as Hbad.
    { rewrite sval_shift by lia. etransitivity; [|apply Ht].
      destruct Hc. apply sval_le_mono; dec_consts; lia. }
    replace (e + 2 - 2) with e in Hbad by lia.
    apply sval_le_l in Hbad; dec_consts; lia. }
  assert (sval k 1 (exponent_ r) ≤ sval k 10 e).
  { replace (sval k 10 e) with (sval k (1 * 10 ^ 1) (e + 1 - 1))
      by (simpl; f_equal; lia).
    rewrite sval_shift by lia. destruct Hc. apply sval_le_mono; dec_consts; lia. }
  replace (sval k 11 e) with (sval k 1 e + sval k 10 e) by (unfold sval; lia).
  assert (Z.sgn (value k r) = Z.sgn (value k (mkIOU fv e))) as Hs.
  { unfold value, sval. cbn [mantissa_ exponent_].
    pose proof (pow10_pos (exponent_ r + k) ltac:(destruct Hc; dec_consts; lia)).
    pose proof (pow10_pos (e + k) ltac:(lia)). rewrite !Z.sgn_mul. lia. }
  change (value k (mkIOU fv e)) with (sval k fv e) in *. lia.
Qed.

(** What a zero result or an exception says of the exact sum. *)
Lemma add_outcome k a b :
  wf a → wf b → 100 ≤ k →
  let e := Z.max (exponent_ a) (exponent_ b) in
  let sum := value k a + value k b in
  match add a b with
  | Ok r =>
      if decide (r = zero) then
        Z.abs sum < sval k 11 e ∨
        Z.abs sum < sval k minMantissa minExponent + sval k 1 e
      else True
  | Throw x =>
      (∃ what, x = overflow_error what) ∧
      sval k (maxMantissa + 1) maxExponent < Z.abs sum + sval k 1 e
  end.
Proof.
  intros Ha Hb Hk e sum.
  pose proof (wf_range a Ha). pose proof (wf_range b Hb).
  assert (Hp : 0 < 10 ^ (e + k)) by (apply pow10_pos; lia).
  destruct (Z.eq_dec (mantissa_ a) 0) as [Hz|Hna].
  { apply wf_mantissa_0 in Hz; [|done]. unfold sum. rewrite Hz, add_zero_l by done.
    destruct (decide _) as [->|]; [|done]. left. unfold value, sval; simpl. lia. }
  destruct (Z.eq_dec (mantissa_ b) 0) as [Hz|Hnb].
  { apply wf_mantissa_0 in Hz; [|done]. unfold sum. rewrite Hz, add_zero_r.
    destruct (decide _) as [->|]; [|done]. left. unfold value, sval; simpl. lia. }
  rewrite add_aligned by done.
  pose proof (aligned_sum_range a b Ha Hb) as Hrange.
  pose proof (aligned_sum_error k a b Ha Hb Hk) as Herr. fold sum in Herr.
  change e with (aligned_sum a b).2 in *. clearbody sum. clear e.
  destruct (aligned_sum a b) as [fv e]. cbn [fst snd] in *.
  destruct (Z.leb_spec (Z.abs fv) 10).
  { rewrite decide_True by done. left. unfold sval in *. nia. }
  pose proof (normalize_spec k (mkIOU fv e)) as Hn.
  unfold value in Hn. cbn [mantissa_ exponent_] in Hn.
  destruct (normalize _) as [r|x].
  - destruct (decide _); [|done]. right.
    assert (Z.abs (sval k fv e) < sval k minMantissa minExponent) by (apply Hn; dec_consts; lia).
    lia.
  - destruct Hn as [? ?]; [dec_consts; lia..|]. split; [done|]. lia.
Qed.

Lemma wf_value_inj k a b : wf a → wf b → 100 ≤ k → value k a = value k b → a = b.
Proof.
  intros Ha Hb Hk Heq. pose proof (wf_signum k a Ha Hk). pose proof (wf_signum k b Hb Hk).
  destruct (Z.eq_dec (mantissa_ a) 0) as [Hz|Hna].
  { by rewrite (wf_mantissa_0 a), (wf_mantissa_0 b) by (done || lia). }
  pose proof (wf_nonzero a Ha Hna) as Hca. pose proof (wf_nonzero b Hb ltac:(lia)) as Hcb.
  destruct (canonical_sval_inj k _ _ _ _ Hca Hcb ltac:(lia)) as [Hm He].
  { rewrite <- !value_abs by (destruct Hca, Hcb; dec_consts; lia). lia. }
  destruct a, b; simpl in *. f_equal; lia.
Qed.

Lemma neg_wf a : wf a → neg a = Ok (if mantissa_ a =? 0 then zero else mkIOU (- mantissa_ a) (exponent_ a)).
Proof.
  intros Ha. pose proof (wf_range a Ha). unfold neg, make.
  rewrite i64_id by (dec_consts; lia).
  destruct (Z.eqb_spec (mantissa_ a) 0) as [E|]; [by rewrite E|].
  apply normalize_idemp. right. simpl. rewrite Z.abs_opp. by apply wf_nonzero.
Qed.

Lemma sub_diag a : wf a → sub a a = Ok zero.
Proof.
  intros Ha. unfold sub. rewrite neg_wf by done. cbn [rbind].
  destruct (Z.eqb_spec (mantissa_ a) 0) as [E|Hn].
  { rewrite add_zero_r. by rewrite (wf_mantissa_0 a). }
  rewrite add_aligned; simpl; try done.
  - rewrite Z.max_id, Z.sub_diag, Z.pow_0_r, !Z.quot_1_r, Z.add_opp_diag_r. done.
  - right. simpl. rewrite Z.abs_opp. by apply wf_nonzero.
  - lia.
Qed.

(** ** Properties *)

(** [IOUAmount::normalize] is total on the mantissas an [std::int64_t] can
    hold with its opposite: it returns zero exactly when the number is below the
    least representable magnitude, throws [std::overflow_error] only when the
    magnitude is at least [10 ^ 96], and otherwise returns the canonical amount
    of the same sign obtained by truncating the number, within one unit of the
    last place.  The result satisfies the representation invariant and is a
    fixed point of [normalize]. *)
Theorem iou_normalize k a :
  - 2 ^ 63 < mantissa_ a < 2 ^ 63 → 100 ≤ k → 0 ≤ exponent_ a + k →
  match normalize a with
  | Ok r =>
      wf r ∧ normalize r = Ok r ∧
      if decide (r = zero) then
        Z.abs (value k a) < sval k minMantissa minExponent
      else
        Z.sgn (mantissa_ r) = Z.sgn (mantissa_ a) ∧
        Z.abs (value k r) ≤ Z.abs (value k a) <
          Z.abs (value k r) + sval k 1 (exponent_ r)
  | Throw x =>
      (∃ what, x = overflow_error what) ∧
      sval k (maxMantissa + 1) maxExponent ≤ Z.abs (value k a)
  end.
Proof.
  intros Hm Hk He. pose proof (normalize_spec k a Hm Hk He) as H.
  destruct (normalize a) as [r|x] eqn:E; [|done].
  assert (wf r) by by eapply normalize_wf.
  split_and!; [done|by apply normalize_idemp|].
  destruct (decide _); [done|]. apply H.
Qed.

Lemma iou_normalize_witness :
  normalize (mkIOU (-12345) 3) = Ok (mkIOU (-1234500000000000) (-8)) ∧
  Z.abs (value 100 (mkIOU (-1234500000000000) (-8))) ≤ Z.abs (value 100 (mkIOU (-12345) 3)).
Proof.
  split; [reflexivity|].
  exact (proj1 (proj2 (proj2 (proj2 (iou_normalize 100 (mkIOU (-12345) 3)
    ltac:(vm_compute; auto) ltac:(lia) ltac:(simpl; lia)))))).
Defined.

(** On amounts that satisfy the representation invariant, [operator<] is the
    order of the numbers the amounts stand for, [operator==] is their equality,
    and so exactly one of [a < b], [a == b], [b < a] holds. *)
Theorem iou_order a b :
  wf a → wf b →
  (lt a b = true ↔ value 100 a < value 100 b) ∧
  (eqb a b = true ↔ value 100 a = value 100 b) ∧
  (lt a b = false → eqb a b = false → lt b a = true).
Proof.
  intros Ha Hb.
  assert (eqb a b = true ↔ value 100 a = value 100 b) as He.
  { split.
    - unfold eqb. intros [??]%andb_true_iff. unfold value. f_equal; lia.
    - intros ->%wf_value_inj; [|done..|lia]. unfold eqb. lia. }
  pose proof (lt_value 100 a b Ha Hb ltac:(lia)).
  pose proof (lt_value 100 b a Hb Ha ltac:(lia)).
  split_and!; [done..|]. intros Hl Hq. rewrite Hl in *. rewrite Hq in *.
  apply H0. destruct (Z.lt_trichotomy (value 100 a) (value 100 b)) as [Hlt|[Heq|]];
    [by apply H in Hlt|by apply He in Heq|done].
Qed.

Lemma iou_order_witness :
  lt (mkIOU (-1234500000000000) 5) (mkIOU 1000000000000000 (-90)) = true ∧
  value 100 (mkIOU (-1234500000000000) 5) < value 100 (mkIOU 1000000000000000 (-90)).
Proof.
  split; [reflexivity|].
  apply (iou_order (mkIOU (-1234500000000000) 5) (mkIOU 1000000000000000 (-90)));
    [by_computation..|reflexivity].
Defined.

(** On amounts that satisfy the representation invariant, [operator+=] is
    commutative, has zero as its unit and [a - a] is zero.  A result keeps the
    invariant; one that is not zero is the sum up to eleven units of the last
    place of the operand with the larger exponent; zero is returned only for a
    sum below eleven such units or, up to one unit, below the least
    representable magnitude.  The only exception is an overflow, of a sum that
    is, up to one unit, above the largest representable magnitude. *)
Theorem iou_add a b :
  wf a → wf b →
  add a b = add b a ∧ add a zero = Ok a ∧ add zero a = Ok a ∧ sub a a = Ok zero ∧
  let e := Z.max (exponent_ a) (exponent_ b) in
  let sum := value 100 a + value 100 b in
  match add a b with
  | Ok r =>
      wf r ∧
      if decide (r = zero) then
        Z.abs sum < sval 100 11 e ∨
        Z.abs sum < sval 100 minMantissa minExponent + sval 100 1 e
      else Z.abs (value 100 r - sum) < sval 100 11 e
  | Throw x =>
      (∃ what, x = overflow_error what) ∧
      sval 100 (maxMantissa + 1) maxExponent < Z.abs sum + sval 100 1 e
  end.
Proof.
  intros Ha Hb. split; [by apply add_commutes|]. split; [apply add_zero_r|].
  split; [by apply add_zero_l|]. split; [by apply sub_diag|]. intros e sum.
  pose proof (add_outcome 100 a b Ha Hb ltac:(lia)) as Ho.
  destruct (add a b) as [r|x] eqn:E; [|done].
  split; [by apply (add_wf a b)|]. destruct (decide _); [done|]. by apply add_error.
Qed.

Lemma iou_add_witness :
  add (mkIOU 9999999999999999 0) (mkIOU 1000000000000001 (-3)) =
    Ok (mkIOU 1000099999999999 1) ∧
  wf (mkIOU 1000099999999999 1).
Proof.
  assert (add (mkIOU 9999999999999999 0) (mkIOU 1000000000000001 (-3)) =
    Ok (mkIOU 1000099999999999 1)) as E by reflexivity.
  split; [exact E|].
  refine (proj1 (proj2 (proj2 (proj2 (proj2
    (iou_add (mkIOU 9999999999999999 0) (mkIOU 1000000000000001 (-3)) _ _))))));
    by_computation.
Defined.

End IOU.
