(* ===== verification/STAmount.v ===== *)
(** * STAmount

    protocol/STAmount.h and protocol/impl/STAmount.cpp: amounts of the two
    native currencies (an integer number of drops) and of issued currencies (a
    decimal floating point number), with their arithmetic.  The field name an
    amount carries for serialization plays no part in the arithmetic and is
    left out. *)

From S2P Require Import Prelude Issue Decimal IOUAmount.

Module Amt.

Record STAmount := mkAmt {
  mIssue : Issue;
  mValue : Z;         (* std::uint64_t *)
  mOffset : Z;        (* int *)
  mIsNative : bool;
  mIsNegative : bool
}.

#[global] Instance STAmount_eq_dec : EqDecision STAmount.
Proof. solve_decision. Defined.

Definition cMinOffset : Z := minExponent.
Definition cMaxOffset : Z := maxExponent.
Definition cMinValue : Z := minMantissa.
Definition cMaxValue : Z := maxMantissa.
Definition cMaxNative : Z := 9000000000000000000.
Definition cMaxNativeN : Z := 100000000000000000.
Definition cNotNative : Z := 0x8000000000000000.
Definition cPosNative : Z := 0x4000000000000000.
Definition cVBCNative : Z := 0x2000000000000000.

Definition tenTo14 : Z := 100000000000000.
Definition tenTo14m1 : Z := tenTo14 - 1.
Definition tenTo17 : Z := tenTo14 * 1000.

Definition signum (a : STAmount) : Z :=
  if mValue a =? 0 then 0 else if mIsNegative a then -1 else 1.

(** Comparisons with [beast::zero] go through [signum]. *)
Definition is_zero (a : STAmount) : bool := signum a =? 0.

Definition amt_isVBC (a : STAmount) : bool := isVBC (currency (mIssue a)).
Definition amt_isNative (a : STAmount) : bool := isNative (currency (mIssue a)).

(** ** Canonical form *)

(** [while (mOffset < 0) { mValue /= 10; ++mOffset; }] *)
Definition native_down (v o : Z) : Z * Z :=
  while_do (λ s, s.2 <? 0) (λ s, (s.1 / 10, s.2 + 1)) (Z.to_nat (- o)) (v, o).

(** [while (mOffset > 0) { mValue *= 10; --mOffset; }] *)
Definition native_up (v o : Z) : Z * Z :=
  while_do (λ s, 0 <? s.2) (λ s, (u64 (s.1 * 10), s.2 - 1)) (Z.to_nat o) (v, o).

Definition canonicalize (a : STAmount) : result STAmount :=
  let i := mIssue a in
  if amt_isNative a then
    if mValue a =? 0 then Ok (mkAmt i 0 0 true false) else
    let '(v1, o1) := native_down (mValue a) (mOffset a) in
    let '(v2, o2) := native_up v1 o1 in
    if cMaxNativeN <? v2 then
      Throw (runtime_error "Native currency amount out of range")
    else Ok (mkAmt i v2 o2 true (mIsNegative a))
  else
    if mValue a =? 0 then Ok (mkAmt i 0 (-100) false false) else
    let '(v1, o1) := scale_up u64 (mValue a) (mOffset a) in
    let* (v2, o2) := scale_down (runtime_error "value overflow") v1 o1 in
    if (o2 <? cMinOffset) || (v2 <? cMinValue) then Ok (mkAmt i 0 (-100) false false)
    else if cMaxOffset <? o2 then Throw (runtime_error "value overflow")
    else Ok (mkAmt i v2 o2 false (mIsNegative a)).

(** ** Constructors *)

(** [STAmount (issue, mantissa, exponent, negative)] *)
Definition make (i : Issue) (m e : Z) (negative : bool) : result STAmount :=
  canonicalize (mkAmt i m e false negative).

(** [STAmount (issue)]: zero of an issue. *)
Definition zero_of (i : Issue) : STAmount :=
  mkAmt i 0 (if isNative (currency i) then 0 else -100) (isNative (currency i)) false.

(** [set]: magnitude and sign of a signed mantissa. *)
Definition set_signed (v : Z) : Z * bool :=
  if v <? 0 then (u64 (- v), true) else (u64 v, false).

(** [STAmount (name, isVBC, std::int64_t)] *)
Definition make_native_signed (vbc : bool) (v : Z) : STAmount :=
  let '(m, neg) := set_signed v in
  mkAmt (if vbc then vbcIssue else xrpIssue) m 0 true neg.

(** [STAmount (name, isVBC, std::uint64_t, negative)] *)
Definition make_native (vbc : bool) (m : Z) (negative : bool) : STAmount :=
  mkAmt (if vbc then vbcIssue else xrpIssue) m 0 true negative.

(** [STAmount (std::uint64_t, negative)] *)
Definition of_drops (m : Z) (negative : bool) : STAmount :=
  mkAmt xrpIssue m 0 true (negb (m =? 0) && negative).

(** [STAmount (issue, std::int64_t, exponent)] *)
Definition make_signed (i : Issue) (v e : Z) : result STAmount :=
  let '(m, neg) := set_signed v in canonicalize (mkAmt i m e false neg).

Record XRPAmount := mkXRP { drops_ : Z; isVBC_ : bool }.

(** [STAmount (IOUAmount, issue)] *)
Definition of_iou (a : IOU.IOUAmount) (i : Issue) : result STAmount :=
  let neg := IOU.signum a <? 0 in
  let m := if neg then u64 (- IOU.mantissa_ a) else u64 (IOU.mantissa_ a) in
  canonicalize (mkAmt i m (IOU.exponent_ a) false neg).

(** [STAmount (XRPAmount)] *)
Definition of_xrp (x : XRPAmount) : result STAmount :=
  let neg := drops_ x <? 0 in
  let m := if neg then u64 (- drops_ x) else u64 (drops_ x) in
  canonicalize (mkAmt (if isVBC_ x then vbcIssue else xrpIssue) m 0 true neg).

(** ** Conversions *)

(** [xrp]: the [XRPAmount] is built from the drops alone. *)
Definition xrp (a : STAmount) : result XRPAmount :=
  if negb (mIsNative a) then
    Throw (logic_error "Cannot return non-native STAmount as XRPAmount")
  else
    let drops := i64 (mValue a) in
    Ok (mkXRP (if mIsNegative a then - drops else drops) false).

Definition iou (a : STAmount) : result IOU.IOUAmount :=
  if mIsNative a then
    Throw (logic_error "Cannot return native STAmount as IOUAmount")
  else
    let m := i64 (mValue a) in
    IOU.make (if mIsNegative a then - m else m) (mOffset a).

(** ** Modifiers *)

Definition setIssue (a : STAmount) (i : Issue) : STAmount :=
  mkAmt i (mValue a) (mOffset a) (isNative (currency i)) (mIsNegative a).

Definition setIssuer (a : STAmount) (issuer : AccountID) : STAmount :=
  setIssue a (mkIssue (currency (mIssue a)) issuer).

Definition clear (a : STAmount) : STAmount :=
  mkAmt (mIssue a) 0 (if mIsNative a then 0 else -100) (mIsNative a) false.

Definition clear_issue (a : STAmount) (i : Issue) : STAmount := clear (setIssue a i).

Definition negate (a : STAmount) : STAmount :=
  if is_zero a then a
  else mkAmt (mIssue a) (mValue a) (mOffset a) (mIsNative a) (negb (mIsNegative a)).

(** [floor]: drop the digits below [10 ^ offset]. *)
Definition floor (a : STAmount) (offset : Z) : result STAmount :=
  let '(v, o) := while_do (λ s, s.2 <? offset) (λ s, (s.1 / 10, s.2 + 1))
                   (Z.to_nat (offset - mOffset a)) (mValue a, mOffset a) in
  canonicalize (mkAmt (mIssue a) v o (mIsNative a) (mIsNegative a)).

(** ** Comparison *)

Definition areComparable (v1 v2 : STAmount) : bool :=
  if mIsNative v2 then mIsNative v1
  else Bool.eqb (mIsNative v1) (mIsNative v2) &&
       (currency (mIssue v1) =? currency (mIssue v2)).

Definition eqb (lhs rhs : STAmount) : bool :=
  areComparable lhs rhs &&
  Bool.eqb (mIsNegative lhs) (mIsNegative rhs) &&
  (mOffset lhs =? mOffset rhs) &&
  (mValue lhs =? mValue rhs).

Definition ltb (lhs rhs : STAmount) : result bool :=
  if negb (areComparable lhs rhs) then
    Throw (runtime_error "Can't compare amounts that are't comparable!")
  else if negb (Bool.eqb (mIsNegative lhs) (mIsNegative rhs)) then Ok (mIsNegative lhs)
  else if mValue lhs =? 0 then
    if mIsNegative rhs then Ok false else Ok (negb (mValue rhs =? 0))
  else if mValue rhs =? 0 then Ok false
  else if mOffset rhs <? mOffset lhs then Ok (mIsNegative lhs)
  else if mOffset lhs <? mOffset rhs then Ok (negb (mIsNegative lhs))
  else if mValue rhs <? mValue lhs then Ok (mIsNegative lhs)
  else if mValue lhs <? mValue rhs then Ok (negb (mIsNegative lhs))
  else Ok false.

(** ** Addition *)

Definition getSNValue (a : STAmount) : result Z :=
  if negb (mIsNative a) then Throw (runtime_error "amount is not native!")
  else let ret := i64 (mValue a) in
       Ok (if mIsNegative a then i64 (- ret) else ret).

Definition neg (a : STAmount) : STAmount :=
  if mValue a =? 0 then a
  else mkAmt (mIssue a) (mValue a) (mOffset a) (mIsNative a) (negb (mIsNegative a)).

(** The mantissa with its sign, as [std::int64_t]. *)
Definition signed_value (a : STAmount) : Z :=
  if mIsNegative a then i64 (- i64 (mValue a)) else i64 (mValue a).

Definition add (v1 v2 : STAmount) : result STAmount :=
  if negb (areComparable v1 v2) then
    Throw (runtime_error "Can't add amounts that are't comparable!")
  else if is_zero v2 then Ok v1
  else if is_zero v1 then make (mIssue v1) (mValue v2) (mOffset v2) (mIsNegative v2)
  else if mIsNative v1 then
    let* s1 := getSNValue v1 in
    let* s2 := getSNValue v2 in
    Ok (make_native_signed (amt_isVBC v1) (i64 (s1 + s2)))
  else
    let '(vv1, ov1) := align (signed_value v1) (mOffset v1) (mOffset v2) in
    let '(vv2, ov2) := align (signed_value v2) (mOffset v2) ov1 in
    let fv := i64 (vv1 + vv2) in
    if (-10 <=? fv) && (fv <=? 10) then Ok (zero_of (mIssue v1))
    else if 0 <=? fv then make (mIssue v1) (u64 fv) ov1 false
    else make (mIssue v1) (u64 (- fv)) ov1 true.

Definition sub (v1 v2 : STAmount) : result STAmount := add v1 (neg v2).

End Amt.
