(* ===== verification/BigNum.v ===== *)
(** * Big numbers

    The OpenSSL big number operations that protocol/impl/STAmount.cpp uses
    through [CBigNum] and the [BN_*_word64] wrappers (crypto/impl/CBigNum.cpp).
    OpenSSL is not part of the repository: its operations are the members of
    [BigNum], and [BigNumLaws] states what its manual documents of them. *)

From S2P Require Import Prelude.

(** A [None] result is the failure code of the C function. *)
Class BigNum := {
  BIGNUM : Type;
  BN_zero : BIGNUM;
  BN_add_word : BIGNUM → Z → option BIGNUM;
  BN_mul_word : BIGNUM → Z → option BIGNUM;
  BN_div_word : BIGNUM → Z → option BIGNUM;
  BN_get_word : BIGNUM → Z
}.

Definition is_word (w : Z) : Prop := 0 ≤ w < 2 ^ 64.

#[global] Instance is_word_dec w : Decision (is_word w).
Proof. unfold is_word. apply _. Defined.

(** [BN_represents b v]: the big number [b] holds the natural [v].  The word
    operations are exact on naturals of any size and [BN_get_word] returns the
    number when it fits a word. *)
Class BigNumLaws (B : BigNum) := {
  BN_represents : BIGNUM → Z → Prop;
  BN_zero_ok : BN_represents BN_zero 0;
  BN_add_word_ok b v w : BN_represents b v → is_word w →
    ∃ b', BN_add_word b w = Some b' ∧ BN_represents b' (v + w);
  BN_mul_word_ok b v w : BN_represents b v → is_word w →
    ∃ b', BN_mul_word b w = Some b' ∧ BN_represents b' (v * w);
  BN_div_word_ok b v w : BN_represents b v → is_word w → w ≠ 0 →
    ∃ b', BN_div_word b w = Some b' ∧ BN_represents b' (v / w);
  BN_get_word_ok b v : BN_represents b v → is_word v → BN_get_word b = v
}.

(** ** The wrappers *)

Definition bn_error : exn := runtime_error "internal bn error".

Definition or_throw {A} (e : exn) (o : option A) : result A :=
  match o with Some x => Ok x | None => Throw e end.

Section wrappers.
Context `{B : BigNum}.

Definition BN_add_word64 (b : BIGNUM) (w : Z) : option BIGNUM := BN_add_word b w.
Definition BN_mul_word64 (b : BIGNUM) (w : Z) : option BIGNUM := BN_mul_word b w.
Definition BN_div_word64 (b : BIGNUM) (w : Z) : option BIGNUM := BN_div_word b w.
Definition getuint64 (b : BIGNUM) : Z := BN_get_word b.

End wrappers.

(** ** What the sources compute with them *)

Section facts.
Context {B : BigNum} {L : BigNumLaws B}.

(** [x * m / d] with an optional amount added before the division. *)
Lemma bn_scaled_quotient x m a d :
  is_word x → is_word m → is_word a → is_word d → d ≠ 0 →
  ∃ b1 b2 b3 b4 b5,
    BN_add_word64 BN_zero x = Some b1 ∧ BN_mul_word64 b1 m = Some b2 ∧
    BN_add_word64 b2 a = Some b3 ∧
    BN_div_word64 b3 d = Some b4 ∧ BN_represents b4 ((x * m + a) / d) ∧
    BN_div_word64 b2 d = Some b5 ∧ BN_represents b5 (x * m / d).
Proof.
  intros Hx Hm Ha Hd Hd0. unfold BN_add_word64, BN_mul_word64, BN_div_word64.
  destruct (BN_add_word_ok BN_zero 0 x BN_zero_ok Hx) as (b1 & -> & H1).
  destruct (BN_mul_word_ok b1 _ m H1 Hm) as (b2 & E2 & H2).
  destruct (BN_add_word_ok b2 _ a H2 Ha) as (b3 & E3 & H3).
  destruct (BN_div_word_ok b3 _ d H3 Hd Hd0) as (b4 & E4 & H4).
  destruct (BN_div_word_ok b2 _ d H2 Hd Hd0) as (b5 & E5 & H5).
  rewrite Z.add_0_l in *. eauto 20.
Qed.
End facts.

(** Exact integers satisfy the laws; numbers past a word read as all ones. *)
#[global] Instance exactBN : BigNum := {
  BIGNUM := Z;
  BN_zero := 0;
  BN_add_word b w := Some (b + w);
  BN_mul_word b w := Some (b * w);
  BN_div_word b w := if w =? 0 then None else Some (b / w);
  BN_get_word b := if b <? 2 ^ 64 then b else 2 ^ 64 - 1
}.

#[global] Instance exactBN_laws : BigNumLaws exactBN.
Proof.
  refine {| BN_represents := λ b v, b = v |}; unfold is_word; cbn.
  - done.
  - intros b v w -> _. eauto.
  - intros b v w -> _. eauto.
  - intros b v w -> _ Hw. case_match; [lia|eauto].
  - intros b v -> Hv. case_match; [done|lia].
Defined.
