(* ===== verification/STAmountFacts.v ===== *)
(** * Facts about amounts

    The representation invariant of [STAmount], what [canonicalize] does, the
    order, and the agreement of addition on issued currencies with
    [IOUAmount]. *)

From S2P Require Import Prelude Issue Decimal IOUAmount STAmount.
Import Amt.

Module AmtFacts.

(** ** The representation invariant *)

Definition wf (a : STAmount) : Prop :=
  mIsNative a = isNative (currency (mIssue a)) ∧
  if mIsNative a then
    mOffset a = 0 ∧ 0 ≤ mValue a ≤ cMaxNativeN ∧ (mValue a = 0 → mIsNegative a = false)
  else
    mValue a = 0 ∧ mOffset a = -100 ∧ mIsNegative a = false ∨
    canonical (mValue a) (mOffset a).

#[global] Instance wf_dec a : Decision (wf a).
Proof. unfold wf. destruct (mIsNative a); apply _. Defined.

(** The signed mantissa, and the number scaled by [10 ^ k]. *)
Definition sv (a : STAmount) : Z := if mIsNegative a then - mValue a else mValue a.

Definition value (k : Z) (a : STAmount) : Z := sval k (sv a) (mOffset a).

Lemma u64_small z : 0 ≤ z ≤ maxMantissa → u64 z = z.
Proof. dec_consts. intros. apply u64_id. lia. Qed.

Lemma zero_of_wf i : wf (zero_of i).
Proof. unfold wf, zero_of. simpl. destruct (isNative _); [split; [done|]|auto]. by vm_compute. Qed.

Lemma is_zero_value a : is_zero a = (mValue a =? 0).
Proof. unfold is_zero, signum. destruct (mValue a =? 0), (mIsNegative a); done. Qed.

(** ** Canonicalisation *)

Definition of_norm (i : Issue) (negative : bool) (o : option (Z * Z)) : STAmount :=
  match o with
  | None => mkAmt i 0 (-100) false false
  | Some (m, e) => mkAmt i m e false negative
  end.

Lemma canonicalize_norm a :
  isNative (currency (mIssue a)) = false →
  canonicalize a =
    rmap (of_norm (mIssue a) (mIsNegative a))
      (norm u64 (runtime_error "value overflow") (runtime_error "value overflow")
         (mValue a) (mOffset a)).
Proof.
  intros Hn. unfold canonicalize, norm, amt_isNative. rewrite Hn.
  destruct (mValue a =? 0); [done|].
  destruct (scale_up u64 _ _) as [m1 e1].
  destruct (scale_down _ m1 e1) as [[m2 e2]|]; cbn [rbind rmap]; [|done].
  unfold cMinOffset, cMaxOffset, cMinValue. by destruct (_ || _), (maxExponent <? e2).
Qed.

Lemma native_down_spec v o : native_down v o = if o <? 0 then (v / 10 ^ (- o), 0) else (v, o).
Proof.
  unfold native_down. destruct (Z.ltb_spec o 0) as [Hc|Hc].
  2:{ rewrite while_do_false; [done|]. cbn [fst snd]. lia. }
  destruct (while_do _ _ _ _) as [v' o'] eqn:E.
  eapply (while_do_ind _ _ (λ s, o ≤ s.2 ≤ 0 ∧ s.1 = v / 10 ^ (s.2 - o))) in E as Hi;
    cbn [fst snd] in *.
  - eapply (while_do_exit _ _ (λ s, Z.to_nat (- s.2))) in E; cbn [fst snd] in *.
    + destruct Hi as [? ->]. by replace o' with 0 by lia.
    + intros [v2 o2] ?. cbn [fst snd] in *. lia.
    + done.
  - intros [v2 o2] [? ->] ?. cbn [fst snd] in *. split; [lia|].
    rewrite div_pow10_step by lia. do 2 f_equal. lia.
  - split; [lia|]. by rewrite Z.sub_diag, Z.pow_0_r, Z.div_1_r.
Qed.

Lemma native_up_spec v o :
  0 ≤ v < 2 ^ 64 → 0 ≤ o → native_up v o = (u64 (v * 10 ^ o), 0).
Proof.
  intros Hv Ho. unfold native_up. destruct (while_do _ _ _ _) as [v' o'] eqn:E.
  eapply (while_do_ind _ _ (λ s, 0 ≤ s.2 ≤ o ∧ s.1 = u64 (v * 10 ^ (o - s.2)))) in E as Hi;
    cbn [fst snd] in *.
  - eapply (while_do_exit _ _ (λ s, Z.to_nat s.2)) in E; cbn [fst snd] in *.
    + destruct Hi as [? ->]. replace o' with 0 by lia. by rewrite Z.sub_0_r.
    + intros [v2 o2] ?. cbn [fst snd] in *. lia.
    + done.
  - intros [v2 o2] [? ->] ?. cbn [fst snd] in *. split; [lia|].
    unfold u64, uwrap. rewrite Z.mul_mod_idemp_l by lia. f_equal.
    replace (o - (o2 - 1)) with (o - o2 + 1) by lia. rewrite pow10_succ by lia. lia.
  - split; [lia|]. rewrite Z.sub_diag, Z.pow_0_r, Z.mul_1_r. by rewrite u64_id.
Qed.

(** A native amount is brought to exponent zero: digits below a drop are cut
    off, and a positive exponent multiplies modulo [2 ^ 64]. *)
Definition native_drops (v o : Z) : Z :=
  if o <? 0 then v / 10 ^ (- o) else u64 (v * 10 ^ o).

Lemma canonicalize_native a :
  isNative (currency (mIssue a)) = true → 0 < mValue a < 2 ^ 64 →
  canonicalize a =
    let d := native_drops (mValue a) (mOffset a) in
    if cMaxNativeN <? d then Throw (runtime_error "Native currency amount out of range")
    else Ok (mkAmt (mIssue a) d 0 true (mIsNegative a)).
Proof.
  intros Hn Hv. unfold canonicalize, amt_isNative, native_drops. rewrite Hn.
  destruct (Z.eqb_spec (mValue a) 0); [lia|]. rewrite native_down_spec.
  destruct (Z.ltb_spec (mOffset a) 0) as [Ho|Ho].
  - assert (0 ≤ mValue a / 10 ^ (- mOffset a) < 2 ^ 64) as Hr.
    { pose proof (pow10_pos (- mOffset a) ltac:(lia)). split; [apply Z.div_pos; lia|].
      apply Z.div_lt_upper_bound; nia. }
    rewrite native_up_spec by lia. by rewrite Z.pow_0_r, Z.mul_1_r, u64_id.
  - by rewrite native_up_spec by lia.
Qed.

(** [canonicalize] leaves amounts that satisfy the invariant alone. *)
Lemma canonicalize_wf_id a : wf a → canonicalize a = Ok a.
Proof.
  destruct a as [i v o n s]. intros [Hn Hw]; simpl in *. subst n.
  destruct (isNative (currency i)) eqn:Hi.
  - destruct Hw as (-> & Hv & Hs). destruct (Z.eq_dec v 0) as [->|Hv0].
    + rewrite Hs by done. unfold canonicalize, amt_isNative. simpl. by rewrite Hi.
    + unfold cMaxNativeN in *. rewrite canonicalize_native by (simpl; done || lia).
      simpl. unfold native_drops. simpl. rewrite Z.mul_1_r, u64_id by lia.
      unfold cMaxNativeN. by destruct (Z.ltb_spec 100000000000000000 v); [lia|].
  - rewrite canonicalize_norm by done. simpl.
    destruct Hw as [(-> & -> & ->)|Hc]; [done|]. by rewrite norm_canonical.
Qed.

(** ** Issued amounts as [IOUAmount]s *)

Definition to_iou (a : STAmount) : IOU.IOUAmount := IOU.mkIOU (sv a) (mOffset a).

Definition lift (i : Issue) (x : IOU.IOUAmount) : STAmount :=
  mkAmt i (Z.abs (IOU.mantissa_ x)) (IOU.exponent_ x) false (IOU.mantissa_ x <? 0).

Lemma wf_issued a :
  wf a → mIsNative a = false →
  isNative (currency (mIssue a)) = false ∧
  (mValue a = 0 ∧ mOffset a = -100 ∧ mIsNegative a = false ∨
   canonical (mValue a) (mOffset a)).
Proof. intros [Hi Hw] Hn. rewrite Hn in *. done. Qed.

Lemma wf_value_range a : wf a → 0 ≤ mValue a ≤ cMaxNativeN ∧ -100 ≤ mOffset a ≤ 80.
Proof.
  unfold wf, canonical, cMaxNativeN. dec_consts. intros [_ Hw].
  destruct (mIsNative a); lia.
Qed.

Lemma to_iou_wf a : wf a → mIsNative a = false → IOU.wf (to_iou a).
Proof.
  intros Hw Hn. destruct (wf_issued a Hw Hn) as [_ [(Hv & Ho & Hs)|Hc]].
  - left. unfold to_iou, sv. by rewrite Hv, Ho, Hs.
  - right. unfold to_iou, sv; simpl. destruct Hc as [??].
    split; [|done]. destruct (mIsNegative a); dec_consts; lia.
Qed.

Lemma iou_to_iou a : wf a → mIsNative a = false → iou a = Ok (to_iou a).
Proof.
  intros Hw Hn. unfold iou. rewrite Hn. pose proof (wf_value_range a Hw).
  rewrite i64_id by (unfold cMaxNativeN in *; lia).
  apply IOU.normalize_idemp. by apply to_iou_wf.
Qed.

Lemma lift_to_iou a :
  wf a → mIsNative a = false → lift (mIssue a) (to_iou a) = a.
Proof.
  intros Hw Hn. destruct (wf_issued a Hw Hn) as [_ Hc].
  destruct a as [i v o n s]; unfold lift, to_iou, sv, canonical in *; simpl in *; subst n.
  dec_consts. destruct s.
  - f_equal; lia.
  - f_equal; lia.
Qed.

Lemma to_iou_lift i x : to_iou (lift i x) = x.
Proof.
  destruct x as [m e]. unfold to_iou, lift, sv; simpl.
  destruct (Z.ltb_spec m 0); f_equal; lia.
Qed.

Lemma lift_wf i x : isNative (currency i) = false → IOU.wf x → wf (lift i x).
Proof. intros Hi [->|Hc]; (split; [done|]); [by left|by right]. Qed.

Lemma lift_of_norm i neg o :
  match o with Some (m, _) => 0 < m | None => True end →
  of_norm i neg o = lift i (IOU.of_norm neg o).
Proof.
  destruct o as [[m e]|]; [|done]. intros. unfold lift; simpl.
  destruct neg; f_equal; lia.
Qed.

Lemma same_outcome_rmap {A B} (f : A → B) r r' :
  same_outcome r r' → same_outcome (rmap f r) (rmap f r').
Proof. destruct r, r'; simpl; congruence || tauto. Qed.

(** The constructor of an issued amount does to the magnitude what
    [IOUAmount::normalize] does. *)
Lemma make_lift i m e neg :
  isNative (currency i) = false → 0 ≤ m < 2 ^ 63 →
  same_outcome (make i m e neg)
    (rmap (lift i) (IOU.make (if neg then - m else m) e)).
Proof.
  intros Hi Hm. unfold make, IOU.make. rewrite canonicalize_norm by done. simpl.
  destruct (Z.eq_dec m 0) as [->|Hm0]; [by destruct neg|].
  rewrite IOU.normalize_norm by (simpl; destruct neg; lia). simpl.
  replace (Z.abs (if neg then - m else m)) with m by (destruct neg; lia).
  replace ((if neg then - m else m) <? 0) with neg by (destruct neg; lia).
  set (k := Z.max 96 (- e)).
  pose proof (norm_ext u64 (runtime_error "value overflow") (runtime_error "value overflow")
    i64 (overflow_error "IOUAmount::normalize") (overflow_error "value overflow")
    m e m e k u64_small IOU.i64_small ltac:(lia) ltac:(lia) ltac:(lia) ltac:(lia)
    ltac:(lia) eq_refl) as Hs.
  pose proof (norm_spec u64 (runtime_error "value overflow") (runtime_error "value overflow")
    u64_small k m e ltac:(lia) ltac:(lia) ltac:(lia)) as Hc.
  destruct (norm u64 _ _ m e) as [o|], (norm i64 _ _ m e) as [o'|]; simpl in *; try done.
  subst o'. apply lift_of_norm. destruct o as [[m' e']|]; [|done].
  destruct Hc as [[? _] _]. dec_consts. lia.
Qed.

(** ** Order *)

Lemma ltb_iou a b :
  wf a → wf b → mIsNative a = false → mIsNative b = false → areComparable a b = true →
  ltb a b = Ok (IOU.lt (to_iou a) (to_iou b)).
Proof.
  intros Ha Hb Hna Hnb Hc. unfold ltb. rewrite Hc. cbn [negb].
  destruct (wf_issued a Ha Hna) as [_ Hva], (wf_issued b Hb Hnb) as [_ Hvb].
  unfold IOU.lt, to_iou, sv, canonical in *; cbn [IOU.mantissa_ IOU.exponent_].
  dec_consts. destruct (mIsNegative a), (mIsNegative b);
    repeat case_match; try done; try lia; f_equal; lia.
Qed.

Lemma ltb_native a b :
  wf a → wf b → mIsNative a = true → mIsNative b = true →
  ltb a b = Ok (sv a <? sv b).
Proof.
  intros [_ Ha] [_ Hb] Hna Hnb. rewrite Hna in Ha. rewrite Hnb in Hb.
  unfold ltb, areComparable. rewrite Hna, Hnb. cbn [negb].
  unfold sv. destruct Ha as (-> & ? & ?), Hb as (-> & ? & ?).
  destruct (mIsNegative a), (mIsNegative b); cbn [Bool.eqb negb]; repeat case_match;
    try done; try lia; try (f_equal; lia).
Qed.

Lemma value_iou k a : value k a = IOU.value k (to_iou a).
Proof. done. Qed.

Lemma value_native k a : mOffset a = 0 → value k a = sv a * 10 ^ k.
Proof. unfold value, sval. by intros ->. Qed.

Lemma areComparable_native a b :
  areComparable a b = true → mIsNative a = mIsNative b.
Proof.
  unfold areComparable. destruct (mIsNative b); [done|].
  intros [H _]%andb_true_iff. by apply Bool.eqb_prop in H.
Qed.

Lemma ltb_value k a b :
  wf a → wf b → areComparable a b = true → 100 ≤ k →
  ltb a b = Ok (value k a <? value k b).
Proof.
  intros Ha Hb Hc Hk. pose proof (areComparable_native a b Hc) as Hn.
  destruct (mIsNative b) eqn:Hnb.
  - rewrite ltb_native by done. destruct Ha as [_ Ha], Hb as [_ Hb].
    rewrite Hn in Ha. rewrite Hnb in Hb.
    rewrite !value_native by tauto. pose proof (pow10_pos k). f_equal. nia.
  - rewrite ltb_iou by done. f_equal. rewrite !value_iou.
    pose proof (IOU.lt_value k (to_iou a) (to_iou b) ltac:(by apply to_iou_wf)
      ltac:(by apply to_iou_wf) Hk).
    destruct (IOU.lt _ _); destruct (Z.ltb_spec (IOU.value k (to_iou a)) (IOU.value k (to_iou b)));
      intuition congruence || lia.
Qed.

Lemma eqb_value k a b :
  wf a → wf b → areComparable a b = true → 100 ≤ k →
  eqb a b = (value k a =? value k b).
Proof.
  intros Ha Hb Hc Hk. pose proof (areComparable_native a b Hc) as Hn.
  apply eq_true_iff_eq. rewrite Z.eqb_eq. unfold eqb. rewrite Hc. cbn [andb]. split.
  - intros [[Hs%Bool.eqb_prop ?]%andb_true_iff ?]%andb_true_iff.
    unfold value, sv. rewrite Hs. f_equal; [case_match|]; lia.
  - destruct (mIsNative b) eqn:Hnb.
    + destruct Ha as [_ Ha], Hb as [_ Hb]. rewrite Hn in Ha. rewrite Hnb in Hb.
      rewrite !value_native by tauto. pose proof (pow10_pos k ltac:(lia)).
      intros Heq%Z.mul_reg_r; [|lia]. destruct Ha as (-> & ? & ?), Hb as (-> & ? & ?).
      unfold sv in Heq. destruct (mIsNegative a), (mIsNegative b); simpl; lia.
    + rewrite !value_iou. intros Heq%IOU.wf_value_inj; [|by apply to_iou_wf..|done].
      injection Heq as Hs Ho. destruct (wf_issued a Ha Hn) as [_ Hva].
      destruct (wf_issued b Hb Hnb) as [_ Hvb]. unfold sv, canonical in *. dec_consts.
      destruct (mIsNegative a), (mIsNegative b); simpl; lia.
Qed.

(** ** Addition *)

Lemma align_abs_le m e t : Z.abs (align m e t).1 ≤ Z.abs m.
Proof.
  rewrite align_spec. destruct (Z.ltb_spec e t); [|done].
  apply quot_pow10_abs_le. lia.
Qed.

Lemma sv_range a : wf a → Z.abs (sv a) ≤ cMaxNativeN.
Proof. intros ?%wf_value_range. unfold sv. case_match; lia. Qed.

Lemma signed_value_sv a : wf a → signed_value a = sv a.
Proof.
  intros ?%wf_value_range. unfold signed_value, sv, cMaxNativeN in *.
  case_match; rewrite ?i64_id; rewrite ?i64_id; lia.
Qed.

Lemma sv_zero a : (sv a =? 0) = (mValue a =? 0).
Proof. unfold sv. case_match; lia. Qed.

Lemma iou_zero_amount a : wf a → mIsNative a = false → mValue a = 0 → to_iou a = IOU.zero.
Proof.
  intros Hw Hn Hv. apply IOU.wf_mantissa_0; [by apply to_iou_wf|].
  apply Z.eqb_eq. simpl. rewrite sv_zero. lia.
Qed.

Lemma make_zero_sum i a :
  isNative (currency i) = false → wf a → mIsNative a = false →
  same_outcome (make i (mValue a) (mOffset a) (mIsNegative a)) (Ok (lift i (to_iou a))).
Proof.
  intros Hi Hw Hn. pose proof (wf_value_range a Hw). unfold cMaxNativeN in *.
  etransitivity; [apply make_lift; [done|lia]|].
  change (if mIsNegative a then - mValue a else mValue a) with (sv a).
  unfold IOU.make. change (IOU.mkIOU (sv a) (mOffset a)) with (to_iou a).
  by rewrite IOU.normalize_idemp by by apply to_iou_wf.
Qed.

(** Addition of issued amounts is addition of the [IOUAmount]s, in the issue
    of the first operand. *)
Lemma add_issued a b :
  wf a → wf b → mIsNative a = false → mIsNative b = false → areComparable a b = true →
  same_outcome (add a b) (rmap (lift (mIssue a)) (IOU.add (to_iou a) (to_iou b))).
Proof.
  intros Ha Hb Hna Hnb Hc. destruct (wf_issued a Ha Hna) as [Hia _].
  unfold add, IOU.add. rewrite Hc, Hna, !is_zero_value, !IOU.signum_0. cbn [negb].
  cbn [to_iou IOU.mantissa_ IOU.exponent_]. rewrite !sv_zero, !signed_value_sv by done.
  destruct (mValue b =? 0); [simpl; by rewrite lift_to_iou|].
  destruct (mValue a =? 0); [by apply make_zero_sum|].
  pose proof (align_abs_le (sv a) (mOffset a) (mOffset b)) as H1.
  destruct (align (sv a) _ _) as [m1 e1].
  pose proof (align_abs_le (sv b) (mOffset b) e1) as H2.
  destruct (align (sv b) _ _) as [m2 e2]. cbn [fst] in *.
  pose proof (sv_range a Ha). pose proof (sv_range b Hb). unfold cMaxNativeN in *.
  autorewrite with wraps. destruct (_ && _); [simpl; unfold zero_of; by rewrite Hia|].
  destruct (Z.leb_spec 0 (m1 + m2)).
  - autorewrite with wraps. apply (make_lift _ _ _ false); [done|lia].
  - autorewrite with wraps. etransitivity; [apply (make_lift _ _ _ true); [done|lia]|].
    by rewrite Z.opp_involutive.
Qed.

Lemma wf_native a :
  wf a → mIsNative a = true →
  isNative (currency (mIssue a)) = true ∧ mOffset a = 0 ∧ 0 ≤ mValue a ≤ cMaxNativeN ∧
  (mValue a = 0 → mIsNegative a = false).
Proof. intros [Hi Hw] Hn. rewrite Hn in *. by split. Qed.

Lemma make_wf i v o s :
  wf (mkAmt i v o (isNative (currency i)) s) →
  make i v o s = Ok (mkAmt i v o (isNative (currency i)) s).
Proof. apply canonicalize_wf_id. Qed.

Lemma make_native_signed_sv vbc v :
  - 2 ^ 63 < v < 2 ^ 63 →
  let r := make_native_signed vbc v in
  sv r = v ∧ mOffset r = 0 ∧ mIsNative r = true ∧ (mValue r = 0 → mIsNegative r = false) ∧
  mIssue r = if vbc then vbcIssue else xrpIssue.
Proof.
  intros Hv. unfold make_native_signed, set_signed, sv.
  destruct (Z.ltb_spec v 0); cbn; autorewrite with wraps; split_and!; done || lia.
Qed.

(** Addition of native amounts is exact integer addition. *)
Lemma add_native a b :
  wf a → wf b → mIsNative a = true → mIsNative b = true →
  ∃ r, add a b = Ok r ∧ sv r = sv a + sv b ∧ mIsNative r = true ∧ mOffset r = 0 ∧
    (mValue r = 0 → mIsNegative r = false).
Proof.
  intros Ha Hb Hna Hnb. pose proof (sv_range a Ha). pose proof (sv_range b Hb).
  destruct (wf_native a Ha Hna) as (Hia & Hoa & Hva & Hsa).
  destruct (wf_native b Hb Hnb) as (Hib & Hob & Hvb & Hsb).
  unfold add, areComparable, getSNValue. rewrite Hna, Hnb, !is_zero_value. cbn [negb rbind].
  fold (signed_value a) (signed_value b). rewrite !signed_value_sv by done.
  destruct (Z.eqb_spec (mValue b) 0) as [Hb0|].
  { exists a. assert (sv b = 0) by (unfold sv; rewrite Hb0; by case_match).
    split_and!; done || lia. }
  destruct (Z.eqb_spec (mValue a) 0) as [Ha0|].
  { rewrite make_wf; rewrite Hia; [|by split].
    eexists; split; [done|]. unfold sv; simpl. rewrite Ha0, Hsa by done.
    split_and!; done || lia. }
  unfold cMaxNativeN in *. autorewrite with wraps.
  pose proof (make_native_signed_sv (amt_isVBC a) (sv a + sv b) ltac:(lia)) as (?&?&?&?&?).
  eauto 10.
Qed.

(** ** Properties *)

(** For an issued currency [STAmount::canonicalize] keeps the issue and
    returns an amount that satisfies the representation invariant: zero exactly
    when the number is below the least representable magnitude, otherwise the
    number truncated to sixteen significant digits, with its sign.  It throws
    only when the magnitude is at least [10 ^ 96]. *)
Theorem amt_canonicalize_issued k a :
  isNative (currency (mIssue a)) = false → 0 < mValue a < 2 ^ 64 →
  100 ≤ k → 0 ≤ mOffset a + k →
  match canonicalize a with
  | Ok r =>
      wf r ∧ mIssue r = mIssue a ∧ canonicalize r = Ok r ∧
      if mValue r =? 0 then
        sval k (mValue a) (mOffset a) < sval k minMantissa minExponent
      else
        mIsNegative r = mIsNegative a ∧
        sval k (mValue r) (mOffset r) ≤ sval k (mValue a) (mOffset a) <
          sval k (mValue r + 1) (mOffset r)
  | Throw x =>
      x = runtime_error "value overflow" ∧
      sval k (maxMantissa + 1) maxExponent ≤ sval k (mValue a) (mOffset a)
  end.
Proof.
  intros Hi Hv Hk Ho. rewrite canonicalize_norm by done.
  set (ov := runtime_error "value overflow").
  pose proof (norm_spec u64 ov ov u64_small k (mValue a) (mOffset a)
    ltac:(lia) ltac:(lia) ltac:(lia)) as H.
  destruct (norm u64 ov ov _ _) as [[[m e]|]|x] eqn:E; simpl.
  - destruct H as [Hc Ht].
    assert (wf (mkAmt (mIssue a) m e false (mIsNegative a))) by (split; [done|by right]).
    split; [done|split; [done|split; [by apply canonicalize_wf_id|]]].
    destruct (Z.eqb_spec m 0); [|done]. destruct Hc. dec_consts. lia.
  - assert (wf (mkAmt (mIssue a) 0 (-100) false false)) by (split; [done|by left]).
    split; [done|split; [done|split; [by apply canonicalize_wf_id|done]]].
  - split; [|done]. unfold norm in E. destruct (mValue a =? 0); [done|].
    destruct (scale_up u64 _ _) as [m1 e1]. destruct (scale_down _ _ _) as [[]|] eqn:E2; cbn [rbind] in E.
    + repeat case_match; by simplify_eq.
    + apply scale_down_Throw in E2 as [-> _]. by simplify_eq.
Qed.

Definition usd : Issue := mkIssue 0x5553440000000000 42.

Lemma amt_canonicalize_issued_witness :
  canonicalize (mkAmt usd 12345678901234567890 (-3) false true) =
    Ok (mkAmt usd 1234567890123456 1 false true) ∧
  wf (mkAmt usd 1234567890123456 1 false true).
Proof.
  split; [reflexivity|].
  exact (proj1 (amt_canonicalize_issued 100
    (mkAmt usd 12345678901234567890 (-3) false true)
    eq_refl ltac:(simpl; lia) ltac:(lia) ltac:(simpl; lia))).
Defined.

(** For the native currencies, as long as scaling by a positive exponent
    stays within 64 bits, [STAmount::canonicalize] returns the number of whole
    drops, sign and issue unchanged, and throws exactly when it exceeds
    [cMaxNativeN].  The result satisfies the representation invariant unless a
    negative amount is cut down to zero, which leaves a negative zero. *)
Theorem amt_canonicalize_native a :
  isNative (currency (mIssue a)) = true → 0 < mValue a < 2 ^ 64 →
  mValue a * 10 ^ Z.max 0 (mOffset a) < 2 ^ 64 →
  let up := 10 ^ Z.max 0 (mOffset a) in
  let down := 10 ^ Z.max 0 (- mOffset a) in
  match canonicalize a with
  | Ok r =>
      mIssue r = mIssue a ∧ mIsNegative r = mIsNegative a ∧
      mIsNative r = true ∧ mOffset r = 0 ∧ mValue r ≤ cMaxNativeN ∧
      mValue r * down ≤ mValue a * up < (mValue r + 1) * down ∧
      (wf r ↔ (mValue r = 0 → mIsNegative a = false))
  | Throw x =>
      x = runtime_error "Native currency amount out of range" ∧
      (cMaxNativeN + 1) * down ≤ mValue a * up
  end.
Proof.
  intros Hi Hv Hfit up down. rewrite canonicalize_native by done.
  set (d := native_drops _ _). cbn zeta.
  assert (0 ≤ d ∧ d * down ≤ mValue a * up < (d + 1) * down) as [Hd0 Hd].
  { unfold d, native_drops, up, down. destruct (Z.ltb_spec (mOffset a) 0).
    - rewrite (Z.max_l 0 (mOffset a)), Z.max_r by lia.
      pose proof (pow10_pos (- mOffset a) ltac:(lia)).
      pose proof (Z.div_mod (mValue a) (10 ^ (- mOffset a)) ltac:(lia)).
      pose proof (Z.mod_pos_bound (mValue a) (10 ^ (- mOffset a)) ltac:(lia)).
      split; [apply Z.div_pos|]; lia.
    - rewrite (Z.max_r 0 (mOffset a)) in Hfit |- * by lia.
      rewrite (Z.max_l 0 (- _)), Z.pow_0_r by lia.
      pose proof (pow10_pos (mOffset a) ltac:(lia)).
      assert (0 ≤ mValue a * 10 ^ mOffset a) by nia. rewrite u64_id; lia. }
  destruct (Z.ltb_spec cMaxNativeN d); cbn -[Z.mul cMaxNativeN].
  - split; [done|]. pose proof (pow10_pos (Z.max 0 (- mOffset a)) ltac:(lia)).
    unfold down in *. nia.
  - split_and!; try done; try lia. unfold wf; simpl. rewrite Hi. intuition.
Qed.

Lemma amt_canonicalize_native_witness :
  canonicalize (mkAmt xrpIssue 12345 (-2) false true) = Ok (mkAmt xrpIssue 123 0 true true) ∧
  mValue (mkAmt xrpIssue 123 0 true true) ≤ cMaxNativeN.
Proof.
  split; [reflexivity|].
  exact (proj1 (proj2 (proj2 (proj2 (proj2 (amt_canonicalize_native
    (mkAmt xrpIssue 12345 (-2) false true)
    eq_refl ltac:(split; reflexivity) ltac:(reflexivity))))))).
Defined.

(** A scaling that exceeds 64 bits is not reported: ten to the 64 drops
    canonicalises to no drops at all, without an exception.  A negative
    fraction of a drop becomes a negative zero, which is not equal to zero. *)
Theorem amt_native_edges :
  canonicalize (mkAmt xrpIssue 1 64 false false) = Ok (mkAmt xrpIssue 0 0 true false) ∧
  canonicalize (mkAmt vbcIssue 5 (-1) false true) = Ok (mkAmt vbcIssue 0 0 true true) ∧
  eqb (mkAmt vbcIssue 0 0 true true) (zero_of vbcIssue) = false ∧
  ltb (mkAmt vbcIssue 0 0 true true) (zero_of vbcIssue) = Ok true.
Proof. split_and!; reflexivity. Qed.

(** On comparable amounts that satisfy the invariant, [operator<] is the
    order of the numbers and never throws, and [operator==] is their equality;
    on other amounts [operator<] throws and [operator==] is false. *)
Theorem amt_order a b :
  wf a → wf b →
  if areComparable a b then
    ltb a b = Ok (value 100 a <? value 100 b) ∧
    eqb a b = (value 100 a =? value 100 b)
  else
    ltb a b = Throw (runtime_error "Can't compare amounts that are't comparable!") ∧
    eqb a b = false.
Proof.
  intros Ha Hb. destruct (areComparable a b) eqn:Hc.
  - split; [by apply ltb_value|by apply eqb_value].
  - unfold ltb, eqb. by rewrite Hc.
Qed.

Lemma amt_order_witness :
  ltb (mkAmt usd 1234500000000000 5 false true) (mkAmt usd 1000000000000000 (-90) false false) = Ok true.
Proof.
  refine (proj1 (amt_order (mkAmt usd 1234500000000000 5 false true)
    (mkAmt usd 1000000000000000 (-90) false false) _ _));
    by_computation.
Defined.

(** C20: [operator+] refines addition of [IOUAmount]s: on comparable issued
    amounts that satisfy the invariant, [a + b] converts to the sum of the
    converted operands, or both throw; the result keeps the invariant and the
    issue of the first operand.  On native amounts it is exact. *)
Theorem amt_add a b :
  wf a → wf b → areComparable a b = true →
  if mIsNative a then
    ∃ r, add a b = Ok r ∧ sv r = sv a + sv b ∧ mIsNative r = true ∧ mOffset r = 0
  else
    same_outcome
      (let* r := add a b in iou r)
      (let* x := iou a in let* y := iou b in IOU.add x y) ∧
    ∀ r, add a b = Ok r → wf r ∧ mIssue r = mIssue a.
Proof.
  intros Ha Hb Hc. pose proof (areComparable_native a b Hc) as Hn.
  destruct (mIsNative b) eqn:Hnb; rewrite Hn.
  { destruct (add_native a b) as (r & ? & ? & ? & ? & _); eauto. }
  pose proof (to_iou_wf a Ha Hn) as Hwa. pose proof (to_iou_wf b Hb Hnb) as Hwb.
  destruct (wf_issued a Ha Hn) as [Hi _].
  rewrite (iou_to_iou a), (iou_to_iou b) by done. cbn [rbind].
  pose proof (add_issued a b Ha Hb Hn Hnb Hc) as Hs.
  destruct (add a b) as [r|], (IOU.add (to_iou a) (to_iou b)) as [x|] eqn:Ex;
    simpl in Hs; try done.
  subst r. pose proof (IOU.add_wf _ _ _ Hwa Hwb Ex) as Hwx. cbn [rbind]. split.
  - rewrite iou_to_iou by (done || by apply lift_wf). by rewrite to_iou_lift.
  - intros r [= <-]. split; [by apply lift_wf|done].
Qed.

Lemma amt_add_witness :
  add (mkAmt usd 9999999999999999 0 false false) (mkAmt usd 1000000000000001 (-3) false false)
    = Ok (mkAmt usd 1000099999999999 1 false false) ∧
  wf (mkAmt usd 1000099999999999 1 false false).
Proof.
  assert (add (mkAmt usd 9999999999999999 0 false false)
    (mkAmt usd 1000000000000001 (-3) false false)
    = Ok (mkAmt usd 1000099999999999 1 false false)) as E by reflexivity.
  split; [exact E|].
  refine (proj1 (proj2 (amt_add (mkAmt usd 9999999999999999 0 false false)
    (mkAmt usd 1000000000000001 (-3) false false) _ _ eq_refl) _ E));
    by_computation.
Defined.

(** Amounts of the two native currencies compare and add as if they were
    the same: [areComparable] looks only at [native ()] when the second operand
    is native, so 5 drops of VRP equal 5 drops of VBC and their sum is VRP. *)
Theorem amt_native_currencies_mix :
  eqb (make_native false 5 false) (make_native true 5 false) = true ∧
  add (make_native false 5 false) (make_native true 7 false) = Ok (make_native false 12 false) ∧
  mIssue (make_native false 5 false) ≠ mIssue (make_native true 5 false).
Proof. split_and!; [reflexivity..|]. by vm_compute. Qed.

End AmtFacts.
