(* ===== verification/STAmountArith.v ===== *)
(** * Products, quotients and rates of amounts

    The second half of protocol/impl/STAmount.cpp: [divide], [multiply], the
    rounding variants, [mulDiv], [getRate] and its inverse.  The big number
    library is the [BigNum] interface. *)

From S2P Require Import Prelude Issue Decimal IOUAmount STAmount BigNum.
Import Amt.

Module Arith.

(** The loops [while (v < cMinValue) { v *= 10; --o; }] that bring a native
    amount into the range of mantissas.  A non-zero value leaves within
    fifteen iterations; the callers have returned on zero. *)
Definition into_range (native : bool) (v o : Z) : Z * Z :=
  if native then
    while_do (λ s, s.1 <? cMinValue) (λ s, (u64 (s.1 * 10), s.2 - 1)) 16 (v, o)
  else (v, o).

(** The branch of [multiply] and [mulRound] for two native factors. *)
Definition native_product (v1 v2 : STAmount) : result STAmount :=
  let* s1 := getSNValue v1 in
  let* s2 := getSNValue v2 in
  let minV := u64 (if s1 <? s2 then s1 else s2) in
  let maxV := u64 (if s1 <? s2 then s2 else s1) in
  if 3000000000 <? minV then Throw (runtime_error "Native value overflow")
  else if 2095475792 <? u64 (Z.shiftr maxV 32 * minV) then
    Throw (runtime_error "Native value overflow")
  else Ok (make_native (amt_isVBC v1) (u64 (minV * maxV)) false).

Section ops.
Context `{BN : BigNum}.

Definition divide (num den : STAmount) (issue : Issue) : result STAmount :=
  if is_zero den then Throw (runtime_error "division by zero")
  else if is_zero num then Ok (zero_of issue)
  else
    let '(numVal, numOffset) := into_range (mIsNative num) (mValue num) (mOffset num) in
    let '(denVal, denOffset) := into_range (mIsNative den) (mValue den) (mOffset den) in
    let* v := or_throw bn_error (BN_add_word64 BN_zero numVal) in
    let* v := or_throw bn_error (BN_mul_word64 v tenTo17) in
    let* v := or_throw bn_error (BN_div_word64 v denVal) in
    make issue (u64 (getuint64 v + 5)) (numOffset - denOffset - 17)
      (negb (Bool.eqb (mIsNegative num) (mIsNegative den))).

Definition multiply (v1 v2 : STAmount) (issue : Issue) : result STAmount :=
  if is_zero v1 || is_zero v2 then Ok (zero_of issue)
  else if mIsNative v1 && mIsNative v2 && isNative (currency issue) then
    native_product v1 v2
  else
    let '(value1, offset1) := into_range (mIsNative v1) (mValue v1) (mOffset v1) in
    let '(value2, offset2) := into_range (mIsNative v2) (mValue v2) (mOffset v2) in
    let* v := or_throw bn_error (BN_add_word64 BN_zero value1) in
    let* v := or_throw bn_error (BN_mul_word64 v value2) in
    let* v := or_throw bn_error (BN_div_word64 v tenTo14) in
    make issue (u64 (getuint64 v + 7)) (offset1 + offset2 + 14)
      (negb (Bool.eqb (mIsNegative v1) (mIsNegative v2))).

(** ** Rounding *)

(** The native loop carries the number of its iterations. *)
Definition canonicalizeRound (native : bool) (value offset : Z) (roundUp : bool) : Z * Z :=
  if negb roundUp then (value, offset)
  else if native then
    if offset <? 0 then
      let '(v, o, loops) :=
        while_do (λ s, s.1.2 <? -1) (λ s, (s.1.1 / 10, s.1.2 + 1, s.2 + 1))
          (Z.to_nat (- offset)) (value, offset, 0) in
      (u64 (v + (if 2 <=? loops then 9 else 10)) / 10, o + 1)
    else (value, offset)
  else if cMaxValue <? value then
    let '(v, o) :=
      while_do (λ s, 10 * cMaxValue <? s.1) (λ s, (s.1 / 10, s.2 + 1))
        64 (value, offset) in
    (u64 (v + 9) / 10, o + 1)
  else (value, offset).

(** [STAmountCalcSwitchovers] *)
Definition enableUnderflowFixCloseTime : Z := 504640800.
Definition enableUnderflowFix (parentCloseTime : Z) : bool :=
  enableUnderflowFixCloseTime <? parentCloseTime.

(** The common end of [mulRound] and [divRound]: a positive result that rounds
    up does not vanish once the fix is enabled. *)
Definition round_result (issue : Issue) (amount offset : Z)
    (resultNegative roundUp underflowFix : bool) : result STAmount :=
  let '(amount, offset) :=
    canonicalizeRound (isNative (currency issue)) amount offset
      (negb (Bool.eqb resultNegative roundUp)) in
  let* r := make issue amount offset resultNegative in
  if underflowFix && roundUp && negb resultNegative && is_zero r then
    make issue cMinValue cMinOffset resultNegative
  else Ok r.

(** The return code of the addition that rounds up is ignored. *)
Definition mulRound (v1 v2 : STAmount) (issue : Issue) (roundUp underflowFix : bool)
    : result STAmount :=
  if is_zero v1 || is_zero v2 then Ok (zero_of issue)
  else if mIsNative v1 && mIsNative v2 && isNative (currency issue) then
    native_product v1 v2
  else
    let '(value1, offset1) := into_range (mIsNative v1) (mValue v1) (mOffset v1) in
    let '(value2, offset2) := into_range (mIsNative v2) (mValue v2) (mOffset v2) in
    let resultNegative := negb (Bool.eqb (mIsNegative v1) (mIsNegative v2)) in
    let* v := or_throw bn_error (BN_add_word64 BN_zero value1) in
    let* v := or_throw bn_error (BN_mul_word64 v value2) in
    let v := if negb (Bool.eqb resultNegative roundUp)
             then default v (BN_add_word64 v tenTo14m1) else v in
    let* v := or_throw bn_error (BN_div_word64 v tenTo14) in
    round_result issue (getuint64 v) (offset1 + offset2 + 14)
      resultNegative roundUp underflowFix.

Definition divRound (num den : STAmount) (issue : Issue) (roundUp underflowFix : bool)
    : result STAmount :=
  if is_zero den then Throw (runtime_error "division by zero")
  else if is_zero num then Ok (zero_of issue)
  else
    let '(numVal, numOffset) := into_range (mIsNative num) (mValue num) (mOffset num) in
    let '(denVal, denOffset) := into_range (mIsNative den) (mValue den) (mOffset den) in
    let resultNegative := negb (Bool.eqb (mIsNegative num) (mIsNegative den)) in
    let* v := or_throw bn_error (BN_add_word64 BN_zero numVal) in
    let* v := or_throw bn_error (BN_mul_word64 v tenTo17) in
    let v := if negb (Bool.eqb resultNegative roundUp)
             then default v (BN_add_word64 v (denVal - 1)) else v in
    let* v := or_throw bn_error (BN_div_word64 v denVal) in
    round_result issue (getuint64 v) (numOffset - denOffset - 17)
      resultNegative roundUp underflowFix.

(** ** Rates *)

Definition getRate (offerOut offerIn : STAmount) : Z :=
  if is_zero offerOut then 0
  else match divide offerIn offerOut noIssue with
       | Ok r =>
           if is_zero r then 0
           else Z.lor (u64 (Z.shiftl (u64 (mOffset r + 100)) 56)) (mValue r)
       | Throw _ => 0
       end.

End ops.

Definition amountFromRate (uRate : Z) : result STAmount := make noIssue uRate (-9) false.

Definition amountFromQuality (rate : Z) : result STAmount :=
  if rate =? 0 then Ok (zero_of noIssue)
  else
    let mantissa := Z.land rate (u64 (Z.lnot (Z.shiftl 255 56))) in
    let exponent := i32 (Z.shiftr rate 56) - 100 in
    make noIssue mantissa exponent false.

(** ** Integer ratios *)

(** Euclid's loop of [lowestTerms]; each two iterations halve [x]. *)
Definition euclid (x y : Z) : Z * Z :=
  while_do (λ s, negb (s.2 =? 0)) (λ s, (s.2, s.1 mod s.2)) 130 (x, y).

Definition div_u64 (a b : Z) : result Z :=
  if b =? 0 then Throw (Undefined "integer division by zero") else Ok (a / b).

Definition lowestTerms (a b : Z) : result (Z * Z) :=
  let x := (euclid a b).1 in
  let* a' := div_u64 a x in
  let* b' := div_u64 b x in
  Ok (a', b').

Definition mulDiv (value mul div : Z) : result Z :=
  let* (value, div) := lowestTerms value div in
  let* (mul, div) := lowestTerms mul div in
  let '(value, mul) := if value <? mul then (mul, value) else (value, mul) in
  let* limit := div_u64 u64_max mul in
  if limit <? value then
    let* value := div_u64 value div in
    if limit <? value then Throw (overflow_error "mulDiv")
    else Ok (u64 (value * mul))
  else div_u64 (u64 (value * mul)) div.

Definition mulDivNoThrow (value mul div : Z) : result Z :=
  match mulDiv value mul div with
  | Throw (overflow_error _) => Ok u64_max
  | r => r
  end.

(** ** Predicates *)

(** [__builtin_ctzll], undefined at zero. *)
Definition ctzll (m : Z) : result Z :=
  if m =? 0 then Throw (Undefined "__builtin_ctzll (0)")
  else Ok (Z.log2 (Z.land m (- m))).

Definition isMathematicalInteger (a : STAmount) : result bool :=
  let* n := ctzll (mValue a) in Ok (- mOffset a <=? n).

Definition isLegalNet (a : STAmount) : bool :=
  negb (mIsNative a) || (mValue a <=? cMaxNativeN).

End Arith.
