(* ===== verification/STAmountArithFacts.v ===== *)
(** * Facts about products, quotients and integer ratios

    Error bounds of [multiply], [divide], [mulRound] and [divRound], and what
    [mulDiv] computes. *)

From S2P Require Import Prelude Issue Decimal IOUAmount STAmount BigNum STAmountFacts STAmountArith.
Import Amt AmtFacts Arith.

Module ArithFacts.

(** ** The loops *)

(** [while (v < cMinValue) { v *= 10; --o; }] *)
Lemma up_loop_spec n v o :
  1 ≤ v < 2 ^ 64 → cMinValue ≤ v * 10 ^ Z.of_nat n →
  ∃ j, 0 ≤ j ≤ Z.of_nat n ∧
    while_do (λ s, s.1 <? cMinValue) (λ s, (u64 (s.1 * 10), s.2 - 1)) n (v, o)
      = (v * 10 ^ j, o - j) ∧
    cMinValue ≤ v * 10 ^ j ≤ Z.max v (10 * cMinValue).
Proof.
  revert v o. induction n as [|n IH]; intros v o Hv Hn; cbn [while_do fst snd].
  - exists 0. rewrite Z.pow_0_r, Z.mul_1_r in *. rewrite Z.sub_0_r.
    change (10 ^ Z.of_nat 0) with 1 in Hn. split_and!; done || lia.
  - destruct (Z.ltb_spec v cMinValue) as [Hlt|Hge].
    + unfold cMinValue, minMantissa in *. rewrite u64_id by lia.
      destruct (IH (v * 10) (o - 1)) as (j & Hj & -> & Hr).
      { lia. }
      { rewrite Nat2Z.inj_succ, <- Z.add_1_r, pow10_succ in Hn by lia. lia. }
      exists (j + 1). rewrite pow10_succ by lia. split_and!; [lia|lia|f_equal; lia|lia|].
      replace (v * (10 * 10 ^ j)) with (v * 10 * 10 ^ j) by lia. lia.
    + exists 0. rewrite Z.pow_0_r, Z.mul_1_r, Z.sub_0_r. split_and!; done || lia.
Qed.

(** [while (v > T) { v /= 10; ++o; }] *)
Lemma down_loop_spec T n v o :
  0 < T → 0 ≤ v ≤ T * 10 ^ Z.of_nat n →
  ∃ j, 0 ≤ j ∧
    while_do (λ s, T <? s.1) (λ s, (s.1 / 10, s.2 + 1)) n (v, o) = (v / 10 ^ j, o + j) ∧
    v / 10 ^ j ≤ T ∧ (j = 0 ∨ 1 ≤ j ∧ T < v / 10 ^ (j - 1)).
Proof.
  intros HT. revert v o. induction n as [|n IH]; intros v o Hv; cbn [while_do fst snd].
  - exists 0. change (10 ^ Z.of_nat 0) with 1 in Hv.
    rewrite Z.pow_0_r, Z.div_1_r, Z.add_0_r. split_and!; auto; lia.
  - destruct (Z.ltb_spec T v) as [Hlt|Hge].
    + destruct (IH (v / 10) (o + 1)) as (j & Hj & -> & Hr & Hd).
      { rewrite Nat2Z.inj_succ, <- Z.add_1_r, pow10_succ in Hv by lia.
        split; [apply Z.div_pos; lia|]. apply Z.div_le_upper_bound; lia. }
      assert (∀ i, 0 ≤ i → v / 10 / 10 ^ i = v / 10 ^ (i + 1)) as Hs.
      { intros. pose proof (pow10_pos i). rewrite Z.div_div by lia.
        f_equal. rewrite pow10_succ; lia. }
      exists (j + 1). rewrite Hs in * by lia. split_and!; [lia|f_equal; lia|done|].
      right. split; [lia|]. rewrite Z.add_simpl_r.
      destruct Hd as [->|[? Hd]]; [by rewrite Z.pow_0_r, Z.div_1_r|].
      rewrite Hs, Z.sub_add in Hd by lia. done.
    + exists 0. rewrite Z.pow_0_r, Z.div_1_r, Z.add_0_r. split_and!; auto; lia.
Qed.

(** A non-zero amount scaled into the range of mantissas denotes the same
    number. *)
Lemma into_range_spec k a :
  wf a → mValue a ≠ 0 → 115 ≤ k →
  let '(v, o) := into_range (mIsNative a) (mValue a) (mOffset a) in
  cMinValue ≤ v ≤ cMaxNativeN ∧ -96 ≤ o ≤ 80 ∧
  sval k v o = sval k (mValue a) (mOffset a) ∧
  (mIsNative a = false → v ≤ cMaxValue) ∧ v ≤ Z.max (mValue a) (10 * cMinValue).
Proof.
  intros Hw Hv Hk. unfold into_range. pose proof (wf_value_range a Hw) as [Hr Ho].
  destruct (mIsNative a) eqn:Hn.
  - destruct (wf_native a Hw Hn) as (_ & Ho0 & _ & _). rewrite Ho0.
    unfold cMaxNativeN in Hr. destruct (up_loop_spec 16 (mValue a) 0) as (j & Hj & -> & Hr').
    { lia. }
    { change (10 ^ Z.of_nat 16) with 10000000000000000.
      unfold cMinValue, minMantissa. lia. }
    unfold cMinValue, cMaxValue, cMaxNativeN in *. dec_consts.
    change (Z.of_nat 16) with 16 in *.
    split_and!; [lia|lia|lia|lia| |done|lia]. apply sval_shift; lia.
  - destruct (wf_issued a Hw Hn) as [_ [(? & _)|[??]]]; [done|].
    unfold cMinValue, cMaxValue, cMaxNativeN. dec_consts. split_and!; done || lia.
Qed.

(** ** Results *)

(** The magnitude of an amount, scaled by [10 ^ k]. *)
Definition mag (k : Z) (a : STAmount) : Z := sval k (mValue a) (mOffset a).

Lemma mag_value k a : 0 ≤ mValue a → 0 ≤ mOffset a + k → mag k a = Z.abs (value k a).
Proof.
  intros. unfold mag, value, sval, sv. pose proof (pow10_pos (mOffset a + k)).
  rewrite Z.abs_mul, (Z.abs_eq (10 ^ _)) by lia. f_equal. case_match; lia.
Qed.

Lemma sval_mul k k' m m' e e' :
  0 ≤ e + k → 0 ≤ e' + k' → sval k m e * sval k' m' e' = sval (k + k') (m * m') (e + e').
Proof.
  intros. unfold sval. replace (e + e' + (k + k')) with ((e + k) + (e' + k')) by lia.
  rewrite (pow10_split (e + k) (e' + k')) by lia. lia.
Qed.

Lemma sval_add k m m' e : sval k (m + m') e = sval k m e + sval k m' e.
Proof. unfold sval. lia. Qed.

Lemma sval_pos k m e : 0 < m → 0 ≤ e + k → 0 < sval k m e.
Proof. intros. unfold sval. pose proof (pow10_pos (e + k)). nia. Qed.

(** The constructor of an issued amount, by the size of the number. *)
Lemma make_issued k i m e neg :
  isNative (currency i) = false → 0 < m → 96 ≤ k → 0 ≤ e + k →
  match make i m e neg with
  | Ok r =>
      wf r ∧ mIssue r = i ∧
      (r = zero_of i ∧ sval k m e < sval k minMantissa minExponent ∨
       canonical (mValue r) (mOffset r) ∧ mIsNegative r = neg ∧
       sval k (mValue r) (mOffset r) ≤ sval k m e < sval k (mValue r + 1) (mOffset r))
  | Throw _ => sval k (maxMantissa + 1) maxExponent ≤ sval k m e
  end.
Proof.
  intros Hi Hm Hk He. unfold make. rewrite canonicalize_norm by done. simpl.
  set (ov := runtime_error "value overflow").
  pose proof (norm_spec u64 ov ov u64_small k m e Hm Hk He) as H.
  destruct (norm u64 ov ov m e) as [[[m' e']|]|x]; simpl; [| |done].
  - split; [split; [done|by right; apply H]|]. split; [done|]. right. by destruct H.
  - split; [split; [done|by left]|]. split; [done|]. left.
    unfold zero_of. by rewrite Hi.
Qed.

(** A result whose argument has more than sixteen digits has a larger
    exponent than the argument. *)
Lemma make_issued_exp k m e m' e' :
  canonical m' e' → 96 ≤ k → 0 ≤ e + k → 10 * minMantissa ≤ m →
  sval k m e < sval k (m' + 1) e' → e + 1 ≤ e'.
Proof.
  intros [Hm' He'] Hk He Hm Hlt. destruct (Z.le_gt_cases (e + 1) e') as [|Hgt]; [done|].
  exfalso. assert (sval k (m' + 1) e' ≤ sval k (10 * minMantissa) e).
  { apply sval_le_mono; dec_consts; lia. }
  assert (sval k (10 * minMantissa) e ≤ sval k m e) by (apply sval_le_l; lia). lia.
Qed.

Lemma sval_unit_lt k e e' c :
  0 ≤ e + k → e + 1 ≤ e' → c < 10 → sval k c e < sval k 1 e'.
Proof.
  intros. apply Z.lt_le_trans with (sval k 10 e); [apply sval_lt_l; lia|].
  replace (sval k 10 e) with (sval k (1 * 10 ^ 1) (e + 1 - 1)) by (f_equal; lia).
  rewrite sval_shift by lia. apply sval_le_mono; lia.
Qed.

(** Rounding by adding [c] units to a quotient [q] with at least seventeen
    digits and truncating: the result is within a unit of the last place of any
    number between [q] and [q + 1]. *)
Lemma make_issued_near k i q c e neg x :
  isNative (currency i) = false → 96 ≤ k → 0 ≤ e + k →
  10 * minMantissa ≤ q → 1 ≤ c < 10 →
  sval k q e ≤ x < sval k (q + 1) e →
  match make i (q + c) e neg with
  | Ok r =>
      wf r ∧ mIssue r = i ∧
      (r = zero_of i ∧ x < sval k minMantissa minExponent ∨
       mValue r ≠ 0 ∧ mIsNegative r = neg ∧ Z.abs (mag k r - x) < sval k 1 (mOffset r))
  | Throw _ => sval k maxMantissa maxExponent ≤ x
  end.
Proof.
  intros Hi Hk He Hq Hc Hx.
  pose proof (make_issued k i (q + c) e neg Hi ltac:(dec_consts; lia) Hk He) as H.
  assert (x < sval k (q + c) e) as Hxc.
  { apply Z.lt_le_trans with (sval k (q + 1) e); [lia|]. apply sval_le_l; lia. }
  pose proof (sval_add k q c e). pose proof (sval_add k q 1 e).
  destruct (make i (q + c) e neg) as [r|ex].
  - destruct H as (Hw & Hir & [(-> & Hlt)|(Hcan & Hn & Ht)]);
      (split; [done|split; [done|]]); [left; split; [done|lia]|right].
    assert (e + 1 ≤ mOffset r) as Hexp.
    { eapply (make_issued_exp k (q + c) e); [done..|lia|apply Ht]. }
    pose proof (sval_unit_lt k e (mOffset r) c He Hexp ltac:(lia)).
    pose proof (sval_add k (mValue r) 1 (mOffset r)). unfold mag.
    pose proof (sval_unit_lt k e (mOffset r) 1 He Hexp ltac:(lia)).
    split_and!; [destruct Hcan; dec_consts; lia|done|lia].
  - destruct (Z.le_gt_cases maxExponent e) as [He'|He'].
    + transitivity (sval k q e); [|lia]. apply sval_le_mono; dec_consts; lia.
    + pose proof (sval_unit_lt k e maxExponent c He ltac:(lia) ltac:(lia)).
      pose proof (sval_add k maxMantissa 1 maxExponent). lia.
Qed.

(** ** Products and quotients *)

Lemma nonzero_is_zero a : mValue a ≠ 0 → is_zero a = false.
Proof. rewrite is_zero_value. lia. Qed.

Lemma native_false_and (a b c : bool) : a = false ∨ b = false → a && b && c = false.
Proof. destruct a, b; intuition congruence. Qed.

Definition opposite (a b : STAmount) : bool := negb (Bool.eqb (mIsNegative a) (mIsNegative b)).

Section big.
Context {B : BigNum} {L : BigNumLaws B}.

Lemma multiply_make a b i :
  wf a → wf b → mValue a ≠ 0 → mValue b ≠ 0 → mIsNative a = false ∨ mIsNative b = false →
  let '(v1, o1) := into_range (mIsNative a) (mValue a) (mOffset a) in
  let '(v2, o2) := into_range (mIsNative b) (mValue b) (mOffset b) in
  multiply a b i = make i (v1 * v2 / tenTo14 + 7) (o1 + o2 + 14) (opposite a b).
Proof using L.
  intros Ha Hb Hva Hvb Hn. unfold multiply.
  rewrite !nonzero_is_zero, native_false_and by done. cbn [orb].
  pose proof (into_range_spec 115 a Ha Hva ltac:(lia)) as Hia.
  pose proof (into_range_spec 115 b Hb Hvb ltac:(lia)) as Hib.
  destruct (into_range (mIsNative a) _ _) as [v1 o1], (into_range (mIsNative b) _ _) as [v2 o2].
  destruct Hia as (Hr1 & _ & _ & Hm1 & _), Hib as (Hr2 & _ & _ & Hm2 & _).
  unfold cMinValue, cMaxNativeN, cMaxValue in *. dec_consts.
  destruct (bn_scaled_quotient v1 v2 0 tenTo14) as (b1 & b2 & b3 & b4 & b5 & -> & E2 & _ & _ & _ & E5 & H5);
    try (unfold is_word, tenTo14; lia).
  cbn [or_throw rbind]. rewrite E2. cbn [or_throw rbind]. rewrite E5. cbn [or_throw rbind].
  assert (0 ≤ v1 * v2 / tenTo14 ≤ 9999999999999999000).
  { unfold tenTo14. split; [apply Z.div_pos; nia|]. apply Z.div_le_upper_bound; [lia|].
    destruct Hn as [Hn|Hn]; rewrite Hn in *; nia. }
  unfold getuint64. rewrite (BN_get_word_ok _ _ H5) by (unfold is_word; lia).
  by autorewrite with wraps.
Qed.

Lemma divide_make a b i :
  wf a → wf b → mValue a ≠ 0 → mValue b ≠ 0 →
  let '(v1, o1) := into_range (mIsNative a) (mValue a) (mOffset a) in
  let '(v2, o2) := into_range (mIsNative b) (mValue b) (mOffset b) in
  divide a b i = make i (v1 * tenTo17 / v2 + 5) (o1 - o2 - 17) (opposite a b).
Proof using L.
  intros Ha Hb Hva Hvb. unfold divide. rewrite !nonzero_is_zero by done.
  pose proof (into_range_spec 115 a Ha Hva ltac:(lia)) as Hia.
  pose proof (into_range_spec 115 b Hb Hvb ltac:(lia)) as Hib.
  destruct (into_range (mIsNative a) _ _) as [v1 o1], (into_range (mIsNative b) _ _) as [v2 o2].
  destruct Hia as (Hr1 & _), Hib as (Hr2 & _).
  unfold cMinValue, cMaxNativeN in *. dec_consts.
  destruct (bn_scaled_quotient v1 tenTo17 0 v2) as (b1 & b2 & b3 & b4 & b5 & -> & E2 & _ & _ & _ & E5 & H5);
    try (unfold is_word, tenTo17, tenTo14; lia).
  cbn [or_throw rbind]. rewrite E2. cbn [or_throw rbind]. rewrite E5. cbn [or_throw rbind].
  assert (0 ≤ v1 * tenTo17 / v2 ≤ 10000000000000000000).
  { unfold tenTo17, tenTo14. split; [apply Z.div_pos; lia|]. apply Z.div_le_upper_bound; lia. }
  unfold getuint64. rewrite (BN_get_word_ok _ _ H5) by (unfold is_word; lia).
  by autorewrite with wraps.
Qed.

End big.

Lemma tenTo14_pow : tenTo14 = 10 ^ 14.
Proof. done. Qed.

(** The exact product of two magnitudes, and its bracket by the quotient the
    code computes. *)
Lemma product_bracket a b :
  wf a → wf b → mValue a ≠ 0 → mValue b ≠ 0 →
  let '(v1, o1) := into_range (mIsNative a) (mValue a) (mOffset a) in
  let '(v2, o2) := into_range (mIsNative b) (mValue b) (mOffset b) in
  10 * minMantissa ≤ v1 * v2 / tenTo14 ∧ 0 ≤ o1 + o2 + 300 ∧
  mag 150 a * mag 150 b = sval 300 (v1 * v2) (o1 + o2) ∧
  sval 300 (v1 * v2 / tenTo14) (o1 + o2 + 14) ≤ mag 150 a * mag 150 b
    < sval 300 (v1 * v2 / tenTo14 + 1) (o1 + o2 + 14).
Proof.
  intros Ha Hb Hva Hvb.
  pose proof (into_range_spec 150 a Ha Hva ltac:(lia)) as Hia.
  pose proof (into_range_spec 150 b Hb Hvb ltac:(lia)) as Hib.
  destruct (into_range (mIsNative a) _ _) as [v1 o1], (into_range (mIsNative b) _ _) as [v2 o2].
  destruct Hia as (Hr1 & Ho1 & Hs1 & _), Hib as (Hr2 & Ho2 & Hs2 & _).
  assert (mag 150 a * mag 150 b = sval 300 (v1 * v2) (o1 + o2)) as ->.
  { unfold mag. rewrite <- Hs1, <- Hs2. apply (sval_mul 150 150); lia. }
  split_and!; [|lia|done|..].
  - unfold tenTo14, cMinValue in *. dec_consts. apply Z.div_le_lower_bound; nia.
  - rewrite tenTo14_pow. replace 14 with (o1 + o2 + 14 - (o1 + o2)) at 1 by lia.
    apply sval_div; lia.
  - rewrite tenTo14_pow. replace 14 with (o1 + o2 + 14 - (o1 + o2)) at 1 by lia.
    apply sval_div; lia.
Qed.

(** The exact quotient of two magnitudes, rounded down, and its bracket. *)
Lemma quotient_bracket a b :
  wf a → wf b → mValue a ≠ 0 → mValue b ≠ 0 →
  let '(v1, o1) := into_range (mIsNative a) (mValue a) (mOffset a) in
  let '(v2, o2) := into_range (mIsNative b) (mValue b) (mOffset b) in
  0 < v2 ∧ 0 ≤ o1 - o2 - 17 + 300 ∧
  mag 450 a / mag 150 b = v1 * tenTo17 * 10 ^ (o1 - o2 - 17 + 300) / v2 ∧
  sval 300 (v1 * tenTo17 / v2) (o1 - o2 - 17) ≤ mag 450 a / mag 150 b
    < sval 300 (v1 * tenTo17 / v2 + 1) (o1 - o2 - 17).
Proof.
  intros Ha Hb Hva Hvb.
  pose proof (into_range_spec 450 a Ha Hva ltac:(lia)) as Hia.
  pose proof (into_range_spec 150 b Hb Hvb ltac:(lia)) as Hib.
  destruct (into_range (mIsNative a) _ _) as [v1 o1], (into_range (mIsNative b) _ _) as [v2 o2].
  destruct Hia as (Hr1 & Ho1 & Hs1 & _), Hib as (Hr2 & Ho2 & Hs2 & _).
  unfold cMinValue in *. dec_consts. set (e := o1 - o2 - 17).
  pose proof (pow10_pos (e + 300) ltac:(lia)) as Hp.
  assert (mag 450 a / mag 150 b = v1 * tenTo17 * 10 ^ (e + 300) / v2) as ->.
  { unfold mag. rewrite <- Hs1, <- Hs2. unfold sval.
    replace (v1 * 10 ^ (o1 + 450)) with (v1 * tenTo17 * 10 ^ (e + 300) * 10 ^ (o2 + 150)).
    - pose proof (pow10_pos (o2 + 150)). apply Z.div_mul_cancel_r; lia.
    - change tenTo17 with (10 ^ 17). rewrite <- !Z.mul_assoc, <- !pow10_split by lia.
      do 2 f_equal. lia. }
  pose proof (Z.div_mod (v1 * tenTo17) v2 ltac:(lia)) as Hd.
  pose proof (Z.mod_pos_bound (v1 * tenTo17) v2 ltac:(lia)) as Hm.
  set (q := v1 * tenTo17 / v2) in *. unfold sval.
  split_and!; [lia|lia|done|..].
  - apply Z.div_le_lower_bound; [lia|]. nia.
  - apply Z.div_lt_upper_bound; [lia|]. nia.
Qed.

(** ** Rounding *)

(** Rounding away from zero keeps sixteen digits.  All but the last division
    truncate, so up to a tenth of a unit of the result is lost. *)
Lemma canonicalizeRound_issued u e :
  10 * minMantissa ≤ u < 2 ^ 64 - 9 →
  ∃ j w, 0 ≤ j ∧ canonicalizeRound false u e true = (w, e + j + 1) ∧
    minMantissa ≤ w ≤ maxMantissa ∧
    u - 10 ^ j < w * 10 ^ (j + 1) ≤ u + 9 * 10 ^ j.
Proof.
  intros Hu. unfold canonicalizeRound, cMaxValue. cbn [negb].
  destruct (Z.ltb_spec maxMantissa u); [|dec_consts; lia].
  destruct (down_loop_spec (10 * maxMantissa) 64 u e) as (j & Hj & -> & Hle & Hgt).
  { dec_consts. lia. }
  { split; [dec_consts; lia|]. transitivity (2 ^ 64); [lia|]. by vm_compute. }
  exists j. set (v := u / 10 ^ j) in *.
  assert (10 * minMantissa - 1 ≤ v) as Hlow.
  { destruct Hgt as [->|[Hj1 Hgt]].
    - unfold v. rewrite Z.pow_0_r, Z.div_1_r. lia.
    - replace v with (u / 10 ^ (j - 1) / 10).
      + dec_consts. apply Z.div_le_lower_bound; lia.
      + unfold v. rewrite div_pow10_step by lia. do 2 f_equal. lia. }
  exists ((v + 9) / 10). pose proof (pow10_pos j Hj) as Hp.
  pose proof (Z.div_mod u (10 ^ j) ltac:(lia)) as Hd.
  pose proof (Z.mod_pos_bound u (10 ^ j) ltac:(lia)) as Hm. fold v in Hd.
  pose proof (Z.div_mod (v + 9) 10 ltac:(lia)). pose proof (Z.mod_pos_bound (v + 9) 10 ltac:(lia)).
  rewrite u64_id by (dec_consts; lia). rewrite pow10_succ by lia.
  split_and!; [done|done|dec_consts; lia|dec_consts; lia|nia|nia].
Qed.

(** [r] is [x] rounded with a last place of [ulp]: truncated, or rounded up to
    a tenth of a unit. *)
Definition rounded (away : bool) (x r ulp : Z) : Prop :=
  if away then 10 * (x - r) < ulp ∧ r - x ≤ ulp else r ≤ x < r + ulp.

(** The least positive amount of an issue. *)
Definition least (i : Issue) : STAmount := mkAmt i cMinValue cMinOffset false false.

Definition round_spec (k : Z) (i : Issue) (neg up fix_ : bool) (x : Z)
    (res : result STAmount) : Prop :=
  match res with
  | Ok r =>
      wf r ∧ mIssue r = i ∧
      (mValue r = 0 ∧ x < sval k minMantissa minExponent ∧
         negb (fix_ && up && negb neg) = true ∨
       r = least i ∧ x < sval k minMantissa minExponent ∧ fix_ && up && negb neg = true ∨
       mValue r ≠ 0 ∧ mIsNegative r = neg ∧
         rounded (negb (Bool.eqb neg up)) x (mag k r) (sval k 1 (mOffset r)))
  | Throw _ => sval k (minMantissa - 1) (maxExponent + 1) ≤ x
  end.

Lemma least_wf i : isNative (currency i) = false → wf (least i).
Proof. intros Hi. split; [done|]. right. by vm_compute. Qed.

(** The next multiple of a smaller unit does not pass a multiple of a larger
    one. *)
Lemma sval_succ_le k q e m e' :
  0 ≤ e + k → e ≤ e' → sval k q e < sval k m e' → sval k (q + 1) e ≤ sval k m e'.
Proof.
  intros He Hle. replace e with (e' - (e' - e)) by lia.
  rewrite <- (sval_shift k m e' (e' - e)) by lia.
  rewrite <- sval_lt_l, <- sval_le_l by lia. lia.
Qed.

Lemma round_result_toward k i q e neg up fix_ x :
  isNative (currency i) = false → Bool.eqb neg up = true → 96 ≤ k → 0 ≤ e + k →
  10 * minMantissa ≤ q → sval k q e ≤ x < sval k (q + 1) e →
  round_spec k i neg up fix_ x (round_result i q e neg up fix_).
Proof.
  intros Hi Hb Hk He Hq Hx. apply Bool.eqb_prop in Hb as <-.
  unfold round_result, canonicalizeRound. rewrite Bool.eqb_reflx. cbn [negb].
  assert (fix_ && neg && negb neg = false) as Hf by (by destruct fix_, neg).
  pose proof (make_issued k i q e neg Hi ltac:(dec_consts; lia) Hk He) as H.
  destruct (make i q e neg) as [r|ex]; cbn [rbind]; rewrite ?Hf; cbn [andb]; unfold round_spec.
  - rewrite Hf, Bool.eqb_reflx. destruct H as (Hw & Hir & H).
    split; [done|]. split; [done|]. destruct H as [(-> & Hlt)|(Hcan & Hn & Ht)].
    + left. split_and!; [done| |done]. apply Z.lt_le_trans with (sval k (q + 1) e); [lia|].
      apply sval_succ_le; [done| |done]. destruct (Z.le_gt_cases e minExponent); [done|].
      exfalso. assert (sval k minMantissa minExponent ≤ sval k q e); [|lia].
      apply sval_le_mono; dec_consts; lia.
    + right; right. split; [destruct Hcan; dec_consts; lia|]. split; [done|].
      assert (e + 1 ≤ mOffset r) by (eapply (make_issued_exp k q e); [done..|apply Ht]).
      pose proof (sval_succ_le k q e _ (mOffset r) He ltac:(lia) (proj2 Ht)).
      pose proof (sval_add k (mValue r) 1 (mOffset r)). unfold rounded, mag; cbn [negb]. lia.
  - transitivity (sval k (maxMantissa + 1) maxExponent); [|lia].
    replace maxExponent with (maxExponent + 1 - 1) at 2 by lia.
    replace (maxMantissa + 1) with (minMantissa * 10 ^ 1) by done.
    rewrite sval_shift by (dec_consts; lia). apply sval_le_l; dec_consts; lia.
Qed.

Lemma make_mantissa i w e neg :
  isNative (currency i) = false → minMantissa ≤ w ≤ maxMantissa →
  make i w e neg =
    if e <? minExponent then Ok (zero_of i)
    else if maxExponent <? e then Throw (runtime_error "value overflow")
    else Ok (mkAmt i w e false neg).
Proof.
  intros Hi Hw. unfold make, canonicalize, amt_isNative, scale_up, scale_down. simpl mIssue.
  rewrite Hi. simpl mValue. simpl mOffset. dec_consts.
  destruct (Z.eqb_spec w 0); [lia|].
  rewrite while_do_false by (cbn [fst snd]; lia).
  cbn [while_throw fst snd]. destruct (9999999999999999 <? w) eqn:?; [lia|].
  cbn [rbind]. unfold cMinOffset, cMaxOffset, cMinValue. dec_consts.
  destruct (Z.ltb_spec e (-96)); cbn [orb]; [unfold zero_of; by rewrite Hi|].
  destruct (Z.ltb_spec w 1000000000000000); [lia|done].
Qed.

Lemma round_result_away k i u e neg up fix_ x :
  isNative (currency i) = false → Bool.eqb neg up = false → 97 ≤ k → 0 ≤ e + k →
  10 * minMantissa ≤ u < 2 ^ 64 - 9 → sval k (u - 1) e ≤ x ≤ sval k u e →
  round_spec k i neg up fix_ x (round_result i u e neg up fix_).
Proof.
  intros Hi Hb Hk He Hu Hx. unfold round_result. rewrite Hi, Hb. cbn [negb].
  destruct (canonicalizeRound_issued u e Hu) as (j & w & Hj & -> & Hw & Hr).
  set (e' := e + j + 1).
  assert (∀ m, sval k m e' = m * 10 ^ (j + 1) * 10 ^ (e + k)) as Hs.
  { intros m. unfold sval. rewrite <- Z.mul_assoc, <- pow10_split by lia.
    do 2 f_equal. lia. }
  pose proof (pow10_pos (e + k) He) as Hpe. pose proof (pow10_pos j Hj) as Hpj.
  rewrite pow10_succ in Hr by lia.
  assert (rounded true x (sval k w e') (sval k 1 e')) as Hround.
  { unfold rounded. rewrite !Hs, pow10_succ by lia. unfold sval in Hx. nia. }
  unfold rounded in Hround. pose proof (sval_add k w 1 e').
  rewrite make_mantissa by done. unfold round_spec.
  destruct (Z.ltb_spec e' minExponent) as [Hlt|Hge]; cbn [rbind].
  - assert (x < sval k minMantissa minExponent) as Hsmall.
    { apply Z.lt_le_trans with (sval k (w + 1) e'); [lia|].
      transitivity (sval k (minMantissa * 10 ^ 1) (minExponent - 1)).
      - apply sval_le_mono; dec_consts; lia.
      - rewrite sval_shift by (dec_consts; lia). done. }
    rewrite is_zero_value. change (mValue (zero_of i)) with 0. rewrite Z.eqb_refl.
    destruct (fix_ && up && negb neg) eqn:Hf; cbn [andb].
    + rewrite make_mantissa by (done || (unfold cMinValue; dec_consts; lia)).
      destruct neg; [by rewrite andb_false_r in Hf|].
      split; [by apply least_wf|]. split; [done|]. right; left. done.
    + split; [apply zero_of_wf|]. split; [done|]. by left.
  - destruct (Z.ltb_spec maxExponent e') as [Hgt|Hle]; cbn [rbind].
    + transitivity (sval k (w - 1) e'); [apply sval_le_mono; dec_consts; lia|].
      pose proof (sval_add k (w - 1) 1 e') as Ha. rewrite Z.sub_add in Ha. lia.
    + rewrite is_zero_value. cbn [mValue]. destruct (Z.eqb_spec w 0); [dec_consts; lia|].
      rewrite andb_false_r. split; [split; [done|by right]|]. split; [done|].
      right; right. split; [done|]. split; [done|]. by rewrite Hb.
Qed.

Section big_round.
Context {B : BigNum} {L : BigNumLaws B}.

(** The quotient the code rounds: up by adding the divisor less one first. *)
Definition round_quot (away : bool) (n d : Z) : Z :=
  if away then (n + (d - 1)) / d else n / d.

Lemma mulRound_make a b i up fix_ :
  wf a → wf b → mValue a ≠ 0 → mValue b ≠ 0 → mIsNative a = false ∨ mIsNative b = false →
  let '(v1, o1) := into_range (mIsNative a) (mValue a) (mOffset a) in
  let '(v2, o2) := into_range (mIsNative b) (mValue b) (mOffset b) in
  let away := negb (Bool.eqb (opposite a b) up) in
  round_quot away (v1 * v2) tenTo14 < 2 ^ 64 - 9 ∧
  mulRound a b i up fix_ =
    round_result i (round_quot away (v1 * v2) tenTo14) (o1 + o2 + 14) (opposite a b) up fix_.
Proof using L.
  intros Ha Hb Hva Hvb Hn. unfold mulRound.
  rewrite !nonzero_is_zero, native_false_and by done. cbn [orb].
  pose proof (into_range_spec 115 a Ha Hva ltac:(lia)) as Hia.
  pose proof (into_range_spec 115 b Hb Hvb ltac:(lia)) as Hib.
  destruct (into_range (mIsNative a) _ _) as [v1 o1], (into_range (mIsNative b) _ _) as [v2 o2].
  destruct Hia as (Hr1 & _ & _ & Hm1 & _), Hib as (Hr2 & _ & _ & Hm2 & _).
  unfold cMinValue, cMaxNativeN, cMaxValue in *. dec_consts.
  destruct (bn_scaled_quotient v1 v2 tenTo14m1 tenTo14)
    as (b1 & b2 & b3 & b4 & b5 & -> & E2 & E3 & E4 & H4 & E5 & H5);
    try (unfold is_word, tenTo14m1, tenTo14; lia).
  change tenTo14m1 with (tenTo14 - 1) in *.
  cbn [or_throw rbind]. rewrite E2. cbn [or_throw rbind]. fold (opposite a b).
  assert (0 ≤ v1 * v2 ≤ 999999999999999900000000000000000) as Hp.
  { destruct Hn as [Hn|Hn]; rewrite Hn in *; nia. }
  assert (∀ away, 0 ≤ round_quot away (v1 * v2) tenTo14 < 2 ^ 64 - 9) as Hq.
  { intros []; unfold round_quot, tenTo14; (split; [apply Z.div_pos; lia|]);
      apply Z.div_lt_upper_bound; lia. }
  split; [apply Hq|]. pose proof (Hq true). pose proof (Hq false).
  destruct (negb _); unfold getuint64.
  - rewrite E3. cbn [default from_option id]. rewrite E4. cbn [or_throw rbind].
    by rewrite (BN_get_word_ok _ _ H4) by (unfold is_word; unfold round_quot in *; lia).
  - rewrite E5. cbn [or_throw rbind].
    by rewrite (BN_get_word_ok _ _ H5) by (unfold is_word; unfold round_quot in *; lia).
Qed.

Lemma divRound_make a b i up fix_ :
  wf a → wf b → mValue a ≠ 0 → mValue b ≠ 0 →
  let '(v1, o1) := into_range (mIsNative a) (mValue a) (mOffset a) in
  let '(v2, o2) := into_range (mIsNative b) (mValue b) (mOffset b) in
  let away := negb (Bool.eqb (opposite a b) up) in
  round_quot away (v1 * tenTo17) v2 < 2 ^ 64 - 9 ∧
  divRound a b i up fix_ =
    round_result i (round_quot away (v1 * tenTo17) v2) (o1 - o2 - 17) (opposite a b) up fix_.
Proof using L.
  intros Ha Hb Hva Hvb. unfold divRound. rewrite !nonzero_is_zero by done.
  pose proof (into_range_spec 115 a Ha Hva ltac:(lia)) as Hia.
  pose proof (into_range_spec 115 b Hb Hvb ltac:(lia)) as Hib.
  destruct (into_range (mIsNative a) _ _) as [v1 o1], (into_range (mIsNative b) _ _) as [v2 o2].
  destruct Hia as (Hr1 & _), Hib as (Hr2 & _).
  unfold cMinValue, cMaxNativeN in *. dec_consts.
  destruct (bn_scaled_quotient v1 tenTo17 (v2 - 1) v2)
    as (b1 & b2 & b3 & b4 & b5 & -> & E2 & E3 & E4 & H4 & E5 & H5);
    try (unfold is_word, tenTo17, tenTo14; lia).
  cbn [or_throw rbind]. rewrite E2. cbn [or_throw rbind]. fold (opposite a b).
  assert (∀ away, 0 ≤ round_quot away (v1 * tenTo17) v2 < 2 ^ 64 - 9) as Hq.
  { intros []; unfold round_quot, tenTo17, tenTo14; (split; [apply Z.div_pos; lia|]);
      apply Z.div_lt_upper_bound; lia. }
  split; [apply Hq|]. pose proof (Hq true). pose proof (Hq false).
  destruct (negb _); unfold getuint64.
  - rewrite E3. cbn [default from_option id]. rewrite E4. cbn [or_throw rbind].
    by rewrite (BN_get_word_ok _ _ H4) by (unfold is_word; unfold round_quot in *; lia).
  - rewrite E5. cbn [or_throw rbind].
    by rewrite (BN_get_word_ok _ _ H5) by (unfold is_word; unfold round_quot in *; lia).
Qed.

End big_round.

(** Rounding a quotient up: at most one above the truncated quotient. *)
Lemma round_quot_up n d :
  0 ≤ n → 0 < d →
  n / d ≤ round_quot true n d ≤ n / d + 1 ∧ (round_quot true n d - 1) * d < n ≤ round_quot true n d * d.
Proof.
  intros Hn Hd. unfold round_quot.
  pose proof (Z.div_mod n d ltac:(lia)). pose proof (Z.mod_pos_bound n d Hd).
  pose proof (Z.div_mod (n + (d - 1)) d ltac:(lia)). pose proof (Z.mod_pos_bound (n + (d - 1)) d Hd).
  nia.
Qed.

(** A quotient whose divisor has at most sixteen digits has at least
    seventeen. *)
Lemma quotient_digits a b :
  wf a → wf b → mValue a ≠ 0 → mValue b ≠ 0 → mIsNative b = false ∨ mValue b ≤ cMaxValue →
  let '(v1, o1) := into_range (mIsNative a) (mValue a) (mOffset a) in
  let '(v2, o2) := into_range (mIsNative b) (mValue b) (mOffset b) in
  10 * minMantissa ≤ v1 * tenTo17 / v2.
Proof.
  intros Ha Hb Hva Hvb Hn.
  pose proof (into_range_spec 115 a Ha Hva ltac:(lia)) as Hia.
  pose proof (into_range_spec 115 b Hb Hvb ltac:(lia)) as Hib.
  destruct (into_range (mIsNative a) _ _) as [v1 o1], (into_range (mIsNative b) _ _) as [v2 o2].
  destruct Hia as (Hr1 & _), Hib as (Hr2 & _ & _ & Hm2 & Hx2).
  unfold cMinValue, cMaxValue, tenTo17, tenTo14 in *. dec_consts.
  assert (v2 ≤ 10000000000000000) by (destruct Hn as [Hn|Hn]; [specialize (Hm2 Hn)|]; lia).
  apply Z.div_le_lower_bound; lia.
Qed.

(** ** Properties *)

Section properties.
Context {B : BigNum} {L : BigNumLaws B}.


(** [divide] returns the quotient with an error below one unit of the last
    place of the result, under the same conventions; the denominator is an
    issued amount or has at most sixteen digits. *)
Theorem amt_divide a b i :
  wf a → wf b → mValue a ≠ 0 → mValue b ≠ 0 → mIsNative b = false ∨ mValue b ≤ cMaxValue →
  isNative (currency i) = false →
  let x := mag 450 a / mag 150 b in
  match divide a b i with
  | Ok r =>
      wf r ∧ mIssue r = i ∧
      (r = zero_of i ∧ x < sval 300 minMantissa minExponent ∨
       mValue r ≠ 0 ∧ mIsNegative r = opposite a b ∧
       Z.abs (mag 300 r - x) < sval 300 1 (mOffset r))
  | Throw _ => sval 300 maxMantissa maxExponent ≤ x
  end.
Proof using L.
  intros Ha Hb Hva Hvb Hn Hi x.
  pose proof (divide_make a b i Ha Hb Hva Hvb) as Hm.
  pose proof (quotient_bracket a b Ha Hb Hva Hvb) as Hp.
  pose proof (quotient_digits a b Ha Hb Hva Hvb Hn) as Hd.
  destruct (into_range (mIsNative a) _ _) as [v1 o1], (into_range (mIsNative b) _ _) as [v2 o2].
  rewrite Hm. destruct Hp as (Hv2 & He & _ & Hx).
  apply make_issued_near; [done|lia|lia|done|lia|done].
Qed.


(** [divRound] rounds the quotient the same way, for a denominator that is
    issued or has at most sixteen digits. *)
Theorem amt_divRound a b i up fix_ :
  wf a → wf b → mValue a ≠ 0 → mValue b ≠ 0 → mIsNative b = false ∨ mValue b ≤ cMaxValue →
  isNative (currency i) = false →
  round_spec 300 i (opposite a b) up fix_ (mag 450 a / mag 150 b) (divRound a b i up fix_).
Proof using L.
  intros Ha Hb Hva Hvb Hn Hi.
  pose proof (divRound_make a b i up fix_ Ha Hb Hva Hvb) as Hm.
  pose proof (quotient_bracket a b Ha Hb Hva Hvb) as Hp.
  pose proof (quotient_digits a b Ha Hb Hva Hvb Hn) as Hd.
  destruct (into_range (mIsNative a) _ _) as [v1 o1], (into_range (mIsNative b) _ _) as [v2 o2].
  destruct Hm as [Hlt ->]. destruct Hp as (Hv2 & He & Hxp & Hx).
  destruct (Bool.eqb (opposite a b) up) eqn:Hup; cbn [negb] in *.
  { apply round_result_toward; [done|done|lia|lia|done|done]. }
  assert (0 ≤ v1 * tenTo17) as Hpos.
  { destruct (Z.le_gt_cases 0 (v1 * tenTo17)) as [|Hneg]; [done|exfalso].
    pose proof (Z.div_lt_upper_bound (v1 * tenTo17) v2 0). dec_consts. lia. }
  destruct (round_quot_up (v1 * tenTo17) v2 Hpos Hv2) as [Hr Hr'].
  apply round_result_away; [done|done|lia|lia|lia|].
  rewrite Hxp. unfold sval. pose proof (pow10_pos (o1 - o2 - 17 + 300) He).
  split; [apply Z.div_le_lower_bound|apply Z.div_le_upper_bound]; nia.
Qed.

End properties.

(** ** Witnesses *)

Definition two_usd : STAmount := mkAmt usd 2000000000000000 (-15) false false.
Definition minus_three : STAmount := mkAmt usd 3000000000000000 (-15) false true.
Definition vrp_7 : STAmount := mkAmt xrpIssue 7 0 true false.



Lemma amt_divide_witness :
  divide vrp_7 two_usd usd = Ok (mkAmt usd 3500000000000000 (-15) false false) ∧
  wf (mkAmt usd 3500000000000000 (-15) false false).
Proof.
  split; [reflexivity|].
  refine (proj1 (amt_divide vrp_7 two_usd usd _ _ _ _ _ eq_refl));
    [by_computation|by_computation|done|done|by left].
Defined.


Lemma amt_divRound_witness :
  divRound two_usd minus_three usd false true = Ok (mkAmt usd 6666666666666667 (-16) false true) ∧
  wf (mkAmt usd 6666666666666667 (-16) false true).
Proof.
  split; [reflexivity|].
  refine (proj1 (amt_divRound two_usd minus_three usd false true _ _ _ _ _ eq_refl));
    [by_computation|by_computation|done|done|by left].
Defined.

(** The tenth of a unit is reached: [mulRound] asked to round up returns an
    amount below the exact product of two positive amounts. *)
Theorem amt_mulRound_up_below :
  let a := mkAmt usd 4000000000000005 (-15) false false in
  let b := mkAmt usd 2499999999999997 (-15) false false in
  ∃ r, mulRound a b usd true true = Ok r ∧ mag 300 r < mag 150 a * mag 150 b.
Proof. eexists. split; [vm_compute; reflexivity|]. by vm_compute. Qed.

End ArithFacts.
