(* ===== verification/MulDivFacts.v ===== *)
(** * Integer ratios

    What [lowestTerms] and [mulDiv] (protocol/STAmount.h,
    protocol/impl/STAmount.cpp) compute. *)

From S2P Require Import Prelude STAmountArith.
Import Arith.

Module MulDiv.

(** Two iterations of Euclid's loop halve the second component, so [2 * n]
    iterations are enough for one below [2 ^ n]. *)
Lemma euclid_loop n x y f :
  0 ≤ x → 0 ≤ y < 2 ^ Z.of_nat n → (2 * n ≤ f)%nat →
  (while_do (λ s, negb (s.2 =? 0)) (λ s, (s.2, s.1 mod s.2)) f (x, y)).1 = Z.gcd x y.
Proof.
  revert x y f. induction n as [|n IH]; intros x y f Hx Hy Hf.
  - change (2 ^ Z.of_nat 0) with 1 in Hy. replace y with 0 by lia.
    rewrite while_do_false by done. simpl. rewrite Z.gcd_0_r. lia.
  - destruct (Z.eq_dec y 0) as [->|Hy0].
    { rewrite while_do_false by done. simpl. rewrite Z.gcd_0_r. lia. }
    destruct f as [|[|f]]; [lia|lia|].
    rewrite while_do_step by (cbn; lia). cbn [fst snd].
    pose proof (Z.mod_pos_bound x y ltac:(lia)) as Hr.
    rewrite (Z.gcd_comm x y), <- (Z.gcd_mod x y), Z.gcd_comm by done. set (r := x mod y) in *.
    destruct (Z.eq_dec r 0) as [->|Hr0].
    { rewrite while_do_false by done. simpl. rewrite Z.gcd_0_r. lia. }
    rewrite while_do_step by (cbn; lia). cbn [fst snd].
    rewrite (Z.gcd_comm y r), <- (Z.gcd_mod y r), Z.gcd_comm by done.
    pose proof (Z.mod_pos_bound y r ltac:(lia)) as Hs.
    apply IH; [lia| |lia]. split; [lia|].
    pose proof (Z.div_mod y r Hr0). assert (1 ≤ y / r) by (apply Z.div_le_lower_bound; lia).
    rewrite Nat2Z.inj_succ, Z.pow_succ_r in Hy by lia. nia.
Qed.

Lemma euclid_gcd a b : 0 ≤ a → 0 ≤ b < 2 ^ 64 → (euclid a b).1 = Z.gcd a b.
Proof. intros. apply (euclid_loop 64); [lia|done|lia]. Qed.

(** [lowestTerms] divides both by their greatest common divisor. *)
Lemma lowestTerms_spec a b :
  0 ≤ a → 0 ≤ b < 2 ^ 64 → Z.gcd a b ≠ 0 →
  lowestTerms a b = Ok (a / Z.gcd a b, b / Z.gcd a b).
Proof.
  intros Ha Hb Hg. unfold lowestTerms, div_u64. rewrite euclid_gcd by done.
  by destruct (Z.eqb_spec (Z.gcd a b) 0).
Qed.

Lemma lowestTerms_factors a b :
  0 ≤ a → 0 ≤ b < 2 ^ 64 → a ≠ 0 ∨ b ≠ 0 →
  ∃ g a' b', 0 < g ∧ a = g * a' ∧ b = g * b' ∧ 0 ≤ a' ∧ 0 ≤ b' ∧
    lowestTerms a b = Ok (a', b').
Proof.
  intros Ha Hb Hn. pose proof (Z.gcd_nonneg a b). pose proof (Z.gcd_eq_0 a b).
  assert (0 < Z.gcd a b) by lia.
  exists (Z.gcd a b), (a / Z.gcd a b), (b / Z.gcd a b).
  split_and!; [done|..].
  - apply Znumtheory.Zdivide_Zdiv_eq; [done|apply Z.gcd_divide_l].
  - apply Znumtheory.Zdivide_Zdiv_eq; [done|apply Z.gcd_divide_r].
  - apply Z.div_pos; lia.
  - apply Z.div_pos; lia.
  - apply lowestTerms_spec; lia.
Qed.

(** The rest of [mulDiv], after both reductions. *)
Definition mulDiv_reduced (value mul div : Z) : result Z :=
  let '(value, mul) := if value <? mul then (mul, value) else (value, mul) in
  let* limit := div_u64 u64_max mul in
  if limit <? value then
    let* value := div_u64 value div in
    if limit <? value then Throw (overflow_error "mulDiv")
    else Ok (u64 (value * mul))
  else div_u64 (u64 (value * mul)) div.

Lemma mulDiv_reduced_spec v m d :
  0 < v → 0 < m → 0 < d →
  match mulDiv_reduced v m d with
  | Ok r => 0 ≤ r < 2 ^ 64 ∧ r ≤ v * m / d ∧ (v * m < 2 ^ 64 → r = v * m / d)
  | Throw e => e = overflow_error "mulDiv" ∧ 2 ^ 64 ≤ v * m
  end.
Proof.
  intros Hv Hm Hd. unfold mulDiv_reduced.
  assert (∃ hi lo, (if v <? m then (m, v) else (v, m)) = (hi, lo) ∧ 0 < lo ≤ hi ∧ v * m = hi * lo)
    as (hi & lo & -> & Hlo & ->).
  { destruct (Z.ltb_spec v m); eexists _, _; (split; [done|]); lia. }
  unfold div_u64. destruct (Z.eqb_spec lo 0); [lia|]. cbn [rbind].
  pose proof (Z.div_mod u64_max lo ltac:(lia)) as Hq.
  pose proof (Z.mod_pos_bound u64_max lo ltac:(lia)) as Hr.
  set (q := u64_max / lo) in *. unfold u64_max in *.
  destruct (Z.ltb_spec q hi) as [Hbig|Hsmall]; destruct (Z.eqb_spec d 0); try lia; cbn [rbind].
  - pose proof (Z.div_mod hi d ltac:(lia)). pose proof (Z.mod_pos_bound hi d ltac:(lia)).
    set (h := hi / d) in *. assert (0 ≤ h) by (apply Z.div_pos; lia).
    destruct (Z.ltb_spec q h).
    + split; [done|]. nia.
    + rewrite u64_id by nia. split_and!; [nia|nia| |nia].
      apply Z.div_le_lower_bound; [lia|]. nia.
  - assert (0 ≤ hi * lo < 2 ^ 64) by nia. rewrite u64_id by lia.
    split_and!; [apply Z.div_pos; lia| |done|done].
    apply Z.div_lt_upper_bound; nia.
Qed.

Lemma mulDiv_factors value mul div :
  0 ≤ value < 2 ^ 64 → 0 ≤ mul < 2 ^ 64 → 0 < div < 2 ^ 64 →
  ∃ g v m d, 0 < g ∧ 0 < d ∧ 0 ≤ v ≤ value ∧ 0 ≤ m ≤ mul ∧
    value * mul = g * (v * m) ∧ div ≠ 0 ∧ value * mul / div = v * m / d ∧
    (value = 0 ↔ v = 0) ∧ (mul = 0 ↔ m = 0) ∧
    mulDiv value mul div = mulDiv_reduced v m d.
Proof.
  intros Hv Hm Hd.
  destruct (lowestTerms_factors value div) as (g1 & v & d1 & Hg1 & Ev & Ed1 & Hv0 & Hd0 & E1); [lia..|].
  destruct (lowestTerms_factors mul d1) as (g2 & m & d & Hg2 & Em & Ed2 & Hm0 & Hd20 & E2); [nia..|].
  assert (0 < d) by nia.
  exists (g1 * g2), v, m, d. split_and!; try nia.
  - subst value mul div d1.
    replace (g1 * v * (g2 * m)) with (v * m * (g1 * g2)) by lia.
    replace (g1 * (g2 * d)) with (d * (g1 * g2)) by lia.
    apply Z.div_mul_cancel_r; nia.
  - unfold mulDiv, mulDiv_reduced. rewrite E1. cbn [rbind]. rewrite E2. done.
Qed.

(** ** Properties *)



(** [mulDiv] divides by zero whenever one of its three operands is zero,
    although a zero [value] or [mul] has the well-defined result zero; the
    handler of [mulDivNoThrow] does not cover it. *)
Theorem mulDiv_zero_operand value mul div :
  0 ≤ value < 2 ^ 64 → 0 ≤ mul < 2 ^ 64 → 0 ≤ div < 2 ^ 64 →
  value = 0 ∨ mul = 0 ∨ div = 0 →
  mulDiv value mul div = Throw (Undefined "integer division by zero") ∧
  mulDivNoThrow value mul div = Throw (Undefined "integer division by zero").
Proof.
  intros Hv Hm Hd Hz. unfold mulDivNoThrow.
  assert (mulDiv value mul div = Throw (Undefined "integer division by zero")) as ->; [|done].
  destruct (Z.eq_dec div 0) as [->|Hd0].
  - unfold mulDiv.
    destruct (Z.eq_dec value 0) as [->|Hv0]; [done|].
    destruct (lowestTerms_factors value 0) as (g & v & d & Hg & Ev & Ed & ? & ? & ->); [lia..|].
    assert (d = 0) as -> by nia. cbn [rbind].
    destruct (Z.eq_dec mul 0) as [->|Hm0]; [done|].
    destruct (lowestTerms_factors mul 0) as (g' & m & d & Hg' & Em & Ed' & ? & ? & ->); [lia..|].
    assert (d = 0) as -> by nia. cbn [rbind].
    assert (0 < v ∧ 0 < m) as [? ?] by nia.
    unfold div_u64. destruct (v <? m); rewrite (proj2 (Z.eqb_neq _ 0)) by lia; cbn [rbind];
      by destruct (_ <? _).
  - destruct (mulDiv_factors value mul div) as
      (g & v & m & d & _ & _ & Hv' & Hm' & _ & _ & _ & Hvz & Hmz & ->); [lia..|].
    unfold mulDiv_reduced, div_u64. destruct (Z.ltb_spec v m).
    + by replace v with 0 by lia.
    + by replace m with 0 by lia.
Qed.

Lemma mulDiv_zero_operand_witness :
  mulDiv 0 256 10 = Throw (Undefined "integer division by zero").
Proof.
  apply (mulDiv_zero_operand 0 256 10); [lia..|by left].
Defined.

End MulDiv.
