(* ===== verification/Quality.v ===== *)
(** * Quality

    protocol/Quality.h and protocol/impl/Quality.cpp: the rate of an offer as a
    sortable 64-bit integer, and the scaling of an offer's amounts to a limit
    at that rate. *)

From S2P Require Import Prelude Issue Decimal IOUAmount STAmount BigNum STAmountFacts STAmountArith STAmountArithFacts.
Import Amt AmtFacts Arith ArithFacts.

Module Qual.

Record Amounts := mkAmounts { a_in : STAmount; a_out : STAmount }.

(** [in <= zero || out <= zero], through [signum]. *)
Definition empty (a : Amounts) : bool :=
  (signum (a_in a) <=? 0) || (signum (a_out a) <=? 0).

(** A [Quality] is its [m_value]; a higher quality has a lower value. *)
Definition Quality := Z.

Definition quality_ltb (lhs rhs : Quality) : bool := rhs <? lhs.
Definition quality_eqb (lhs rhs : Quality) : bool := lhs =? rhs.
Definition quality_incr (q : Quality) : Quality := u64 (q - 1).
Definition quality_decr (q : Quality) : Quality := u64 (q + 1).

Definition rate (q : Quality) : result STAmount := amountFromQuality q.

Section ops.
Context `{BN : BigNum}.

Definition quality_of (a : Amounts) : Quality := getRate (a_out a) (a_in a).

Definition ceil_in (q : Quality) (amount : Amounts) (limit : STAmount) (fix_ : bool)
    : result Amounts :=
  let* above := ltb limit (a_in amount) in
  if above then
    let* r := rate q in
    let* out := divRound limit r (mIssue (a_out amount)) true fix_ in
    let* clamp := ltb (a_out amount) out in
    Ok (mkAmounts limit (if clamp then a_out amount else out))
  else Ok amount.

Definition ceil_out (q : Quality) (amount : Amounts) (limit : STAmount) (fix_ : bool)
    : result Amounts :=
  let* above := ltb limit (a_out amount) in
  if above then
    let* r := rate q in
    let* inp := mulRound limit r (mIssue (a_in amount)) true fix_ in
    let* clamp := ltb (a_in amount) inp in
    Ok (mkAmounts (if clamp then a_in amount else inp) limit)
  else Ok amount.

Definition composed_quality (lhs rhs : Quality) (fix_ : bool) : result Quality :=
  let* lhs_rate := rate lhs in
  let* rhs_rate := rate rhs in
  let* r := mulRound lhs_rate rhs_rate (mIssue lhs_rate) true fix_ in
  Ok (Z.lor (u64 (Z.shiftl (u64 (mOffset r + 100)) 56)) (mValue r)).

End ops.

(** ** The encoding of a rate *)

Definition encode (m e : Z) : Z := (e + 100) * 2 ^ 56 + m.

Lemma encode_lor m e :
  canonical m e → Z.lor (u64 (Z.shiftl (u64 (e + 100)) 56)) m = encode m e.
Proof.
  intros [Hm He]. dec_consts. unfold encode.
  rewrite (u64_id (e + 100)), Z.shiftl_mul_pow2 by lia. rewrite u64_id by lia.
  apply lor_shifted; lia.
Qed.

Lemma encode_range m e : canonical m e → 0 < encode m e < 2 ^ 64.
Proof. unfold encode, canonical. dec_consts. lia. Qed.

Lemma encode_lt k m e m' e' :
  canonical m e → canonical m' e' → 96 ≤ k →
  encode m e < encode m' e' ↔ sval k m e < sval k m' e'.
Proof.
  intros Hc Hc' Hk. rewrite canonical_sval_lt by done.
  destruct Hc, Hc'. unfold encode. dec_consts. lia.
Qed.

(** [amountFromQuality] undoes the encoding. *)
Lemma amountFromQuality_encode m e :
  canonical m e → amountFromQuality (encode m e) = Ok (mkAmt noIssue m e false false).
Proof.
  intros Hc. pose proof (encode_range m e Hc). unfold amountFromQuality.
  destruct (Z.eqb_spec (encode m e) 0); [lia|].
  assert (0 ≤ m < 2 ^ 56 ∧ -96 ≤ e ≤ 80) as [Hm He] by (destruct Hc; dec_consts; lia).
  assert (Z.land (encode m e) (u64 (Z.lnot (Z.shiftl 255 56))) = m) as ->.
  { change (u64 (Z.lnot (Z.shiftl 255 56))) with (Z.ones 56).
    rewrite Z.land_ones by lia. unfold encode.
    rewrite Z.add_comm, Z.mod_add, Z.mod_small; lia. }
  assert (Z.shiftr (encode m e) 56 = e + 100) as ->.
  { rewrite Z.shiftr_div_pow2 by lia. unfold encode.
    rewrite Z.add_comm, Z.div_add, Z.div_small; lia. }
  replace (i32 (e + 100) - 100) with e.
  - apply make_wf. split; [done|by right].
  - unfold i32, swrap. change (32 - 1) with 31. rewrite Z.mod_small; lia.
Qed.

Section facts.
Context {B : BigNum} {L : BigNumLaws B}.

(** A non-zero rate is a canonical amount. *)
Lemma divide_canonical a b i r :
  wf a → wf b → mValue b ≠ 0 → isNative (currency i) = false →
  divide a b i = Ok r → mValue r ≠ 0 →
  canonical (mValue r) (mOffset r) ∧ mIssue r = i.
Proof using L.
  intros Ha Hb Hvb Hi Hr Hv.
  destruct (Z.eq_dec (mValue a) 0) as [Hva|Hva].
  { exfalso. unfold divide in Hr. rewrite nonzero_is_zero, is_zero_value, Hva in Hr by done.
    injection Hr as <-. done. }
  pose proof (divide_make a b i Ha Hb Hva Hvb) as Hm.
  pose proof (quotient_bracket a b Ha Hb Hva Hvb) as Hq.
  destruct (into_range (mIsNative a) _ _) as [v1 o1], (into_range (mIsNative b) _ _) as [v2 o2].
  destruct Hq as (Hv2 & He & _ & Hx).
  assert (0 < v1 * tenTo17 / v2 + 5).
  { destruct (Z.lt_ge_cases 0 (v1 * tenTo17 / v2 + 5)) as [|Hneg]; [done|exfalso].
    assert (0 ≤ mag 450 a / mag 150 b) as Hpos.
    { apply Z_div_nonneg_nonneg; unfold mag, sval;
        pose proof (wf_value_range a Ha); pose proof (wf_value_range b Hb);
        apply Z.mul_nonneg_nonneg; try lia; apply Z.pow_nonneg; lia. }
    assert (sval 300 (v1 * tenTo17 / v2 + 1) (o1 - o2 - 17) ≤ sval 300 0 (o1 - o2 - 17))
      by (apply sval_le_l; lia).
    change (sval 300 0 (o1 - o2 - 17)) with 0 in *. lia. }
  rewrite Hm in Hr. pose proof (make_issued 300 i (v1 * tenTo17 / v2 + 5) (o1 - o2 - 17)
    (opposite a b) Hi ltac:(lia) ltac:(lia) ltac:(lia)) as H'.
  rewrite Hr in H'. destruct H' as (_ & Hri & [(-> & _)|(Hc & _)]); [done|auto].
Qed.

Lemma getRate_encode out inp r :
  wf out → wf inp → mValue out ≠ 0 → divide inp out noIssue = Ok r → mValue r ≠ 0 →
  canonical (mValue r) (mOffset r) ∧ mIssue r = noIssue ∧
  getRate out inp = encode (mValue r) (mOffset r).
Proof using L.
  intros Ho Hi Hv Hd Hr. destruct (divide_canonical inp out noIssue r) as [Hc Hir]; try done.
  split; [done|]. split; [done|].
  unfold getRate. rewrite nonzero_is_zero, Hd, nonzero_is_zero by done. by apply encode_lor.
Qed.

(** ** Properties *)

(** C38: The 64-bit encoding of an offer's rate preserves the rate and its
    order: [amountFromQuality] recovers the magnitude of the quotient
    [offerIn / offerOut] from [getRate], and one offer's encoded rate is below
    another's exactly when its quotient is. *)
Theorem rate_encoding out inp r out' inp' r' :
  wf out → wf inp → wf out' → wf inp' → mValue out ≠ 0 → mValue out' ≠ 0 →
  divide inp out noIssue = Ok r → divide inp' out' noIssue = Ok r' →
  mValue r ≠ 0 → mValue r' ≠ 0 →
  amountFromQuality (getRate out inp) = Ok (mkAmt noIssue (mValue r) (mOffset r) false false) ∧
  (getRate out inp < getRate out' inp' ↔ mag 100 r < mag 100 r').
Proof using L.
  intros Ho Hi Ho' Hi' Hv Hv' Hd Hd' Hr Hr'.
  destruct (getRate_encode out inp r) as (Hc & _ & ->); try done.
  destruct (getRate_encode out' inp' r') as (Hc' & _ & ->); try done.
  split; [by apply amountFromQuality_encode|]. by apply encode_lt.
Qed.

Lemma ltb_irrefl a : ltb a a = Ok false.
Proof.
  unfold ltb. replace (areComparable a a) with true.
  - rewrite Bool.eqb_reflx. cbn [negb]. rewrite !Z.ltb_irrefl.
    destruct (mValue a =? 0); [by destruct (mIsNegative a)|done].
  - unfold areComparable. rewrite Bool.eqb_reflx, Z.eqb_refl. by destruct (mIsNative a).
Qed.

(** [ceil_in] caps the input at the limit and clamps the output: the
    returned input does not exceed the limit, the returned output does not
    exceed the offered one, and an offer within the limit is returned as it
    is. *)
Theorem ceil_in_clamps q amount limit fix_ r :
  ceil_in q amount limit fix_ = Ok r →
  ltb limit (a_in r) = Ok false ∧ ltb (a_out amount) (a_out r) = Ok false ∧
  (ltb limit (a_in amount) = Ok false → r = amount).
Proof.
  unfold ceil_in. intros (above & Ha & H)%rbind_Ok_inv. rewrite Ha. destruct above.
  - apply rbind_Ok_inv in H as (rt & _ & H). apply rbind_Ok_inv in H as (out & _ & H).
    apply rbind_Ok_inv in H as (clamp & Hc & [= <-]). cbn [a_in a_out].
    split_and!; [apply ltb_irrefl|destruct clamp; [apply ltb_irrefl|done]|done].
  - injection H as <-. split_and!; [done|apply ltb_irrefl|done].
Qed.

(** [ceil_out] caps the output at the limit and clamps the input in the
    same way. *)
Theorem ceil_out_clamps q amount limit fix_ r :
  ceil_out q amount limit fix_ = Ok r →
  ltb limit (a_out r) = Ok false ∧ ltb (a_in amount) (a_in r) = Ok false ∧
  (ltb limit (a_out amount) = Ok false → r = amount).
Proof.
  unfold ceil_out. intros (above & Ha & H)%rbind_Ok_inv. rewrite Ha. destruct above.
  - apply rbind_Ok_inv in H as (rt & _ & H). apply rbind_Ok_inv in H as (inp & _ & H).
    apply rbind_Ok_inv in H as (clamp & Hc & [= <-]). cbn [a_in a_out].
    split_and!; [apply ltb_irrefl|destruct clamp; [apply ltb_irrefl|done]|done].
  - injection H as <-. split_and!; [done|apply ltb_irrefl|done].
Qed.

End facts.

Lemma rate_encoding_witness :
  amountFromQuality (getRate two_usd vrp_7) =
    Ok (mkAmt noIssue 3500000000000000 (-15) false false).
Proof.
  refine (proj1 (rate_encoding two_usd vrp_7 (mkAmt noIssue 3500000000000000 (-15) false false)
    two_usd vrp_7 (mkAmt noIssue 3500000000000000 (-15) false false) _ _ _ _ _ _
    eq_refl eq_refl _ _)); try by_computation; done.
Defined.

Definition offer_7_2 : Amounts := mkAmounts vrp_7 two_usd.

Lemma ceil_in_clamps_witness :
  ceil_in (quality_of offer_7_2) offer_7_2 (mkAmt xrpIssue 3 0 true false) true =
    Ok (mkAmounts (mkAmt xrpIssue 3 0 true false) (mkAmt usd 8571428571428572 (-16) false false)) ∧
  ltb two_usd (mkAmt usd 8571428571428572 (-16) false false) = Ok false.
Proof.
  assert (ceil_in (quality_of offer_7_2) offer_7_2 (mkAmt xrpIssue 3 0 true false) true =
    Ok (mkAmounts (mkAmt xrpIssue 3 0 true false)
      (mkAmt usd 8571428571428572 (-16) false false))) as E by (vm_compute; reflexivity).
  split; [exact E|exact (proj1 (proj2 (ceil_in_clamps _ _ _ _ _ E)))].
Defined.

Lemma ceil_out_clamps_witness :
  ceil_out (quality_of offer_7_2) offer_7_2 (mkAmt usd 1000000000000000 (-15) false false) true =
    Ok (mkAmounts (mkAmt xrpIssue 4 0 true false) (mkAmt usd 1000000000000000 (-15) false false)) ∧
  ltb vrp_7 (mkAmt xrpIssue 4 0 true false) = Ok false.
Proof.
  assert (ceil_out (quality_of offer_7_2) offer_7_2 (mkAmt usd 1000000000000000 (-15) false false) true =
    Ok (mkAmounts (mkAmt xrpIssue 4 0 true false)
      (mkAmt usd 1000000000000000 (-15) false false))) as E by (vm_compute; reflexivity).
  split; [exact E|exact (proj1 (proj2 (ceil_out_clamps _ _ _ _ _ E)))].
Defined.

End Qual.
