(* ===== verification/Serializer.v ===== *)
(** * Serializer and SerialIter

    protocol/Serializer.h and protocol/impl/Serializer.cpp: the byte buffer
    transactions and ledger entries are written to, and the reader over it.
    A byte is a [Z] in [0, 256). *)

From S2P Require Import Prelude.

Module Ser.

(** ** Serializer

    A [Serializer] is its [mData].  The [add] functions append; each returns
    the offset it wrote at, which is the length of its argument. *)

Definition Serializer := list Z.

Definition byte (z : Z) : Z := u8 z.

Definition addZeros (s : Serializer) (n : nat) : Serializer := s ++ replicate n 0.
Definition add8 (s : Serializer) (b : Z) : Serializer := s ++ [b].

Definition add16 (s : Serializer) (i : Z) : Serializer :=
  s ++ [byte (Z.shiftr i 8); byte (Z.land i 0xff)].

Definition add32 (s : Serializer) (i : Z) : Serializer :=
  s ++ [byte (Z.shiftr i 24); byte (Z.land (Z.shiftr i 16) 0xff);
        byte (Z.land (Z.shiftr i 8) 0xff); byte (Z.land i 0xff)].

Definition add64 (s : Serializer) (i : Z) : Serializer :=
  s ++ [byte (Z.shiftr i 56); byte (Z.land (Z.shiftr i 48) 0xff);
        byte (Z.land (Z.shiftr i 40) 0xff); byte (Z.land (Z.shiftr i 32) 0xff);
        byte (Z.land (Z.shiftr i 24) 0xff); byte (Z.land (Z.shiftr i 16) 0xff);
        byte (Z.land (Z.shiftr i 8) 0xff); byte (Z.land i 0xff)].

(** [addBitString], and [add128], [add160], [add256]: the [n] big-endian bytes
    of a [base_uint] of [8 * n] bits. *)
Definition addBitString (n : nat) (s : Serializer) (v : Z) : Serializer := s ++ be_bytes n v.

Definition addRaw (s : Serializer) (bs : list Z) : Serializer := s ++ bs.

(** ** Field identifiers *)

Definition addFieldID (s : Serializer) (type name : Z) : Serializer :=
  if type <? 16 then
    if name <? 16 then s ++ [byte (Z.lor (Z.shiftl type 4) name)]
    else s ++ [byte (Z.shiftl type 4); byte name]
  else if name <? 16 then s ++ [byte name; byte type]
  else s ++ [0; byte type; byte name].

Definition get8 (s : Serializer) (offset : nat) : option Z := s !! offset.

(** [Serializer::getFieldID]; [None] is [return false]. *)
Definition getFieldID (s : Serializer) (offset : nat) : option (Z * Z) :=
  b ← get8 s offset;
  let name := Z.land b 15 in
  let type := Z.shiftr b 4 in
  '(type, offset) ←
    (if type =? 0 then
       t ← get8 s (S offset);
       if (t =? 0) || (t <? 16) then None else Some (t, S offset)
     else Some (type, offset));
  (if name =? 0 then
     n ← get8 s (S offset);
     if (n =? 0) || (n <? 16) then None else Some (type, n)
   else Some (type, name)).

(** ** Raw access *)

Definition getRaw (s : Serializer) (offset length : nat) : option (list Z) :=
  if (Datatypes.length s <? offset + length)%nat then None
  else Some (take length (drop offset s)).

Definition getBitString (n : nat) (s : Serializer) (offset : nat) : option Z :=
  if (offset + n <=? length s)%nat then Some (be_int (take n (drop offset s))) else None.

(** [getInteger] for an integer of [n] bytes. *)
Definition getInteger (n : nat) (s : Serializer) (offset : nat) : option Z :=
  if (length s <? offset + n)%nat then None
  else Some (foldl (λ number b, Z.lor (uwrap (8 * Z.of_nat n) (Z.shiftl number 8)) b) 0
               (take n (drop offset s))).

Definition chop (s : Serializer) (bytes : nat) : option Serializer :=
  if (length s <? bytes)%nat then None else Some (take (length s - bytes) s).

(** ** Variable length prefixes *)

Definition addEncoded (s : Serializer) (len : Z) : result Serializer :=
  if len <=? 192 then Ok (s ++ [byte len])
  else if len <=? 12480 then
    let len := len - 193 in
    Ok (s ++ [byte (193 + byte (Z.shiftr len 8)); byte (Z.land len 0xff)])
  else if len <=? 918744 then
    let len := len - 12481 in
    Ok (s ++ [byte (241 + byte (Z.shiftr len 16)); byte (Z.land (Z.shiftr len 8) 0xff);
              byte (Z.land len 0xff)])
  else Throw (overflow_error "lenlen").

Definition addVL (s : Serializer) (bs : list Z) : result Serializer :=
  let* s' := addEncoded s (Z.of_nat (length bs)) in Ok (addRaw s' bs).

Definition encodeLengthLength (len : Z) : result Z :=
  if len <? 0 then Throw (overflow_error "len<0")
  else if len <=? 192 then Ok 1
  else if len <=? 12480 then Ok 2
  else if len <=? 918744 then Ok 3
  else Throw (overflow_error "len>918744").

Definition decodeLengthLength (b1 : Z) : result Z :=
  if b1 <? 0 then Throw (overflow_error "b1<0")
  else if b1 <=? 192 then Ok 1
  else if b1 <=? 240 then Ok 2
  else if b1 <=? 254 then Ok 3
  else Throw (overflow_error "b1>254").

Definition decodeVLLength1 (b1 : Z) : result Z :=
  if b1 <? 0 then Throw (overflow_error "b1<0")
  else if 254 <? b1 then Throw (overflow_error "b1>254")
  else Ok b1.

Definition decodeVLLength2 (b1 b2 : Z) : result Z :=
  if b1 <? 193 then Throw (overflow_error "b1<193")
  else if 240 <? b1 then Throw (overflow_error "b1>240")
  else Ok (193 + (b1 - 193) * 256 + b2).

Definition decodeVLLength3 (b1 b2 b3 : Z) : result Z :=
  if b1 <? 241 then Throw (overflow_error "b1<241")
  else if 254 <? b1 then Throw (overflow_error "b1>254")
  else Ok (12481 + (b1 - 241) * 65536 + b2 * 256 + b3).

(** A [try] block that returns [false] on an exception. *)
Definition catch_false {A} (m : result (option A)) : result (option A) :=
  match m with Throw _ => Ok None | r => r end.

(** The data length behind a prefix at [offset], with the offset after the
    prefix: the common part of [getVL] and [getVLLength].  [decodeLengthLength]
    is called outside the [try] block. *)
Definition vl_prefix (s : Serializer) (offset : nat) : result (option (Z * Z * nat)) :=
  match get8 s offset with
  | None => Ok None
  | Some b1 =>
      let offset := S offset in
      let* lenLen := decodeLengthLength b1 in
      catch_false
        (if lenLen =? 1 then
           let* datLen := decodeVLLength1 b1 in Ok (Some (datLen, lenLen, offset))
         else if lenLen =? 2 then
           match get8 s offset with
           | None => Ok None
           | Some b2 =>
               let* datLen := decodeVLLength2 b1 b2 in Ok (Some (datLen, lenLen, S offset))
           end
         else if lenLen =? 3 then
           match get8 s offset with
           | None => Ok None
           | Some b2 =>
               match get8 s (S offset) with
               | None => Ok None
               | Some b3 =>
                   let* datLen := decodeVLLength3 b1 b2 b3 in
                   Ok (Some (datLen, lenLen, S (S offset)))
               end
           end
         else Ok None)
  end.

Definition getVL (s : Serializer) (offset : nat) : result (option (list Z * Z)) :=
  let* p := vl_prefix s offset in
  Ok (match p with
      | None => None
      | Some (datLen, lenLen, offset) =>
          bs ← getRaw s offset (Z.to_nat datLen); Some (bs, lenLen + datLen)
      end).

Definition getVLLength (s : Serializer) (offset : nat) : result (option Z) :=
  let* p := vl_prefix s offset in
  Ok (match p with None => None | Some (datLen, _, _) => Some datLen end).

End Ser.
