(* ===== verification/SerialIter.v ===== *)
(** * SerialIter

    The reader of protocol/Serializer.h, and the round trips between it and
    the [Serializer]. *)

From S2P Require Import Prelude Serializer.
Import Ser.

Module Iter.

(** [p_] stands between the bytes already read and the remaining ones:
    [used_] is the length of the first list and [remain_] of the second. *)
Record SerialIter := mkIter { read : list Z; at_p : list Z }.

Definition used_ (it : SerialIter) : Z := Z.of_nat (length (read it)).
Definition remain_ (it : SerialIter) : Z := Z.of_nat (length (at_p it)).

Definition iter (s : Serializer) : SerialIter := mkIter [] s.

(** [p_ += n; used_ += n; remain_ -= n], with the bytes passed over. *)
Definition advance (n : nat) (it : SerialIter) : list Z * SerialIter :=
  (take n (at_p it), mkIter (read it ++ take n (at_p it)) (drop n (at_p it))).

Definition empty (it : SerialIter) : bool := remain_ it =? 0.

Definition reset (it : SerialIter) : SerialIter := mkIter [] (read it ++ at_p it).

(** The [int] argument is compared as a [std::size_t]. *)
Definition skip (len : Z) (it : SerialIter) : result SerialIter :=
  if remain_ it <? u64 len then Throw (runtime_error "invalid SerialIter skip")
  else Ok (advance (Z.to_nat len) it).2.

Definition get8 (it : SerialIter) : result (Z * SerialIter) :=
  if remain_ it <? 1 then Throw (runtime_error "invalid SerialIter get8")
  else let '(t, it') := advance 1 it in Ok (be_int t, it').

Definition nth_byte (t : list Z) (i : nat) : Z := t !!! i.

Definition get16 (it : SerialIter) : result (Z * SerialIter) :=
  if remain_ it <? 2 then Throw (runtime_error "invalid SerialIter get16")
  else let '(t, it') := advance 2 it in
       Ok (u16 (Z.shiftl (nth_byte t 0) 8 + nth_byte t 1), it').

Definition get32 (it : SerialIter) : result (Z * SerialIter) :=
  if remain_ it <? 4 then Throw (runtime_error "invalid SerialIter get32")
  else let '(t, it') := advance 4 it in
       Ok (u32 (Z.shiftl (nth_byte t 0) 24 + Z.shiftl (nth_byte t 1) 16 +
                Z.shiftl (nth_byte t 2) 8 + nth_byte t 3), it').

Definition get64 (it : SerialIter) : result (Z * SerialIter) :=
  if remain_ it <? 8 then Throw (runtime_error "invalid SerialIter get64")
  else let '(t, it') := advance 8 it in
       Ok (u64 (Z.shiftl (nth_byte t 0) 56 + Z.shiftl (nth_byte t 1) 48 +
                Z.shiftl (nth_byte t 2) 40 + Z.shiftl (nth_byte t 3) 32 +
                Z.shiftl (nth_byte t 4) 24 + Z.shiftl (nth_byte t 5) 16 +
                Z.shiftl (nth_byte t 6) 8 + nth_byte t 7), it').

(** [getBitString] for [8 * n] bits; [get128], [get160], [get256]. *)
Definition getBitString (n : nat) (it : SerialIter) : result (Z * SerialIter) :=
  if remain_ it <? Z.of_nat n then Throw (runtime_error "invalid SerialIter getBitString")
  else let '(t, it') := advance n it in Ok (be_int t, it').

Definition getFieldID (it : SerialIter) : result (Z * Z * SerialIter) :=
  let* (b, it) := get8 it in
  let name := Z.land b 15 in
  let type := Z.shiftr b 4 in
  let* (type, it) :=
    if type =? 0 then
      let* (t, it) := get8 it in
      if (t =? 0) || (t <? 16)
      then Throw (runtime_error "gFID: uncommon type out of range")
      else Ok (t, it)
    else Ok (type, it) in
  let* (name, it) :=
    if name =? 0 then
      let* (n, it) := get8 it in
      if (n =? 0) || (n <? 16)
      then Throw (runtime_error "gFID: uncommon name out of range")
      else Ok (n, it)
    else Ok (name, it) in
  Ok (type, name, it).

(** [getRawHelper], behind [getRaw] and [getVLBuffer]. *)
Definition getRawHelper (size : Z) (it : SerialIter) : result (list Z * SerialIter) :=
  if remain_ it <? u64 size then Throw (runtime_error "invalid SerialIter getRaw")
  else Ok (advance (Z.to_nat size) it).

Definition getSlice (bytes : Z) (it : SerialIter) : result (list Z * SerialIter) :=
  if remain_ it <? bytes then Throw (runtime_error "invalid SerialIter getSlice")
  else Ok (advance (Z.to_nat bytes) it).

Definition getVLDataLength (it : SerialIter) : result (Z * SerialIter) :=
  let* (b1, it) := get8 it in
  let* lenLen := decodeLengthLength b1 in
  if lenLen =? 1 then
    let* datLen := decodeVLLength1 b1 in Ok (datLen, it)
  else if lenLen =? 2 then
    let* (b2, it) := get8 it in
    let* datLen := decodeVLLength2 b1 b2 in Ok (datLen, it)
  else
    let* (b2, it) := get8 it in
    let* (b3, it) := get8 it in
    let* datLen := decodeVLLength3 b1 b2 b3 in Ok (datLen, it).

Definition getVL (it : SerialIter) : result (list Z * SerialIter) :=
  let* (len, it) := getVLDataLength it in getRawHelper len it.

(** ** Reading what was written *)

Lemma advance_app n bs pre post :
  length bs = n →
  advance n (mkIter pre (bs ++ post)) = (bs, mkIter (pre ++ bs) post).
Proof.
  intros <-. unfold advance; simpl.
  by rewrite take_app_length, drop_app_length.
Qed.

Lemma remain_app pre bs post :
  remain_ (mkIter pre (bs ++ post)) = Z.of_nat (length bs) + Z.of_nat (length post).
Proof. unfold remain_; simpl. rewrite length_app. lia. Qed.

Lemma get8_cons pre b post : get8 (mkIter pre (b :: post)) = Ok (b, mkIter (pre ++ [b]) post).
Proof.
  unfold get8, remain_; simpl. destruct (Z.ltb_spec (Z.of_nat (S (length post))) 1); [lia|].
  by rewrite Z.mul_1_r, Z.add_0_r.
Qed.

Lemma get8_nil pre : get8 (mkIter pre []) = Throw (runtime_error "invalid SerialIter get8").
Proof. done. Qed.

Lemma getBitString_app n pre v post :
  0 ≤ v < 256 ^ Z.of_nat n →
  getBitString n (mkIter pre (be_bytes n v ++ post)) =
    Ok (v, mkIter (pre ++ be_bytes n v) post).
Proof.
  intros Hv. unfold getBitString. rewrite remain_app, length_be_bytes.
  destruct (Z.ltb_spec (Z.of_nat n + Z.of_nat (length post)) (Z.of_nat n)); [lia|].
  rewrite advance_app by apply length_be_bytes.
  by rewrite be_int_be_bytes, Z.mod_small.
Qed.

(** The integer writers produce the big-endian bytes. *)
Lemma shiftr_byte z k n :
  8 * Z.of_nat k = n → byte (Z.land (Z.shiftr z n) 0xff) = u8 (z / 256 ^ Z.of_nat k).
Proof.
  intros <-. unfold byte. change 0xff with (Z.ones 8). rewrite Z.land_ones by lia.
  unfold u8, uwrap. rewrite Z.mod_mod by lia. f_equal.
  rewrite Z.shiftr_div_pow2, Z.pow_mul_r by lia. done.
Qed.

Lemma shiftr_top z k n :
  8 * Z.of_nat k = n → byte (Z.shiftr z n) = u8 (z / 256 ^ Z.of_nat k).
Proof. intros <-. unfold byte. by rewrite Z.shiftr_div_pow2, Z.pow_mul_r by lia. Qed.

Lemma land_byte z : byte (Z.land z 0xff) = u8 (z / 256 ^ Z.of_nat 0).
Proof. rewrite <- (shiftr_byte z 0 0) by done. by rewrite Z.shiftr_0_r. Qed.

Lemma add16_be s i : add16 s i = s ++ be_bytes 2 i.
Proof. unfold add16. by rewrite (shiftr_top i 1), land_byte. Qed.

Lemma add32_be s i : add32 s i = s ++ be_bytes 4 i.
Proof.
  unfold add32. rewrite (shiftr_top i 3), (shiftr_byte i 2), (shiftr_byte i 1), land_byte; done.
Qed.

Lemma add64_be s i : add64 s i = s ++ be_bytes 8 i.
Proof.
  unfold add64. rewrite (shiftr_top i 7), (shiftr_byte i 6), (shiftr_byte i 5), (shiftr_byte i 4),
    (shiftr_byte i 3), (shiftr_byte i 2), (shiftr_byte i 1), land_byte; done.
Qed.

(** Explicit sums of shifted bytes are big-endian integers. *)
Ltac byte_sum t :=
  do 9 try (destruct t as [|? t]; [try discriminate|try discriminate]);
  unfold nth_byte; cbn [lookup_total list_lookup_total be_int length];
  rewrite ?Z.shiftl_mul_pow2 by lia; lia.

Lemma sum16 t : length t = 2%nat → Z.shiftl (nth_byte t 0) 8 + nth_byte t 1 = be_int t.
Proof. intros H. byte_sum t. Qed.

Lemma sum32 t :
  length t = 4%nat →
  Z.shiftl (nth_byte t 0) 24 + Z.shiftl (nth_byte t 1) 16 + Z.shiftl (nth_byte t 2) 8 +
    nth_byte t 3 = be_int t.
Proof. intros H. byte_sum t. Qed.

Lemma sum64 t :
  length t = 8%nat →
  Z.shiftl (nth_byte t 0) 56 + Z.shiftl (nth_byte t 1) 48 + Z.shiftl (nth_byte t 2) 40 +
    Z.shiftl (nth_byte t 3) 32 + Z.shiftl (nth_byte t 4) 24 + Z.shiftl (nth_byte t 5) 16 +
    Z.shiftl (nth_byte t 6) 8 + nth_byte t 7 = be_int t.
Proof. intros H. byte_sum t. Qed.

Lemma ltb_add_nat a b : (Z.of_nat a + Z.of_nat b <? Z.of_nat a) = false.
Proof. apply Z.ltb_ge. pose proof (Nat2Z.is_nonneg b). lia. Qed.

Lemma get16_app pre v post :
  0 ≤ v < 2 ^ 16 →
  get16 (mkIter pre (be_bytes 2 v ++ post)) = Ok (v, mkIter (pre ++ be_bytes 2 v) post).
Proof.
  intros Hv. unfold get16. rewrite remain_app, length_be_bytes, (ltb_add_nat 2), advance_app,
    sum16, be_int_be_bytes, Z.mod_small by done. unfold u16. by rewrite uwrap_id.
Qed.

Lemma get32_app pre v post :
  0 ≤ v < 2 ^ 32 →
  get32 (mkIter pre (be_bytes 4 v ++ post)) = Ok (v, mkIter (pre ++ be_bytes 4 v) post).
Proof.
  intros Hv. unfold get32. rewrite remain_app, length_be_bytes, (ltb_add_nat 4), advance_app,
    sum32, be_int_be_bytes, Z.mod_small by done. by rewrite u32_id.
Qed.

Lemma get64_app pre v post :
  0 ≤ v < 2 ^ 64 →
  get64 (mkIter pre (be_bytes 8 v ++ post)) = Ok (v, mkIter (pre ++ be_bytes 8 v) post).
Proof.
  intros Hv. unfold get64. rewrite remain_app, length_be_bytes, (ltb_add_nat 8), advance_app,
    sum64, be_int_be_bytes, Z.mod_small by done. by rewrite u64_id.
Qed.

(** ** Field identifiers *)

Lemma land_15 b : Z.land b 15 = b mod 16.
Proof. apply (Z.land_ones b 4). lia. Qed.

Lemma shiftr_4 b : Z.shiftr b 4 = b / 16.
Proof. apply (Z.shiftr_div_pow2 b 4). lia. Qed.

(** The bytes of a field identifier. *)
Definition field_bytes (type name : Z) : list Z :=
  if type <? 16 then
    if name <? 16 then [type * 16 + name] else [type * 16; name]
  else if name <? 16 then [name; type] else [0; type; name].

Lemma addFieldID_bytes s type name :
  0 < type < 256 → 0 < name < 256 →
  addFieldID s type name = s ++ field_bytes type name.
Proof.
  intros Ht Hn. unfold addFieldID, field_bytes, byte.
  rewrite (Z.shiftl_mul_pow2 type 4) by lia. change (2 ^ 4) with 16.
  destruct (Z.ltb_spec type 16), (Z.ltb_spec name 16).
  - assert (Z.lor (type * 16) name = type * 16 + name) as -> by (apply (lor_shifted _ _ 4); lia).
    by autorewrite with wraps.
  - by autorewrite with wraps.
  - by autorewrite with wraps.
  - by autorewrite with wraps.
Qed.

Lemma field_nibbles a b : 0 ≤ b < 16 → (a * 16 + b) mod 16 = b ∧ (a * 16 + b) / 16 = a.
Proof.
  intros Hb. rewrite (Z.add_comm _ b), Z.mod_add, Z.div_add by lia.
  rewrite Z.mod_small, Z.div_small by lia. lia.
Qed.

Lemma getFieldID_app pre type name post :
  0 < type < 256 → 0 < name < 256 →
  getFieldID (mkIter pre (field_bytes type name ++ post)) =
    Ok (type, name, mkIter (pre ++ field_bytes type name) post).
Proof.
  intros Ht Hn. unfold field_bytes, getFieldID.
  destruct (Z.ltb_spec type 16), (Z.ltb_spec name 16); cbn [app]; rewrite get8_cons;
    cbn [rbind]; rewrite land_15, shiftr_4.
  - destruct (field_nibbles type name) as [-> ->]; [lia|].
    rewrite !(proj2 (Z.eqb_neq _ 0)) by lia. done.
  - destruct (field_nibbles type 0) as [E1 E2]; [lia|]. rewrite Z.add_0_r in *. rewrite E1, E2.
    rewrite (proj2 (Z.eqb_neq type 0)) by lia. cbn [rbind Z.eqb].
    rewrite get8_cons. cbn [rbind]. rewrite (proj2 (Z.eqb_neq name 0)), (proj2 (Z.ltb_ge name 16)) by lia.
    cbn [orb rbind]. by rewrite <- app_assoc.
  - rewrite Z.mod_small, Z.div_small by lia. cbn [Z.eqb]. rewrite get8_cons. cbn [rbind].
    rewrite (proj2 (Z.eqb_neq type 0)), (proj2 (Z.ltb_ge type 16)) by lia. cbn [orb rbind].
    rewrite (proj2 (Z.eqb_neq name 0)) by lia. cbn [rbind]. by rewrite <- app_assoc.
  - change (0 mod 16) with 0. change (0 / 16) with 0. cbn [Z.eqb]. rewrite get8_cons. cbn [rbind].
    rewrite (proj2 (Z.eqb_neq type 0)), (proj2 (Z.ltb_ge type 16)) by lia. cbn [orb rbind].
    rewrite get8_cons. cbn [rbind].
    rewrite (proj2 (Z.eqb_neq name 0)), (proj2 (Z.ltb_ge name 16)) by lia.
    cbn [orb rbind]. by rewrite <- !app_assoc.
Qed.

Lemma get8_inv it b it' :
  get8 it = Ok (b, it') → at_p it = b :: at_p it' ∧ read it' = read it ++ [b].
Proof.
  destruct it as [pre [|c post]]; [done|]. rewrite get8_cons. by intros [= <- <-].
Qed.

(** Only the encodings [addFieldID] writes are accepted. *)
Lemma getFieldID_inv it type name it' :
  bytes_ok (at_p it) → getFieldID it = Ok (type, name, it') →
  0 < type < 256 ∧ 0 < name < 256 ∧
  at_p it = field_bytes type name ++ at_p it' ∧ read it' = read it ++ field_bytes type name.
Proof.
  intros Hok H. unfold getFieldID in H.
  apply rbind_Ok_inv in H as ([b it1] & (E1 & R1)%get8_inv & H).
  rewrite land_15, shiftr_4 in H.
  rewrite E1 in Hok. apply Forall_cons in Hok as [Hb Hok1]. unfold is_byte in Hb.
  apply rbind_Ok_inv in H as ([t it2] & Ht & H).
  apply rbind_Ok_inv in H as ([n it3] & Hn & [= -> -> ->]).
  pose proof (Z.div_mod b 16 ltac:(lia)) as Hd. pose proof (Z.mod_pos_bound b 16 ltac:(lia)).
  assert (0 ≤ b / 16 < 16) by (split; [apply Z.div_pos|apply Z.div_lt_upper_bound]; lia).
  unfold field_bytes. destruct (Z.eqb_spec (b / 16) 0) as [Hz|Hz].
  - apply rbind_Ok_inv in Ht as ([t' it2'] & (E2 & R2)%get8_inv & Ht).
    rewrite E2 in Hok1. apply Forall_cons in Hok1 as [Hb2 Hok2]. unfold is_byte in Hb2.
    destruct (_ || _) eqn:Hr in Ht; [done|]. injection Ht as -> ->.
    destruct (Z.ltb_spec type 16); [lia|]. destruct (Z.eqb_spec (b mod 16) 0) as [Hm|Hm].
    + apply rbind_Ok_inv in Hn as ([n' it3'] & (E3 & R3)%get8_inv & Hn).
      rewrite E3 in Hok2. apply Forall_cons in Hok2 as [Hb3 _]. unfold is_byte in Hb3.
      destruct (_ || _) eqn:Hr' in Hn; [done|]. injection Hn as -> ->.
      destruct (Z.ltb_spec name 16); [lia|].
      rewrite E1, E2, E3, R3, R2, R1. replace b with 0 by lia. rewrite <- !app_assoc. split_and!; done || lia.
    + injection Hn as <- <-. destruct (Z.ltb_spec (b mod 16) 16); [|lia].
      rewrite E1, E2, R2, R1, <- app_assoc. replace (b mod 16) with b by lia. split_and!; done || lia.
  - injection Ht as <- <-. destruct (Z.ltb_spec (b / 16) 16); [|lia].
    destruct (Z.eqb_spec (b mod 16) 0) as [Hm|Hm].
    + apply rbind_Ok_inv in Hn as ([n' it3'] & (E3 & R3)%get8_inv & Hn).
      rewrite E3 in Hok1. apply Forall_cons in Hok1 as [Hb3 _]. unfold is_byte in Hb3.
      destruct (_ || _) eqn:Hr' in Hn; [done|]. injection Hn as -> ->.
      destruct (Z.ltb_spec name 16); [lia|].
      rewrite E1, E3, R3, R1, <- app_assoc. replace (b / 16 * 16) with b by lia.
      split_and!; done || lia.
    + injection Hn as <- <-. destruct (Z.ltb_spec (b mod 16) 16); [|lia].
      rewrite E1, R1. replace (b / 16 * 16 + b mod 16) with b by lia. split_and!; done || lia.
Qed.

(** The offset based reader agrees with the iterator. *)
Lemma ser_get8 pre post :
  Ser.get8 (pre ++ post) (length pre) = head post.
Proof.
  unfold Ser.get8, Serializer. rewrite lookup_app_r, Nat.sub_diag by lia. by destruct post.
Qed.

Lemma ser_get8_S pre b post : Ser.get8 (pre ++ b :: post) (S (length pre)) = head post.
Proof.
  rewrite (cons_middle b pre post), (app_assoc pre [b] post).
  replace (S (length pre)) with (length (pre ++ [b])) by (rewrite length_app; simpl; lia).
  apply ser_get8.
Qed.

Lemma ser_get8_SS pre b c post : Ser.get8 (pre ++ b :: c :: post) (S (S (length pre))) = head post.
Proof.
  rewrite (cons_middle b pre (c :: post)), (app_assoc pre [b] (c :: post)).
  replace (S (length pre)) with (length (pre ++ [b])) by (rewrite length_app; simpl; lia).
  apply ser_get8_S.
Qed.

Lemma ser_getFieldID pre type name post :
  0 < type < 256 → 0 < name < 256 →
  Ser.getFieldID (pre ++ field_bytes type name ++ post) (length pre) = Some (type, name).
Proof.
  intros Ht Hn. unfold field_bytes, Ser.getFieldID.
  destruct (Z.ltb_spec type 16), (Z.ltb_spec name 16); cbn [app];
    rewrite ser_get8; cbn [head mbind option_bind]; rewrite land_15, shiftr_4.
  - destruct (field_nibbles type name) as [-> ->]; [lia|].
    rewrite !(proj2 (Z.eqb_neq _ 0)) by lia. done.
  - destruct (field_nibbles type 0) as [E1 E2]; [lia|]. rewrite Z.add_0_r in *. rewrite E1, E2.
    rewrite (proj2 (Z.eqb_neq type 0)) by lia. cbn [Z.eqb mbind option_bind].
    rewrite ser_get8_S. cbn [head mbind option_bind].
    by rewrite (proj2 (Z.eqb_neq name 0)), (proj2 (Z.ltb_ge name 16)) by lia.
  - rewrite Z.mod_small, Z.div_small by lia. cbn [Z.eqb]. rewrite ser_get8_S.
    cbn [head mbind option_bind].
    rewrite (proj2 (Z.eqb_neq type 0)), (proj2 (Z.ltb_ge type 16)) by lia.
    cbn [orb mbind option_bind]. by rewrite (proj2 (Z.eqb_neq name 0)) by lia.
  - change (0 mod 16) with 0. change (0 / 16) with 0. cbn [Z.eqb]. rewrite ser_get8_S.
    cbn [head mbind option_bind].
    rewrite (proj2 (Z.eqb_neq type 0)), (proj2 (Z.ltb_ge type 16)) by lia.
    cbn [orb mbind option_bind]. rewrite ser_get8_SS. cbn [head mbind option_bind].
    by rewrite (proj2 (Z.eqb_neq name 0)), (proj2 (Z.ltb_ge name 16)) by lia.
Qed.

(** ** Variable length prefixes *)

Definition vl_bytes (len : Z) : list Z :=
  if len <=? 192 then [len]
  else if len <=? 12480 then [193 + (len - 193) / 256; (len - 193) mod 256]
  else [241 + (len - 12481) / 65536; (len - 12481) / 256 mod 256; (len - 12481) mod 256].

Lemma land_ff z : byte (Z.land z 0xff) = z mod 256.
Proof.
  unfold byte. change 0xff with (Z.ones 8). rewrite Z.land_ones by lia.
  rewrite u8_id; [done|]. apply Z.mod_pos_bound. done.
Qed.

Lemma addEncoded_bytes s len :
  0 ≤ len → addEncoded s len =
    if len <=? 918744 then Ok (s ++ vl_bytes len) else Throw (overflow_error "lenlen").
Proof.
  intros Hl. unfold addEncoded, vl_bytes.
  destruct (Z.leb_spec len 192) as [H1|H1].
  { destruct (Z.leb_spec len 918744); [|lia]. unfold byte. by rewrite u8_id by lia. }
  destruct (Z.leb_spec len 12480) as [H2|H2].
  { destruct (Z.leb_spec len 918744); [|lia]. rewrite land_ff.
    rewrite Z.shiftr_div_pow2 by lia. change (2 ^ 8) with 256.
    assert (0 ≤ (len - 193) / 256 < 48)
      by (split; [apply Z.div_pos|apply Z.div_lt_upper_bound]; lia).
    unfold byte. by rewrite !u8_id by (rewrite ?u8_id; lia). }
  destruct (Z.leb_spec len 918744) as [H3|H3]; [|done].
  rewrite !land_ff, !Z.shiftr_div_pow2 by lia.
  change (2 ^ 16) with 65536. change (2 ^ 8) with 256.
  assert (0 ≤ (len - 12481) / 65536 < 14)
    by (split; [apply Z.div_pos|apply Z.div_lt_upper_bound]; lia).
  unfold byte. by rewrite !u8_id by (rewrite ?u8_id; lia).
Qed.

Lemma decode_three l :
  (241 + l / 65536 - 241) * 65536 + l / 256 mod 256 * 256 + l mod 256 = l.
Proof.
  pose proof (Z.div_mod l 256). pose proof (Z.div_mod (l / 256) 256).
  rewrite Z.div_div in * by lia. change (256 * 256) with 65536 in *. lia.
Qed.

Lemma getVLDataLength_app pre len post :
  0 ≤ len ≤ 918744 →
  getVLDataLength (mkIter pre (vl_bytes len ++ post)) =
    Ok (len, mkIter (pre ++ vl_bytes len) post).
Proof.
  intros Hl. unfold getVLDataLength, vl_bytes, decodeLengthLength.
  destruct (Z.leb_spec len 192) as [H1|H1]; [|destruct (Z.leb_spec len 12480) as [H2|H2]];
    cbn [app]; rewrite get8_cons; cbn [rbind].
  - rewrite (proj2 (Z.ltb_ge len 0)), (proj2 (Z.leb_le len 192)) by lia. cbn [rbind Z.eqb Pos.eqb].
    unfold decodeVLLength1. rewrite (proj2 (Z.ltb_ge len 0)), (proj2 (Z.ltb_ge 254 len)) by lia.
    done.
  - assert (0 ≤ (len - 193) / 256 < 48) as Hq
      by (split; [apply Z.div_pos|apply Z.div_lt_upper_bound]; lia).
    pose proof (Z.div_mod (len - 193) 256 ltac:(lia)).
    set (b1 := 193 + (len - 193) / 256) in *.
    rewrite (proj2 (Z.ltb_ge b1 0)), (proj2 (Z.leb_gt b1 192)), (proj2 (Z.leb_le b1 240)) by lia.
    cbn [rbind Z.eqb Pos.eqb]. rewrite get8_cons. cbn [rbind]. unfold decodeVLLength2.
    rewrite (proj2 (Z.ltb_ge b1 193)), (proj2 (Z.ltb_ge 240 b1)) by lia. cbn [rbind].
    rewrite <- app_assoc. do 2 f_equal. lia.
  - assert (0 ≤ (len - 12481) / 65536 < 14) as Hq
      by (split; [apply Z.div_pos|apply Z.div_lt_upper_bound]; lia).
    pose proof (decode_three (len - 12481)). set (b1 := 241 + (len - 12481) / 65536) in *.
    rewrite (proj2 (Z.ltb_ge b1 0)), (proj2 (Z.leb_gt b1 192)), (proj2 (Z.leb_gt b1 240)),
      (proj2 (Z.leb_le b1 254)) by lia.
    cbn [rbind Z.eqb Pos.eqb]. rewrite get8_cons. cbn [rbind]. rewrite get8_cons. cbn [rbind].
    unfold decodeVLLength3.
    rewrite (proj2 (Z.ltb_ge b1 241)), (proj2 (Z.ltb_ge 254 b1)) by lia. cbn [rbind].
    rewrite <- !app_assoc. do 2 f_equal. lia.
Qed.

Lemma getRawHelper_app pre bs post :
  Z.of_nat (length bs) < 2 ^ 64 →
  getRawHelper (Z.of_nat (length bs)) (mkIter pre (bs ++ post)) =
    Ok (bs, mkIter (pre ++ bs) post).
Proof.
  intros Hl. unfold getRawHelper. autorewrite with wraps.
  rewrite remain_app, ltb_add_nat, Nat2Z.id. by rewrite advance_app.
Qed.

(** A decoded length is the one whose prefix was read. *)
Lemma getVLDataLength_inv it len it' :
  bytes_ok (at_p it) → getVLDataLength it = Ok (len, it') →
  0 ≤ len ≤ 929984 ∧ at_p it = vl_bytes len ++ at_p it' ∧ read it' = read it ++ vl_bytes len.
Proof.
  intros Hok H. unfold getVLDataLength, decodeLengthLength in H.
  apply rbind_Ok_inv in H as ([b1 it1] & (E1 & R1)%get8_inv & H).
  rewrite E1 in Hok. apply Forall_cons in Hok as [Hb1 Hok1]. unfold is_byte in Hb1.
  destruct (Z.ltb_spec b1 0); [lia|]. unfold vl_bytes.
  destruct (Z.leb_spec b1 192); [|destruct (Z.leb_spec b1 240); [|destruct (Z.leb_spec b1 254); [|done]]];
    cbn [rbind Z.eqb Pos.eqb] in H.
  - apply rbind_Ok_inv in H as (l & Hl & [= -> ->]). unfold decodeVLLength1 in Hl.
    assert (len = b1) as -> by (destruct (b1 <? 0), (254 <? b1); congruence).
    rewrite (proj2 (Z.leb_le b1 192)) by lia. split_and!; done || lia.
  - apply rbind_Ok_inv in H as ([b2 it2] & (E2 & R2)%get8_inv & H).
    rewrite E2 in Hok1. apply Forall_cons in Hok1 as [Hb2 _]. unfold is_byte in Hb2.
    apply rbind_Ok_inv in H as (l & Hl & [= -> ->]). unfold decodeVLLength2 in Hl.
    assert (len = 193 + (b1 - 193) * 256 + b2) as ->
      by (destruct (b1 <? 193), (240 <? b1); congruence).
    rewrite (proj2 (Z.leb_gt _ 192)), (proj2 (Z.leb_le _ 12480)) by lia.
    replace (193 + (b1 - 193) * 256 + b2 - 193) with (b2 + (b1 - 193) * 256) by lia.
    rewrite Z.div_add, Z.mod_add, Z.div_small, Z.mod_small by lia.
    rewrite E1, E2, R2, R1, <- app_assoc. replace (193 + (0 + (b1 - 193))) with b1 by lia.
    split_and!; done || lia.
  - apply rbind_Ok_inv in H as ([b2 it2] & (E2 & R2)%get8_inv & H).
    rewrite E2 in Hok1. apply Forall_cons in Hok1 as [Hb2 Hok2]. unfold is_byte in Hb2.
    apply rbind_Ok_inv in H as ([b3 it3] & (E3 & R3)%get8_inv & H).
    rewrite E3 in Hok2. apply Forall_cons in Hok2 as [Hb3 _]. unfold is_byte in Hb3.
    apply rbind_Ok_inv in H as (l & Hl & [= -> ->]). unfold decodeVLLength3 in Hl.
    assert (len = 12481 + (b1 - 241) * 65536 + b2 * 256 + b3) as ->
      by (destruct (b1 <? 241), (254 <? b1); congruence).
    rewrite (proj2 (Z.leb_gt _ 192)), (proj2 (Z.leb_gt _ 12480)) by lia.
    set (l := 12481 + (b1 - 241) * 65536 + b2 * 256 + b3 - 12481).
    assert (l / 65536 = b1 - 241) as -> by (symmetry; apply (Z.div_unique l _ _ (b2 * 256 + b3)); lia).
    assert (l / 256 = (b1 - 241) * 256 + b2) as ->
      by (symmetry; apply (Z.div_unique l _ _ b3); lia).
    assert (l mod 256 = b3) as ->
      by (symmetry; apply (Z.mod_unique l _ ((b1 - 241) * 256 + b2)); lia).
    rewrite (Z.add_comm ((b1 - 241) * 256) b2), Z.mod_add, Z.mod_small by lia.
    rewrite E1, E2, E3, R3, R2, R1, <- !app_assoc. replace (241 + (b1 - 241)) with b1 by lia.
    split_and!; done || lia.
Qed.

(** Reading consumes exactly the bytes of the value. *)
Definition consumes (it it' : SerialIter) (bs : list Z) : Prop :=
  at_p it = bs ++ at_p it' ∧ read it' = read it ++ bs.

Lemma advance_consumes n it :
  consumes it (advance n it).2 (take n (at_p it)).
Proof. split; [|done]. simpl. by rewrite take_drop. Qed.

Lemma consumes_bytes_ok it it' bs : consumes it it' bs → bytes_ok (at_p it) → bytes_ok (at_p it').
Proof. intros [-> _] [_ ?]%Forall_app. done. Qed.

Lemma consumes_trans it1 it2 it3 bs bs' :
  consumes it1 it2 bs → consumes it2 it3 bs' → consumes it1 it3 (bs ++ bs').
Proof. intros [E1 R1] [E2 R2]. split; [rewrite E1, E2|rewrite R2, R1]; by rewrite app_assoc. Qed.

Lemma take_be_bytes n bs :
  bytes_ok bs → (n ≤ length bs)%nat →
  take n bs = be_bytes n (be_int (take n bs)) ∧ 0 ≤ be_int (take n bs) < 256 ^ Z.of_nat n.
Proof.
  intros Hok Hn. assert (bytes_ok (take n bs)) by by apply Forall_take.
  assert (length (take n bs) = n) as Hl by (rewrite length_take; lia).
  split; [by rewrite be_bytes_be_int|]. rewrite <- Hl at 3. by apply be_int_range.
Qed.

Lemma get64_inv it v it' :
  bytes_ok (at_p it) → get64 it = Ok (v, it') → 0 ≤ v < 2 ^ 64 ∧ consumes it it' (be_bytes 8 v).
Proof.
  intros Hok. unfold get64, remain_.
  destruct (Z.ltb_spec (Z.of_nat (length (at_p it))) 8) as [|Hl]; [done|].
  destruct (take_be_bytes 8 (at_p it) Hok ltac:(lia)) as [Ht Hr].
  pose proof (advance_consumes 8 it) as Hc. destruct (advance 8 it) as [t it1] eqn:E.
  injection E as <- <-. cbn [snd] in Hc. rewrite sum64 by (rewrite length_take; lia).
  rewrite u64_id by done. intros [= <- <-]. split; [done|]. by rewrite <- Ht.
Qed.

Lemma getBitString_inv n it v it' :
  bytes_ok (at_p it) → getBitString n it = Ok (v, it') →
  0 ≤ v < 256 ^ Z.of_nat n ∧ consumes it it' (be_bytes n v).
Proof.
  intros Hok. unfold getBitString, remain_.
  destruct (Z.ltb_spec (Z.of_nat (length (at_p it))) (Z.of_nat n)) as [|Hl]; [done|].
  destruct (take_be_bytes n (at_p it) Hok ltac:(lia)) as [Ht Hr].
  pose proof (advance_consumes n it) as Hc. unfold advance in *. cbn [snd] in Hc.
  intros [= <- <-]. split; [done|]. by rewrite <- Ht.
Qed.

(** ** Properties *)

(** A record of integers and a hash written one after the other with the
    [Serializer] is read back by a [SerialIter], which is empty afterwards and
    resets to the whole buffer. *)
Theorem serializer_integers b8 b16 b32 b64 h :
  0 ≤ b8 < 256 → 0 ≤ b16 < 2 ^ 16 → 0 ≤ b32 < 2 ^ 32 → 0 ≤ b64 < 2 ^ 64 → 0 ≤ h < 2 ^ 256 →
  let s := addBitString 32 (add64 (add32 (add16 (add8 [] b8) b16) b32) b64) h in
  (let* (x8, it) := get8 (iter s) in
   let* (x16, it) := get16 it in
   let* (x32, it) := get32 it in
   let* (x64, it) := get64 it in
   let* (xh, it) := getBitString 32 it in
   Ok (x8, x16, x32, x64, xh, empty it, at_p (reset it))) = Ok (b8, b16, b32, b64, h, true, s).
Proof.
  intros H8 H16 H32 H64 Hh. cbn zeta. unfold addBitString, add8, iter.
  rewrite add64_be, add32_be, add16_be. cbn [app]. rewrite get8_cons. cbn [rbind].
  rewrite <- !app_assoc. rewrite get16_app by done. cbn [rbind].
  rewrite get32_app by done. cbn [rbind]. rewrite get64_app by done. cbn [rbind].
  rewrite <- (app_nil_r (be_bytes 32 h)) at 1. rewrite getBitString_app by done. cbn [rbind].
  unfold reset; cbn [read at_p]. rewrite app_nil_r, <- !app_assoc. done.
Qed.

Lemma serializer_integers_witness :
  (let* (x8, it) := get8 (iter (addBitString 32 (add64 (add32 (add16 (add8 [] 7) 300) 70000) 5000000000) 9)) in
   let* (x16, it) := get16 it in
   let* (x32, it) := get32 it in
   let* (x64, it) := get64 it in
   let* (xh, it) := getBitString 32 it in
   Ok (x8, x16, x32, x64, xh, empty it, at_p (reset it))) =
  Ok (7, 300, 70000, 5000000000, 9, true,
      addBitString 32 (add64 (add32 (add16 (add8 [] 7) 300) 70000) 5000000000) 9).
Proof. apply (serializer_integers 7 300 70000 5000000000 9); lia. Defined.

(** A field identifier written by [addFieldID] is read back by both readers,
    from any position and whatever follows; and the iterator accepts only
    identifiers in the form [addFieldID] writes, so the encoding is unique. *)
Theorem fieldID_roundtrip s type name post :
  0 < type < 256 → 0 < name < 256 →
  (∃ bs, addFieldID s type name = s ++ bs ∧
     getFieldID (mkIter s (bs ++ post)) = Ok (type, name, mkIter (s ++ bs) post) ∧
     Ser.getFieldID (addFieldID s type name ++ post) (length s) = Some (type, name)) ∧
  ∀ it type' name' it',
    bytes_ok (at_p it) → getFieldID it = Ok (type', name', it') →
    addFieldID (read it) type' name' = read it' ∧ at_p (reset it') = at_p (reset it).
Proof.
  intros Ht Hn. split.
  - exists (field_bytes type name). rewrite addFieldID_bytes, <- app_assoc by done.
    split_and!; [done|by apply getFieldID_app|by apply ser_getFieldID].
  - intros it type' name' it' Hok H. apply getFieldID_inv in H as (Ht' & Hn' & Ha & Hr); [|done].
    rewrite addFieldID_bytes by done. unfold reset; cbn [at_p]. rewrite Hr, Ha.
    split; [done|]. by rewrite <- app_assoc.
Qed.

Lemma fieldID_roundtrip_witness :
  getFieldID (mkIter [1] ([0; 16; 200] ++ [9])) = Ok (16, 200, mkIter ([1] ++ [0; 16; 200]) [9]).
Proof.
  destruct (fieldID_roundtrip [1] 16 200 [9]) as [(bs & E & H & _) _]; [lia|lia|].
  injection E as <-. exact H.
Defined.

(** A blob of at most 918744 bytes written by [addVL] is read back by
    [SerialIter::getVL], whatever follows; a longer one is refused with
    [std::overflow_error].  The length prefix the iterator accepts is the one
    [addEncoded] writes for the decoded length, when that length is
    encodable. *)
Theorem vl_roundtrip s bs post :
  Z.of_nat (length bs) < 2 ^ 31 →
  (if Z.of_nat (length bs) <=? 918744 then
     ∃ enc, addVL s bs = Ok (s ++ enc) ∧
       getVL (mkIter s (enc ++ post)) = Ok (bs, mkIter (s ++ enc) post)
   else addVL s bs = Throw (overflow_error "lenlen")) ∧
  ∀ it len it',
    bytes_ok (at_p it) → getVLDataLength it = Ok (len, it') →
    (len ≤ 918744 → addEncoded (read it) len = Ok (read it')) ∧ 0 ≤ len ≤ 929984.
Proof.
  intros Hbs. split.
  - unfold addVL. rewrite addEncoded_bytes by lia.
    destruct (Z.leb_spec (Z.of_nat (length bs)) 918744) as [Hle|]; [|done].
    exists (vl_bytes (Z.of_nat (length bs)) ++ bs). cbn [rbind]. unfold addRaw.
    rewrite <- app_assoc. split; [done|]. unfold getVL.
    rewrite <- app_assoc, getVLDataLength_app by lia. cbn [rbind].
    rewrite getRawHelper_app by lia. by rewrite <- app_assoc.
  - intros it len it' Hok H. apply getVLDataLength_inv in H as (Hlen & Ha & Hr); [|done].
    split; [|done]. intros Hle. rewrite addEncoded_bytes, Hr by lia.
    by rewrite (proj2 (Z.leb_le _ _)).
Qed.

Lemma vl_roundtrip_witness :
  ∃ enc, addVL [5] [1; 2; 3] = Ok ([5] ++ enc) ∧
    getVL (mkIter [5] (enc ++ [4])) = Ok ([1; 2; 3], mkIter ([5] ++ enc) [4]).
Proof.
  apply (vl_roundtrip [5] [1; 2; 3] [4]). reflexivity.
Defined.

(** [Serializer::getVL] and [Serializer::getVLLength] throw
    [std::overflow_error] when the first length byte is 255, although they
    report every other malformed prefix by returning false: the call of
    [decodeLengthLength] stands before the [try] block. *)
Theorem ser_getVL_throws pre post :
  Ser.getVL (pre ++ 255 :: post) (length pre) = Throw (overflow_error "b1>254") ∧
  Ser.getVLLength (pre ++ 255 :: post) (length pre) = Throw (overflow_error "b1>254").
Proof. unfold Ser.getVL, Ser.getVLLength, vl_prefix. by rewrite ser_get8. Qed.

End Iter.
