(* ===== verification/STAmountWire.v ===== *)
(** * The wire form of amounts

    [STAmount::add] and the deserialising constructor of
    protocol/impl/STAmount.cpp. *)

From S2P Require Import Prelude Issue Decimal IOUAmount STAmount STAmountFacts Serializer SerialIter.
Import Amt AmtFacts Ser Iter.

Module Wire.

(** The word [add] writes first. *)
Definition word (a : STAmount) : Z :=
  if mIsNative a then
    if negb (mIsNegative a) then
      if amt_isVBC a then Z.lor (Z.lor (mValue a) cVBCNative) cPosNative
      else Z.lor (mValue a) cPosNative
    else
      if amt_isVBC a then Z.lor (mValue a) cVBCNative
      else mValue a
  else if is_zero a then cNotNative
  else if mIsNegative a then
    Z.lor (mValue a) (u64 (Z.shiftl (u64 (mOffset a + 512 + 97)) (64 - 10)))
  else
    Z.lor (mValue a) (u64 (Z.shiftl (u64 (mOffset a + 512 + 256 + 97)) (64 - 10))).

Definition add (a : STAmount) (s : Serializer) : Serializer :=
  let s := add64 s (word a) in
  if mIsNative a then s
  else addBitString 20 (addBitString 20 s (currency (mIssue a))) (account (mIssue a)).

(** [STAmount (SerialIter&, SField const&)]; the issue of a native amount
    without the VBC bit is the default one. *)
Definition of_wire (it : SerialIter) : result (STAmount * SerialIter) :=
  let* (value, it) := get64 it in
  if Z.land value cNotNative =? 0 then
    let vbc := negb (Z.land value cVBCNative =? 0) in
    let issue := if vbc then vbcIssue else mkIssue 0 0 in
    let value := if vbc then Z.land value (u64 (Z.lnot cVBCNative)) else value in
    if negb (Z.land value cPosNative =? 0) then
      Ok (mkAmt issue (Z.land value (u64 (Z.lnot cPosNative))) 0 true false, it)
    else if value =? 0 then Throw (runtime_error "negative zero is not canonical")
    else Ok (mkAmt issue value 0 true true, it)
  else
    let* (c, it) := getBitString 20 it in
    if isNative c then Throw (runtime_error "invalid native currency") else
    let* (acc, it) := getBitString 20 it in
    if isNative acc then Throw (runtime_error "invalid native account") else
    let issue := mkIssue c acc in
    let offset := i32 (Z.shiftr value (64 - 10)) in
    let value := Z.land value (u64 (Z.lnot (Z.shiftl 1023 (64 - 10)))) in
    if negb (value =? 0) then
      let isNegative := Z.land offset 256 =? 0 in
      let offset := Z.land offset 255 - 97 in
      if (value <? cMinValue) || (cMaxValue <? value) ||
         (offset <? cMinOffset) || (cMaxOffset <? offset)
      then Throw (runtime_error "invalid currency value")
      else let* a := canonicalize (mkAmt issue value offset false isNegative) in Ok (a, it)
    else if negb (offset =? 512) then Throw (runtime_error "invalid currency value")
    else let* a := canonicalize (mkAmt issue 0 0 false false) in Ok (a, it).

(** ** The fields of the word *)

Definition native_word (pos vbc : bool) (m : Z) : Z :=
  Z.b2z pos * 2 ^ 62 + (Z.b2z vbc * 2 ^ 61 + m).

Definition issued_word (pos : bool) (o m : Z) : Z :=
  (512 + 256 * Z.b2z pos + (o + 97)) * 2 ^ 54 + m.

Lemma word_native a :
  mIsNative a = true → 0 ≤ mValue a < 2 ^ 61 →
  word a = native_word (negb (mIsNegative a)) (amt_isVBC a) (mValue a).
Proof.
  intros Hn Hv. unfold word, native_word, cVBCNative, cPosNative. rewrite Hn.
  change 0x4000000000000000 with (1 * 2 ^ 62). change 0x2000000000000000 with (1 * 2 ^ 61).
  destruct (mIsNegative a), (amt_isVBC a); cbn [negb Z.b2z];
    rewrite ?(Z.lor_comm (mValue a)), ?(lor_shifted 1 (mValue a) 61) by lia;
    rewrite ?(Z.lor_comm _ (1 * 2 ^ 62)), ?lor_shifted by lia; lia.
Qed.

Lemma word_issued a :
  mIsNative a = false → canonical (mValue a) (mOffset a) →
  word a = issued_word (negb (mIsNegative a)) (mOffset a) (mValue a).
Proof.
  intros Hn [Hv Ho]. dec_consts. unfold word. rewrite Hn, is_zero_value.
  destruct (Z.eqb_spec (mValue a) 0); [lia|]. change (64 - 10) with 54.
  assert (∀ x, 0 ≤ x < 1024 →
    Z.lor (mValue a) (u64 (Z.shiftl (u64 x) 54)) = x * 2 ^ 54 + mValue a) as Hx.
  { intros x Hx. rewrite (u64_id x), Z.shiftl_mul_pow2, u64_id by lia.
    rewrite Z.lor_comm. apply lor_shifted; lia. }
  unfold issued_word. destruct (mIsNegative a); cbn [negb Z.b2z]; rewrite Hx by lia; lia.
Qed.

Lemma land_test v k : 0 ≤ k → (Z.land v (2 ^ k) =? 0) = negb (Z.testbit v k).
Proof.
  intros Hk. rewrite land_pow2 by done. pose proof (Z.pow_pos_nonneg 2 k ltac:(lia) Hk).
  destruct (Z.testbit v k); [|done]. by apply Z.eqb_neq; lia.
Qed.

Lemma odd_b2z b : Z.odd (Z.b2z b) = b.
Proof. by destruct b. Qed.

Lemma native_word_bits pos vbc m :
  0 ≤ m < 2 ^ 61 →
  0 ≤ native_word pos vbc m < 2 ^ 63 ∧
  Z.testbit (native_word pos vbc m) 61 = vbc ∧ Z.testbit (native_word pos vbc m) 62 = pos.
Proof.
  intros Hm. unfold native_word. split_and!.
  - destruct pos, vbc; simpl; lia.
  - destruct pos, vbc; simpl; lia.
  - rewrite testbit_low, testbit_split by lia. apply odd_b2z.
  - rewrite testbit_split by (destruct vbc; simpl; lia). apply odd_b2z.
Qed.

Definition native_issue (vbc : bool) : Issue := if vbc then vbcIssue else xrpIssue.

Lemma of_wire_native it it' pos vbc m :
  get64 it = Ok (native_word pos vbc m, it') → 0 ≤ m < 2 ^ 61 →
  of_wire it =
    if pos then Ok (mkAmt (native_issue vbc) m 0 true false, it')
    else if m =? 0 then Throw (runtime_error "negative zero is not canonical")
    else Ok (mkAmt (native_issue vbc) m 0 true true, it').
Proof.
  intros Hg Hm. unfold of_wire. rewrite Hg. cbn [rbind].
  destruct (native_word_bits pos vbc m Hm) as (Hr & H61 & H62).
  change cNotNative with (2 ^ 63). change cVBCNative with (2 ^ 61). change cPosNative with (2 ^ 62).
  rewrite !land_test by lia. rewrite (testbit_high _ 63 63), H61 by lia. cbn [negb].
  rewrite !negb_involutive, land_clear, H61 by lia.
  assert ((if vbc then native_word pos vbc m - 2 ^ 61 else native_word pos vbc m)
    = native_word pos false m) as Hclear.
  { unfold native_word. destruct vbc; simpl; lia. }
  replace (if vbc then if vbc then native_word pos vbc m - 2 ^ 61 else native_word pos vbc m
           else native_word pos vbc m) with (native_word pos false m)
    by (rewrite <- Hclear; by destruct vbc).
  destruct (native_word_bits pos false m Hm) as (Hr' & _ & H62').
  rewrite H62', land_clear, H62' by lia.
  unfold native_word. destruct pos; cbn [Z.b2z].
  - replace (1 * 2 ^ 62 + (0 * 2 ^ 61 + m) - 2 ^ 62) with m by lia. by destruct vbc.
  - replace (0 * 2 ^ 62 + (0 * 2 ^ 61 + m)) with m by lia. by destruct vbc.
Qed.

(** The branch for issued currencies, on the fields of the word. *)
Definition issued_of_wire (pos : bool) (y m : Z) (c acc : Z) : result STAmount :=
  if isNative c then Throw (runtime_error "invalid native currency")
  else if isNative acc then Throw (runtime_error "invalid native account")
  else if m =? 0 then
    if negb pos && (y =? 0) then Ok (mkAmt (mkIssue c acc) 0 (-100) false false)
    else Throw (runtime_error "invalid currency value")
  else if bool_decide (canonical m (y - 97)) then
    Ok (mkAmt (mkIssue c acc) m (y - 97) false (negb pos))
  else Throw (runtime_error "invalid currency value").

Lemma issued_word_bits pos y m :
  0 ≤ y < 256 → 0 ≤ m < 2 ^ 54 →
  let v := issued_word pos (y - 97) m in
  2 ^ 63 ≤ v < 2 ^ 64 ∧ Z.testbit v 63 = true ∧
  Z.shiftr v 54 = 512 + 256 * Z.b2z pos + y ∧
  Z.land v (u64 (Z.lnot (Z.shiftl 1023 54))) = m ∧
  (Z.land (512 + 256 * Z.b2z pos + y) 256 =? 0) = negb pos ∧
  Z.land (512 + 256 * Z.b2z pos + y) 255 = y.
Proof.
  intros Hy Hm. set (x := 512 + 256 * Z.b2z pos + y).
  assert (0 ≤ x - 512 < 512) as Hx by (unfold x; destruct pos; simpl; lia).
  assert (issued_word pos (y - 97) m = x * 2 ^ 54 + m) as -> by (unfold issued_word, x; f_equal; lia).
  cbn zeta. split_and!; [lia|lia|..].
  - replace (x * 2 ^ 54 + m) with (1 * 2 ^ 63 + ((x - 512) * 2 ^ 54 + m)) by lia.
    rewrite testbit_split by lia. done.
  - rewrite Z.shiftr_div_pow2, Z.add_comm, Z.div_add, Z.div_small by lia. lia.
  - change (u64 (Z.lnot (Z.shiftl 1023 54))) with (Z.ones 54).
    rewrite Z.land_ones, Z.add_comm, Z.mod_add, Z.mod_small by lia. done.
  - change 256 with (2 ^ 8). rewrite land_test by lia.
    replace x with ((2 + Z.b2z pos) * 2 ^ 8 + y) by (unfold x; lia).
    rewrite testbit_split by lia. by destruct pos.
  - change 255 with (Z.ones 8). rewrite Z.land_ones by lia.
    replace x with (y + (2 + Z.b2z pos) * 2 ^ 8) by (unfold x; lia).
    rewrite Z.mod_add, Z.mod_small by lia. done.
Qed.

Lemma of_wire_issued it it1 it2 it3 pos y m c acc :
  get64 it = Ok (issued_word pos (y - 97) m, it1) →
  getBitString 20 it1 = Ok (c, it2) → getBitString 20 it2 = Ok (acc, it3) →
  0 ≤ y < 256 → 0 ≤ m < 2 ^ 54 →
  of_wire it = rmap (λ a, (a, it3)) (issued_of_wire pos y m c acc).
Proof.
  intros Hg Hc Ha Hy Hm. unfold of_wire, issued_of_wire. rewrite Hg. cbn [rbind].
  destruct (issued_word_bits pos y m Hy Hm) as (Hr & H63 & Hsh & Hmask & Hpos & Hlow).
  change cNotNative with (2 ^ 63). rewrite land_test, H63 by lia. cbn [negb].
  rewrite Hc. cbn [rbind]. destruct (isNative c) eqn:Hnc; [done|].
  rewrite Ha. cbn [rbind]. destruct (isNative acc) eqn:Hna; [done|].
  change (64 - 10) with 54. rewrite Hsh, Hmask.
  assert (i32 (512 + 256 * Z.b2z pos + y) = 512 + 256 * Z.b2z pos + y) as ->.
  { unfold i32, swrap. change (32 - 1) with 31. rewrite Z.mod_small; destruct pos; simpl; lia. }
  rewrite Hpos, Hlow. destruct (Z.eqb_spec m 0) as [->|Hm0]; cbn [negb].
  - destruct pos; cbn [Z.b2z negb andb].
    + destruct (Z.eqb_spec (512 + 256 * 1 + y) 512); [lia|done].
    + replace (512 + 256 * 0 + y =? 512) with (y =? 0) by lia.
      destruct (y =? 0); cbn [negb]; [|done].
      unfold canonicalize, amt_isNative; simpl. by rewrite Hnc.
  - unfold cMinValue, cMaxValue, cMinOffset, cMaxOffset.
    case_bool_decide as Hcan.
    + destruct (_ || _) eqn:E; [destruct Hcan; dec_consts; lia|].
      rewrite canonicalize_norm by done. cbn [mValue mOffset mIssue mIsNegative].
      by rewrite norm_canonical.
    + destruct (_ || _) eqn:E; [done|]. exfalso. apply Hcan. split; lia.
Qed.

(** ** Encoding and decoding *)

(** The amounts the network carries: invariant, the canonical issue of a native
    currency, identifiers of 160 bits and an issuer that is not one of the
    native accounts. *)
Definition network (a : STAmount) : Prop :=
  wf a ∧
  if mIsNative a then mIssue a = native_issue (amt_isVBC a)
  else 0 ≤ currency (mIssue a) < 2 ^ 160 ∧ 0 ≤ account (mIssue a) < 2 ^ 160 ∧
       isNative (account (mIssue a)) = false.

#[global] Instance network_dec a : Decision (network a).
Proof. unfold network. destruct (mIsNative a); apply _. Defined.

(** What [add] appends. *)
Definition encoding (a : STAmount) : list Z :=
  be_bytes 8 (word a) ++
  if mIsNative a then [] else be_bytes 20 (currency (mIssue a)) ++ be_bytes 20 (account (mIssue a)).

Lemma add_encoding a s : add a s = s ++ encoding a.
Proof.
  unfold add, encoding, addBitString. rewrite add64_be.
  destruct (mIsNative a); [by rewrite app_nil_r|]. by rewrite <- !app_assoc.
Qed.

Lemma of_wire_encoding_native a pre post :
  network a → mIsNative a = true →
  of_wire (mkIter pre (encoding a ++ post)) = Ok (a, mkIter (pre ++ encoding a) post).
Proof.
  intros [Hw Hi] Hn. rewrite Hn in Hi. destruct (wf_native a Hw Hn) as (_ & Ho & Hv & Hs).
  unfold cMaxNativeN in Hv. unfold encoding. rewrite Hn, app_nil_r, word_native by (done || lia).
  destruct (native_word_bits (negb (mIsNegative a)) (amt_isVBC a) (mValue a)) as [Hr _]; [lia|].
  erewrite of_wire_native; [|by apply get64_app; lia|lia].
  destruct a as [i v o n s]; simpl in *. subst o n. rewrite <- Hi.
  destruct s; [|done]. destruct (Z.eqb_spec v 0); [|done]. by rewrite Hs in *.
Qed.

Lemma of_wire_encoding_issued a pre post :
  network a → mIsNative a = false →
  of_wire (mkIter pre (encoding a ++ post)) = Ok (a, mkIter (pre ++ encoding a) post).
Proof.
  intros [Hw Hi] Hn. rewrite Hn in Hi. destruct Hi as (Hc & Hacc & Hna).
  destruct (wf_issued a Hw Hn) as [Hnc Hv].
  assert (∃ pos y, 0 ≤ y < 256 ∧ 0 ≤ mValue a < 2 ^ 54 ∧ word a = issued_word pos (y - 97) (mValue a) ∧
    issued_of_wire pos y (mValue a) (currency (mIssue a)) (account (mIssue a)) = Ok a)
    as (pos & y & Hy & Hm & Hword & Hdec).
  { unfold issued_of_wire. rewrite Hnc, Hna.
    destruct a as [[c acc] v o n s]; simpl in *. subst n. destruct Hv as [(-> & -> & ->)|Hcan].
    - by exists false, 0.
    - pose proof Hcan as [Hvr Hor]. dec_consts. exists (negb s), (o + 97).
      replace (o + 97 - 97) with o by lia.
      split_and!; [lia|lia|lia|lia|by apply (word_issued (mkAmt (mkIssue c acc) v o false s))|].
      destruct (Z.eqb_spec v 0); [lia|]. rewrite bool_decide_eq_true_2 by done.
      by rewrite negb_involutive. }
  unfold encoding. rewrite Hn, Hword, <- !app_assoc.
  destruct (issued_word_bits pos y (mValue a) Hy Hm) as [Hr _].
  erewrite of_wire_issued; [|by apply get64_app; lia|by apply getBitString_app|
    by apply getBitString_app|done|done].
  rewrite Hdec. simpl. by rewrite <- !app_assoc.
Qed.

Lemma split_bit v k : 0 ≤ k → 0 ≤ v < 2 ^ (k + 1) → ∃ b m, v = Z.b2z b * 2 ^ k + m ∧ 0 ≤ m < 2 ^ k.
Proof.
  intros Hk Hv. rewrite Z.pow_add_r in Hv by lia.
  exists (2 ^ k <=? v), (v - Z.b2z (2 ^ k <=? v) * 2 ^ k).
  destruct (Z.leb_spec (2 ^ k) v); simpl Z.b2z; lia.
Qed.

Lemma native_word_surj v :
  0 ≤ v < 2 ^ 63 → ∃ pos vbc m, v = native_word pos vbc m ∧ 0 ≤ m < 2 ^ 61.
Proof.
  intros Hv. destruct (split_bit v 62) as (pos & r & -> & Hr); [lia|done|].
  destruct (split_bit r 61) as (vbc & m & -> & Hm); [lia|done|]. by exists pos, vbc, m.
Qed.

Lemma issued_word_surj v :
  2 ^ 63 ≤ v < 2 ^ 64 →
  ∃ pos y m, v = issued_word pos (y - 97) m ∧ 0 ≤ y < 256 ∧ 0 ≤ m < 2 ^ 54.
Proof.
  intros Hv. pose proof (Z.div_mod v (2 ^ 54) ltac:(lia)) as Hd.
  pose proof (Z.mod_pos_bound v (2 ^ 54) ltac:(lia)) as Hm.
  destruct (split_bit (v / 2 ^ 54 - 512) 8) as (pos & y & Hx & Hy); [lia|lia|].
  exists pos, y, (v mod 2 ^ 54). split; [unfold issued_word; lia|lia].
Qed.

Lemma issued_encoding pos y m c acc a :
  issued_of_wire pos y m c acc = Ok a →
  encoding a = be_bytes 8 (issued_word pos (y - 97) m) ++ be_bytes 20 c ++ be_bytes 20 acc.
Proof.
  unfold issued_of_wire. destruct (isNative c), (isNative acc); try done.
  destruct (Z.eqb_spec m 0) as [->|Hm].
  - destruct pos; [done|]. destruct (Z.eqb_spec y 0) as [->|]; [|done]. by intros [= <-].
  - case_bool_decide as Hcan; [|done]. intros [= <-]. unfold encoding. cbn [mIsNative mIssue].
    rewrite word_issued by done. cbn [mIsNegative mOffset mValue]. by rewrite negb_involutive.
Qed.

(** A decoded amount re-encodes to the bytes it was read from. *)
Lemma of_wire_inv it a it' :
  bytes_ok (at_p it) → of_wire it = Ok (a, it') → consumes it it' (encoding a).
Proof.
  intros Hok H. unfold of_wire in H. destruct (get64 it) as [[v it1]|] eqn:Hg; [|done].
  destruct (get64_inv it v it1 Hok Hg) as [Hv Hc1].
  destruct (Z.lt_ge_cases v (2 ^ 63)) as [Hlt|Hge].
  - destruct (native_word_surj v) as (pos & vbc & m & -> & Hm); [lia|].
    fold (of_wire it) in H. pose proof (of_wire_native it it1 pos vbc m Hg Hm) as Hw.
    unfold of_wire in Hw. rewrite Hg in Hw. rewrite Hw in H. clear Hw.
    assert (∃ s, a = mkAmt (native_issue vbc) m 0 true s ∧ pos = negb s ∧ it1 = it')
      as (s & -> & -> & ->).
    { destruct pos; [by injection H as <- <-; exists false|].
      destruct (m =? 0); [done|]. by injection H as <- <-; exists true. }
    unfold encoding. cbn [mIsNative]. rewrite app_nil_r, word_native by done.
    cbn [mIsNegative mValue]. replace (amt_isVBC _) with vbc by (by destruct vbc). done.
  - destruct (issued_word_surj v) as (pos & y & m & -> & Hy & Hm); [lia|].
    pose proof (consumes_bytes_ok _ _ _ Hc1 Hok) as Hok1.
    destruct (issued_word_bits pos y m Hy Hm) as (_ & H63 & _).
    cbn [rbind] in H. change cNotNative with (2 ^ 63) in H. rewrite land_test, H63 in H by lia.
    cbn [negb] in H. destruct (getBitString 20 it1) as [[c it2]|] eqn:Hc; [|done].
    destruct (getBitString_inv 20 it1 c it2 Hok1 Hc) as [_ Hc2]. cbn [rbind] in H.
    destruct (isNative c) eqn:Hnc; [done|].
    pose proof (consumes_bytes_ok _ _ _ Hc2 Hok1) as Hok2.
    destruct (getBitString 20 it2) as [[acc it3]|] eqn:Ha; [|done].
    destruct (getBitString_inv 20 it2 acc it3 Hok2 Ha) as [_ Hc3].
    assert (rmap (λ a, (a, it3)) (issued_of_wire pos y m c acc) = Ok (a, it')) as Hd.
    { rewrite <- (of_wire_issued it it1 it2 it3 pos y m c acc Hg Hc Ha Hy Hm), <- H.
      unfold of_wire. rewrite Hg. cbn [rbind]. change cNotNative with (2 ^ 63).
      rewrite land_test, H63 by lia. cbn [negb]. rewrite Hc. cbn [rbind].
      rewrite Hnc, Ha. done. }
    pose proof (consumes_trans _ _ _ _ _ Hc1 (consumes_trans _ _ _ _ _ Hc2 Hc3)) as Hcons.
    destruct (issued_of_wire pos y m c acc) as [a'|] eqn:Hi; [|done]. injection Hd as -> ->.
    by rewrite (issued_encoding pos y m c acc a Hi).
Qed.

(** ** Properties *)

(** C32: Every amount the network carries is read back from the bytes
    [STAmount::add] appends for it, whatever was written before and follows. *)
Theorem amt_wire_roundtrip a pre post :
  network a →
  ∃ bs, add a pre = pre ++ bs ∧
    of_wire (mkIter pre (bs ++ post)) = Ok (a, mkIter (pre ++ bs) post).
Proof.
  intros Ha. exists (encoding a). split; [apply add_encoding|].
  destruct (mIsNative a) eqn:Hn;
    [by apply of_wire_encoding_native|by apply of_wire_encoding_issued].
Qed.

Lemma amt_wire_roundtrip_witness :
  ∃ bs, add (mkAmt usd 1234567890123456 1 false true) [7] = [7] ++ bs ∧
    of_wire (mkIter [7] (bs ++ [8])) =
      Ok (mkAmt usd 1234567890123456 1 false true, mkIter ([7] ++ bs) [8]).
Proof.
  apply (amt_wire_roundtrip (mkAmt usd 1234567890123456 1 false true) [7] [8]).
  by_computation.
Defined.

(** The wire form is unique: bytes that decode to an amount are the bytes
    [STAmount::add] writes for it, and decoding reads no others. *)
Theorem amt_wire_canonical it a it' :
  bytes_ok (at_p it) → of_wire it = Ok (a, it') →
  add a (read it) = read it' ∧ at_p (reset it') = at_p (reset it).
Proof.
  intros Hok H. apply of_wire_inv in H as [Ha Hr]; [|done].
  rewrite add_encoding. unfold reset; cbn [at_p]. rewrite Hr, Ha. split; [done|].
  by rewrite app_assoc.
Qed.

Lemma amt_wire_canonical_witness :
  add (mkAmt vbcIssue 5 0 true true) [] = be_bytes 8 0x2000000000000005.
Proof.
  apply (amt_wire_canonical (mkIter [] (be_bytes 8 0x2000000000000005 ++ [1]))
    (mkAmt vbcIssue 5 0 true true) (mkIter (be_bytes 8 0x2000000000000005) [1])).
  - by_computation.
  - reflexivity.
Defined.

End Wire.
