(* ===== verification/Views.v ===== *)
(** * Ledger views

    ledger/ReadView.h, ledger/RawView.h and protocol/Keylet.h: ledger entries,
    and the two interfaces the views of a ledger have.  [ReadView] is how a view
    is read, [RawView] how changes are handed to it; the classes state what an
    implementation promises, in terms of the map from keys to entries that the
    view stands for. *)

From stdpp Require Export sorting.
From S2P Require Import Prelude.

Open Scope Z_scope.

(** ** Ordered traversal of a [std::map] *)

Definition key_le {A} : relation (Z * A) := λ p q, p.1 ≤ q.1.
Definition key_lt {A} : relation (Z * A) := λ p q, p.1 < q.1.

#[global] Instance key_le_dec {A} (p q : Z * A) : Decision (key_le p q).
Proof. unfold key_le. apply _. Defined.
#[global] Instance key_le_total {A} : Total (@key_le A).
Proof. intros p q. unfold key_le. lia. Qed.
#[global] Instance key_le_trans {A} : Transitive (@key_le A).
Proof. intros p q r. unfold key_le. lia. Qed.
#[global] Instance key_lt_trans {A} : Transitive (@key_lt A).
Proof. intros p q r. unfold key_lt. lia. Qed.

(** The entries of a map in key order. *)
Definition in_order {A} (m : gmap Z A) : list (Z * A) := merge_sort key_le (map_to_list m).

(** [upper_bound]: the entries after a key. *)
Definition upper_bound {A} (m : gmap Z A) (key : Z) : list (Z * A) :=
  filter (λ p, key < p.1) (in_order m).

Lemma elem_of_in_order {A} (m : gmap Z A) k x : (k, x) ∈ in_order m ↔ m !! k = Some x.
Proof. unfold in_order. by rewrite merge_sort_Permutation, elem_of_map_to_list. Qed.

Lemma in_order_nodup {A} (m : gmap Z A) : NoDup (in_order m).*1.
Proof. unfold in_order. rewrite merge_sort_Permutation. apply NoDup_fst_map_to_list. Qed.

Lemma length_in_order {A} (m : gmap Z A) : length (in_order m) = size m.
Proof. unfold in_order. by rewrite merge_sort_Permutation, length_map_to_list. Qed.

Lemma list_to_map_in_order {A} (m : gmap Z A) : list_to_map (in_order m) = m.
Proof.
  rewrite (list_to_map_proper (in_order m) (map_to_list m)).
  - apply list_to_map_to_list.
  - apply in_order_nodup.
  - apply merge_sort_Permutation.
Qed.

Lemma sorted_strict {A} (l : list (Z * A)) :
  StronglySorted key_le l → NoDup l.*1 → StronglySorted key_lt l.
Proof.
  induction 1 as [|p l Hs IH Hall]; intros Hnd; [constructor|].
  rewrite fmap_cons in Hnd. apply NoDup_cons in Hnd as [Hni Hnd].
  constructor; [auto|]. apply Forall_forall. intros q Hq.
  rewrite Forall_forall in Hall. specialize (Hall q Hq). unfold key_le, key_lt in *.
  destruct (Z.eq_dec p.1 q.1) as [Heq|]; [|lia].
  exfalso. apply Hni. rewrite Heq. by apply list_elem_of_fmap_2.
Qed.

Lemma in_order_sorted {A} (m : gmap Z A) : StronglySorted key_lt (in_order m).
Proof.
  apply sorted_strict; [|apply in_order_nodup]. apply StronglySorted_merge_sort; apply _.
Qed.

(** A list in strict key order is determined by its elements. *)
Lemma in_order_unique {A} (m : gmap Z A) l :
  StronglySorted key_lt l → (∀ k x, (k, x) ∈ l ↔ m !! k = Some x) → in_order m = l.
Proof.
  assert (∀ l' : list (Z * A), StronglySorted key_lt l' → NoDup l') as Hnd.
  { induction 1 as [|p l' _ IH Hall]; constructor; [|done]. rewrite Forall_forall in Hall.
    intros Hin%Hall. unfold key_lt in Hin. lia. }
  intros Hs Hl. eapply (StronglySorted_unique_strong key_lt); [|apply in_order_sorted|done|].
  - intros x y _ _. unfold key_lt. lia.
  - apply NoDup_Permutation; [apply Hnd, in_order_sorted|by apply Hnd|].
    intros [k x]. by rewrite elem_of_in_order, Hl.
Qed.

Lemma sorted_app {A} (l1 l2 : list (Z * A)) :
  StronglySorted key_lt (l1 ++ l2) ↔
  StronglySorted key_lt l1 ∧ StronglySorted key_lt l2 ∧ ∀ p q, p ∈ l1 → q ∈ l2 → p.1 < q.1.
Proof.
  induction l1 as [|p l1 IH]; simpl.
  - split; [intros H; split; [constructor|split; [done|by intros ?? ?%elem_of_nil]]|by intros (_ & ? & _)].
  - split.
    + intros [H Hall]%StronglySorted_inv. apply IH in H as (H1 & H2 & H3).
      rewrite Forall_app, !Forall_forall in Hall. destruct Hall as [Ha Hb].
      split; [constructor; [done|by apply Forall_forall]|]. split; [done|].
      intros p' q [->|Hp]%elem_of_cons Hq; [by apply Hb|by apply H3].
    + intros ([H1 Hall]%StronglySorted_inv & H2 & H3). constructor.
      * apply IH. split; [done|]. split; [done|]. intros p' q Hp Hq. apply H3; [by right|done].
      * apply Forall_app. split; [done|]. apply Forall_forall. intros q Hq. apply H3; [by left|done].
Qed.

(** The entry of one key, between those before and those after it. *)
Lemma in_order_split {A} (m : gmap Z A) n x :
  m !! n = Some x →
  ∃ l1 l2, in_order m = l1 ++ (n, x) :: l2 ∧ in_order (delete n m) = l1 ++ l2 ∧
    ∀ y, in_order (<[n := y]> m) = l1 ++ (n, y) :: l2.
Proof.
  intros Hn. apply elem_of_in_order, list_elem_of_split in Hn as (l1 & l2 & E). exists l1, l2.
  pose proof (in_order_sorted m) as Hs. rewrite E in Hs.
  apply sorted_app in Hs as (H1 & [H2 Hall]%StronglySorted_inv & H12). rewrite Forall_forall in Hall.
  assert (∀ k y, (k, y) ∈ l1 ++ l2 ↔ k ≠ n ∧ m !! k = Some y) as Hel.
  { intros k y. rewrite <- elem_of_in_order, E, !elem_of_app, elem_of_cons. split.
    - intros [Hin|Hin]; (split; [|by auto]); intros ->.
      + specialize (H12 _ _ Hin (list_elem_of_here (n, x) l2)). simpl in H12. lia.
      + specialize (Hall _ Hin). unfold key_lt in Hall. simpl in Hall. lia.
    - intros [Hne [?|[[= -> ->]|?]]]; [by auto|done|by auto]. }
  assert (∀ p q, p ∈ l1 → q ∈ l2 → p.1 < q.1) as Hlt by (intros p q Hp Hq; apply H12; [done|by right]).
  split; [done|]. split; [|intros y]; apply in_order_unique.
  - by apply sorted_app.
  - intros k y. rewrite Hel, lookup_delete_Some. intuition congruence.
  - apply sorted_app. split; [done|]. split; [constructor; [done|by apply Forall_forall]|].
    intros p q Hp [->|Hq]%elem_of_cons; [|by apply Hlt].
    by apply (H12 p (n, x) Hp); left.
  - intros k z. rewrite lookup_insert_Some, elem_of_app, elem_of_cons.
    pose proof (Hel k z) as Hk. rewrite elem_of_app in Hk. split.
    + intros [?|[[= -> ->]|?]]; [|by left|]; (right; destruct Hk as [Hk _]; destruct Hk; [auto|]; auto).
    + intros [[<- <-]|[? ?]]; [auto|]. destruct Hk as [_ Hk]. destruct Hk; [auto|auto|auto].
Qed.

Lemma in_order_last {A} (m : gmap Z A) n x :
  (∀ k, is_Some (m !! k) → k < n) → in_order (<[n := x]> m) = in_order m ++ [(n, x)].
Proof.
  intros Hlast. apply in_order_unique.
  - apply sorted_app. split; [apply in_order_sorted|]. split; [repeat constructor|].
    intros [k y] q Hk%elem_of_in_order ->%list_elem_of_singleton. simpl. apply Hlast. eauto.
  - intros k y. rewrite elem_of_app, elem_of_in_order, list_elem_of_singleton, lookup_insert_Some. split.
    + intros [Hk|[= -> ->]]; [right|by left]. split; [|done]. pose proof (Hlast k ltac:(eauto)). lia.
    + intros [[<- <-]|[_ ?]]; auto.
Qed.

Lemma filter_none {A} P `{∀ x : A, Decision (P x)} (l : list A) : (∀ x, x ∈ l → ¬ P x) → filter P l = [].
Proof.
  intros Hl. induction l as [|x l IH]; [done|]. rewrite filter_cons_False by (apply Hl; by left).
  apply IH. intros y Hy. apply Hl. by right.
Qed.

Lemma filter_all {A} P `{∀ x : A, Decision (P x)} (l : list A) : (∀ x, x ∈ l → P x) → filter P l = l.
Proof.
  intros Hl. induction l as [|x l IH]; [done|]. rewrite filter_cons_True by (apply Hl; by left).
  f_equal. apply IH. intros y Hy. apply Hl. by right.
Qed.

Lemma StronglySorted_filter {A} (R : relation A) P `{∀ x, Decision (P x)} l :
  StronglySorted R l → StronglySorted R (filter P l).
Proof.
  induction 1 as [|x l Hs IH Hall]; [constructor|]. rewrite filter_cons.
  case_decide; [|done]. constructor; [done|].
  rewrite Forall_forall in *. intros y [_ Hy]%list_elem_of_filter. auto.
Qed.

Lemma length_upper_bound {A} (m : gmap Z A) key : (length (upper_bound m key).*2 ≤ size m)%nat.
Proof. rewrite length_fmap. etrans; [apply length_filter|]. by rewrite length_in_order. Qed.

Lemma upper_bound_sorted {A} (m : gmap Z A) key : StronglySorted key_lt (upper_bound m key).
Proof. apply StronglySorted_filter, in_order_sorted. Qed.

Lemma elem_of_upper_bound {A} (m : gmap Z A) key k x :
  (k, x) ∈ upper_bound m key ↔ key < k ∧ m !! k = Some x.
Proof. unfold upper_bound. by rewrite list_elem_of_filter, elem_of_in_order. Qed.

(** ** Ledger entries

    An entry is its key, its type and its fields; what the fields are does not
    matter to the views. *)

Definition ltANY : Z := -3.
Definition ltCHILD : Z := -2.
Definition ltINVALID : Z := -1.
Definition ltDIR_NODE : Z := 100.

Record SLE (F : Type) := mkSLE { sle_key : Z; sle_type : Z; fields : F }.
Arguments mkSLE {F} _ _ _.
Arguments sle_key {F} _.
Arguments sle_type {F} _.
Arguments fields {F} _.

#[global] Instance SLE_eq_dec {F} `{EqDecision F} : EqDecision (SLE F).
Proof. solve_decision. Defined.

Record Keylet := mkKeylet { k_type : Z; k_key : Z }.

Definition check {F} (k : Keylet) (sle : SLE F) : bool :=
  if k_type k =? ltANY then true
  else if k_type k =? ltINVALID then false
  else if k_type k =? ltCHILD then negb (sle_type sle =? ltDIR_NODE)
  else sle_type sle =? k_type k.

(** [keylet::unchecked] *)
Definition unchecked (key : Z) : Keylet := mkKeylet ltANY key.

(** ** Reading *)

Class ReadView (F V : Type) := {
  rv_exists : V → Keylet → bool;
  rv_read : V → Keylet → option (SLE F);
  rv_succ : V → Z → option Z → option Z
}.

Definition before (n : Z) (last : option Z) : Prop :=
  match last with Some l => n < l | None => True end.

#[global] Instance before_dec n last : Decision (before n last).
Proof. destruct last; simpl; apply _. Defined.

(** [succ]: the first key after [key], if it comes before [last]. *)
Definition is_succ {A} (c : gmap Z A) (key : Z) (last : option Z) (r : option Z) : Prop :=
  match r with
  | Some n =>
      is_Some (c !! n) ∧ key < n ∧ before n last ∧
      ∀ n', is_Some (c !! n') → key < n' → n ≤ n'
  | None => ∀ n', is_Some (c !! n') → key < n' → ¬ before n' last
  end.

Definition lookup_keylet {F} (c : gmap Z (SLE F)) (k : Keylet) : option (SLE F) :=
  match c !! k_key k with
  | Some sle => if check k sle then Some sle else None
  | None => None
  end.

(** Entries are filed under their own key. *)
Definition keyed {F} (c : gmap Z (SLE F)) : Prop := ∀ k sle, c !! k = Some sle → sle_key sle = k.

#[global] Instance keyed_dec {F} (c : gmap Z (SLE F)) : Decision (keyed c).
Proof. apply (decide (map_Forall (λ k sle, sle_key sle = k) c)). Defined.

(** [reads_as v c]: the view [v] answers like the map [c]. *)
Record reads_as {F V} `{ReadView F V} (v : V) (c : gmap Z (SLE F)) : Prop := {
  reads_keyed : keyed c;
  reads_exists k : rv_exists v k = match lookup_keylet c k with Some _ => true | None => false end;
  reads_read k : rv_read v k = lookup_keylet c k;
  reads_succ key last : is_succ c key last (rv_succ v key last)
}.

(** ** Writing *)

(** The drops created, the drops of VBC created and the drops destroyed. *)
Record Drops := mkDrops { d_created : Z; d_vbc : Z; d_destroyed : Z }.

(** [+=] on each of the three. *)
Definition add_drops (d d' : Drops) : Drops :=
  mkDrops (i64 (d_created d + d_created d')) (i64 (d_vbc d + d_vbc d'))
    (i64 (d_destroyed d + d_destroyed d')).

Class RawView (F W : Type) := {
  rawErase : W → SLE F → result W;
  rawInsert : W → SLE F → result W;
  rawReplace : W → SLE F → result W;
  rawDestroyXRP : W → Z → W;
  rawCreateXRP : W → Z → W;
  rawCreateVBC : W → Z → W
}.

(** What a raw view promises: [holds w c d] relates it to the entries and the
    drops it stands for; erasing and replacing need the key to be present,
    inserting needs it to be absent. *)
Class RawViewLaws (F W : Type) `{RawView F W} := {
  holds : W → gmap Z (SLE F) → Drops → Prop;
  rawErase_ok w c d sle :
    holds w c d → is_Some (c !! sle_key sle) →
    ∃ w', rawErase w sle = Ok w' ∧ holds w' (delete (sle_key sle) c) d;
  rawInsert_ok w c d sle :
    holds w c d → c !! sle_key sle = None →
    ∃ w', rawInsert w sle = Ok w' ∧ holds w' (<[sle_key sle := sle]> c) d;
  rawReplace_ok w c d sle :
    holds w c d → is_Some (c !! sle_key sle) →
    ∃ w', rawReplace w sle = Ok w' ∧ holds w' (<[sle_key sle := sle]> c) d;
  rawDestroyXRP_ok w c d x :
    holds w c d →
    holds (rawDestroyXRP w x) c (mkDrops (d_created d) (d_vbc d) (i64 (d_destroyed d + x)));
  rawCreateXRP_ok w c d x :
    holds w c d →
    holds (rawCreateXRP w x) c (mkDrops (i64 (d_created d + x)) (d_vbc d) (d_destroyed d));
  rawCreateVBC_ok w c d x :
    holds w c d →
    holds (rawCreateVBC w x) c (mkDrops (d_created d) (i64 (d_vbc d + x)) (d_destroyed d))
}.

(** ** A map as a view

    The closed ledger at the bottom of a stack of views is backed by a SHAMap,
    which is not modelled: any view that reads as a map may take its place.
    The map itself is one. *)
Definition map_succ {A} (c : gmap Z A) (key : Z) (last : option Z) : option Z :=
  match upper_bound c key with
  | (n, _) :: _ => if decide (before n last) then Some n else None
  | [] => None
  end.

#[global] Instance map_view {F} : ReadView F (gmap Z (SLE F)) := {
  rv_exists c k := match lookup_keylet c k with Some _ => true | None => false end;
  rv_read c k := lookup_keylet c k;
  rv_succ c key last := map_succ c key last
}.

(** The head of a sorted list of entries after [key] is the successor. *)
Lemma map_succ_ok {A} (c : gmap Z A) key last : is_succ c key last (map_succ c key last).
Proof.
  unfold map_succ. pose proof (upper_bound_sorted c key) as Hs.
  pose proof (elem_of_upper_bound c key) as He. destruct (upper_bound c key) as [|[n x] l].
  - intros n' [x' Hn'] Hk. exfalso. assert ((n', x') ∈ @nil (Z * A)) as Hin by (by apply He).
    by apply elem_of_nil in Hin.
  - apply StronglySorted_inv in Hs as [_ Hall]. rewrite Forall_forall in Hall.
    assert (∀ n', is_Some (c !! n') → key < n' → n ≤ n') as Hmin.
    { intros n' [x' Hn'] Hk. assert ((n', x') ∈ (n, x) :: l) as Hin by (by apply He).
      apply elem_of_cons in Hin as [[= -> ->]|Hin]; [done|].
      apply Hall in Hin. unfold key_lt in Hin; simpl in Hin. lia. }
    destruct (He n x) as [Hn _]. destruct Hn as [Hk Hn]; [by left|].
    destruct (decide (before n last)) as [Hb|Hb]; [split_and!; eauto|].
    intros n' Hn' Hk' Hb'. apply Hb. pose proof (Hmin n' Hn' Hk').
    destruct last; simpl in *; [lia|done].
Qed.

Lemma map_reads_as {F} (c : gmap Z (SLE F)) : keyed c → reads_as c c.
Proof. intros Hk. split; [done|done|done|]. intros. apply map_succ_ok. Qed.
