(* ===== verification/Overlay.v ===== *)
(** * Overlays

    [detail::RawStateTable] and [detail::ApplyStateTable] buffer changes over a
    base view in a map of items, and answer lookups from the items first.  This
    file holds what the two share: the map an overlay stands for, and the
    computation of [succ]. *)

From S2P Require Import Prelude Views.

(** [live i] is the entry an item stands for, if it is not an erasure. *)
Definition overlay {I A} (live : I → option A) (items : gmap Z I) (c : gmap Z A) : gmap Z A :=
  merge (λ oi oa, match oi with Some i => live i | None => oa end) items c.

Lemma lookup_overlay {I A} (live : I → option A) items c k :
  overlay live items c !! k = match items !! k with Some i => live i | None => c !! k end.
Proof.
  unfold overlay. rewrite lookup_merge. by destruct (items !! k), (c !! k).
Qed.

(** Replacing the item of one key. *)
Lemma overlay_insert {I A} (live : I → option A) items c k i :
  overlay live (<[k := i]> items) c =
    match live i with
    | Some a => <[k := a]> (overlay live items c)
    | None => delete k (overlay live items c)
    end.
Proof.
  apply map_eq. intros j. rewrite lookup_overlay.
  destruct (decide (j = k)) as [->|Hne].
  - rewrite lookup_insert_eq. destruct (live i); [by rewrite lookup_insert_eq|by rewrite lookup_delete_eq].
  - rewrite lookup_insert_ne by done.
    destruct (live i); [rewrite lookup_insert_ne by done|rewrite lookup_delete_ne by done];
      by rewrite lookup_overlay.
Qed.

(** Dropping the item of a key the base does not have. *)
Lemma overlay_delete {I A} (live : I → option A) items c k :
  c !! k = None → overlay live (delete k items) c = delete k (overlay live items c).
Proof.
  intros Hc. apply map_eq. intros j. rewrite lookup_overlay.
  destruct (decide (j = k)) as [->|Hne]; [by rewrite !lookup_delete_eq|].
  rewrite !lookup_delete_ne by done. by rewrite lookup_overlay.
Qed.

(** Taking the changes one by one. *)
Lemma overlay_cons {I A} (live : I → option A) items c k i :
  items !! k = None →
  overlay live (<[k := i]> items) c =
    overlay live items (match live i with Some a => <[k := a]> c | None => delete k c end).
Proof.
  intros Hm. apply map_eq. intros j. rewrite !lookup_overlay.
  destruct (decide (j = k)) as [->|Hne].
  - rewrite lookup_insert_eq, Hm. destruct (live i); [by rewrite lookup_insert_eq|by rewrite lookup_delete_eq].
  - rewrite lookup_insert_ne by done. destruct (items !! j); [done|].
    destruct (live i); [by rewrite lookup_insert_ne|by rewrite lookup_delete_ne].
Qed.

(** ** succ *)

Section succ.
Context {I : Type} (dead : I → bool) (items : gmap Z I).
Context (base_succ : Z → option Z → option Z).

(** The [do] loop: the first successor in the base that is not erased.  Every
    iteration but the last passes an erased item, so the number of items bounds
    the iterations. *)
Fixpoint live_base_succ (fuel : nat) (next : Z) (last : option Z) : option Z :=
  match base_succ next last with
  | None => None
  | Some n =>
      match items !! n with
      | Some i =>
          if dead i then
            match fuel with O => None | S f => live_base_succ f n last end
          else Some n
      | None => Some n
      end
  end.

(** The [for] loop: the first item that is not an erasure. *)
Fixpoint first_live (l : list (Z * I)) : option Z :=
  match l with
  | [] => None
  | (k, i) :: l' => if dead i then first_live l' else Some k
  end.

(** [if (! next || next > iter->first) next = iter->first;] *)
Definition lower (next found : option Z) : option Z :=
  match found with
  | Some k =>
      match next with
      | Some n => if k <? n then Some k else next
      | None => Some k
      end
  | None => next
  end.

Definition overlay_succ (key : Z) (last : option Z) : option Z :=
  let next := lower (live_base_succ (size items) key last)
                (first_live (upper_bound items key)) in
  match next, last with
  | Some n, Some l => if l <=? n then None else next
  | _, _ => next
  end.

End succ.

Lemma lower_spec next found :
  match lower next found with
  | Some n => (next = Some n ∨ found = Some n) ∧ ∀ x, next = Some x ∨ found = Some x → n ≤ x
  | None => next = None ∧ found = None
  end.
Proof.
  unfold lower. destruct next as [n|], found as [k|]; [destruct (Z.ltb_spec k n)|..];
    split; auto; intros x [[= <-]|[= <-]]; lia.
Qed.

Section succ_facts.
Context {I A : Type} (live : I → option A) (dead : I → bool) (items : gmap Z I).
Context (c : gmap Z A) (base_succ : Z → option Z → option Z).
Context (Hdead : ∀ k i, items !! k = Some i → (dead i = true ↔ live i = None)).
Context (Hbase : ∀ key last, is_succ c key last (base_succ key last)).

Lemma first_live_spec l :
  StronglySorted key_lt l →
  match first_live dead l with
  | Some k =>
      (∃ i, (k, i) ∈ l ∧ dead i = false) ∧ ∀ k' i', (k', i') ∈ l → dead i' = false → k ≤ k'
  | None => ∀ k' i', (k', i') ∈ l → dead i' = true
  end.
Proof.
  induction 1 as [|[k i] l Hs IH Hall]; simpl; [by intros ?? ?%elem_of_nil|].
  rewrite Forall_forall in Hall. destruct (dead i) eqn:Hd.
  - destruct (first_live dead l) as [n|].
    + destruct IH as [(i' & Hin & Hi') Hmin]. split; [exists i'; split; [by right|done]|].
      intros k' i'' [[= -> ->]|Hin']%elem_of_cons; [congruence|eauto].
    + intros k' i' [[= -> ->]|Hin]%elem_of_cons; [done|eauto].
  - split; [exists i; split; [by left|done]|].
    intros k' i' [[= -> ->]|Hin]%elem_of_cons Hd'; [done|].
    apply Hall in Hin. unfold key_lt in Hin; simpl in Hin. lia.
Qed.

(** The keys of the base that are not erased. *)
Definition unerased (n : Z) : Prop :=
  is_Some (c !! n) ∧ ∀ i, items !! n = Some i → dead i = false.

Definition items_after (key : Z) : gmap Z I := filter (λ p, key < p.1) items.

Lemma items_after_shrinks key n i :
  key < n → items !! n = Some i → (size (items_after n) < size (items_after key))%nat.
Proof.
  intros Hk Hi. apply map_subset_size. unfold items_after. split.
  - apply map_filter_subseteq_ext. simpl. lia.
  - intros Hsub. assert (filter (λ p, n < p.1) items !! n = Some i) as H.
    { eapply lookup_weaken; [|exact Hsub]. by apply map_lookup_filter_Some. }
    apply map_lookup_filter_Some in H as [_ H]. simpl in H. lia.
Qed.

Lemma live_base_succ_spec fuel key last :
  (size (items_after key) ≤ fuel)%nat →
  match live_base_succ dead items base_succ fuel key last with
  | Some n => unerased n ∧ key < n ∧ before n last ∧ ∀ n', unerased n' → key < n' → n ≤ n'
  | None => ∀ n', unerased n' → key < n' → ¬ before n' last
  end.
Proof using Hbase.
  revert key. induction fuel as [|fuel IH]; intros key Hfuel; simpl;
    pose proof (Hbase key last) as Hs; destruct (base_succ key last) as [n|];
    try (intros n' [Hn' _]; by apply Hs);
    destruct Hs as (Hn & Hk & Hb & Hmin).
  - destruct (items !! n) as [i|] eqn:Hi.
    + pose proof (items_after_shrinks key n i Hk Hi). lia.
    + assert (unerased n) by (split; [done|]; by rewrite Hi).
      split; [done|]. split_and!; [done..|]. intros n' [? _]; auto.
  - destruct (items !! n) as [i|] eqn:Hi.
    + destruct (dead i) eqn:Hd.
      * pose proof (items_after_shrinks key n i Hk Hi) as Hsz.
        specialize (IH n ltac:(lia)).
        assert (∀ n', unerased n' → key < n' → n < n') as Hskip.
        { intros n' [Hn' He] Hk'. specialize (Hmin n' Hn' Hk').
          destruct (Z.eq_dec n n') as [->|]; [|lia]. specialize (He i Hi). congruence. }
        destruct (live_base_succ dead items base_succ fuel n last) as [m|].
        -- destruct IH as (Hu & Hnm & Hbm & Hm). split; [done|]. split_and!; [lia|done|].
           intros n' Hn' Hk'. apply Hm; [done|]. by apply Hskip.
        -- intros n' Hn' Hk'. apply IH; [done|]. by apply Hskip.
      * assert (unerased n) by (split; [done|]; rewrite Hi; by intros ? [= <-]).
        split; [done|]. split_and!; [done..|]. intros n' [? _]; auto.
    + assert (unerased n) by (split; [done|]; by rewrite Hi).
      split; [done|]. split_and!; [done..|]. intros n' [? _]; auto.
Qed.

Lemma overlay_keys n :
  is_Some (overlay live items c !! n) ↔
  (∃ i, items !! n = Some i ∧ dead i = false) ∨ unerased n.
Proof using Hdead.
  rewrite lookup_overlay. unfold unerased. destruct (items !! n) as [i|] eqn:Hi.
  - assert (is_Some (live i) ↔ dead i = false) as ->.
    { specialize (Hdead n i Hi). destruct (live i) as [a|], (dead i);
        split; intros; try done; try eauto; exfalso; intuition congruence. }
    split; [eauto|]. intros [(i' & [= <-] & ?)|[_ H]]; [done|by apply H].
  - split; [intros; right; by split|]. by intros [(i' & ? & _)|[? _]].
Qed.

(** Every key of the overlay in range is found by one of the two searches. *)
Lemma searches_complete key last n' :
  is_Some (overlay live items c !! n') → key < n' → before n' last →
  ∃ x, x ≤ n' ∧ (live_base_succ dead items base_succ (size items) key last = Some x ∨
                 first_live dead (upper_bound items key) = Some x).
Proof using Hbase Hdead.
  intros [(i & Hi & Hd)|Hu]%overlay_keys Hk Hb.
  - pose proof (first_live_spec _ (upper_bound_sorted items key)) as H.
    assert ((n', i) ∈ upper_bound items key) as Hin by (by apply elem_of_upper_bound).
    destruct (first_live dead _) as [k|]; [exists k; split; [by eapply H|by right]|].
    specialize (H n' i Hin). congruence.
  - pose proof (live_base_succ_spec (size items) key last) as H.
    destruct (live_base_succ _ _ _ _ _ _) as [n|].
    + exists n. split; [|by left]. apply H; [|done|done]. apply map_subseteq_size, map_filter_subseteq.
    + exfalso. eapply H; [|done|done|done]. apply map_subseteq_size, map_filter_subseteq.
Qed.

(** Both searches find keys of the overlay. *)
Lemma searches_sound key last x :
  live_base_succ dead items base_succ (size items) key last = Some x ∨
  first_live dead (upper_bound items key) = Some x →
  is_Some (overlay live items c !! x) ∧ key < x.
Proof using Hbase Hdead.
  intros [E|E].
  - pose proof (live_base_succ_spec (size items) key last) as H. rewrite E in H.
    destruct H as (Hu & Hk & _); [apply map_subseteq_size, map_filter_subseteq|].
    split; [|done]. apply overlay_keys. by right.
  - pose proof (first_live_spec _ (upper_bound_sorted items key)) as H. rewrite E in H.
    destruct H as [(i & [Hk Hi]%elem_of_upper_bound & Hd) _]. split; [|done].
    apply overlay_keys. eauto.
Qed.

(** The computed successor is the successor in the overlay. *)
Lemma overlay_succ_ok key last :
  is_succ (overlay live items c) key last (overlay_succ dead items base_succ key last).
Proof using Hbase Hdead.
  unfold overlay_succ.
  pose proof (lower_spec (live_base_succ dead items base_succ (size items) key last)
    (first_live dead (upper_bound items key))) as Hl.
  destruct (lower _ _) as [n|].
  - destruct Hl as [Hn Hmin]. destruct (searches_sound key last n Hn) as [Hov Hk].
    assert (∀ n', is_Some (overlay live items c !! n') → key < n' → before n' last → n ≤ n') as Hle.
    { intros n' Hn' Hk' Hb'. destruct (searches_complete key last n' Hn' Hk' Hb') as (x & Hx & Hf).
      specialize (Hmin x Hf). lia. }
    destruct last as [l|]; [destruct (Z.leb_spec l n)|]; simpl in *.
    + intros n' Hn' Hk' Hb'. specialize (Hle n' Hn' Hk' Hb'). lia.
    + split_and!; try done. intros n' Hn' Hk'. destruct (Z.lt_ge_cases n' l); [auto|lia].
    + split_and!; auto.
  - destruct Hl as [Hb Hf]. simpl.
    intros n' Hn' Hk' Hb'. destruct (searches_complete key last n' Hn' Hk' Hb') as (x & _ & [E|E]);
      congruence.
Qed.

End succ_facts.
