(* ===== verification/RawStateTable.v ===== *)
(** * RawStateTable and OpenView

    ledger/detail/RawStateTable.h, ledger/impl/RawStateTable.cpp and
    ledger/impl/OpenView.cpp: raw modifications buffered over a base view, and
    the view of an open ledger built on them.  The table holds entries by value:
    an entry handed to it is not changed afterwards. *)

From S2P Require Import Prelude Views Overlay.

Module Raw.

Inductive Action := erase_ | insert_ | replace_.

#[global] Instance Action_eq_dec : EqDecision Action.
Proof. solve_decision. Defined.

Definition Item (F : Type) : Type := Action * SLE F.

Record RawStateTable (F : Type) := mkRaw {
  items_ : gmap Z (Item F);
  dropsDestroyed_ : Z;
  dropsCreated_ : Z;
  dropsVBCCreated_ : Z
}.
Arguments mkRaw {F} _ _ _ _.
Arguments items_ {F} _.
Arguments dropsDestroyed_ {F} _.
Arguments dropsCreated_ {F} _.
Arguments dropsVBCCreated_ {F} _.

Section table.
Context {F : Type}.
Implicit Types (t : RawStateTable F) (sle : SLE F).

Definition empty_table : RawStateTable F := mkRaw ∅ 0 0 0.

Definition set_items t (m : gmap Z (Item F)) : RawStateTable F :=
  mkRaw m (dropsDestroyed_ t) (dropsCreated_ t) (dropsVBCCreated_ t).

Definition is_erase (i : Item F) : bool := bool_decide (i.1 = erase_).

Definition live (i : Item F) : option (SLE F) := if is_erase i then None else Some i.2.

(** ** Modifications *)

Definition erase t sle : result (RawStateTable F) :=
  let k := sle_key sle in
  match items_ t !! k with
  | None => Ok (set_items t (<[k := (erase_, sle)]> (items_ t)))
  | Some (erase_, _) => Throw (LogicError "RawStateTable::erase: already erased")
  | Some (insert_, _) => Ok (set_items t (delete k (items_ t)))
  | Some (replace_, _) => Ok (set_items t (<[k := (erase_, sle)]> (items_ t)))
  end.

Definition insert t sle : result (RawStateTable F) :=
  let k := sle_key sle in
  match items_ t !! k with
  | None => Ok (set_items t (<[k := (insert_, sle)]> (items_ t)))
  | Some (erase_, _) => Ok (set_items t (<[k := (replace_, sle)]> (items_ t)))
  | Some (insert_, _) => Throw (LogicError "RawStateTable::insert: already inserted")
  | Some (replace_, _) => Throw (LogicError "RawStateTable::insert: already exists")
  end.

Definition replace t sle : result (RawStateTable F) :=
  let k := sle_key sle in
  match items_ t !! k with
  | None => Ok (set_items t (<[k := (replace_, sle)]> (items_ t)))
  | Some (erase_, _) => Throw (LogicError "RawStateTable::replace: was erased")
  | Some (a, _) => Ok (set_items t (<[k := (a, sle)]> (items_ t)))
  end.

Definition destroyXRP t (fee : Z) : RawStateTable F :=
  mkRaw (items_ t) (i64 (dropsDestroyed_ t + fee)) (dropsCreated_ t) (dropsVBCCreated_ t).

Definition createXRP t (drops : Z) : RawStateTable F :=
  mkRaw (items_ t) (dropsDestroyed_ t) (i64 (dropsCreated_ t + drops)) (dropsVBCCreated_ t).

Definition createVBC t (drops : Z) : RawStateTable F :=
  mkRaw (items_ t) (dropsDestroyed_ t) (dropsCreated_ t) (i64 (dropsVBCCreated_ t + drops)).

(** ** Lookups over a base *)

Section lookups.
Context {V : Type} `{ReadView F V}.

Definition exists_ t (base : V) (k : Keylet) : bool :=
  match items_ t !! k_key k with
  | None => rv_exists base k
  | Some (erase_, _) => false
  | Some (_, sle) => check k sle
  end.

Definition read t (base : V) (k : Keylet) : option (SLE F) :=
  match items_ t !! k_key k with
  | None => rv_read base k
  | Some (erase_, _) => None
  | Some (_, sle) => if check k sle then Some sle else None
  end.

Definition succ t (base : V) (key : Z) (last : option Z) : option Z :=
  overlay_succ is_erase (items_ t) (rv_succ base) key last.

End lookups.

(** ** Iterating over the entries

    [sles_iter_impl]: the position in the base's entries and the position in the
    items, both in key order.  [sle0_] and [sle1_] are the entries at the two
    positions, null at the end, so that the two lists of what remains are the
    state. *)

Record sles_iter := mkIter { iter0_ : list (SLE F); iter1_ : list (Item F) }.

Fixpoint skip (l0 : list (SLE F)) (l1 : list (Item F)) {struct l1} : result sles_iter :=
  match l1 with
  | (erase_, sle1) :: l1' =>
      match l0 with
      | [] => Throw (Undefined "sle0_->key()")
      | sle0 :: l0' =>
          if sle_key sle0 =? sle_key sle1 then
            match l0' with
            | [] => Ok (mkIter [] l1')
            | _ => skip l0' l1'
            end
          else Ok (mkIter l0 l1)
      end
  | _ => Ok (mkIter l0 l1)
  end.

Definition sles_iter_impl (l0 : list (SLE F)) (l1 : list (Item F)) : result sles_iter :=
  match l1 with
  | [] => Ok (mkIter l0 l1)
  | _ => skip l0 l1
  end.

Definition increment (it : sles_iter) : result sles_iter :=
  match iter0_ it, iter1_ it with
  | [], [] => Throw (Undefined "sle1_->key()")
  | [], _ :: l1' => Ok (mkIter [] l1')
  | _ :: l0', [] => Ok (mkIter l0' [])
  | sle0 :: l0', (_, sle1) :: l1' =>
      if sle_key sle1 =? sle_key sle0 then skip l0' l1'
      else if sle_key sle1 <? sle_key sle0 then skip (iter0_ it) l1'
      else skip l0' (iter1_ it)
  end.

Definition dereference (it : sles_iter) : option (SLE F) :=
  match iter1_ it, iter0_ it with
  | [], l0 => head l0
  | (_, sle1) :: _, [] => Some sle1
  | (_, sle1) :: _, sle0 :: _ => if sle_key sle1 <=? sle_key sle0 then Some sle1 else Some sle0
  end.

Definition equal (it other : sles_iter) : bool :=
  (length (iter1_ it) =? length (iter1_ other))%nat &&
  (length (iter0_ it) =? length (iter0_ other))%nat.

(** [base] is what iterating over the base yields. *)
Definition slesBegin t (base : list (SLE F)) : result sles_iter :=
  sles_iter_impl base (in_order (items_ t)).*2.

Definition slesEnd : sles_iter := mkIter [] [].

Definition slesUpperBound t (base : list (SLE F)) (key : Z) : result sles_iter :=
  sles_iter_impl (filter (λ sle, key < sle_key sle) base) (upper_bound (items_ t) key).*2.

(** A [for] loop from a position to the end. *)
Fixpoint iterate (fuel : nat) (it : sles_iter) : result (list (SLE F)) :=
  if equal it slesEnd then Ok []
  else
    match fuel with
    | O => Throw (Undefined "out of fuel")
    | S f =>
        match dereference it with
        | None => Throw (Undefined "null entry")
        | Some sle =>
            let* it := increment it in
            let* rest := iterate f it in
            Ok (sle :: rest)
        end
    end.

(** ** Handing the changes to another view *)

Context {W : Type} `{RawView F W}.

Definition apply_item (to : W) (item : Item F) : result W :=
  match item.1 with
  | erase_ => rawErase to item.2
  | insert_ => rawInsert to item.2
  | replace_ => rawReplace to item.2
  end.

Fixpoint apply_items (to : W) (l : list (Z * Item F)) : result W :=
  match l with
  | [] => Ok to
  | (_, item) :: l' => let* to := apply_item to item in apply_items to l'
  end.

Definition apply t (to : W) : result W :=
  let to := rawCreateXRP to (dropsCreated_ t) in
  let to := rawCreateVBC to (dropsVBCCreated_ t) in
  let to := rawDestroyXRP to (dropsDestroyed_ t) in
  apply_items to (in_order (items_ t)).

End table.

(** ** OpenView *)

Record LedgerInfo := mkInfo {
  seq : Z;
  hash : Z;
  parentHash : Z;
  closeTime : Z;
  parentCloseTime : Z;
  open : bool;
  validated : bool;
  accepted : bool
}.

(** Transactions are kept serialized, with their metadata if there is any. *)
Record OpenView (F V : Type) := mkOpen {
  info_ : LedgerInfo;
  base_ : V;
  table_ : RawStateTable F;
  txs_ : gmap Z (list Z * option (list Z))
}.
Arguments mkOpen {F V} _ _ _ _.
Arguments info_ {F V} _.
Arguments base_ {F V} _.
Arguments table_ {F V} _.
Arguments txs_ {F V} _.

Section open_view.
Context {F V : Type} `{ReadView F V}.
Implicit Types (v : OpenView F V).

(** [OpenView (open_ledger, base, ...)]: the next ledger, on top of a closed
    one. *)
Definition open_ledger (base : V) (info : LedgerInfo) : OpenView F V :=
  mkOpen (mkInfo (u32 (seq info + 1)) (hash info) (hash info) (closeTime info)
            (closeTime info) true false false) base empty_table ∅.

(** [OpenView (base)]: a copy of the same ledger to work on. *)
Definition over (base : V) (info : LedgerInfo) : OpenView F V :=
  mkOpen info base empty_table ∅.

Definition set_table v (t : RawStateTable F) : OpenView F V :=
  mkOpen (info_ v) (base_ v) t (txs_ v).

Definition txCount v : nat := size (txs_ v).

Definition txExists v (key : Z) : bool := bool_decide (is_Some (txs_ v !! key)).

Definition rawTxInsert v (key : Z) (txn : list Z) (metaData : option (list Z))
    : result (OpenView F V) :=
  match txs_ v !! key with
  | Some _ => Throw (LogicError "rawTxInsert: duplicate TX id")
  | None => Ok (mkOpen (info_ v) (base_ v) (table_ v) (<[key := (txn, metaData)]> (txs_ v)))
  end.

#[global] Instance open_read_view : ReadView F (OpenView F V) := {
  rv_exists v k := exists_ (table_ v) (base_ v) k;
  rv_read v k := read (table_ v) (base_ v) k;
  rv_succ v key last := succ (table_ v) (base_ v) key last
}.

#[global] Instance open_raw_view : RawView F (OpenView F V) := {
  rawErase v sle := rmap (set_table v) (erase (table_ v) sle);
  rawInsert v sle := rmap (set_table v) (insert (table_ v) sle);
  rawReplace v sle := rmap (set_table v) (replace (table_ v) sle);
  rawDestroyXRP v fee := set_table v (destroyXRP (table_ v) fee);
  rawCreateXRP v drops := set_table v (createXRP (table_ v) drops);
  rawCreateVBC v drops := set_table v (createVBC (table_ v) drops)
}.

End open_view.

(** [OpenView::apply]: the entries, then the transactions in key order, into
    another open view. *)
Section open_apply.
Context {F V V' : Type} `{ReadView F V} `{ReadView F V'}.

Fixpoint insert_txs (to : OpenView F V') (l : list (Z * (list Z * option (list Z))))
    : result (OpenView F V') :=
  match l with
  | [] => Ok to
  | (key, (txn, meta)) :: l' => let* to := rawTxInsert to key txn meta in insert_txs to l'
  end.

Definition open_apply (v : OpenView F V) (to : OpenView F V') : result (OpenView F V') :=
  let* to := apply (table_ v) to in
  insert_txs to (in_order (txs_ v)).

End open_apply.

End Raw.
