(* ===== verification/RawFacts.v ===== *)
(** * Facts about RawStateTable and OpenView

    A table over a base stands for the overlay of its items; the modifications
    implement the map operations, and applying the table to a view that holds
    the base's entries makes it hold the overlay. *)

From S2P Require Import Prelude Views Overlay RawStateTable.
Import Raw.

Module RawFacts.

Section facts.
Context {F : Type}.
Implicit Types (t : RawStateTable F) (sle : SLE F) (c : gmap Z (SLE F)).

(** The invariant of a table over a base with entries [c]. *)
Definition item_ok c (k : Z) (i : Item F) : Prop :=
  sle_key i.2 = k ∧
  match i.1 with insert_ => c !! k = None | _ => is_Some (c !! k) end.

Definition table_ok c t : Prop := map_Forall (item_ok c) (items_ t).

#[global] Instance item_ok_dec c k i : Decision (item_ok c k i).
Proof. unfold item_ok. destruct i as [[] ?]; simpl; apply _. Defined.

#[global] Instance table_ok_dec c t : Decision (table_ok c t).
Proof. unfold table_ok. apply _. Defined.

Definition contents c t : gmap Z (SLE F) := overlay live (items_ t) c.

Definition drops t : Drops := mkDrops (dropsCreated_ t) (dropsVBCCreated_ t) (dropsDestroyed_ t).

Lemma is_erase_live (i : Item F) : is_erase i = true ↔ live i = None.
Proof. unfold live. by destruct (is_erase i). Qed.

Lemma contents_lookup c t k :
  contents c t !! k = match items_ t !! k with Some i => live i | None => c !! k end.
Proof. apply lookup_overlay. Qed.

Lemma contents_empty c : contents c empty_table = c.
Proof. apply map_eq. intros k. rewrite contents_lookup. simpl. by rewrite lookup_empty. Qed.

Lemma contents_keyed c t : keyed c → table_ok c t → keyed (contents c t).
Proof.
  intros Hc Ht k s. rewrite contents_lookup. destruct (items_ t !! k) as [[a s']|] eqn:Hi; [|apply Hc].
  apply Ht in Hi as [Hk _]. unfold live. destruct (is_erase _); [done|]. by intros [= <-].
Qed.

(** ** Reading *)

Lemma table_reads {V} `{ReadView F V} (base : V) c t k :
  reads_as base c →
  read t base k = lookup_keylet (contents c t) k ∧
  exists_ t base k = match lookup_keylet (contents c t) k with Some _ => true | None => false end.
Proof.
  intros Hb. unfold read, exists_, lookup_keylet. rewrite contents_lookup.
  destruct (items_ t !! k_key k) as [[[] s]|]; simpl; try (by destruct (check k s)).
  rewrite (reads_read _ _ Hb), (reads_exists _ _ Hb). unfold lookup_keylet. done.
Qed.

Lemma table_succ {V} `{ReadView F V} (base : V) c t key last :
  reads_as base c → is_succ (contents c t) key last (succ t base key last).
Proof.
  intros Hb. apply overlay_succ_ok; [intros; apply is_erase_live|]. intros. by apply reads_succ.
Qed.

(** ** Modifications *)

(** What happens to the table and what it stands for when one item is set. *)
Lemma set_item_ok c t k (i : Item F) :
  table_ok c t → item_ok c k i →
  table_ok c (set_items t (<[k := i]> (items_ t))) ∧
  contents c (set_items t (<[k := i]> (items_ t))) =
    match live i with
    | Some s => <[k := s]> (contents c t)
    | None => delete k (contents c t)
    end.
Proof.
  intros Ht Hi. split; [by apply map_Forall_insert_2|]. apply overlay_insert.
Qed.

Lemma present_item c t k :
  table_ok c t → is_Some (contents c t !! k) →
  match items_ t !! k with
  | Some (erase_, _) => False
  | Some (insert_, _) => c !! k = None
  | Some (replace_, _) | None => is_Some (c !! k)
  end.
Proof.
  intros Ht. rewrite contents_lookup. destruct (items_ t !! k) as [[a s]|] eqn:Hi; [|done].
  apply Ht in Hi as [_ Hi]. destruct a; simpl in *; try done. by intros [].
Qed.

Lemma absent_item c t k :
  table_ok c t → contents c t !! k = None →
  match items_ t !! k with
  | Some (erase_, _) => is_Some (c !! k)
  | Some _ => False
  | None => c !! k = None
  end.
Proof.
  intros Ht. rewrite contents_lookup. destruct (items_ t !! k) as [[a s]|] eqn:Hi; [|done].
  apply Ht in Hi as [_ Hi]. by destruct a.
Qed.

Lemma erase_ok c t sle :
  table_ok c t → is_Some (contents c t !! sle_key sle) →
  ∃ t', erase t sle = Ok t' ∧ table_ok c t' ∧
    contents c t' = delete (sle_key sle) (contents c t) ∧ drops t' = drops t.
Proof.
  intros Ht Hp. pose proof (present_item c t _ Ht Hp) as Hi. unfold erase.
  destruct (items_ t !! sle_key sle) as [[[] s]|]; [done|..]; eexists; (split; [done|]).
  - split; [by apply map_Forall_delete|]. split; [by apply overlay_delete|done].
  - destruct (set_item_ok c t (sle_key sle) (erase_, sle)) as [? ?]; [done|by split|done].
  - destruct (set_item_ok c t (sle_key sle) (erase_, sle)) as [? ?]; [done|by split|done].
Qed.

Lemma insert_ok c t sle :
  table_ok c t → contents c t !! sle_key sle = None →
  ∃ t', insert t sle = Ok t' ∧ table_ok c t' ∧
    contents c t' = <[sle_key sle := sle]> (contents c t) ∧ drops t' = drops t.
Proof.
  intros Ht Hp. pose proof (absent_item c t _ Ht Hp) as Hi. unfold insert.
  destruct (items_ t !! sle_key sle) as [[[] s]|]; try done; eexists; (split; [done|]).
  - destruct (set_item_ok c t (sle_key sle) (replace_, sle)) as [? ?]; [done|by split|done].
  - destruct (set_item_ok c t (sle_key sle) (insert_, sle)) as [? ?]; [done|by split|done].
Qed.

Lemma replace_ok c t sle :
  table_ok c t → is_Some (contents c t !! sle_key sle) →
  ∃ t', replace t sle = Ok t' ∧ table_ok c t' ∧
    contents c t' = <[sle_key sle := sle]> (contents c t) ∧ drops t' = drops t.
Proof.
  intros Ht Hp. pose proof (present_item c t _ Ht Hp) as Hi. unfold replace.
  destruct (items_ t !! sle_key sle) as [[[] s]|]; try done; eexists; (split; [done|]).
  - destruct (set_item_ok c t (sle_key sle) (insert_, sle)) as [? ?]; [done|by split|done].
  - destruct (set_item_ok c t (sle_key sle) (replace_, sle)) as [? ?]; [done|by split|done].
  - destruct (set_item_ok c t (sle_key sle) (replace_, sle)) as [? ?]; [done|by split|done].
Qed.

(** ** Applying *)

Context {W : Type} `{RL : RawViewLaws F W}.

Lemma apply_item_ok (to : W) c d k i :
  holds to c d → item_ok c k i →
  ∃ to', apply_item to i = Ok to' ∧
    holds to' (match live i with Some s => <[k := s]> c | None => delete k c end) d.
Proof.
  intros Hh [Hk Hi]. destruct i as [[] s]; simpl in *; subst k; unfold apply_item; simpl.
  - by apply rawErase_ok.
  - by apply rawInsert_ok.
  - by apply rawReplace_ok.
Qed.

Lemma apply_items_ok l (to : W) c d :
  holds to c d → NoDup l.*1 → (∀ k i, (k, i) ∈ l → item_ok c k i) →
  ∃ to', apply_items to l = Ok to' ∧ holds to' (overlay live (list_to_map l) c) d.
Proof.
  revert to c. induction l as [|[k i] l IH]; intros to c Hh Hnd Hok.
  - exists to. split; [done|]. replace (overlay live _ c) with c; [done|].
    apply map_eq. intros j. rewrite lookup_overlay. simpl. by rewrite lookup_empty.
  - rewrite fmap_cons in Hnd. apply NoDup_cons in Hnd as [Hni Hnd]. simpl in Hni.
    destruct (apply_item_ok to c d k i Hh) as (to1 & E1 & H1); [apply Hok; by left|].
    set (c1 := match live i with Some s => <[k := s]> c | None => delete k c end) in *.
    destruct (IH to1 c1 H1 Hnd) as (to2 & E2 & H2).
    + intros k' i' Hin. assert (k' ≠ k) as Hne.
      { intros ->. apply Hni. by apply (list_elem_of_fmap_2 fst _ (k, i')). }
      destruct (Hok k' i') as [Hk' Hi']; [by right|]. split; [done|].
      assert (c1 !! k' = c !! k') as ->; [|done].
      unfold c1. destruct (live i); [by rewrite lookup_insert_ne|by rewrite lookup_delete_ne].
    + exists to2. simpl. rewrite E1. cbn [rbind]. split; [done|].
      rewrite overlay_cons; [done|]. by apply not_elem_of_list_to_map.
Qed.

Lemma apply_ok t (to : W) c d :
  table_ok c t → holds to c d →
  ∃ to', apply t to = Ok to' ∧ holds to' (contents c t) (add_drops d (drops t)).
Proof.
  intros Ht Hh. unfold apply.
  pose proof (rawCreateXRP_ok to c d (dropsCreated_ t) Hh) as H1.
  pose proof (rawCreateVBC_ok _ c _ (dropsVBCCreated_ t) H1) as H2.
  pose proof (rawDestroyXRP_ok _ c _ (dropsDestroyed_ t) H2) as H3.
  destruct (apply_items_ok (in_order (items_ t)) _ c _ H3) as (to' & E & H').
  - apply in_order_nodup.
  - intros k i Hin%elem_of_in_order. by apply Ht.
  - exists to'. split; [done|]. by rewrite list_to_map_in_order in H'.
Qed.

End facts.

(** ** OpenView *)

Section open.
Context {F V : Type} {RV : ReadView F V}.

Lemma open_reads (v : OpenView F V) c :
  reads_as (base_ v) c → table_ok c (table_ v) → reads_as v (contents c (table_ v)).
Proof.
  intros Hb Ht. split.
  - apply contents_keyed; [by apply (reads_keyed (base_ v))|done].
  - intros k. by apply table_reads.
  - intros k. by apply table_reads.
  - intros key last. by apply table_succ.
Qed.

(** The entries and drops an open view stands for. *)
Definition open_holds (v : OpenView F V) (c' : gmap Z (SLE F)) (d : Drops) : Prop :=
  ∃ c, reads_as (base_ v) c ∧ table_ok c (table_ v) ∧ c' = contents c (table_ v) ∧
    d = drops (table_ v).

#[global] Instance open_laws : RawViewLaws F (OpenView F V).
Proof using RV.
  refine {| holds := open_holds |}.
  - intros w c' d sle (c & Hb & Ht & -> & ->) Hp.
    destruct (erase_ok c (table_ w) sle Ht Hp) as (t' & E & Ht' & Hc & Hd).
    exists (set_table w t'). simpl. rewrite E. split; [done|]. exists c. simpl. by rewrite Hc, Hd.
  - intros w c' d sle (c & Hb & Ht & -> & ->) Hp.
    destruct (insert_ok c (table_ w) sle Ht Hp) as (t' & E & Ht' & Hc & Hd).
    exists (set_table w t'). simpl. rewrite E. split; [done|]. exists c. simpl. by rewrite Hc, Hd.
  - intros w c' d sle (c & Hb & Ht & -> & ->) Hp.
    destruct (replace_ok c (table_ w) sle Ht Hp) as (t' & E & Ht' & Hc & Hd).
    exists (set_table w t'). simpl. rewrite E. split; [done|]. exists c. simpl. by rewrite Hc, Hd.
  - intros w c' d x (c & Hb & Ht & -> & ->). by exists c.
  - intros w c' d x (c & Hb & Ht & -> & ->). by exists c.
  - intros w c' d x (c & Hb & Ht & -> & ->). by exists c.
Defined.

(** Handing entries over leaves the transactions alone. *)
Lemma apply_items_txs l (to to' : OpenView F V) :
  apply_items to l = Ok to' → txs_ to' = txs_ to ∧ base_ to' = base_ to.
Proof.
  revert to. induction l as [|[k [a s]] l IH]; simpl; intros to; [by intros [= <-]|].
  intros (to1 & E & E')%rbind_Ok_inv. apply IH in E' as [-> ->].
  unfold apply_item in E. simpl in E. destruct a; simpl in E;
    apply rbind_Ok_inv in E as (t' & _ & [= <-]); done.
Qed.

Lemma insert_txs_ok l (to : OpenView F V) :
  NoDup l.*1 → (∀ k x, (k, x) ∈ l → txs_ to !! k = None) →
  insert_txs to l = Ok (mkOpen (info_ to) (base_ to) (table_ to) (list_to_map l ∪ txs_ to)).
Proof.
  revert to. induction l as [|[k [tx meta]] l IH]; intros to Hnd Hfresh; simpl.
  - rewrite (left_id_L ∅ (∪)). by destruct to.
  - rewrite fmap_cons in Hnd. apply NoDup_cons in Hnd as [Hni Hnd]. simpl in Hni.
    unfold rawTxInsert. rewrite (Hfresh k (tx, meta)) by by left. cbn [rbind].
    rewrite IH; simpl; [| done|].
    + do 2 f_equal. rewrite <- insert_union_l, <- insert_union_r; [done|].
      by apply not_elem_of_list_to_map.
    + intros k' x Hin. rewrite lookup_insert_ne; [apply (Hfresh k' x); by right|].
      intros ->. apply Hni. by apply (list_elem_of_fmap_2 fst _ (k', x)).
Qed.

End open.

(** ** Properties *)

Section properties.
Context {F V : Type} {RV : ReadView F V}.

(** An [OpenView] over a base reads as the overlay of its table on the
    base's entries: [exists], [read] and [succ] (with its bound) answer like the
    combined map, so an open view can itself be the base of another. *)
Theorem openview_reads (v : OpenView F V) c :
  reads_as (base_ v) c → table_ok c (table_ v) → reads_as v (contents c (table_ v)).
Proof. apply open_reads. Qed.

(** Erasing, inserting and replacing an entry in a [RawStateTable] over a
    base with entries [c] succeed when the key is present, absent and present in
    the combined map, keep the table's invariant, and are deletion and insertion
    on the combined map; the drop counters are untouched. *)
Theorem raw_modifications (t : RawStateTable F) c sle :
  table_ok c t →
  (is_Some (contents c t !! sle_key sle) →
   ∃ t', erase t sle = Ok t' ∧ table_ok c t' ∧
     contents c t' = delete (sle_key sle) (contents c t) ∧ drops t' = drops t) ∧
  (contents c t !! sle_key sle = None →
   ∃ t', insert t sle = Ok t' ∧ table_ok c t' ∧
     contents c t' = <[sle_key sle := sle]> (contents c t) ∧ drops t' = drops t) ∧
  (is_Some (contents c t !! sle_key sle) →
   ∃ t', replace t sle = Ok t' ∧ table_ok c t' ∧
     contents c t' = <[sle_key sle := sle]> (contents c t) ∧ drops t' = drops t).
Proof. intros Ht. split_and!; intros; [by apply erase_ok|by apply insert_ok|by apply replace_ok]. Qed.

(** C19: Applying an [OpenView] to a parent open view that holds the entries of
    its base, and shares no transaction with it, succeeds: the parent then reads
    as the child did, its drop counters have the child's added, and its
    transactions are the union. *)
Theorem openview_apply {V'} `{ReadView F V'} (v : OpenView F V) (to : OpenView F V') c d :
  table_ok c (table_ v) → open_holds to c d → txs_ v ##ₘ txs_ to →
  ∃ to', open_apply v to = Ok to' ∧ reads_as to' (contents c (table_ v)) ∧
    open_holds to' (contents c (table_ v)) (add_drops d (drops (table_ v))) ∧
    txs_ to' = txs_ v ∪ txs_ to.
Proof.
  intros Ht Hto Hdisj. unfold open_apply.
  destruct (apply_ok (RL := open_laws) (table_ v) to c d Ht Hto) as (to1 & E & Hh). rewrite E. cbn [rbind].
  destruct (apply_items_txs _ _ _ E) as [Htx _].
  rewrite insert_txs_ok; [|apply in_order_nodup|].
  - eexists. split; [done|]. rewrite list_to_map_in_order, Htx.
    assert (open_holds (mkOpen (info_ to1) (base_ to1) (table_ to1) (txs_ v ∪ txs_ to))
      (contents c (table_ v)) (add_drops d (drops (table_ v)))) as Hh'.
    { destruct Hh as (c0 & Hb & Ht0 & Hc & Hd). by exists c0. }
    split; [|done]. destruct Hh' as (c0 & Hb & Ht0 & -> & _). by apply open_reads.
  - intros k x Hin%elem_of_in_order. rewrite Htx. by eapply map_disjoint_Some_l.
Qed.

End properties.

(** ** The theorems at work

    A closed ledger with three entries, and a table that erases the first,
    replaces the second and adds one between them. *)

Definition closed : gmap Z (SLE Z) :=
  {[10 := mkSLE 10 97 1; 20 := mkSLE 20 97 2; 30 := mkSLE 30 97 3]}.

Definition changes : RawStateTable Z :=
  mkRaw {[10 := (erase_, mkSLE 10 97 1); 15 := (insert_, mkSLE 15 97 4);
          20 := (replace_, mkSLE 20 97 5)]} 7 0 0.

Definition info : LedgerInfo := mkInfo 5 0 0 0 0 true false false.

Definition child_view : OpenView Z (gmap Z (SLE Z)) := mkOpen info closed changes {[1 := ([1], None)]}.

Definition parent_view : OpenView Z (gmap Z (SLE Z)) := mkOpen info closed empty_table {[2 := ([2], None)]}.

Lemma openview_reads_witness : rv_succ child_view 5 None = Some 15 ∧ rv_read child_view (unchecked 10) = None.
Proof.
  destruct (openview_reads child_view closed) as [_ _ Hr Hs].
  - apply map_reads_as. by_computation.
  - by_computation.
  - split; [|rewrite Hr; vm_compute; reflexivity].
    specialize (Hs 5 None). vm_compute. reflexivity.
Defined.

Lemma raw_modifications_witness :
  ∃ t', erase changes (mkSLE 15 97 4) = Ok t' ∧
    contents closed t' = {[20 := mkSLE 20 97 5; 30 := mkSLE 30 97 3]}.
Proof.
  destruct (raw_modifications changes closed (mkSLE 15 97 4)) as [He _]; [by_computation|].
  destruct He as (t' & E & _ & Hc & _); [by_computation|]. exists t'. split; [done|].
  rewrite Hc. by_computation.
Defined.

Lemma openview_apply_witness :
  ∃ to', open_apply child_view parent_view = Ok to' ∧ rv_read to' (unchecked 15) = Some (mkSLE 15 97 4) ∧
    txs_ to' = {[1 := ([1], None); 2 := ([2], None)]}.
Proof.
  destruct (openview_apply child_view parent_view closed (mkDrops 0 0 0)) as (to' & E & Hr & _ & Htx).
  - by_computation.
  - exists closed. split; [apply map_reads_as; by_computation|]. split; [by_computation|].
    split; [symmetry; apply contents_empty|done].
  - by_computation.
  - exists to'. split; [done|]. split; [rewrite (reads_read _ _ Hr); vm_compute; reflexivity|].
    rewrite Htx. by_computation.
Defined.

End RawFacts.
