(* ===== verification/RawIterFacts.v ===== *)
(** * Iterating over an overlay

    [RawStateTable::sles_iter_impl] walks the base's entries and the items side
    by side.  For a table that is valid over the base it never reads a null
    entry, ends, and yields the entries of the combined map in key order. *)

From S2P Require Import Prelude Views Overlay RawStateTable RawFacts.
Import Raw RawFacts.

Module RawIter.

Section facts.
Context {F : Type}.
Implicit Types (sle : SLE F).

Definition sle_lt : relation (SLE F) := λ a b, sle_key a < sle_key b.

#[global] Instance sle_lt_strict : StrictOrder sle_lt.
Proof. split; [intros ?; unfold complement, sle_lt; lia|intros ???; unfold sle_lt; lia]. Qed.

(** The invariant of the two positions: both in key order, and of the remaining
    items only the insertions have no entry in the base. *)
Record positions_ok (l0 : list (SLE F)) (l1 : list (Item F)) : Prop := {
  sorted0 : StronglySorted sle_lt l0;
  sorted1 : StronglySorted sle_lt l1.*2;
  in_base a s : (a, s) ∈ l1 → (a = insert_ ↔ ∀ s', s' ∈ l0 → sle_key s' ≠ sle_key s)
}.

(** What remains to be yielded. *)
Definition remaining (l0 : list (SLE F)) (l1 : list (Item F)) sle : Prop :=
  (∃ a, (a, sle) ∈ l1 ∧ a ≠ erase_) ∨
  (sle ∈ l0 ∧ ∀ i, i ∈ l1 → sle_key i.2 ≠ sle_key sle).

(** The item at hand does not erase the entry at hand. *)
Definition settled (l0 : list (SLE F)) (l1 : list (Item F)) : Prop :=
  match l0, l1 with
  | s0 :: _, (erase_, s1) :: _ => sle_key s0 ≠ sle_key s1
  | _, _ => True
  end.

Lemma sorted_cons_inv s l :
  StronglySorted sle_lt (s :: l) →
  StronglySorted sle_lt l ∧ ∀ s', s' ∈ l → sle_key s < sle_key s'.
Proof. intros [? H]%StronglySorted_inv. split; [done|]. by rewrite Forall_forall in H. Qed.

Lemma items_after (l1 : list (Item F)) (s1 : SLE F) i :
  (∀ s', s' ∈ l1.*2 → sle_key s1 < sle_key s') → i ∈ l1 → sle_key s1 < sle_key i.2.
Proof. intros H Hi. apply H. by apply list_elem_of_fmap_2. Qed.

(** ** Moving the positions *)

Lemma move_base s0 l0 l1 :
  positions_ok (s0 :: l0) l1 → (∀ i, i ∈ l1 → sle_key s0 < sle_key i.2) →
  positions_ok l0 l1.
Proof.
  intros [H0 H1 Hb] Hlt. destruct (sorted_cons_inv _ _ H0) as [H0' _].
  split; [done|done|]. intros a s Hin. rewrite (Hb a s Hin). specialize (Hlt _ Hin); simpl in Hlt.
  split; [intros H s' Hs'; apply H; by right|].
  intros H s' [->|Hs']%elem_of_cons; [lia|by apply H].
Qed.

Lemma move_item i l0 l1 : positions_ok l0 (i :: l1) → positions_ok l0 l1.
Proof.
  intros [H0 H1 Hb]. split; [done|by apply sorted_cons_inv in H1 as [? _]|].
  intros a s Hin. apply Hb. by right.
Qed.

Lemma move_both s0 l0 a s1 l1 :
  positions_ok (s0 :: l0) ((a, s1) :: l1) → sle_key s0 = sle_key s1 → positions_ok l0 l1.
Proof.
  intros H Hk. pose proof (sorted1 _ _ H) as H1. apply sorted_cons_inv in H1 as [_ H1].
  apply move_item in H. apply (move_base s0); [done|]. intros i Hi. rewrite Hk.
  by apply (items_after l1).
Qed.

(** Passing an erased entry loses nothing. *)
Lemma remaining_erased s0 l0 s1 l1 x :
  positions_ok (s0 :: l0) ((erase_, s1) :: l1) → sle_key s0 = sle_key s1 →
  remaining (s0 :: l0) ((erase_, s1) :: l1) x ↔ remaining l0 l1 x.
Proof.
  intros H Hk. destruct (sorted_cons_inv _ _ (sorted0 _ _ H)) as [_ H0]. unfold remaining. split.
  - intros [(a & [[= -> ->]|Hin]%elem_of_cons & Ha)|[[->|Hx]%elem_of_cons Hi]];
      [done|by left; eauto| |].
    + exfalso. apply (Hi (erase_, s1)); [by left|done].
    + right. split; [done|]. intros i Hin. apply Hi. by right.
  - intros [(a & Hin & Ha)|[Hx Hi]]; [left; exists a; split; [by right|done]|].
    right. split; [by right|]. intros i [->|Hin]%elem_of_cons; [|by apply Hi].
    simpl. specialize (H0 _ Hx). lia.
Qed.

(** Passing the entry of the base. *)
Lemma remaining_base s0 l0 l1 x :
  (∀ i, i ∈ l1 → sle_key s0 < sle_key i.2) →
  remaining (s0 :: l0) l1 x ↔ x = s0 ∨ remaining l0 l1 x.
Proof.
  intros Hlt. unfold remaining. rewrite elem_of_cons. split.
  - intros [?|[[->|?] ?]]; eauto.
  - intros [->|[?|[? ?]]]; [right; split; [by left|]|by left|by eauto].
    intros i Hi. specialize (Hlt i Hi). lia.
Qed.

(** Passing the item, and with it the entry of the base it replaces. *)
Lemma remaining_item l0 l0' a s1 l1 x :
  positions_ok l0 ((a, s1) :: l1) → a ≠ erase_ →
  (∀ s, s ∈ l0 ↔ s ∈ l0' ∨ (s ∈ l0 ∧ sle_key s = sle_key s1)) →
  (∀ s, s ∈ l0' → sle_key s1 < sle_key s) →
  remaining l0 ((a, s1) :: l1) x ↔ x = s1 ∨ remaining l0' l1 x.
Proof.
  intros H Ha Hsame Hlt. unfold remaining. split.
  - intros [(b & [[= -> ->]|Hin]%elem_of_cons & Hb)|[[Hx|[_ Hk]]%Hsame Hi]]; [by left|by eauto|..].
    + right. right. split; [done|]. intros i Hin. apply Hi. by right.
    + exfalso. apply (Hi (a, s1)); [by left|done].
  - intros [->|[(b & Hin & Hb)|[Hx Hi]]].
    + left. exists a. split; [by left|done].
    + left. exists b. split; [by right|done].
    + right. split; [apply Hsame; by left|].
      intros i [->|Hin]%elem_of_cons; [|by apply Hi]. simpl. specialize (Hlt _ Hx). lia.
Qed.

(** ** skip *)

Lemma skip_ok l1 l0 :
  positions_ok l0 l1 →
  ∃ it, skip l0 l1 = Ok it ∧ positions_ok (iter0_ it) (iter1_ it) ∧
    settled (iter0_ it) (iter1_ it) ∧
    (length (iter0_ it) + length (iter1_ it) ≤ length l0 + length l1)%nat ∧
    ∀ x, remaining (iter0_ it) (iter1_ it) x ↔ remaining l0 l1 x.
Proof.
  revert l0. induction l1 as [|[a s1] l1 IH]; intros l0 Hok; simpl.
  - exists (mkIter l0 []). simpl. destruct l0; done.
  - destruct (decide (a = erase_)) as [->|Ha].
    2: { exists (mkIter l0 ((a, s1) :: l1)). simpl. destruct a, l0; done. }
    destruct l0 as [|s0 l0].
    { exfalso. destruct (in_base _ _ Hok erase_ s1) as [_ H]; [by left|].
      discriminate H. by intros s' ?%elem_of_nil. }
    simpl. destruct (Z.eqb_spec (sle_key s0) (sle_key s1)) as [Hk|Hk].
    + pose proof (move_both _ _ _ _ _ Hok Hk) as Hok'.
      pose proof (λ x, remaining_erased _ _ _ _ x Hok Hk) as Hrem.
      destruct l0 as [|s l0].
      * exists (mkIter [] l1). split_and!; try done. simpl. lia.
      * destruct (IH (s :: l0) Hok') as (it & E & ? & ? & ? & Hx). exists it.
        split_and!; [done..|simpl in *; lia|]. intros x. by rewrite Hrem, Hx.
    + exists (mkIter (s0 :: l0) ((erase_, s1) :: l1)). simpl. split_and!; done.
Qed.

(** ** increment and dereference *)

Lemma settle (l0 : list (SLE F)) (l1 : list (Item F)) sle (P : SLE F → Prop) n :
  positions_ok l0 l1 → (length l0 + length l1 < n)%nat →
  (∀ x, remaining l0 l1 x → sle_key sle < sle_key x) →
  (∀ x, P x ↔ x = sle ∨ remaining l0 l1 x) →
  ∃ it, skip l0 l1 = Ok it ∧ positions_ok (iter0_ it) (iter1_ it) ∧
    settled (iter0_ it) (iter1_ it) ∧ (length (iter0_ it) + length (iter1_ it) < n)%nat ∧
    (∀ x, remaining (iter0_ it) (iter1_ it) x → sle_key sle < sle_key x) ∧
    ∀ x, P x ↔ x = sle ∨ remaining (iter0_ it) (iter1_ it) x.
Proof.
  intros Hok Hn Hlt HP. destruct (skip_ok _ _ Hok) as (it & E & Hok' & Hs & Hl & Hr).
  exists it. split; [done|]. split; [done|]. split; [done|]. split; [lia|].
  split; intros x; [rewrite Hr; apply Hlt|by rewrite Hr, HP].
Qed.

Lemma remaining_after (l0 : list (SLE F)) (l1 : list (Item F)) k x :
  (∀ s, s ∈ l0 → k < sle_key s) → (∀ i, i ∈ l1 → k < sle_key i.2) →
  remaining l0 l1 x → k < sle_key x.
Proof. intros H0 H1 [(a & Hin & _)|[Hin _]]; [by apply (H1 (a, x))|by apply H0]. Qed.

(** Both positions are at an entry. *)
Lemma step_both s0 (l0 : list (SLE F)) a s1 (l1 : list (Item F)) :
  positions_ok (s0 :: l0) ((a, s1) :: l1) → settled (s0 :: l0) ((a, s1) :: l1) →
  ∃ sle, (if sle_key s1 <=? sle_key s0 then Some s1 else Some s0) = Some sle ∧
  ∃ it', (if sle_key s1 =? sle_key s0 then skip l0 l1
          else if sle_key s1 <? sle_key s0 then skip (s0 :: l0) l1
          else skip l0 ((a, s1) :: l1)) = Ok it' ∧
    positions_ok (iter0_ it') (iter1_ it') ∧ settled (iter0_ it') (iter1_ it') ∧
    (length (iter0_ it') + length (iter1_ it') < length (s0 :: l0) + length ((a, s1) :: l1))%nat ∧
    (∀ x, remaining (iter0_ it') (iter1_ it') x → sle_key sle < sle_key x) ∧
    ∀ x, remaining (s0 :: l0) ((a, s1) :: l1) x ↔ x = sle ∨ remaining (iter0_ it') (iter1_ it') x.
Proof.
  intros Hok Hset. destruct (sorted_cons_inv _ _ (sorted0 _ _ Hok)) as [_ H0].
  destruct (sorted_cons_inv _ _ (sorted1 _ _ Hok)) as [_ H1].
  pose proof (λ i, items_after l1 s1 i H1) as H1'.
  destruct (Z.eqb_spec (sle_key s1) (sle_key s0)) as [Hk|Hk];
    [|destruct (Z.ltb_spec (sle_key s1) (sle_key s0)) as [Hlt|Hge]].
  - rewrite (proj2 (Z.leb_le _ _)) by lia. exists s1. split; [done|]. apply settle.
    + by eapply move_both.
    + simpl. unfold Item. lia.
    + intros x. apply remaining_after; [rewrite Hk; done|done].
    + intros x. apply remaining_item; [done| | |rewrite Hk; done].
      * intros ->. simpl in Hset. congruence.
      * intros s. rewrite elem_of_cons. split; [intros [->|?]; auto|tauto].
  - rewrite (proj2 (Z.leb_le _ _)) by lia. exists s1. split; [done|].
    assert (∀ s, s ∈ s0 :: l0 → sle_key s1 < sle_key s) as H01.
    { intros s [->|Hs%H0]%elem_of_cons; lia. }
    apply settle.
    + by eapply move_item.
    + simpl. unfold Item. lia.
    + intros x. by apply remaining_after.
    + intros x. apply remaining_item; [done| |tauto|done].
      intros ->. destruct (in_base _ _ Hok erase_ s1) as [_ H]; [by left|].
      discriminate H. intros s' Hs'%H01. lia.
  - rewrite (proj2 (Z.leb_gt _ _)) by lia. exists s0. split; [done|].
    assert (∀ i, i ∈ (a, s1) :: l1 → sle_key s0 < sle_key i.2) as H01.
    { intros i [->|Hi%H1']%elem_of_cons; simpl; lia. }
    apply settle.
    + by eapply move_base.
    + simpl. unfold Item. lia.
    + intros x. by apply remaining_after.
    + intros x. by apply remaining_base.
Qed.

(** One turn of the loop: the entry at hand is the first of those that remain. *)
Lemma step_ok (it : @sles_iter F) :
  positions_ok (iter0_ it) (iter1_ it) → settled (iter0_ it) (iter1_ it) →
  equal it slesEnd = false →
  ∃ sle, dereference it = Some sle ∧
  ∃ it', increment it = Ok it' ∧ positions_ok (iter0_ it') (iter1_ it') ∧
    settled (iter0_ it') (iter1_ it') ∧
    (length (iter0_ it') + length (iter1_ it') < length (iter0_ it) + length (iter1_ it))%nat ∧
    (∀ x, remaining (iter0_ it') (iter1_ it') x → sle_key sle < sle_key x) ∧
    ∀ x, remaining (iter0_ it) (iter1_ it) x ↔ x = sle ∨ remaining (iter0_ it') (iter1_ it') x.
Proof.
  destruct it as [[|s0 l0] [|[a s1] l1]]; unfold dereference, increment; cbn [iter0_ iter1_ head];
    intros Hok Hset Hne; [done|..].
  - destruct (sorted_cons_inv _ _ (sorted1 _ _ Hok)) as [_ H1].
    assert (a = insert_) as -> by (apply (in_base _ _ Hok a s1); [by left|by intros ? ?%elem_of_nil]).
    exists s1. split; [done|]. exists (mkIter [] l1). split; [done|].
    split; [by eapply move_item|]. split; [done|]. split; [simpl; unfold Item; lia|]. split.
    + intros x. apply remaining_after; [by intros ? ?%elem_of_nil|]. intros i. by apply items_after.
    + intros x. apply remaining_item; [done|done|tauto|by intros ? ?%elem_of_nil].
  - destruct (sorted_cons_inv _ _ (sorted0 _ _ Hok)) as [_ H0].
    exists s0. split; [done|]. exists (mkIter l0 []). split; [done|].
    split; [apply (move_base s0); [done|by intros ? ?%elem_of_nil]|].
    split; [by destruct l0|]. split; [simpl; unfold Item; lia|]. split.
    + intros x. apply remaining_after; [done|]. by intros ? ?%elem_of_nil.
    + intros x. apply remaining_base. by intros ? ?%elem_of_nil.
  - apply step_both; done.
Qed.

(** ** The whole loop *)

Lemma iterate_ok fuel (it : @sles_iter F) :
  positions_ok (iter0_ it) (iter1_ it) → settled (iter0_ it) (iter1_ it) →
  (length (iter0_ it) + length (iter1_ it) ≤ fuel)%nat →
  ∃ l, iterate fuel it = Ok l ∧ StronglySorted sle_lt l ∧
    ∀ x, x ∈ l ↔ remaining (iter0_ it) (iter1_ it) x.
Proof.
  revert it. induction fuel as [|fuel IH]; intros it Hok Hset Hf;
    destruct (equal it slesEnd) eqn:He; simpl; rewrite He.
  1, 3: exists []; split; [done|]; split; [constructor|]; intros x;
    destruct it as [[] []]; try done; unfold remaining; simpl;
    split; [by intros ?%elem_of_nil|by intros [(? & ?%elem_of_nil & _)|[?%elem_of_nil _]]].
  - destruct it as [[] []]; simpl in *; [done|lia..].
  - destruct (step_ok it Hok Hset He) as (sle & -> & it' & -> & Hok' & Hset' & Hl & Hlt & Hrem).
    cbn [rbind]. destruct (IH it' Hok' Hset') as (l & -> & Hs & Hx); [lia|].
    exists (sle :: l). split; [done|]. split.
    + constructor; [done|]. apply Forall_forall. intros x Hin%Hx. by apply Hlt.
    + intros x. by rewrite elem_of_cons, Hx, Hrem.
Qed.

Lemma sorted_nodup (l : list (SLE F)) : StronglySorted sle_lt l → NoDup l.
Proof.
  induction 1 as [|x l _ IH Hall]; constructor; [|done].
  rewrite Forall_forall in Hall. intros Hin%Hall. unfold sle_lt in Hin. lia.
Qed.

Lemma sorted_same (l l' : list (SLE F)) :
  StronglySorted sle_lt l → StronglySorted sle_lt l' → (∀ x, x ∈ l ↔ x ∈ l') → l = l'.
Proof.
  intros Hl Hl' Hx. eapply (StronglySorted_unique_strong sle_lt); [|done|done|].
  - intros x y _ _. unfold sle_lt. lia.
  - apply NoDup_Permutation; [by apply sorted_nodup..|done].
Qed.

(** ** The positions of a valid table *)

Lemma values_sorted (l : list (Z * SLE F)) :
  StronglySorted key_lt l → (∀ k s, (k, s) ∈ l → sle_key s = k) → StronglySorted sle_lt l.*2.
Proof.
  induction 1 as [|[k s] l Hs IH Hall]; intros Hk; simpl; constructor.
  - apply IH. intros k' s' Hin. apply Hk. by right.
  - apply Forall_forall. intros s' ([k' ?] & -> & Hin)%list_elem_of_fmap.
    rewrite Forall_forall in Hall. specialize (Hall _ Hin). unfold key_lt in Hall. unfold sle_lt.
    simpl in *. rewrite (Hk k s) by (by left). rewrite (Hk k' s0) by (by right). done.
Qed.

(** Lists of the entries and of the items whose keys are in a range. *)
Definition entries_of (P : Z → Prop) (m : gmap Z (SLE F)) (l : list (SLE F)) : Prop :=
  StronglySorted sle_lt l ∧ ∀ s, s ∈ l ↔ P (sle_key s) ∧ m !! sle_key s = Some s.

Definition items_of (P : Z → Prop) (m : gmap Z (Item F)) (l : list (Item F)) : Prop :=
  StronglySorted sle_lt l.*2 ∧ ∀ a s, (a, s) ∈ l ↔ P (sle_key s) ∧ m !! sle_key s = Some (a, s).

Lemma entries_same P m l l' : entries_of P m l → entries_of P m l' → l = l'.
Proof. intros [? Hl] [? Hl']. apply sorted_same; [done..|]. intros x. by rewrite Hl, Hl'. Qed.

Lemma positions_of P c t l0 l1 :
  keyed c → table_ok c t → entries_of P c l0 → items_of P (items_ t) l1 → positions_ok l0 l1.
Proof.
  intros Hc Ht [H0 Hl0] [H1 Hl1]. split; [done|done|].
  intros a s [HP Hi]%Hl1. apply Ht in Hi as [_ Hi]. simpl in Hi.
  destruct (c !! sle_key s) as [s'|] eqn:E.
  - split; [intros ->; by simpl in Hi|]. intros H. exfalso. apply (H s'); [|by apply Hc in E].
    apply Hl0. by rewrite (Hc _ _ E).
  - split; [|by destruct a; intros; [destruct Hi|..|destruct Hi]].
    intros _ s' [_ Hs']%Hl0 Hk. congruence.
Qed.

Lemma remaining_of P c t l0 l1 x :
  keyed c → table_ok c t → entries_of P c l0 → items_of P (items_ t) l1 →
  remaining l0 l1 x ↔ P (sle_key x) ∧ contents c t !! sle_key x = Some x.
Proof.
  intros Hc Ht [_ Hl0] [_ Hl1]. unfold remaining. rewrite contents_lookup, Hl0.
  assert (∀ i, i ∈ l1 ↔ P (sle_key i.2) ∧ items_ t !! sle_key i.2 = Some i) as Hl1'.
  { intros [a s]. apply Hl1. }
  destruct (items_ t !! sle_key x) as [[a s]|] eqn:E.
  - pose proof (Ht _ _ E) as [Hk _]. simpl in Hk. split.
    + intros [(b & [HP Hb]%Hl1 & Hne)|[[HP _] Hi]].
      * split; [done|]. pose proof (eq_trans (eq_sym E) Hb) as [= -> ->]. by destruct b.
      * exfalso. apply (Hi (a, s)); [apply Hl1'; simpl; by rewrite Hk|done].
    + intros [HP Hl]. left. exists a. destruct a; [done|..]; injection Hl as ->;
        (split; [apply Hl1; split; [done|exact E]|done]).
  - split.
    + intros [(b & [HP Hb]%Hl1 & Hne)|[HP Hi]]; [by pose proof (eq_trans (eq_sym E) Hb)|done].
    + intros HP. right. split; [done|]. intros i [_ Hi]%Hl1' Hk. rewrite Hk in Hi.
      by pose proof (eq_trans (eq_sym E) Hi).
Qed.

Lemma sles_iter_impl_skip (l0 : list (SLE F)) l1 : sles_iter_impl l0 l1 = skip l0 l1.
Proof. by destruct l0, l1. Qed.

Lemma loop_ok P c t l0 l1 l fuel :
  (length l0 + length l1 ≤ fuel)%nat →
  keyed c → table_ok c t → entries_of P c l0 → items_of P (items_ t) l1 →
  entries_of P (contents c t) l →
  (let* it := sles_iter_impl l0 l1 in iterate fuel it) = Ok l.
Proof.
  intros Hf Hc Ht H0 H1 Hl. rewrite sles_iter_impl_skip.
  destruct (skip_ok l1 l0) as (it & -> & Hok & Hset & Hlen & Hrem); [by eapply positions_of|].
  cbn [rbind]. destruct (iterate_ok fuel it Hok Hset) as (r & -> & Hs & Hx); [lia|].
  f_equal. eapply entries_same; [|exact Hl]. split; [done|].
  intros x. rewrite Hx, Hrem. by eapply remaining_of.
Qed.

(** ** The lists the code iterates over *)

Lemma in_order_entries c : keyed c → entries_of (λ _, True) c (in_order c).*2.
Proof.
  intros Hc. split.
  - apply values_sorted; [apply in_order_sorted|]. by intros k s ?%elem_of_in_order%Hc.
  - intros s. rewrite list_elem_of_fmap. split.
    + intros ([k s'] & -> & Hs%elem_of_in_order). simpl. by rewrite (Hc _ _ Hs).
    + intros [_ Hs]. exists (sle_key s, s). by rewrite elem_of_in_order.
Qed.

Lemma filter_entries c l key :
  entries_of (λ _, True) c l → entries_of (λ k, key < k) c (filter (λ s, key < sle_key s) l).
Proof.
  intros [Hs Hl]. split; [by apply StronglySorted_filter|].
  intros s. rewrite list_elem_of_filter, Hl. tauto.
Qed.

Lemma upper_bound_entries c key : keyed c → entries_of (λ k, key < k) c (upper_bound c key).*2.
Proof.
  intros Hc. split.
  - apply values_sorted; [apply upper_bound_sorted|]. by intros k s [_ ?%Hc]%elem_of_upper_bound.
  - intros s. rewrite list_elem_of_fmap. split.
    + intros ([k s'] & -> & [Hk Hs]%elem_of_upper_bound). simpl. by rewrite (Hc _ _ Hs).
    + intros [Hk Hs]. exists (sle_key s, s). by rewrite elem_of_upper_bound.
Qed.

Lemma items_sorted c t (l : list (Z * Item F)) :
  table_ok c t → StronglySorted key_lt l → (∀ k i, (k, i) ∈ l → items_ t !! k = Some i) →
  StronglySorted sle_lt l.*2.*2.
Proof.
  intros Ht Hs Hl.
  replace (l.*2.*2) with (((λ p : Z * Item F, (p.1, p.2.2)) <$> l).*2)
    by (by rewrite <- !list_fmap_compose).
  apply values_sorted.
  - clear Hl. induction Hs as [|p l Hs IH Hall]; simpl; constructor; [done|].
    apply Forall_fmap. by eapply Forall_impl.
  - intros k s ([k' [a s']] & [= -> ->] & Hin)%list_elem_of_fmap. by apply Hl, Ht in Hin as [? _].
Qed.

Lemma in_order_items c t : table_ok c t → items_of (λ _, True) (items_ t) (in_order (items_ t)).*2.
Proof.
  intros Ht. split.
  - eapply items_sorted; [done|apply in_order_sorted|]. by intros k i ?%elem_of_in_order.
  - intros a s. rewrite list_elem_of_fmap. split.
    + intros ([k [a' s']] & [= -> ->] & Hs%elem_of_in_order). destruct (Ht _ _ Hs) as [Hk' _].
      simpl in Hk'. by subst k.
    + intros [_ Hs]. exists (sle_key s, (a, s)). by rewrite elem_of_in_order.
Qed.

Lemma upper_bound_items c t key :
  table_ok c t → items_of (λ k, key < k) (items_ t) (upper_bound (items_ t) key).*2.
Proof.
  intros Ht. split.
  - eapply items_sorted; [done|apply upper_bound_sorted|]. by intros k i [_ ?]%elem_of_upper_bound.
  - intros a s. rewrite list_elem_of_fmap. split.
    + intros ([k [a' s']] & [= -> ->] & [Hk Hs]%elem_of_upper_bound). destruct (Ht _ _ Hs) as [Hk' _].
      simpl in Hk'. by subst k.
    + intros [Hk Hs]. exists (sle_key s, (a, s)). by rewrite elem_of_upper_bound.
Qed.

(** C33: Over a base whose entries are iterated in key order, the loop from
    [slesBegin] to [slesEnd] and the loop from [slesUpperBound (key)] to
    [slesEnd] of a valid table end without touching a null entry and yield
    exactly the entries of the combined map, respectively those after [key], in
    key order. *)
Theorem sles_enumerates (c : gmap Z (SLE F)) (t : RawStateTable F) key :
  keyed c → table_ok c t →
  let base := (in_order c).*2 in
  let fuel := (size c + size (items_ t))%nat in
  (let* it := slesBegin t base in iterate fuel it) = Ok (in_order (contents c t)).*2 ∧
  (let* it := slesUpperBound t base key in iterate fuel it) = Ok (upper_bound (contents c t) key).*2.
Proof.
  intros Hc Ht. simpl. pose proof (contents_keyed c t Hc Ht) as Hct.
  pose proof (in_order_entries c Hc) as H0. split.
  - apply (loop_ok (λ _, True) c t); [|done|done|done|by eapply in_order_items|by apply in_order_entries].
    by rewrite !length_fmap, !length_in_order.
  - apply (loop_ok (λ k, key < k) c t); [|done|done|by apply filter_entries|by eapply upper_bound_items|
      by apply upper_bound_entries].
    apply Nat.add_le_mono; [|apply length_upper_bound].
    etrans; [apply length_filter|]. by rewrite length_fmap, length_in_order.
Qed.

End facts.

Lemma sles_enumerates_witness :
  let c : gmap Z (SLE Z) := {[10 := mkSLE 10 97 1; 20 := mkSLE 20 97 2; 30 := mkSLE 30 97 3]} in
  let t := mkRaw {[10 := (erase_, mkSLE 10 97 1); 15 := (insert_, mkSLE 15 97 4);
                   20 := (replace_, mkSLE 20 97 5)]} 0 0 0 in
  (let* it := slesBegin t (in_order c).*2 in iterate 6 it) =
    Ok [mkSLE 15 97 4; mkSLE 20 97 5; mkSLE 30 97 3].
Proof.
  intros c t. destruct (sles_enumerates c t 0) as [H _].
  - by_computation.
  - by_computation.
  - etransitivity; [exact H|]. vm_compute. reflexivity.
Defined.

End RawIter.
