(* ===== verification/ApplyStateTable.v ===== *)
(** * ApplyStateTable and ApplyViewBase

    ledger/detail/ApplyStateTable.h, ledger/impl/ApplyStateTable.cpp and
    ledger/impl/ApplyViewBase.cpp: the changes a transaction makes, buffered over
    a base view.  Callers hold pointers to the buffered entries, change them in
    place and tell the table afterwards, and the table compares pointers to
    recognise its own entries; so the entries live in a store, and the items hold
    locations in it. *)

From S2P Require Import Prelude Issue STAmount Views Overlay.

Module Apply.

Inductive Action := cache | erase_ | insert_ | modify.

#[global] Instance Action_eq_dec : EqDecision Action.
Proof. solve_decision. Defined.

(** A [std::shared_ptr<SLE>] that is not null. *)
Definition loc : Type := positive.

Record ApplyView (F V : Type) := mkApply {
  base_ : V;
  store : gmap loc (SLE F);
  items_ : gmap Z (Action * loc);
  dropsDestroyed_ : Z;
  dropsCreated_ : Z;
  dropsVBCCreated_ : Z;
  feeShareTakers_ : list (AccountID * Amt.STAmount)
}.
Arguments mkApply {F V} _ _ _ _ _ _ _.
Arguments base_ {F V} _.
Arguments store {F V} _.
Arguments items_ {F V} _.
Arguments dropsDestroyed_ {F V} _.
Arguments dropsCreated_ {F V} _.
Arguments dropsVBCCreated_ {F V} _.
Arguments feeShareTakers_ {F V} _.

Section view.
Context {F V : Type} `{ReadView F V}.
Implicit Types (v : ApplyView F V) (sle : SLE F) (p : loc).

Definition apply_view (base : V) : ApplyView F V := mkApply base ∅ ∅ 0 0 0 [].

Definition set_items v (m : gmap Z (Action * loc)) : ApplyView F V :=
  mkApply (base_ v) (store v) m (dropsDestroyed_ v) (dropsCreated_ v) (dropsVBCCreated_ v) (feeShareTakers_ v).

Definition set_store v (m : gmap loc (SLE F)) : ApplyView F V :=
  mkApply (base_ v) m (items_ v) (dropsDestroyed_ v) (dropsCreated_ v) (dropsVBCCreated_ v) (feeShareTakers_ v).

(** ** The store *)

(** [std::make_shared<SLE> (sle)] *)
Definition make_shared v sle : ApplyView F V * loc :=
  let p := fresh (dom (store v)) in (set_store v (<[p := sle]> (store v)), p).

(** [*p] *)
Definition deref v p : result (SLE F) :=
  match store v !! p with
  | Some sle => Ok sle
  | None => Throw (Undefined "dangling pointer")
  end.

(** Setting fields of the entry behind a pointer. *)
Definition assign v p (f : F → F) : ApplyView F V :=
  set_store v (alter (λ sle, mkSLE (sle_key sle) (sle_type sle) (f (fields sle))) p (store v)).

(** ** Lookups *)

Definition is_erase (i : Action * loc) : bool := bool_decide (i.1 = erase_).

Definition exists_ v (k : Keylet) : bool :=
  match items_ v !! k_key k with
  | None => rv_exists (base_ v) k
  | Some (erase_, _) => false
  | Some (_, p) =>
      match store v !! p with Some sle => check k sle | None => false end
  end.

Definition succ v (key : Z) (last : option Z) : option Z :=
  overlay_succ is_erase (items_ v) (rv_succ (base_ v)) key last.

Definition read v (k : Keylet) : option (SLE F) :=
  match items_ v !! k_key k with
  | None => rv_read (base_ v) k
  | Some (erase_, _) => None
  | Some (_, p) =>
      match store v !! p with
      | Some sle => if check k sle then Some sle else None
      | None => None
      end
  end.

(** The first [peek] of an entry makes a copy of it. *)
Definition peek v (k : Keylet) : ApplyView F V * option loc :=
  match items_ v !! k_key k with
  | None =>
      match rv_read (base_ v) k with
      | None => (v, None)
      | Some sle =>
          let '(v, p) := make_shared v sle in
          (set_items v (<[sle_key sle := (cache, p)]> (items_ v)), Some p)
      end
  | Some (erase_, _) => (v, None)
  | Some (_, p) =>
      match store v !! p with
      | Some sle => if check k sle then (v, Some p) else (v, None)
      | None => (v, None)
      end
  end.

(** ** Modifications *)

Definition erase v p : result (ApplyView F V) :=
  let* sle := deref v p in
  let k := sle_key sle in
  match items_ v !! k with
  | None => Throw (LogicError "ApplyStateTable::erase: missing key")
  | Some (a, q) =>
      if negb (bool_decide (q = p)) then Throw (LogicError "ApplyStateTable::erase: unknown SLE")
      else
        match a with
        | erase_ => Throw (LogicError "ApplyStateTable::erase: double erase")
        | insert_ => Ok (set_items v (delete k (items_ v)))
        | cache | modify => Ok (set_items v (<[k := (erase_, q)]> (items_ v)))
        end
  end.

Definition rawErase v p : result (ApplyView F V) :=
  let* sle := deref v p in
  let k := sle_key sle in
  match items_ v !! k with
  | None => Ok (set_items v (<[k := (erase_, p)]> (items_ v)))
  | Some (erase_, _) => Throw (LogicError "ApplyStateTable::rawErase: double erase")
  | Some (insert_, _) => Ok (set_items v (delete k (items_ v)))
  | Some (_, _) => Ok (set_items v (<[k := (erase_, p)]> (items_ v)))
  end.

Definition insert v p : result (ApplyView F V) :=
  let* sle := deref v p in
  let k := sle_key sle in
  match items_ v !! k with
  | None => Ok (set_items v (<[k := (insert_, p)]> (items_ v)))
  | Some (cache, _) => Throw (LogicError "ApplyStateTable::insert: already cached")
  | Some (insert_, _) => Throw (LogicError "ApplyStateTable::insert: already inserted")
  | Some (modify, _) => Throw (LogicError "ApplyStateTable::insert: already modified")
  | Some (erase_, _) => Ok (set_items v (<[k := (modify, p)]> (items_ v)))
  end.

Definition replace v p : result (ApplyView F V) :=
  let* sle := deref v p in
  let k := sle_key sle in
  match items_ v !! k with
  | None => Ok (set_items v (<[k := (modify, p)]> (items_ v)))
  | Some (erase_, _) => Throw (LogicError "ApplyStateTable::replace: already erased")
  | Some (cache, _) => Ok (set_items v (<[k := (modify, p)]> (items_ v)))
  | Some (a, _) => Ok (set_items v (<[k := (a, p)]> (items_ v)))
  end.

Definition update v p : result (ApplyView F V) :=
  let* sle := deref v p in
  let k := sle_key sle in
  match items_ v !! k with
  | None => Throw (LogicError "ApplyStateTable::update: missing key")
  | Some (a, q) =>
      if negb (bool_decide (q = p)) then Throw (LogicError "ApplyStateTable::update: unknown SLE")
      else
        match a with
        | erase_ => Throw (LogicError "ApplyStateTable::update: erased")
        | cache => Ok (set_items v (<[k := (modify, q)]> (items_ v)))
        | insert_ | modify => Ok v
        end
  end.

Definition destroyXRP v (fee : Z) : ApplyView F V :=
  mkApply (base_ v) (store v) (items_ v) (i64 (dropsDestroyed_ v + fee)) (dropsCreated_ v)
    (dropsVBCCreated_ v) (feeShareTakers_ v).

Definition createXRP v (drops : Z) : ApplyView F V :=
  mkApply (base_ v) (store v) (items_ v) (dropsDestroyed_ v) (i64 (dropsCreated_ v + drops))
    (dropsVBCCreated_ v) (feeShareTakers_ v).

Definition createVBC v (drops : Z) : ApplyView F V :=
  mkApply (base_ v) (store v) (items_ v) (dropsDestroyed_ v) (dropsCreated_ v)
    (i64 (dropsVBCCreated_ v + drops)) (feeShareTakers_ v).

(** [peekFeeShareTakers () = takers] *)
Definition set_takers v (takers : list (AccountID * Amt.STAmount)) : ApplyView F V :=
  mkApply (base_ v) (store v) (items_ v) (dropsDestroyed_ v) (dropsCreated_ v) (dropsVBCCreated_ v) takers.

(** ** What was changed *)

Fixpoint size_items (l : list (Z * (Action * loc))) : nat :=
  match l with
  | [] => 0
  | (_, (cache, _)) :: l' => size_items l'
  | _ :: l' => S (size_items l')
  end.

Definition size v : nat := size_items (in_order (items_ v)).

(** The calls [visit] makes: the key, whether the entry is deleted, the entry
    before and the entry after. *)
Record Visit := mkVisit {
  v_key : Z;
  isDelete : bool;
  before_ : option (SLE F);
  after_ : option (SLE F)
}.

Fixpoint visit_items {V'} `{ReadView F V'} (to : V') (st : gmap loc (SLE F))
    (l : list (Z * (Action * loc))) : list Visit :=
  match l with
  | [] => []
  | (k, (a, p)) :: l' =>
      let rest := visit_items to st l' in
      match a with
      | erase_ => mkVisit k true (rv_read to (unchecked k)) (st !! p) :: rest
      | insert_ => mkVisit k false None (st !! p) :: rest
      | modify => mkVisit k false (rv_read to (unchecked k)) (st !! p) :: rest
      | cache => rest
      end
  end.

Definition visit {V'} `{ReadView F V'} v (to : V') : list Visit :=
  visit_items to (store v) (in_order (items_ v)).

(** ** The interfaces *)

#[global] Instance apply_read_view : ReadView F (ApplyView F V) := {
  rv_exists := exists_;
  rv_read := read;
  rv_succ := succ
}.

(** The entries handed over by another view come with their pointers, which
    no item of this view holds yet. *)
Definition raw (op : ApplyView F V → loc → result (ApplyView F V)) v sle : result (ApplyView F V) :=
  let '(v, p) := make_shared v sle in op v p.

#[global] Instance apply_raw_view : RawView F (ApplyView F V) := {
  Views.rawErase := raw rawErase;
  Views.rawInsert := raw insert;
  Views.rawReplace := raw replace;
  Views.rawDestroyXRP := destroyXRP;
  Views.rawCreateXRP := createXRP;
  Views.rawCreateVBC := createVBC
}.

End view.

(** ** Handing the changes to another view *)

Section apply.
Context {F V W : Type} `{RawView F W}.

Definition apply_item (st : gmap loc (SLE F)) (to : W) (item : Action * loc) : result W :=
  match item.1, st !! item.2 with
  | cache, _ => Ok to
  | erase_, Some sle => Views.rawErase to sle
  | insert_, Some sle => rawInsert to sle
  | modify, Some sle => rawReplace to sle
  | _, None => Throw (Undefined "dangling pointer")
  end.

Fixpoint apply_items (st : gmap loc (SLE F)) (to : W) (l : list (Z * (Action * loc))) : result W :=
  match l with
  | [] => Ok to
  | (_, item) :: l' => let* to := apply_item st to item in apply_items st to l'
  end.

Definition apply (v : ApplyView F V) (to : W) : result W :=
  let to := rawCreateXRP to (dropsCreated_ v) in
  let to := rawCreateVBC to (dropsVBCCreated_ v) in
  let to := rawDestroyXRP to (dropsDestroyed_ v) in
  apply_items (store v) to (in_order (items_ v)).

End apply.

End Apply.
