(* ===== verification/ApplyFacts.v ===== *)
(** * Facts about ApplyStateTable

    What a view of the changes of a transaction stands for, and that the
    operations on it (looking up a pointer, changing the entry behind it, telling
    the table, erasing, inserting, handing everything on) implement operations on
    a map. *)

From S2P Require Import Prelude Views Overlay ApplyStateTable.
Import Apply.

Module ApplyFacts.

Section facts.
Context {F V : Type} {RV : ReadView F V}.
Implicit Types (v : ApplyView F V) (s : SLE F) (c : gmap Z (SLE F)) (p q : loc).

(** The entry an item stands for. *)
Definition live (st : gmap loc (SLE F)) (i : Action * loc) : option (SLE F) :=
  if is_erase i then None else st !! i.2.

(** The entries seen through the view, over a base with entries [c]. *)
Definition contents c v : gmap Z (SLE F) := overlay (live (store v)) (items_ v) c.

(** The invariant: the items point to entries with their own keys, and only
    the inserted ones are new to the base. *)
Definition item_ok c (st : gmap loc (SLE F)) (k : Z) (i : Action * loc) : Prop :=
  match st !! i.2 with
  | Some s => sle_key s = k ∧ match i.1 with insert_ => c !! k = None | _ => is_Some (c !! k) end
  | None => False
  end.

Definition view_ok c v : Prop := map_Forall (item_ok c (store v)) (items_ v).

#[global] Instance apply_item_ok_dec c st k i : Decision (item_ok c st k i).
Proof. unfold item_ok. destruct (st !! i.2), (i.1); apply _. Defined.

#[global] Instance view_ok_dec c v : Decision (view_ok c v).
Proof. unfold view_ok. apply _. Defined.

(** [p] is the pointer the view hands out for the entry [s]. *)
Definition handle v p s : Prop :=
  store v !! p = Some s ∧ ∃ a, items_ v !! sle_key s = Some (a, p) ∧ a ≠ erase_.

(** The cached entries are still the base's, except those with keys in [K],
    which have been changed without telling the table. *)
Definition clean_but c (K : gset Z) v : Prop :=
  ∀ k p, items_ v !! k = Some (cache, p) → k ∉ K → store v !! p = c !! k.

(** What the operations on entries leave alone. *)
Definition drops v : Drops := mkDrops (dropsCreated_ v) (dropsVBCCreated_ v) (dropsDestroyed_ v).

Definition frame v v' : Prop := base_ v' = base_ v ∧ drops v' = drops v.

Lemma apply_contents_lookup c v k :
  contents c v !! k = match items_ v !! k with Some i => live (store v) i | None => c !! k end.
Proof. apply lookup_overlay. Qed.

Lemma ok_item c v k a p :
  view_ok c v → items_ v !! k = Some (a, p) →
  ∃ s, store v !! p = Some s ∧ sle_key s = k ∧
    match a with insert_ => c !! k = None | _ => is_Some (c !! k) end.
Proof.
  intros Hv Hi. apply Hv in Hi. unfold item_ok in Hi. simpl in Hi.
  destruct (store v !! p) as [s|]; [by exists s|done].
Qed.

Lemma handle_contents c v p s : handle v p s → contents c v !! sle_key s = Some s.
Proof.
  intros (Hs & a & Hi & Ha). rewrite apply_contents_lookup, Hi. unfold live, is_erase; simpl.
  by rewrite bool_decide_false by done.
Qed.

Lemma apply_contents_keyed c v : keyed c → view_ok c v → keyed (contents c v).
Proof.
  intros Hc Hv k s. rewrite apply_contents_lookup. destruct (items_ v !! k) as [[a p]|] eqn:Hi; [|apply Hc].
  destruct (ok_item c v k a p Hv Hi) as (s' & Hs & Hk & _). unfold live. destruct (is_erase _); [done|].
  simpl. rewrite Hs. by intros [= <-].
Qed.

(** ** Reading *)

Lemma view_reads v c :
  reads_as (base_ v) c → view_ok c v → reads_as v (contents c v).
Proof.
  intros Hb Hv. split.
  - apply apply_contents_keyed; [by apply (reads_keyed (base_ v))|done].
  - intros k. simpl. unfold exists_, lookup_keylet. rewrite apply_contents_lookup.
    destruct (items_ v !! k_key k) as [[a p]|] eqn:Hi.
    + destruct (ok_item c v _ a p Hv Hi) as (s & Hs & _). unfold live, is_erase; simpl.
      rewrite Hs. destruct a; simpl; try done; by destruct (check k s).
    + by rewrite (reads_exists _ _ Hb).
  - intros k. simpl. unfold read, lookup_keylet. rewrite apply_contents_lookup.
    destruct (items_ v !! k_key k) as [[a p]|] eqn:Hi.
    + destruct (ok_item c v _ a p Hv Hi) as (s & Hs & _). unfold live, is_erase; simpl.
      rewrite Hs. by destruct a.
    + by rewrite (reads_read _ _ Hb).
  - intros key last. simpl. apply overlay_succ_ok; [|intros; by apply reads_succ].
    intros k [a p] Hi. destruct (ok_item c v k a p Hv Hi) as (s & Hs & _).
    unfold live. simpl. destruct (is_erase (a, p)); [done|]. by rewrite Hs.
Qed.

(** ** Changing the items *)

Lemma apply_set_item_ok c v k i :
  view_ok c v → item_ok c (store v) k i →
  view_ok c (set_items v (<[k := i]> (items_ v))) ∧
  contents c (set_items v (<[k := i]> (items_ v))) =
    match live (store v) i with
    | Some s => <[k := s]> (contents c v)
    | None => delete k (contents c v)
    end.
Proof. intros Hv Hi. split; [by apply map_Forall_insert_2|]. apply overlay_insert. Qed.

Lemma set_item_clean c K v k a p :
  clean_but c K v → (a = cache → k ∉ K → store v !! p = c !! k) →
  clean_but c K (set_items v (<[k := (a, p)]> (items_ v))).
Proof.
  intros Hc Ha k' p' Hi. simpl in Hi. apply lookup_insert_Some in Hi as [[<- [= -> ->]]|[_ Hi]]; auto.
Qed.

(** Once the table knows, the entry is no longer a cached one. *)
Lemma set_item_known c K v k a p :
  clean_but c K v → a ≠ cache →
  clean_but c (K ∖ {[k]}) (set_items v (<[k := (a, p)]> (items_ v))).
Proof.
  intros Hc Ha k' p' Hi HK. simpl in Hi. apply lookup_insert_Some in Hi as [[<- [= -> ->]]|[Hne Hi]]; [done|].
  apply (Hc k' p' Hi). set_solver.
Qed.

(** The entries an operation that only sets the item of [k] leaves alone. *)
Lemma handle_other v k i p s :
  handle v p s → sle_key s ≠ k → handle (set_items v (<[k := i]> (items_ v))) p s.
Proof.
  intros (Hs & a & Hi & Ha) Hne. split; [done|]. exists a. split; [|done].
  simpl. by rewrite lookup_insert_ne by done.
Qed.

(** ** Allocating *)

Lemma make_shared_fresh v s : store v !! fresh (dom (store v)) = None.
Proof. apply not_elem_of_dom, is_fresh. Qed.

Lemma make_shared_store v s q s' :
  store v !! q = Some s' → store (make_shared v s).1 !! q = Some s'.
Proof.
  intros Hq. simpl. rewrite lookup_insert_ne; [done|]. intros Heq.
  pose proof (make_shared_fresh v s) as Hf. rewrite Heq in Hf. congruence.
Qed.

Lemma make_shared_ok c K v s :
  view_ok c v → clean_but c K v →
  let v' := (make_shared v s).1 in
  view_ok c v' ∧ contents c v' = contents c v ∧ clean_but c K v' ∧
  store v' !! (make_shared v s).2 = Some s ∧ (∀ p s', handle v p s' → handle v' p s').
Proof.
  intros Hv Hc. pose proof (make_shared_store v s) as Hst.
  assert (items_ (make_shared v s).1 = items_ v) as Hit by done.
  destruct (make_shared v s) as [v' p0] eqn:E. cbn [fst snd] in *. split.
  { intros k [a p] Hi. rewrite Hit in Hi. destruct (ok_item c v k a p Hv Hi) as (s' & Hs & Hk & Ha).
    unfold item_ok. cbn [fst snd]. by rewrite (Hst _ _ Hs). }
  split_and!.
  - apply map_eq. intros k. rewrite !apply_contents_lookup, Hit.
    destruct (items_ v !! k) as [[a p]|] eqn:Hi; [|done].
    destruct (ok_item c v k a p Hv Hi) as (s' & Hs & _). unfold live. cbn [fst snd].
    destruct (is_erase (a, p)); [done|]. by rewrite Hs, (Hst _ _ Hs).
  - intros k p Hi HK. rewrite Hit in Hi. destruct (ok_item c v k cache p Hv Hi) as (s' & Hs & _).
    rewrite (Hst _ _ Hs), <- Hs. by apply Hc.
  - injection E as <- <-. simpl. by rewrite lookup_insert_eq.
  - intros p s' [Hs Hi]. split; [by apply Hst|by rewrite Hit].
Qed.

(** ** The operations

    [sees c K v m]: over a base with entries [c], the view [v] shows the entries
    [m]; the changes at the keys in [K] are pending, the table has not been told
    about them. *)
Definition sees c (K : gset Z) v (m : gmap Z (SLE F)) : Prop :=
  view_ok c v ∧ clean_but c K v ∧ contents c v = m.

Lemma handle_seen c K v m p s : sees c K v m → handle v p s → m !! sle_key s = Some s.
Proof. intros (_ & _ & <-). apply handle_contents. Qed.

Lemma sees_keyed c K v m : reads_as (base_ v) c → sees c K v m → keyed m.
Proof. intros Hb (Hv & _ & <-). apply apply_contents_keyed; [by apply (reads_keyed _ _ Hb)|done]. Qed.

Lemma handle_present c v p s :
  view_ok c v → handle v p s →
  ∃ a, items_ v !! sle_key s = Some (a, p) ∧
    match a with cache | modify => is_Some (c !! sle_key s) | insert_ => c !! sle_key s = None
            | erase_ => False end.
Proof.
  intros Hv (Hs & a & Hi & Ha). exists a. split; [done|].
  destruct (ok_item c v _ a p Hv Hi) as (s' & _ & _ & H). by destruct a.
Qed.

Lemma peek_ok c K v m k :
  reads_as (base_ v) c → sees c K v m →
  let v' := (peek v k).1 in
  sees c K v' m ∧ frame v v' ∧ (∀ q s, handle v q s → handle v' q s) ∧
  match (peek v k).2 with
  | Some p => ∃ s, lookup_keylet m k = Some s ∧ handle v' p s
  | None => lookup_keylet m k = None
  end.
Proof.
  intros Hb (Hv & Hc & Hm). unfold peek, lookup_keylet. rewrite <- Hm, apply_contents_lookup.
  destruct (items_ v !! k_key k) as [[a p]|] eqn:Hi.
  - destruct (ok_item c v _ a p Hv Hi) as (s & Hs & Hk & _). unfold live. simpl.
    rewrite Hs. destruct a; simpl; try done; destruct (check k s); simpl; try done;
      (split; [done|]; split; [done|]; split; [done|]; exists s; split; [done|];
       split; [done|]; eexists; split; [by rewrite Hk|done]).
  - rewrite (reads_read _ _ Hb). unfold lookup_keylet.
    destruct (c !! k_key k) as [s|] eqn:Hs; simpl; [|done]. destruct (check k s); simpl; [|done].
    pose proof (reads_keyed _ _ Hb _ _ Hs) as Hk. rewrite Hk.
    destruct (make_shared_ok c K v s Hv Hc) as (Hv' & Hm' & Hc' & Hp & Hh).
    set (v1 := (make_shared v s).1) in *. set (p := (make_shared v s).2) in *.
    assert (item_ok c (store v1) (k_key k) (cache, p)) as Hit.
    { unfold item_ok. cbn [fst snd]. rewrite Hp. split; [done|]. by rewrite Hs. }
    destruct (apply_set_item_ok c v1 _ _ Hv' Hit) as [Hv2 Hm2].
    split; [split; [exact Hv2|split]|].
    + apply (set_item_clean c K v1); [done|]. intros _ _. rewrite Hs. exact Hp.
    + etransitivity; [exact Hm2|]. unfold live. cbn [is_erase fst snd]. simpl. rewrite lookup_insert_eq, Hm'.
      apply insert_id. by rewrite apply_contents_lookup, Hi.
    + split; [done|]. split.
      * intros q s' Hq. apply (handle_other v1 (k_key k)); [by apply Hh|]. intros Heq.
        destruct Hq as (_ & a & Hi' & _). congruence.
      * exists s. split; [done|]. split; [exact Hp|]. exists cache. split; [|done].
        simpl. by rewrite Hk, lookup_insert_eq.
Qed.

Definition with_fields s (f : F → F) : SLE F := mkSLE (sle_key s) (sle_type s) (f (fields s)).

Lemma assign_ok c K v m p s f :
  sees c K v m → handle v p s →
  let v' := assign v p f in
  sees c ({[sle_key s]} ∪ K) v' (<[sle_key s := with_fields s f]> m) ∧ frame v v' ∧
  handle v' p (with_fields s f) ∧ ∀ q s', handle v q s' → q ≠ p → handle v' q s'.
Proof.
  intros (Hv & Hc & Hm) (Hs & a & Hi & Ha) v'.
  assert (store v' !! p = Some (with_fields s f)) as Hp.
  { simpl. by rewrite lookup_alter_eq, Hs. }
  assert (∀ q, q ≠ p → store v' !! q = store v !! q) as Hq.
  { intros q Hne. simpl. by rewrite lookup_alter_ne by done. }
  assert (∀ k b, items_ v !! k = Some (b, p) → k = sle_key s) as Hown.
  { intros k b Hk. destruct (ok_item c v k b p Hv Hk) as (s' & Hs' & <- & _). congruence. }
  split; [split; [|split]|split; [done|split]].
  - intros k [b q] Hk. pose proof (Hv _ _ Hk) as Hit. unfold item_ok in *. cbn [fst snd] in *.
    destruct (decide (q = p)) as [->|Hne]; [|by rewrite Hq].
    rewrite Hp. rewrite Hs in Hit. done.
  - intros k q Hk HK. rewrite Hq; [apply Hc; [done|set_solver]|].
    intros ->. apply Hown in Hk. set_solver.
  - rewrite <- Hm. apply map_eq. intros k. rewrite apply_contents_lookup.
    destruct (decide (k = sle_key s)) as [->|Hne].
    + rewrite lookup_insert_eq. change (items_ v') with (items_ v). rewrite Hi.
      unfold live, is_erase. cbn [fst snd]. by rewrite bool_decide_false.
    + rewrite lookup_insert_ne by done. rewrite apply_contents_lookup. change (items_ v') with (items_ v).
      destruct (items_ v !! k) as [[b q]|] eqn:Hk; [|done]. unfold live. cbn [fst snd].
      rewrite Hq; [done|]. intros ->. by apply Hown in Hk.
  - split; [done|]. by exists a.
  - intros q s' (Hs' & H') Hne. split; [by rewrite Hq|done].
Qed.

Lemma update_ok c K v m p s :
  sees c K v m → handle v p s →
  ∃ v', update v p = Ok v' ∧ sees c (K ∖ {[sle_key s]}) v' m ∧ frame v v' ∧
    ∀ q s', handle v q s' → handle v' q s'.
Proof.
  intros (Hv & Hc & Hm) Hh. pose proof (handle_contents c v p s Hh) as Hl.
  destruct (handle_present c v p s Hv Hh) as (a & Hi & Ha).
  destruct Hh as (Hs & _). unfold update, deref. rewrite Hs. cbn [rbind]. rewrite Hi.
  rewrite bool_decide_true by done. cbn [negb].
  assert (a ≠ cache → sees c (K ∖ {[sle_key s]}) v m) as Hsame.
  { intros Hne. split; [done|]. split; [|done]. intros k q Hk HK. apply Hc; [done|].
    intros HkK. assert (k = sle_key s) as -> by set_solver. congruence. }
  destruct a; try done; [|by exists v; split; [|split; [apply Hsame|]]..].
  eexists. split; [done|]. split; [|split; [done|]].
  - destruct (apply_set_item_ok c v (sle_key s) (modify, p) Hv) as [Hv' Hm'].
    { unfold item_ok. cbn [fst snd]. by rewrite Hs. }
    split; [exact Hv'|]. split; [by apply set_item_known|].
    rewrite Hm'. unfold live. simpl. rewrite Hs. rewrite insert_id; [done|]. by rewrite Hl.
  - intros q s' Hq. destruct (decide (sle_key s' = sle_key s)) as [Heq|Hne].
    + destruct Hq as (Hs' & b & Hb & _). rewrite Heq, Hi in Hb. injection Hb as <- <-.
      split; [done|]. exists modify. split; [|done]. simpl. by rewrite Heq, lookup_insert_eq.
    + by apply handle_other.
Qed.

Lemma is_erase_other a (p : loc) : a ≠ erase_ → is_erase (a, p) = false.
Proof. intros. unfold is_erase. by apply bool_decide_false. Qed.

(** Setting the item of a key to something the table knows about. *)
Lemma set_known c K v m k a p s :
  sees c K v m → store v !! p = Some s → sle_key s = k → a ≠ cache →
  match a with insert_ => c !! k = None | _ => is_Some (c !! k) end →
  sees c (K ∖ {[k]}) (set_items v (<[k := (a, p)]> (items_ v)))
    (if is_erase (a, p) then delete k m else <[k := s]> m).
Proof.
  intros (Hv & Hc & Hm) Hs Hk Ha Hck. destruct (apply_set_item_ok c v k (a, p) Hv) as [Hv' Hm'].
  { unfold item_ok. cbn [fst snd]. by rewrite Hs. }
  split; [exact Hv'|]. split; [by apply set_item_known|]. rewrite Hm', Hm. unfold live. cbn [snd].
  destruct (is_erase (a, p)); [done|]. by rewrite Hs.
Qed.

(** Dropping the item of an inserted entry. *)
Lemma drop_inserted c K v m k :
  sees c K v m → c !! k = None →
  sees c (K ∖ {[k]}) (set_items v (delete k (items_ v))) (delete k m).
Proof.
  intros (Hv & Hc & Hm) Hck. split; [by apply map_Forall_delete|]. split.
  - intros k' p' Hi HK. simpl in Hi. apply lookup_delete_Some in Hi as [Hne Hi].
    apply Hc; [done|]. set_solver.
  - rewrite <- Hm. by apply overlay_delete.
Qed.

Lemma handle_dropped v k p s :
  handle v p s → sle_key s ≠ k → handle (set_items v (delete k (items_ v))) p s.
Proof.
  intros (Hs & a & Hi & Ha) Hne. split; [done|]. exists a. split; [|done].
  simpl. by rewrite lookup_delete_ne by done.
Qed.

Lemma apply_erase_ok c K v m p s :
  sees c K v m → handle v p s →
  ∃ v', erase v p = Ok v' ∧ sees c (K ∖ {[sle_key s]}) v' (delete (sle_key s) m) ∧
    frame v v' ∧ ∀ q s', handle v q s' → sle_key s' ≠ sle_key s → handle v' q s'.
Proof.
  intros Hsees Hh. destruct (handle_present c v p s (proj1 Hsees) Hh) as (a & Hi & Ha).
  destruct Hh as (Hs & _). unfold erase, deref. rewrite Hs. cbn [rbind]. rewrite Hi.
  rewrite bool_decide_true by done. cbn [negb].
  destruct a; try done; eexists; (split; [done|]; split; [|split; [done|]]).
  - by apply (set_known c K v m _ erase_ p s).
  - intros. by apply handle_other.
  - by apply drop_inserted.
  - intros. by apply handle_dropped.
  - by apply (set_known c K v m _ erase_ p s).
  - intros. by apply handle_other.
Qed.

(** The item of a key that is not seen. *)
Lemma unseen_item c K v m k :
  sees c K v m → m !! k = None →
  match items_ v !! k with
  | Some (a, _) => a = erase_ ∧ is_Some (c !! k)
  | None => c !! k = None
  end.
Proof.
  intros (Hv & _ & <-). rewrite apply_contents_lookup.
  destruct (items_ v !! k) as [[a p]|] eqn:Hi; [|done].
  destruct (ok_item c v k a p Hv Hi) as (s & Hs & _ & Ha). unfold live. cbn [snd].
  destruct (decide (a = erase_)) as [->|Hne]; [done|]. by rewrite is_erase_other, Hs.
Qed.

Lemma apply_insert_ok c K v m p s :
  sees c K v m → store v !! p = Some s → m !! sle_key s = None →
  ∃ v', insert v p = Ok v' ∧ sees c (K ∖ {[sle_key s]}) v' (<[sle_key s := s]> m) ∧
    frame v v' ∧ handle v' p s ∧ ∀ q s', handle v q s' → handle v' q s'.
Proof.
  intros Hsees Hs Hm. pose proof (unseen_item c K v m _ Hsees Hm) as Hi.
  assert (∀ q s', handle v q s' → sle_key s' ≠ sle_key s) as Hne.
  { intros q s' Hq Heq. pose proof (handle_seen _ _ _ _ _ _ Hsees Hq). congruence. }
  unfold insert, deref. rewrite Hs. cbn [rbind].
  assert (∀ a, a ≠ erase_ → handle (set_items v (<[sle_key s := (a, p)]> (items_ v))) p s) as Hh.
  { intros a Ha. split; [done|]. exists a. split; [|done]. simpl. by rewrite lookup_insert_eq. }
  destruct (items_ v !! sle_key s) as [[a q]|];
    [destruct Hi as [-> Hi]|]; eexists; (split; [done|]; split; [|split; [done|split; [by apply Hh|]]]).
  - by apply (set_known c K v m _ modify p s).
  - intros. apply handle_other; [done|by eapply Hne].
  - by apply (set_known c K v m _ insert_ p s).
  - intros. apply handle_other; [done|by eapply Hne].
Qed.

(** The item of a key that is seen. *)
Lemma seen_item c K v m k :
  sees c K v m → is_Some (m !! k) →
  match items_ v !! k with
  | Some (a, _) => a ≠ erase_ ∧ match a with insert_ => c !! k = None | _ => is_Some (c !! k) end
  | None => is_Some (c !! k)
  end.
Proof.
  intros (Hv & _ & <-). rewrite apply_contents_lookup.
  destruct (items_ v !! k) as [[a p]|] eqn:Hi; [|done].
  destruct (ok_item c v k a p Hv Hi) as (s & _ & _ & Ha). unfold live.
  intros Hl. split; [|done]. intros ->. by destruct Hl.
Qed.

Lemma rawErase_seen c K v m p s :
  sees c K v m → store v !! p = Some s → is_Some (m !! sle_key s) →
  ∃ v', rawErase v p = Ok v' ∧ sees c (K ∖ {[sle_key s]}) v' (delete (sle_key s) m) ∧ frame v v'.
Proof.
  intros Hsees Hs Hm. pose proof (seen_item c K v m _ Hsees Hm) as Hi.
  unfold rawErase, deref. rewrite Hs. cbn [rbind].
  destruct (items_ v !! sle_key s) as [[a q]|]; [destruct Hi as [Ha Hi]; destruct a; try done|];
    eexists; (split; [done|]; split; [|done]);
    first [by apply drop_inserted|by apply (set_known c K v m _ erase_ p s)].
Qed.

Lemma replace_seen c K v m p s :
  sees c K v m → store v !! p = Some s → is_Some (m !! sle_key s) →
  ∃ v', replace v p = Ok v' ∧ sees c (K ∖ {[sle_key s]}) v' (<[sle_key s := s]> m) ∧ frame v v'.
Proof.
  intros Hsees Hs Hm. pose proof (seen_item c K v m _ Hsees Hm) as Hi.
  unfold replace, deref. rewrite Hs. cbn [rbind].
  destruct (items_ v !! sle_key s) as [[a q]|]; [destruct Hi as [Ha Hi]; destruct a; try done|];
    eexists; (split; [done|]; split; [|done]);
    first [by apply (set_known c K v m _ modify p s)|by apply (set_known c K v m _ insert_ p s)].
Qed.

(** ** As a raw view *)

Definition apply_holds v (m : gmap Z (SLE F)) (d : Drops) : Prop :=
  ∃ c, reads_as (base_ v) c ∧ sees c ∅ v m ∧ drops v = d.

(** Entries handed over are put into the store first. *)
Lemma raw_ok (op : ApplyView F V → loc → result (ApplyView F V)) v m d s m' :
  apply_holds v m d →
  (∀ c v' p, sees c ∅ v' m → store v' !! p = Some s →
     ∃ v'', op v' p = Ok v'' ∧ sees c (∅ ∖ {[sle_key s]}) v'' m' ∧ frame v' v'') →
  ∃ v', raw op v s = Ok v' ∧ apply_holds v' m' d.
Proof.
  intros (c & Hb & (Hv & Hc & Hm) & Hd) Hop.
  destruct (make_shared_ok c ∅ v s Hv Hc) as (Hv' & Hm' & Hc' & Hp & _). unfold raw.
  destruct (Hop c _ _ (conj Hv' (conj Hc' (eq_trans Hm' Hm))) Hp) as (v'' & E & Hs & Hb'' & Hd'').
  destruct (make_shared v s) as [v1 p] eqn:Emk. injection Emk as <- <-.
  exists v''. split; [exact E|]. exists c. simpl in Hb'', Hd''.
  rewrite empty_difference_L in Hs. split; [by rewrite Hb''|]. split; [done|]. by rewrite Hd''.
Qed.

#[global] Instance apply_laws : RawViewLaws F (ApplyView F V).
Proof using RV.
  refine {| holds := apply_holds |}.
  - intros w c d sle Hw Hp. apply (raw_ok _ w c d); [done|]. intros c0 v' p Hs Hst.
    by apply rawErase_seen.
  - intros w c d sle Hw Hp. apply (raw_ok _ w c d); [done|]. intros c0 v' p Hs Hst.
    destruct (apply_insert_ok c0 ∅ v' c p sle) as (v'' & ? & ? & ? & _); eauto.
  - intros w c d sle Hw Hp. apply (raw_ok _ w c d); [done|]. intros c0 v' p Hs Hst.
    by apply replace_seen.
  - intros w c' d x (c & Hb & Hs & <-). by exists c.
  - intros w c' d x (c & Hb & Hs & <-). by exists c.
  - intros w c' d x (c & Hb & Hs & <-). by exists c.
Defined.

(** ** Applying *)

(** What the table hands on: cached entries are left out. *)
Definition known (i : Action * loc) : bool := negb (bool_decide (i.1 = cache)).

Definition committed c v : gmap Z (SLE F) :=
  overlay (live (store v)) (filter (λ x, known x.2 = true) (items_ v)) c.

Lemma committed_clean c v : view_ok c v → clean_but c ∅ v → committed c v = contents c v.
Proof.
  intros Hv Hc. apply map_eq. intros k. unfold committed. rewrite lookup_overlay, apply_contents_lookup.
  destruct (items_ v !! k) as [[a p]|] eqn:Hi.
  - destruct (decide (a = cache)) as [->|Ha].
    + rewrite map_lookup_filter_None_2 by (right; intros x [= <-]%(eq_trans (eq_sym Hi)); done).
      unfold live. simpl. symmetry. apply Hc; [done|set_solver].
    + erewrite map_lookup_filter_Some_2; [done|done|]. unfold known. simpl.
      by rewrite bool_decide_false.
  - by rewrite map_lookup_filter_None_2 by by left.
Qed.

End facts.

Section apply.
Context {F V W : Type} {RV : ReadView F V} `{RL : RawViewLaws F W}.

Lemma apply_known_ok st k i (to : W) (c : gmap Z (SLE F)) d :
  holds to c d → item_ok c st k i →
  ∃ to', apply_item st to i = Ok to' ∧
    holds to' (if known i then match live st i with Some s => <[k := s]> c | None => delete k c end
               else c) d.
Proof.
  intros Hh Hi. unfold item_ok in Hi. unfold apply_item, live, known. destruct i as [a p]. simpl in *.
  destruct (st !! p) as [s|]; [destruct Hi as [<- Hi]|done]. destruct a; simpl.
  - by exists to.
  - by apply rawErase_ok.
  - by apply rawInsert_ok.
  - by apply rawReplace_ok.
Qed.

Lemma apply_known_list st l (to : W) (c : gmap Z (SLE F)) d :
  holds to c d → NoDup l.*1 → (∀ k i, (k, i) ∈ l → item_ok c st k i) →
  ∃ to', apply_items st to l = Ok to' ∧
    holds to' (overlay (live st) (filter (λ x, known x.2 = true) (list_to_map l)) c) d.
Proof.
  revert to c. induction l as [|[k i] l IH]; intros to c Hh Hnd Hok.
  - exists to. split; [done|]. replace (overlay _ _ c) with c; [done|].
    apply map_eq. intros j. rewrite lookup_overlay. simpl. by rewrite map_filter_empty, lookup_empty.
  - rewrite fmap_cons in Hnd. apply NoDup_cons in Hnd as [Hni Hnd]. simpl in Hni.
    destruct (apply_known_ok st k i to c d Hh) as (to1 & E1 & H1); [apply Hok; by left|].
    assert ((list_to_map l : gmap Z (Action * loc)) !! k = None) as Hk by (by apply not_elem_of_list_to_map).
    match type of H1 with holds _ ?x _ => set (c1 := x) in * end.
    destruct (IH to1 c1 H1 Hnd) as (to2 & E2 & H2).
    + intros k' i' Hin. assert (k' ≠ k) as Hne.
      { intros ->. apply Hni. by apply (list_elem_of_fmap_2 fst _ (k, i')). }
      specialize (Hok k' i'). unfold item_ok in *. assert (c1 !! k' = c !! k') as ->; [|apply Hok; by right].
      unfold c1. destruct (known i), (live st i); try done;
        [by rewrite lookup_insert_ne|by rewrite lookup_delete_ne].
    + exists to2. simpl. rewrite E1. cbn [rbind]. split; [done|]. unfold c1 in H2.
      destruct (known i) eqn:Hkn.
      * rewrite map_filter_insert_True by done. rewrite overlay_cons; [done|].
        rewrite map_lookup_filter_None. by left.
      * rewrite map_filter_insert_not'; [done|simpl; congruence|]. intros y Hy. congruence.
Qed.

(** The changes the table knows about reach the other view. *)
Lemma apply_committed (v : ApplyView F V) (to : W) c d :
  view_ok c v → holds to c d →
  ∃ to', apply v to = Ok to' ∧ holds to' (committed c v) (add_drops d (drops v)).
Proof.
  intros Hv Hh. unfold apply.
  pose proof (rawCreateXRP_ok to c d (dropsCreated_ v) Hh) as H1.
  pose proof (rawCreateVBC_ok _ c _ (dropsVBCCreated_ v) H1) as H2.
  pose proof (rawDestroyXRP_ok _ c _ (dropsDestroyed_ v) H2) as H3.
  destruct (apply_known_list (store v) (in_order (items_ v)) _ c _ H3) as (to' & E & H').
  - apply in_order_nodup.
  - intros k i Hin%elem_of_in_order. by apply Hv.
  - exists to'. split; [done|]. by rewrite list_to_map_in_order in H'.
Qed.

End apply.

(** ** Properties *)

Section properties.
Context {F V : Type} {RV : ReadView F V}.
Implicit Types (v : ApplyView F V) (s : SLE F) (c m : gmap Z (SLE F)) (K : gset Z) (p q : loc).

(** C17: Changing an entry the way the transactors do, [peek] its pointer, set
    fields of the entry behind it, [update] the pointer, never throws when the
    entry is there and matches the keylet, and is the update of that one entry in
    the map the view stands for; no change stays pending and the pointers
    handed out before remain valid, with the same entries except for that
    one. *)
Theorem peek_assign_update v c K m k s (f : F → F) :
  reads_as (base_ v) c → sees c K v m → lookup_keylet m k = Some s →
  ∃ p v', (peek v k).2 = Some p ∧ update (assign (peek v k).1 p f) p = Ok v' ∧
    sees c (K ∖ {[sle_key s]}) v' (<[sle_key s := with_fields s f]> m) ∧
    handle v' p (with_fields s f) ∧ frame v v' ∧
    ∀ q s', handle v q s' → q ≠ p → handle v' q s'.
Proof.
  intros Hb Hs Hk. destruct (peek_ok c K v m k Hb Hs) as (Hs1 & [Hb1 Hd1] & Hh1 & Hp).
  destruct ((peek v k).2) as [p|]; [|congruence]. destruct Hp as (s' & Hs' & Hp).
  assert (s' = s) as -> by congruence.
  destruct (assign_ok c K _ m p s f Hs1 Hp) as (Hs2 & [Hb2 Hd2] & Hp2 & Hh2).
  destruct (update_ok c _ _ _ p _ Hs2 Hp2) as (v' & E & Hs3 & [Hb3 Hd3] & Hh3).
  exists p, v'. split; [done|]. split; [done|]. split.
  - simpl in Hs3.
    by rewrite difference_union_distr_l_L, difference_diag_L, (left_id_L ∅ (∪)) in Hs3.
  - split; [by apply Hh3|]. split; [split; congruence|]. intros q s' Hq Hne. by apply Hh3, Hh2, Hne; apply Hh1.
Qed.


(** C18: An apply view with no pending change, applied to any raw view that holds
    the entries of its base, succeeds, and that view then holds the entries the
    apply view shows, with its drops added.  Open views and apply views are such
    raw views ([open_laws], [apply_laws]), so a stack of them is flattened one by
    one. *)
Theorem applyview_apply {W} `{RL : RawViewLaws F W} v (to : W) c m d :
  sees c ∅ v m → holds to c d →
  ∃ to', apply v to = Ok to' ∧ holds to' m (add_drops d (drops v)).
Proof.
  intros (Hv & Hc & Hm) Hh. destruct (apply_committed v to c d Hv Hh) as (to' & E & H').
  exists to'. split; [done|]. by rewrite committed_clean, Hm in H'.
Qed.

(** An apply view reads as the overlay of its items on the base's entries:
    [exists], [read] and [succ] answer like the combined map. *)
Theorem applyview_reads v c K m :
  reads_as (base_ v) c → sees c K v m → reads_as v m.
Proof. intros Hb (Hv & _ & <-). by apply view_reads. Qed.

End properties.

(** ** The theorems at work *)

Definition closed : gmap Z (SLE Z) :=
  {[10 := mkSLE 10 97 1; 20 := mkSLE 20 97 2; 30 := mkSLE 30 97 3]}.

Lemma closed_reads : reads_as closed closed.
Proof. apply map_reads_as. by_computation. Qed.

Lemma sees_base : sees closed ∅ (apply_view closed) closed.
Proof. split; [by_computation|]. split; [intros k p; simpl; by rewrite lookup_empty|by_computation]. Qed.

(** An entry of the base changed, and a new one inserted. *)
Definition changed : ApplyView Z (gmap Z (SLE Z)) :=
  mkApply closed {[1%positive := mkSLE 20 97 7; 2%positive := mkSLE 25 97 8]}
    {[20 := (modify, 1%positive); 25 := (insert_, 2%positive)]} 0 0 0 [].

Definition changed_entries : gmap Z (SLE Z) :=
  {[10 := mkSLE 10 97 1; 20 := mkSLE 20 97 7; 25 := mkSLE 25 97 8; 30 := mkSLE 30 97 3]}.

Lemma sees_changed : sees closed ∅ changed changed_entries.
Proof.
  split; [by_computation|]. split; [|by_computation]. intros k p Hi. simpl in Hi.
  apply lookup_insert_Some in Hi as [[_ ?]|[_ Hi%lookup_singleton_Some]]; [done|].
  by destruct Hi as [_ ?].
Qed.

Lemma peek_assign_update_witness :
  ∃ p v', (peek (apply_view closed) (unchecked 20)).2 = Some p ∧
    update (assign (peek (apply_view closed) (unchecked 20)).1 p (λ x, x + 5)) p = Ok v' ∧
    contents closed v' = {[10 := mkSLE 10 97 1; 20 := mkSLE 20 97 7; 30 := mkSLE 30 97 3]}.
Proof.
  destruct (peek_assign_update (apply_view closed) closed ∅ closed (unchecked 20) (mkSLE 20 97 2)
    (λ x, x + 5)) as (p & v' & Hp & E & (_ & _ & Hc) & _).
  - exact closed_reads.
  - exact sees_base.
  - vm_compute. reflexivity.
  - exists p, v'. split; [exact Hp|]. split; [exact E|]. rewrite Hc. by_computation.
Defined.


Lemma applyview_apply_witness :
  ∃ to', apply changed (apply_view closed) = Ok to' ∧ rv_read to' (unchecked 25) = Some (mkSLE 25 97 8).
Proof.
  destruct (applyview_apply (RL := apply_laws) changed (apply_view closed) closed changed_entries (mkDrops 0 0 0))
    as (to' & E & c & Hb & Hs & _).
  - exact sees_changed.
  - exists closed. split; [exact closed_reads|]. split; [exact sees_base|done].
  - exists to'. split; [exact E|].
    rewrite (reads_read _ _ (view_reads to' c Hb (proj1 Hs))), (proj2 (proj2 Hs)). vm_compute. reflexivity.
Defined.

Lemma applyview_reads_witness : rv_succ changed 20 None = Some 25 ∧ rv_read changed (unchecked 20) = Some (mkSLE 20 97 7).
Proof.
  destruct (applyview_reads changed closed ∅ changed_entries closed_reads sees_changed) as [_ _ Hr Hs].
  split; [vm_compute; reflexivity|]. rewrite Hr. vm_compute. reflexivity.
Defined.

End ApplyFacts.
