(* ===== verification/ViewLogic.v ===== *)
(** * Programs over an apply view

    The functions of ledger/View.cpp take an [ApplyView&], look entries up, set
    their fields and may throw.  Here are the calls they make as programs, and the
    rules to reason about them. *)

From S2P Require Import Prelude StateMonad Views Overlay ApplyStateTable ApplyFacts.
Import Apply ApplyFacts.

Open Scope prog_scope.

Module VL.

(** ** Programs *)

Section prog.
Context {F V : Type} {RV : ReadView F V}.

Definition prog (A : Type) : Type := M (ApplyView F V) A.

(** [view.peek (k)] *)
Definition peek (k : Keylet) : prog (option loc) := λ v, let '(v, r) := Apply.peek v k in Ok (r, v).

(** [view.read (k)], [view.exists (k)] and [view.succ (key, last)] *)
Definition read (k : Keylet) : prog (option (SLE F)) := λ v, Ok (Apply.read v k, v).
Definition exists_ (k : Keylet) : prog bool := λ v, Ok (Apply.exists_ v k, v).
Definition succ (key : Z) (last : option Z) : prog (option Z) := λ v, Ok (Apply.succ v key last, v).

(** [std::make_shared<SLE> (k)]: an entry with the type and the key of a keylet,
    and the fields of a fresh object. *)
Definition make_sle (f : F) (k : Keylet) : prog loc :=
  λ v, let '(v, p) := make_shared v (mkSLE (k_key k) (k_type k) f) in Ok (p, v).

Definition lift_view (op : ApplyView F V → loc → result (ApplyView F V)) (p : loc) : prog () :=
  λ v, let* v := op v p in Ok ((), v).

Definition insert : loc → prog () := lift_view Apply.insert.
Definition update : loc → prog () := lift_view Apply.update.
Definition erase : loc → prog () := lift_view Apply.erase.

(** [p->getField... ()] and [p->setField... ()] *)
Definition get {A} (p : loc) (f : F → A) : prog A :=
  λ v, let* sle := deref v p in Ok (f (fields sle), v).

Definition set (p : loc) (f : F → F) : prog () :=
  λ v, let* _ := deref v p in Ok ((), assign v p f).

(** [p->getIndex ()] *)
Definition getIndex (p : loc) : prog Z := λ v, let* sle := deref v p in Ok (sle_key sle, v).

End prog.

Arguments prog F V A : clear implicits.

(** ** The logic *)

Lemma settled (K : gset Z) k : k ∉ K → ({[k]} ∪ K) ∖ {[k]} = K.
Proof. set_solver. Qed.

Lemma already_pending (K : gset Z) k : k ∈ K → {[k]} ∪ K = K.
Proof. set_solver. Qed.

Lemma not_pending (K : gset Z) k : k ∉ K → K ∖ {[k]} = K.
Proof. set_solver. Qed.

Section logic.
Context {F V : Type} {RV : ReadView F V}.
Implicit Types (v : ApplyView F V) (m : gmap Z (SLE F)) (p : loc).

(** ** The state of a view

    Over the base of [v0], with entries [c]: the view shows the entries [m]; [hs]
    has the pointers it has handed out with the keys of their entries; the
    changes at the keys in [K] are pending; the table knows that it has to write
    the keys in [D]. *)
Context (c : gmap Z (SLE F)) (v0 : ApplyView F V).

Record state m (hs : gmap loc Z) (K D : gset Z) v : Prop := {
  st_frame : frame v0 v;
  st_sees : sees c K v m;
  st_handles p k : hs !! p = Some k → ∃ s, m !! k = Some s ∧ sle_key s = k ∧ handle v p s;
  st_known k : k ∈ D → ∃ a p, items_ v !! k = Some (a, p) ∧ a ≠ cache
}.

Context (Hbase : reads_as (base_ v0) c).

Lemma view_frame_trans v1 v2 v3 : frame v1 v2 → frame v2 v3 → frame v1 v3.
Proof. intros [? ?] [? ?]. split; congruence. Qed.

Lemma state_reads m hs K D v : state m hs K D v → reads_as (base_ v) c.
Proof using Hbase. intros [[-> _] _ _ _]. done. Qed.

(** Known changes are not pending. *)
Lemma state_settle m hs K D v k : state m hs K D v → k ∈ D → state m hs (K ∖ {[k]}) D v.
Proof.
  intros [Hf (Hv & Hc & Hm) Hh Hk] HD. split; [done| |done|done].
  split; [done|]. split; [|done]. intros k' p Hi HK. apply Hc; [done|].
  intros Hin. destruct (decide (k' = k)) as [->|Hne].
  - destruct (Hk k HD) as (a & q & Hi' & Ha). congruence.
  - apply HK, elem_of_difference. by rewrite elem_of_singleton.
Qed.

Lemma state_handle m hs K D v p k s :
  state m hs K D v → hs !! p = Some k → m !! k = Some s → sle_key s = k ∧ handle v p s.
Proof.
  intros Hst Hp Hs. destruct (st_handles _ _ _ _ _ Hst p k Hp) as (s' & Hs' & Hk & Hh).
  assert (s' = s) as -> by congruence. done.
Qed.

Lemma wp_get {A} m hs K D v p k s (f : F → A) Q :
  state m hs K D v → hs !! p = Some k → m !! k = Some s →
  Q (f (fields s)) v → wp (get p f) v Q.
Proof.
  intros Hst Hp Hs HQ. destruct (state_handle _ _ _ _ _ _ _ _ Hst Hp Hs) as [_ [E _]].
  unfold wp, get, deref. by rewrite E.
Qed.

(** A new pointer does not take the place of another. *)
Lemma insert_subseteq_handles hs p k v m K D s :
  state m hs K D v → handle v p s → sle_key s = k → hs ⊆ <[p := k]> hs.
Proof.
  intros Hst (Hp & _) Hk. apply map_subseteq_spec. intros q k' Hq.
  destruct (decide (q = p)) as [->|Hne]; [|by rewrite lookup_insert_ne].
  destruct (st_handles _ _ _ _ _ Hst p k' Hq) as (s' & _ & Hk' & Hp' & _).
  rewrite lookup_insert_eq. congruence.
Qed.

Lemma wp_peek m hs K D v k (Q : option loc → ApplyView F V → Prop) :
  state m hs K D v →
  (∀ v', lookup_keylet m k = None → state m hs K D v' → Q None v') →
  (∀ s p v', lookup_keylet m k = Some s → hs ⊆ <[p := k_key k]> hs →
     state m (<[p := k_key k]> hs) K D v' → Q (Some p) v') →
  wp (peek k) v Q.
Proof using Hbase.
  intros Hst HN HS. pose proof (peek_ok c K v m k (state_reads _ _ _ _ _ Hst) (st_sees _ _ _ _ _ Hst)) as Hp.
  assert (∀ k', k' ∈ D → ∃ a p, items_ (Apply.peek v k).1 !! k' = Some (a, p) ∧ a ≠ cache) as HD.
  { intros k' Hk'. destruct (st_known _ _ _ _ _ Hst k' Hk') as (a & p & Hi & Ha). exists a, p.
    split; [|done]. unfold Apply.peek. destruct (items_ v !! k_key k) as [[b q]|] eqn:E.
    - destruct b; try done; destruct (store v !! q) as [s|]; try done; by destruct (check k s).
    - rewrite (reads_read _ _ (state_reads _ _ _ _ _ Hst)). unfold lookup_keylet.
      destruct (c !! k_key k) as [s|] eqn:Es; [|done]. destruct (check k s); [|done]. simpl.
      rewrite (reads_keyed _ _ (state_reads _ _ _ _ _ Hst) _ _ Es), lookup_insert_ne; [done|congruence]. }
  unfold wp, peek. destruct (Apply.peek v k) as [v' r]. cbn [fst snd] in *.
  destruct Hp as (Hs & Hf & Hh & Hr). pose proof (view_frame_trans _ _ _ (st_frame _ _ _ _ _ Hst) Hf) as Hf'.
  assert (state m hs K D v') as Hst'.
  { split; [done|done| |done]. intros p k' Hp. destruct (st_handles _ _ _ _ _ Hst p k' Hp) as (s & ? & ? & ?).
    exists s. auto. }
  destruct r as [p|]; [|by apply HN]. destruct Hr as (s & Hl & Hp). apply (HS s); [done|..];
  unfold lookup_keylet in Hl; (destruct (m !! k_key k) as [s'|] eqn:Es; [|done]);
  (destruct (check k s'); [injection Hl as ->|done]).
  { apply insert_subseteq_handles with v' m K D s; try done.
    by eapply sees_keyed; [exact (state_reads _ _ _ _ _ Hst')|..]. }
  split; [done|done| |done]. intros q k' Hq. apply lookup_insert_Some in Hq as [[<- <-]|[_ Hq]].
  - exists s. split; [done|]. split; [|done]. by eapply sees_keyed; [exact (state_reads _ _ _ _ _ Hst')|..].
  - by apply (st_handles _ _ _ _ _ Hst').
Qed.

Lemma wp_set m hs K D v p k s (f : F → F) (Q : () → ApplyView F V → Prop) :
  state m hs K D v → hs !! p = Some k → m !! k = Some s →
  (∀ v', state (<[k := with_fields s f]> m) hs ({[k]} ∪ K) D v' → Q tt v') →
  wp (set p f) v Q.
Proof.
  intros Hst Hp Hs HQ. destruct (state_handle _ _ _ _ _ _ _ _ Hst Hp Hs) as [Hk Hh].
  destruct (assign_ok c K v m p s f (st_sees _ _ _ _ _ Hst) Hh) as (Hs' & Hf & Hp' & Hh').
  unfold wp, set, deref. rewrite (proj1 Hh). cbn [rbind]. apply HQ. rewrite Hk in Hs'.
  split; [by eapply view_frame_trans; [apply Hst|]|done| |by apply Hst].
  intros q k' Hq. destruct (st_handles _ _ _ _ _ Hst q k' Hq) as (s' & Hm & Hk' & Hq').
  destruct (decide (q = p)) as [->|Hne].
  - assert (k' = k) as -> by congruence. exists (with_fields s f).
    by rewrite lookup_insert_eq.
  - exists s'. rewrite lookup_insert_ne; [by auto|]. intros <-.
    destruct Hh as (_ & a & Hi & _), Hq' as (_ & a' & Hi' & _). congruence.
Qed.

Lemma update_knows v p s v' :
  store v !! p = Some s → Apply.update v p = Ok v' →
  (∃ a q, items_ v' !! sle_key s = Some (a, q) ∧ a ≠ cache) ∧
  ∀ k a q, items_ v !! k = Some (a, q) → a ≠ cache → items_ v' !! k = Some (a, q).
Proof.
  intros Hs E. unfold Apply.update, deref in E. rewrite Hs in E. cbn [rbind] in E.
  destruct (items_ v !! sle_key s) as [[a q]|] eqn:Hi; [|done].
  destruct (negb (bool_decide (q = p))); [done|]. destruct a; try done; injection E as <-; eauto.
  split; [exists modify, q; simpl; by rewrite lookup_insert_eq|].
  intros k a q' Hk Ha. simpl. rewrite lookup_insert_ne; congruence.
Qed.

Lemma wp_update m hs K D v p k s (Q : () → ApplyView F V → Prop) :
  state m hs K D v → hs !! p = Some k → m !! k = Some s →
  (∀ v', state m hs (K ∖ {[k]}) ({[k]} ∪ D) v' → Q tt v') →
  wp (update p) v Q.
Proof.
  intros Hst Hp Hs HQ. destruct (state_handle _ _ _ _ _ _ _ _ Hst Hp Hs) as [Hk Hh].
  destruct (update_ok c K v m p s (st_sees _ _ _ _ _ Hst) Hh) as (v' & E & Hs' & Hf & Hh').
  destruct (update_knows v p s v' (proj1 Hh) E) as [Hkn Hkeep].
  unfold wp, update, lift_view. rewrite E. cbn [rbind]. apply HQ. rewrite Hk in *.
  split; [by eapply view_frame_trans; [apply Hst|]|done|..].
  - intros q k' Hq. destruct (st_handles _ _ _ _ _ Hst q k' Hq) as (s' & Hm & Hk' & Hq'). eauto.
  - intros k' [->%elem_of_singleton|Hin]%elem_of_union; [done|].
    destruct (st_known _ _ _ _ _ Hst k' Hin) as (a & q & Hi & Ha). eauto.
Qed.

Definition forget (k : Z) (hs : gmap loc Z) : gmap loc Z := filter (λ x, x.2 ≠ k) hs.

Lemma erase_knows v p s v' :
  store v !! p = Some s → Apply.erase v p = Ok v' →
  ∀ k, k ≠ sle_key s → items_ v' !! k = items_ v !! k.
Proof.
  intros Hs E k Hne. unfold Apply.erase, deref in E. rewrite Hs in E. cbn [rbind] in E.
  destruct (items_ v !! sle_key s) as [[a q]|]; [|done].
  destruct (negb (bool_decide (q = p))); [done|]. destruct a; try done; injection E as <-; simpl;
    first [by rewrite lookup_insert_ne|by rewrite lookup_delete_ne].
Qed.

Lemma wp_erase m hs K D v p k s (Q : () → ApplyView F V → Prop) :
  state m hs K D v → hs !! p = Some k → m !! k = Some s →
  (∀ v', state (delete k m) (forget k hs) (K ∖ {[k]}) (D ∖ {[k]}) v' → Q tt v') →
  wp (erase p) v Q.
Proof.
  intros Hst Hp Hs HQ. destruct (state_handle _ _ _ _ _ _ _ _ Hst Hp Hs) as [Hk Hh].
  destruct (apply_erase_ok c K v m p s (st_sees _ _ _ _ _ Hst) Hh) as (v' & E & Hs' & Hf & Hh').
  pose proof (erase_knows v p s v' (proj1 Hh) E) as Hkeep.
  unfold wp, erase, lift_view. rewrite E. cbn [rbind]. apply HQ. rewrite Hk in *.
  split; [by eapply view_frame_trans; [apply Hst|]|done|..].
  - intros q k' [Hq Hne]%map_lookup_filter_Some. simpl in Hne.
    destruct (st_handles _ _ _ _ _ Hst q k' Hq) as (s' & Hm & Hk' & Hq'). exists s'.
    rewrite lookup_delete_ne by done. split; [done|]. split; [done|]. apply Hh'; [done|congruence].
  - intros k' [Hin Hne%not_elem_of_singleton]%elem_of_difference. rewrite Hkeep by done.
    by apply (st_known _ _ _ _ _ Hst).
Qed.

(** A fresh entry inserted right away. *)
Lemma wp_make_insert {A} m hs K D v f k (g : loc → prog F V A) Q :
  state m hs K D v → m !! k_key k = None →
  (∀ p v', hs ⊆ <[p := k_key k]> hs → state (<[k_key k := mkSLE (k_key k) (k_type k) f]> m) (<[p := k_key k]> hs)
             (K ∖ {[k_key k]}) ({[k_key k]} ∪ D) v' → wp (g p) v' Q) →
  wp (let! p := make_sle f k in insert p;; g p) v Q.
Proof.
  intros [Hf Hst Hh Hkn] Hm HQ. set (s := mkSLE (k_key k) (k_type k) f).
  destruct Hst as (Hv & Hc & Hm').
  destruct (make_shared_ok c K v s Hv Hc) as (Hv1 & Hm1 & Hc1 & Hp & Hh1).
  unfold wp, bind, make_sle. fold s.
  assert (items_ (make_shared v s).1 = items_ v) as Hit by done.
  assert (frame v (make_shared v s).1) as Hf1 by done.
  assert (store v !! (make_shared v s).2 = None) as Hfresh by apply make_shared_fresh, s.
  destruct (make_shared v s) as [v1 p]. cbn [fst snd rbind] in *.
  destruct (apply_insert_ok c K v1 m p s) as (v2 & E & Hs2 & Hf2 & Hp2 & Hh2); [|done|done|].
  { split; [done|]. split; [done|]. congruence. }
  unfold insert, lift_view. rewrite E. cbn [rbind fst snd]. apply HQ.
  { apply map_subseteq_spec. intros q k' Hq. rewrite lookup_insert_ne; [done|]. intros <-.
    destruct (Hh p k' Hq) as (s' & _ & _ & Hp' & _). congruence. }
  split.
  - by do 2 (eapply view_frame_trans; [|done]).
  - done.
  - intros q k' Hq. apply lookup_insert_Some in Hq as [[<- <-]|[_ Hq]].
    + exists s. by rewrite lookup_insert_eq.
    + destruct (Hh q k' Hq) as (s' & Hs' & Hk' & Hq'). exists s'.
      rewrite lookup_insert_ne by congruence. auto.
  - intros k' Hk'. unfold Apply.insert, deref in E. rewrite Hp in E. cbn [rbind] in E. rewrite Hit in E.
    assert (∀ a q, a ≠ cache → ∃ a' p', (<[k_key k := (a, q)]> (items_ v)) !! k' = Some (a', p') ∧ a' ≠ cache) as Hset.
    { intros a q Ha. destruct (decide (k' = k_key k)) as [->|Hne]; [exists a, q; by rewrite lookup_insert_eq|].
      rewrite lookup_insert_ne by done. apply Hkn. by apply elem_of_union in Hk' as [?%elem_of_singleton|?]. }
    destruct (items_ v !! sle_key s) as [[[] q]|]; try done; injection E as <-; simpl; by apply Hset.
Qed.

(** ** Rules that leave no more pending *)

Lemma wp_set_update {A} m hs K D v p k s (f : F → F) (g : prog F V A) Q :
  state m hs K D v → hs !! p = Some k → m !! k = Some s → k ∉ K →
  (∀ v', state (<[k := with_fields s f]> m) hs K ({[k]} ∪ D) v' → wp g v' Q) →
  wp (set p f;; update p;; g) v Q.
Proof.
  intros Hst Hp Hs HK Hg. apply wp_bind. eapply wp_set; [done..|]. intros v1 H1.
  apply wp_bind. eapply wp_update; [done|done|apply lookup_insert_eq|]. intros v2 H2. apply Hg.
  by rewrite settled in H2.
Qed.

Lemma wp_set_known {A} m hs K D v p k s (f : F → F) (g : prog F V A) Q :
  state m hs K D v → hs !! p = Some k → m !! k = Some s → k ∉ K → k ∈ D →
  (∀ v', state (<[k := with_fields s f]> m) hs K D v' → wp g v' Q) →
  wp (set p f;; g) v Q.
Proof.
  intros Hst Hp Hs HK HD Hg. apply wp_bind. eapply wp_set; [done..|]. intros v1 H1. apply Hg.
  apply (state_settle _ _ _ _ _ k) in H1; [|done]. by rewrite settled in H1.
Qed.

(** A change that stays pending. *)
Lemma wp_set_pending {A} m hs K D v p k s (f : F → F) (g : prog F V A) Q :
  state m hs K D v → hs !! p = Some k → m !! k = Some s → k ∈ K →
  (∀ v', state (<[k := with_fields s f]> m) hs K D v' → wp g v' Q) →
  wp (set p f;; g) v Q.
Proof.
  intros Hst Hp Hs HK Hg. apply wp_bind. eapply wp_set; [done..|]. intros v1 H1. apply Hg.
  by rewrite already_pending in H1.
Qed.

Lemma wp_update_clean {A} m hs K D v p k s (g : prog F V A) Q :
  state m hs K D v → hs !! p = Some k → m !! k = Some s → k ∉ K →
  (∀ v', state m hs K ({[k]} ∪ D) v' → wp g v' Q) →
  wp (update p;; g) v Q.
Proof.
  intros Hst Hp Hs HK Hg. apply wp_bind. eapply wp_update; [done..|]. intros v1 H1. apply Hg.
  by rewrite not_pending in H1.
Qed.

Lemma wp_erase_clean {A} m hs K D v p k s (g : prog F V A) Q :
  state m hs K D v → hs !! p = Some k → m !! k = Some s → k ∉ K →
  (∀ v', state (delete k m) (forget k hs) K (D ∖ {[k]}) v' → wp g v' Q) →
  wp (erase p;; g) v Q.
Proof.
  intros Hst Hp Hs HK Hg. apply wp_bind. eapply wp_erase; [done..|]. intros v1 H1. apply Hg.
  by rewrite not_pending in H1.
Qed.

Lemma wp_make_insert_clean {A} m hs K D v f k (g : loc → prog F V A) Q :
  state m hs K D v → m !! k_key k = None → k_key k ∉ K →
  (∀ p v', hs ⊆ <[p := k_key k]> hs → state (<[k_key k := mkSLE (k_key k) (k_type k) f]> m) (<[p := k_key k]> hs)
             K ({[k_key k]} ∪ D) v' → wp (g p) v' Q) →
  wp (let! p := make_sle f k in insert p;; g p) v Q.
Proof.
  intros Hst Hm HK Hg. eapply wp_make_insert; [done..|]. intros p v1 Hsub H1. apply Hg; [done|].
  by rewrite not_pending in H1.
Qed.

(** Looking up an entry that is there. *)
Lemma wp_peek_some {A} m hs K D v k s (g : option loc → prog F V A) Q :
  state m hs K D v → lookup_keylet m k = Some s →
  (∀ p v', hs ⊆ <[p := k_key k]> hs → state m (<[p := k_key k]> hs) K D v' → wp (g (Some p)) v' Q) →
  wp (bind (peek k) g) v Q.
Proof using Hbase.
  intros Hst Hs Hg. apply wp_bind. eapply wp_peek; [done|congruence|]. intros s' p v' _. apply Hg.
Qed.

Lemma wp_peek_none {A} m hs K D v k (g : option loc → prog F V A) Q :
  state m hs K D v → lookup_keylet m k = None →
  (∀ v', state m hs K D v' → wp (g None) v' Q) →
  wp (bind (peek k) g) v Q.
Proof using Hbase.
  intros Hst Hs Hg. apply wp_bind. eapply wp_peek; [done| |congruence]. intros v' _. apply Hg.
Qed.

(** Reading without a pointer. *)
Lemma state_view_reads m hs K D v : state m hs K D v → reads_as v m.
Proof using Hbase.
  intros Hst. pose proof (state_reads _ _ _ _ _ Hst) as Hb. destruct (st_sees _ _ _ _ _ Hst) as (Hv & _ & <-). by apply view_reads.
Qed.

Lemma wp_read {A} m hs K D v k (g : option (SLE F) → prog F V A) Q :
  state m hs K D v → wp (g (lookup_keylet m k)) v Q → wp (bind (read k) g) v Q.
Proof using Hbase.
  intros Hst HQ. apply wp_bind. unfold wp, read. by rewrite <- (reads_read _ _ (state_view_reads _ _ _ _ _ Hst)) in HQ.
Qed.

Lemma wp_exists {A} m hs K D v k (g : bool → prog F V A) Q :
  state m hs K D v → wp (g (match lookup_keylet m k with Some _ => true | None => false end)) v Q →
  wp (bind (exists_ k) g) v Q.
Proof using Hbase.
  intros Hst HQ. apply wp_bind. unfold wp, exists_. by rewrite <- (reads_exists _ _ (state_view_reads _ _ _ _ _ Hst)) in HQ.
Qed.

Lemma wp_getIndex {A} m hs K D v p k (g : Z → prog F V A) Q :
  state m hs K D v → hs !! p = Some k → wp (g k) v Q → wp (bind (getIndex p) g) v Q.
Proof.
  intros Hst Hp HQ. destruct (st_handles _ _ _ _ _ Hst p k Hp) as (s & _ & Hk & E & _).
  apply wp_bind. unfold wp, getIndex, deref. rewrite E. cbn [rbind]. by rewrite Hk.
Qed.

Lemma wp_get_bind {A B} m hs K D v p k s (f : F → A) (g : A → prog F V B) Q :
  state m hs K D v → hs !! p = Some k → m !! k = Some s →
  wp (g (f (fields s))) v Q → wp (bind (get p f) g) v Q.
Proof. intros Hst Hp Hs Hg. apply wp_bind. by eapply wp_get. Qed.

End logic.
End VL.
