(* ===== verification/Objects.v ===== *)
(** * Objects and results

    protocol/STObject.h, protocol/impl/STObject.cpp and protocol/TER.h: the fields
    of ledger entries and of transactions, and the results of applying them. *)

From stdpp Require Import strings.
From S2P Require Import Prelude Issue STAmount.

Open Scope Z_scope.

Module Obj.

(** ** Objects

    An [STObject] as a map from field names to values, for each type of field a
    map of its own: a field has only one type.  Reading an absent field gives
    the default value of its type; an entry's template allows all the fields the
    code sets. *)

(** An object in an array, with the name it has there. *)
Record STInner := mkInner {
  inner_name : string;
  inner_u8s : gmap string Z;
  inner_u16s : gmap string Z;
  inner_u32s : gmap string Z;
  inner_h256s : gmap string Z;
  inner_vls : gmap string (list Z);
  inner_accounts : gmap string Z;
  inner_amounts : gmap string Amt.STAmount
}.

#[global] Instance STInner_eq_dec : EqDecision STInner.
Proof. solve_decision. Defined.

Record STObject := mkObject {
  u8s : gmap string Z;
  u16s : gmap string Z;
  u32s : gmap string Z;
  u64s : gmap string Z;
  h128s : gmap string Z;
  h256s : gmap string Z;
  v256s : gmap string (list Z);
  vls : gmap string (list Z);
  accounts : gmap string Z;
  amounts : gmap string Amt.STAmount;
  arrays : gmap string (list STInner)
}.

#[global] Instance STObject_eq_dec : EqDecision STObject.
Proof. solve_decision. Defined.

Definition empty_object : STObject := mkObject ∅ ∅ ∅ ∅ ∅ ∅ ∅ ∅ ∅ ∅ ∅.

Definition getFieldU8 (sf : string) (o : STObject) : Z := default 0 (u8s o !! sf).
Definition getFieldU16 (sf : string) (o : STObject) : Z := default 0 (u16s o !! sf).
Definition getFieldU32 (sf : string) (o : STObject) : Z := default 0 (u32s o !! sf).
Definition getFieldU64 (sf : string) (o : STObject) : Z := default 0 (u64s o !! sf).
Definition getFieldH128 (sf : string) (o : STObject) : Z := default 0 (h128s o !! sf).
Definition getFieldH256 (sf : string) (o : STObject) : Z := default 0 (h256s o !! sf).
Definition getFieldV256 (sf : string) (o : STObject) : list Z := default [] (v256s o !! sf).
Definition getFieldVL (sf : string) (o : STObject) : list Z := default [] (vls o !! sf).
Definition getAccountID (sf : string) (o : STObject) : Z := default 0 (accounts o !! sf).
Definition getFieldAmount (sf : string) (o : STObject) : Amt.STAmount := default (Amt.of_drops 0 false) (amounts o !! sf).
Definition getFieldArray (sf : string) (o : STObject) : list STInner := default [] (arrays o !! sf).

Definition inner_getFieldU8 (sf : string) (o : STInner) : Z := default 0 (inner_u8s o !! sf).
Definition inner_getFieldU16 (sf : string) (o : STInner) : Z := default 0 (inner_u16s o !! sf).
Definition inner_getFieldU32 (sf : string) (o : STInner) : Z := default 0 (inner_u32s o !! sf).
Definition inner_getFieldH256 (sf : string) (o : STInner) : Z := default 0 (inner_h256s o !! sf).
Definition inner_getFieldVL (sf : string) (o : STInner) : list Z := default [] (inner_vls o !! sf).
Definition inner_getAccountID (sf : string) (o : STInner) : Z := default 0 (inner_accounts o !! sf).
Definition inner_getFieldAmount (sf : string) (o : STInner) : Amt.STAmount := default (Amt.of_drops 0 false) (inner_amounts o !! sf).

Definition inner_setFieldU8 (sf : string) (x : Z) (o : STInner) : STInner :=
  mkInner (inner_name o) (<[sf := x]> (inner_u8s o)) (inner_u16s o) (inner_u32s o) (inner_h256s o) (inner_vls o)
    (inner_accounts o) (inner_amounts o).

Definition setFieldU8 (sf : string) (x : Z) (o : STObject) : STObject :=
  mkObject (<[sf := x]> (u8s o)) (u16s o) (u32s o) (u64s o) (h128s o) (h256s o) (v256s o) (vls o) (accounts o) (amounts o) (arrays o).
Definition setFieldU16 (sf : string) (x : Z) (o : STObject) : STObject :=
  mkObject (u8s o) (<[sf := x]> (u16s o)) (u32s o) (u64s o) (h128s o) (h256s o) (v256s o) (vls o) (accounts o) (amounts o) (arrays o).
Definition setFieldU32 (sf : string) (x : Z) (o : STObject) : STObject :=
  mkObject (u8s o) (u16s o) (<[sf := x]> (u32s o)) (u64s o) (h128s o) (h256s o) (v256s o) (vls o) (accounts o) (amounts o) (arrays o).
Definition setFieldU64 (sf : string) (x : Z) (o : STObject) : STObject :=
  mkObject (u8s o) (u16s o) (u32s o) (<[sf := x]> (u64s o)) (h128s o) (h256s o) (v256s o) (vls o) (accounts o) (amounts o) (arrays o).
Definition setFieldH128 (sf : string) (x : Z) (o : STObject) : STObject :=
  mkObject (u8s o) (u16s o) (u32s o) (u64s o) (<[sf := x]> (h128s o)) (h256s o) (v256s o) (vls o) (accounts o) (amounts o) (arrays o).
Definition setFieldH256 (sf : string) (x : Z) (o : STObject) : STObject :=
  mkObject (u8s o) (u16s o) (u32s o) (u64s o) (h128s o) (<[sf := x]> (h256s o)) (v256s o) (vls o) (accounts o) (amounts o) (arrays o).
Definition setFieldV256 (sf : string) (x : list Z) (o : STObject) : STObject :=
  mkObject (u8s o) (u16s o) (u32s o) (u64s o) (h128s o) (h256s o) (<[sf := x]> (v256s o)) (vls o) (accounts o) (amounts o) (arrays o).
Definition setFieldVL (sf : string) (x : list Z) (o : STObject) : STObject :=
  mkObject (u8s o) (u16s o) (u32s o) (u64s o) (h128s o) (h256s o) (v256s o) (<[sf := x]> (vls o)) (accounts o) (amounts o) (arrays o).
Definition setAccountID (sf : string) (x : Z) (o : STObject) : STObject :=
  mkObject (u8s o) (u16s o) (u32s o) (u64s o) (h128s o) (h256s o) (v256s o) (vls o) (<[sf := x]> (accounts o)) (amounts o) (arrays o).
Definition setFieldAmount (sf : string) (x : Amt.STAmount) (o : STObject) : STObject :=
  mkObject (u8s o) (u16s o) (u32s o) (u64s o) (h128s o) (h256s o) (v256s o) (vls o) (accounts o) (<[sf := x]> (amounts o)) (arrays o).
Definition setFieldArray (sf : string) (x : list STInner) (o : STObject) : STObject :=
  mkObject (u8s o) (u16s o) (u32s o) (u64s o) (h128s o) (h256s o) (v256s o) (vls o) (accounts o) (amounts o) (<[sf := x]> (arrays o)).

Definition present {A} (m : gmap string A) (sf : string) : bool := match m !! sf with Some _ => true | None => false end.

(** [makeFieldAbsent], which removes a field that the template makes optional. *)
Definition makeFieldAbsent (sf : string) (o : STObject) : STObject :=
  mkObject (delete sf (u8s o)) (delete sf (u16s o)) (delete sf (u32s o)) (delete sf (u64s o)) (delete sf (h128s o)) (delete sf (h256s o))
    (delete sf (v256s o)) (delete sf (vls o)) (delete sf (accounts o)) (delete sf (amounts o)) (delete sf (arrays o)).

Definition sfFlags : string := "Flags".

(** All the bits of [f]. *)
Definition isFlag (f : Z) (o : STObject) : bool := Z.land (getFieldU32 sfFlags o) f =? f.
Definition setFlag (f : Z) (o : STObject) : STObject := setFieldU32 sfFlags (Z.lor (getFieldU32 sfFlags o) f) o.
Definition clearFlag (f : Z) (o : STObject) : STObject := setFieldU32 sfFlags (Z.ldiff (getFieldU32 sfFlags o) f) o.

(** ** Results *)

Inductive TER :=
  | telLOCAL_ERROR | telBAD_DOMAIN | telBAD_PATH_COUNT | telBAD_PUBLIC_KEY | telFAILED_PROCESSING
  | telINSUF_FEE_P | telNO_DST_PARTIAL
  | temMALFORMED | temBAD_AMOUNT | temBAD_CURRENCY | temBAD_EXPIRATION | temBAD_FEE | temBAD_ISSUER
  | temBAD_LIMIT | temBAD_OFFER | temBAD_PATH | temBAD_PATH_LOOP | temBAD_SEND_XRP_LIMIT | temBAD_SEND_XRP_MAX
  | temBAD_SEND_XRP_NO_DIRECT | temBAD_SEND_XRP_PARTIAL | temBAD_SEND_XRP_PATHS | temBAD_SEQUENCE
  | temBAD_SIGNATURE | temBAD_SRC_ACCOUNT | temBAD_TRANSFER_RATE | temDST_IS_SRC | temDST_NEEDED | temINVALID
  | temINVALID_FLAG | temREDUNDANT | temRIPPLE_EMPTY | temDISABLED | temBAD_DIV_TYPE | temBAD_RELEASE_SCHEDULE
  | temBAD_SIGNER | temBAD_QUORUM | temBAD_WEIGHT | temUNCERTAIN | temUNKNOWN
  | tefFAILURE | tefALREADY | tefBAD_ADD_AUTH | tefBAD_AUTH | tefBAD_LEDGER | tefCREATED | tefEXCEPTION
  | tefINTERNAL | tefNO_AUTH_REQUIRED | tefPAST_SEQ | tefWRONG_PRIOR | tefMASTER_DISABLED | tefMAX_LEDGER
  | tefREFEREE_EXIST | tefREFERENCE_EXIST | tefBAD_SIGNATURE | tefBAD_QUORUM | tefNOT_MULTI_SIGNING
  | tefBAD_AUTH_MASTER | tefRING_CLOSED | tefRING_NOT_CLOSED | tefRING_REDUNDANT
  | terRETRY | terFUNDS_SPENT | terINSUF_FEE_B | terNO_ACCOUNT | terNO_AUTH | terNO_LINE | terOWNERS
  | terPRE_SEQ | terLAST | terNO_RIPPLE | terQUEUED
  | tesSUCCESS
  | tecCLAIM | tecPATH_PARTIAL | tecUNFUNDED_ADD | tecUNFUNDED_OFFER | tecUNFUNDED_PAYMENT
  | tecFAILED_PROCESSING | tecUNFUNDED_TRANSFER | tecDIR_FULL | tecINSUF_RESERVE_LINE | tecINSUF_RESERVE_OFFER
  | tecNO_DST | tecNO_DST_INSUF_XRP | tecNO_LINE_INSUF_RESERVE | tecNO_LINE_REDUNDANT | tecPATH_DRY
  | tecUNFUNDED | tecNO_ALTERNATIVE_KEY | tecNO_REGULAR_KEY | tecOWNERS | tecNO_ISSUER | tecNO_AUTH
  | tecNO_LINE | tecINSUFF_FEE | tecFROZEN | tecNO_TARGET | tecNO_PERMISSION | tecNO_ENTRY
  | tecINSUFFICIENT_RESERVE | tecNEED_MASTER_KEY | tecDST_TAG_NEEDED | tecINTERNAL | tecOVERSIZE.

(** The number behind a result. *)
Definition ter_code (x : TER) : Z :=
  match x with
  | telLOCAL_ERROR => -399 | telBAD_DOMAIN => -398 | telBAD_PATH_COUNT => -397 | telBAD_PUBLIC_KEY => -396
  | telFAILED_PROCESSING => -395 | telINSUF_FEE_P => -394 | telNO_DST_PARTIAL => -393 | temMALFORMED => -299
  | temBAD_AMOUNT => -298 | temBAD_CURRENCY => -297 | temBAD_EXPIRATION => -296 | temBAD_FEE => -295
  | temBAD_ISSUER => -294 | temBAD_LIMIT => -293 | temBAD_OFFER => -292 | temBAD_PATH => -291
  | temBAD_PATH_LOOP => -290 | temBAD_SEND_XRP_LIMIT => -289 | temBAD_SEND_XRP_MAX => -288
  | temBAD_SEND_XRP_NO_DIRECT => -287 | temBAD_SEND_XRP_PARTIAL => -286 | temBAD_SEND_XRP_PATHS => -285
  | temBAD_SEQUENCE => -284 | temBAD_SIGNATURE => -283 | temBAD_SRC_ACCOUNT => -282
  | temBAD_TRANSFER_RATE => -281 | temDST_IS_SRC => -280 | temDST_NEEDED => -279 | temINVALID => -278
  | temINVALID_FLAG => -277 | temREDUNDANT => -276 | temRIPPLE_EMPTY => -275 | temDISABLED => -274
  | temBAD_DIV_TYPE => -273 | temBAD_RELEASE_SCHEDULE => -272 | temBAD_SIGNER => -271 | temBAD_QUORUM => -270
  | temBAD_WEIGHT => -269 | temUNCERTAIN => -268 | temUNKNOWN => -267 | tefFAILURE => -199 | tefALREADY => -198
  | tefBAD_ADD_AUTH => -197 | tefBAD_AUTH => -196 | tefBAD_LEDGER => -195 | tefCREATED => -194
  | tefEXCEPTION => -193 | tefINTERNAL => -192 | tefNO_AUTH_REQUIRED => -191 | tefPAST_SEQ => -190
  | tefWRONG_PRIOR => -189 | tefMASTER_DISABLED => -188 | tefMAX_LEDGER => -187 | tefREFEREE_EXIST => -186
  | tefREFERENCE_EXIST => -185 | tefBAD_SIGNATURE => -184 | tefBAD_QUORUM => -183
  | tefNOT_MULTI_SIGNING => -182 | tefBAD_AUTH_MASTER => -181 | tefRING_CLOSED => -180
  | tefRING_NOT_CLOSED => -179 | tefRING_REDUNDANT => -178 | terRETRY => -99 | terFUNDS_SPENT => -98
  | terINSUF_FEE_B => -97 | terNO_ACCOUNT => -96 | terNO_AUTH => -95 | terNO_LINE => -94 | terOWNERS => -93
  | terPRE_SEQ => -92 | terLAST => -91 | terNO_RIPPLE => -90 | terQUEUED => -89 | tesSUCCESS => 0
  | tecCLAIM => 100 | tecPATH_PARTIAL => 101 | tecUNFUNDED_ADD => 102 | tecUNFUNDED_OFFER => 103
  | tecUNFUNDED_PAYMENT => 104 | tecFAILED_PROCESSING => 105 | tecUNFUNDED_TRANSFER => 106 | tecDIR_FULL => 121
  | tecINSUF_RESERVE_LINE => 122 | tecINSUF_RESERVE_OFFER => 123 | tecNO_DST => 124
  | tecNO_DST_INSUF_XRP => 125 | tecNO_LINE_INSUF_RESERVE => 126 | tecNO_LINE_REDUNDANT => 127
  | tecPATH_DRY => 128 | tecUNFUNDED => 129 | tecNO_ALTERNATIVE_KEY => 130 | tecNO_REGULAR_KEY => 131
  | tecOWNERS => 132 | tecNO_ISSUER => 133 | tecNO_AUTH => 134 | tecNO_LINE => 135 | tecINSUFF_FEE => 136
  | tecFROZEN => 137 | tecNO_TARGET => 138 | tecNO_PERMISSION => 139 | tecNO_ENTRY => 140
  | tecINSUFFICIENT_RESERVE => 141 | tecNEED_MASTER_KEY => 142 | tecDST_TAG_NEEDED => 143 | tecINTERNAL => 144
  | tecOVERSIZE => 145
  end.

Definition of_code (c : Z) : option TER :=
  match c with
  | -399 => Some telLOCAL_ERROR | -398 => Some telBAD_DOMAIN | -397 => Some telBAD_PATH_COUNT
  | -396 => Some telBAD_PUBLIC_KEY | -395 => Some telFAILED_PROCESSING | -394 => Some telINSUF_FEE_P
  | -393 => Some telNO_DST_PARTIAL | -299 => Some temMALFORMED | -298 => Some temBAD_AMOUNT
  | -297 => Some temBAD_CURRENCY | -296 => Some temBAD_EXPIRATION | -295 => Some temBAD_FEE
  | -294 => Some temBAD_ISSUER | -293 => Some temBAD_LIMIT | -292 => Some temBAD_OFFER
  | -291 => Some temBAD_PATH | -290 => Some temBAD_PATH_LOOP | -289 => Some temBAD_SEND_XRP_LIMIT
  | -288 => Some temBAD_SEND_XRP_MAX | -287 => Some temBAD_SEND_XRP_NO_DIRECT
  | -286 => Some temBAD_SEND_XRP_PARTIAL | -285 => Some temBAD_SEND_XRP_PATHS | -284 => Some temBAD_SEQUENCE
  | -283 => Some temBAD_SIGNATURE | -282 => Some temBAD_SRC_ACCOUNT | -281 => Some temBAD_TRANSFER_RATE
  | -280 => Some temDST_IS_SRC | -279 => Some temDST_NEEDED | -278 => Some temINVALID
  | -277 => Some temINVALID_FLAG | -276 => Some temREDUNDANT | -275 => Some temRIPPLE_EMPTY
  | -274 => Some temDISABLED | -273 => Some temBAD_DIV_TYPE | -272 => Some temBAD_RELEASE_SCHEDULE
  | -271 => Some temBAD_SIGNER | -270 => Some temBAD_QUORUM | -269 => Some temBAD_WEIGHT
  | -268 => Some temUNCERTAIN | -267 => Some temUNKNOWN | -199 => Some tefFAILURE | -198 => Some tefALREADY
  | -197 => Some tefBAD_ADD_AUTH | -196 => Some tefBAD_AUTH | -195 => Some tefBAD_LEDGER
  | -194 => Some tefCREATED | -193 => Some tefEXCEPTION | -192 => Some tefINTERNAL
  | -191 => Some tefNO_AUTH_REQUIRED | -190 => Some tefPAST_SEQ | -189 => Some tefWRONG_PRIOR
  | -188 => Some tefMASTER_DISABLED | -187 => Some tefMAX_LEDGER | -186 => Some tefREFEREE_EXIST
  | -185 => Some tefREFERENCE_EXIST | -184 => Some tefBAD_SIGNATURE | -183 => Some tefBAD_QUORUM
  | -182 => Some tefNOT_MULTI_SIGNING | -181 => Some tefBAD_AUTH_MASTER | -180 => Some tefRING_CLOSED
  | -179 => Some tefRING_NOT_CLOSED | -178 => Some tefRING_REDUNDANT | -99 => Some terRETRY
  | -98 => Some terFUNDS_SPENT | -97 => Some terINSUF_FEE_B | -96 => Some terNO_ACCOUNT
  | -95 => Some terNO_AUTH | -94 => Some terNO_LINE | -93 => Some terOWNERS | -92 => Some terPRE_SEQ
  | -91 => Some terLAST | -90 => Some terNO_RIPPLE | -89 => Some terQUEUED | 0 => Some tesSUCCESS
  | 100 => Some tecCLAIM | 101 => Some tecPATH_PARTIAL | 102 => Some tecUNFUNDED_ADD
  | 103 => Some tecUNFUNDED_OFFER | 104 => Some tecUNFUNDED_PAYMENT | 105 => Some tecFAILED_PROCESSING
  | 106 => Some tecUNFUNDED_TRANSFER | 121 => Some tecDIR_FULL | 122 => Some tecINSUF_RESERVE_LINE
  | 123 => Some tecINSUF_RESERVE_OFFER | 124 => Some tecNO_DST | 125 => Some tecNO_DST_INSUF_XRP
  | 126 => Some tecNO_LINE_INSUF_RESERVE | 127 => Some tecNO_LINE_REDUNDANT | 128 => Some tecPATH_DRY
  | 129 => Some tecUNFUNDED | 130 => Some tecNO_ALTERNATIVE_KEY | 131 => Some tecNO_REGULAR_KEY
  | 132 => Some tecOWNERS | 133 => Some tecNO_ISSUER | 134 => Some tecNO_AUTH | 135 => Some tecNO_LINE
  | 136 => Some tecINSUFF_FEE | 137 => Some tecFROZEN | 138 => Some tecNO_TARGET | 139 => Some tecNO_PERMISSION
  | 140 => Some tecNO_ENTRY | 141 => Some tecINSUFFICIENT_RESERVE | 142 => Some tecNEED_MASTER_KEY
  | 143 => Some tecDST_TAG_NEEDED | 144 => Some tecINTERNAL | 145 => Some tecOVERSIZE
  | _ => None
  end.

Lemma of_code_ter_code x : of_code (ter_code x) = Some x.
Proof. by destruct x. Qed.

#[global] Instance ter_code_inj : Inj (=) (=) ter_code.
Proof. intros x y E. apply (f_equal of_code) in E. rewrite !of_code_ter_code in E. by injection E. Qed.

#[global] Instance TER_eq_dec : EqDecision TER.
Proof. intros x y. destruct (decide (ter_code x = ter_code y)) as [E|E]; [left; by apply (inj ter_code)|right; congruence]. Defined.

Definition isTelLocal (x : TER) : bool := (ter_code telLOCAL_ERROR <=? ter_code x) && (ter_code x <? ter_code temMALFORMED).
Definition isTemMalformed (x : TER) : bool := (ter_code temMALFORMED <=? ter_code x) && (ter_code x <? ter_code tefFAILURE).
Definition isTefFailure (x : TER) : bool := (ter_code tefFAILURE <=? ter_code x) && (ter_code x <? ter_code terRETRY).
Definition isTerRetry (x : TER) : bool := (ter_code terRETRY <=? ter_code x) && (ter_code x <? ter_code tesSUCCESS).
Definition isTesSuccess (x : TER) : bool := ter_code x =? ter_code tesSUCCESS.
Definition isTecClaim (x : TER) : bool := ter_code tecCLAIM <=? ter_code x.

End Obj.
