(* ===== verification/Directory.v ===== *)
(** * Directories

    ledger/impl/View.cpp: directories are chains of pages, each an entry of its
    own with up to 32 keys.  The root page points to the last page with its
    [sfIndexPrevious]; the other pages are linked both ways; the page numbers
    give the keys of the pages, through a hash. *)

From stdpp Require Import strings.
From S2P Require Import Prelude StateMonad Views ApplyStateTable ViewLogic Objects.
Import Apply VL.

Open Scope Z_scope.

Open Scope prog_scope.

Module Dir.

Export Obj.

(** Fields of directory pages and of their owners. *)
Definition sfIndexes : string := "Indexes".
Definition sfIndexNext : string := "IndexNext".
Definition sfIndexPrevious : string := "IndexPrevious".
Definition sfRootIndex : string := "RootIndex".
Definition sfOwner : string := "Owner".
Definition sfOwnerCount : string := "OwnerCount".

Definition DIR_NODE_MAX : nat := 32.

(** The hash of a page number, [sha512Half (spaceDirNode, root, index)]. *)
Class PageHash := page_hash : Z → Z → Z.

Section directory.
Context `{PageHash}.

Definition getDirNodeIndex (uDirRoot uNodeIndex : Z) : Z :=
  if uNodeIndex =? 0 then uDirRoot else page_hash uDirRoot uNodeIndex.

(** [keylet::page] *)
Definition page (key index : Z) : Keylet := mkKeylet ltDIR_NODE (getDirNodeIndex key index).

(** ** Reading *)

Section reading.
Context {V : Type} `{ReadView STObject V}.

Definition dirIsEmpty (view : V) (k : Keylet) : bool :=
  match rv_read view k with
  | None => true
  | Some sleNode =>
      match getFieldV256 sfIndexes (fields sleNode) with
      | _ :: _ => false
      | [] => getFieldU64 sfIndexNext (fields sleNode) =? 0
      end
  end.

(** The node, the position in it and the entry. *)
Definition Cursor : Type := SLE STObject * nat * Z.

(** The recursion follows the links from page to page. *)
Fixpoint cdirNext (fuel : nat) (view : V) (uRootIndex : Z) (cur : Cursor) : result (bool * Cursor) :=
  let '(sleNode, uDirEntry, uEntryIndex) := cur in
  match getFieldV256 sfIndexes (fields sleNode) !! uDirEntry with
  | Some entry => Ok (true, (sleNode, S uDirEntry, entry))
  | None =>
      let uNodeNext := getFieldU64 sfIndexNext (fields sleNode) in
      if uNodeNext =? 0 then Ok (false, (sleNode, uDirEntry, 0))
      else
        match rv_read view (page uRootIndex uNodeNext) with
        | None => Ok (false, (sleNode, O, uEntryIndex))
        | Some sleNext =>
            match fuel with
            | O => Throw (Undefined "out of fuel")
            | S f => cdirNext f view uRootIndex (sleNext, O, uEntryIndex)
            end
        end
  end.

Definition cdirFirst (fuel : nat) (view : V) (uRootIndex uEntryIndex : Z) : result (bool * Cursor) :=
  match rv_read view (page uRootIndex 0) with
  | None => Throw (Undefined "null sleNode")
  | Some sleNode => cdirNext fuel view uRootIndex (sleNode, O, uEntryIndex)
  end.

(** [keylet::child] *)
Definition child (key : Z) : Keylet := mkKeylet ltCHILD key.

(** The entries [f] is called with, in order; [root] is the key of the account's
    directory. *)
Fixpoint forEachPage (fuel : nat) (view : V) (root : Z) (pos : Keylet)
    : result (list (option (SLE STObject))) :=
  match rv_read view pos with
  | None => Ok []
  | Some sle =>
      let calls := (λ key, rv_read view (child key)) <$> getFieldV256 sfIndexes (fields sle) in
      let next := getFieldU64 sfIndexNext (fields sle) in
      if next =? 0 then Ok calls
      else
        match fuel with
        | O => Throw (Undefined "out of fuel")
        | S f =>
            let* rest := forEachPage f view root (page root next) in
            Ok (calls ++ rest)
        end
  end.

Definition forEachItem (fuel : nat) (view : V) (root : Z) : result (list (option (SLE STObject))) :=
  forEachPage fuel view root (page root 0).

End reading.

(** ** Modifying *)

Section modifying.
Context {V : Type} `{ReadView STObject V}.

Definition adjustOwnerCount (sle : loc) (amount : Z) : prog STObject V () :=
  let! current := get sle (getFieldU32 sfOwnerCount) in
  let adjusted := u32 (current + amount) in
  let adjusted :=
    if 0 <? amount then
      if adjusted <? current then 2 ^ 32 - 1 else adjusted
    else
      if current <? adjusted then 0 else adjusted in
  set sle (setFieldU32 sfOwnerCount adjusted);;
  update sle.

Definition describeOwnerDir (account : Z) (_ : bool) (sle : STObject) : STObject :=
  setAccountID sfOwner account sle.

(** [svIndexes.push_back (...)] and saving the entry. *)
Definition save_entry (sleNode : loc) (svIndexes : list Z) (uLedgerIndex uNodeDir : Z)
    : prog STObject V (TER * Z) :=
  set sleNode (setFieldV256 sfIndexes (svIndexes ++ [uLedgerIndex]));;
  ret (tesSUCCESS, uNodeDir).

(** Returns the result and the number of the page, [uNodeDir]. *)
Definition dirAdd (uRootIndex uLedgerIndex : Z) (fDescriber : bool → STObject → STObject)
    : prog STObject V (TER * Z) :=
  let! sleRoot := peek (page uRootIndex 0) in
  match sleRoot with
  | None =>
      let! sleNode := make_sle (setFieldH256 sfRootIndex uRootIndex empty_object) (page uRootIndex 0) in
      insert sleNode;;
      set sleNode (fDescriber true);;
      save_entry sleNode [] uLedgerIndex 0
  | Some sleRoot =>
      let! uNodeDir := get sleRoot (getFieldU64 sfIndexPrevious) in
      let! sleNode :=
        if uNodeDir =? 0 then ret sleRoot
        else (let! r := peek (page uRootIndex uNodeDir) in non_null r) in
      let! svIndexes := get sleNode (getFieldV256 sfIndexes) in
      if negb (length svIndexes =? DIR_NODE_MAX)%nat then
        update sleNode;;
        save_entry sleNode svIndexes uLedgerIndex uNodeDir
      else
        let uNodeDir := u64 (uNodeDir + 1) in
        if uNodeDir =? 0 then ret (tecDIR_FULL, uNodeDir)
        else
          set sleNode (setFieldU64 sfIndexNext uNodeDir);;
          update sleNode;;
          set sleRoot (setFieldU64 sfIndexPrevious uNodeDir);;
          update sleRoot;;
          let! sleNode :=
            make_sle (setFieldH256 sfRootIndex uRootIndex empty_object) (page uRootIndex uNodeDir) in
          insert sleNode;;
          (if negb (uNodeDir =? 1) then set sleNode (setFieldU64 sfIndexPrevious (uNodeDir - 1))
           else ret tt);;
          set sleNode (fDescriber false);;
          save_entry sleNode [] uLedgerIndex uNodeDir
  end.

(** Removing the element at a position, keeping the order or filling the hole
    with the last element. *)
Definition remove_at (bStable : bool) (i : nat) (l : list Z) : list Z :=
  if (1 <? length l)%nat then
    if bStable then take i l ++ drop (S i) l
    else take (length l - 1) (<[i := l !!! (length l - 1)%nat]> l)
  else [].

(** [std::find] *)
Fixpoint find_index (x : Z) (l : list Z) : option nat :=
  match l with
  | [] => None
  | y :: l' => if y =? x then Some O else S <$> find_index x l'
  end.

(** What [dirDelete] does once a page has become empty. *)
Definition dirCleanup (bKeepRoot : bool) (uNodeCur uRootIndex : Z) (sleNode : loc)
    : prog STObject V TER :=
  let! uNodePrevious := get sleNode (getFieldU64 sfIndexPrevious) in
  let! uNodeNext := get sleNode (getFieldU64 sfIndexNext) in
  if uNodeCur =? 0 then
    if uNodePrevious =? 0 then
      erase sleNode;; ret tesSUCCESS
    else if bKeepRoot then ret tesSUCCESS
    else if negb (uNodePrevious =? uNodeNext) then ret tesSUCCESS
    else
      let! r := peek (page uRootIndex uNodeNext) in
      let! sleLast := non_null r in
      let! lastIndexes := get sleLast (getFieldV256 sfIndexes) in
      match lastIndexes with
      | [] => erase sleNode;; erase sleLast;; ret tesSUCCESS
      | _ => ret tesSUCCESS
      end
  else if negb (uNodeNext =? 0) then
    let! slePrevious := peek (page uRootIndex uNodePrevious) in
    let! sleNext := peek (page uRootIndex uNodeNext) in
    match slePrevious, sleNext with
    | None, _ => ret tefBAD_LEDGER
    | _, None => ret tefBAD_LEDGER
    | Some slePrevious, Some sleNext =>
        set slePrevious (setFieldU64 sfIndexNext uNodeNext);;
        update slePrevious;;
        set sleNext (setFieldU64 sfIndexPrevious uNodePrevious);;
        update sleNext;;
        erase sleNode;;
        ret tesSUCCESS
    end
  else if bKeepRoot || negb (uNodePrevious =? 0) then ret tesSUCCESS
  else
    let! r := peek (page uRootIndex 0) in
    let! sleRoot := non_null r in
    let! rootIndexes := get sleRoot (getFieldV256 sfIndexes) in
    match rootIndexes with
    | [] => erase sleRoot;; erase sleNode;; ret tesSUCCESS
    | _ => ret tesSUCCESS
    end.

Fixpoint dirDelete_from (fuel : nat) (bKeepRoot : bool) (uNodeDir uRootIndex uLedgerIndex : Z)
    (bStable bSoft : bool) : prog STObject V TER :=
  let! r := peek (page uRootIndex uNodeDir) in
  let next :=
    if negb bSoft then ret tefBAD_LEDGER
    else if uNodeDir <? 20 then
      match fuel with
      | O => throw (Undefined "out of fuel")
      | S f => dirDelete_from f bKeepRoot (uNodeDir + 1) uRootIndex uLedgerIndex bStable true
      end
    else ret tefBAD_LEDGER in
  match r with
  | None => next
  | Some sleNode =>
      let! svIndexes := get sleNode (getFieldV256 sfIndexes) in
      match find_index uLedgerIndex svIndexes with
      | None => next
      | Some it =>
          let svIndexes := remove_at bStable it svIndexes in
          set sleNode (setFieldV256 sfIndexes svIndexes);;
          update sleNode;;
          match svIndexes with
          | [] => dirCleanup bKeepRoot uNodeDir uRootIndex sleNode
          | _ => ret tesSUCCESS
          end
      end
  end.

(** From page 20 on no further page is tried. *)
Definition dirDelete (bKeepRoot : bool) (uNodeDir uRootIndex uLedgerIndex : Z) (bStable bSoft : bool)
    : prog STObject V TER :=
  dirDelete_from (Z.to_nat (20 - uNodeDir)) bKeepRoot uNodeDir uRootIndex uLedgerIndex bStable bSoft.

End modifying.
End directory.

End Dir.
