(* ===== verification/Indexes.v ===== *)
(** * Keys of ledger entries

    protocol/impl/Indexes.cpp and protocol/Indexes.h: the keys of ledger entries
    are digests of a name space and of what the entry belongs to; those of asset
    states are adjacent, with the time in their last 64 bits. *)

From S2P Require Import Prelude Issue Views StateMonad ApplyStateTable ViewLogic Objects Directory.

Open Scope Z_scope.

Module Idx.

(** ** Types of entries and name spaces *)

Definition ltACCOUNT_ROOT : Z := 97.
Definition ltDIVIDEND : Z := 68.
Definition ltRIPPLE_STATE : Z := 114.
Definition ltREFER : Z := 82.
Definition ltASSET_STATE : Z := 83.
Definition ltASSET : Z := 116.
Definition ltTICKET : Z := 84.
Definition ltSIGNER_LIST : Z := 78.
Definition ltOFFER : Z := 111.
Definition ltLEDGER_HASHES : Z := 104.
Definition ltAMENDMENTS : Z := 102.
Definition ltFEE_SETTINGS : Z := 115.
Definition ltSUSPAY : Z := 117.
Definition ltRING : Z := 103.
Definition ltPROPOSAL : Z := 112.
Definition ltCT : Z := 67.

Definition spaceAccount : Z := 97.
Definition spaceDirNode : Z := 100.
Definition spaceRipple : Z := 114.
Definition spaceOwnerDir : Z := 79.
Definition spaceDividend : Z := 68.
Definition spaceRefer : Z := 82.
Definition spaceAsset : Z := 116.
Definition spaceAssetState : Z := 83.
Definition spaceOffer : Z := 111.
Definition spaceBookDir : Z := 66.
Definition spaceSkipList : Z := 115.
Definition spaceSusPay : Z := 117.
Definition spaceAmendment : Z := 102.
Definition spaceFee : Z := 101.
Definition spaceTicket : Z := 84.
Definition spaceSignerList : Z := 78.
Definition spaceRing : Z := 71.
Definition spaceProposal : Z := 80.

Section indexes.
Context `{Digest}.

(** The digest of a name space and of identifiers of 160 bits. *)
Definition space_hash (space : Z) (ids : list Z) : Z :=
  sha512Half (be_bytes 2 space ++ (ids ≫= be_bytes 20)).

Definition getAccountRootIndex (account : AccountID) : Z := space_hash spaceAccount [account].

Definition getOwnerDirIndex (account : AccountID) : Z := space_hash spaceOwnerDir [account].

#[global] Instance dir_page_hash : Dir.PageHash :=
  λ uDirRoot uNodeIndex, sha512Half (be_bytes 2 spaceDirNode ++ be_bytes 32 uDirRoot ++ be_bytes 8 uNodeIndex).

Definition getRippleStateIndex (a b : AccountID) (currency : Currency) : Z :=
  if a <? b then space_hash spaceRipple [a; b; currency] else space_hash spaceRipple [b; a; currency].

Definition getAccountReferIndex (account : AccountID) : Z := space_hash spaceRefer [account].
Definition getReferIndex (account : AccountID) : Z := space_hash spaceRefer [account].

Definition getAssetIndex (a : AccountID) (currency : Currency) : Z := space_hash spaceAsset [a; currency].

Definition getAssetStateIndex (a b : AccountID) (currency : Currency) : Z :=
  space_hash spaceAssetState [if a <? b then a else b; if a <? b then b else a; currency].

Definition getLedgerDividendIndex : Z := space_hash spaceDividend [].
Definition getLedgerAmendmentIndex : Z := space_hash spaceAmendment [].
Definition getLedgerFeeIndex : Z := space_hash spaceFee [].

(** The node with the last 256 ledgers, and the one with the hash of a ledger. *)
Definition getLastLedgerHashIndex : Z := space_hash spaceSkipList [].
Definition getLedgerHashIndex (desiredLedgerIndex : Z) : Z :=
  sha512Half (be_bytes 2 spaceSkipList ++ be_bytes 4 (Z.shiftr desiredLedgerIndex 16)).

(** What belongs to an account and has a sequence number. *)
Definition sequence_hash (space : Z) (account : AccountID) (uSequence : Z) : Z :=
  sha512Half (be_bytes 2 space ++ be_bytes 20 account ++ be_bytes 4 uSequence).

Definition getOfferIndex (account : AccountID) (uSequence : Z) : Z := sequence_hash spaceOffer account uSequence.
Definition getTicketIndex (account : AccountID) (uSequence : Z) : Z := sequence_hash spaceTicket account uSequence.

(** An account has one signer list, with the identifier zero. *)
Definition getSignerListIndex (account : AccountID) : Z := sequence_hash spaceSignerList account 0.

Definition getRingIndex (quantity : Z) (issue : Issue) (index : Z) : Z :=
  sha512Half (be_bytes 2 spaceRing ++ be_bytes 20 (account issue) ++ be_bytes 20 (currency issue) ++
              be_bytes 8 quantity ++ be_bytes 4 index).

Definition getProposalIndex (index : Z) : Z := sha512Half (be_bytes 2 spaceProposal ++ be_bytes 4 index).

(** The last 64 bits of a key are replaced, the next key with those bits, and the
    bits themselves. *)
Definition getQualityIndex (uBase uNodeDir : Z) : Z := uBase / 2 ^ 64 * 2 ^ 64 + uNodeDir.
Definition getQualityNext (uBase : Z) : Z := (uBase + 2 ^ 64) mod 2 ^ 256.
Definition getQuality (uBase : Z) : Z := uBase mod 2 ^ 64.

(** The directory of an order book, at quality zero. *)
Definition getBookBase (in_ out : Issue) : Z :=
  getQualityIndex (space_hash spaceBookDir [currency in_; currency out; account in_; account out]) 0.

End indexes.

(** ** Keylets *)

Module keylet.

Section keylets.
Context `{Digest}.

Definition account (id : AccountID) : Keylet := mkKeylet ltACCOUNT_ROOT (getAccountRootIndex id).
Definition line_key (key : Z) : Keylet := mkKeylet ltRIPPLE_STATE key.
Definition line (id0 id1 : AccountID) (currency : Currency) : Keylet := line_key (getRippleStateIndex id0 id1 currency).
Definition refer_key (key : Z) : Keylet := mkKeylet ltREFER key.
Definition refer (id : AccountID) : Keylet := refer_key (getReferIndex id).
Definition asset (id : AccountID) (currency : Currency) : Keylet := mkKeylet ltASSET (getAssetIndex id currency).
Definition asset_state (key : Z) : Keylet := mkKeylet ltASSET_STATE key.
Definition dividend : Keylet := mkKeylet ltDIVIDEND getLedgerDividendIndex.
Definition skip_last : Keylet := mkKeylet ltLEDGER_HASHES getLastLedgerHashIndex.
Definition skip (ledger : Z) : Keylet := mkKeylet ltLEDGER_HASHES (getLedgerHashIndex ledger).
Definition amendments : Keylet := mkKeylet ltAMENDMENTS getLedgerAmendmentIndex.
Definition fees : Keylet := mkKeylet ltFEE_SETTINGS getLedgerFeeIndex.
Definition book (in_ out : Issue) : Keylet := mkKeylet ltDIR_NODE (getBookBase in_ out).
Definition offer_key (key : Z) : Keylet := mkKeylet ltOFFER key.
Definition offer (id : AccountID) (seq : Z) : Keylet := offer_key (getOfferIndex id seq).
Definition quality (k : Keylet) (q : Z) : Keylet := mkKeylet ltDIR_NODE (getQualityIndex (k_key k) q).
Definition next (k : Keylet) : Keylet := mkKeylet ltDIR_NODE (getQualityNext (k_key k)).
Definition ticket_key (key : Z) : Keylet := mkKeylet ltTICKET key.
Definition ticket (id : AccountID) (seq : Z) : Keylet := ticket_key (getTicketIndex id seq).
Definition signers (id : AccountID) : Keylet := mkKeylet ltSIGNER_LIST (getSignerListIndex id).
Definition ring (quantity : Z) (issue : Issue) (index : Z) : Keylet := mkKeylet ltRING (getRingIndex quantity issue index).
Definition proposal (index : Z) : Keylet := mkKeylet ltPROPOSAL (getProposalIndex index).
Definition ownerDir (id : AccountID) : Keylet := mkKeylet ltDIR_NODE (getOwnerDirIndex id).

(** The name space is hashed as the four bytes of its type. *)
Definition susPay (source : AccountID) (seq : Z) : Keylet :=
  mkKeylet ltSUSPAY (sha512Half (be_bytes 4 spaceSusPay ++ be_bytes 20 source ++ be_bytes 4 seq)).

End keylets.

End keylet.

(** The two ends of a trust line give the same key. *)
Lemma getRippleStateIndex_sym `{Digest} a b currency :
  getRippleStateIndex a b currency = getRippleStateIndex b a currency.
Proof.
  unfold getRippleStateIndex. destruct (Z.ltb_spec a b), (Z.ltb_spec b a); try done; [lia|].
  by replace a with b by lia.
Qed.

End Idx.
