(* ===== verification/DirectoryRep.v ===== *)
(** * What a chain of pages stands for

    A directory is a map from page numbers to the keys listed on the page.
    [dir_rep] relates it to the entries of the ledger that implement it, and the
    lemmas here say which changes to those entries are which changes to the
    directory. *)

From stdpp Require Import strings.
From S2P Require Import Prelude StateMonad Views ApplyStateTable ApplyFacts ViewLogic Directory.
Import Apply ApplyFacts VL Dir.

Open Scope Z_scope.

Open Scope prog_scope.

Module DirRep.

(** ** Page numbers *)

Definition is_u64 (n : Z) : Prop := 0 ≤ n < 2 ^ 64.

(** What the code relies on: the keys of the pages of one directory differ. *)
Class PageHashLaws `{PageHash} (root : Z) : Prop := {
  page_hash_inj i j :
    is_u64 i → is_u64 j → i ≠ 0 → j ≠ 0 → page_hash root i = page_hash root j → i = j;
  page_hash_root i : is_u64 i → i ≠ 0 → page_hash root i ≠ root
}.

Section rep.
Context `{PH : PageHash} (r : Z) {PL : PageHashLaws r}.

Definition key (n : Z) : Z := getDirNodeIndex r n.

Lemma key_inj i j : is_u64 i → is_u64 j → key i = key j → i = j.
Proof using PL.
  intros Hi Hj. unfold key, getDirNodeIndex.
  destruct (Z.eqb_spec i 0), (Z.eqb_spec j 0); subst; intros E; try done.
  - by apply eq_sym, page_hash_root in E.
  - by apply page_hash_root in E.
  - by apply page_hash_inj.
Qed.

(** ** The links *)

#[local] Abbreviation pages_t := (gmap Z (list Z)).
Implicit Types (pages : pages_t).

Definition has pages (n : Z) : Prop := is_Some (pages !! n).

(** [sfIndexNext] is the next page, or zero on the last one. *)
Definition next_ok pages (n x : Z) : Prop :=
  (x = 0 ∨ (has pages x ∧ n < x)) ∧ ∀ n', has pages n' → n < n' → x ≠ 0 ∧ x ≤ n'.

(** [sfIndexPrevious] is the page before, and on the root the last page. *)
Definition prev_ok pages (n x : Z) : Prop :=
  has pages x ∧ (n ≠ 0 → x < n) ∧ ∀ n', has pages n' → (n = 0 ∨ n' < n) → n' ≤ x.

Record node_ok pages (n : Z) (l : list Z) (s : SLE STObject) : Prop := {
  node_type : sle_type s = ltDIR_NODE;
  node_indexes : getFieldV256 sfIndexes (fields s) = l;
  node_next : next_ok pages n (getFieldU64 sfIndexNext (fields s));
  node_prev : prev_ok pages n (getFieldU64 sfIndexPrevious (fields s))
}.

Record dir_rep pages (m : gmap Z (SLE STObject)) : Prop := {
  rep_node n l : pages !! n = Some l → ∃ s, m !! key n = Some s ∧ node_ok pages n l s;
  rep_absent n : is_u64 n → pages !! n = None → m !! key n = None;
  rep_root n : has pages n → has pages 0;
  rep_range n l : pages !! n = Some l → is_u64 n ∧ (length l ≤ DIR_NODE_MAX)%nat
}.

(** Keys that are not pages of this directory. *)
Definition foreign (k : Z) : Prop := ∀ n, is_u64 n → k ≠ key n.

Definition same_elsewhere (m m' : gmap Z (SLE STObject)) : Prop :=
  ∀ k, foreign k → m' !! k = m !! k.

Lemma same_elsewhere_refl m : same_elsewhere m m.
Proof. done. Qed.

Lemma same_elsewhere_trans m1 m2 m3 :
  same_elsewhere m1 m2 → same_elsewhere m2 m3 → same_elsewhere m1 m3.
Proof. intros H1 H2 k Hk. by rewrite H2, H1. Qed.

Lemma same_elsewhere_insert m n s : is_u64 n → same_elsewhere m (<[key n := s]> m).
Proof. intros Hn k Hk. rewrite lookup_insert_ne; [done|]. intros E. by apply (Hk n). Qed.

Lemma same_elsewhere_delete m n : is_u64 n → same_elsewhere m (delete (key n) m).
Proof. intros Hn k Hk. rewrite lookup_delete_ne; [done|]. intros E. by apply (Hk n). Qed.

Lemma has_insert pages n l n' : has (<[n := l]> pages) n' ↔ n' = n ∨ has pages n'.
Proof.
  unfold has. destruct (decide (n' = n)) as [->|Hne].
  - rewrite lookup_insert_eq. split; [auto|eauto].
  - rewrite lookup_insert_ne by done. intuition.
Qed.

Lemma has_delete pages n n' : has (delete n pages) n' ↔ n' ≠ n ∧ has pages n'.
Proof.
  unfold has. destruct (decide (n' = n)) as [->|Hne].
  - rewrite lookup_delete_eq. split; [by intros []|intuition].
  - rewrite lookup_delete_ne by done. intuition.
Qed.

Lemma node_ok_same pages pages' n l s :
  (∀ n', has pages' n' ↔ has pages n') → node_ok pages n l s → node_ok pages' n l s.
Proof.
  intros Hd [Ht Hi [Hn1 Hn2] (Hp1 & Hp2 & Hp3)]. split; [done|done|split|split; [|split]].
  - rewrite Hd. done.
  - intros n'. rewrite Hd. apply Hn2.
  - by apply Hd.
  - done.
  - intros n'. rewrite Hd. apply Hp3.
Qed.

(** Looking a page up through its keylet. *)
Lemma rep_lookup pages m n l :
  dir_rep pages m → pages !! n = Some l →
  ∃ s, m !! key n = Some s ∧ node_ok pages n l s ∧ lookup_keylet m (page r n) = Some s.
Proof.
  intros Hrep Hl. destruct (rep_node _ _ Hrep n l Hl) as (s & Hs & Hok). exists s.
  split; [done|]. split; [done|]. unfold lookup_keylet, page. simpl. fold (key n). rewrite Hs.
  unfold check. simpl. by rewrite (node_type _ _ _ _ Hok).
Qed.

Lemma rep_lookup_none pages m n :
  dir_rep pages m → is_u64 n → pages !! n = None → lookup_keylet m (page r n) = None.
Proof.
  intros Hrep Hn Hl. unfold lookup_keylet, page. simpl. fold (key n).
  by rewrite (rep_absent _ _ Hrep).
Qed.

(** ** Changing the keys on a page *)

Lemma rep_indexes pages m n l l' s s' :
  dir_rep pages m → pages !! n = Some l → m !! key n = Some s → node_ok pages n l s →
  (length l' ≤ DIR_NODE_MAX)%nat →
  sle_type s' = sle_type s → getFieldV256 sfIndexes (fields s') = l' →
  getFieldU64 sfIndexNext (fields s') = getFieldU64 sfIndexNext (fields s) →
  getFieldU64 sfIndexPrevious (fields s') = getFieldU64 sfIndexPrevious (fields s) →
  dir_rep (<[n := l']> pages) (<[key n := s']> m).
Proof using PL.
  intros Hrep Hl Hs Hok Hlen Ht Hi Hx Hp.
  destruct (rep_range _ _ Hrep n l Hl) as [Hn _].
  assert (∀ n', has (<[n := l']> pages) n' ↔ has pages n') as Hd.
  { intros n'. rewrite has_insert. split; [|auto]. intros [->|?]; [by exists l|done]. }
  split.
  - intros n' l1 H1. apply lookup_insert_Some in H1 as [[<- <-]|[Hne H1]].
    + exists s'. rewrite lookup_insert_eq. split; [done|]. apply (node_ok_same pages); [done|].
      destruct Hok. split; [congruence|done|by rewrite Hx|by rewrite Hp].
    + destruct (rep_node _ _ Hrep n' l1 H1) as (s1 & Hs1 & Hok1).
      destruct (rep_range _ _ Hrep n' l1 H1) as [Hn' _]. exists s1.
      rewrite lookup_insert_ne by (intros E%key_inj; congruence). split; [done|].
      by apply (node_ok_same pages).
  - intros n' Hn' H1. apply lookup_insert_None in H1 as [H1 Hne].
    rewrite lookup_insert_ne by (intros E%key_inj; congruence). by apply (rep_absent _ _ Hrep).
  - intros n' _. apply has_insert. right. apply (rep_root _ _ Hrep n). by exists l.
  - intros n' l1 H1. apply lookup_insert_Some in H1 as [[<- <-]|[Hne H1]]; [done|].
    by apply (rep_range _ _ Hrep).
Qed.

(** ** Creating and removing a whole directory *)

Lemma u64_zero : is_u64 0.
Proof. unfold is_u64. lia. Qed.

Lemma rep_new m s x :
  dir_rep ∅ m → sle_type s = ltDIR_NODE → getFieldV256 sfIndexes (fields s) = [x] →
  getFieldU64 sfIndexNext (fields s) = 0 → getFieldU64 sfIndexPrevious (fields s) = 0 →
  dir_rep {[0 := [x]]} (<[key 0 := s]> m).
Proof using PL.
  intros Hrep Ht Hi Hn Hp.
  assert (∀ n', has {[0 := [x]]} n' ↔ n' = 0) as Hd.
  { intros n'. unfold has. rewrite <- insert_empty, lookup_insert_is_Some', lookup_empty.
    split; [by intros [?|[]]|auto]. }
  split.
  - intros n l [<- <-]%lookup_singleton_Some. exists s. rewrite lookup_insert_eq. split; [done|].
    split; [done|done|..].
    + rewrite Hn. split; [by left|]. intros n' ->%Hd ?. lia.
    + rewrite Hp. split; [by apply Hd|]. split; [done|]. intros n' ->%Hd _. lia.
  - intros n Hu Hl. apply lookup_singleton_None in Hl. rewrite lookup_insert_ne.
    + by apply (rep_absent _ _ Hrep).
    + intros E%key_inj; [by subst|apply u64_zero|done].
  - intros n _. by apply Hd.
  - intros n l [<- <-]%lookup_singleton_Some. split; [apply u64_zero|]. unfold DIR_NODE_MAX. simpl. lia.
Qed.

(** Dropping every page. *)
Lemma rep_drop pages m m' :
  dir_rep pages m → (∀ n, is_u64 n → pages !! n = None → m' !! key n = m !! key n) →
  (∀ n l, pages !! n = Some l → m' !! key n = None) → dir_rep ∅ m'.
Proof.
  intros Hrep Hsame Hdrop. split.
  - intros n l. by rewrite lookup_empty.
  - intros n Hn _. destruct (pages !! n) as [l|] eqn:E; [by apply (Hdrop n l)|].
    rewrite Hsame by done. by apply (rep_absent _ _ Hrep).
  - intros n [x Hx]. by rewrite lookup_empty in Hx.
  - intros n l. by rewrite lookup_empty.
Qed.

(** ** A new last page *)

Section extend.
Context (pages : pages_t) (n x : Z).
Context (Hn : has pages n) (Hlast : ∀ n', has pages n' → n' ≤ n) (Hpos : 0 ≤ n).

Definition extended : pages_t := <[n + 1 := [x]]> pages.

Lemma has_extended n' : has extended n' ↔ n' = n + 1 ∨ has pages n'.
Proof. apply has_insert. Qed.

Lemma extended_next n' y : has pages n' → n' ≠ n → next_ok pages n' y → next_ok extended n' y.
Proof using Hn Hlast.
  intros Hn' Hne [H1 H2]. pose proof (Hlast n' Hn').
  destruct (H2 n Hn ltac:(lia)) as [Hy Hyn]. split.
  - right. destruct H1 as [->|[? ?]]; [done|]. split; [apply has_extended; by right|done].
  - intros n'' [->|Hn'']%has_extended Hlt; [split; [done|lia]|by apply H2].
Qed.

Lemma extended_prev n' y : n' ≤ n → n' ≠ 0 → prev_ok pages n' y → prev_ok extended n' y.
Proof.
  intros Hle Hne (H1 & H2 & H3). split; [apply has_extended; by right|]. split; [done|].
  intros n'' [->|Hn'']%has_extended [?|?]; [done|lia|done|]. apply H3; auto.
Qed.

Lemma extended_last_next : next_ok extended n (n + 1).
Proof using Hlast Hpos.
  split; [right; split; [apply has_extended; by left|lia]|].
  intros n' [->|Hn'%Hlast]%has_extended ?; lia.
Qed.

Lemma extended_root_prev : prev_ok extended 0 (n + 1).
Proof using Hlast.
  split; [apply has_extended; by left|]. split; [done|].
  intros n' [->|Hn'%Hlast]%has_extended _; lia.
Qed.

Lemma extended_new_next : next_ok extended (n + 1) 0.
Proof using Hlast. split; [by left|]. intros n' [->|Hn'%Hlast]%has_extended ?; lia. Qed.

Lemma extended_new_prev : prev_ok extended (n + 1) n.
Proof using Hn Hlast Hpos.
  split; [apply has_extended; by right|]. split; [lia|].
  intros n' [->|Hn'%Hlast]%has_extended [?|?]; lia.
Qed.

End extend.

Lemma has_u64 pages m n : dir_rep pages m → has pages n → is_u64 n.
Proof. intros Hrep [l Hl]. by apply (rep_range _ _ Hrep) in Hl as []. Qed.

Lemma key_ne i j : is_u64 i → is_u64 j → i ≠ j → key i ≠ key j.
Proof using PL. intros Hi Hj Hne E. by apply Hne, key_inj. Qed.

(** The entries of the last page, the root and the new page after [dirAdd] has
    added a page; the first two may be the same. *)
Lemma rep_extend pages m m' n x :
  dir_rep pages m → has pages n → (∀ n', has pages n' → n' ≤ n) → is_u64 (n + 1) →
  (∀ n', is_u64 n' → n' ≠ n → n' ≠ 0 → n' ≠ n + 1 → m' !! key n' = m !! key n') →
  (∀ s l, m !! key n = Some s → node_ok pages n l s →
     ∃ s', m' !! key n = Some s' ∧ node_ok (extended pages n x) n l s') →
  (∀ s l, m !! key 0 = Some s → node_ok pages 0 l s →
     ∃ s', m' !! key 0 = Some s' ∧ node_ok (extended pages n x) 0 l s') →
  (∃ s', m' !! key (n + 1) = Some s' ∧ node_ok (extended pages n x) (n + 1) [x] s') →
  dir_rep (extended pages n x) m'.
Proof.
  intros Hrep Hn Hlast HN Hsame Hl Hr Hnew. split.
  - intros n' l' H'. unfold extended in H'. apply lookup_insert_Some in H' as [[<- <-]|[Hne H']]; [done|].
    destruct (rep_node _ _ Hrep n' l' H') as (s & Hs & Hok).
    assert (has pages n') as Hn' by (by exists l').
    destruct (decide (n' = 0)) as [->|H0]; [by eapply Hr|].
    destruct (decide (n' = n)) as [->|Hnn']; [by eapply Hl|].
    exists s. rewrite Hsame by (try done; by apply (has_u64 _ _ _ Hrep)). split; [done|].
    destruct Hok. split; [done|done|by apply extended_next|].
    apply extended_prev; [by apply Hlast|done..].
  - intros n' Hu' H'. unfold extended in H'. apply lookup_insert_None in H' as [H' Hne].
    rewrite Hsame; [by apply (rep_absent _ _ Hrep)|done|..]; intros ->.
    + destruct Hn. congruence.
    + destruct (rep_root _ _ Hrep n Hn). congruence.
    + done.
  - intros n' _. apply has_extended. right. by apply (rep_root _ _ Hrep n).
  - intros n' l' H'. unfold extended in H'. apply lookup_insert_Some in H' as [[<- <-]|[Hne H']].
    + split; [done|]. unfold DIR_NODE_MAX. simpl. lia.
    + by apply (rep_range _ _ Hrep).
Qed.

(** ** Unlinking a page between two others *)

Section unlink.
Context (pages : pages_t) (n p x : Z).
Context (Hn0 : n ≠ 0) (Hx0 : x ≠ 0) (Hnext : next_ok pages n x) (Hprev : prev_ok pages n p).

Lemma has_unlinked n' : has (delete n pages) n' ↔ n' ≠ n ∧ has pages n'.
Proof. apply has_delete. Qed.

Lemma unlinked_between : has pages p ∧ p < n ∧ has pages x ∧ n < x.
Proof using Hn0 Hx0 Hnext Hprev.
  destruct Hnext as [[?|[? ?]] _]; [done|]. destruct Hprev as (? & ? & _). auto.
Qed.

Lemma unlinked_next n' y :
  has pages n' → n' ≠ n → n' ≠ p → next_ok pages n' y → next_ok (delete n pages) n' y.
Proof using Hn0 Hx0 Hnext Hprev.
  intros Hn' Hne Hnp [H1 H2]. destruct unlinked_between as (Hp & Hpn & Hx & Hnx).
  destruct Hprev as (_ & _ & Hmax).
  split; [|intros n'' [_ Hn'']%has_unlinked; by apply H2].
  destruct H1 as [->|[Hy Hlt]]; [by left|]. right. split; [|done]. apply has_unlinked. split; [|done].
  intros ->. pose proof (Hmax n' Hn' ltac:(lia)). destruct (H2 p Hp ltac:(lia)) as [_ ?]. lia.
Qed.

Lemma unlinked_prev n' y :
  has pages n' → n' ≠ n → n' ≠ x → prev_ok pages n' y → prev_ok (delete n pages) n' y.
Proof using Hn0 Hx0 Hnext Hprev.
  intros Hn' Hne Hnx' (H1 & H2 & H3). destruct unlinked_between as (Hp & Hpn & Hx & Hnx).
  destruct Hnext as [_ Hmin].
  split; [|split; [done|intros n'' [_ Hn'']%has_unlinked; by apply H3]].
  apply has_unlinked. split; [|done]. intros ->. destruct (decide (n' = 0)) as [->|H0].
  - pose proof (H3 x Hx ltac:(auto)). lia.
  - pose proof (H2 H0). destruct (Hmin n' Hn' ltac:(lia)) as [_ ?].
    pose proof (H3 x Hx ltac:(lia)). lia.
Qed.

Lemma unlinked_previous : next_ok (delete n pages) p x.
Proof using Hn0 Hx0 Hnext Hprev.
  destruct unlinked_between as (Hp & Hpn & Hx & Hnx). destruct Hprev as (_ & _ & Hmax), Hnext as [_ Hmin].
  split; [right; split; [apply has_unlinked; split; [lia|done]|lia]|].
  intros n' [Hne Hn']%has_unlinked Hlt. split; [done|]. destruct (Z.lt_ge_cases n' n).
  - pose proof (Hmax n' Hn' ltac:(lia)). lia.
  - apply Hmin; [done|lia].
Qed.

Lemma unlinked_following : prev_ok (delete n pages) x p.
Proof using Hn0 Hx0 Hnext Hprev.
  destruct unlinked_between as (Hp & Hpn & Hx & Hnx). destruct Hprev as (_ & _ & Hmax), Hnext as [_ Hmin].
  split; [apply has_unlinked; split; [lia|done]|]. split; [lia|].
  intros n' [Hne Hn']%has_unlinked [?|Hlt]; [done|]. destruct (Z.lt_ge_cases n' n).
  - apply Hmax; auto.
  - destruct (Hmin n' Hn' ltac:(lia)). lia.
Qed.

End unlink.

Lemma rep_unlink pages m m' n p x :
  dir_rep pages m → has pages n → n ≠ 0 → x ≠ 0 → next_ok pages n x → prev_ok pages n p →
  (∀ n', is_u64 n' → n' ≠ n → n' ≠ p → n' ≠ x → m' !! key n' = m !! key n') →
  m' !! key n = None →
  (∀ s l, m !! key p = Some s → node_ok pages p l s →
     ∃ s', m' !! key p = Some s' ∧ sle_type s' = sle_type s ∧
       getFieldV256 sfIndexes (fields s') = l ∧ getFieldU64 sfIndexNext (fields s') = x ∧
       getFieldU64 sfIndexPrevious (fields s') = getFieldU64 sfIndexPrevious (fields s)) →
  (∀ s l, m !! key x = Some s → node_ok pages x l s →
     ∃ s', m' !! key x = Some s' ∧ sle_type s' = sle_type s ∧
       getFieldV256 sfIndexes (fields s') = l ∧ getFieldU64 sfIndexPrevious (fields s') = p ∧
       getFieldU64 sfIndexNext (fields s') = getFieldU64 sfIndexNext (fields s)) →
  dir_rep (delete n pages) m'.
Proof.
  intros Hrep Hn Hn0 Hx0 Hnext Hprev Hsame Hdel Hp Hx.
  destruct (unlinked_between pages n p x Hn0 Hx0 Hnext Hprev) as (Hhp & Hpn & Hhx & Hnx). split.
  - intros n' l' H'. apply lookup_delete_Some in H' as [Hne H'].
    destruct (rep_node _ _ Hrep n' l' H') as (s & Hs & Hok). pose proof Hok as [Ht Hi Hok1 Hok2].
    assert (has pages n') as Hn' by (by exists l').
    destruct (decide (n' = p)) as [->|Hnp]; [|destruct (decide (n' = x)) as [->|Hnx']].
    + destruct (Hp s l' Hs Hok) as (s' & Hs' & T & I & N & P). exists s'. split; [done|].
      split; [congruence|done|rewrite N; by apply unlinked_previous|].
      rewrite P. apply (unlinked_prev pages n p x); auto. lia.
    + destruct (Hx s l' Hs Hok) as (s' & Hs' & T & I & P & N). exists s'. split; [done|].
      split; [congruence|done| |rewrite P; by apply unlinked_following].
      rewrite N. apply (unlinked_next pages n p x); auto.
    + exists s. rewrite Hsame by (try done; by apply (has_u64 _ _ _ Hrep)). split; [done|].
      split; [done|done|by apply (unlinked_next pages n p x)|by apply (unlinked_prev pages n p x)].
  - intros n' Hu H'. apply lookup_delete_None in H' as [<-|H']; [done|].
    destruct (decide (n' = n)) as [->|Hne]; [done|].
    rewrite Hsame; [by apply (rep_absent _ _ Hrep)|done|done|..]; intros ->;
      [destruct Hhp|destruct Hhx]; congruence.
  - intros n' _. apply has_unlinked. split; [done|]. by apply (rep_root _ _ Hrep n).
  - intros n' l' [_ H']%lookup_delete_Some. by apply (rep_range _ _ Hrep).
Qed.

(** ** A directory with one page besides the root *)

Lemma only_two pages n x :
  has pages 0 → n ≠ 0 → next_ok pages 0 n → prev_ok pages 0 n → has pages x → 0 ≤ x → x = 0 ∨ x = n.
Proof.
  intros H0 Hn [_ Hmin] (_ & _ & Hmax) Hx Hpos.
  destruct (decide (x = 0)) as [?|Hx0]; [by left|right].
  destruct (Hmin x Hx ltac:(lia)). pose proof (Hmax x Hx ltac:(auto)). lia.
Qed.

End rep.

Create HintDb dir discriminated.
#[export] Hint Resolve u64_zero same_elsewhere_refl same_elsewhere_insert same_elsewhere_delete : dir.
#[export] Hint Resolve same_elsewhere_trans | 10 : dir.

End DirRep.
