(* ===== verification/DirectoryFacts.v ===== *)
(** * Directories keep their entries

    [dirAdd] and [dirDelete] on a well-formed directory: they do not throw, keep
    it well-formed, leave the rest of the ledger alone, and add or remove exactly
    the entry they are given. *)

From stdpp Require Import strings.
From S2P Require Import Prelude StateMonad Views ApplyStateTable ApplyFacts ViewLogic Directory DirectoryRep.
Import Apply ApplyFacts VL Dir DirRep.

Open Scope Z_scope.

Open Scope prog_scope.

Module DirFacts.

(** ** Fields *)

Lemma get_set_u64 f x o : getFieldU64 f (setFieldU64 f x o) = x.
Proof. unfold getFieldU64. simpl. by rewrite lookup_insert_eq. Qed.
Lemma get_set_u64_ne f g x o : f ≠ g → getFieldU64 f (setFieldU64 g x o) = getFieldU64 f o.
Proof. intros. unfold getFieldU64. simpl. by rewrite lookup_insert_ne. Qed.
Lemma get_set_v256 f x o : getFieldV256 f (setFieldV256 f x o) = x.
Proof. unfold getFieldV256. simpl. by rewrite lookup_insert_eq. Qed.
Lemma get_u64_set_v256 f g x o : getFieldU64 f (setFieldV256 g x o) = getFieldU64 f o.
Proof. done. Qed.
Lemma get_v256_set_u64 f g x o : getFieldV256 f (setFieldU64 g x o) = getFieldV256 f o.
Proof. done. Qed.

Create Rewrite HintDb fields.
#[export] Hint Rewrite get_set_u64 get_set_v256 get_u64_set_v256 get_v256_set_u64 : fields.
#[export] Hint Rewrite get_set_u64_ne using done : fields.

Ltac fields := unfold with_fields; cbn [Views.fields sle_type sle_key]; autorewrite with fields.

(** A describer sets other fields than the links. *)
Definition keeps_links (fDescriber : bool → STObject → STObject) : Prop :=
  ∀ b o, getFieldV256 sfIndexes (fDescriber b o) = getFieldV256 sfIndexes o ∧
    getFieldU64 sfIndexNext (fDescriber b o) = getFieldU64 sfIndexNext o ∧
    getFieldU64 sfIndexPrevious (fDescriber b o) = getFieldU64 sfIndexPrevious o.

Lemma describeOwnerDir_keeps account : keeps_links (describeOwnerDir account).
Proof. by intros b o. Qed.

(** ** The entries in the order of the pages *)

Definition entries (pages : gmap Z (list Z)) : list Z := concat (in_order pages).*2.

Lemma entries_split pages n l :
  pages !! n = Some l →
  ∃ l1 l2, entries pages = l1 ++ l ++ l2 ∧ entries (delete n pages) = l1 ++ l2 ∧
    ∀ l', entries (<[n := l']> pages) = l1 ++ l' ++ l2.
Proof.
  intros Hn. destruct (in_order_split pages n l Hn) as (a & b & E & Ed & Ei).
  exists (concat a.*2), (concat b.*2). unfold entries. rewrite E, Ed.
  rewrite !fmap_app, !concat_app. split; [done|]. split; [done|].
  intros l'. by rewrite Ei, !fmap_app, !concat_app.
Qed.

Lemma entries_last pages n l :
  (∀ k, has pages k → k < n) → entries (<[n := l]> pages) = entries pages ++ l.
Proof.
  intros Hlast. unfold entries. rewrite in_order_last by done.
  rewrite fmap_app, concat_app. simpl. by rewrite (right_id_L [] (++)).
Qed.

(** On the last page, adding to its end adds to the end of all. *)
Lemma entries_append pages n l x :
  pages !! n = Some l → (∀ k, has pages k → k ≤ n) →
  entries (<[n := l ++ [x]]> pages) = entries pages ++ [x].
Proof.
  intros Hn Hlast. rewrite <- (insert_delete_id pages n l Hn) at 2.
  rewrite <- (insert_delete_eq pages n (l ++ [x])).
  assert (∀ k, has (delete n pages) k → k < n) as Hl.
  { intros k [Hne Hk%Hlast]%has_delete. lia. }
  rewrite !entries_last by done. by rewrite (assoc_L (++)).
Qed.

(** The page lists the entry. *)
Definition listed (pages : gmap Z (list Z)) (n x : Z) : Prop := ∃ l, pages !! n = Some l ∧ x ∈ l.

(** Entries stay on their pages. *)
Definition stays (pages pages' : gmap Z (list Z)) : Prop := ∀ n y, listed pages n y → listed pages' n y.

Lemma stays_insert pages n l l' : pages !! n = Some l → l ⊆ l' → stays pages (<[n := l']> pages).
Proof.
  intros Hl Hsub n' y (l0 & Hl0 & Hy). destruct (decide (n' = n)) as [->|Hne].
  - exists l'. rewrite lookup_insert_eq. split; [done|]. apply Hsub. congruence.
  - exists l0. by rewrite lookup_insert_ne.
Qed.

Lemma stays_new pages n l : pages !! n = None → stays pages (<[n := l]> pages).
Proof. intros Hn n' y (l0 & Hl0 & Hy). exists l0. split; [|done]. rewrite lookup_insert_ne; congruence. Qed.

Lemma stays_delete pages n : pages !! n = Some [] → stays pages (delete n pages).
Proof.
  intros Hn n' y (l0 & Hl0 & Hy). exists l0. split; [|done]. rewrite lookup_delete_ne; [done|].
  intros <-. rewrite Hn in Hl0. injection Hl0 as <-. by apply elem_of_nil in Hy.
Qed.

Lemma stays_nothing pages pages' : (∀ n l, pages !! n = Some l → l = []) → stays pages pages'.
Proof. intros Hl n y (l & Hn & Hy). rewrite (Hl n l Hn) in Hy. by apply elem_of_nil in Hy. Qed.

Section facts.
Context {V : Type} {RV : ReadView STObject V} `{PH : PageHash} (r : Z) {PL : PageHashLaws r}.
Context (c : gmap Z (SLE STObject)) (v0 : ApplyView STObject V) (Hbase : reads_as (base_ v0) c).

(** Changes to other entries may be pending. *)
Context (K : gset Z) (HK : ∀ k, k ∈ K → foreign r k).

Lemma page_not_pending n : is_u64 n → key r n ∉ K.
Proof using HK. intros Hn Hk. by apply (HK _ Hk n). Qed.

Lemma root_not_pending : key r 0 ∉ K.
Proof using HK. apply page_not_pending, u64_zero. Qed.

Hint Resolve page_not_pending root_not_pending : dir.

(** ** dirAdd *)

(** The outcome of [dirAdd]: the entry is listed at the end, on the page that is
    returned, or the page numbers are used up. *)
Definition added pages (m : gmap Z (SLE STObject)) x (a : TER * Z) m' : Prop :=
  (a.1 = tesSUCCESS ∧
   ∃ pages', dir_rep r pages' m' ∧ same_elsewhere r m m' ∧
     entries pages' = entries pages ++ [x] ∧ listed pages' a.2 x ∧ stays pages pages') ∨
  (a.1 = tecDIR_FULL ∧ m' = m ∧ has pages (2 ^ 64 - 1)).

Definition dir_post hs (D : gset Z) (P : gmap Z (SLE STObject) → Prop) (v : ApplyView STObject V) : Prop :=
  ∃ m' hs' D', hs ⊆ hs' ∧ D ⊆ D' ∧ state c v0 m' hs' K D' v ∧ P m'.

Lemma dirAdd_new m hs D v x fDescriber :
  state c v0 m hs K D v → dir_rep r ∅ m → keeps_links fDescriber →
  wp (dirAdd r x fDescriber) v (λ a, dir_post hs D (added ∅ m x a)).
Proof using PL Hbase HK.
  intros Hst Hrep Hfd. unfold dirAdd. eapply wp_peek_none; [done|done|..].
  { by eapply rep_lookup_none; [done|apply u64_zero|]. }
  intros v1 H1. eapply wp_make_insert_clean; [done|by apply (rep_absent r _ _ Hrep 0 u64_zero)|auto with dir|].
  intros p v2 Hsub H2. eapply wp_set_known; [done|apply lookup_insert_eq|apply lookup_insert_eq|auto with dir|set_solver|].
  intros v3 H3. eapply wp_set_known; [done|apply lookup_insert_eq|apply lookup_insert_eq|auto with dir|set_solver|].
  intros v4 H4. apply wp_ret. eexists _, _, _. split; [done|]. split; [|split; [done|]]; [set_solver|].
  rewrite !insert_insert_eq. left. split; [done|].
  destruct (Hfd true (setFieldH256 sfRootIndex r empty_object)) as (F1 & F2 & F3).
  exists {[0 := [x]]}. split; [|split; [|split; [done|split]]].
  - apply rep_new; [done|done|done|by fields|fields; by rewrite F2|fields; by rewrite F3].
  - apply same_elsewhere_insert, u64_zero.
  - exists [x]. by rewrite lookup_singleton_eq, list_elem_of_singleton.
  - apply stays_nothing. intros n l. by rewrite lookup_empty.
Qed.

(** The page the root points to as the last one. *)
Lemma last_page pages m hs D v N p0 :
  state c v0 m hs K D v → dir_rep r pages m → hs !! p0 = Some (key r 0) → has pages N →
  wp (if N =? 0 then ret p0 else (let! q := peek (page r N) in non_null q)) v
    (λ pn v', ∃ hs', hs ⊆ hs' ∧ hs' !! pn = Some (key r N) ∧ state c v0 m hs' K D v').
Proof using Hbase.
  intros Hst Hrep Hp0 [l Hl]. destruct (Z.eqb_spec N 0) as [->|HN].
  - apply wp_ret. by exists hs.
  - destruct (rep_lookup r pages m N l Hrep Hl) as (s & _ & _ & Hs).
    eapply wp_peek_some; [done..|]. intros p v' Hsub Hst'. apply wp_ret.
    eexists. split; [done|]. split; [apply lookup_insert_eq|done].
Qed.

Lemma dirAdd_append pages m hs D v x n l p :
  state c v0 m hs K D v → dir_rep r pages m → hs !! p = Some (key r n) →
  pages !! n = Some l → (∀ n', has pages n' → n' ≤ n) → length l ≠ DIR_NODE_MAX →
  wp (update p;; save_entry p l x n) v (λ a, dir_post hs D (added pages m x a)).
Proof using PL Hbase HK.
  intros Hst Hrep Hp Hl Hlast Hlen. destruct (rep_node _ _ _ Hrep n l Hl) as (s & Hs & Hok).
  destruct (rep_range _ _ _ Hrep n l Hl) as [Hu Hmax].
  eapply wp_update_clean; [done|done|done|auto with dir|]. intros v1 H1.
  eapply wp_set_known; [done|done|done|auto with dir|set_solver|]. intros v2 H2. apply wp_ret.
  eexists _, hs, _. split; [done|]. split; [|split; [done|]]; [set_solver|]. left. split; [done|].
  exists (<[n := l ++ [x]]> pages). split; [|split; [by apply same_elsewhere_insert|split; [|split]]].
  - eapply rep_indexes; [done..| |done|by fields|done|done]. rewrite length_app. simpl. lia.
  - by apply entries_append.
  - exists (l ++ [x]). rewrite lookup_insert_eq. split; [done|]. set_solver.
  - apply (stays_insert pages n l); [done|set_solver].
Qed.

(** The last steps on a new page. *)
Lemma page_filled m hs D v p k s x N (f : STObject → STObject) :
  state c v0 m hs K D v → hs !! p = Some k → m !! k = Some s → k ∉ K → k ∈ D →
  wp (set p f;; save_entry p [] x N) v
    (λ a v', a = (tesSUCCESS, N) ∧
       state c v0 (<[k := with_fields s (λ o, setFieldV256 sfIndexes [x] (f o))]> m) hs K D v').
Proof using PL Hbase HK.
  intros Hst Hp Hs HkK Hk. eapply wp_set_known; [done..|]. intros v1 H1.
  eapply wp_set_known; [done|done|apply lookup_insert_eq|done|done|]. intros v2 H2. apply wp_ret.
  rewrite insert_insert_eq in H2. done.
Qed.

(** The whole new page, linked back to the page before it. *)
Lemma new_page m hs D v x n fDescriber :
  state c v0 m hs K D v → m !! key r (n + 1) = None → is_u64 (n + 1) → keeps_links fDescriber →
  wp (let! p := make_sle (setFieldH256 sfRootIndex r empty_object) (page r (n + 1)) in
      insert p;;
      (if negb (n + 1 =? 1) then set p (setFieldU64 sfIndexPrevious (n + 1 - 1)) else ret tt);;
      set p (fDescriber false);;
      save_entry p [] x (n + 1)) v
    (λ a v', a = (tesSUCCESS, n + 1) ∧
       ∃ s hs' D', hs ⊆ hs' ∧ D ⊆ D' ∧ state c v0 (<[key r (n + 1) := s]> m) hs' K D' v' ∧
         sle_type s = ltDIR_NODE ∧ getFieldV256 sfIndexes (fields s) = [x] ∧
         getFieldU64 sfIndexNext (fields s) = 0 ∧ getFieldU64 sfIndexPrevious (fields s) = n).
Proof using PL Hbase HK.
  intros Hst Hm Hu Hfd. eapply wp_make_insert_clean; [done|done|by apply page_not_pending|]. intros p v1 Hsub H1.
  assert (key r (n + 1) ∉ K) as Hnp by auto with dir.
  destruct (Z.eqb_spec (n + 1) 1) as [E|E]; cbn [negb].
  - apply wp_bind, wp_ret. eapply wp_mono; [eapply page_filled; [done|apply lookup_insert_eq|apply lookup_insert_eq|done|set_solver]|].
    intros a v2 [-> H2]. split; [done|]. rewrite insert_insert_eq in H2.
    destruct (Hfd false (setFieldH256 sfRootIndex r empty_object)) as (F1 & F2 & F3).
    eexists _, _, _. split; [done|]. split; [|split; [done|]]; [set_solver|]. fields. rewrite F2, F3.
    assert (n = 0) as -> by lia. done.
  - eapply wp_set_known; [done|apply lookup_insert_eq|apply lookup_insert_eq|auto with dir|set_solver|]. intros v2 H2.
    eapply wp_mono; [eapply page_filled; [done|apply lookup_insert_eq|apply lookup_insert_eq|done|set_solver]|].
    intros a v3 [-> H3]. split; [done|]. rewrite !insert_insert_eq in H3.
    destruct (Hfd false (setFieldU64 sfIndexPrevious (n + 1 - 1) (setFieldH256 sfRootIndex r empty_object)))
      as (F1 & F2 & F3).
    eexists _, _, _. split; [done|]. split; [|split; [done|]]; [set_solver|]. fields. rewrite F2, F3. fields.
    split; [done|]. split; [done|]. split; [done|]. lia.
Qed.

(** A full last page: it and the root are linked to the new one.  The two may
    be the same page. *)
Lemma rep_linked pages m n l x s s1 s3 :
  dir_rep r pages m → pages !! n = Some l → (∀ n', has pages n' → n' ≤ n) → is_u64 (n + 1) →
  m !! key r n = Some s →
  let m1 := <[key r n := with_fields s (setFieldU64 sfIndexNext (n + 1))]> m in
  m1 !! key r 0 = Some s1 →
  sle_type s3 = ltDIR_NODE → getFieldV256 sfIndexes (fields s3) = [x] →
  getFieldU64 sfIndexNext (fields s3) = 0 → getFieldU64 sfIndexPrevious (fields s3) = n →
  dir_rep r (extended pages n x)
    (<[key r (n + 1) := s3]> (<[key r 0 := with_fields s1 (setFieldU64 sfIndexPrevious (n + 1))]> m1)).
Proof using PL.
  intros Hrep Hl Hlast Hu Hs m1 Hs1 T3 I3 N3 P3.
  assert (has pages n) as Hn by (by exists l).
  pose proof (has_u64 _ _ _ _ Hrep Hn) as Hun. pose proof u64_zero as Hu0.
  assert (0 ≤ n) as Hpos by apply Hun.
  assert (key r n ≠ key r (n + 1)) as Hne by (apply (key_ne r); [done..|lia]).
  assert (key r 0 ≠ key r (n + 1)) as Hne0 by (apply (key_ne r); [done..|lia]).
  eapply rep_extend; [done..| | | |].
  - intros n' Hu' ???. unfold m1. by rewrite !lookup_insert_ne by (apply (key_ne r); done).
  - intros s' l' Hs' [T I N P]. assert (s' = s) as -> by congruence.
    rewrite lookup_insert_ne by done. destruct (decide (n = 0)) as [->|Hn0].
    + unfold m1 in Hs1. rewrite lookup_insert_eq in Hs1. injection Hs1 as <-.
      rewrite lookup_insert_eq. eexists. split; [done|]. split; fields; [done|done|..].
      * by apply extended_last_next.
      * by apply extended_root_prev.
    + rewrite lookup_insert_ne by (apply (key_ne r); auto). unfold m1. rewrite lookup_insert_eq.
      eexists. split; [done|]. split; fields; [done|done|..].
      * by apply extended_last_next.
      * by apply extended_prev.
  - intros s' l' Hs' [T I N P]. rewrite lookup_insert_ne, lookup_insert_eq by done.
    eexists. split; [done|]. unfold m1 in Hs1. destruct (decide (n = 0)) as [->|Hn0].
    + rewrite lookup_insert_eq in Hs1. injection Hs1 as <-. assert (s' = s) as -> by congruence.
      split; fields; [done|done|by apply extended_last_next|by apply extended_root_prev].
    + rewrite lookup_insert_ne in Hs1 by (apply (key_ne r); auto). assert (s' = s1) as -> by congruence.
      split; fields; [done|done| |by apply extended_root_prev].
      apply extended_next; [done|done|by apply (rep_root _ _ _ Hrep n)|auto|done].
  - exists s3. rewrite lookup_insert_eq. split; [done|]. split; [done|done|..].
    + rewrite N3. by apply extended_new_next.
    + rewrite P3. by apply extended_new_prev.
Qed.

Lemma dirAdd_extend pages m hs D v x n l p p0 fDescriber :
  state c v0 m hs K D v → dir_rep r pages m → keeps_links fDescriber →
  hs !! p = Some (key r n) → hs !! p0 = Some (key r 0) →
  pages !! n = Some l → (∀ n', has pages n' → n' ≤ n) → is_u64 (n + 1) →
  wp (set p (setFieldU64 sfIndexNext (n + 1));; update p;;
      set p0 (setFieldU64 sfIndexPrevious (n + 1));; update p0;;
      let! q := make_sle (setFieldH256 sfRootIndex r empty_object) (page r (n + 1)) in
      insert q;;
      (if negb (n + 1 =? 1) then set q (setFieldU64 sfIndexPrevious (n + 1 - 1)) else ret tt);;
      set q (fDescriber false);;
      save_entry q [] x (n + 1)) v (λ a, dir_post hs D (added pages m x a)).
Proof using PL Hbase HK.
  intros Hst Hrep Hfd Hp Hp0 Hl Hlast Hu. assert (has pages n) as Hn by (by exists l).
  pose proof (has_u64 _ _ _ _ Hrep Hn) as Hun. pose proof u64_zero as Hu0.
  assert (n + 1 ≠ 0 ∧ n + 1 ≠ n) as [Hd0 Hd] by (unfold is_u64 in *; lia).
  destruct (rep_node _ _ _ Hrep n l Hl) as (s & Hs & Hok).
  eapply wp_set_update; [done|done|done|auto with dir|]. intros v1 H1.
  set (m1 := <[key r n := with_fields s (setFieldU64 sfIndexNext (n + 1))]> m) in *.
  destruct (st_handles _ _ _ _ _ _ _ H1 p0 _ Hp0) as (s1 & Hs1 & _).
  eapply wp_set_update; [done|done|done|auto with dir|]. intros v2 H2.
  eapply wp_mono; [eapply new_page; [done| |done|done]|].
  { unfold m1. rewrite !lookup_insert_ne by (apply (key_ne r); done). apply (rep_absent _ _ _ Hrep); [done|].
    apply eq_None_not_Some. intros H%Hlast. lia. }
  intros a v3 [-> (s3 & hs' & D' & Hsub & HD & H3 & T3 & I3 & N3 & P3)].
  eexists _, hs', D'. split; [done|]. split; [set_solver|]. split; [done|]. left. split; [done|].
  exists (extended pages n x). split; [by eapply rep_linked|]. split; [|split; [|split]].
  - unfold m1. eauto 6 with dir.
  - apply entries_last. intros k Hk%Hlast. lia.
  - exists [x]. unfold extended. rewrite lookup_insert_eq. split; [done|set_solver].
  - apply stays_new, eq_None_not_Some. intros H%Hlast. lia.
Qed.

(** [dirAdd] on a directory that exists. *)
Lemma dirAdd_old pages m hs D v x l0 fDescriber :
  state c v0 m hs K D v → dir_rep r pages m → pages !! 0 = Some l0 → keeps_links fDescriber →
  wp (dirAdd r x fDescriber) v (λ a, dir_post hs D (added pages m x a)).
Proof using PL Hbase HK.
  intros Hst Hrep Hl0 Hfd. destruct (rep_lookup r pages m 0 l0 Hrep Hl0) as (s0 & Hs0 & Hok0 & Hk0).
  unfold dirAdd. eapply wp_peek_some; [done..|]. intros p0 v1 Hsub1 H1.
  eapply wp_get_bind; [done|apply lookup_insert_eq|done|].
  destruct (node_prev _ _ _ _ Hok0) as (HN & _ & Hlast).
  set (N := getFieldU64 sfIndexPrevious (fields s0)) in *. pose proof HN as [l Hl].
  apply wp_bind. eapply wp_mono; [eapply last_page; [done..|apply lookup_insert_eq|done]|].
  intros p v2 (hs2 & Hsub2 & Hp & H2).
  destruct (rep_node _ _ _ Hrep N l Hl) as (s & Hs & Hok).
  eapply wp_get_bind; [done..|]. rewrite (node_indexes _ _ _ _ Hok).
  assert (∀ n', has pages n' → n' ≤ N) as HlastN by auto.
  assert (hs ⊆ hs2) as Hsub by (by etransitivity).
  assert (∀ a v', dir_post hs2 D (added pages m x a) v' → dir_post hs D (added pages m x a) v') as Hw.
  { intros a v' (m' & hs' & D' & ? & ?). exists m', hs', D'. split; [by etransitivity|done]. }
  pose proof (has_u64 _ _ _ _ Hrep HN) as HuN.
  destruct (Nat.eqb_spec (length l) DIR_NODE_MAX) as [Hfull|Hfree]; cbn [negb].
  - destruct (Z.eqb_spec (u64 (N + 1)) 0) as [Hz|Hz].
    + apply wp_ret. eexists m, hs2, D. split; [done|]. split; [done|]. split; [done|]. right. split; [done|]. split; [done|].
      replace (2 ^ 64 - 1) with N; [done|]. unfold is_u64 in HuN.
      destruct (decide (N + 1 = 2 ^ 64)); [lia|]. rewrite u64_id in Hz; lia.
    + assert (is_u64 (N + 1)) as Hu1.
      { unfold is_u64 in *. destruct (decide (N + 1 = 2 ^ 64)) as [E|?]; [|lia]. by rewrite E in Hz. }
      rewrite u64_id by (unfold is_u64 in Hu1; lia). eapply wp_mono; [|apply Hw].
      eapply dirAdd_extend; [done..| |done|done|done]. eapply lookup_weaken; [apply lookup_insert_eq|done].
  - eapply wp_mono; [|apply Hw]. by eapply dirAdd_append.
Qed.

Lemma dirAdd_ok pages m hs D v x fDescriber :
  state c v0 m hs K D v → dir_rep r pages m → keeps_links fDescriber →
  wp (dirAdd r x fDescriber) v (λ a, dir_post hs D (added pages m x a)).
Proof using PL Hbase HK.
  intros Hst Hrep Hfd. destruct (pages !! 0) as [l0|] eqn:H0; [by eapply dirAdd_old|].
  assert (pages = ∅) as ->; [|by eapply dirAdd_new].
  apply map_empty. intros n. apply eq_None_not_Some. intros Hn.
  destruct (rep_root _ _ _ Hrep n Hn). congruence.
Qed.

End facts.

#[export] Hint Resolve page_not_pending root_not_pending : dir.

End DirFacts.
