(* ===== verification/DirectoryDelete.v ===== *)
(** * Removing an entry from a directory

    [dirDelete] takes one entry off its page and, when that empties the page,
    unlinks or removes pages; the other entries stay, in the same order if that
    is asked for. *)

From stdpp Require Import strings.
From S2P Require Import Prelude StateMonad Views ApplyStateTable ApplyFacts ViewLogic Directory DirectoryRep DirectoryFacts.
Import Apply ApplyFacts VL Dir DirRep DirFacts.

Open Scope Z_scope.

Open Scope prog_scope.

Module DirDelete.

(** ** The list of one page *)

Lemma find_index_lookup x l i : find_index x l = Some i → l !! i = Some x.
Proof.
  revert i. induction l as [|y l IH]; simpl; intros i; [done|].
  destruct (Z.eqb_spec y x) as [->|]; [by intros [= <-]|].
  destruct (find_index x l) as [j|]; [|done]. intros [= <-]. by apply IH.
Qed.

Lemma find_index_None x l : find_index x l = None ↔ x ∉ l.
Proof.
  induction l as [|y l IH]; simpl; [split; [by intros _ ?%elem_of_nil|done]|].
  rewrite not_elem_of_cons. destruct (Z.eqb_spec y x) as [->|Hne].
  - split; [done|]. by intros [? _].
  - rewrite fmap_None, IH. intuition.
Qed.

Lemma remove_at_single bStable i l : (length l ≤ 1)%nat → remove_at bStable i l = [].
Proof. intros Hl. unfold remove_at. destruct (Nat.ltb_spec 1 (length l)); [lia|done]. Qed.

Lemma short_list (l : list Z) i x : l !! i = Some x → (length l ≤ 1)%nat → l = [x].
Proof. intros Hi Hl. destruct l as [|y [|]], i; simpl in *; try done; [congruence|lia..]. Qed.

Lemma remove_at_stable i l x : l !! i = Some x → remove_at true i l = take i l ++ drop (S i) l.
Proof.
  intros Hi. unfold remove_at. destruct (Nat.ltb_spec 1 (length l)); [done|].
  assert (l = [x]) as -> by (eapply short_list; [done|lia]). by destruct i.
Qed.

Lemma replace_Permutation (l : list Z) i x z : l !! i = Some x → x :: <[i := z]> l ≡ₚ z :: l.
Proof.
  intros Hi. rewrite <- (take_drop_middle l i x Hi) at 2.
  rewrite insert_take_drop by (by eapply lookup_lt_Some). solve_Permutation.
Qed.

(** The removed entry and what is left are what was there. *)
Lemma remove_at_Permutation bStable i l x : l !! i = Some x → x :: remove_at bStable i l ≡ₚ l.
Proof.
  intros Hi. destruct bStable.
  - rewrite (remove_at_stable i l x Hi). rewrite <- (take_drop_middle l i x Hi) at 3. solve_Permutation.
  - destruct (decide (length l ≤ 1)%nat) as [Hl|Hl].
    { rewrite remove_at_single by done. by rewrite (short_list l i x Hi Hl). }
    unfold remove_at. rewrite (proj2 (Nat.ltb_lt 1 (length l))) by lia.
    destruct (exists_last (l := l)) as (l' & z & ->); [by destruct l|].
    rewrite length_app in *. simpl in *. replace (length l' + 1 - 1)%nat with (length l') by lia.
    rewrite list_lookup_total_middle by done.
    apply lookup_app_Some in Hi as [Hi|[Hge Hi]].
    + rewrite insert_app_l by (by eapply lookup_lt_Some). rewrite take_app_length' by (by rewrite length_insert).
      rewrite replace_Permutation by done. solve_Permutation.
    + destruct (i - length l')%nat as [|j] eqn:Ej; [|by destruct j]. injection Hi as ->.
      rewrite insert_app_r_alt by lia. rewrite Ej, take_app_length by done. simpl. solve_Permutation.
Qed.

Lemma remove_at_length bStable i l x : l !! i = Some x → (length (remove_at bStable i l) ≤ length l)%nat.
Proof.
  intros Hi. pose proof (Permutation_length (remove_at_Permutation bStable i l x Hi)) as E.
  simpl in E. lia.
Qed.

Lemma remove_at_sublist i l x : l !! i = Some x → remove_at true i l `sublist_of` l.
Proof.
  intros Hi. rewrite (remove_at_stable i l x Hi). rewrite <- (take_drop_middle l i x Hi) at 3.
  apply sublist_app; [done|]. by constructor.
Qed.

Lemma entries_nil pages : (∀ n l, pages !! n = Some l → l = []) → entries pages = [].
Proof.
  intros H. unfold entries. assert (∀ k l, (k, l) ∈ in_order pages → l = []) as Hl.
  { intros k l Hin%elem_of_in_order. by eapply H. }
  clear H. induction (in_order pages) as [|[k l] o IH]; [done|]. simpl.
  rewrite (Hl k l) by by left. simpl. apply IH. intros k' l' Hin. apply (Hl k'). by right.
Qed.

Section facts.
Context {V : Type} {RV : ReadView STObject V} `{PH : PageHash} (r : Z) {PL : PageHashLaws r}.
Context (c : gmap Z (SLE STObject)) (v0 : ApplyView STObject V) (Hbase : reads_as (base_ v0) c).

(** Changes to other entries may be pending. *)
Context (K : gset Z) (HK : ∀ k, k ∈ K → foreign r k).

(** Pointers to other entries are still good, and what is known of them. *)
Record keeps (hs : gmap loc Z) (D : gset Z) (hs' : gmap loc Z) (D' : gset Z) : Prop := {
  keep_handles p k : foreign r k → hs !! p = Some k → hs' !! p = Some k;
  keep_known k : foreign r k → k ∈ D → k ∈ D'
}.

Lemma keeps_sub hs D hs' D' : hs ⊆ hs' → D ⊆ D' → keeps hs D hs' D'.
Proof using Type. intros Hh HD. split; [intros p k _ Hp; by eapply lookup_weaken|intros k _; apply HD]. Qed.

Lemma keeps_trans hs D hs1 D1 hs2 D2 : keeps hs D hs1 D1 → keeps hs1 D1 hs2 D2 → keeps hs D hs2 D2.
Proof using Type. intros [] []. split; auto. Qed.

Lemma keeps_forget hs D n : is_u64 n → keeps hs D (forget (key r n) hs) (D ∖ {[key r n]}).
Proof using Type.
  intros Hn. split.
  - intros p k Hk Hp. apply map_lookup_filter_Some_2; [done|]. simpl. by apply Hk.
  - intros k Hk HD. apply elem_of_difference. split; [done|]. rewrite elem_of_singleton. by apply Hk.
Qed.

(** ** Cleaning up after a page has become empty *)

(** The view shows a directory with the same entries, and the same elsewhere. *)
Definition cleaned pages (m : gmap Z (SLE STObject)) hs D (v : ApplyView STObject V) : Prop :=
  ∃ pages' m' hs' D', keeps hs D hs' D' ∧ state c v0 m' hs' K D' v ∧ dir_rep r pages' m' ∧ same_elsewhere r m m' ∧
    entries pages' = entries pages ∧ stays pages pages'.

Lemma unchanged pages m hs hs' D v :
  state c v0 m hs' K D v → hs ⊆ hs' → dir_rep r pages m → cleaned pages m hs D v.
Proof. intros. exists pages, m, hs', D. split; [by apply keeps_sub|]. split_and!; [done..|by intros n y]. Qed.

Lemma cleaned_sub pages m hs hs' D (ter : TER) v :
  hs ⊆ hs' → ter = tesSUCCESS ∧ cleaned pages m hs' D v → ter = tesSUCCESS ∧ cleaned pages m hs D v.
Proof.
  intros Hsub [-> (pages' & m' & hs2 & D2 & Hk & Hr)]. split; [done|]. exists pages', m', hs2, D2.
  split; [|done]. eapply keeps_trans; [by apply keeps_sub|done].
Qed.

(** Both pages of a directory of two are empty. *)
Lemma drop_two pages m n :
  dir_rep r pages m → n ≠ 0 → (∀ n', has pages n' → n' = 0 ∨ n' = n) →
  pages !! 0 = Some [] → pages !! n = Some [] →
  dir_rep r ∅ (delete (key r 0) (delete (key r n) m)) ∧
  same_elsewhere r m (delete (key r 0) (delete (key r n) m)) ∧ entries ∅ = entries pages ∧ stays pages ∅.
Proof using PL.
  intros Hrep Hn Honly H0 Hl. pose proof u64_zero as Hu0.
  destruct (rep_range _ _ _ Hrep n [] Hl) as [Hu _].
  assert (∀ n' l', pages !! n' = Some l' → l' = []) as Hnil.
  { intros n' l' Hl'. destruct (Honly n') as [-> | ->]; [by exists l'|congruence..]. }
  split; [|split; [|split; [|by apply stays_nothing]]].
  - apply (rep_drop r pages m); [done|..].
    + intros n' Hu' Hnone.
      rewrite !lookup_delete_ne; [done|..]; apply (key_ne r); try done; intros <-; congruence.
    + intros n' l' Hl'. destruct (Honly n') as [-> | ->]; [by exists l'|apply lookup_delete_eq|].
      rewrite lookup_delete_ne by (apply (key_ne r); done). apply lookup_delete_eq.
  - eauto with dir.
  - by rewrite (entries_nil pages).
Qed.

(** Erasing the two pages. *)
Lemma erase_two pages m hs D v n p0 p :
  state c v0 m hs K D v → dir_rep r pages m → n ≠ 0 → (∀ n', has pages n' → n' = 0 ∨ n' = n) →
  pages !! 0 = Some [] → pages !! n = Some [] →
  hs !! p0 = Some (key r 0) → hs !! p = Some (key r n) →
  wp (erase p0;; erase p;; ret tesSUCCESS) v (λ ter v', ter = tesSUCCESS ∧ cleaned pages m hs D v').
Proof using PL HK.
  intros Hst Hrep Hn Honly H0 Hl Hp0 Hp. pose proof u64_zero as Hu0.
  destruct (rep_range _ _ _ Hrep n [] Hl) as [Hu _].
  destruct (rep_node _ _ _ Hrep 0 [] H0) as (s0 & Hs0 & _).
  destruct (rep_node _ _ _ Hrep n [] Hl) as (s & Hs & _).
  assert (key r 0 ≠ key r n) as Hne by (apply (key_ne r); auto).
  destruct (drop_two pages m n Hrep Hn Honly H0 Hl) as (Hrep' & Hsame & Hent).
  eapply wp_erase_clean; [done|done|done|eauto with dir|]. intros v1 H1.
  eapply wp_erase_clean; [done|by apply map_lookup_filter_Some_2; [|simpl; auto]|by rewrite lookup_delete_ne|eauto with dir|].
  intros v2 H2. apply wp_ret. split; [done|]. rewrite delete_delete in H2. eexists _, _, _, _. split; [|done].
  by eapply keeps_trans; [apply (keeps_forget _ _ 0)|apply (keeps_forget _ _ n)].
Qed.

(** Unlinking a page that is neither the first nor the last. *)
Lemma unlink_ok pages m hs D v n p y x s :
  state c v0 m hs K D v → dir_rep r pages m → n ≠ 0 → x ≠ 0 → pages !! n = Some [] →
  hs !! p = Some (key r n) → m !! key r n = Some s → next_ok pages n x → prev_ok pages n y →
  wp (let! slePrevious := peek (page r y) in
      let! sleNext := peek (page r x) in
      match slePrevious, sleNext with
      | None, _ => ret tefBAD_LEDGER
      | _, None => ret tefBAD_LEDGER
      | Some slePrevious, Some sleNext =>
          set slePrevious (setFieldU64 sfIndexNext x);;
          update slePrevious;;
          set sleNext (setFieldU64 sfIndexPrevious y);;
          update sleNext;;
          erase p;;
          ret tesSUCCESS
      end) v (λ ter v', ter = tesSUCCESS ∧ cleaned pages m hs D v').
Proof using PL Hbase HK.
  intros Hst Hrep Hn Hx Hl Hp Hs Hnext Hprev.
  destruct (unlinked_between pages n y x Hn Hx Hnext Hprev) as (Hhy & Hyn & Hhx & Hnx).
  pose proof (has_u64 _ _ _ _ Hrep Hhy) as Huy. pose proof (has_u64 _ _ _ _ Hrep Hhx) as Hux.
  assert (is_u64 n) as Hun by (eapply rep_range; done).
  assert (key r y ≠ key r n ∧ key r x ≠ key r n ∧ key r y ≠ key r x) as (Hk1 & Hk2 & Hk3).
  { split_and!; apply (key_ne r); auto; lia. }
  destruct Hhy as [ly Hly], Hhx as [lx Hlx].
  destruct (rep_lookup r pages m y ly Hrep Hly) as (sy & Hsy & Hoky & Hky).
  destruct (rep_lookup r pages m x lx Hrep Hlx) as (sx & Hsx & Hokx & Hkx).
  eapply wp_peek_some; [done..|]. intros py v1 Hsub1 H1.
  eapply wp_peek_some; [done..|]. intros px v2 Hsub2 H2.
  assert (hs ⊆ <[px := key r x]> (<[py := key r y]> hs)) as Hsub by (by etransitivity).
  eapply wp_set_update; [done|by eapply lookup_weaken; [apply lookup_insert_eq|]|done|by apply (page_not_pending r K HK y)|]. intros v3 H3.
  eapply wp_set_update; [done|apply lookup_insert_eq|by rewrite lookup_insert_ne|by apply (page_not_pending r K HK x)|]. intros v4 H4.
  eapply wp_erase_clean; [done|by eapply lookup_weaken|by rewrite !lookup_insert_ne|by apply (page_not_pending r K HK n)|]. intros v5 H5.
  apply wp_ret. split; [done|]. eexists (delete n pages), _, _, _. split; [|split; [done|]].
  { eapply keeps_trans; [apply keeps_sub; [done|]|by apply (keeps_forget _ _ n)]. set_solver. }
  split; [|split; [|split; [|by apply stays_delete]]].
  - eapply (rep_unlink r pages m _ n y x); try done; [by exists []|..].
    + intros n' Hu' H1' H2' H3'. rewrite lookup_delete_ne, !lookup_insert_ne; [done|..]; apply (key_ne r); auto.
    + apply lookup_delete_eq.
    + intros s' l' Hs' [T I N P]. assert (s' = sy) as -> by congruence.
      rewrite lookup_delete_ne, lookup_insert_ne, lookup_insert_eq by auto. eexists. split; [done|]. by fields.
    + intros s' l' Hs' [T I N P]. assert (s' = sx) as -> by congruence.
      rewrite lookup_delete_ne, lookup_insert_eq by auto. eexists. split; [done|]. by fields.
  - change (same_elsewhere r m (delete (key r n) (<[key r x := with_fields sx (setFieldU64 sfIndexPrevious y)]>
      (<[key r y := with_fields sy (setFieldU64 sfIndexNext x)]> m)))). eauto 6 with dir.
  - destruct (entries_split pages n [] Hl) as (l1 & l2 & -> & -> & _). done.
Qed.

Lemma cleanup_root pages m hs D v bKeepRoot p :
  state c v0 m hs K D v → dir_rep r pages m → pages !! 0 = Some [] → hs !! p = Some (key r 0) →
  wp (dirCleanup bKeepRoot 0 r p) v (λ ter v', ter = tesSUCCESS ∧ cleaned pages m hs D v').
Proof using PL Hbase HK.
  intros Hst Hrep Hl Hp. destruct (rep_node _ _ _ Hrep 0 [] Hl) as (s & Hs & Hok).
  unfold dirCleanup. eapply wp_get_bind; [done..|]. eapply wp_get_bind; [done..|].
  pose proof (node_next _ _ _ _ Hok) as Hnext. pose proof (node_prev _ _ _ _ Hok) as Hprev.
  set (y := getFieldU64 sfIndexPrevious (fields s)) in *. set (x := getFieldU64 sfIndexNext (fields s)) in *.
  simpl. destruct (Z.eqb_spec y 0) as [Hy|Hy].
  - eapply wp_erase_clean; [done|done|done|eauto with dir|]. intros v1 H1. apply wp_ret. split; [done|].
    assert (∀ n' l', pages !! n' = Some l' → n' = 0) as Honly.
    { intros n' l' Hl'. destruct (rep_range _ _ _ Hrep n' l' Hl') as [[? ?] _].
      destruct Hprev as (_ & _ & Hmax). pose proof (Hmax n' ltac:(by exists l') ltac:(auto)). lia. }
    eexists ∅, _, _, _. split; [apply keeps_forget, u64_zero|]. split; [done|]. split; [|split; [auto with dir|]].
    + apply (rep_drop r pages m); [done|..].
      * intros n' Hu Hn. apply lookup_delete_ne, (key_ne r); [apply u64_zero|done|]. intros <-. congruence.
      * intros n' l' ->%Honly. apply lookup_delete_eq.
    + assert (∀ n' l', pages !! n' = Some l' → l' = []) as Hnil.
      { intros n' l' Hl'. pose proof (Honly n' l' Hl'). congruence. }
      rewrite (entries_nil pages) by done. split; [done|by apply stays_nothing].
  - destruct bKeepRoot; [by apply wp_ret; split; [|eapply unchanged]|].
    destruct (Z.eqb_spec y x) as [Hyx|Hyx]; cbn [negb]; [|by apply wp_ret; split; [|eapply unchanged]].
    rewrite <- Hyx in *. clear Hyx x. pose proof Hprev as ([ly Hly] & _ & _).
    destruct (rep_lookup r pages m y ly Hrep Hly) as (sy & Hsy & Hoky & Hky).
    eapply wp_peek_some; [done..|]. intros py v1 Hsub H1. apply wp_bind, wp_ret.
    eapply wp_get_bind; [done|apply lookup_insert_eq|done|]. rewrite (node_indexes _ _ _ _ Hoky).
    destruct ly as [|e ly]; [|by apply wp_ret; split; [|eapply unchanged]].
    eapply wp_mono; [eapply erase_two; [done|done|done| |done|done|by eapply lookup_weaken|apply lookup_insert_eq]|by intros ??; apply cleaned_sub].
    intros n' Hn'. apply (only_two pages y); [by exists []|done..|]. by apply (has_u64 _ _ _ _ Hrep Hn').
Qed.

Lemma cleanup_other pages m hs D v bKeepRoot n p :
  state c v0 m hs K D v → dir_rep r pages m → n ≠ 0 → pages !! n = Some [] → hs !! p = Some (key r n) →
  wp (dirCleanup bKeepRoot n r p) v (λ ter v', ter = tesSUCCESS ∧ cleaned pages m hs D v').
Proof using PL Hbase HK.
  intros Hst Hrep Hn Hl Hp. destruct (rep_node _ _ _ Hrep n [] Hl) as (s & Hs & Hok).
  unfold dirCleanup. eapply wp_get_bind; [done..|]. eapply wp_get_bind; [done..|].
  pose proof (node_next _ _ _ _ Hok) as Hnext. pose proof (node_prev _ _ _ _ Hok) as Hprev.
  set (y := getFieldU64 sfIndexPrevious (fields s)) in *. set (x := getFieldU64 sfIndexNext (fields s)) in *.
  rewrite (proj2 (Z.eqb_neq n 0)) by done.
  destruct (Z.eqb_spec x 0) as [Hx|Hx]; cbn [negb]; [|by apply (unlink_ok pages m hs D v n p y x s)].
  destruct bKeepRoot; simpl; [by apply wp_ret; split; [|eapply unchanged]|].
  destruct (Z.eqb_spec y 0) as [Hy|Hy]; cbn [negb]; [|by apply wp_ret; split; [|eapply unchanged]].
  rewrite Hx, Hy in *. clear x y Hx Hy. destruct Hprev as (H0 & Hlt & Hmax), Hnext as [_ Hmin].
  pose proof H0 as [l0 Hl0].
  destruct (rep_lookup r pages m 0 l0 Hrep Hl0) as (s0 & Hs0 & Hok0 & Hk0).
  eapply wp_peek_some; [done..|]. intros p0 v1 Hsub H1. apply wp_bind, wp_ret.
  eapply wp_get_bind; [done|apply lookup_insert_eq|done|]. rewrite (node_indexes _ _ _ _ Hok0).
  destruct l0 as [|e l0]; [|by apply wp_ret; split; [|eapply unchanged]].
  eapply wp_mono; [eapply erase_two; [done|done|done| |done|done|apply lookup_insert_eq|by eapply lookup_weaken]|by intros ??; apply cleaned_sub].
  intros n' Hn'. pose proof (has_u64 _ _ _ _ Hrep Hn') as [Hpos _].
  destruct (Z.lt_trichotomy n' n) as [?|[?|?]].
  - pose proof (Hmax n' Hn' ltac:(auto)). lia.
  - by right.
  - by destruct (Hmin n' Hn' ltac:(lia)).
Qed.

(** ** dirDelete *)

(** The page the search finds: the one it is told, or in a soft search the first
    up to page 20 that lists the entry. *)
Definition located (pages : gmap Z (list Z)) (bSoft : bool) (n x n' : Z) : Prop :=
  n ≤ n' ∧ (n' = n ∨ (bSoft = true ∧ n' ≤ 20)) ∧ listed pages n' x ∧
  ∀ i, n ≤ i → i < n' → ¬ listed pages i x.

Definition removed pages (m : gmap Z (SLE STObject)) hs D x (bStable : bool) (v : ApplyView STObject V) : Prop :=
  ∃ pages' m' hs' D', keeps hs D hs' D' ∧ state c v0 m' hs' K D' v ∧ dir_rep r pages' m' ∧ same_elsewhere r m m' ∧
    x :: entries pages' ≡ₚ entries pages ∧
    (bStable = true → entries pages' `sublist_of` entries pages) ∧
    (∀ n y, y ≠ x → listed pages n y → listed pages' n y).

Lemma remove_ok pages m hs D v bKeepRoot bStable n x l i p :
  state c v0 m hs K D v → dir_rep r pages m → pages !! n = Some l → find_index x l = Some i →
  hs !! p = Some (key r n) →
  wp (set p (setFieldV256 sfIndexes (remove_at bStable i l));;
      update p;;
      match remove_at bStable i l with
      | [] => dirCleanup bKeepRoot n r p
      | _ => ret tesSUCCESS
      end) v (λ ter v', ter = tesSUCCESS ∧ removed pages m hs D x bStable v').
Proof using PL Hbase HK.
  intros Hst Hrep Hl Hi%find_index_lookup Hp. destruct (rep_node _ _ _ Hrep n l Hl) as (s & Hs & Hok).
  destruct (rep_range _ _ _ Hrep n l Hl) as [Hu Hmax].
  eapply wp_set_update; [done|done|done|eauto with dir|]. intros v1 H1. set (l' := remove_at bStable i l) in *.
  set (m1 := <[key r n := with_fields s (setFieldV256 sfIndexes l')]> m) in *.
  assert (dir_rep r (<[n := l']> pages) m1) as Hrep1.
  { eapply rep_indexes; [done..| |done|by fields|done|done].
    pose proof (remove_at_length bStable i l x Hi). fold l' in H. lia. }
  assert (same_elsewhere r m m1) as Hsame by (unfold m1; auto with dir).
  destruct (entries_split pages n l Hl) as (a & b & E & _ & E').
  assert (x :: entries (<[n := l']> pages) ≡ₚ entries pages) as Hperm.
  { rewrite E, E'. rewrite <- (remove_at_Permutation bStable i l x Hi). fold l'. solve_Permutation. }
  assert (bStable = true → entries (<[n := l']> pages) `sublist_of` entries pages) as Hsub.
  { intros Hst'. rewrite E, E'. apply sublist_app; [done|]. apply sublist_app; [|done].
    unfold l'. rewrite Hst'. by apply (remove_at_sublist i l x). }
  assert (∀ n' y, y ≠ x → listed pages n' y → listed (<[n := l']> pages) n' y) as Hstay.
  { intros n' y Hy (l0 & Hl0 & Hin). destruct (decide (n' = n)) as [->|Hne]; [|exists l0; by rewrite lookup_insert_ne].
    exists l'. rewrite lookup_insert_eq. split; [done|]. assert (l0 = l) as -> by congruence.
    rewrite <- (remove_at_Permutation bStable i l x Hi) in Hin. fold l' in Hin. set_solver. }
  assert (wp (dirCleanup bKeepRoot n r p) v1 (λ ter v', ter = tesSUCCESS ∧ cleaned (<[n := l']> pages) m1 hs ({[key r n]} ∪ D) v')
    ∨ l' ≠ []) as Hclean.
  { destruct l' as [|e t] eqn:El; [left|by right]. destruct (decide (n = 0)) as [->|Hn].
    - eapply cleanup_root; [done..|apply lookup_insert_eq|done].
    - eapply cleanup_other; [done..|apply lookup_insert_eq|done]. }
  destruct l' as [|e t] eqn:El.
  - destruct Hclean as [Hclean|]; [|done]. eapply wp_mono; [done|].
    intros ter v' [-> (pages' & m' & hs' & D' & Hkeep & H' & Hrep' & Hsame' & Hent & Hs')]. split; [done|].
    exists pages', m', hs', D'. rewrite Hent.
    split; [|split; [done|]; split; [done|]; split; [eauto with dir|]; split; [done|]; split; [done|auto]].
    eapply keeps_trans; [|done]. apply keeps_sub; [done|set_solver].
  - apply wp_ret. split; [done|]. exists (<[n := e :: t]> pages), m1, hs, ({[key r n]} ∪ D).
    split; [apply keeps_sub; [done|set_solver]|done].
Qed.

(** Found and removed, or not there and nothing changed. *)
Definition delete_post pages m hs D (n x : Z) (bStable bSoft : bool) (ter : TER) (v : ApplyView STObject V) : Prop :=
  (ter = tesSUCCESS ∧ (∃ n', located pages bSoft n x n') ∧ removed pages m hs D x bStable v) ∨
  (ter = tefBAD_LEDGER ∧ (∀ n', ¬ located pages bSoft n x n') ∧
   ∃ hs' D', keeps hs D hs' D' ∧ state c v0 m hs' K D' v).

(** A page that does not list the entry is passed over. *)
Lemma located_next pages n x n' :
  n < 20 → ¬ listed pages n x → located pages true n x n' ↔ located pages true (n + 1) x n'.
Proof.
  intros Hn Hno. split.
  - intros (Hle & Hsoft & Hin & Hbefore). assert (n' ≠ n) by (by intros ->).
    split; [lia|]. split; [right; split; [done|lia]|]. split; [done|]. intros i ? ?. apply Hbefore; lia.
  - intros (Hle & Hsoft & Hin & Hbefore). split; [lia|]. split; [right; split; [done|lia]|]. split; [done|].
    intros i ? ?. destruct (decide (i = n)) as [->|]; [done|]. apply Hbefore; lia.
Qed.

Lemma not_located pages bSoft n x :
  ¬ listed pages n x → (bSoft = true → 20 ≤ n) → ∀ n', ¬ located pages bSoft n x n'.
Proof.
  intros Hno Hsoft n' (Hle & [->|[Hs ?]] & Hin & _); [done|].
  specialize (Hsoft Hs). assert (n' = n) as -> by lia. done.
Qed.

Lemma delete_post_sub pages m hs hs' D n x bStable bSoft ter v :
  hs ⊆ hs' → delete_post pages m hs' D n x bStable bSoft ter v → delete_post pages m hs D n x bStable bSoft ter v.
Proof.
  intros Hsub. assert (keeps hs D hs' D) as Hk by (by apply keeps_sub).
  intros [(-> & Hloc & pages' & m' & hs2 & D2 & Hk2 & Hr)|(-> & Hno & hs2 & D2 & Hk2 & Hr)].
  - left. split; [done|]. split; [done|]. exists pages', m', hs2, D2. split; [by eapply keeps_trans|done].
  - right. split; [done|]. split; [done|]. exists hs2, D2. split; [by eapply keeps_trans|done].
Qed.

(** One page of the search, given what happens when it is passed over. *)
Lemma search_step pages m hs D v bKeepRoot bStable bSoft n x next :
  state c v0 m hs K D v → dir_rep r pages m → is_u64 n →
  (∀ hs' v', ¬ listed pages n x → hs ⊆ hs' → state c v0 m hs' K D v' →
     wp next v' (delete_post pages m hs D n x bStable bSoft)) →
  wp (let! q := peek (page r n) in
      match q with
      | None => next
      | Some sleNode =>
          let! svIndexes := get sleNode (getFieldV256 sfIndexes) in
          match find_index x svIndexes with
          | None => next
          | Some it =>
              set sleNode (setFieldV256 sfIndexes (remove_at bStable it svIndexes));;
              update sleNode;;
              match remove_at bStable it svIndexes with
              | [] => dirCleanup bKeepRoot n r sleNode
              | _ => ret tesSUCCESS
              end
          end
      end) v (delete_post pages m hs D n x bStable bSoft).
Proof using PL Hbase HK.
  intros Hst Hrep Hu Hnext. destruct (pages !! n) as [l|] eqn:Hl.
  - destruct (rep_lookup r pages m n l Hrep Hl) as (s & Hs & Hok & Hk).
    eapply wp_peek_some; [done..|]. intros p v1 Hsub H1.
    eapply wp_get_bind; [done|apply lookup_insert_eq|done|]. rewrite (node_indexes _ _ _ _ Hok).
    destruct (find_index x l) as [i|] eqn:Hi.
    + eapply wp_mono; [eapply remove_ok; [done..|apply lookup_insert_eq]|].
      intros ter v' [-> Hrem]. apply (delete_post_sub _ _ _ (<[p := key r n]> hs)); [done|].
      left. split; [done|]. split; [|done]. exists n.
      split; [lia|]. split; [by left|]. split; [|intros; lia]. exists l. split; [done|].
      by eapply list_elem_of_lookup_2, find_index_lookup.
    + eapply Hnext; [|done|done]. intros (l' & Hl' & Hin). rewrite Hl in Hl'. injection Hl' as <-.
      by apply find_index_None in Hi.
  - eapply wp_peek_none; [done|done|by eapply rep_lookup_none|]. intros v1 H1. eapply Hnext; [|done|done].
    intros (l' & Hl' & _). congruence.
Qed.

Lemma dirDelete_from_ok fuel pages m hs D v bKeepRoot bStable bSoft n x :
  state c v0 m hs K D v → dir_rep r pages m → is_u64 n → (Z.to_nat (20 - n) ≤ fuel)%nat →
  wp (dirDelete_from fuel bKeepRoot n r x bStable bSoft) v (delete_post pages m hs D n x bStable bSoft).
Proof using PL Hbase HK.
  revert n bSoft hs v. induction fuel as [|fuel IH]; intros n bSoft hs v Hst Hrep Hu Hfuel; simpl;
    set (next := if negb bSoft then _ else _);
    (assert (∀ hs' v', ¬ listed pages n x → hs ⊆ hs' → state c v0 m hs' K D v' →
       wp next v' (delete_post pages m hs D n x bStable bSoft)) as Hnext;
     [intros hs' v' Hno Hsub Hst'; eapply wp_mono; [|intros ter v2; by apply delete_post_sub, Hsub];
      unfold next; destruct bSoft; cbn [negb];
      [destruct (Z.ltb_spec n 20); [|apply wp_ret; right; split; [done|]; split; [by apply not_located|]]
      |apply wp_ret; right; split; [done|]; split; [by apply not_located|]];
      try (exists hs', D; split; [by apply keeps_sub|done])|]).
  - lia.
  - clearbody next. by eapply search_step.
  - eapply wp_mono; [apply (IH (n + 1) true hs' v'); [done|done|unfold is_u64 in *; lia|lia]|].
    intros ter v'' [(-> & [n' Hloc] & Hrem)|(-> & Hno' & Hst'')].
    + left. split; [done|]. split; [|done]. exists n'. by apply located_next.
    + right. split; [done|]. split; [|done]. intros n' Hloc%located_next; [by eapply Hno'|done|done].
  - clearbody next. by eapply search_step.
Qed.

End facts.
End DirDelete.
