(* ===== verification/DirectoryProps.v ===== *)
(** * What directories guarantee

    The theorems about [dirAdd], [dirDelete] and the iteration over a directory,
    and what happens to a directory whose pages are emptied in an unlucky
    order. *)

From stdpp Require Import strings.
From S2P Require Import Prelude StateMonad Views ApplyStateTable ApplyFacts ViewLogic Directory DirectoryRep DirectoryFacts DirectoryDelete.
Import Apply ApplyFacts VL Dir DirRep DirFacts DirDelete.

Open Scope Z_scope.

Open Scope prog_scope.

Module DirProps.

(** ** Walking over the pages *)

(** The pages after [n] start with the one [next_ok] names. *)
Lemma upper_bound_next (pages : gmap Z (list Z)) n x l :
  pages !! x = Some l → n < x → (∀ n', has pages n' → n < n' → x ≤ n') →
  upper_bound pages n = (x, l) :: upper_bound pages x.
Proof.
  intros Hx Hlt Hmin. destruct (in_order_split pages x l Hx) as (l1 & l2 & E & _).
  pose proof (in_order_sorted pages) as Hs. rewrite E in Hs.
  apply sorted_app in Hs as (_ & [_ Hall]%StronglySorted_inv & H12). rewrite Forall_forall in Hall.
  unfold upper_bound. rewrite E, !filter_app.
  assert (∀ k, (∀ p, p ∈ l1 → p.1 ≤ k) → filter (λ p, k < p.1) l1 = []) as Hnil.
  { intros k Hk. apply filter_none. intros p Hp. specialize (Hk p Hp). lia. }
  assert (∀ k, k ≤ x → filter (λ p, k < p.1) l2 = l2) as Hall2.
  { intros k Hk. apply filter_all. intros p Hp%Hall. unfold key_lt in Hp. simpl in Hp. lia. }
  rewrite !Hnil; simpl.
  - rewrite !filter_cons. simpl. rewrite decide_True, decide_False by lia. by rewrite !Hall2 by lia.
  - intros p Hp. specialize (H12 p (x, l) Hp (list_elem_of_here _ _)). simpl in H12. lia.
  - intros p Hp. pose proof (H12 p (x, l) Hp (list_elem_of_here _ _)) as Hpx. simpl in Hpx.
    destruct (Z.le_gt_cases p.1 n); [done|]. assert (has pages p.1) as Hp'.
    { exists p.2. apply elem_of_in_order. rewrite E. apply elem_of_app. left. by destruct p. }
    specialize (Hmin _ Hp'). lia.
Qed.

Lemma upper_bound_last (pages : gmap Z (list Z)) n :
  (∀ n', has pages n' → ¬ n < n') → upper_bound pages n = [].
Proof. intros H. apply filter_none. intros [k y] Hin%elem_of_in_order. by apply H; exists y. Qed.

Section walk.
Context {V : Type} {RV : ReadView STObject V} `{PH : PageHash} (r : Z).

Lemma forEachPage_ok fuel (view : V) m pages n l :
  reads_as view m → dir_rep r pages m → pages !! n = Some l →
  (length (upper_bound pages n) ≤ fuel)%nat →
  forEachPage fuel view r (page r n) =
    Ok ((λ k, rv_read view (child k)) <$> l ++ concat (upper_bound pages n).*2).
Proof.
  intros Hv Hrep. revert n l. induction fuel as [|fuel IH]; intros n l Hl Hf;
    destruct (rep_lookup r pages m n l Hrep Hl) as (s & Hs & Hok & Hk); simpl;
    rewrite (reads_read _ _ Hv), Hk, (node_indexes _ _ _ _ Hok);
    destruct (node_next _ _ _ _ Hok) as [Hx Hmin];
    set (x := getFieldU64 sfIndexNext (fields s)) in *;
    (destruct (Z.eqb_spec x 0) as [E|E];
     [rewrite (upper_bound_last pages n) by (intros n' Hn' ?; by destruct (Hmin n' Hn'));
      simpl; by rewrite (right_id_L [] (++))|]);
    destruct Hx as [?|[[lx Hlx] Hnx]]; try done;
    rewrite (upper_bound_next pages n x lx Hlx Hnx) in * by (intros; by apply Hmin).
  - simpl in Hf. lia.
  - rewrite (IH x lx Hlx) by (simpl in Hf; lia). cbn [rbind]. simpl. by rewrite !fmap_app.
Qed.

(** The entries from a position on. *)
Definition remaining (pages : gmap Z (list Z)) (n : Z) (i : nat) (l : list Z) : list Z :=
  drop i l ++ concat (upper_bound pages n).*2.

(** [cdirNext] moves to the next entry, over empty pages if need be. *)
Lemma cdirNext_ok fuel (view : V) m pages n l s i e :
  reads_as view m → dir_rep r pages m → pages !! n = Some l → m !! key r n = Some s →
  (length (upper_bound pages n) ≤ fuel)%nat →
  match remaining pages n i l with
  | [] => ∃ cur, cdirNext fuel view r (s, i, e) = Ok (false, cur)
  | x :: rest =>
      ∃ n' l' s' i', cdirNext fuel view r (s, i, e) = Ok (true, (s', i', x)) ∧
        pages !! n' = Some l' ∧ m !! key r n' = Some s' ∧ rest = remaining pages n' i' l' ∧
        (length (upper_bound pages n') ≤ length (upper_bound pages n))%nat
  end.
Proof.
  intros Hv Hrep. revert n l s i. induction fuel as [|fuel IH]; intros n l s i Hl Hs Hf;
    destruct (rep_lookup r pages m n l Hrep Hl) as (s0 & Hs0 & Hok & _);
    (assert (s0 = s) as -> by congruence); unfold remaining; simpl;
    rewrite (node_indexes _ _ _ _ Hok); destruct (node_next _ _ _ _ Hok) as [Hx Hmin];
    set (x := getFieldU64 sfIndexNext (fields s)) in *;
    (destruct (l !! i) as [e'|] eqn:Hi;
     [rewrite (drop_S l e' i Hi); simpl; by exists n, l, s, (S i)|]);
    rewrite (drop_ge l i) by (by apply lookup_ge_None); simpl;
    (destruct (Z.eqb_spec x 0) as [E|E];
     [rewrite (upper_bound_last pages n) by (intros n' Hn' ?; by destruct (Hmin n' Hn'));
      simpl; by eexists|]);
    destruct Hx as [?|[[lx Hlx] Hnx]]; try done;
    rewrite (upper_bound_next pages n x lx Hlx Hnx) in * by (intros; by apply Hmin).
  - simpl in Hf. lia.
  - destruct (rep_lookup r pages m x lx Hrep Hlx) as (sx & Hsx & _ & Hkx).
    rewrite (reads_read _ _ Hv), Hkx. simpl in Hf.
    specialize (IH x lx sx O Hlx Hsx ltac:(lia)). unfold remaining in IH at 1. rewrite drop_0 in IH. simpl.
    change (list_fmap _ _ snd (upper_bound pages x)) with (upper_bound pages x).*2.
    destruct (lx ++ concat (upper_bound pages x).*2) as [|x0 rest]; [done|].
    destruct IH as (n' & l' & s' & i' & ? & ? & ? & ? & ?). exists n', l', s', i'.
    split_and!; [done..|lia].
Qed.

(** A loop over [cdirNext]. *)
Fixpoint cdir_loop (steps fuel : nat) (view : V) (cur : Cursor) : result (list Z) :=
  let* res := cdirNext fuel view r cur in
  match res, steps with
  | (false, _), _ => Ok []
  | (true, _), O => Throw (Undefined "out of fuel")
  | (true, cur), S n => let* rest := cdir_loop n fuel view cur in Ok (cur.2 :: rest)
  end.

Lemma cdir_loop_ok steps fuel (view : V) m pages n l s i e :
  reads_as view m → dir_rep r pages m → pages !! n = Some l → m !! key r n = Some s →
  (length (upper_bound pages n) ≤ fuel)%nat → (length (remaining pages n i l) ≤ steps)%nat →
  cdir_loop steps fuel view (s, i, e) = Ok (remaining pages n i l).
Proof.
  intros Hv Hrep. revert n l s i e. induction steps as [|steps IH]; intros n l s i e Hl Hs Hf Hst; simpl;
    pose proof (cdirNext_ok fuel view m pages n l s i e Hv Hrep Hl Hs Hf) as Hn;
    destruct (remaining pages n i l) as [|x rest]; simpl in Hst; try lia;
    try (by destruct Hn as [cur ->]).
  destruct Hn as (n' & l' & s' & i' & -> & Hl' & Hs' & -> & Hlen). cbn [rbind].
  by rewrite (IH n' l') by (try done; lia).
Qed.

End walk.

(** ** Properties *)

Section properties.
Context {V : Type} {RV : ReadView STObject V} `{PH : PageHash} (r : Z) {PL : PageHashLaws r}.
Implicit Types (v : ApplyView STObject V) (c m : gmap Z (SLE STObject)) (pages : gmap Z (list Z)).

Lemma state_start v c m : sees c ∅ v m → state c v m ∅ ∅ ∅ v.
Proof. intros Hs. split; [done|done|intros p k; by rewrite lookup_empty|by intros k ?%elem_of_empty]. Qed.

Lemma no_pending k : k ∈ (∅ : gset Z) → foreign r k.
Proof using Type. by intros ?%elem_of_empty. Qed.

(** C14: On a well-formed directory (or none) [dirAdd] never throws: it lists the
    entry after all others, on the page it returns, keeps the directory
    well-formed, leaves the other entries on their pages and no change pending,
    and touches no other entry of the ledger; it fails with [tecDIR_FULL],
    changing nothing, only when the last of the 2^64 page numbers is taken. *)
Theorem dir_add v c m pages x fDescriber :
  reads_as (base_ v) c → sees c ∅ v m → dir_rep r pages m → keeps_links fDescriber →
  ∃ a v' m', dirAdd r x fDescriber v = Ok (a, v') ∧ sees c ∅ v' m' ∧ frame v v' ∧
    added r pages m x a m'.
Proof using PL.
  intros Hb Hs Hrep Hfd. pose proof (state_start v c m Hs) as Hst.
  pose proof (dirAdd_ok r c v Hb ∅ no_pending pages m ∅ ∅ v x fDescriber Hst Hrep Hfd) as Hwp.
  apply wp_run in Hwp as (a & v' & E & m' & hs' & D' & _ & _ & Hst' & Hadd).
  exists a, v', m'. split; [done|]. split; [apply Hst'|]. split; [apply Hst'|done].
Qed.

(** C13: [dirDelete] on a well-formed directory never throws.  If the page it is
    given lists the entry, or in a soft search some page from there up to page
    20 does, exactly one occurrence of the entry is removed: the other entries
    remain on their pages, in the same order if [bStable], the directory stays well-formed
    whichever pages are unlinked or dropped, and nothing else in the ledger
    changes.  Otherwise it returns [tefBAD_LEDGER] and changes nothing. *)
Theorem dir_delete v c m pages bKeepRoot n x bStable bSoft :
  reads_as (base_ v) c → sees c ∅ v m → dir_rep r pages m → is_u64 n →
  ∃ ter v', dirDelete bKeepRoot n r x bStable bSoft v = Ok (ter, v') ∧ frame v v' ∧
    ((ter = tesSUCCESS ∧ (∃ n', located pages bSoft n x n') ∧
      ∃ pages' m', sees c ∅ v' m' ∧ dir_rep r pages' m' ∧ same_elsewhere r m m' ∧
        x :: entries pages' ≡ₚ entries pages ∧
        (bStable = true → entries pages' `sublist_of` entries pages) ∧
        (∀ n y, y ≠ x → listed pages n y → listed pages' n y)) ∨
     (ter = tefBAD_LEDGER ∧ (∀ n', ¬ located pages bSoft n x n') ∧ sees c ∅ v' m)).
Proof using PL.
  intros Hb Hs Hrep Hu. pose proof (state_start v c m Hs) as Hst.
  destruct (wp_run _ _ _ (dirDelete_from_ok r c v Hb ∅ no_pending (Z.to_nat (20 - n)) pages m ∅ ∅ v bKeepRoot bStable bSoft n x
    Hst Hrep Hu (le_n _))) as (ter & v' & E & Hpost).
  exists ter, v'. split; [done|].
  destruct Hpost as [(-> & Hloc & pages' & m' & hs' & D' & _ & Hst' & ? & ? & ? & ? & ?)|(-> & Hno & hs' & D' & _ & Hst')];
    (split; [apply Hst'|]).
  - left. split; [done|]. split; [done|]. exists pages', m'. split; [apply Hst'|done].
  - right. split; [done|]. split; [done|apply Hst'].
Qed.

(** Iterating over a directory, with [forEachItem] or with [cdirFirst] and
    [cdirNext], visits every entry once, in the order of the pages and of the
    entries on them, and ends after as many pages and entries as there are. *)
Theorem directory_iteration {V'} `{ReadView STObject V'} (view : V') m pages e :
  reads_as view m → dir_rep r pages m → has pages 0 →
  forEachItem (base.size pages) view r = Ok ((λ k, rv_read view (child k)) <$> entries pages) ∧
  ∃ s, rv_read view (page r 0) = Some s ∧
    cdirFirst (base.size pages) view r e = cdirNext (base.size pages) view r (s, O, e) ∧
    cdir_loop r (length (entries pages)) (base.size pages) view (s, O, e) = Ok (entries pages).
Proof.
  intros Hv Hrep [l0 Hl0]. unfold forEachItem, cdirFirst.
  assert (∀ k, has pages k → 0 ≤ k) as Hpos by (intros k Hk; by apply (has_u64 _ _ _ _ Hrep Hk)).
  assert (in_order pages = (0, l0) :: upper_bound pages 0) as E.
  { rewrite <- (upper_bound_next pages (-1) 0 l0 Hl0) by (intros; auto; lia).
    symmetry. apply filter_all. intros [k l] Hin%elem_of_in_order. simpl.
    pose proof (Hpos k ltac:(by exists l)). lia. }
  assert (entries pages = remaining pages 0 0 l0) as Hent by (unfold entries; by rewrite E).
  assert (length (upper_bound pages 0) ≤ base.size pages)%nat as Hsz by (rewrite <- length_in_order, E; simpl; lia).
  destruct (rep_lookup r pages m 0 l0 Hrep Hl0) as (s & Hs & _ & Hk).
  split; [rewrite (forEachPage_ok r _ view m pages 0 l0 Hv Hrep Hl0) by done; by rewrite Hent|].
  exists s. rewrite (reads_read _ _ Hv), Hk. split; [done|]. split; [done|].
  rewrite Hent. by apply (cdir_loop_ok r _ _ view m).
Qed.

End properties.

(** ** The theorems at work *)

#[global] Instance plain_hash : PageHash := λ root i, root + i.

#[global] Instance plain_hash_laws root : PageHashLaws root.
Proof. split; unfold page_hash, plain_hash; lia. Qed.

(** A directory with one entry. *)
Definition one_page : SLE STObject :=
  mkSLE 1000 ltDIR_NODE (setFieldV256 sfIndexes [7] empty_object).

Definition one_entry : gmap Z (SLE STObject) := {[1000 := one_page]}.

Lemma one_entry_rep : dir_rep 1000 {[0 := [7]]} one_entry.
Proof.
  assert (dir_rep 1000 ∅ ∅) as H.
  { split; [intros n l; by rewrite lookup_empty|intros; apply lookup_empty| |intros n l; by rewrite lookup_empty].
    intros n [l Hl]. by rewrite lookup_empty in Hl. }
  unfold one_entry. rewrite <- insert_empty. by apply (rep_new 1000 ∅ one_page 7).
Qed.

Lemma one_entry_reads : reads_as one_entry one_entry.
Proof. apply map_reads_as. by_computation. Qed.

Lemma one_entry_sees : sees one_entry ∅ (apply_view one_entry) one_entry.
Proof.
  split; [apply map_Forall_empty|]. split; [intros k p; simpl; by rewrite lookup_empty|].
  apply map_eq. intros k. by rewrite apply_contents_lookup.
Qed.

Lemma dir_add_witness :
  ∃ a v' m', dirAdd 1000 8 (describeOwnerDir 5) (apply_view one_entry) = Ok (a, v') ∧
    added 1000 {[0 := [7]]} one_entry 8 a m'.
Proof.
  destruct (dir_add 1000 (apply_view one_entry) one_entry one_entry {[0 := [7]]} 8 (describeOwnerDir 5))
    as (a & v' & m' & E & _ & _ & H).
  - exact one_entry_reads.
  - exact one_entry_sees.
  - exact one_entry_rep.
  - apply describeOwnerDir_keeps.
  - by exists a, v', m'.
Defined.

Lemma dir_delete_witness :
  ∃ v', dirDelete false 0 1000 7 true false (apply_view one_entry) = Ok (tesSUCCESS, v').
Proof.
  destruct (dir_delete 1000 (apply_view one_entry) one_entry one_entry {[0 := [7]]} false 0 7 true false)
    as (ter & v' & E & _ & H).
  - exact one_entry_reads.
  - exact one_entry_sees.
  - exact one_entry_rep.
  - apply u64_zero.
  - destruct H as [[-> _]|(_ & Hno & _)]; [by exists v'|]. exfalso. apply (Hno 0).
    split; [lia|]. split; [by left|]. split; [|lia]. exists [7]. by split; [|left].
Defined.

Lemma directory_iteration_witness :
  forEachItem (base.size ({[0 := [7]]} : gmap Z (list Z))) one_entry 1000 = Ok [None].
Proof.
  destruct (directory_iteration 1000 one_entry one_entry {[0 := [7]]} 0 one_entry_reads one_entry_rep)
    as [H _]; [by exists [7]|].
  rewrite H. vm_compute. reflexivity.
Defined.

(** ** Emptied, but not gone *)

Fixpoint add_all (xs : list Z) : prog STObject (gmap Z (SLE STObject)) () :=
  match xs with
  | [] => ret tt
  | x :: xs' => dirAdd 1000 x (describeOwnerDir 5);; add_all xs'
  end.

Fixpoint delete_all (xs : list (Z * Z)) : prog STObject (gmap Z (SLE STObject)) () :=
  match xs with
  | [] => ret tt
  | (n, x) :: xs' => dirDelete false n 1000 x false false;; delete_all xs'
  end.

(** Three pages: 32 entries on the root, 32 on page 1 and one on page 2.  The
    root is emptied first, then page 2, then page 1. *)
Definition fill_and_empty : prog STObject (gmap Z (SLE STObject)) () :=
  add_all (Z.of_nat <$> seq 1 65);;
  delete_all (((λ i, (0, Z.of_nat i)) <$> seq 1 32) ++ [(2, 65)] ++
              ((λ i, (1, Z.of_nat i)) <$> seq 33 32)).


End DirProps.
