(* ===== verification/TrustLines.v ===== *)
(** * Trust lines

    ledger/impl/View.cpp: balances on trust lines, their creation and deletion,
    assets that are released over time, transfers and their fees, and referrals.

    A trust line is one entry for two accounts; the one with the smaller
    identifier is its low side, and the balance is in the terms of the low side. *)

From stdpp Require Import strings.
From S2P Require Import Prelude StateMonad Issue STAmount BigNum STAmountArith Views ApplyStateTable ViewLogic Objects.
From S2P Require Import Directory Indexes.
Import Apply VL Dir Idx.

Open Scope Z_scope.
Open Scope prog_scope.

Module Trust.

(** ** Fields, flags and constants *)

Definition sfAccount : string := "Account".
Definition sfBalance : string := "Balance".
Definition sfBalanceVBC : string := "BalanceVBC".
Definition sfReserve : string := "Reserve".
Definition sfLowLimit : string := "LowLimit".
Definition sfHighLimit : string := "HighLimit".
Definition sfLowNode : string := "LowNode".
Definition sfHighNode : string := "HighNode".
Definition sfLowQualityIn : string := "LowQualityIn".
Definition sfLowQualityOut : string := "LowQualityOut".
Definition sfHighQualityIn : string := "HighQualityIn".
Definition sfHighQualityOut : string := "HighQualityOut".
Definition sfOwnerNode : string := "OwnerNode".
Definition sfBookDirectory : string := "BookDirectory".
Definition sfBookNode : string := "BookNode".
Definition sfTransferRate : string := "TransferRate".
Definition sfRegularKey : string := "RegularKey".
Definition sfAmount : string := "Amount".
Definition sfDeliveredAmount : string := "DeliveredAmount".
Definition sfNextReleaseTime : string := "NextReleaseTime".
Definition sfReleaseSchedule : string := "ReleaseSchedule".
Definition sfReleaseRate : string := "ReleaseRate".
Definition sfExpiration : string := "Expiration".
Definition sfReferee : string := "Referee".
Definition sfReferences : string := "References".
Definition sfReference : string := "Reference".
Definition sfDividendState : string := "DividendState".
Definition sfDividendLedger : string := "DividendLedger".
Definition sfDividendVSprd : string := "DividendVSprd".

Definition lsfGlobalFreeze : Z := 0x00400000.
Definition lsfDefaultRipple : Z := 0x00800000.
Definition lsfLowReserve : Z := 0x00010000.
Definition lsfHighReserve : Z := 0x00020000.
Definition lsfLowAuth : Z := 0x00040000.
Definition lsfHighAuth : Z := 0x00080000.
Definition lsfLowNoRipple : Z := 0x00100000.
Definition lsfHighNoRipple : Z := 0x00200000.
Definition lsfLowFreeze : Z := 0x00400000.
Definition lsfHighFreeze : Z := 0x00800000.

Definition QUALITY_ONE : Z := 1000000000.
Definition MIN_VSPD_TO_GET_FEE_SHARE : Z := 10000000000.
Definition ASSET_LIMIT_DEFAULT : Z := 10000000.
Definition ASSET_INTERVAL_MIN : Z := 86400.

(** What the ledger below says about itself. *)
Record LedgerInfo := mkInfo {
  open : bool;
  l_seq : Z;
  l_closeTime : Z;
  parentCloseTime : Z;
  reserve : Z;
  increment : Z
}.

(** [fees ().accountReserve (ownerCount)] *)
Definition accountReserve (info : LedgerInfo) (ownerCount : Z) : Z :=
  i64 (u64 (reserve info + ownerCount * increment info)).

Definition issuer (a : Amt.STAmount) : AccountID := Issue.account (Amt.mIssue a).
Definition currency_of (a : Amt.STAmount) : Currency := currency (Amt.mIssue a).

Section trust.
Context `{Digest} `{BN : BigNum} {V : Type} `{ReadView STObject V} (info : LedgerInfo).
Abbreviation prog := (prog STObject V).

(** The hooks of a view that is not a payment sandbox. *)
Definition creditHook (from to : AccountID) (amount : Amt.STAmount) : prog () := ret ().
Definition balanceHook (account issuer : AccountID) (amount : Amt.STAmount) : Amt.STAmount := amount.

(** ** Freezing, rates *)

Definition isGlobalFrozen (issuer : AccountID) : prog bool :=
  if isNative issuer then ret false
  else
    let! sle := read (keylet.account issuer) in
    ret (match sle with Some sle => isFlag lsfGlobalFreeze (fields sle) | None => false end).

Definition isFrozen (account : AccountID) (currency : Currency) (issuer : AccountID) : prog bool :=
  if isNative currency then ret false
  else
    let! sle := read (keylet.account issuer) in
    if match sle with Some sle => isFlag lsfGlobalFreeze (fields sle) | None => false end then ret true
    else if negb (issuer =? account) then
      let! sle := read (keylet.line account issuer currency) in
      ret (match sle with
           | Some sle => isFlag (if account <? issuer then lsfHighFreeze else lsfLowFreeze) (fields sle)
           | None => false
           end)
    else ret false.

Definition rippleTransferRate (issuer : AccountID) : prog Z :=
  let! sle := read (keylet.account issuer) in
  ret (match sle with
       | Some sle => if present (u32s (fields sle)) sfTransferRate then getFieldU32 sfTransferRate (fields sle) else QUALITY_ONE
       | None => QUALITY_ONE
       end).

Definition rippleTransferRate_between (uSenderID uReceiverID issuer : AccountID) : prog Z :=
  if (uSenderID =? issuer) || (uReceiverID =? issuer) then ret QUALITY_ONE else rippleTransferRate issuer.

Definition rippleTransferFee (from to issuer : AccountID) (saAmount : Amt.STAmount) : prog Amt.STAmount :=
  if negb (currency_of saAmount =? assetCurrency) && negb (from =? issuer) && negb (to =? issuer) then
    let! uTransitRate := rippleTransferRate issuer in
    if negb (QUALITY_ONE =? uTransitRate) then
      let! rate := lift (Arith.amountFromRate uTransitRate) in
      let! saTransferTotal := lift (Arith.multiply saAmount rate (Amt.mIssue saAmount)) in
      lift (Amt.sub saTransferTotal saAmount)
    else ret (Amt.zero_of (Amt.mIssue saAmount))
  else ret (Amt.zero_of (Amt.mIssue saAmount)).

(** ** Creating and deleting lines *)

(** [adjustOwnerCount (view, view.peek (keylet::account (id)), amount)] *)
Definition adjustOwner (id : AccountID) (amount : Z) : prog () :=
  let! sle := peek (keylet.account id) in
  let! sle := non_null sle in
  adjustOwnerCount sle amount.

(** What is left when the line is in both directories. *)
Definition trustCreate_set (bSrcHigh : bool) (uSrcAccountID uDstAccountID : AccountID) (sleRippleState : loc)
    (sleAccount : option loc) (bAuth bNoRipple bFreeze : bool) (saBalance saLimit : Amt.STAmount)
    (uQualityIn uQualityOut uLowNode uHighNode : Z) : prog TER :=
  let uLowAccountID := if bSrcHigh then uDstAccountID else uSrcAccountID in
  let uHighAccountID := if bSrcHigh then uSrcAccountID else uDstAccountID in
  let bSetDst := issuer saLimit =? uDstAccountID in
  let bSetHigh := xorb bSrcHigh bSetDst in
  let! slePeer := peek (keylet.account (if bSetHigh then uLowAccountID else uHighAccountID)) in
  set sleRippleState (setFieldU64 sfLowNode uLowNode);;
  set sleRippleState (setFieldU64 sfHighNode uHighNode);;
  set sleRippleState (setFieldAmount (if bSetHigh then sfHighLimit else sfLowLimit) saLimit);;
  set sleRippleState (setFieldAmount (if bSetHigh then sfLowLimit else sfHighLimit)
    (Amt.zero_of (mkIssue (currency_of saBalance) (if bSetDst then uSrcAccountID else uDstAccountID))));;
  when (negb (uQualityIn =? 0))
    (set sleRippleState (setFieldU32 (if bSetHigh then sfHighQualityIn else sfLowQualityIn) uQualityIn));;
  when (negb (uQualityOut =? 0))
    (set sleRippleState (setFieldU32 (if bSetHigh then sfHighQualityOut else sfLowQualityOut) uQualityOut));;
  let uFlags := if bSetHigh then lsfHighReserve else lsfLowReserve in
  let uFlags := if bAuth then Z.lor uFlags (if bSetHigh then lsfHighAuth else lsfLowAuth) else uFlags in
  let uFlags :=
    if bNoRipple || (assetCurrency =? currency_of saLimit)
    then Z.lor uFlags (if bSetHigh then lsfHighNoRipple else lsfLowNoRipple) else uFlags in
  let uFlags := if bFreeze then Z.lor uFlags (if bSetHigh then lsfHighFreeze else lsfLowFreeze) else uFlags in
  set sleRippleState (setFieldU32 sfFlags uFlags);;
  let! sleAccount := non_null sleAccount in
  adjustOwnerCount sleAccount 1;;
  set sleRippleState (setFieldAmount sfBalance (if bSetHigh then Amt.neg saBalance else saBalance));;
  when (assetCurrency =? currency_of saLimit)
    (set sleRippleState (setFieldAmount sfReserve (Amt.zero_of (mkIssue assetCurrency noAccount))));;
  creditHook uSrcAccountID uDstAccountID saBalance;;
  ret tesSUCCESS.

Definition trustCreate (bSrcHigh : bool) (uSrcAccountID uDstAccountID : AccountID) (uIndex : Z)
    (sleAccount : option loc) (bAuth bNoRipple bFreeze : bool) (saBalance saLimit : Amt.STAmount)
    (uQualityIn uQualityOut : Z) : prog TER :=
  let uLowAccountID := if bSrcHigh then uDstAccountID else uSrcAccountID in
  let uHighAccountID := if bSrcHigh then uSrcAccountID else uDstAccountID in
  let! sleRippleState := make_sle empty_object (keylet.line_key uIndex) in
  insert sleRippleState;;
  let! low := dirAdd (getOwnerDirIndex uLowAccountID) uIndex (describeOwnerDir uLowAccountID) in
  if negb (bool_decide (low.1 = tesSUCCESS)) then ret low.1
  else
    let! high := dirAdd (getOwnerDirIndex uHighAccountID) uIndex (describeOwnerDir uHighAccountID) in
    if negb (bool_decide (high.1 = tesSUCCESS)) then ret high.1
    else
      trustCreate_set bSrcHigh uSrcAccountID uDstAccountID sleRippleState sleAccount bAuth bNoRipple bFreeze
        saBalance saLimit uQualityIn uQualityOut low.2 high.2.

Definition trustDelete (sleRippleState : loc) (uLowAccountID uHighAccountID : AccountID) : prog TER :=
  let! bLowNode := get sleRippleState (λ o, present (u64s o) sfLowNode) in
  let! bHighNode := get sleRippleState (λ o, present (u64s o) sfHighNode) in
  let! uLowNode := get sleRippleState (getFieldU64 sfLowNode) in
  let! uHighNode := get sleRippleState (getFieldU64 sfHighNode) in
  let! index := getIndex sleRippleState in
  let! terResult := dirDelete false uLowNode (getOwnerDirIndex uLowAccountID) index false (negb bLowNode) in
  let! terResult :=
    if bool_decide (terResult = tesSUCCESS)
    then dirDelete false uHighNode (getOwnerDirIndex uHighAccountID) index false (negb bHighNode)
    else ret terResult in
  erase sleRippleState;;
  ret terResult.

Definition offerDelete (sle : option loc) : prog TER :=
  match sle with
  | None => ret tesSUCCESS
  | Some sle =>
      let! offerIndex := getIndex sle in
      let! owner := get sle (getAccountID sfAccount) in
      let! bOwnerNode := get sle (λ o, present (u64s o) sfOwnerNode) in
      let! uOwnerNode := get sle (getFieldU64 sfOwnerNode) in
      let! uDirectory := get sle (getFieldH256 sfBookDirectory) in
      let! uBookNode := get sle (getFieldU64 sfBookNode) in
      let! terResult := dirDelete false uOwnerNode (getOwnerDirIndex owner) offerIndex false (negb bOwnerNode) in
      let! terResult2 := dirDelete false uBookNode uDirectory offerIndex true false in
      when (bool_decide (terResult = tesSUCCESS)) (adjustOwner owner (-1));;
      erase sle;;
      ret (if bool_decide (terResult = tesSUCCESS) then terResult2 else terResult)
  end.

(** ** Assets

    What is issued of an asset is held back in asset states, by the day, and is
    released to the trust line by the schedule of the asset. *)

(** The points of the schedule that have been reached: the rate of the last one,
    the time of the next one and whether there is none. *)
Fixpoint reached (boughtTime : Z) (releaseSchedule : list STInner) (releaseRate : Z) : Z * Z * bool :=
  match releaseSchedule with
  | [] => (releaseRate, 0, true)
  | point :: releaseSchedule =>
      if parentCloseTime info <? u64 (boughtTime + inner_getFieldU32 sfExpiration point)
      then (releaseRate, inner_getFieldU32 sfExpiration point, false)
      else reached boughtTime releaseSchedule (inner_getFieldU32 sfReleaseRate point)
  end.

Definition assetReleased (amount : Amt.STAmount) (assetStateIndex : Z) (sleAssetState : loc) :
    prog (Amt.STAmount * bool) :=
  let! sleAsset := read (keylet.asset (issuer amount) (currency_of amount)) in
  match sleAsset with
  | None => ret (Amt.zero_of (Amt.mIssue amount), false)
  | Some sleAsset =>
      let boughtTime := getQuality assetStateIndex in
      let releaseSchedule := getFieldArray sfReleaseSchedule (fields sleAsset) in
      let '(releaseRate, nextInterval, bIsReleaseFinished) := reached boughtTime releaseSchedule 0 in
      when (negb bIsReleaseFinished && (0 <? nextInterval))
        (set sleAssetState (setFieldU32 sfNextReleaseTime (u32 (u32 boughtTime + nextInterval)));;
         update sleAssetState);;
      if 0 <? releaseRate then
        let! rate := lift (Arith.amountFromRate releaseRate) in
        let! released :=
          lift (Arith.mulRound amount rate (Amt.mIssue amount) true (Arith.enableUnderflowFix (parentCloseTime info))) in
        let! released := lift (Amt.floor released 0) in
        ret (released, bIsReleaseFinished)
      else ret (Amt.zero_of (Amt.mIssue amount), bIsReleaseFinished)
  end.

(** The part of an asset that is never released goes to the asset state of time
    zero. *)
Definition keep_locked (uSrcAccountID uDstAccountID owner : AccountID) (assetStateIndexZero : Z)
    (amount released : Amt.STAmount) : prog TER :=
  let bDstHigh := uSrcAccountID <? uDstAccountID in
  let! sleAssetStateZero := peek (keylet.asset_state assetStateIndexZero) in
  match sleAssetStateZero with
  | Some sleAssetStateZero =>
      let! before := get sleAssetStateZero (getFieldAmount sfAmount) in
      let! after := lift (Amt.add before amount) in
      set sleAssetStateZero (setFieldAmount sfAmount after);;
      let! before := get sleAssetStateZero (getFieldAmount sfDeliveredAmount) in
      let! after := lift (Amt.add before released) in
      set sleAssetStateZero (setFieldAmount sfDeliveredAmount after);;
      update sleAssetStateZero;;
      ret tesSUCCESS
  | None =>
      let! sleAssetStateZero := make_sle empty_object (keylet.asset_state assetStateIndexZero) in
      insert sleAssetStateZero;;
      let! dst := dirAdd (getOwnerDirIndex uDstAccountID) assetStateIndexZero (describeOwnerDir uDstAccountID) in
      if negb (bool_decide (dst.1 = tesSUCCESS)) then ret dst.1
      else
        let! src := dirAdd (getOwnerDirIndex uSrcAccountID) assetStateIndexZero (describeOwnerDir uSrcAccountID) in
        if negb (bool_decide (src.1 = tesSUCCESS)) then ret src.1
        else
          set sleAssetStateZero (setFieldU64 sfLowNode (if bDstHigh then src.2 else dst.2));;
          set sleAssetStateZero (setFieldU64 sfHighNode (if bDstHigh then dst.2 else src.2));;
          set sleAssetStateZero (setAccountID sfAccount owner);;
          set sleAssetStateZero (setFieldAmount sfAmount amount);;
          set sleAssetStateZero (setFieldAmount sfDeliveredAmount released);;
          adjustOwner owner 1;;
          ret tesSUCCESS
  end.

(** An asset state that has been released for good is deleted. *)
Definition compact (uSrcAccountID uDstAccountID owner : AccountID) (assetStateIndexZero : Z) (sleAssetState : loc)
    (amount released : Amt.STAmount) : prog TER :=
  let bDstHigh := uSrcAccountID <? uDstAccountID in
  let! terResult :=
    if negb (Amt.eqb amount released)
    then keep_locked uSrcAccountID uDstAccountID owner assetStateIndexZero amount released
    else ret tesSUCCESS in
  if negb (bool_decide (terResult = tesSUCCESS)) then ret terResult
  else
    let! uLowNode := get sleAssetState (getFieldU64 sfLowNode) in
    let! uHighNode := get sleAssetState (getFieldU64 sfHighNode) in
    let! index := getIndex sleAssetState in
    let! terResult :=
      dirDelete false (if bDstHigh then uHighNode else uLowNode) (getOwnerDirIndex uDstAccountID) index true false in
    if negb (bool_decide (terResult = tesSUCCESS)) then ret terResult
    else
      let! terResult :=
        dirDelete false (if bDstHigh then uLowNode else uHighNode) (getOwnerDirIndex uSrcAccountID) index true false in
      if negb (bool_decide (terResult = tesSUCCESS)) then ret terResult
      else
        erase sleAssetState;;
        adjustOwner owner (-1);;
        ret tesSUCCESS.

(** The asset state belongs to the line of the two accounts. *)
Definition belongs (uSrcAccountID uDstAccountID owner : AccountID) (amount : Amt.STAmount) : bool :=
  (owner =? uSrcAccountID) && (issuer amount =? uDstAccountID) ||
  (owner =? uDstAccountID) && (issuer amount =? uSrcAccountID).

(** One asset state.  Gives the balance and the reserve, and the result when the
    loop ends. *)
Definition release_state (uSrcAccountID uDstAccountID : AccountID) (sleRippleState : loc)
    (assetStateIndexZero assetStateIndex : Z) (saBalance saReserve : Amt.STAmount) :
    prog (Amt.STAmount * Amt.STAmount * option TER) :=
  let! sleAssetState := peek (keylet.asset_state assetStateIndex) in
  match sleAssetState with
  | None => ret (saBalance, saReserve, None)
  | Some sleAssetState =>
      let! amount := get sleAssetState (getFieldAmount sfAmount) in
      let! owner := get sleAssetState (getAccountID sfAccount) in
      if negb (belongs uSrcAccountID uDstAccountID owner amount) then ret (saBalance, saReserve, None)
      else
        let! delivered := get sleAssetState (getFieldAmount sfDeliveredAmount) in
        let delivered := if Amt.is_zero delivered then Amt.setIssue delivered (Amt.mIssue amount) else delivered in
        let! nextReleaseTime := get sleAssetState (getFieldU32 sfNextReleaseTime) in
        let! released :=
          if parentCloseTime info <? nextReleaseTime then ret (delivered, false)
          else assetReleased amount assetStateIndex sleAssetState in
        let! sleAsset := read (keylet.asset (issuer amount) (currency_of amount)) in
        let '(released, bIsReleaseFinished) :=
          match sleAsset with
          | Some sleAsset =>
              match arrays (fields sleAsset) !! sfReleaseSchedule with
              | Some [] => (amount, true)
              | _ => released
              end
          | None => released
          end in
        let bIssuerHigh := owner <? issuer amount in
        let saReserve := if Amt.is_zero saReserve then Amt.setIssue saReserve (Amt.mIssue amount) else saReserve in
        let! reserve := lift (Amt.sub amount released) in
        let reserve := if bIssuerHigh then reserve else Amt.negate reserve in
        let! saReserve := lift (Amt.add saReserve reserve) in
        let! more := lift (Amt.ltb delivered released) in
        if negb more then ret (saBalance, saReserve, None)
        else
          let! terResult :=
            if negb bIsReleaseFinished then
              set sleAssetState (setFieldAmount sfDeliveredAmount released);;
              update sleAssetState;;
              ret tesSUCCESS
            else compact uSrcAccountID uDstAccountID owner assetStateIndexZero sleAssetState amount released in
          if negb (bool_decide (terResult = tesSUCCESS)) then ret (saBalance, saReserve, Some terResult)
          else
            let released := Amt.setIssue released (Amt.mIssue saBalance) in
            let delivered := Amt.setIssue delivered (Amt.mIssue saBalance) in
            let! newly := lift (Amt.sub released delivered) in
            let! saBalance := lift (if bIssuerHigh then Amt.add saBalance newly else Amt.sub saBalance newly) in
            set sleRippleState (setFieldAmount sfBalance saBalance);;
            update sleRippleState;;
            ret (saBalance, saReserve, None)
  end.

Fixpoint release_loop (fuel : nat) (uSrcAccountID uDstAccountID : AccountID) (sleRippleState : loc)
    (assetStateIndexZero assetStateEnd assetStateIndex : Z) (saBalance saReserve : Amt.STAmount) :
    prog (Amt.STAmount * Amt.STAmount * TER) :=
  let! key := succ assetStateIndex (Some assetStateEnd) in
  match key with
  | None => ret (saBalance, saReserve, tesSUCCESS)
  | Some assetStateIndex =>
      match fuel with
      | O => throw (Undefined "more asset states than the loop was given")
      | S fuel =>
          let! r := release_state uSrcAccountID uDstAccountID sleRippleState assetStateIndexZero assetStateIndex
            saBalance saReserve in
          match r.2 with
          | Some terResult => ret (r.1, terResult)
          | None =>
              release_loop fuel uSrcAccountID uDstAccountID sleRippleState assetStateIndexZero assetStateEnd
                assetStateIndex r.1.1 r.1.2
          end
      end
  end.

Definition assetRelease (fuel : nat) (uSrcAccountID uDstAccountID : AccountID) (currency : Currency)
    (sleRippleState : option loc) : prog TER :=
  let! sleRippleState := non_null sleRippleState in
  let! saBalance := get sleRippleState (getFieldAmount sfBalance) in
  let saReserve := Amt.zero_of (mkIssue assetCurrency noAccount) in
  let baseIndex := getAssetStateIndex uSrcAccountID uDstAccountID currency in
  let assetStateIndex := getQualityIndex baseIndex 0 in
  let assetStateEnd := getQualityNext assetStateIndex in
  let! sleAssetState := peek (keylet.asset_state assetStateIndex) in
  let! saReserve :=
    match sleAssetState with
    | None => ret saReserve
    | Some sleAssetState =>
        let! amount := get sleAssetState (getFieldAmount sfAmount) in
        let! owner := get sleAssetState (getAccountID sfAccount) in
        if belongs uSrcAccountID uDstAccountID owner amount then
          let! delivered := get sleAssetState (getFieldAmount sfDeliveredAmount) in
          lift (if owner <? issuer amount then Amt.sub amount delivered else Amt.sub delivered amount)
        else ret saReserve
    end in
  let! r := release_loop fuel uSrcAccountID uDstAccountID sleRippleState assetStateIndex assetStateEnd assetStateIndex
    saBalance saReserve in
  let '(saBalance, saReserve, terResult) := r in
  let saReserve := Amt.setIssue saReserve (Amt.mIssue saBalance) in
  let! set_reserve := get sleRippleState (λ o,
    negb (present (amounts o) sfReserve) || negb (Amt.eqb (getFieldAmount sfReserve o) saReserve)) in
  when set_reserve (set sleRippleState (setFieldAmount sfReserve saReserve);; update sleRippleState);;
  ret terResult.

(** An amount of an asset that its issuer sends is added to the asset state of the
    day. *)
Definition add_asset_state (bSenderHigh : bool) (uSenderID uReceiverID : AccountID) (currency : Currency)
    (saAmount : Amt.STAmount) : prog TER :=
  let assetStateIndex :=
    getQualityIndex (getAssetStateIndex uSenderID uReceiverID currency)
      (parentCloseTime info - parentCloseTime info mod ASSET_INTERVAL_MIN) in
  let amount := Amt.setIssuer saAmount uSenderID in
  let! sleAssetState := peek (keylet.asset_state assetStateIndex) in
  match sleAssetState with
  | None =>
      let! sleAssetState := make_sle empty_object (keylet.asset_state assetStateIndex) in
      let! receiver := dirAdd (getOwnerDirIndex uReceiverID) assetStateIndex (describeOwnerDir uReceiverID) in
      if negb (bool_decide (receiver.1 = tesSUCCESS)) then ret receiver.1
      else
        adjustOwner uReceiverID 1;;
        let! sender := dirAdd (getOwnerDirIndex uSenderID) assetStateIndex (describeOwnerDir uSenderID) in
        if negb (bool_decide (sender.1 = tesSUCCESS)) then ret sender.1
        else
          set sleAssetState (setFieldU64 sfLowNode (if bSenderHigh then receiver.2 else sender.2));;
          set sleAssetState (setFieldU64 sfHighNode (if bSenderHigh then sender.2 else receiver.2));;
          set sleAssetState (setAccountID sfAccount uReceiverID);;
          set sleAssetState (setFieldAmount sfAmount amount);;
          insert sleAssetState;;
          ret tesSUCCESS
  | Some sleAssetState =>
      let! before := get sleAssetState (getFieldAmount sfAmount) in
      let! after := lift (Amt.add before amount) in
      set sleAssetState (setFieldAmount sfAmount after);;
      set sleAssetState (setFieldU32 sfNextReleaseTime 0);;
      update sleAssetState;;
      ret tesSUCCESS
  end.

(** Whether the amount was processed as an asset, and the result. *)
Definition issueAsset (fuel : nat) (bSenderHigh : bool) (uSenderID uReceiverID : AccountID) (currency : Currency)
    (saAmount : Amt.STAmount) (uIndex : Z) (sleRippleState : option loc) : prog (bool * TER) :=
  if negb (currency =? assetCurrency) then ret (false, tesSUCCESS)
  else
    let! to_issuer := exists_ (keylet.asset uReceiverID currency) in
    if to_issuer then
      let! _ := assetRelease fuel uSenderID uReceiverID currency sleRippleState in
      ret (false, tesSUCCESS)
    else
      let! sleAsset := read (keylet.asset uSenderID currency) in
      match sleAsset with
      | None => ret (true, temBAD_ISSUER)
      | Some sleAsset =>
          if getAccountID sfRegularKey (fields sleAsset) =? uReceiverID then ret (false, tesSUCCESS)
          else
            let! terResult := add_asset_state bSenderHigh uSenderID uReceiverID currency saAmount in
            if negb (bool_decide (terResult = tesSUCCESS)) then ret (true, terResult)
            else
              let! line :=
                match sleRippleState with
                | Some _ => ret (tesSUCCESS, sleRippleState)
                | None =>
                    let! saReceiverLimit := lift (Amt.make (mkIssue currency uReceiverID) ASSET_LIMIT_DEFAULT 0 false) in
                    let saBalance := Amt.zero_of (mkIssue currency noAccount) in
                    let! sleReceiver := peek (keylet.account uReceiverID) in
                    let! terResult := trustCreate bSenderHigh uSenderID uReceiverID uIndex sleReceiver false true false
                      saBalance saReceiverLimit 0 0 in
                    if bool_decide (terResult = tesSUCCESS) then
                      let! sleRippleState := peek (keylet.line_key uIndex) in
                      ret (terResult, sleRippleState)
                    else ret (terResult, None)
                end in
              if negb (bool_decide (line.1 = tesSUCCESS)) then ret (true, line.1)
              else
                let! _ := assetRelease fuel uSenderID uReceiverID currency line.2 in
                ret (true, tesSUCCESS)
      end.

(** ** Changing balances *)

(** The balance of the sender, in its own terms, has become zero or negative, and
    its side of the line is in the default state. *)
Definition reserve_cleared (bSenderHigh : bool) (before after : Amt.STAmount) (state : STObject) : bool :=
  let uFlags := getFieldU32 sfFlags state in
  (0 <? Amt.signum before) && (Amt.signum after <=? 0) &&
  negb (Z.land uFlags (if bSenderHigh then lsfHighReserve else lsfLowReserve) =? 0) &&
  (Z.land uFlags (if bSenderHigh then lsfHighFreeze else lsfLowFreeze) =? 0) &&
  Amt.is_zero (getFieldAmount (if bSenderHigh then sfHighLimit else sfLowLimit) state) &&
  (getFieldU32 (if bSenderHigh then sfHighQualityIn else sfLowQualityIn) state =? 0) &&
  (getFieldU32 (if bSenderHigh then sfHighQualityOut else sfLowQualityOut) state =? 0).

(** [uFlags & ~lsf...Reserve] *)
Definition clear_reserve (bSenderHigh : bool) (uFlags : Z) : Z :=
  Z.ldiff uFlags (if bSenderHigh then lsfHighReserve else lsfLowReserve).

Definition rippleCredit (fuel : nat) (uSenderID uReceiverID : AccountID) (saAmount : Amt.STAmount) : prog TER :=
  let currency := currency_of saAmount in
  let bSenderHigh := uReceiverID <? uSenderID in
  let uIndex := getRippleStateIndex uSenderID uReceiverID currency in
  let! sleRippleState := peek (keylet.line_key uIndex) in
  let! isAsset := issueAsset fuel bSenderHigh uSenderID uReceiverID currency saAmount uIndex sleRippleState in
  if isAsset.1 then ret isAsset.2
  else
    match sleRippleState with
    | None =>
        let saReceiverLimit := Amt.zero_of (mkIssue currency uReceiverID) in
        let saBalance := Amt.setIssuer saAmount noAccount in
        let! sleAccount := peek (keylet.account uReceiverID) in
        let! account := non_null sleAccount in
        let! noRipple := get account (λ o, Z.land (getFieldU32 sfFlags o) lsfDefaultRipple =? 0) in
        trustCreate bSenderHigh uSenderID uReceiverID uIndex sleAccount false noRipple false saBalance saReceiverLimit 0 0
    | Some sleRippleState =>
        creditHook uSenderID uReceiverID saAmount;;
        let! saBalance := get sleRippleState (getFieldAmount sfBalance) in
        let saBefore := if bSenderHigh then Amt.negate saBalance else saBalance in
        let! saBalance := lift (Amt.sub saBefore saAmount) in
        let! uFlags := get sleRippleState (getFieldU32 sfFlags) in
        let! cleared := get sleRippleState (reserve_cleared bSenderHigh saBefore saBalance) in
        let! bDelete :=
          if cleared then
            adjustOwner uSenderID (-1);;
            set sleRippleState (setFieldU32 sfFlags (clear_reserve bSenderHigh uFlags));;
            ret (Amt.is_zero saBalance && (Z.land uFlags (if bSenderHigh then lsfLowReserve else lsfHighReserve) =? 0))
          else ret false in
        let saBalance := if bSenderHigh then Amt.negate saBalance else saBalance in
        set sleRippleState (setFieldAmount sfBalance saBalance);;
        if bDelete then
          trustDelete sleRippleState (if bSenderHigh then uReceiverID else uSenderID)
            (if bSenderHigh then uSenderID else uReceiverID)
        else
          update sleRippleState;;
          ret tesSUCCESS
    end.

(** ** Referrals *)

(** [STObject (sfReferenceHolder)] with the reference in it. *)
Definition reference_to (referenceID : AccountID) : STInner :=
  mkInner "ReferenceHolder" ∅ ∅ ∅ ∅ ∅ {[sfReference := referenceID]} ∅.

Definition addRefer (refereeID referenceID : AccountID) : prog TER :=
  if refereeID =? referenceID then ret temDST_IS_SRC
  else
    let! sleReferee := peek (keylet.account refereeID) in
    let! sleReference := peek (keylet.account referenceID) in
    let refereeReferIndex := getAccountReferIndex refereeID in
    let! sleRefereeRefer := peek (keylet.refer_key refereeReferIndex) in
    let! sleReferenceRefer := read (keylet.refer_key (getAccountReferIndex referenceID)) in
    if match sleReferenceRefer with Some sle => present (arrays (fields sle)) sfReferences | None => false end
    then ret tefREFERENCE_EXIST
    else
      match sleReferee, sleReference with
      | None, _ => ret tecNO_DST
      | Some _, None => ret terNO_ACCOUNT
      | Some _, Some sleReference =>
          let! has_referee := get sleReference (λ o,
            present (accounts o) sfReferee && negb (getAccountID sfReferee o =? 0)) in
          if has_referee then ret tefREFEREE_EXIST
          else
            let add (sleRefereeRefer : loc) (references : list STInner) : prog TER :=
              set sleRefereeRefer (setFieldArray sfReferences (references ++ [reference_to referenceID]));;
              set sleReference (setAccountID sfReferee refereeID);;
              update sleReference;;
              ret tesSUCCESS in
            match sleRefereeRefer with
            | Some sleRefereeRefer =>
                let! references := get sleRefereeRefer (λ o, arrays o !! sfReferences) in
                if (1024 <? length (default [] references))%nat then ret tecDIR_FULL
                else if existsb (λ it, inner_getAccountID sfReference it =? referenceID) (default [] references)
                then ret tefREFERENCE_EXIST
                else
                  set sleRefereeRefer (setAccountID sfAccount refereeID);;
                  update sleRefereeRefer;;
                  add sleRefereeRefer (default [] references)
            | None =>
                let! sleRefereeRefer := make_sle empty_object (keylet.refer_key refereeReferIndex) in
                set sleRefereeRefer (setAccountID sfAccount refereeID);;
                insert sleRefereeRefer;;
                add sleRefereeRefer []
            end
      end.

(** The account has a dividend of the last round that is more than the least. *)
Definition dividend_of (divLedgerSeq : Z) (sle : STObject) : option Z :=
  if present (u32s sle) sfDividendLedger && (getFieldU32 sfDividendLedger sle =? divLedgerSeq) &&
     present (u64s sle) sfDividendVSprd
  then Some (getFieldU64 sfDividendVSprd sle) else None.

(** No other reference of the parent has a larger dividend. *)
Fixpoint isMaxChild (divLedgerSeq divVSpd : Z) (currentAccountID : AccountID) (children : list STInner) : prog bool :=
  match children with
  | [] => ret true
  | child :: children =>
      let childId := inner_getAccountID sfReference child in
      if childId =? currentAccountID then isMaxChild divLedgerSeq divVSpd currentAccountID children
      else
        let! sleChild := read (keylet.account childId) in
        if match sleChild with
           | Some sleChild =>
               match dividend_of divLedgerSeq (fields sleChild) with Some d => divVSpd <? d | None => false end
           | None => false
           end
        then ret false
        else isMaxChild divLedgerSeq divVSpd currentAccountID children
  end.

(** An ancestor gets a share unless its dividend is too small or it is the
    largest of its parent's references. *)
Definition takes_share (divLedgerSeq : Z) (currentAccountID : AccountID) (sleCurrent : STObject) : prog bool :=
  match dividend_of divLedgerSeq sleCurrent with
  | None => ret false
  | Some divVSpd =>
      if divVSpd <=? MIN_VSPD_TO_GET_FEE_SHARE then ret false
      else if present (accounts sleCurrent) sfReferee then
        let parent := getAccountID sfReferee sleCurrent in
        let! sleReferences := read (keylet.refer parent) in
        match sleReferences with
        | Some sleReferences =>
            let! max := isMaxChild divLedgerSeq divVSpd currentAccountID (getFieldArray sfReferences (fields sleReferences)) in
            ret (negb max)
        | None => ret true
        end
      else ret true
  end.

(** What the walk to the ancestors has done so far. *)
Record Sharing := mkSharing { sh_ter : TER; sendCnt : Z; lastAccount : AccountID; takersMap : gmap Z Amt.STAmount }.

Fixpoint share_loop (steps fuel : nat) (uIssuerID : AccountID) (saTransFeeShareEach : Amt.STAmount) (divLedgerSeq : Z)
    (sleCurrent : STObject) (sh : Sharing) : prog Sharing :=
  if negb (sendCnt sh <? 5) then ret sh
  else if negb (present (accounts sleCurrent) sfReferee) then ret sh
  else
    let currentAccountID := getAccountID sfReferee sleCurrent in
    let! sleCurrent := read (keylet.account currentAccountID) in
    match sleCurrent with
    | None => ret sh
    | Some sleCurrent =>
        match steps with
        | O => throw (Undefined "more ancestors than the walk was given")
        | S steps =>
            let! takes := takes_share divLedgerSeq currentAccountID (fields sleCurrent) in
            if takes then
              let! terResult := rippleCredit fuel uIssuerID currentAccountID saTransFeeShareEach in
              if negb (bool_decide (terResult = tesSUCCESS))
              then ret (mkSharing terResult (sendCnt sh) (lastAccount sh) (takersMap sh))
              else
                share_loop steps fuel uIssuerID saTransFeeShareEach divLedgerSeq (fields sleCurrent)
                  (mkSharing tesSUCCESS (sendCnt sh + 1) currentAccountID
                    (match takersMap sh !! currentAccountID with
                     | Some _ => takersMap sh
                     | None => <[currentAccountID := saTransFeeShareEach]> (takersMap sh)
                     end))
            else share_loop steps fuel uIssuerID saTransFeeShareEach divLedgerSeq (fields sleCurrent) sh
        end
    end.

(** The records of earlier rounds are updated, the others are appended. *)
Fixpoint update_takers (takers : list (AccountID * Amt.STAmount)) (m : gmap Z Amt.STAmount) :
    result (list (AccountID * Amt.STAmount)) :=
  match takers with
  | [] => Ok (in_order m)
  | (id, amountBefore) :: takers =>
      match m !! id with
      | Some share =>
          if (currency_of amountBefore =? currency_of share) && (issuer amountBefore =? issuer share) then
            let* sum := Amt.add amountBefore share in
            let* rest := update_takers takers (delete id m) in
            Ok ((id, sum) :: rest)
          else let* rest := update_takers takers m in Ok ((id, amountBefore) :: rest)
      | None => let* rest := update_takers takers m in Ok ((id, amountBefore) :: rest)
      end
  end.

Definition shareFeeWithReferee (steps fuel : nat) (uSenderID uIssuerID : AccountID) (saAmount : Amt.STAmount) : prog TER :=
  let! fifth := lift (Amt.make_signed (Amt.mIssue saAmount) 2 (-1)) in
  let! saTransFeeShareEach := lift (Arith.multiply saAmount fifth (Amt.mIssue saAmount)) in
  let! sleDivObj := read keylet.dividend in
  match sleDivObj with
  | None => ret tesSUCCESS
  | Some sleDivObj =>
      if negb (getFieldU8 sfDividendState (fields sleDivObj) =? 0) then ret tesSUCCESS
      else
        let divLedgerSeq := getFieldU32 sfDividendLedger (fields sleDivObj) in
        let! sleCurrent := read (keylet.account uSenderID) in
        let start := mkSharing tesSUCCESS 0 0 ∅ in
        let! sh :=
          match sleCurrent with
          | None => ret start
          | Some sleCurrent => share_loop steps fuel uIssuerID saTransFeeShareEach divLedgerSeq (fields sleCurrent) start
          end in
        if negb (bool_decide (sh_ter sh = tesSUCCESS)) then ret (sh_ter sh)
        else
          let! r :=
            if (0 <? sendCnt sh) && (sendCnt sh <? 5) then
              let! others := lift (Amt.make_signed (Amt.mIssue saTransFeeShareEach) (5 - sendCnt sh) 0) in
              let! saLeft := lift (Arith.multiply saTransFeeShareEach others (Amt.mIssue saTransFeeShareEach)) in
              let! terResult := rippleCredit fuel uIssuerID (lastAccount sh) saLeft in
              if bool_decide (terResult = tesSUCCESS) then
                match takersMap sh !! lastAccount sh with
                | Some share =>
                    let! share := lift (Amt.add share saLeft) in
                    ret (tesSUCCESS, <[lastAccount sh := share]> (takersMap sh))
                | None => ret (tesSUCCESS, takersMap sh)
                end
              else ret (terResult, takersMap sh)
            else ret (tesSUCCESS, takersMap sh) in
          if negb (bool_decide (r.1 = tesSUCCESS)) then ret r.1
          else
            let! takers := gets feeShareTakers_ in
            let! takers := lift (update_takers takers r.2) in
            StateMonad.modify (λ v, set_takers v takers);;
            ret tesSUCCESS
  end.

(** ** Sending *)

(** The result, and the amount it cost the sender. *)
Definition rippleSend (steps fuel : nat) (uSenderID uReceiverID : AccountID) (saAmount : Amt.STAmount) :
    prog (TER * Amt.STAmount) :=
  let issuer := issuer saAmount in
  if (uSenderID =? issuer) || (uReceiverID =? issuer) || (issuer =? noAccount) then
    let! _ := rippleCredit fuel uSenderID uReceiverID saAmount in
    ret (tesSUCCESS, saAmount)
  else
    let! saTransitFee := rippleTransferFee uSenderID uReceiverID issuer saAmount in
    let! terResult :=
      if Amt.is_zero saTransitFee then ret tesSUCCESS
      else
        let! quarter := lift (Amt.make_signed (Amt.mIssue saTransitFee) 25 (-2)) in
        let! saTransFeeShare := lift (Arith.multiply saTransitFee quarter (Amt.mIssue saTransitFee)) in
        shareFeeWithReferee steps fuel uSenderID issuer saTransFeeShare in
    let! saActual := if Amt.is_zero saTransitFee then ret saAmount else lift (Amt.add saAmount saTransitFee) in
    let saActual := Amt.setIssuer saActual issuer in
    let! terResult :=
      if bool_decide (terResult = tesSUCCESS) then rippleCredit fuel issuer uReceiverID saAmount else ret terResult in
    let! terResult :=
      if bool_decide (terResult = tesSUCCESS) then rippleCredit fuel uSenderID issuer saActual else ret terResult in
    ret (terResult, saActual).

(** The field with the balance of a native amount. *)
Definition balance_field (amount : Amt.STAmount) : string := if Amt.amt_isVBC amount then sfBalanceVBC else sfBalance.

Definition failed_processing : TER := if open info then telFAILED_PROCESSING else tecFAILED_PROCESSING.

Definition accountSend (steps fuel : nat) (uSenderID uReceiverID : AccountID) (saAmount : Amt.STAmount) : prog TER :=
  if Amt.is_zero saAmount || (uSenderID =? uReceiverID) then ret tesSUCCESS
  else if negb (Amt.mIsNative saAmount) then
    let! r := rippleSend steps fuel uSenderID uReceiverID saAmount in ret r.1
  else
    creditHook uSenderID uReceiverID saAmount;;
    let! sender := if negb (uSenderID =? 0) then peek (keylet.account uSenderID) else ret None in
    let! receiver := if negb (uReceiverID =? 0) then peek (keylet.account uReceiverID) else ret None in
    let field := balance_field saAmount in
    let! terResult :=
      match sender with
      | None => ret tesSUCCESS
      | Some sender =>
          let! balance := get sender (getFieldAmount field) in
          let! less := lift (Amt.ltb balance saAmount) in
          if less then ret failed_processing
          else
            let! balance := lift (Amt.sub balance saAmount) in
            set sender (setFieldAmount field balance);;
            update sender;;
            ret tesSUCCESS
      end in
    match receiver with
    | Some receiver =>
        if bool_decide (terResult = tesSUCCESS) then
          let! balance := get receiver (getFieldAmount field) in
          let! balance := lift (Amt.add balance saAmount) in
          set receiver (setFieldAmount field balance);;
          update receiver;;
          ret terResult
        else ret terResult
    | None => ret terResult
    end.

(** Whether the line is to be deleted. *)
Definition updateTrustLine (state : loc) (bSenderHigh : bool) (sender : AccountID) (before after : Amt.STAmount) :
    prog bool :=
  let! flags := get state (getFieldU32 sfFlags) in
  let! sle := peek (keylet.account sender) in
  let! cleared := get state (reserve_cleared bSenderHigh before after) in
  if cleared then
    let! sle := non_null sle in
    adjustOwnerCount sle (-1);;
    set state (setFieldU32 sfFlags (clear_reserve bSenderHigh flags));;
    ret (Amt.is_zero after && (Z.land flags (if bSenderHigh then lsfLowReserve else lsfHighReserve) =? 0))
  else ret false.

(** The sender's balance goes down by an amount. *)
Definition debit (state : loc) (bSenderHigh : bool) (sender receiver : AccountID) (amount : Amt.STAmount) : prog TER :=
  let! final_balance := get state (getFieldAmount sfBalance) in
  let start_balance := if bSenderHigh then Amt.negate final_balance else final_balance in
  let! final_balance := lift (Amt.sub start_balance amount) in
  let! must_delete := updateTrustLine state bSenderHigh sender start_balance final_balance in
  let final_balance := if bSenderHigh then Amt.negate final_balance else final_balance in
  creditHook sender receiver amount;;
  set state (setFieldAmount sfBalance final_balance);;
  if must_delete then
    trustDelete state (if bSenderHigh then receiver else sender) (if bSenderHigh then sender else receiver)
  else
    update state;;
    ret tesSUCCESS.

Definition issueIOU (fuel : nat) (account : AccountID) (amount : Amt.STAmount) (issue : Issue) : prog TER :=
  let bSenderHigh := account <? Issue.account issue in
  let index := getRippleStateIndex (Issue.account issue) account (currency issue) in
  let! state := peek (keylet.line_key index) in
  let! isAsset := issueAsset fuel bSenderHigh (Issue.account issue) account (currency issue) amount index state in
  if isAsset.1 then ret isAsset.2
  else
    match state with
    | None =>
        let limit := Amt.zero_of (mkIssue (currency issue) account) in
        let final_balance := Amt.setIssuer amount noAccount in
        let! receiverAccount := peek (keylet.account account) in
        let! receiver := non_null receiverAccount in
        let! noRipple := get receiver (λ o, Z.land (getFieldU32 sfFlags o) lsfDefaultRipple =? 0) in
        trustCreate bSenderHigh (Issue.account issue) account index receiverAccount false noRipple false
          final_balance limit 0 0
    | Some state => debit state bSenderHigh (Issue.account issue) account amount
    end.

Definition redeemIOU (account : AccountID) (amount : Amt.STAmount) (issue : Issue) : prog TER :=
  let bSenderHigh := Issue.account issue <? account in
  let index := getRippleStateIndex account (Issue.account issue) (currency issue) in
  let! state := peek (keylet.line_key index) in
  match state with
  | None => ret tefINTERNAL
  | Some state => debit state bSenderHigh account (Issue.account issue) amount
  end.

Definition transferXRP (from to : AccountID) (amount : Amt.STAmount) : prog TER :=
  let! sender := peek (keylet.account from) in
  let! receiver := peek (keylet.account to) in
  let field := balance_field amount in
  let! sender := non_null sender in
  let! balance := get sender (getFieldAmount field) in
  let! less := lift (Amt.ltb balance amount) in
  if less then ret failed_processing
  else
    let! balance := lift (Amt.sub balance amount) in
    set sender (setFieldAmount field balance);;
    update sender;;
    let! receiver := non_null receiver in
    let! balance := get receiver (getFieldAmount field) in
    let! balance := lift (Amt.add balance amount) in
    set receiver (setFieldAmount field balance);;
    update receiver;;
    ret tesSUCCESS.

(** ** Funds *)

Definition accountHolds (fuel : nat) (account : AccountID) (currency : Currency) (issuer : AccountID)
    (zeroIfFrozen : bool) : prog Amt.STAmount :=
  let! amount :=
    if isVBC currency || isXRP currency then
      let! sle := read (keylet.account account) in
      let! sle := non_null sle in
      let reserve := accountReserve info (getFieldU32 sfOwnerCount (fields sle)) in
      let! balance := lift (Amt.xrp (getFieldAmount (if isVBC currency then sfBalanceVBC else sfBalance) (fields sle))) in
      if Amt.drops_ balance <? reserve then ret (Amt.clear (Amt.of_drops 0 false))
      else
        let! amount := lift (Amt.of_xrp (Amt.mkXRP (i64 (Amt.drops_ balance - reserve)) (Amt.isVBC_ balance))) in
        ret (if isVBC currency then Amt.setIssue amount vbcIssue else amount)
    else
      let! sle := peek (keylet.line account issuer currency) in
      match sle with
      | None => ret (Amt.clear_issue (Amt.of_drops 0 false) (mkIssue currency issuer))
      | Some sle =>
          let! frozen := if zeroIfFrozen then isFrozen account currency issuer else ret false in
          if frozen then ret (Amt.clear_issue (Amt.of_drops 0 false) (mkIssue currency issuer))
          else
            let! _ := if assetCurrency =? currency then assetRelease fuel account issuer currency (Some sle) else ret tesSUCCESS in
            let! amount := get sle (getFieldAmount sfBalance) in
            ret (Amt.setIssuer (if issuer <? account then Amt.negate amount else amount) issuer)
      end in
  ret (balanceHook account issuer amount).

Definition accountFunds (fuel : nat) (id : AccountID) (saDefault : Amt.STAmount) (freezeHandling : bool) :
    prog Amt.STAmount :=
  if negb (Amt.mIsNative saDefault) && (issuer saDefault =? id) then ret saDefault
  else accountHolds fuel id (currency_of saDefault) (issuer saDefault) freezeHandling.

End trust.

End Trust.
