(* ===== verification/TrustRep.v ===== *)
(** * Ledgers with accounts, owner directories and trust lines

    What the functions of TrustLines.v rely on and keep: every account has a root,
    every owner directory is well-formed, and every line is listed in the
    directories of both its sides, on the pages it names. *)

From stdpp Require Import strings functions.
From S2P Require Import Prelude StateMonad Issue STAmount STAmountFacts Views ApplyStateTable ApplyFacts ViewLogic Objects.
From S2P Require Import Directory DirectoryRep DirectoryFacts DirectoryDelete Indexes TrustLines.
Import Apply ApplyFacts VL Dir DirRep DirFacts DirDelete Idx Trust.

Open Scope Z_scope.

Module TrustRep.

(** ** Keys *)

Definition is_id (a : Z) : Prop := 0 ≤ a < 2 ^ 160.

Lemma id_bytes_inj x y : is_id x → is_id y → be_bytes 20 x = be_bytes 20 y → x = y.
Proof. apply (be_bytes_inj 20). Qed.

Section keys.
Context `{Digest} (A : gset Z).

(** What is hashed for the accounts [A]: their roots, the pages of their owner
    directories, the lines between them, their referrals, and their offers, tickets
    and signer lists. *)
Inductive hashed : list Z → Prop :=
  | hashed_account a : a ∈ A → hashed (be_bytes 2 spaceAccount ++ ([a] ≫= be_bytes 20))
  | hashed_dir a : a ∈ A → hashed (be_bytes 2 spaceOwnerDir ++ ([a] ≫= be_bytes 20))
  | hashed_page a n : a ∈ A → is_u64 n →
      hashed (be_bytes 2 spaceDirNode ++ be_bytes 32 (getOwnerDirIndex a) ++ be_bytes 8 n)
  | hashed_line a b cur : a ∈ A → b ∈ A → is_id cur →
      hashed (be_bytes 2 spaceRipple ++ ([a; b; cur] ≫= be_bytes 20))
  | hashed_refer a : a ∈ A → hashed (be_bytes 2 spaceRefer ++ ([a] ≫= be_bytes 20))
  | hashed_sequence space a n : a ∈ A → space ∈ [spaceOffer; spaceTicket; spaceSignerList] → 0 ≤ n < 2 ^ 32 →
      hashed (be_bytes 2 space ++ be_bytes 20 a ++ be_bytes 4 n).

(** The assumption every ledger key rests on: there is no collision among them. *)
Class Apart : Prop := {
  apart_id a : a ∈ A → is_id a;
  apart_range a : a ∈ A → 0 ≤ getOwnerDirIndex a < 2 ^ 256;
  apart_inj s t : hashed s → hashed t → sha512Half s = sha512Half t → s = t
}.

Context {AP : Apart}.
Implicit Types (a b : Z).

Lemma account_key_inj a b :
  a ∈ A → b ∈ A → getAccountRootIndex a = getAccountRootIndex b → a = b.
Proof using AP.
  intros Ha Hb E. apply apart_inj in E; [|by constructor..]. apply app_inv_head in E. cbn [mbind list_bind] in E.
  rewrite !app_nil_r in E. apply id_bytes_inj; [by apply apart_id..|done].
Qed.

Lemma refer_key_inj a b : a ∈ A → b ∈ A → getReferIndex a = getReferIndex b → a = b.
Proof using AP.
  intros Ha Hb E. apply apart_inj in E; [|by constructor..]. apply app_inv_head in E. cbn [mbind list_bind] in E.
  rewrite !app_nil_r in E. apply id_bytes_inj; [by apply apart_id..|done].
Qed.

Lemma refer_not_account a b : a ∈ A → b ∈ A → getReferIndex a ≠ getAccountRootIndex b.
Proof using AP. intros Ha Hb E. apply apart_inj in E; [done|by constructor..]. Qed.

Lemma dir_key_inj a b : a ∈ A → b ∈ A → getOwnerDirIndex a = getOwnerDirIndex b → a = b.
Proof using AP.
  intros Ha Hb E. apply apart_inj in E; [|by constructor..]. apply app_inv_head in E. cbn [mbind list_bind] in E.
  rewrite !app_nil_r in E. apply id_bytes_inj; [by apply apart_id..|done].
Qed.

Lemma page_inj a b i j :
  a ∈ A → b ∈ A → is_u64 i → is_u64 j →
  page_hash (getOwnerDirIndex a) i = page_hash (getOwnerDirIndex b) j → a = b ∧ i = j.
Proof using AP.
  intros Ha Hb Hi Hj E. apply apart_inj in E; [|by constructor..]. apply app_inv_head in E.
  apply app_inj_1 in E as [E1 E2]; [|by rewrite !length_be_bytes]. split.
  - apply dir_key_inj; [done..|]. apply (be_bytes_inj 32); [by apply apart_range..|done].
  - by apply (be_bytes_inj 8).
Qed.

(** Different kinds of entries have different keys. *)
Lemma page_not_root a b i : a ∈ A → b ∈ A → is_u64 i → page_hash (getOwnerDirIndex a) i ≠ getOwnerDirIndex b.
Proof using AP. intros Ha Hb Hi E. apply apart_inj in E; [done|by constructor..]. Qed.

Lemma owner_dir_laws a : a ∈ A → PageHashLaws (getOwnerDirIndex a).
Proof using AP.
  intros Ha. split.
  - intros i j Hi Hj _ _ E. by apply (page_inj a a i j) in E as [_ ?].
  - intros i Hi _. by apply page_not_root.
Qed.

Abbreviation outside_of a k := (foreign (getOwnerDirIndex a) k).

Lemma page_apart a b i : a ∈ A → b ∈ A → a ≠ b → is_u64 i → outside_of b (key (getOwnerDirIndex a) i).
Proof using AP.
  intros Ha Hb Hne Hi j Hj. unfold key, getDirNodeIndex.
  destruct (Z.eqb_spec i 0), (Z.eqb_spec j 0).
  - by intros ?%dir_key_inj.
  - intros E. by apply (page_not_root b a j).
  - by apply page_not_root.
  - by intros [? _]%page_inj.
Qed.

(** Keys that are not pages of an owner directory. *)
Definition outside (k : Z) : Prop := ∀ a, a ∈ A → outside_of a k.

Lemma hashed_outside s :
  hashed s → head (tail s) ≠ Some spaceOwnerDir → head (tail s) ≠ Some spaceDirNode → outside (sha512Half s).
Proof using AP.
  intros Hs Hd Hp a Ha n Hn. unfold key, getDirNodeIndex. destruct (Z.eqb_spec n 0) as [->|].
  - intros E. apply apart_inj in E as ->; [|done|by constructor]. done.
  - intros E. apply apart_inj in E as ->; [|done|by constructor]. done.
Qed.

Lemma account_outside a : a ∈ A → outside (getAccountRootIndex a).
Proof using AP. intros Ha. apply hashed_outside; [by constructor|done..]. Qed.

(** The key of the line between [a] and [b], the low and the high side. *)
Definition line_index (a b : AccountID) (cur : Currency) : Z := space_hash spaceRipple [a; b; cur].

Lemma line_outside a b cur : a ∈ A → b ∈ A → is_id cur → outside (line_index a b cur).
Proof using AP. intros Ha Hb Hc. apply hashed_outside; [by constructor|done..]. Qed.

Lemma line_not_account a b cur x :
  a ∈ A → b ∈ A → is_id cur → x ∈ A → line_index a b cur ≠ getAccountRootIndex x.
Proof using AP. intros Ha Hb Hc Hx E. apply apart_inj in E; [done|by constructor..]. Qed.

Lemma line_index_inj a b cur a' b' cur' :
  a ∈ A → b ∈ A → is_id cur → a' ∈ A → b' ∈ A → is_id cur' →
  line_index a b cur = line_index a' b' cur' → a = a' ∧ b = b' ∧ cur = cur'.
Proof using AP.
  intros Ha Hb Hc Ha' Hb' Hc' E. apply apart_inj in E; [|by constructor..]. apply app_inv_head in E.
  cbn [mbind list_bind] in E. rewrite !app_nil_r in E.
  apply app_inj_1 in E as [E1 E]; [|by rewrite !length_be_bytes].
  apply app_inj_1 in E as [E2 E3]; [|by rewrite !length_be_bytes].
  split; [|split]; apply id_bytes_inj; try done; by apply apart_id.
Qed.

(** ** The invariant *)

Implicit Types (m : gmap Z (SLE STObject)) (s : SLE STObject) (X : gset Z) (dirs : Z → gmap Z (list Z)).

(** An account, whose owner count is a 32-bit number. *)
Definition account_ok s : Prop :=
  sle_type s = ltACCOUNT_ROOT ∧ 0 ≤ getFieldU32 sfOwnerCount (fields s) < 2 ^ 32.

(** A line between [a] and [b]. *)
Record line_ok dirs a b (cur : Currency) s : Prop := {
  line_type : sle_type s = ltRIPPLE_STATE;
  line_wf : AmtFacts.wf (getFieldAmount sfBalance (fields s));
  line_currency : currency_of (getFieldAmount sfBalance (fields s)) = cur;
  line_low : listed (dirs a) (getFieldU64 sfLowNode (fields s)) (line_index a b cur);
  line_high : listed (dirs b) (getFieldU64 sfHighNode (fields s)) (line_index a b cur)
}.

(** The ledger [m], in which [dirs] are the owner directories, is well-formed but
    for the lines [X]. *)
Record ledger X dirs m : Prop := {
  ledger_account a : a ∈ A → ∃ s, m !! getAccountRootIndex a = Some s ∧ account_ok s;
  ledger_dir a : a ∈ A → dir_rep (getOwnerDirIndex a) (dirs a) m;
  ledger_line a b cur s : a ∈ A → b ∈ A → a < b → is_id cur → line_index a b cur ∉ X →
    m !! line_index a b cur = Some s → line_ok dirs a b cur s
}.

Lemma dir_rep_ext r pages m m' :
  (∀ n, is_u64 n → m' !! key r n = m !! key r n) → dir_rep r pages m → dir_rep r pages m'.
Proof.
  intros Hm [Hn Ha Hr Hg]. split; [|intros n Hu Hnone; rewrite Hm by done; auto|done|done].
  intros n l Hl. destruct (Hg n l Hl) as [Hu _]. rewrite Hm by done. auto.
Qed.

(** Changes outside of the directories. *)
Lemma ledger_ext X X' dirs m m' :
  ledger X dirs m → (∀ k, outside k ∨ m' !! k = m !! k) →
  (∀ a, a ∈ A → m' !! getAccountRootIndex a = m !! getAccountRootIndex a ∨
     (∃ s, m' !! getAccountRootIndex a = Some s ∧ account_ok s)) →
  (∀ a b cur s, a ∈ A → b ∈ A → a < b → is_id cur → line_index a b cur ∉ X' → m' !! line_index a b cur = Some s →
     (line_index a b cur ∉ X ∧ m !! line_index a b cur = Some s) ∨ line_ok dirs a b cur s) →
  ledger X' dirs m'.
Proof.
  intros [Ha Hd Hl] Hout Hacc Hline. split.
  - intros a HaA. destruct (Hacc a HaA) as [->|?]; auto.
  - intros a HaA. eapply dir_rep_ext; [|by apply Hd]. intros n Hn.
    destruct (Hout (key (getOwnerDirIndex a) n)) as [Ho|]; [|done]. by destruct (Ho a HaA n Hn).
  - intros a b cur s HaA HbA Hlt Hc HX Hs. destruct (Hline a b cur s) as [[??]|?]; auto.
Qed.

Lemma ledger_set_account X dirs m a s :
  ledger X dirs m → a ∈ A → account_ok s → ledger X dirs (<[getAccountRootIndex a := s]> m).
Proof using AP.
  intros HL Ha Hs. eapply ledger_ext; [done|..].
  - intros k. destruct (decide (k = getAccountRootIndex a)) as [->|]; [left; by apply account_outside|].
    right. by rewrite lookup_insert_ne.
  - intros b Hb. destruct (decide (a = b)) as [->|Hne]; [right; exists s; by rewrite lookup_insert_eq|].
    left. rewrite lookup_insert_ne; [done|]. by intros ?%account_key_inj.
  - intros x y cur s' Hx Hy Hlt Hc HX. rewrite lookup_insert_ne; [auto|]. by apply not_eq_sym, line_not_account.
Qed.

Lemma ledger_set_line X dirs m a b cur s :
  ledger X dirs m → a ∈ A → b ∈ A → a < b → is_id cur → line_ok dirs a b cur s →
  ledger (X ∖ {[line_index a b cur]}) dirs (<[line_index a b cur := s]> m).
Proof using AP.
  intros HL Ha Hb Hlt Hc Hs. eapply ledger_ext; [done|..].
  - intros k. destruct (decide (k = line_index a b cur)) as [->|]; [left; by apply line_outside|].
    right. by rewrite lookup_insert_ne.
  - intros x Hx. left. rewrite lookup_insert_ne; [done|]. by apply line_not_account.
  - intros x y cur' s' Hx Hy Hlt' Hc' HX. destruct (decide (line_index x y cur' = line_index a b cur)) as [E|E].
    + rewrite E, lookup_insert_eq. intros [= <-]. right. by apply line_index_inj in E as (-> & -> & ->).
    + rewrite lookup_insert_ne by done. intros ?. left. split; [set_solver|done].
Qed.

Lemma ledger_change_line dirs m a b cur s :
  ledger ∅ dirs m → a ∈ A → b ∈ A → a < b → is_id cur → line_ok dirs a b cur s →
  ledger ∅ dirs (<[line_index a b cur := s]> m).
Proof using AP. intros. rewrite <- (empty_difference_L {[line_index a b cur]}). by apply ledger_set_line. Qed.

(** A line that is not listed yet, or not any more. *)
Lemma ledger_set_unlisted X dirs m a b cur s :
  ledger X dirs m → a ∈ A → b ∈ A → is_id cur →
  ledger ({[line_index a b cur]} ∪ X) dirs (<[line_index a b cur := s]> m).
Proof using AP.
  intros HL Ha Hb Hc. eapply ledger_ext; [done|..].
  - intros k. destruct (decide (k = line_index a b cur)) as [->|]; [left; by apply line_outside|].
    right. by rewrite lookup_insert_ne.
  - intros x Hx. left. rewrite lookup_insert_ne; [done|]. by apply line_not_account.
  - intros x y cur' s' Hx Hy Hlt' Hc' HX. rewrite lookup_insert_ne by set_solver. intros ?. left. split; [set_solver|done].
Qed.

Lemma ledger_delete_line X dirs m a b cur :
  ledger X dirs m → a ∈ A → b ∈ A → is_id cur →
  ledger (X ∖ {[line_index a b cur]}) dirs (delete (line_index a b cur) m).
Proof using AP.
  intros HL Ha Hb Hc. eapply ledger_ext; [done|..].
  - intros k. destruct (decide (k = line_index a b cur)) as [->|]; [left; by apply line_outside|].
    right. by rewrite lookup_delete_ne.
  - intros x Hx. left. rewrite lookup_delete_ne; [done|]. by apply line_not_account.
  - intros x y cur' s' Hx Hy Hlt' Hc' HX. destruct (decide (line_index x y cur' = line_index a b cur)) as [E|E].
    + by rewrite E, lookup_delete_eq.
    + rewrite lookup_delete_ne by done. intros ?. left. split; [set_solver|done].
Qed.

(** A change to one owner directory. *)
Lemma ledger_set_dir X X' dirs m m' a pages :
  ledger X dirs m → a ∈ A → dir_rep (getOwnerDirIndex a) pages m' → same_elsewhere (getOwnerDirIndex a) m m' →
  X ⊆ X' → (∀ n y, y ∉ X' → listed (dirs a) n y → listed pages n y) →
  ledger X' (<[a := pages]> dirs) m'.
Proof using AP.
  intros [Hacc Hd Hl] Ha Hrep Hsame HX Hlist. split.
  - intros x Hx. rewrite (Hsame (getAccountRootIndex x)) by (by apply account_outside). auto.
  - intros x Hx. destruct (decide (x = a)) as [->|Hne]; [by rewrite fn_lookup_insert|].
    rewrite fn_lookup_insert_ne by done. eapply dir_rep_ext; [|by apply Hd]. intros n Hn.
    by apply Hsame, page_apart.
  - intros x y cur s Hx Hy Hlt Hc HX'. rewrite (Hsame (line_index x y cur)) by (by apply line_outside).
    intros Hs. destruct (Hl x y cur s) as [? ? ? Hlo Hhi]; [done..|set_solver|done|]. split; [done..| |].
    + destruct (decide (x = a)) as [->|Hne]; [rewrite fn_lookup_insert; auto|by rewrite fn_lookup_insert_ne].
    + destruct (decide (y = a)) as [->|Hne]; [rewrite fn_lookup_insert; auto|by rewrite fn_lookup_insert_ne].
Qed.

End keys.

End TrustRep.
