(* ===== verification/TrustFacts.v ===== *)
(** * Changing balances on trust lines

    What [trustCreate], [trustDelete] and the functions that move balances do to a
    well-formed ledger. *)

From stdpp Require Import strings functions.
From S2P Require Import Prelude StateMonad Issue IOUAmount STAmount BigNum STAmountFacts Views ApplyStateTable ApplyFacts ViewLogic Objects.
From S2P Require Import Directory DirectoryRep DirectoryFacts DirectoryDelete Indexes TrustLines TrustRep.
Import Apply ApplyFacts VL Dir DirRep DirFacts DirDelete Idx Trust TrustRep.

Open Scope Z_scope.
Open Scope prog_scope.

Module TrustFacts.

(** Reads through the fields that have been set. *)
Ltac read_fields :=
  unfold getFieldAmount, getFieldU32, getFieldU64;
  cbn [fields with_fields setFieldAmount setFieldU32 setFieldU64 u32s u64s amounts];
  repeat first [rewrite lookup_insert_eq | rewrite lookup_insert_ne by done].

(** ** Owner counts *)

(** The owner count after an adjustment: it saturates at both ends of 32 bits. *)
Definition saturated (amount : Z) (o : STObject) : Z :=
  Z.max 0 (Z.min (2 ^ 32 - 1) (getFieldU32 sfOwnerCount o + amount)).

Definition adjusted (amount : Z) (s : SLE STObject) : SLE STObject :=
  with_fields s (λ o, setFieldU32 sfOwnerCount (saturated amount o) o).

Lemma adjusted_ok amount s : account_ok s → account_ok (adjusted amount s).
Proof.
  intros [Ht Hr]. split; [done|]. unfold getFieldU32. simpl. rewrite lookup_insert_eq. simpl.
  unfold saturated. lia.
Qed.

Lemma wf_neg a : AmtFacts.wf a → AmtFacts.wf (Amt.neg a).
Proof.
  unfold AmtFacts.wf, Amt.neg. destruct (Z.eqb_spec (Amt.mValue a) 0) as [|Hne]; [done|]. simpl.
  intros [Hn Hw]. split; [done|]. destruct (Amt.mIsNative a); [by destruct Hw as (? & ? & _)|].
  destruct Hw as [[? _]|?]; [done|by right].
Qed.

Lemma wf_setIssuer a issuer : AmtFacts.wf a → AmtFacts.wf (Amt.setIssuer a issuer).
Proof. intros [Hn Hw]. unfold AmtFacts.wf. simpl. by rewrite <- Hn. Qed.

(** What is subtracted from a balance leaves a balance of the same issue. *)
Lemma sub_issued a b r :
  AmtFacts.wf a → AmtFacts.wf b → isNative (currency_of a) = false → currency_of b = currency_of a →
  Amt.sub a b = Ok r → AmtFacts.wf r ∧ Amt.mIssue r = Amt.mIssue a.
Proof.
  intros Ha Hb Hn Hc E. pose proof (wf_neg b Hb) as Hnb.
  assert (Amt.mIssue (Amt.neg b) = Amt.mIssue b) as Hib by (unfold Amt.neg; by destruct (_ =? 0)).
  assert (Amt.mIsNative a = false) as Hna by (destruct Ha as [-> _]; done).
  assert (Amt.mIsNative (Amt.neg b) = false) as Hnn by (destruct Hnb as [-> _]; unfold currency_of in *; by rewrite Hib, Hc).
  pose proof (AmtFacts.add_issued a (Amt.neg b) Ha Hnb Hna Hnn) as Hadd. unfold Amt.sub in E. rewrite E in Hadd.
  assert (Amt.areComparable a (Amt.neg b) = true) as Hcmp.
  { unfold Amt.areComparable. rewrite Hna, Hnn, Hib. unfold currency_of in Hc. rewrite Hc. cbn. apply Z.eqb_refl. }
  specialize (Hadd Hcmp). destruct (IOU.add _ _) as [x|] eqn:Ex; [|done]. simpl in Hadd. subst r. split; [|done].
  apply AmtFacts.lift_wf; [done|]. eapply IOU.add_wf; [| |exact Ex]; by apply AmtFacts.to_iou_wf.
Qed.

Lemma side_wf b a : AmtFacts.wf a → AmtFacts.wf (if b : bool then Amt.negate a else a).
Proof.
  intros Ha. destruct b; [|done]. unfold Amt.negate. destruct (Amt.is_zero a) eqn:Ez; [done|].
  replace (Amt.mkAmt _ _ _ _ _) with (Amt.neg a); [by apply wf_neg|].
  unfold Amt.neg. rewrite AmtFacts.is_zero_value in Ez. by rewrite Ez.
Qed.

Lemma side_issue b a : Amt.mIssue (if b : bool then Amt.negate a else a) = Amt.mIssue a.
Proof. destruct b; [|done]. unfold Amt.negate. by destruct (Amt.is_zero a). Qed.

Section facts.
Context `{Dg : Digest} `{BN : BigNum} {V : Type} {RV : ReadView STObject V} (info : LedgerInfo).
Context (c : gmap Z (SLE STObject)) (v0 : ApplyView STObject V) (Hbase : reads_as (base_ v0) c).
Context (A : gset Z) {AP : Apart A}.
Implicit Types (m : gmap Z (SLE STObject)) (hs : gmap loc Z) (K D X : gset Z) (v : ApplyView STObject V).
Implicit Types (dirs : Z → gmap Z (list Z)) (a b : AccountID).

Lemma wp_adjustOwnerCount {B} m hs K D v p k s amount (g : prog STObject V B) Q :
  state c v0 m hs K D v → hs !! p = Some k → m !! k = Some s → k ∉ K → account_ok s →
  amount ≠ 0 → - 2 ^ 31 ≤ amount < 2 ^ 31 →
  (∀ v', state c v0 (<[k := adjusted amount s]> m) hs K ({[k]} ∪ D) v' → wp g v' Q) →
  wp (adjustOwnerCount p amount;; g) v Q.
Proof.
  intros Hst Hp Hs HK [_ Hcur] Hne Ham Hg. apply wp_bind. unfold adjustOwnerCount. eapply wp_get_bind; [done..|].
  set (cur := getFieldU32 sfOwnerCount (fields s)) in *.
  match goal with |- wp (set p (setFieldU32 _ ?x);; _) _ _ => assert (x = saturated amount (fields s)) as -> end.
  { unfold saturated, u32, uwrap. fold cur. destruct (Z.ltb_spec 0 amount).
    - destruct (Z.lt_ge_cases (cur + amount) (2 ^ 32)).
      + rewrite Z.mod_small by lia. destruct (Z.ltb_spec (cur + amount) cur); lia.
      + replace ((cur + amount) mod 2 ^ 32) with (cur + amount - 2 ^ 32)
          by (apply Z.mod_unique with 1; lia).
        destruct (Z.ltb_spec (cur + amount - 2 ^ 32) cur); lia.
    - destruct (Z.lt_ge_cases (cur + amount) 0).
      + replace ((cur + amount) mod 2 ^ 32) with (cur + amount + 2 ^ 32)
          by (apply Z.mod_unique with (-1); lia).
        destruct (Z.ltb_spec cur (cur + amount + 2 ^ 32)); lia.
      + rewrite Z.mod_small by lia. destruct (Z.ltb_spec cur (cur + amount)); lia. }
  apply wp_bind. eapply wp_set; [done..|]. intros v1 H1.
  eapply wp_update; [done|done|apply lookup_insert_eq|]. intros v2 H2. apply Hg. by rewrite settled in H2.
Qed.

(** ** Owner directories *)

(** Pointers to entries outside of the directories are still good. *)
Record kept hs D hs' D' : Prop := {
  kept_handles p k : outside A k → hs !! p = Some k → hs' !! p = Some k;
  kept_known k : outside A k → k ∈ D → k ∈ D'
}.

Lemma kept_sub hs D hs' D' : hs ⊆ hs' → D ⊆ D' → kept hs D hs' D'.
Proof using Type. intros Hh HD. split; [intros p k _ Hp; by eapply lookup_weaken|intros k _; apply HD]. Qed.

Lemma sheet_kept_trans hs D hs1 D1 hs2 D2 : kept hs D hs1 D1 → kept hs1 D1 hs2 D2 → kept hs D hs2 D2.
Proof using Type. intros [] []. split; auto. Qed.

(** The two ledgers have the same entries outside of the directories. *)
Definition same_outside m m' : Prop := ∀ k, outside A k → m' !! k = m !! k.

Lemma dirAdd_owner X dirs m hs K D v a x :
  state c v0 m hs K D v → ledger A X dirs m → a ∈ A → (∀ k, k ∈ K → outside A k) →
  wp (dirAdd (getOwnerDirIndex a) x (describeOwnerDir a)) v (λ r v',
    (r.1 = tesSUCCESS ∧ ∃ pages m' hs' D',
       state c v0 m' hs' K D' v' ∧ kept hs D hs' D' ∧ ledger A X (<[a := pages]> dirs) m' ∧
       listed pages r.2 x ∧ stays (dirs a) pages ∧ same_outside m m') ∨
    (r.1 = tecDIR_FULL ∧ has (dirs a) (2 ^ 64 - 1))).
Proof using AP Hbase.
  intros Hst HL Ha HK. pose proof (owner_dir_laws A a Ha) as PL.
  eapply wp_mono.
  { apply (dirAdd_ok (getOwnerDirIndex a) c v0 Hbase K (λ k Hk, HK k Hk a Ha) (dirs a) m hs D);
      [done|by apply (ledger_dir _ _ _ _ HL)|apply describeOwnerDir_keeps]. }
  intros r v' (m' & hs' & D' & Hh & HD & Hst' & [(E & pages & Hrep & Hsame & _ & Hin & Hstay)|(E & -> & Hfull)]).
  - left. split; [done|]. exists pages, m', hs', D'. split; [done|]. split; [by apply kept_sub|].
    split; [|split; [done|split; [done|intros k Hk; by apply Hsame, Hk]]].
    eapply ledger_set_dir; [done..|set_solver|]. intros n y _. apply Hstay.
  - by right.
Qed.

Lemma dirDelete_owner X dirs m hs K D v a n x bKeepRoot bStable bSoft :
  state c v0 m hs K D v → ledger A X dirs m → a ∈ A → (∀ k, k ∈ K → outside A k) → listed (dirs a) n x →
  wp (dirDelete bKeepRoot n (getOwnerDirIndex a) x bStable bSoft) v (λ ter v',
    ter = tesSUCCESS ∧ ∃ pages m' hs' D',
      state c v0 m' hs' K D' v' ∧ kept hs D hs' D' ∧ ledger A ({[x]} ∪ X) (<[a := pages]> dirs) m' ∧
      same_outside m m').
Proof using AP Hbase.
  intros Hst HL Ha HK Hin. pose proof (owner_dir_laws A a Ha) as PL. pose proof (ledger_dir _ _ _ _ HL a Ha) as Hrep.
  assert (is_u64 n) as Hu by (destruct Hin as (l & Hl & _); by destruct (rep_range _ _ _ Hrep n l Hl)).
  eapply wp_mono.
  { by apply (dirDelete_from_ok (getOwnerDirIndex a) c v0 Hbase K (λ k Hk, HK k Hk a Ha) (Z.to_nat (20 - n)) (dirs a) m hs D). }
  intros ter v' [(-> & _ & pages & m' & hs' & D' & [Hh HD] & Hst' & Hrep' & Hsame & _ & _ & Hstay)|(-> & Hno & _)].
  - split; [done|]. exists pages, m', hs', D'. split; [done|].
    split; [split; intros; auto|]. split; [|intros k Hk; by apply Hsame, Hk].
    eapply ledger_set_dir; [done..|set_solver|]. intros n' y Hy. apply Hstay. set_solver.
  - exfalso. apply (Hno n). split; [done|]. split; [by left|]. split; [done|]. lia.
Qed.

(** ** Deleting a line *)

Lemma trustDelete_ok dirs m hs K D v p a b cur s :
  state c v0 m hs K D v → ledger A ∅ dirs m → a ∈ A → b ∈ A → a < b → is_id cur →
  hs !! p = Some (line_index a b cur) → m !! line_index a b cur = Some s → K ⊆ {[line_index a b cur]} →
  wp (trustDelete p a b) v (λ ter v',
    ter = tesSUCCESS ∧ ∃ dirs' m' hs' D',
      state c v0 m' hs' ∅ D' v' ∧ ledger A ∅ dirs' m' ∧ same_outside (delete (line_index a b cur) m) m').
Proof using AP Hbase.
  intros Hst HL Ha Hb Hlt Hc Hp Hs HK. set (idx := line_index a b cur) in *.
  assert (outside A idx) as Hout by (by apply line_outside).
  assert (∀ k, k ∈ K → outside A k) as HKo by (intros k Hk%HK; by apply elem_of_singleton in Hk as ->).
  destruct (ledger_line _ _ _ _ HL a b cur s Ha Hb Hlt Hc) as [_ _ _ Hlow Hhigh]; [set_solver|done|].
  unfold trustDelete. do 4 (eapply wp_get_bind; [done..|]). eapply wp_getIndex; [done..|].
  apply wp_bind. eapply wp_mono; [by eapply dirDelete_owner|]. cbn beta.
  intros ter v1 (-> & pages1 & m1 & hs1 & D1 & H1 & K1 & L1 & S1). rewrite (bool_decide_true (tesSUCCESS = tesSUCCESS)) by done.
  apply wp_bind. eapply wp_mono.
  { eapply (dirDelete_owner _ _ m1 hs1 K D1 v1 b); [done|done|done|done|]. by rewrite fn_lookup_insert_ne by lia. }
  cbn beta. intros ter v2 (-> & pages2 & m2 & hs2 & D2 & H2 & K2 & L2 & S2).
  apply wp_bind. eapply wp_erase; [done|by apply K2; [|apply K1]|by rewrite S2, S1 by done|].
  intros v3 H3. apply wp_ret. split; [done|]. eexists _, (delete idx m2), _, _.
  replace (K ∖ {[idx]}) with (∅ : gset Z) in H3 by set_solver. split; [done|]. split.
  - replace (∅ : gset Z) with (({[idx]} ∪ ({[idx]} ∪ ∅)) ∖ {[idx]} : gset Z) by set_solver. by apply ledger_delete_line.
  - intros k Hk. destruct (decide (k = idx)) as [->|]; [by rewrite !lookup_delete_eq|].
    rewrite !lookup_delete_ne by done. by rewrite S2, S1.
Qed.

(** ** Creating a line *)

(** [if (b) p->setField... ()] *)
Lemma wp_when_set {B} m hs K D v p k s (b : bool) (f : STObject → STObject) (g : prog STObject V B) Q :
  state c v0 m hs K D v → hs !! p = Some k → m !! k = Some s → k ∉ K → k ∈ D →
  (∀ v', state c v0 (<[k := with_fields s (λ o, if b then f o else o)]> m) hs K D v' → wp g v' Q) →
  wp (when b (set p f);; g) v Q.
Proof using Type.
  intros Hst Hp Hs HK HD Hg. destruct b; cbn [when]; [by eapply wp_set_known|].
  apply wp_bind, wp_ret, Hg. by rewrite insert_id by (by destruct s).
Qed.

(** The flags of a new line: [bSetHigh] says which side sets them. *)
Definition new_flags (bSetHigh bAuth bNoRipple bFreeze : bool) : Z :=
  let uFlags := if bSetHigh then lsfHighReserve else lsfLowReserve in
  let uFlags := if bAuth then Z.lor uFlags (if bSetHigh then lsfHighAuth else lsfLowAuth) else uFlags in
  let uFlags := if bNoRipple then Z.lor uFlags (if bSetHigh then lsfHighNoRipple else lsfLowNoRipple) else uFlags in
  if bFreeze then Z.lor uFlags (if bSetHigh then lsfHighFreeze else lsfLowFreeze) else uFlags.

(** A new line: the side that sets it has the limit, and the other none. *)
Record new_line (bSetHigh bAuth bNoRipple bFreeze : bool) (peer : AccountID) (saBalance saLimit : Amt.STAmount)
    (uLowNode uHighNode : Z) (s : SLE STObject) : Prop := {
  nl_type : sle_type s = ltRIPPLE_STATE;
  nl_balance : getFieldAmount sfBalance (fields s) = if bSetHigh then Amt.neg saBalance else saBalance;
  nl_limit : getFieldAmount (if bSetHigh then sfHighLimit else sfLowLimit) (fields s) = saLimit;
  nl_peer_limit : getFieldAmount (if bSetHigh then sfLowLimit else sfHighLimit) (fields s) =
    Amt.zero_of (mkIssue (currency_of saBalance) peer);
  nl_flags : getFieldU32 sfFlags (fields s) = new_flags bSetHigh bAuth bNoRipple bFreeze;
  nl_low_node : getFieldU64 sfLowNode (fields s) = uLowNode;
  nl_high_node : getFieldU64 sfHighNode (fields s) = uHighNode
}.

Lemma account_lookup X dirs m a :
  ledger A X dirs m → a ∈ A →
  ∃ s, m !! getAccountRootIndex a = Some s ∧ account_ok s ∧ lookup_keylet m (keylet.account a) = Some s.
Proof using Type.
  intros HL Ha. destruct (ledger_account _ _ _ _ HL a Ha) as (s & Hs & Hok). exists s. split; [done|].
  split; [done|]. unfold lookup_keylet, check. cbn [k_key k_type keylet.account]. rewrite Hs. destruct Hok as [Ht _].
  by rewrite Ht.
Qed.

Lemma trustCreate_set_ok dirs m hs D v p q (bSrcHigh : bool) (src dst : AccountID) cur s sa setter bAuth bNoRipple bFreeze
    saBalance saLimit uQualityIn uQualityOut uLowNode uHighNode :
  let lo := if bSrcHigh then dst else src in
  let hi := if bSrcHigh then src else dst in
  let idx := line_index lo hi cur in
  let bSetHigh := xorb bSrcHigh (setter =? dst) in
  state c v0 m hs ∅ D v → ledger A {[idx]} dirs m → src ∈ A → dst ∈ A → is_id cur →
  m !! idx = Some s → sle_type s = ltRIPPLE_STATE → idx ∈ D → hs !! p = Some idx →
  setter = src ∨ setter = dst → hs !! q = Some (getAccountRootIndex setter) → m !! getAccountRootIndex setter = Some sa →
  issuer saLimit = setter → assetCurrency ≠ currency_of saLimit →
  wp (trustCreate_set bSrcHigh src dst p (Some q) bAuth bNoRipple bFreeze saBalance saLimit
        uQualityIn uQualityOut uLowNode uHighNode) v (λ ter v',
    ter = tesSUCCESS ∧ ∃ s' hs' D',
      state c v0 (<[idx := s']> (<[getAccountRootIndex setter := adjusted 1 sa]> m)) hs' ∅ D' v' ∧
      new_line bSetHigh bAuth bNoRipple bFreeze (if setter =? dst then src else dst) saBalance saLimit
        uLowNode uHighNode s').
Proof using AP Hbase.
  intros lo hi idx bSetHigh Hst HL Hsrc Hdst Hc Hs Ht HD Hp Hset Hq Hsa Hiss Hcur.
  assert (lo ∈ A ∧ hi ∈ A) as [Hlo Hhi] by (unfold lo, hi; by destruct bSrcHigh).
  assert (setter ∈ A) as HsetA by (by destruct Hset as [-> | ->]).
  assert (idx ≠ getAccountRootIndex setter) as Hne by (by apply (line_not_account A)).
  unfold trustCreate_set. rewrite Hiss. fold lo hi bSetHigh. rewrite (proj2 (Z.eqb_neq _ _) Hcur), orb_false_r.
  destruct (account_lookup _ _ _ (if bSetHigh then lo else hi) HL) as (sp & _ & _ & Hsp); [by destruct bSetHigh|].
  eapply wp_peek_some; [done..|]. intros pp v1 Hsub H1.
  pose proof (lookup_weaken _ _ _ _ Hp Hsub) as Hp1. pose proof (lookup_weaken _ _ _ _ Hq Hsub) as Hq1.
  do 4 (eapply wp_set_known; [done|done|first [done|apply lookup_insert_eq]|set_solver|done|]; intros ? ?).
  do 2 (eapply wp_when_set; [done|done|apply lookup_insert_eq|set_solver|done|]; intros ? ?).
  eapply wp_set_known; [done|done|apply lookup_insert_eq|set_solver|done|]. intros v2 St2.
  rewrite !insert_insert_eq in St2. apply wp_bind, wp_ret.
  destruct (ledger_account _ _ _ _ HL setter HsetA) as (sa' & Hsa' & Hok). assert (sa' = sa) as -> by congruence.
  eapply wp_adjustOwnerCount; [done|done|by rewrite lookup_insert_ne|set_solver|done|lia|lia|]. intros v3 St3.
  eapply wp_set_known; [done|done|by rewrite lookup_insert_ne by done; apply lookup_insert_eq|set_solver|set_solver|].
  intros v4 St4. cbn [when]. apply wp_bind, wp_ret, wp_bind, wp_ret, wp_ret. split; [done|].
  rewrite (insert_insert_ne m (getAccountRootIndex setter) idx) in St4 by done. rewrite insert_insert_eq in St4.
  eexists _, _, _. split; [done|]. clear -Ht. destruct bSetHigh, (negb _), (negb _); split; try done; by read_fields.
Qed.

Lemma new_line_ok dirs a b cur bSetHigh bAuth bNoRipple bFreeze peer saBalance saLimit uLowNode uHighNode s :
  new_line bSetHigh bAuth bNoRipple bFreeze peer saBalance saLimit uLowNode uHighNode s →
  AmtFacts.wf saBalance → currency_of saBalance = cur →
  listed (dirs a) uLowNode (line_index a b cur) → listed (dirs b) uHighNode (line_index a b cur) →
  line_ok dirs a b cur s.
Proof using Type.
  intros [Ht Hbal _ _ _ Hln Hhn] Hwf Hcur Hl Hh. split; [done| | |by rewrite Hln|by rewrite Hhn]; rewrite Hbal.
  - destruct bSetHigh; [by apply wf_neg|done].
  - rewrite <- Hcur. destruct bSetHigh; [|done]. unfold Amt.neg, currency_of. by destruct (_ =? 0).
Qed.

(** A new line is listed in both directories, and its setter owns one entry more. *)
Lemma trustCreate_ok dirs m hs D v q (bSrcHigh : bool) (src dst : AccountID) cur sa setter bAuth bNoRipple bFreeze
    saBalance saLimit uQualityIn uQualityOut :
  let lo := if bSrcHigh then dst else src in
  let hi := if bSrcHigh then src else dst in
  let idx := line_index lo hi cur in
  state c v0 m hs ∅ D v → ledger A ∅ dirs m → src ∈ A → dst ∈ A → lo < hi → is_id cur → m !! idx = None →
  setter = src ∨ setter = dst → hs !! q = Some (getAccountRootIndex setter) → m !! getAccountRootIndex setter = Some sa →
  issuer saLimit = setter → assetCurrency ≠ currency_of saLimit → AmtFacts.wf saBalance → currency_of saBalance = cur →
  wp (trustCreate bSrcHigh src dst idx (Some q) bAuth bNoRipple bFreeze saBalance saLimit uQualityIn uQualityOut) v
    (λ ter v',
      (ter = tesSUCCESS ∧ ∃ dirs' m' hs' D' s n n',
        state c v0 m' hs' ∅ D' v' ∧ ledger A ∅ dirs' m' ∧
        same_outside (<[idx := s]> (<[getAccountRootIndex setter := adjusted 1 sa]> m)) m' ∧
        new_line (xorb bSrcHigh (setter =? dst)) bAuth bNoRipple bFreeze (if setter =? dst then src else dst)
          saBalance saLimit n n' s) ∨
      (ter = tecDIR_FULL ∧ (has (dirs src) (2 ^ 64 - 1) ∨ has (dirs dst) (2 ^ 64 - 1)))).
Proof using AP Hbase.
  intros lo hi idx Hst HL Hsrc Hdst Hlt Hc Hnone Hset Hq Hsa Hiss Hcur Hwf Hcb.
  assert (lo ∈ A ∧ hi ∈ A) as [Hlo Hhi] by (unfold lo, hi; by destruct bSrcHigh).
  assert (setter ∈ A) as HsetA by (by destruct Hset as [-> | ->]).
  assert (idx ≠ getAccountRootIndex setter) as Hne by (by apply (line_not_account A)).
  assert (outside A idx) as Hout by (by apply line_outside).
  assert (outside A (getAccountRootIndex setter)) as Houts by (by apply account_outside).
  assert (∀ x n, x = lo ∨ x = hi → has (dirs x) n → has (dirs src) n ∨ has (dirs dst) n) as Hhas.
  { unfold lo, hi. intros x n Hx. destruct bSrcHigh, Hx as [-> | ->]; auto. }
  unfold trustCreate. fold lo hi.
  eapply wp_make_insert_clean; [done|done|set_solver|]. intros p v1 Hsub H1. cbn [k_key k_type keylet.line_key] in *.
  set (m1 := <[idx := mkSLE idx ltRIPPLE_STATE empty_object]> m) in *.
  assert (ledger A {[idx]} dirs m1) as L1.
  { replace ({[idx]} : gset Z) with ({[idx]} ∪ ∅ : gset Z) by set_solver. by apply ledger_set_unlisted. }
  apply wp_bind. eapply wp_mono; [eapply (dirAdd_owner _ _ _ _ _ _ _ lo); [done|done|done|set_solver]|]. cbn beta.
  intros r1 v2 [(-> & pg1 & m2 & hs2 & D2 & H2 & K2 & L2 & In2 & St2 & S2)|(-> & Hfull)]; cbn [negb];
    [rewrite bool_decide_true by done|apply wp_ret; right; split; [done|]; by eapply Hhas; [left|]]. cbn [negb].
  apply wp_bind. eapply wp_mono; [eapply (dirAdd_owner _ _ _ _ _ _ _ hi); [done|done|done|set_solver]|]. cbn beta.
  intros r2 v3 [(-> & pg2 & m3 & hs3 & D3 & H3 & K3 & L3 & In3 & St3 & S3)|(-> & Hfull)];
    [rewrite bool_decide_true by done
    |rewrite fn_lookup_insert_ne in Hfull by lia; apply wp_ret; right; split; [done|]; by eapply Hhas; [right|]].
  cbn [negb]. eapply wp_mono.
  { eapply (trustCreate_set_ok _ m3 hs3 D3 v3 p q bSrcHigh src dst cur (mkSLE idx ltRIPPLE_STATE empty_object) sa setter);
      try done.
    - rewrite S3, S2 by done. apply lookup_insert_eq.
    - apply K3, K2; [done..|set_solver].
    - apply K3, K2; [done..|apply lookup_insert_eq].
    - apply K3, K2; [done..|by eapply lookup_weaken].
    - rewrite S3, S2 by done. unfold m1. by rewrite lookup_insert_ne. }
  cbn beta. intros ter v4 (-> & s & hs4 & D4 & H4 & Hnew). left. split; [done|].
  eexists _, _, hs4, D4, s, _, _. split; [done|]. split; [|split; [|done]].
  - replace (∅ : gset Z) with ({[idx]} ∖ {[idx]} : gset Z) by set_solver. apply ledger_set_line; try done.
    + apply ledger_set_account; [done..|]. apply adjusted_ok.
      destruct (ledger_account _ _ _ _ HL setter HsetA) as (sa' & Hsa' & Hok). congruence.
    + eapply new_line_ok; [done..| |].
      * rewrite fn_lookup_insert_ne, fn_lookup_insert by lia. done.
      * by rewrite fn_lookup_insert.
  - intros k Hk. destruct (decide (k = idx)) as [->|]; [by rewrite !lookup_insert_eq|]. rewrite !(lookup_insert_ne _ idx) by done.
    destruct (decide (k = getAccountRootIndex setter)) as [->|]; [by rewrite !lookup_insert_eq|].
    rewrite !(lookup_insert_ne _ (getAccountRootIndex setter)) by done. rewrite S3, S2 by done.
    unfold m1. by rewrite lookup_insert_ne.
Qed.

(** ** Moving a balance *)

(** The balance as the sender sees it, and back. *)
Definition side (bSenderHigh : bool) (a : Amt.STAmount) : Amt.STAmount := if bSenderHigh then Amt.negate a else a.

(** A side of a line holds a reserve, in bit 16 of the flags for the low and bit 17
    for the high one; it asks for nothing if it has not frozen the other side (bits
    22 and 23), has no limit and takes the balance at face value. *)
Definition reserve_bit (high : bool) : Z := if high then 17 else 16.

Definition owns_reserve (high : bool) (o : STObject) : bool := Z.testbit (getFieldU32 sfFlags o) (reserve_bit high).

Definition default_side (high : bool) (o : STObject) : bool :=
  negb (Z.testbit (getFieldU32 sfFlags o) (if high then 23 else 22)) &&
  Amt.is_zero (getFieldAmount (if high then sfHighLimit else sfLowLimit) o) &&
  (getFieldU32 (if high then sfHighQualityIn else sfLowQualityIn) o =? 0) &&
  (getFieldU32 (if high then sfHighQualityOut else sfLowQualityOut) o =? 0).

(** The sender has nothing left to claim and needs its side no more. *)
Definition returns_reserve (bSenderHigh : bool) (before after : Amt.STAmount) (o : STObject) : bool :=
  (0 <? Amt.signum before) && (Amt.signum after <=? 0) && owns_reserve bSenderHigh o && default_side bSenderHigh o.

Lemma reserve_cleared_spec bSenderHigh before after o :
  reserve_cleared bSenderHigh before after o = returns_reserve bSenderHigh before after o.
Proof using Type.
  unfold reserve_cleared, returns_reserve, owns_reserve, default_side, reserve_bit.
  destruct bSenderHigh; unfold lsfHighReserve, lsfLowReserve, lsfHighFreeze, lsfLowFreeze.
  - rewrite (flag_testbit _ 17), (flag_testbit _ 23), negb_involutive by done. by rewrite !andb_assoc.
  - rewrite (flag_testbit _ 16), (flag_testbit _ 22), negb_involutive by done. by rewrite !andb_assoc.
Qed.

Lemma clear_reserve_spec bSenderHigh x : clear_reserve bSenderHigh x = Z.clearbit x (reserve_bit bSenderHigh).
Proof using Type. by destruct bSenderHigh. Qed.

(** The line is deleted: both sides are in the default state. *)
Definition deletes (bSenderHigh : bool) (before after : Amt.STAmount) (o : STObject) : bool :=
  returns_reserve bSenderHigh before after o && Amt.is_zero after && negb (owns_reserve (negb bSenderHigh) o).

(** The line once the sender's balance has changed. *)
Definition moved (bSenderHigh : bool) (before after : Amt.STAmount) (s : SLE STObject) : SLE STObject :=
  with_fields s (λ o, setFieldAmount sfBalance (side bSenderHigh after)
    (if returns_reserve bSenderHigh before after o
     then setFieldU32 sfFlags (Z.clearbit (getFieldU32 sfFlags o) (reserve_bit bSenderHigh)) o else o)).

(** The entries other than pages once the sender's balance has changed. *)
Definition credited (bSenderHigh : bool) (sender : AccountID) (idx : Z) (s : SLE STObject) (after : Amt.STAmount) m :=
  let before := side bSenderHigh (getFieldAmount sfBalance (fields s)) in
  let m1 := if returns_reserve bSenderHigh before after (fields s)
            then alter (adjusted (-1)) (getAccountRootIndex sender) m else m in
  if deletes bSenderHigh before after (fields s) then delete idx m1
  else <[idx := moved bSenderHigh before after s]> m1.

Lemma alter_insert m k s f : m !! k = Some s → alter f k m = <[k := f s]> m.
Proof using Type.
  intros Hs. apply map_eq. intros k'. destruct (decide (k' = k)) as [->|].
  - by rewrite lookup_alter_eq, lookup_insert_eq, Hs.
  - by rewrite lookup_alter_ne, lookup_insert_ne by done.
Qed.

(** The end of a transfer. *)
Lemma settle_ok dirs m hs K D v p a b cur s bal (bDelete : bool) :
  let idx := line_index a b cur in
  state c v0 m hs K D v → ledger A ∅ dirs m → a ∈ A → b ∈ A → a < b → is_id cur → K ⊆ {[idx]} →
  hs !! p = Some idx → m !! idx = Some s → AmtFacts.wf bal → currency_of bal = cur →
  wp (set p (setFieldAmount sfBalance bal);;
      if bDelete then trustDelete p a b else update p;; ret tesSUCCESS) v (λ ter v',
    ter = tesSUCCESS ∧ ∃ dirs' m' hs' D', state c v0 m' hs' ∅ D' v' ∧ ledger A ∅ dirs' m' ∧
      same_outside (if bDelete then delete idx m else <[idx := with_fields s (setFieldAmount sfBalance bal)]> m) m').
Proof using AP Hbase.
  intros idx Hst HL Ha Hb Hlt Hc HK Hp Hs Hwf Hcur. apply wp_bind. eapply wp_set; [done..|]. intros v1 H1.
  set (s1 := with_fields s (setFieldAmount sfBalance bal)) in *.
  assert (ledger A ∅ dirs (<[idx := s1]> m)) as L1.
  { apply ledger_change_line; [done..|].
    destruct (ledger_line _ _ _ _ HL a b cur s Ha Hb Hlt Hc) as [Ht _ _ Hlo Hhi]; [set_solver|done|].
    unfold s1; split; [done|by read_fields|by read_fields|done|done]. }
  destruct bDelete.
  - eapply wp_mono; [eapply trustDelete_ok; [done..|apply lookup_insert_eq|set_solver]|]. cbn beta.
    intros ter v2 (-> & dirs' & m' & hs' & D' & H2 & L2 & S2). split; [done|]. exists dirs', m', hs', D'.
    by rewrite delete_insert_eq in S2.
  - apply wp_bind. eapply wp_update; [done|done|apply lookup_insert_eq|]. intros v2 H2. apply wp_ret. split; [done|].
    replace (({[idx]} ∪ K) ∖ {[idx]}) with (∅ : gset Z) in H2 by set_solver. by eexists _, _, _, _.
Qed.

(** The sender's side of the line does not need its reserve any more. *)
Lemma clear_ok {B} m hs D v p q k sender s sa x (g : prog STObject V B) Q :
  state c v0 m hs ∅ D v → hs !! p = Some k → m !! k = Some s → hs !! q = Some (getAccountRootIndex sender) →
  m !! getAccountRootIndex sender = Some sa → account_ok sa → k ≠ getAccountRootIndex sender →
  (∀ v', state c v0 (<[k := with_fields s (setFieldU32 sfFlags x)]> (alter (adjusted (-1)) (getAccountRootIndex sender) m))
     hs {[k]} ({[getAccountRootIndex sender]} ∪ D) v' → wp g v' Q) →
  wp (adjustOwnerCount q (-1);; set p (setFieldU32 sfFlags x);; g) v Q.
Proof using Type.
  intros Hst Hp Hs Hq Hsa Hok Hne Hg.
  eapply wp_adjustOwnerCount; [done|done|done|apply not_elem_of_empty|done|lia|lia|]. intros v1 H1.
  apply wp_bind. eapply wp_set; [done|done|by rewrite lookup_insert_ne|]. intros v2 H2. apply Hg.
  rewrite (alter_insert m _ sa) by done. by rewrite (right_id_L ∅ (∪)) in H2.
Qed.

Lemma credited_kept (bSenderHigh : bool) sender idx s after m :
  reserve_cleared bSenderHigh (side bSenderHigh (getFieldAmount sfBalance (fields s))) after (fields s) = false →
  credited bSenderHigh sender idx s after m =
    <[idx := with_fields s (setFieldAmount sfBalance (side bSenderHigh after))]> m.
Proof using Type. rewrite reserve_cleared_spec. intros E. unfold credited, deletes, moved, with_fields. by rewrite E. Qed.

Lemma credited_cleared (bSenderHigh : bool) sender idx s s' after m :
  let o := fields s in
  let del := Amt.is_zero after && (Z.land (getFieldU32 sfFlags o) (if bSenderHigh then lsfLowReserve else lsfHighReserve) =? 0) in
  reserve_cleared bSenderHigh (side bSenderHigh (getFieldAmount sfBalance o)) after o = true →
  s' = with_fields s (setFieldU32 sfFlags (clear_reserve bSenderHigh (getFieldU32 sfFlags o))) →
  let m1 := <[idx := s']> (alter (adjusted (-1)) (getAccountRootIndex sender) m) in
  credited bSenderHigh sender idx s after m =
    if del then delete idx m1 else <[idx := with_fields s' (setFieldAmount sfBalance (side bSenderHigh after))]> m1.
Proof using Type.
  intros o del. rewrite reserve_cleared_spec, clear_reserve_spec. intros E -> m1. unfold credited, deletes, moved, with_fields, m1.
  fold o. rewrite E. cbn [andb].
  replace (Amt.is_zero after && negb (owns_reserve (negb bSenderHigh) o)) with del; [destruct del|]; [by rewrite delete_insert_eq|by rewrite insert_insert_eq|].
  unfold del, owns_reserve, reserve_bit. by destruct bSenderHigh; rewrite <- flag_testbit by done.
Qed.

(** The balance of the line of two accounts has been moved. *)
Definition line_moved (bSenderHigh : bool) sender idx s after m (ter : TER) v : Prop :=
  ter = tesSUCCESS ∧ ∃ dirs m' hs D, state c v0 m' hs ∅ D v ∧ ledger A ∅ dirs m' ∧
    same_outside (credited bSenderHigh sender idx s after m) m'.

(** The line between a sender and a receiver. *)
Definition line_of (bSenderHigh : bool) (sender receiver : AccountID) (cur : Currency) : Z :=
  if bSenderHigh then line_index receiver sender cur else line_index sender receiver cur.

Lemma line_of_index sender receiver cur :
  sender ≠ receiver → getRippleStateIndex sender receiver cur = line_of (receiver <? sender) sender receiver cur.
Proof using Type.
  intros Hne. unfold getRippleStateIndex, line_of, line_index.
  destruct (Z.ltb_spec sender receiver), (Z.ltb_spec receiver sender); done || lia.
Qed.

Section transfer.
Context (sender receiver : AccountID) (cur : Currency).
Context (Hs : sender ∈ A) (Hr : receiver ∈ A) (Hne : sender ≠ receiver) (Hc : is_id cur).
#[local] Abbreviation bSenderHigh := (receiver <? sender).
#[local] Abbreviation idx := (line_of bSenderHigh sender receiver cur).

(** The low and the high side. *)
Lemma transfer_sides :
  ∃ a b, a ∈ A ∧ b ∈ A ∧ a < b ∧ idx = line_index a b cur ∧
    (if bSenderHigh then receiver else sender) = a ∧ (if bSenderHigh then sender else receiver) = b.
Proof using Hs Hr Hne.
  unfold line_of. destruct (Z.ltb_spec receiver sender).
  - by exists receiver, sender.
  - exists sender, receiver. split_and!; try done. lia.
Qed.

(** What is left once the reserve has been looked at. *)
Lemma transfer_end dirs m hs K D v p s s1 m1 after (bDelete : bool) :
  ledger A ∅ dirs m → m !! idx = Some s → m1 !! idx = Some s1 → ledger A ∅ dirs m1 →
  state c v0 m1 hs K D v → K ⊆ {[idx]} → hs !! p = Some idx →
  AmtFacts.wf after → currency_of after = cur →
  (if bDelete then delete idx m1
   else <[idx := with_fields s1 (setFieldAmount sfBalance (side bSenderHigh after))]> m1) =
    credited bSenderHigh sender idx s after m →
  wp (set p (setFieldAmount sfBalance (side bSenderHigh after));;
      if bDelete then trustDelete p (if bSenderHigh then receiver else sender) (if bSenderHigh then sender else receiver)
      else update p;; ret tesSUCCESS) v (line_moved bSenderHigh sender idx s after m).
Proof using AP Hbase Hs Hr Hne Hc.
  intros HL Hm Hm1 L1 H1 HK Hp Hwf Hcur E. unfold line_moved. rewrite <- E.
  destruct transfer_sides as (a & b & Ha & Hb & Hlt & Ei & -> & ->). rewrite Ei in *.
  eapply settle_ok; try done.
  - by apply side_wf.
  - rewrite <- Hcur. unfold currency_of, side. by rewrite side_issue.
Qed.

(** The ledger when the flag has been cleared but the balance is the old one. *)
Lemma cleared_ledger dirs m s x :
  ledger A ∅ dirs m → m !! idx = Some s →
  ledger A ∅ dirs (<[idx := with_fields s (setFieldU32 sfFlags x)]> (alter (adjusted (-1)) (getAccountRootIndex sender) m)).
Proof using AP Hs Hr Hne Hc.
  intros HL Hm. destruct transfer_sides as (a & b & Ha & Hb & Hlt & Ei & _). rewrite Ei in *.
  destruct (ledger_account _ _ _ _ HL sender Hs) as (sa & Hsa & Hok). rewrite (alter_insert m _ sa) by done.
  apply ledger_change_line; try done.
  - by apply ledger_set_account; [..|apply adjusted_ok].
  - destruct (ledger_line _ _ _ _ HL a b cur s Ha Hb Hlt Hc) as [Ht Hw Hcu Hlo Hhi]; [apply not_elem_of_empty|done|]. by split.
Qed.

Lemma line_lookup dirs m s :
  ledger A ∅ dirs m → m !! idx = Some s → lookup_keylet m (keylet.line_key idx) = Some s.
Proof using Hs Hr Hne Hc.
  intros HL Hm. destruct transfer_sides as (a & b & Ha & Hb & Hlt & Ei & _). rewrite Ei in *.
  destruct (ledger_line _ _ _ _ HL a b cur s Ha Hb Hlt Hc) as [Ht _ _ _ _]; [apply not_elem_of_empty|done|].
  unfold lookup_keylet, check. cbn [k_key k_type keylet.line_key]. by rewrite Hm, Ht.
Qed.

Lemma transfer_not_account : idx ≠ getAccountRootIndex sender.
Proof using AP Hs Hr Hne Hc.
  destruct transfer_sides as (a & b & Ha & Hb & _ & -> & _). by apply (line_not_account A).
Qed.

(** [rippleCredit] on a line that exists. *)
Lemma rippleCredit_line dirs m hs D v s saAmount after fuel :
  state c v0 m hs ∅ D v → ledger A ∅ dirs m → m !! idx = Some s → currency_of saAmount = cur → cur ≠ assetCurrency →
  Amt.sub (side bSenderHigh (getFieldAmount sfBalance (fields s))) saAmount = Ok after →
  AmtFacts.wf after → currency_of after = cur →
  wp (rippleCredit info fuel sender receiver saAmount) v (line_moved bSenderHigh sender idx s after m).
Proof using AP Hbase Hs Hr Hne Hc.
  intros Hst HL Hm Hcur Hasset Hsub Hwf Hca. unfold rippleCredit. rewrite Hcur, line_of_index by done.
  eapply wp_peek_some; [done|done|by eapply line_lookup|]. intros p v1 Hsub1 H1. cbn [k_key keylet.line_key] in *.
  unfold issueAsset. rewrite (proj2 (Z.eqb_neq _ _) Hasset). cbn [negb].
  apply wp_bind, wp_ret. cbn [fst]. apply wp_bind, wp_ret.
  eapply wp_get_bind; [done|apply lookup_insert_eq|done|]. apply wp_bind. unfold StateMonad.lift, wp at 1.
  fold (side bSenderHigh (getFieldAmount sfBalance (fields s))). rewrite Hsub. cbn [rbind].
  do 2 (eapply wp_get_bind; [done|apply lookup_insert_eq|done|]). apply wp_bind.
  destruct (reserve_cleared bSenderHigh _ after (fields s)) eqn:Ecl.
  - destruct (account_lookup _ _ _ sender HL Hs) as (sa & Hsa & Hok & Hka). unfold adjustOwner.
    apply wp_bind. eapply wp_peek_some; [done..|]. intros q v2 Hsub2 H2. apply wp_bind, wp_ret. cbn [k_key keylet.account] in *.
    apply wp_bind_inv. eapply (clear_ok _ _ _ _ p q);
      [done|by eapply lookup_weaken; [apply lookup_insert_eq|]|done|apply lookup_insert_eq|done|done|by apply transfer_not_account|].
    intros v3 H3. apply wp_ret. eapply transfer_end;
      [done|done|apply lookup_insert_eq|by apply cleared_ledger|done|done|by eapply lookup_weaken; [apply lookup_insert_eq|]|done|done|].
    by rewrite (credited_cleared bSenderHigh sender idx s _ after m Ecl eq_refl).
  - apply wp_ret. eapply (transfer_end _ _ _ _ _ _ p _ _ _ _ false); [done|done|done|done|done|set_solver|apply lookup_insert_eq|done|done|].
    by rewrite credited_kept.
Qed.

(** The same by way of [updateTrustLine]. *)
Lemma debit_ok dirs m hs D v p s amount after :
  state c v0 m hs ∅ D v → ledger A ∅ dirs m → m !! idx = Some s → hs !! p = Some idx →
  Amt.sub (side bSenderHigh (getFieldAmount sfBalance (fields s))) amount = Ok after →
  AmtFacts.wf after → currency_of after = cur →
  wp (debit p bSenderHigh sender receiver amount) v (line_moved bSenderHigh sender idx s after m).
Proof using AP Hbase Hs Hr Hne Hc.
  intros Hst HL Hm Hp Hsub Hwf Hca. unfold debit. eapply wp_get_bind; [done..|]. apply wp_bind. unfold StateMonad.lift, wp at 1.
  fold (side bSenderHigh (getFieldAmount sfBalance (fields s))). rewrite Hsub. cbn [rbind].
  apply wp_bind. unfold updateTrustLine. eapply wp_get_bind; [done..|].
  destruct (account_lookup _ _ _ sender HL Hs) as (sa & Hsa & Hok & Hka).
  eapply wp_peek_some; [done..|]. intros q v1 Hsub1 H1. cbn [k_key keylet.account] in *.
  pose proof (lookup_weaken _ _ _ _ Hp Hsub1) as Hp1. eapply wp_get_bind; [done..|].
  destruct (reserve_cleared bSenderHigh _ after (fields s)) eqn:Ecl.
  - apply wp_bind, wp_ret. eapply (clear_ok _ _ _ _ p q);
      [done|done|done|apply lookup_insert_eq|done|done|by apply transfer_not_account|].
    intros v3 H3. apply wp_ret, wp_bind, wp_ret. eapply transfer_end;
      [done|done|apply lookup_insert_eq|by apply cleared_ledger|done|done|done|done|done|].
    by rewrite (credited_cleared bSenderHigh sender idx s _ after m Ecl eq_refl).
  - apply wp_ret, wp_bind, wp_ret.
    eapply (transfer_end _ _ _ _ _ _ p _ _ _ _ false); [done|done|done|done|done|set_solver|done|done|done|].
    by rewrite credited_kept.
Qed.

(** [rippleCredit] when there is no line yet: the receiver gets one. *)
Definition line_made (noRipple : bool) (balance : Amt.STAmount) dirs m (ter : TER) v : Prop :=
  (ter = tesSUCCESS ∧ ∃ dirs' m' hs D s n n' sa,
     state c v0 m' hs ∅ D v ∧ ledger A ∅ dirs' m' ∧ m !! getAccountRootIndex receiver = Some sa ∧
     same_outside (<[idx := s]> (<[getAccountRootIndex receiver := adjusted 1 sa]> m)) m' ∧
     new_line (negb bSenderHigh) false noRipple false sender balance (Amt.zero_of (mkIssue cur receiver)) n n' s) ∨
  (ter = tecDIR_FULL ∧ (has (dirs sender) (2 ^ 64 - 1) ∨ has (dirs receiver) (2 ^ 64 - 1))).

(** The receiver does not let payments ripple through unless it says so. *)
Definition no_ripple m : bool :=
  match m !! getAccountRootIndex receiver with
  | Some sa => Z.land (getFieldU32 sfFlags (fields sa)) lsfDefaultRipple =? 0
  | None => true
  end.

Lemma make_line dirs m hs D v saAmount :
  state c v0 m hs ∅ D v → ledger A ∅ dirs m → m !! idx = None → currency_of saAmount = cur → cur ≠ assetCurrency →
  AmtFacts.wf saAmount →
  wp (let! sleAccount := peek (keylet.account receiver) in
      let! account := non_null sleAccount in
      let! noRipple := get account (λ o, Z.land (getFieldU32 sfFlags o) lsfDefaultRipple =? 0) in
      trustCreate bSenderHigh sender receiver idx sleAccount false noRipple false (Amt.setIssuer saAmount noAccount)
        (Amt.zero_of (mkIssue cur receiver)) 0 0) v
    (line_made (no_ripple m) (Amt.setIssuer saAmount noAccount) dirs m).
Proof using AP Hbase Hs Hr Hne Hc.
  intros Hst HL Hm Hcur Hasset Hwf. destruct (account_lookup _ _ _ receiver HL Hr) as (sa & Hsa & Hok & Hka).
  eapply wp_peek_some; [done..|]. intros q v1 Hsub1 H1. cbn [k_key keylet.account] in *.
  apply wp_bind, wp_ret. eapply wp_get_bind; [done|apply lookup_insert_eq|done|].
  unfold no_ripple. rewrite Hsa. destruct transfer_sides as (a & b & Ha & Hb & Hlt & Ei & Ea & Eb).
  assert (idx = line_index (if bSenderHigh then receiver else sender) (if bSenderHigh then sender else receiver) cur) as Ei'
    by (unfold line_of; by destruct bSenderHigh).
  rewrite Ei' in Hm |- *. unfold line_made. rewrite Ei'. eapply wp_mono.
  { eapply (trustCreate_ok _ _ _ _ _ q bSenderHigh sender receiver cur sa receiver); try done.
    - by rewrite Ea, Eb.
    - by right.
    - apply lookup_insert_eq.
    - by apply wf_setIssuer. }
  cbn beta. rewrite Z.eqb_refl, xorb_true_r.
  intros ter v2 [(-> & dirs' & m' & hs' & D' & s & n & n' & H2 & L2 & S2 & Hnew)|?]; [left|by right].
  split; [done|]. by exists dirs', m', hs', D', s, n, n', sa.
Qed.
(** The contract of the functions that credit the receiver: the balance of the
    line is moved, if there is one, and otherwise the line is made; an amount that
    cannot be represented is the only reason to throw. *)
Definition transferred dirs m amount (r : result (TER * ApplyView STObject V)) : Prop :=
  match m !! idx with
  | Some s =>
      match Amt.sub (side bSenderHigh (getFieldAmount sfBalance (fields s))) amount with
      | Ok after => ∃ ter v', r = Ok (ter, v') ∧ line_moved bSenderHigh sender idx s after m ter v'
      | Throw e => r = Throw e
      end
  | None => ∃ ter v', r = Ok (ter, v') ∧ line_made (no_ripple m) (Amt.setIssuer amount noAccount) dirs m ter v'
  end.

(** The balance that is left is one of the same currency. *)
Lemma after_ok dirs m s amount after :
  ledger A ∅ dirs m → m !! idx = Some s → AmtFacts.wf amount → currency_of amount = cur → isNative cur = false →
  Amt.sub (side bSenderHigh (getFieldAmount sfBalance (fields s))) amount = Ok after →
  AmtFacts.wf after ∧ currency_of after = cur.
Proof using Hs Hr Hne Hc.
  intros HL Hm Hwf Hcur Hnat E. destruct transfer_sides as (a & b & Ha & Hb & Hlt & Ei & _). rewrite Ei in *.
  destruct (ledger_line _ _ _ _ HL a b cur s Ha Hb Hlt Hc) as [_ Hw Hcu _ _]; [apply not_elem_of_empty|done|].
  assert (currency_of (side bSenderHigh (getFieldAmount sfBalance (fields s))) = cur) as Hcs.
  { rewrite <- Hcu. unfold currency_of, side. by rewrite side_issue. }
  apply sub_issued in E as [Ew Ei']; [|by apply side_wf|done|by rewrite Hcs|by rewrite Hcs].
  split; [done|]. unfold currency_of. by rewrite Ei'.
Qed.

Lemma no_line_lookup m : m !! idx = None → lookup_keylet m (keylet.line_key idx) = None.
Proof using Type. intros Hm. unfold lookup_keylet. cbn [k_key keylet.line_key]. by rewrite Hm. Qed.

Lemma throw_peek_line {B} dirs m hs D v s (g : option loc → prog STObject V B) e :
  state c v0 m hs ∅ D v → ledger A ∅ dirs m → m !! idx = Some s →
  (∀ p v', state c v0 m (<[p := idx]> hs) ∅ D v' → g (Some p) v' = Throw e) →
  bind (peek (keylet.line_key idx)) g v = Throw e.
Proof using Hbase Hs Hr Hne Hc.
  intros Hst HL Hm Hg. apply wp_throw. eapply wp_peek; [done|done| |].
  - intros v1 Hn. by rewrite (line_lookup dirs m s) in Hn.
  - intros s' p v1 _ _. apply Hg.
Qed.

Lemma rippleCredit_transferred dirs m hs D v amount fuel :
  state c v0 m hs ∅ D v → ledger A ∅ dirs m → AmtFacts.wf amount → currency_of amount = cur →
  isNative cur = false → cur ≠ assetCurrency →
  transferred dirs m amount (rippleCredit info fuel sender receiver amount v).
Proof using AP Hbase Hs Hr Hne Hc.
  intros Hst HL Hwf Hcur Hnat Hasset. unfold transferred. destruct (m !! idx) as [s|] eqn:Hm.
  - destruct (Amt.sub _ amount) as [after|e] eqn:E.
    + destruct (after_ok dirs m s amount after) as [Hw Hca]; [done..|]. by apply wp_run; eapply rippleCredit_line.
    + unfold rippleCredit. rewrite Hcur, line_of_index by done.
      eapply throw_peek_line; [done..|]. intros p v1 H1.
      unfold issueAsset. rewrite (proj2 (Z.eqb_neq _ _) Hasset). cbn [negb].
      apply wp_throw, wp_ret. cbn [fst]. apply wp_throw, wp_ret, wp_throw.
      eapply wp_get; [done|apply lookup_insert_eq|done|]. unfold StateMonad.lift, bind.
      fold (side bSenderHigh (getFieldAmount sfBalance (fields s))). by rewrite E.
  - apply wp_run. unfold rippleCredit. rewrite Hcur, line_of_index by done.
    eapply wp_peek_none; [done|done|by apply no_line_lookup|]. intros v1 H1.
    unfold issueAsset. rewrite (proj2 (Z.eqb_neq _ _) Hasset). cbn [negb].
    apply wp_bind, wp_ret. cbn [fst]. by eapply make_line.
Qed.

Lemma debit_throws m hs D v p s amount e :
  state c v0 m hs ∅ D v → hs !! p = Some idx → m !! idx = Some s →
  Amt.sub (side bSenderHigh (getFieldAmount sfBalance (fields s))) amount = Throw e →
  debit p bSenderHigh sender receiver amount v = Throw e.
Proof using Type.
  intros Hst Hp Hm E. unfold debit. apply wp_throw. eapply wp_get; [done..|]. unfold StateMonad.lift, bind.
  fold (side bSenderHigh (getFieldAmount sfBalance (fields s))). by rewrite E.
Qed.

(** [issueIOU] is a credit from the issuer, and [redeemIOU] one to it. *)
Lemma issueIOU_transferred dirs m hs D v amount issue fuel :
  state c v0 m hs ∅ D v → ledger A ∅ dirs m → AmtFacts.wf amount → currency_of amount = cur →
  isNative cur = false → cur ≠ assetCurrency → issue = mkIssue cur sender →
  transferred dirs m amount (issueIOU info fuel receiver amount issue v).
Proof using AP Hbase Hs Hr Hne Hc.
  intros Hst HL Hwf Hcur Hnat Hasset ->. unfold transferred, issueIOU. cbn [currency account].
  rewrite line_of_index by done. destruct (m !! idx) as [s|] eqn:Hm.
  - destruct (Amt.sub _ amount) as [after|e] eqn:E.
    + destruct (after_ok dirs m s amount after) as [Hw Hca]; [done..|]. apply wp_run.
      eapply wp_peek_some; [done|done|by eapply line_lookup|]. intros p v1 Hsub1 H1. cbn [k_key keylet.line_key] in *.
      unfold issueAsset. rewrite (proj2 (Z.eqb_neq _ _) Hasset). cbn [negb]. apply wp_bind, wp_ret. cbn [fst].
      eapply debit_ok; [done|done|done|apply lookup_insert_eq|done..].
    + eapply throw_peek_line; [done..|]. intros p v1 H1.
      unfold issueAsset. rewrite (proj2 (Z.eqb_neq _ _) Hasset). cbn [negb]. apply wp_throw, wp_ret. cbn [fst].
      eapply debit_throws; [done|apply lookup_insert_eq|done|done].
  - apply wp_run. eapply wp_peek_none; [done|done|by apply no_line_lookup|]. intros v1 H1.
    unfold issueAsset. rewrite (proj2 (Z.eqb_neq _ _) Hasset). cbn [negb].
    apply wp_bind, wp_ret. cbn [fst]. by eapply make_line.
Qed.

Lemma redeemIOU_transferred dirs m hs D v amount issue :
  state c v0 m hs ∅ D v → ledger A ∅ dirs m → AmtFacts.wf amount → currency_of amount = cur →
  isNative cur = false → issue = mkIssue cur receiver →
  match m !! idx with
  | Some _ => transferred dirs m amount (redeemIOU sender amount issue v)
  | None => ∃ v', redeemIOU sender amount issue v = Ok (tefINTERNAL, v') ∧ state c v0 m hs ∅ D v'
  end.
Proof using AP Hbase Hs Hr Hne Hc.
  intros Hst HL Hwf Hcur Hnat ->. unfold transferred, redeemIOU. cbn [currency account].
  rewrite line_of_index by done. destruct (m !! idx) as [s|] eqn:Hm.
  - destruct (Amt.sub _ amount) as [after|e] eqn:E.
    + destruct (after_ok dirs m s amount after) as [Hw Hca]; [done..|]. apply wp_run.
      eapply wp_peek_some; [done|done|by eapply line_lookup|]. intros p v1 Hsub1 H1. cbn [k_key keylet.line_key] in *.
      eapply debit_ok; [done|done|done|apply lookup_insert_eq|done..].
    + eapply throw_peek_line; [done..|]. intros p v1 H1.
      eapply debit_throws; [done|apply lookup_insert_eq|done|done].
  - assert (wp (redeemIOU sender amount (mkIssue cur receiver)) v (λ ter v', ter = tefINTERNAL ∧ state c v0 m hs ∅ D v')) as Hwp.
    { unfold redeemIOU. cbn [currency account]. rewrite line_of_index by done.
      eapply wp_peek_none; [done|done|by apply no_line_lookup|]. intros v1 H1. by apply wp_ret. }
    apply wp_run in Hwp as (ter & v' & E & -> & H'). exists v'. unfold redeemIOU in E. cbn [currency account] in E.
    by rewrite line_of_index in E by done.
Qed.

End transfer.

End facts.
End TrustFacts.
