(* ===== verification/TrustBalance.v ===== *)
(** * What the two sides of a trust line hold

    A credit takes from the sender what it gives to the receiver. *)

From stdpp Require Import strings functions.
From S2P Require Import Prelude StateMonad Issue Decimal IOUAmount STAmount BigNum STAmountFacts Views ApplyStateTable.
From S2P Require Import ApplyFacts ViewLogic Objects Directory DirectoryRep DirectoryFacts Indexes TrustLines TrustRep TrustFacts.
Import Apply ApplyFacts VL Dir DirRep DirFacts Idx Trust TrustRep TrustFacts.

Open Scope Z_scope.
Open Scope prog_scope.

Module TrustBalance.

(** ** Negation *)

Definition opp (x : IOU.IOUAmount) : IOU.IOUAmount := IOU.mkIOU (- IOU.mantissa_ x) (IOU.exponent_ x).

Lemma opp_opp x : opp (opp x) = x.
Proof. destruct x. unfold opp. simpl. by rewrite Z.opp_involutive. Qed.

Lemma opp_wf x : IOU.wf x → IOU.wf (opp x).
Proof. intros [->|H]; [by left|right]. simpl. by rewrite Z.abs_opp. Qed.

Lemma normalize_opp m e :
  - 2 ^ 63 < m < 2 ^ 63 → m ≠ 0 → IOU.normalize (IOU.mkIOU (- m) e) = rmap opp (IOU.normalize (IOU.mkIOU m e)).
Proof.
  intros Hm Hne. rewrite !IOU.normalize_norm by (simpl; lia). cbn [IOU.mantissa_ IOU.exponent_]. rewrite Z.abs_opp.
  destruct (norm _ _ _ _ _) as [o|]; [|done]. destruct o as [[x y]|]; [|done].
  cbn. unfold opp. destruct (Z.ltb_spec m 0), (Z.ltb_spec (- m) 0); cbn; do 2 f_equal; lia.
Qed.

(** Rounding is the same on both sides of zero. *)
Lemma add_opp a b : IOU.wf a → IOU.wf b → IOU.add (opp a) (opp b) = rmap opp (IOU.add a b).
Proof.
  intros Ha Hb. destruct (Z.eq_dec (IOU.mantissa_ a) 0) as [->%IOU.wf_mantissa_0|Hna]; [|done|].
  { change (opp IOU.zero) with IOU.zero. by rewrite !IOU.add_zero_l by (try apply opp_wf; done). }
  destruct (Z.eq_dec (IOU.mantissa_ b) 0) as [->%IOU.wf_mantissa_0|Hnb]; [|done|].
  { change (opp IOU.zero) with IOU.zero. by rewrite !IOU.add_zero_r. }
  rewrite !IOU.add_aligned by (try apply opp_wf; simpl; done || lia).
  pose proof (IOU.aligned_sum_range a b Ha Hb) as Hr. unfold IOU.aligned_sum in *. cbn [fst snd] in Hr.
  cbn [opp IOU.mantissa_ IOU.exponent_]. rewrite !Z.quot_opp_l by (apply Z.pow_nonzero; lia). rewrite <- Z.opp_add_distr.
  rewrite Z.abs_opp. destruct (Z.leb_spec (Z.abs (Z.quot (IOU.mantissa_ a) (10 ^ (Z.max (IOU.exponent_ a) (IOU.exponent_ b) - IOU.exponent_ a)) +
    Z.quot (IOU.mantissa_ b) (10 ^ (Z.max (IOU.exponent_ a) (IOU.exponent_ b) - IOU.exponent_ b)))) 10); [done|].
  apply normalize_opp; [|lia]. dec_consts. lia.
Qed.

(** ** Overflow *)

Lemma while_throw_throws {S} (cond : S → bool) (body : S → result S) fuel s e x :
  (∀ s, match body s with Throw y => y = e | Ok _ => True end) → while_throw cond body fuel s = Throw x → x = e.
Proof.
  intros Hb. revert s. induction fuel as [|n IH]; intros s; cbn [while_throw]; destruct (cond s); try done.
  specialize (Hb s). destruct (body s) as [s'|y]; cbn [rbind]; [apply IH|]. congruence.
Qed.

Lemma make_throws i m e neg x : isNative (currency i) = false → Amt.make i m e neg = Throw x → x = runtime_error "value overflow".
Proof.
  intros Hn. unfold Amt.make, Amt.canonicalize, Amt.amt_isNative. cbn [Amt.mIssue Amt.mValue Amt.mOffset Amt.mIsNegative].
  rewrite Hn. destruct (m =? 0); [done|]. destruct (scale_up u64 m e) as [m1 e1].
  destruct (scale_down _ m1 e1) as [[m2 e2]|y] eqn:E; cbn [rbind].
  - destruct (_ || _); [done|]. destruct (_ <? e2); congruence.
  - intros [= <-]. unfold scale_down in E. eapply while_throw_throws; [|exact E]. intros s. cbn beta. by destruct (maxExponent <=? s.2).
Qed.

(** ** Issued amounts as numbers *)

Section amounts.
Context (cur : Currency) (Hnat : isNative cur = false).
Implicit Types (a b r : Amt.STAmount).

Definition issued a : Prop := AmtFacts.wf a ∧ currency_of a = cur.

Lemma issued_not_native a : issued a → Amt.mIsNative a = false.
Proof using Hnat. intros [[-> _] Hc]. unfold currency_of in Hc. by rewrite Hc. Qed.

Lemma issued_comparable a b : issued a → issued b → Amt.areComparable a b = true.
Proof using Hnat.
  intros Ha Hb. unfold Amt.areComparable. rewrite !issued_not_native by done.
  destruct Ha as [_ Ha], Hb as [_ Hb]. unfold currency_of in *. rewrite Ha, Hb. apply Z.eqb_refl.
Qed.

Lemma issued_neg a : issued a → issued (Amt.neg a).
Proof using Type.
  intros [Hw Hc]. split; [by apply wf_neg|]. rewrite <- Hc. unfold Amt.neg, currency_of. by destruct (_ =? 0).
Qed.

Lemma negate_neg a : Amt.negate a = Amt.neg a.
Proof using Type. unfold Amt.negate, Amt.neg. by rewrite AmtFacts.is_zero_value. Qed.

Lemma to_iou_neg a : issued a → AmtFacts.to_iou (Amt.neg a) = opp (AmtFacts.to_iou a).
Proof using Hnat.
  intros Ha. unfold Amt.neg, AmtFacts.to_iou, opp, AmtFacts.sv. cbn [IOU.mantissa_ IOU.exponent_].
  destruct (Z.eqb_spec (Amt.mValue a) 0) as [E|E]; [rewrite E; by destruct (Amt.mIsNegative a)|].
  simpl. destruct (Amt.mIsNegative a); simpl; f_equal; lia.
Qed.

Lemma lift_opp i x : AmtFacts.lift i (opp x) = Amt.neg (AmtFacts.lift i x).
Proof using Type.
  unfold AmtFacts.lift, Amt.neg, opp. simpl. rewrite Z.abs_opp. destruct (Z.eqb_spec (Z.abs (IOU.mantissa_ x)) 0) as [E|E].
  - replace (IOU.mantissa_ x) with 0 by lia. done.
  - f_equal. destruct (Z.ltb_spec (IOU.mantissa_ x) 0), (Z.ltb_spec (- IOU.mantissa_ x) 0); done || lia.
Qed.

Lemma add_iff a b r :
  issued a → issued b →
  Amt.add a b = Ok r ↔ ∃ x, IOU.add (AmtFacts.to_iou a) (AmtFacts.to_iou b) = Ok x ∧ r = AmtFacts.lift (Amt.mIssue a) x.
Proof using Hnat.
  intros Ha Hb. pose proof (AmtFacts.add_issued a b (proj1 Ha) (proj1 Hb) (issued_not_native a Ha)
    (issued_not_native b Hb) (issued_comparable a b Ha Hb)) as H. unfold same_outcome in H. revert H.
  destruct (Amt.add a b) as [r'|], (IOU.add _ _) as [x|]; simpl; try done.
  - intros ->. split; [intros [= <-]; by exists x|]. by intros (x' & [= <-] & ->).
  - intros _. split; [done|]. by intros (x & ? & _).
Qed.

Lemma sub_iff a b r :
  issued a → issued b →
  Amt.sub a b = Ok r ↔ ∃ x, IOU.add (AmtFacts.to_iou a) (opp (AmtFacts.to_iou b)) = Ok x ∧ r = AmtFacts.lift (Amt.mIssue a) x.
Proof using Hnat. intros Ha Hb. unfold Amt.sub. rewrite add_iff, to_iou_neg by (try apply issued_neg; done). done. Qed.

(** The only reason not to subtract. *)
Lemma sub_throws a b e : issued a → issued b → Amt.sub a b = Throw e → e = runtime_error "value overflow".
Proof using Hnat.
  intros Ha Hb. unfold Amt.sub, Amt.add. pose proof (issued_neg b Hb) as Hnb. rewrite (issued_comparable a (Amt.neg b)) by done.
  rewrite issued_not_native by done. cbn [negb].
  assert (isNative (currency (Amt.mIssue a)) = false) as Hi by (destruct Ha as [_ Hc]; unfold currency_of in Hc; by rewrite Hc).
  destruct (Amt.is_zero (Amt.neg b)); [done|]. destruct (Amt.is_zero a); [by apply make_throws|].
  destruct (align _ _ _) as [vv1 ov1], (align _ _ _) as [vv2 ov2]. destruct (_ && _); [done|].
  destruct (0 <=? _); by apply make_throws.
Qed.

(** What one side of a line loses the other one gains, rounding included. *)
Lemma sub_neg a b r : issued a → issued b → Amt.sub a b = Ok r → Amt.add (Amt.neg a) b = Ok (Amt.neg r).
Proof using Hnat.
  intros Ha Hb (x & Hx & ->)%sub_iff; [|done..]. apply add_iff; [by apply issued_neg|done|].
  exists (opp x). rewrite to_iou_neg by done. split.
  - rewrite <- (opp_opp (AmtFacts.to_iou b)). rewrite add_opp, Hx; [done|..].
    + apply AmtFacts.to_iou_wf; [apply Ha|by apply issued_not_native].
    + apply opp_wf, AmtFacts.to_iou_wf; [apply Hb|by apply issued_not_native].
  - rewrite lift_opp. f_equal. f_equal. unfold Amt.neg. by destruct (_ =? 0).
Qed.

Lemma to_iou_setIssuer a i : AmtFacts.to_iou (Amt.setIssuer a i) = AmtFacts.to_iou a.
Proof using Type. done. Qed.

Lemma issued_setIssuer a i : issued a → issued (Amt.setIssuer a i).
Proof using Type. intros [Hw Hc]. split; [by apply wf_setIssuer|done]. Qed.

Lemma lift_setIssuer j i x : isNative (currency j) = false →
  AmtFacts.lift (mkIssue (currency j) i) x = Amt.setIssuer (AmtFacts.lift j x) i.
Proof using Type. intros Hn. unfold AmtFacts.lift, Amt.setIssuer, Amt.setIssue. simpl. by rewrite Hn. Qed.

(** The issuer is carried along. *)
Lemma sub_setIssuer a b r i :
  issued a → issued b → Amt.sub a b = Ok r → Amt.sub (Amt.setIssuer a i) b = Ok (Amt.setIssuer r i).
Proof using Hnat.
  intros Ha Hb (x & Hx & ->)%sub_iff; [|done..]. apply sub_iff; [by apply issued_setIssuer|done|].
  exists x. split; [done|]. rewrite <- lift_setIssuer; [done|]. destruct Ha as [_ Hc]. unfold currency_of in Hc. by rewrite Hc.
Qed.

Lemma sub_setIssuer_throws a b e i :
  issued a → issued b → Amt.sub a b = Throw e → ∃ e', Amt.sub (Amt.setIssuer a i) b = Throw e'.
Proof using Hnat.
  intros Ha Hb E. destruct (Amt.sub (Amt.setIssuer a i) b) as [r|e'] eqn:E'; [|eauto].
  apply sub_iff in E' as (x & Hx & _); [|by apply issued_setIssuer|done].
  assert (Amt.sub a b = Ok (AmtFacts.lift (Amt.mIssue a) x)) by (apply sub_iff; eauto). congruence.
Qed.

Lemma add_setIssuer a b r i :
  issued a → issued b → Amt.add a b = Ok r → Amt.add (Amt.setIssuer a i) b = Ok (Amt.setIssuer r i).
Proof using Hnat.
  intros Ha Hb (x & Hx & ->)%add_iff; [|done..]. apply add_iff; [by apply issued_setIssuer|done|].
  exists x. split; [done|]. rewrite <- lift_setIssuer; [done|]. destruct Ha as [_ Hc]. unfold currency_of in Hc. by rewrite Hc.
Qed.

Lemma neg_neg a : issued a → Amt.neg (Amt.neg a) = a.
Proof using Type.
  intros _. unfold Amt.neg. destruct (Amt.mValue a =? 0) eqn:E; [by rewrite E|]. simpl. rewrite E.
  destruct a. simpl. by rewrite negb_involutive.
Qed.

Lemma neg_setIssuer a i : Amt.neg (Amt.setIssuer a i) = Amt.setIssuer (Amt.neg a) i.
Proof using Type. unfold Amt.neg, Amt.setIssuer, Amt.setIssue. simpl. by destruct (Amt.mValue a =? 0). Qed.

Lemma issued_zero a : issued a → Amt.is_zero a = true → a = Amt.zero_of (Amt.mIssue a).
Proof using Hnat.
  intros Ha Hz. rewrite AmtFacts.is_zero_value in Hz. destruct (AmtFacts.wf_issued a (proj1 Ha) (issued_not_native a Ha)) as [Hn Hv].
  apply Z.eqb_eq in Hz. unfold Amt.zero_of. rewrite Hn. pose proof (issued_not_native a Ha) as Hi. destruct a; simpl in *. subst.
  destruct Hv as [(_ & -> & ->)|[Hc _]]; [done|]. dec_consts. lia.
Qed.

Lemma issued_zero_of i : currency i = cur → issued (Amt.zero_of i).
Proof using Hnat.
  intros Hi. split; [|done]. unfold AmtFacts.wf, Amt.zero_of. simpl. rewrite Hi, Hnat. split; [done|by left].
Qed.

Lemma lift_issued a i : issued a → currency i = cur → AmtFacts.lift i (AmtFacts.to_iou a) = Amt.setIssuer a (account i).
Proof using Hnat.
  intros Ha Hi. destruct i as [ci ii]. simpl in *. subst ci. destruct Ha as [Hw Hc].
  pose proof (lift_setIssuer (Amt.mIssue a) ii (AmtFacts.to_iou a)) as E. unfold currency_of in Hc. rewrite Hc in E.
  rewrite E by done. f_equal. apply AmtFacts.lift_to_iou; [done|]. by apply issued_not_native.
Qed.

Lemma to_iou_zero i : currency i = cur → AmtFacts.to_iou (Amt.zero_of i) = IOU.zero.
Proof using Hnat. intros Hi. unfold AmtFacts.to_iou, Amt.zero_of. by rewrite Hi, Hnat. Qed.

(** From nothing to a debt, or to a claim. *)
Lemma sub_from_zero b i : issued b → currency i = cur → Amt.sub (Amt.zero_of i) b = Ok (Amt.neg (Amt.setIssuer b (account i))).
Proof using Hnat.
  intros Hb Hi. apply sub_iff; [by apply issued_zero_of|done|]. exists (opp (AmtFacts.to_iou b)). rewrite to_iou_zero by done. split.
  - apply IOU.add_zero_l, opp_wf, AmtFacts.to_iou_wf; [apply Hb|by apply issued_not_native].
  - rewrite lift_opp. f_equal. symmetry. by apply lift_issued.
Qed.

Lemma add_from_zero b i : issued b → currency i = cur → Amt.add (Amt.zero_of i) b = Ok (Amt.setIssuer b (account i)).
Proof using Hnat.
  intros Hb Hi. apply add_iff; [by apply issued_zero_of|done|]. exists (AmtFacts.to_iou b). rewrite to_iou_zero by done. split.
  - apply IOU.add_zero_l, AmtFacts.to_iou_wf; [apply Hb|by apply issued_not_native].
  - symmetry. by apply lift_issued.
Qed.

End amounts.

(** ** What an account holds *)

Section holds.
Context `{Dg : Digest} `{BN : BigNum} {V : Type} {RV : ReadView STObject V} (info : LedgerInfo).
Context (c : gmap Z (SLE STObject)) (v0 : ApplyView STObject V) (Hbase : reads_as (base_ v0) c).
Context (A : gset Z) {AP : Apart A}.
Implicit Types (m : gmap Z (SLE STObject)) (v : ApplyView STObject V).

(** What [acct] holds of the currency, issued by [other]. *)
Definition holds m (acct other : AccountID) (cur : Currency) : Amt.STAmount :=
  match m !! getRippleStateIndex acct other cur with
  | Some s =>
      let balance := getFieldAmount sfBalance (fields s) in
      Amt.setIssuer (if other <? acct then Amt.negate balance else balance) other
  | None => Amt.zero_of (mkIssue cur other)
  end.

(** The amount has moved from the sender to the receiver, and nothing else. *)
Record moves (sender receiver : AccountID) (cur : Currency) (amount : Amt.STAmount) m m' : Prop := {
  moves_sender : Amt.sub (holds m sender receiver cur) amount = Ok (holds m' sender receiver cur);
  moves_receiver : Amt.add (holds m receiver sender cur) amount = Ok (holds m' receiver sender cur);
  moves_others x y cur' : x ∈ A → y ∈ A → x ≠ y → is_id cur' →
    getRippleStateIndex x y cur' ≠ getRippleStateIndex sender receiver cur → holds m' x y cur' = holds m x y cur'
}.

Section transfer.
Context (sender receiver : AccountID) (cur : Currency).
Context (Hs : sender ∈ A) (Hr : receiver ∈ A) (Hne : sender ≠ receiver) (Hc : is_id cur) (Hnat : isNative cur = false).
#[local] Abbreviation bSenderHigh := (receiver <? sender).
#[local] Abbreviation idx := (line_of bSenderHigh sender receiver cur).

(** The two sides of a line with balance [b]. *)
Lemma holds_sides m s before :
  m !! idx = Some s → getFieldAmount sfBalance (fields s) = side bSenderHigh before → issued cur before →
  holds m sender receiver cur = Amt.setIssuer before receiver ∧
  holds m receiver sender cur = Amt.setIssuer (Amt.neg before) sender.
Proof using Hne.
  intros Hm Hb Hi. unfold holds. rewrite (getRippleStateIndex_sym receiver sender), line_of_index, Hm, Hb by done.
  unfold side. rewrite !negate_neg. destruct (Z.ltb_spec receiver sender), (Z.ltb_spec sender receiver); try lia.
  - by rewrite (neg_neg cur).
  - done.
Qed.

Lemma holds_none m :
  m !! idx = None → holds m sender receiver cur = Amt.zero_of (mkIssue cur receiver) ∧
  holds m receiver sender cur = Amt.zero_of (mkIssue cur sender).
Proof using Hne. intros Hm. unfold holds. by rewrite (getRippleStateIndex_sym receiver sender), line_of_index, Hm by done. Qed.

Lemma side_side a : issued cur a → side bSenderHigh (side bSenderHigh a) = a.
Proof using Type. intros Ha. unfold side. destruct bSenderHigh; [|done]. rewrite !negate_neg. by apply (neg_neg cur). Qed.

Lemma issued_side a : issued cur a → issued cur (side bSenderHigh a).
Proof using Type. intros Ha. unfold side. destruct bSenderHigh; [|done]. rewrite negate_neg. by apply issued_neg. Qed.

Lemma line_issued dirs m s :
  ledger A ∅ dirs m → m !! idx = Some s → issued cur (getFieldAmount sfBalance (fields s)).
Proof using Hs Hr Hne Hc.
  intros HL Hm. destruct (transfer_sides A sender receiver cur Hs Hr Hne) as (a & b & Ha & Hb & Hlt & Ei & _). rewrite Ei in *.
  by destruct (ledger_line _ _ _ _ HL a b cur s Ha Hb Hlt Hc) as [_ Hw Hcu _ _]; [apply not_elem_of_empty|done|].
Qed.

(** The other lines are as they were. *)
Lemma holds_elsewhere m m' ka x y cur' :
  (∀ k, outside A k → k ≠ idx → k ≠ getAccountRootIndex ka → m' !! k = m !! k) → ka ∈ A →
  x ∈ A → y ∈ A → x ≠ y → is_id cur' → getRippleStateIndex x y cur' ≠ getRippleStateIndex sender receiver cur →
  holds m' x y cur' = holds m x y cur'.
Proof using AP Hne.
  intros Hsame Hka Hx Hy Hxy Hc' Hk. unfold holds. rewrite Hsame; [done|..].
  - rewrite line_of_index by done. unfold line_of. destruct (y <? x); by apply line_outside.
  - by rewrite <- line_of_index.
  - rewrite line_of_index by done. unfold line_of. destruct (y <? x); by apply (line_not_account A).
Qed.

Lemma idx_outside : outside A idx ∧ ∀ ka, ka ∈ A → idx ≠ getAccountRootIndex ka.
Proof using AP Hs Hr Hc.
  unfold line_of. destruct bSenderHigh; split; try (by apply line_outside); intros ka Hka; by apply (line_not_account A).
Qed.

Lemma credited_moves dirs m m' s amount after :
  ledger A ∅ dirs m → m !! idx = Some s → issued cur amount →
  Amt.sub (side bSenderHigh (getFieldAmount sfBalance (fields s))) amount = Ok after →
  same_outside A (credited bSenderHigh sender idx s after m) m' → moves sender receiver cur amount m m'.
Proof using AP Hs Hr Hne Hc Hnat.
  intros HL Hm Ham E Hsame. set (before := side bSenderHigh (getFieldAmount sfBalance (fields s))) in *.
  assert (issued cur before) as Hb by (apply issued_side; by eapply line_issued).
  assert (getFieldAmount sfBalance (fields s) = side bSenderHigh before) as Hbal by (symmetry; apply side_side; by eapply line_issued).
  destruct (sub_issued before amount after) as [Hwa Hia]; [apply Hb|apply Ham|..|done|].
  { destruct Hb as [_ ->]. done. } { destruct Hb as [_ ->]. apply Ham. }
  assert (issued cur after) as Ha by (split; [done|]; unfold currency_of; rewrite Hia; apply Hb).
  destruct (holds_sides m s before Hm Hbal Hb) as [Es Er]. destruct idx_outside as [Hout Hacc].
  assert (holds m' sender receiver cur = Amt.setIssuer after receiver ∧
          holds m' receiver sender cur = Amt.setIssuer (Amt.neg after) sender) as [Es' Er'].
  { pose proof (Hsame idx Hout) as Hm'. unfold credited in Hm'. fold before in Hm'.
    destruct (deletes bSenderHigh before after (fields s)) eqn:Ed.
    - rewrite lookup_delete_eq in Hm'. destruct (holds_none m' Hm') as [-> ->].
      unfold deletes in Ed. apply andb_true_iff in Ed as [[_ Hz]%andb_true_iff _].
      rewrite (issued_zero cur Hnat after Ha Hz). destruct Ha as [_ Hca]. unfold currency_of in Hca.
      unfold Amt.setIssuer, Amt.setIssue, Amt.zero_of, Amt.neg. simpl. by rewrite Hca, Hnat.
    - rewrite lookup_insert_eq in Hm'. eapply holds_sides; [done| |done]. unfold moved. by read_fields. }
  split.
  - rewrite Es, Es'. by apply (sub_setIssuer cur Hnat).
  - rewrite Er, Er'. apply (add_setIssuer cur Hnat); [by apply issued_neg|done|]. by apply (sub_neg cur Hnat).
  - intros x y cur' Hx Hy Hxy Hc' Hk. eapply holds_elsewhere; [|apply Hs|done..]. intros k Ho Hki Hka. rewrite Hsame by done.
    unfold credited. destruct (deletes _ _ _ _), (returns_reserve _ _ _ _);
      rewrite ?lookup_delete_ne, ?lookup_insert_ne, ?lookup_alter_ne by done; done.
Qed.

Lemma made_moves m m' s sa amount noRipple n n' :
  m !! idx = None → issued cur amount →
  same_outside A (<[idx := s]> (<[getAccountRootIndex receiver := sa]> m)) m' →
  new_line (negb bSenderHigh) false noRipple false sender (Amt.setIssuer amount noAccount)
    (Amt.zero_of (mkIssue cur receiver)) n n' s →
  moves sender receiver cur amount m m'.
Proof using AP Hs Hr Hne Hc Hnat.
  intros Hm Ham Hsame Hnew. destruct idx_outside as [Hout Hacc]. pose proof (Hsame idx Hout) as Hm'.
  rewrite lookup_insert_eq in Hm'. destruct (holds_none m Hm) as [Es Er].
  destruct (holds_sides m' s (Amt.neg (Amt.setIssuer amount noAccount)) Hm') as [Es' Er'].
  { rewrite (nl_balance _ _ _ _ _ _ _ _ _ _ Hnew). unfold side. destruct bSenderHigh; [|done]. simpl. rewrite negate_neg.
    symmetry. apply (neg_neg cur). by apply issued_setIssuer. }
  { by apply issued_neg, issued_setIssuer. }
  split.
  - rewrite Es, Es', (sub_from_zero cur Hnat) by done. f_equal. by rewrite !neg_setIssuer.
  - rewrite Er, Er', (neg_neg cur) by (by apply issued_setIssuer).
    by rewrite (add_from_zero cur Hnat).
  - intros x y cur' Hx Hy Hxy Hc' Hk. eapply holds_elsewhere; [|apply Hr|done..]. intros k Ho Hki Hka. rewrite Hsame by done.
    by rewrite !lookup_insert_ne by done.
Qed.

(** [accountHolds] of the sender's side. *)
Lemma line_state dirs m hs D v :
  state c v0 m hs ∅ D v → ledger A ∅ dirs m →
  wp (peek (keylet.line sender receiver cur)) v (λ r v',
    match m !! idx with
    | Some s => ∃ p hs', r = Some p ∧ hs ⊆ hs' ∧ hs' !! p = Some idx ∧ state c v0 m hs' ∅ D v'
    | None => r = None ∧ state c v0 m hs ∅ D v'
    end).
Proof using Hbase Hs Hr Hne Hc.
  intros Hst HL. unfold keylet.line. rewrite line_of_index by done. eapply wp_peek; [done|done|..].
  - intros v' Hn H'. destruct (m !! idx) as [s|] eqn:Hm; [|done].
    by rewrite (line_lookup A sender receiver cur Hs Hr Hne Hc dirs m s) in Hn.
  - intros s p v' Hl Hsub H'. cbn [k_key keylet.line_key] in *. destruct (m !! idx) as [s'|] eqn:Hm.
    + exists p, (<[p := idx]> hs). split; [done|]. split; [done|]. split; [apply lookup_insert_eq|done].
    + by rewrite no_line_lookup in Hl.
Qed.

(** The line is frozen by its issuer, for this account or for all. *)
Definition frozen m : bool :=
  match lookup_keylet m (keylet.account receiver) with
  | Some sle => isFlag lsfGlobalFreeze (fields sle)
  | None => false
  end ||
  match lookup_keylet m (keylet.line sender receiver cur) with
  | Some sle => isFlag (if sender <? receiver then lsfHighFreeze else lsfLowFreeze) (fields sle)
  | None => false
  end.

Lemma isFrozen_ok m hs D v (Q : bool → ApplyView STObject V → Prop) :
  state c v0 m hs ∅ D v → Q (frozen m) v → wp (isFrozen sender cur receiver) v Q.
Proof using Hbase Hne Hnat.
  intros Hst HQ. unfold isFrozen. rewrite Hnat. eapply wp_read; [done|done|]. unfold frozen in HQ.
  destruct (match lookup_keylet m (keylet.account receiver) with Some _ => _ | None => _ end); [by apply wp_ret|].
  rewrite (proj2 (Z.eqb_neq receiver sender)) by auto. cbn [negb].
  eapply wp_read; [done|done|]. by apply wp_ret.
Qed.

Lemma accountHolds_ok dirs m hs D v fuel zeroIfFrozen :
  cur ≠ assetCurrency → state c v0 m hs ∅ D v → ledger A ∅ dirs m →
  wp (accountHolds info fuel sender cur receiver zeroIfFrozen) v (λ r v',
    r = (if zeroIfFrozen && frozen m then Amt.zero_of (mkIssue cur receiver) else holds m sender receiver cur) ∧
    ∃ hs', hs ⊆ hs' ∧ state c v0 m hs' ∅ D v').
Proof using Hbase Hs Hr Hne Hc Hnat.
  intros Hasset Hst HL. unfold accountHolds. pose proof Hnat as Hn. unfold isNative in Hn. rewrite orb_comm in Hn. rewrite Hn.
  assert (Amt.clear_issue (Amt.of_drops 0 false) (mkIssue cur receiver) = Amt.zero_of (mkIssue cur receiver)) as Ez.
  { unfold Amt.clear_issue, Amt.clear, Amt.zero_of. simpl. by rewrite Hnat. }
  apply wp_bind, wp_bind. eapply wp_mono; [by eapply line_state|]. cbn beta. unfold holds. rewrite line_of_index by done.
  intros r v1. destruct (m !! idx) as [s|] eqn:Hm.
  - intros (p & hs1 & -> & Hsub & Hp & H1).
    assert (wp (if zeroIfFrozen then isFrozen sender cur receiver else ret false) v1
      (λ b v', b = zeroIfFrozen && frozen m ∧ v' = v1)) as Hf.
    { destruct zeroIfFrozen; [by eapply isFrozen_ok|by apply wp_ret]. }
    apply wp_bind. eapply wp_mono; [done|]. intros b v2 [-> ->].
    destruct (zeroIfFrozen && frozen m); [apply wp_ret, wp_ret; by eauto|].
    rewrite (proj2 (Z.eqb_neq assetCurrency cur)) by auto. apply wp_bind, wp_ret. eapply wp_get_bind; [done..|].
    apply wp_ret, wp_ret. by eauto.
  - intros [-> H1]. apply wp_ret, wp_ret. split; [|by eauto]. rewrite Ez. by destruct (_ && _).
Qed.

End transfer.
End holds.

End TrustBalance.
