(* ===== verification/TrustPay.v ===== *)
(** * Payments *)

From stdpp Require Import strings functions.
From S2P Require Import Prelude StateMonad Issue Decimal IOUAmount STAmount BigNum STAmountFacts STAmountArith Views ApplyStateTable.
From S2P Require Import ApplyFacts ViewLogic Objects Directory DirectoryRep DirectoryFacts Indexes.
From S2P Require Import TrustLines TrustRep TrustFacts TrustBalance.
Import Apply ApplyFacts VL Dir DirRep DirFacts Idx Trust TrustRep TrustFacts TrustBalance.

Open Scope Z_scope.
Open Scope prog_scope.

Module TrustPay.

Section pay.
Context `{Dg : Digest} `{BN : BigNum} {V : Type} {RV : ReadView STObject V} (info : LedgerInfo).
Context (c : gmap Z (SLE STObject)) (v0 : ApplyView STObject V) (Hbase : reads_as (base_ v0) c).
Context (A : gset Z) {AP : Apart A}.
Implicit Types (m : gmap Z (SLE STObject)) (v : ApplyView STObject V).

(** ** Native payments *)

Definition native (a : Amt.STAmount) : Prop := AmtFacts.wf a ∧ Amt.mIsNative a = true.

Lemma sv_neg a : AmtFacts.sv (Amt.neg a) = - AmtFacts.sv a.
Proof using Type.
  unfold Amt.neg, AmtFacts.sv. destruct (Z.eqb_spec (Amt.mValue a) 0) as [E|E].
  - rewrite E. by destruct (Amt.mIsNegative a).
  - simpl. destruct (Amt.mIsNegative a); simpl; lia.
Qed.

Lemma native_sub a b : native a → native b → ∃ r, Amt.sub a b = Ok r ∧ AmtFacts.sv r = AmtFacts.sv a - AmtFacts.sv b.
Proof using Type.
  intros [Ha Hna] [Hb Hnb]. destruct (AmtFacts.add_native a (Amt.neg b) Ha (wf_neg b Hb) Hna) as (r & E & Hr & _).
  - unfold Amt.neg. by destruct (_ =? 0).
  - exists r. split; [done|]. rewrite Hr, sv_neg. lia.
Qed.

(** The two accounts once an amount has been taken from one and given to the
    other. *)
Definition paid (field : string) (sender receiver : AccountID) (ss sr : SLE STObject) (saFrom saTo : Amt.STAmount) m :=
  <[getAccountRootIndex receiver := with_fields sr (setFieldAmount field saTo)]>
    (<[getAccountRootIndex sender := with_fields ss (setFieldAmount field saFrom)]> m).

(** A native payment: refused when the sender has less than the amount, and
    otherwise made. *)
Definition native_outcome (sender receiver : AccountID) (amount : Amt.STAmount) (ss sr : SLE STObject) m
    (ter : TER) v : Prop :=
  let field := balance_field amount in
  let bs := getFieldAmount field (fields ss) in
  let br := getFieldAmount field (fields sr) in
  if AmtFacts.sv bs <? AmtFacts.sv amount
  then ter = failed_processing info ∧ ∃ hs D, state c v0 m hs ∅ D v
  else ter = tesSUCCESS ∧ ∃ saFrom saTo hs D,
    state c v0 (paid field sender receiver ss sr saFrom saTo m) hs ∅ D v ∧
    AmtFacts.sv saFrom = AmtFacts.sv bs - AmtFacts.sv amount ∧
    AmtFacts.sv saTo = AmtFacts.sv br + AmtFacts.sv amount.

Section native.
Context (sender receiver : AccountID) (amount : Amt.STAmount) (ss sr : SLE STObject).
Context (Hs : sender ∈ A) (Hr : receiver ∈ A) (Hne : sender ≠ receiver) (Hamt : native amount).
#[local] Abbreviation field := (balance_field amount).
#[local] Abbreviation bs := (getFieldAmount field (fields ss)).
#[local] Abbreviation br := (getFieldAmount field (fields sr)).
Context (Hbs : native bs) (Hbr : native br).

Lemma give_ok m hs D v q :
  state c v0 m hs ∅ D v → hs !! q = Some (getAccountRootIndex receiver) → m !! getAccountRootIndex receiver = Some sr →
  wp (let! balance := get q (getFieldAmount field) in
      let! balance := lift (Amt.add balance amount) in
      set q (setFieldAmount field balance);;
      update q;;
      ret tesSUCCESS) v (λ ter v', ter = tesSUCCESS ∧ ∃ saTo D',
        state c v0 (<[getAccountRootIndex receiver := with_fields sr (setFieldAmount field saTo)]> m) hs ∅ D' v' ∧
        AmtFacts.sv saTo = AmtFacts.sv br + AmtFacts.sv amount).
Proof using Hamt Hbr.
  intros Hst Hq Hm. eapply wp_get_bind; [done..|].
  destruct (AmtFacts.add_native br amount (proj1 Hbr) (proj1 Hamt) (proj2 Hbr) (proj2 Hamt)) as (r & E & Hsv & _).
  apply wp_bind. unfold lift, wp at 1. rewrite E. cbn [rbind].
  eapply wp_set_update; [done..|apply not_elem_of_empty|]. intros v1 H1. apply wp_ret. split; [done|]. by eauto.
Qed.

Lemma take_ok {B} m hs D v p (g : prog STObject V B) (f : prog STObject V B) Q :
  state c v0 m hs ∅ D v → hs !! p = Some (getAccountRootIndex sender) → m !! getAccountRootIndex sender = Some ss →
  (AmtFacts.sv bs < AmtFacts.sv amount → wp f v Q) →
  (∀ saFrom v' D', AmtFacts.sv amount ≤ AmtFacts.sv bs → AmtFacts.sv saFrom = AmtFacts.sv bs - AmtFacts.sv amount →
     state c v0 (<[getAccountRootIndex sender := with_fields ss (setFieldAmount field saFrom)]> m) hs ∅ D' v' → wp g v' Q) →
  wp (let! balance := get p (getFieldAmount field) in
      let! less := lift (Amt.ltb balance amount) in
      if less then f
      else
        let! balance := lift (Amt.sub balance amount) in
        set p (setFieldAmount field balance);;
        update p;;
        g) v Q.
Proof using Hamt Hbs.
  intros Hst Hp Hm Hf Hg. eapply wp_get_bind; [done..|].
  apply wp_bind. unfold lift, wp at 1. rewrite AmtFacts.ltb_native by (apply Hbs || apply Hamt). cbn [rbind].
  destruct (Z.ltb_spec (AmtFacts.sv bs) (AmtFacts.sv amount)) as [Hlt|Hle]; [by apply Hf|].
  destruct (native_sub bs amount Hbs Hamt) as (r & E & Hsv). apply wp_bind. unfold wp at 1. rewrite E. cbn [rbind].
  eapply wp_set_update; [done..|apply not_elem_of_empty|]. intros v1 H1. by eapply Hg.
Qed.

Lemma transferXRP_ok X dirs m hs D v :
  state c v0 m hs ∅ D v → ledger A X dirs m →
  m !! getAccountRootIndex sender = Some ss → m !! getAccountRootIndex receiver = Some sr →
  wp (transferXRP info sender receiver amount) v (native_outcome sender receiver amount ss sr m).
Proof using AP Hbase Hs Hr Hne Hamt Hbs Hbr.
  intros Hst HL Hms Hmr. destruct (account_lookup A _ _ _ sender HL Hs) as (? & E1 & _ & Hks).
  destruct (account_lookup A _ _ _ receiver HL Hr) as (? & E2 & _ & Hkr).
  unfold transferXRP. eapply wp_peek_some; [done..|]. intros p v1 Hsub1 H1.
  eapply wp_peek_some; [done..|]. intros q v2 Hsub2 H2. cbn [k_key keylet.account] in *.
  apply wp_bind, wp_ret. unfold native_outcome.
  eapply take_ok; [done|by eapply lookup_weaken; [apply lookup_insert_eq|]|done|..].
  - intros Hlt. apply wp_ret. rewrite (proj2 (Z.ltb_lt _ _) Hlt). by eauto.
  - intros saFrom v3 D3 Hle Hsv H3. rewrite (proj2 (Z.ltb_ge _ _) Hle). apply wp_bind, wp_ret.
    eapply wp_mono; [eapply give_ok; [done|apply lookup_insert_eq|]|].
    + rewrite lookup_insert_ne; [done|]. by intros ?%(account_key_inj A).
    + cbn beta. intros ter v4 (-> & saTo & D4 & H4 & Hsv'). split; [done|]. by eexists saFrom, saTo, _, _.
Qed.

Lemma accountSend_native X dirs m hs D v steps fuel :
  state c v0 m hs ∅ D v → ledger A X dirs m → sender ≠ 0 → receiver ≠ 0 → Amt.is_zero amount = false →
  m !! getAccountRootIndex sender = Some ss → m !! getAccountRootIndex receiver = Some sr →
  wp (accountSend info steps fuel sender receiver amount) v (native_outcome sender receiver amount ss sr m).
Proof using AP Hbase Hs Hr Hne Hamt Hbs Hbr.
  intros Hst HL Hs0 Hr0 Hz Hms Hmr. destruct (account_lookup A _ _ _ sender HL Hs) as (? & E1 & _ & Hks).
  destruct (account_lookup A _ _ _ receiver HL Hr) as (? & E2 & _ & Hkr).
  unfold accountSend. rewrite Hz, (proj2 (Z.eqb_neq sender receiver) Hne), (proj2 Hamt), (proj2 (Z.eqb_neq sender 0) Hs0),
    (proj2 (Z.eqb_neq receiver 0) Hr0). cbn [orb negb].
  apply wp_bind, wp_ret. eapply wp_peek_some; [done..|]. intros p v1 Hsub1 H1.
  eapply wp_peek_some; [done..|]. intros q v2 Hsub2 H2. cbn [k_key keylet.account] in *.
  apply wp_bind. unfold native_outcome.
  eapply take_ok; [done|by eapply lookup_weaken; [apply lookup_insert_eq|]|done|..].
  - intros Hlt. apply wp_ret. rewrite (proj2 (Z.ltb_lt _ _) Hlt), bool_decide_false by (unfold failed_processing; by destruct (open info)).
    apply wp_ret. by eauto.
  - intros saFrom v3 D3 Hle Hsv H3. rewrite (proj2 (Z.ltb_ge _ _) Hle). apply wp_ret. rewrite bool_decide_true by done.
    eapply wp_mono; [eapply give_ok; [done|apply lookup_insert_eq|]|].
    + rewrite lookup_insert_ne; [done|]. by intros ?%(account_key_inj A).
    + cbn beta. intros ter v4 (-> & saTo & D4 & H4 & Hsv'). split; [done|]. by eexists saFrom, saTo, _, _.
Qed.

End native.

(** ** Payments through an issuer *)

(** [rippleTransferFee]: the fee the issuer takes, as far as the ledger says. *)
Definition transfer_rate m (issuer : AccountID) : Z :=
  match lookup_keylet m (keylet.account issuer) with
  | Some sle => if present (u32s (fields sle)) sfTransferRate then getFieldU32 sfTransferRate (fields sle) else QUALITY_ONE
  | None => QUALITY_ONE
  end.

Definition transfer_fee (rate : Z) (amount : Amt.STAmount) : result Amt.STAmount :=
  if negb (QUALITY_ONE =? rate) then
    let* rate := Arith.amountFromRate rate in
    let* total := Arith.multiply amount rate (Amt.mIssue amount) in
    Amt.sub total amount
  else Ok (Amt.zero_of (Amt.mIssue amount)).

Lemma rippleTransferFee_ok m hs D v sender receiver issuer amount fee :
  state c v0 m hs ∅ D v → sender ≠ issuer → receiver ≠ issuer → currency_of amount ≠ assetCurrency →
  transfer_fee (transfer_rate m issuer) amount = Ok fee →
  wp (rippleTransferFee sender receiver issuer amount) v (λ x v', x = fee ∧ v' = v).
Proof using Hbase.
  intros Hst Hsi Hri Hasset Hfee. unfold rippleTransferFee.
  rewrite (proj2 (Z.eqb_neq _ _) Hsi), (proj2 (Z.eqb_neq _ _) Hri), (proj2 (Z.eqb_neq _ _) Hasset). cbn [negb andb].
  apply wp_bind. unfold rippleTransferRate. eapply wp_read; [done|done|]. apply wp_ret.
  fold (transfer_rate m issuer). unfold transfer_fee in Hfee. destruct (negb (QUALITY_ONE =? transfer_rate m issuer)).
  - apply wp_bind. unfold lift, wp at 1. destruct (Arith.amountFromRate _) as [r|]; [|done]. cbn [rbind] in *.
    apply wp_bind. unfold wp at 1. destruct (Arith.multiply _ _ _) as [t|]; [|done]. cbn [rbind] in *.
    unfold wp. by rewrite Hfee.
  - injection Hfee as <-. by apply wp_ret.
Qed.

(** The part of the fee for the sender's referees, and what one of five gets. *)
Definition fee_share (fee : Amt.STAmount) : result Amt.STAmount :=
  let* quarter := Amt.make_signed (Amt.mIssue fee) 25 (-2) in Arith.multiply fee quarter (Amt.mIssue fee).

Definition share_each (share : Amt.STAmount) : result Amt.STAmount :=
  let* fifth := Amt.make_signed (Amt.mIssue share) 2 (-1) in Arith.multiply share fifth (Amt.mIssue share).

(** There is no fee, or there are no dividends. *)
Definition nothing_shared m (fee : Amt.STAmount) : Prop :=
  Amt.is_zero fee = true ∨
  (lookup_keylet m keylet.dividend = None ∧ ∃ share each, fee_share fee = Ok share ∧ share_each share = Ok each).

Lemma no_sharing m hs D v steps fuel sender issuer fee :
  state c v0 m hs ∅ D v → nothing_shared m fee →
  wp (if Amt.is_zero fee then ret tesSUCCESS
      else
        let! quarter := lift (Amt.make_signed (Amt.mIssue fee) 25 (-2)) in
        let! saTransFeeShare := lift (Arith.multiply fee quarter (Amt.mIssue fee)) in
        shareFeeWithReferee info steps fuel sender issuer saTransFeeShare) v (λ ter v', ter = tesSUCCESS ∧ v' = v).
Proof using Hbase.
  intros Hst [->|(Hdiv & share & each & Hshare & Heach)]; [by apply wp_ret|]. destruct (Amt.is_zero fee); [by apply wp_ret|].
  unfold fee_share, share_each, lift in *. apply wp_bind. unfold wp at 1.
  destruct (Amt.make_signed (Amt.mIssue fee) 25 (-2)) as [quarter|]; [|done]. cbn [rbind] in *.
  apply wp_bind. unfold wp at 1. rewrite Hshare. cbn [rbind]. unfold shareFeeWithReferee, lift.
  apply wp_bind. unfold wp at 1. destruct (Amt.make_signed (Amt.mIssue share) 2 (-1)) as [fifth|]; [|done]. cbn [rbind] in *.
  apply wp_bind. unfold wp at 1. rewrite Heach. cbn [rbind]. eapply wp_read; [done|done|]. rewrite Hdiv. by apply wp_ret.
Qed.

End pay.
End TrustPay.
