(* ===== verification/TrustRefer.v ===== *)
(** * Referrals

    [addRefer] records who referred whom; since an account that refers others
    cannot be referred any more, the referrals never form a cycle. *)

From stdpp Require Import strings functions.
From S2P Require Import Prelude StateMonad Issue STAmount BigNum Views ApplyStateTable ApplyFacts ViewLogic Objects.
From S2P Require Import Directory DirectoryRep Indexes TrustLines TrustRep.
Import Apply ApplyFacts VL Dir DirRep Idx Trust TrustRep.

Open Scope Z_scope.
Open Scope prog_scope.

Module TrustRefer.

(** Setting a field of an entry that is not in the view yet. *)
Lemma make_set {F V B} (f : F) k (g : F → F) (h : loc → prog F V B) (v : ApplyView F V) :
  bind (make_sle f k) (λ p, set p g;; h p) v = bind (make_sle (g f) k) h v.
Proof.
  unfold bind, make_sle, set, make_shared, deref, assign. cbn [rbind fst snd]. unfold set_store. cbn [store].
  rewrite lookup_insert_eq. cbn [rbind fst snd]. by rewrite alter_insert_eq.
Qed.

Section refer.
Context `{Dg : Digest} (A : gset Z) {AP : Apart A}.
Implicit Types (m : gmap Z (SLE STObject)) (a b : AccountID).

(** The account's referee, and the accounts an account has referred. *)
Definition has_referee (o : STObject) : bool := present (accounts o) sfReferee && negb (getAccountID sfReferee o =? 0).

Definition referee_of m a : option AccountID :=
  match lookup_keylet m (keylet.account a) with
  | Some s => if has_referee (fields s) then Some (getAccountID sfReferee (fields s)) else None
  | None => None
  end.

Definition references_of m b : option (list STInner) :=
  match lookup_keylet m (keylet.refer b) with
  | Some s => arrays (fields s) !! sfReferences
  | None => None
  end.

(** Every referral is recorded on both sides, and they form no cycle: a referee
    ranks higher than those it has referred. *)
Record forest m : Prop := {
  forest_type b s : b ∈ A → m !! getReferIndex b = Some s → sle_type s = ltREFER;
  forest_listed a b : a ∈ A → referee_of m a = Some b →
    b ∈ A ∧ ∃ l, references_of m b = Some l ∧ a ∈ inner_getAccountID sfReference <$> l;
  forest_rank : ∃ rank : Z → nat, ∀ a b, a ∈ A → referee_of m a = Some b → (rank a < rank b)%nat
}.

(** The referees of an account, one after the other, up to one that has none. *)
Inductive ancestors m : AccountID → list AccountID → Prop :=
  | ancestors_none a : referee_of m a = None → ancestors m a []
  | ancestors_some a b l : referee_of m a = Some b → ancestors m b l → ancestors m a (b :: l).

(** There are finitely many, all different. *)
Lemma forest_ancestors m a :
  forest m → a ∈ A → ∃ l, ancestors m a l ∧ NoDup (a :: l) ∧ ∀ b, b ∈ l → b ∈ A.
Proof using Type.
  intros [_ Hl [rank Hrank]] Ha.
  assert (∀ n a, (base.size (filter (λ x, (rank a < rank x)%nat) A) < n)%nat → a ∈ A →
    ∃ l, ancestors m a l ∧ NoDup l ∧ ∀ b, b ∈ l → b ∈ A ∧ (rank a < rank b)%nat) as H.
  { clear a Ha. induction n as [|n IH]; intros a Hn Ha; [lia|].
    destruct (referee_of m a) as [b|] eqn:Hr; [|exists []; split; [by constructor|]; split; [constructor|]; by intros b ?%elem_of_nil].
    destruct (Hl a b Ha Hr) as [Hb _]. pose proof (Hrank a b Ha Hr) as Hab.
    destruct (IH b) as (l & Hanc & Hnd & Hin); [|done|].
    - assert (filter (λ x, (rank b < rank x)%nat) A ⊂ filter (λ x, (rank a < rank x)%nat) A) as Hss%subset_size; [|lia].
      split; [intros x; rewrite !elem_of_filter; intros [??]; split; [lia|done]|].
      intros Hsub. specialize (Hsub b). rewrite !elem_of_filter in Hsub. destruct Hsub; [done|]. lia.
    - exists (b :: l). split; [by econstructor|]. split.
      + constructor; [|done]. intros Hi. destruct (Hin b Hi). lia.
      + intros x [->|Hx]%elem_of_cons; [done|]. destruct (Hin x Hx). split; [done|lia]. }
  destruct (H _ a (Nat.lt_succ_diag_r _) Ha) as (l & Hanc & Hnd & Hin).
  exists l. split; [done|]. split; [|intros b Hb; by apply Hin]. constructor; [|done]. intros Hi. destruct (Hin a Hi). lia.
Qed.

(** ** addRefer *)

(** [addRefer] has made [referee] the referee of [reference]. *)
Record referred (referee reference : AccountID) m m' : Prop := {
  referred_new : referee_of m' reference = Some referee;
  referred_others a : a ∈ A → a ≠ reference → referee_of m' a = referee_of m a;
  referred_listed : references_of m' referee =
    Some (default [] (references_of m referee) ++ [reference_to reference]);
  referred_lists b : b ∈ A → b ≠ referee → references_of m' b = references_of m b;
  referred_type b s : b ∈ A → m' !! getReferIndex b = Some s → sle_type s = ltREFER
}.

Lemma referred_forest referee reference m m' :
  referee ∈ A → reference ∈ A → referee ≠ reference →
  references_of m reference = None → forest m → referred referee reference m m' → forest m'.
Proof using Type.
  intros Hfe Hfr Hne Hleaf [_ Hl [rank Hrank]] [Hnew Hoth Hlist Hlists Htype]. split; [done|..].
  - intros a b Ha Hr. destruct (decide (a = reference)) as [->|Hna].
    + rewrite Hnew in Hr. injection Hr as <-. split; [done|]. eexists. split; [done|].
      rewrite fmap_app, elem_of_app. right. by left.
    + rewrite Hoth in Hr by done. destruct (Hl a b Ha Hr) as (Hb & l & El & Hin). split; [done|].
      destruct (decide (b = referee)) as [->|Hnb].
      * eexists. split; [done|]. rewrite El, fmap_app, elem_of_app. by left.
      * exists l. by rewrite Hlists.
  - exists (λ x, if decide (x = reference) then O else S (rank x)). intros a b Ha Hr.
    destruct (decide (a = reference)) as [->|Hna].
    + rewrite Hnew in Hr. injection Hr as <-. destruct (decide (referee = reference)); [done|lia].
    + rewrite Hoth in Hr by done. destruct (Hl a b Ha Hr) as (_ & l & El & _).
      destruct (decide (b = reference)) as [->|]; [congruence|]. specialize (Hrank a b Ha Hr). lia.
Qed.

Lemma keylet_Some m k s : lookup_keylet m k = Some s → m !! k_key k = Some s.
Proof using Type. unfold lookup_keylet. destruct (m !! k_key k) as [s'|]; [|done]. destruct (check k s'); [congruence|done]. Qed.

Lemma keylet_insert m k k' s : k_key k = k' → check k s = true → lookup_keylet (<[k' := s]> m) k = Some s.
Proof using Type. intros <- Hc. unfold lookup_keylet. by rewrite lookup_insert_eq, Hc. Qed.

Lemma keylet_insert_ne m k k' s : k_key k ≠ k' → lookup_keylet (<[k' := s]> m) k = lookup_keylet m k.
Proof using Type. intros Hne. unfold lookup_keylet. by rewrite lookup_insert_ne. Qed.

Lemma refer_none m b : forest m → b ∈ A → lookup_keylet m (keylet.refer b) = None → m !! getReferIndex b = None.
Proof using Type.
  intros Hf Hb. unfold lookup_keylet, check. cbn [k_key k_type keylet.refer keylet.refer_key].
  destruct (m !! getReferIndex b) as [s|] eqn:E; [|done]. by rewrite (forest_type m Hf b s Hb E).
Qed.

(** The new entries. *)
Lemma new_referred referee reference m s sr sr' :
  referee ∈ A → reference ∈ A → referee ≠ reference → referee ≠ 0 → forest m →
  lookup_keylet m (keylet.account reference) = Some s →
  sle_type sr = ltREFER → arrays (fields sr) !! sfReferences = references_of m referee →
  sr' = with_fields sr (setFieldArray sfReferences
          (default [] (references_of m referee) ++ [reference_to reference])) →
  referred referee reference m
    (<[getAccountRootIndex reference := with_fields s (setAccountID sfReferee referee)]> (<[getReferIndex referee := sr']> m)).
Proof using AP.
  intros Hfe Hfr Hne H0 Hf Hs Ht Hl ->.
  assert (∀ a, a ∈ A → k_key (keylet.account a) ≠ getReferIndex referee) as N1 by (intros a Ha; by apply not_eq_sym, (refer_not_account A)).
  assert (∀ a, a ∈ A → k_key (keylet.refer a) ≠ getAccountRootIndex reference) as N2 by (intros a Ha; by apply (refer_not_account A)).
  assert (check (keylet.account reference) s = true) as Hchk.
  { unfold lookup_keylet in Hs. destruct (m !! _) as [s'|]; [|done]. destruct (check _ s') eqn:E; [|done]. congruence. }
  split.
  - unfold referee_of. rewrite keylet_insert by done. unfold has_referee, getAccountID, present. simpl.
    rewrite lookup_insert_eq. simpl. by rewrite (proj2 (Z.eqb_neq referee 0) H0).
  - intros a Ha Hna. unfold referee_of. rewrite !keylet_insert_ne; [done|by apply N1|]. by intros ?%(account_key_inj A).
  - unfold references_of at 1. rewrite keylet_insert_ne by (by apply N2). rewrite keylet_insert.
    + simpl. by rewrite lookup_insert_eq.
    + done.
    + unfold check. simpl. by rewrite Ht.
  - intros b Hb Hnb. unfold references_of. rewrite !keylet_insert_ne; [done|by intros ?%(refer_key_inj A)|by apply N2].
  - intros b s' Hb. rewrite lookup_insert_ne by (by apply not_eq_sym, N2). destruct (decide (b = referee)) as [->|Hnb].
    + rewrite lookup_insert_eq. intros [= <-]. done.
    + rewrite lookup_insert_ne by (by intros ?%(refer_key_inj A)). by apply (forest_type m Hf).
Qed.

(** ** The program *)

Context `{BN : BigNum} {V : Type} {RV : ReadView STObject V}.
Context (c : gmap Z (SLE STObject)) (v0 : ApplyView STObject V) (Hbase : reads_as (base_ v0) c).
Implicit Types (v : ApplyView STObject V) (hs : gmap loc Z) (D : gset Z).

Lemma peek_any m hs D v k :
  state c v0 m hs ∅ D v →
  wp (peek k) v (λ o v', ∃ hs', hs ⊆ hs' ∧ state c v0 m hs' ∅ D v' ∧
    match o with
    | Some p => hs' !! p = Some (k_key k) ∧ ∃ s, lookup_keylet m k = Some s
    | None => lookup_keylet m k = None
    end).
Proof using Hbase.
  intros Hst. eapply wp_peek; [done|done|..].
  - intros v' Hn H'. by exists hs.
  - intros s p v' Hl Hsub H'. exists (<[p := k_key k]> hs). split; [done|]. split; [done|].
    split; [apply lookup_insert_eq|eauto].
Qed.

Definition add_refer_post (referee reference : AccountID) m (ter : TER) v : Prop :=
  (ter ≠ tesSUCCESS ∧ ∃ hs D, state c v0 m hs ∅ D v) ∨
  (ter = tesSUCCESS ∧ referee ≠ reference ∧ references_of m reference = None ∧ referee_of m reference = None ∧
   ∃ m' hs D, state c v0 m' hs ∅ D v ∧ referred referee reference m m').

(** The last steps: the entry of the referee is there. *)
Lemma add_ok m m1 hs D v p q referee reference s sr refs :
  state c v0 m1 hs ∅ D v → forest m → referee ∈ A → reference ∈ A → referee ≠ reference → referee ≠ 0 →
  references_of m reference = None → referee_of m reference = None →
  m1 = <[getReferIndex referee := sr]> m → getReferIndex referee ∈ D →
  hs !! q = Some (getReferIndex referee) → hs !! p = Some (getAccountRootIndex reference) →
  lookup_keylet m (keylet.account reference) = Some s →
  sle_type sr = ltREFER → arrays (fields sr) !! sfReferences = references_of m referee →
  default [] (references_of m referee) = refs →
  wp (set q (setFieldArray sfReferences (refs ++ [reference_to reference]));;
      set p (setAccountID sfReferee referee);;
      update p;;
      ret tesSUCCESS) v (add_refer_post referee reference m).
Proof using AP.
  intros Hst Hf Hfe Hfr Hne H0 Hleaf Hno -> HD Hq Hp Hs Ht Hl <-.
  assert (getReferIndex referee ≠ getAccountRootIndex reference) as Hk by (by apply (refer_not_account A)).
  eapply wp_set_known; [done|done|apply lookup_insert_eq|apply not_elem_of_empty|done|]. intros v1 H1.
  rewrite insert_insert_eq in H1.
  eapply wp_set_update; [done|done| |apply not_elem_of_empty|].
  { rewrite lookup_insert_ne by done. by apply keylet_Some in Hs. }
  intros v2 H2. apply wp_ret. right. split; [done|]. split; [done|]. split; [done|]. split; [done|].
  eexists _, _, _. split; [exact H2|]. by eapply new_referred.
Qed.

Lemma addRefer_ok m hs D v referee reference :
  state c v0 m hs ∅ D v → forest m → referee ∈ A → reference ∈ A → referee ≠ 0 →
  wp (addRefer referee reference) v (add_refer_post referee reference m).
Proof using AP Hbase.
  intros Hst Hf Hfe Hfr H0. unfold addRefer. destruct (Z.eqb_spec referee reference) as [|Hne].
  { apply wp_ret. left. by eauto. }
  apply wp_bind. eapply wp_mono; [by apply peek_any|]. intros o1 v1 (hs1 & Hs1 & H1 & O1).
  apply wp_bind. eapply wp_mono; [by apply peek_any|]. intros o2 v2 (hs2 & Hs2 & H2 & O2).
  apply wp_bind. eapply wp_mono; [by apply peek_any|]. intros o3 v3 (hs3 & Hs3 & H3 & O3).
  eapply wp_read; [done|done|].
  change (keylet.refer_key (getAccountReferIndex reference)) with (keylet.refer reference).
  change (keylet.refer_key (getAccountReferIndex referee)) with (keylet.refer referee) in *.
  destruct (match lookup_keylet m (keylet.refer reference) with Some _ => _ | None => _ end) eqn:Epres.
  { apply wp_ret. left. by eauto. }
  assert (references_of m reference = None) as Hleaf.
  { unfold references_of, present in *. destruct (lookup_keylet m (keylet.refer reference)) as [s|]; [|done].
    by destruct (arrays (fields s) !! sfReferences). }
  destruct o1 as [p1|]; [|apply wp_ret; left; by eauto]. destruct o2 as [p2|]; [|apply wp_ret; left; by eauto].
  destruct O2 as [Hp2 [s Hs]]. assert (hs3 !! p2 = Some (getAccountRootIndex reference)) as Hp by (by eapply lookup_weaken).
  eapply wp_get_bind; [done|done|by apply keylet_Some in Hs|]. fold (has_referee (fields s)).
  destruct (has_referee (fields s)) eqn:Eh; [apply wp_ret; left; by eauto|].
  assert (referee_of m reference = None) as Hno by (unfold referee_of; by rewrite Hs, Eh).
  destruct o3 as [q|].
  - destruct O3 as [Hq [sr Hsr]]. pose proof (keylet_Some m _ sr Hsr) as Hmr.
    eapply wp_get_bind; [done|done|done|].
    assert (arrays (fields sr) !! sfReferences = references_of m referee) as Hrefs by (unfold references_of; by rewrite Hsr).
    rewrite Hrefs. destruct (1024 <? _)%nat; [apply wp_ret; left; by eauto|].
    destruct (existsb _ _); [apply wp_ret; left; by eauto|].
    eapply wp_set_update; [done|done|done|apply not_elem_of_empty|]. intros v4 H4. cbn [k_key keylet.refer keylet.refer_key] in *.
    eapply add_ok; try done; [set_solver|]. exact (forest_type m Hf referee sr Hfe Hmr).
  - pose proof (refer_none m referee Hf Hfe O3) as Hnone.
    assert (references_of m referee = None) as Hrefs by (unfold references_of; by rewrite O3).
    eapply wp_same; [apply make_set|]. eapply wp_make_insert_clean; [done|done|apply not_elem_of_empty|].
    intros q v4 Hsub H4. cbn [k_key k_type keylet.refer keylet.refer_key] in *.
    eapply add_ok; try done; [set_solver|apply lookup_insert_eq|by eapply lookup_weaken|by rewrite Hrefs].
Qed.

End refer.
End TrustRefer.
