(* ===== verification/TrustProps.v ===== *)
(** * What trust lines guarantee

    The theorems about the functions that move balances, and a ledger to try them
    on. *)

From stdpp Require Import strings functions.
From S2P Require Import Prelude StateMonad Issue Decimal IOUAmount STAmount BigNum STAmountFacts Views ApplyStateTable.
From S2P Require Import ApplyFacts ViewLogic Objects Directory DirectoryRep DirectoryFacts Indexes.
From S2P Require Import TrustLines TrustRep TrustFacts TrustBalance TrustPay TrustRefer.
Import Apply ApplyFacts VL Dir DirRep DirFacts Idx Trust TrustRep TrustFacts TrustBalance TrustPay TrustRefer.

Open Scope Z_scope.
Open Scope prog_scope.

Module TrustProps.

Section properties.
Context `{Dg : Digest} `{BN : BigNum} {V : Type} {RV : ReadView STObject V} (info : LedgerInfo).
Context (A : gset Z) {AP : Apart A}.
Implicit Types (m c : gmap Z (SLE STObject)) (v : ApplyView STObject V) (dirs : Z → gmap Z (list Z)).

(** What the functions below are used on: a view that shows a well-formed ledger,
    with no change pending. *)
Definition shows c v dirs m : Prop := reads_as (base_ v) c ∧ sees c ∅ v m ∧ ledger A ∅ dirs m.

(** Two parties, and an amount of a currency that is neither native nor an
    asset. *)
Definition payable (sender receiver : AccountID) (amount : Amt.STAmount) : Prop :=
  sender ∈ A ∧ receiver ∈ A ∧ sender ≠ receiver ∧ is_id (currency_of amount) ∧
  isNative (currency_of amount) = false ∧ currency_of amount ≠ assetCurrency ∧ AmtFacts.wf amount.

Lemma shows_state c v dirs m : shows c v dirs m → state c v m ∅ ∅ ∅ v.
Proof using Type.
  intros (_ & Hs & _). split; [done|done|intros p k; by rewrite lookup_empty|by intros k ?%elem_of_empty].
Qed.

(** The outcomes of a credit: the amount moves; or the balance would overflow; or
    there is no line and an owner directory is full. *)
Definition credit_outcome c v dirs m (sender receiver : AccountID) (amount : Amt.STAmount)
    (r : result (TER * ApplyView STObject V)) : Prop :=
  let cur := currency_of amount in
  match r with
  | Ok (tesSUCCESS, v') => ∃ dirs' m', shows c v' dirs' m' ∧ frame v v' ∧ moves A sender receiver cur amount m m'
  | Ok (ter, _) =>
      ter = tecDIR_FULL ∧ m !! getRippleStateIndex sender receiver cur = None ∧
      (has (dirs sender) (2 ^ 64 - 1) ∨ has (dirs receiver) (2 ^ 64 - 1))
  | Throw e => e = runtime_error "value overflow" ∧ ∃ e', Amt.sub (holds m sender receiver cur) amount = Throw e'
  end.

Lemma transferred_outcome c v dirs m sender receiver amount r :
  shows c v dirs m → payable sender receiver amount →
  transferred c v A sender receiver (currency_of amount) dirs m amount r →
  credit_outcome c v dirs m sender receiver amount r.
Proof using AP.
  intros (Hb & Hsees & HL) (Hs & Hr & Hne & Hc & Hnat & Hasset & Hwf). unfold transferred, credit_outcome.
  set (cur := currency_of amount) in *. rewrite line_of_index by done.
  assert (issued cur amount) as Ham by done.
  destruct (m !! _) as [s|] eqn:Hm.
  - destruct (Amt.sub _ amount) as [after|e] eqn:E.
    + intros (ter & v' & -> & -> & dirs' & m' & hs & D & Hst & HL' & Hsame). exists dirs', m'.
      pose proof (state_reads _ _ Hb _ _ _ _ _ Hst) as Hb'.
      split; [split; [done|split; [apply Hst|done]]|]. split; [apply Hst|]. by eapply credited_moves.
    + intros ->. pose proof (line_issued A sender receiver cur Hs Hr Hne Hc dirs m s HL Hm) as Hi.
      destruct (holds_sides sender receiver cur Hne m s (side (receiver <? sender) (getFieldAmount sfBalance (fields s))))
        as [-> _]; [done|by rewrite (side_side sender receiver cur)|by apply issued_side|].
      split; [by eapply (sub_throws cur Hnat); [apply issued_side| |exact E]|].
      by eapply (sub_setIssuer_throws cur Hnat); [apply issued_side|..].
  - intros (ter & v' & -> & [(-> & dirs' & m' & hs & D & s & n & n' & sa & Hst & HL' & Hsa & Hsame & Hnew)|(-> & Hfull)]).
    + exists dirs', m'. pose proof (state_reads _ _ Hb _ _ _ _ _ Hst) as Hb'.
      split; [split; [done|split; [apply Hst|done]]|]. split; [apply Hst|]. by eapply made_moves.
    + done.
Qed.

Lemma rippleCredit_outcome c v dirs m sender receiver amount fuel :
  shows c v dirs m → payable sender receiver amount →
  credit_outcome c v dirs m sender receiver amount (rippleCredit info fuel sender receiver amount v).
Proof using AP.
  intros Hv Hp. apply transferred_outcome; [done..|]. destruct Hp as (Hs & Hr & Hne & Hc & Hnat & Hasset & Hwf).
  pose proof (shows_state _ _ _ _ Hv) as Hst. destruct Hv as (Hb & _ & HL). by eapply rippleCredit_transferred.
Qed.



(** [accountHolds] tells what an account holds of a currency an account issues
    (nothing, if that is asked for and the line is frozen), changes nothing, and
    tells the two sides of a line the same amount with opposite signs. *)
Theorem account_holds c v dirs m acct other amount fuel zeroIfFrozen :
  let cur := currency_of amount in
  shows c v dirs m → payable acct other amount →
  (∃ v', accountHolds info fuel acct cur other zeroIfFrozen v =
     Ok (if zeroIfFrozen && frozen acct other cur m then Amt.zero_of (mkIssue cur other) else holds m acct other cur, v') ∧
     shows c v' dirs m ∧ frame v v') ∧
  holds m other acct cur = Amt.setIssuer (Amt.neg (holds m acct other cur)) acct.
Proof using AP.
  intros cur Hv (Hs & Hr & Hne & Hc & Hnat & Hasset & Hwf). pose proof (shows_state _ _ _ _ Hv) as Hst.
  destruct Hv as (Hb & Hsees & HL). split.
  - pose proof (accountHolds_ok info c v Hb A acct other cur Hs Hr Hne Hc Hnat dirs m ∅ ∅ v fuel zeroIfFrozen Hasset Hst HL) as Hwp.
    apply wp_run in Hwp as (r & v' & E & -> & hs' & _ & H'). exists v'. split; [done|].
    split; [|apply H']. split; [by eapply state_reads|]. split; [apply H'|done].
  - destruct (m !! line_of (other <? acct) acct other cur) as [s|] eqn:Hm.
    + pose proof (line_issued A acct other cur Hs Hr Hne Hc dirs m s HL Hm) as Hi.
      destruct (holds_sides acct other cur Hne m s (side (other <? acct) (getFieldAmount sfBalance (fields s))))
        as [-> ->]; [done|by rewrite (side_side acct other cur)|by apply issued_side|]. by rewrite neg_setIssuer.
    + destruct (holds_none acct other cur Hne m Hm) as [-> ->]. done.
Qed.

(** ** Sequences of transfers *)

Inductive transfer :=
  | Credit (sender receiver : AccountID) (amount : Amt.STAmount)
  | IssueIOU (sender receiver : AccountID) (amount : Amt.STAmount)
  | RedeemIOU (sender receiver : AccountID) (amount : Amt.STAmount).

Definition transfer_valid (t : transfer) : Prop :=
  match t with Credit s r a | IssueIOU s r a | RedeemIOU s r a => payable s r a end.

Definition run_transfer (fuel : nat) (t : transfer) : prog STObject V TER :=
  match t with
  | Credit s r a => rippleCredit info fuel s r a
  | IssueIOU s r a => issueIOU info fuel r a (mkIssue (currency_of a) s)
  | RedeemIOU s r a => redeemIOU s a (mkIssue (currency_of a) r)
  end.

(** Up to the first that does not succeed. *)
Fixpoint run_transfers (fuel : nat) (ts : list transfer) : prog STObject V TER :=
  match ts with
  | [] => ret tesSUCCESS
  | t :: ts =>
      let! ter := run_transfer fuel t in
      if bool_decide (ter = tesSUCCESS) then run_transfers fuel ts else ret ter
  end.

Lemma run_transfer_ok c v dirs m fuel t :
  shows c v dirs m → transfer_valid t →
  match run_transfer fuel t v with
  | Ok (tesSUCCESS, v') | Ok (tefINTERNAL, v') => ∃ dirs' m', shows c v' dirs' m' ∧ frame v v'
  | Ok (ter, _) => ter = tecDIR_FULL
  | Throw e => e = runtime_error "value overflow"
  end.
Proof using AP.
  intros Hv Ht. assert (∀ s r a x, payable s r a → transferred c v A s r (currency_of a) dirs m a x →
    match x with
    | Ok (tesSUCCESS, v') | Ok (tefINTERNAL, v') => ∃ dirs' m', shows c v' dirs' m' ∧ frame v v'
    | Ok (ter, _) => ter = tecDIR_FULL
    | Throw e => e = runtime_error "value overflow"
    end) as Hx.
  { intros s r a x Hp Hx. pose proof (transferred_outcome c v dirs m s r a x Hv Hp Hx) as Ho.
    destruct x as [[[] v']|e]; try (by destruct Ho as (Ho & _)).
    destruct Ho as (dirs' & m' & ? & ? & _). eauto. }
  destruct t as [s r a|s r a|s r a]; cbn [transfer_valid run_transfer] in *;
    pose proof (shows_state _ _ _ _ Hv) as Hst; pose proof Hv as (Hb & _ & HL);
    pose proof Ht as (Hs & Hr & Hne & Hc & Hnat & Hasset & Hwf).
  - apply (Hx s r a); [done|]. by eapply rippleCredit_transferred.
  - apply (Hx s r a); [done|]. by eapply issueIOU_transferred.
  - pose proof (redeemIOU_transferred c v Hb A s r _ Hs Hr Hne Hc dirs m ∅ ∅ v a _ Hst HL Hwf eq_refl Hnat eq_refl) as Hred.
    destruct (m !! _) as [s'|]; [by apply (Hx s r a)|]. destruct Hred as (v' & -> & H'). exists dirs, m.
    split; [|apply H']. split; [by eapply state_reads|]. split; [apply H'|done].
Qed.


(** ** Payments *)

(** C16: A native payment between two accounts, by [accountSend] or by
    [transferXRP], is refused with nothing changed when the sender has less than
    the amount, and otherwise takes from the sender exactly the drops it gives to
    the receiver and changes nothing else. *)
Theorem native_payment c v dirs m sender receiver amount ss sr steps fuel :
  shows c v dirs m → sender ∈ A → receiver ∈ A → sender ≠ receiver → sender ≠ 0 → receiver ≠ 0 →
  m !! getAccountRootIndex sender = Some ss → m !! getAccountRootIndex receiver = Some sr →
  native amount → Amt.is_zero amount = false →
  native (getFieldAmount (balance_field amount) (fields ss)) → native (getFieldAmount (balance_field amount) (fields sr)) →
  ∃ ter v1 v2, accountSend info steps fuel sender receiver amount v = Ok (ter, v1) ∧
    transferXRP info sender receiver amount v = Ok (ter, v2) ∧
    native_outcome info c v sender receiver amount ss sr m ter v1 ∧
    native_outcome info c v sender receiver amount ss sr m ter v2.
Proof using AP.
  intros Hv Hs Hr Hne Hs0 Hr0 Hms Hmr Ham Hz Hbs Hbr. pose proof (shows_state _ _ _ _ Hv) as Hst. destruct Hv as (Hb & _ & HL).
  destruct (wp_run _ _ _ (accountSend_native info c v Hb A sender receiver amount ss sr Hs Hr Hne Ham Hbs Hbr ∅ dirs m ∅ ∅ v
    steps fuel Hst HL Hs0 Hr0 Hz Hms Hmr)) as (ter & v1 & E1 & H1).
  destruct (wp_run _ _ _ (transferXRP_ok info c v Hb A sender receiver amount ss sr Hs Hr Hne Ham Hbs Hbr ∅ dirs m ∅ ∅ v
    Hst HL Hms Hmr)) as (ter' & v2 & E2 & H2).
  assert (ter' = ter) as ->.
  { unfold native_outcome in H1, H2. destruct (_ <? _); by destruct H1 as [-> _], H2 as [-> _]. }
  by exists ter, v1, v2.
Qed.

(** Both credits of a payment through an issuer. *)
Definition through c m (sender receiver : AccountID) (amount cost : Amt.STAmount) v : Prop :=
  let cur := currency_of amount in
  let i := issuer amount in
  ∃ dirs m', shows c v dirs m' ∧
    Amt.sub (holds m sender i cur) cost = Ok (holds m' sender i cur) ∧
    Amt.add (holds m receiver i cur) amount = Ok (holds m' receiver i cur) ∧
    ∀ x, x ∈ A → x ≠ i → x ≠ sender → x ≠ receiver → holds m' x i cur = holds m x i cur.

Lemma line_index_ne x y i cur :
  x ∈ A → y ∈ A → i ∈ A → is_id cur → x ≠ i → y ≠ i → x ≠ y →
  getRippleStateIndex x i cur ≠ getRippleStateIndex y i cur.
Proof using AP.
  intros Hx Hy Hi Hc Hxi Hyi Hxy. rewrite !line_of_index by done. unfold line_of.
  destruct (Z.ltb_spec i x), (Z.ltb_spec i y); intros (? & ? & ?)%(line_index_inj A); try done; lia.
Qed.

Lemma two_credits c v dirs m sender receiver amount cost fuel :
  let i := issuer amount in
  shows c v dirs m → payable i receiver amount → payable sender i cost → sender ≠ receiver →
  currency_of cost = currency_of amount →
  match (let! ter := rippleCredit info fuel i receiver amount in
         if bool_decide (ter = tesSUCCESS) then rippleCredit info fuel sender i cost else ret ter) v with
  | Ok (tesSUCCESS, v') => through c m sender receiver amount cost v'
  | Ok (ter, _) => ter = tecDIR_FULL
  | Throw e => e = runtime_error "value overflow"
  end.
Proof using AP.
  intros i Hv Hp1 Hp2 Hsr Hcc. pose proof (rippleCredit_outcome c v dirs m i receiver amount fuel Hv Hp1) as H1.
  pose proof Hp1 as (Hi & Hr & Hir & Hc & _ & _ & _). pose proof Hp2 as (Hs & _ & Hsi & _ & _ & _ & _). unfold bind.
  destruct (rippleCredit info fuel i receiver amount v) as [[ter v1]|e]; cbn [rbind fst snd];
    [|by destruct H1]. destruct (decide (ter = tesSUCCESS)) as [->|Hne];
    [rewrite bool_decide_true by done|rewrite bool_decide_false by done; destruct ter; try done; by destruct H1].
  destruct H1 as (dirs1 & m1 & Hv1 & Hf1 & [_ Hrec Hoth1]).
  pose proof (rippleCredit_outcome c v1 dirs1 m1 sender i cost fuel Hv1 Hp2) as H2. unfold credit_outcome in H2. rewrite Hcc in H2.
  destruct (rippleCredit info fuel sender i cost v1) as [[[] v2]|e]; try (by destruct H2).
  destruct H2 as (dirs2 & m2 & Hv2 & Hf2 & [Hsend _ Hoth2]). exists dirs2, m2. split; [done|]. fold i. split; [|split].
  - rewrite <- Hsend, Hoth1; try done. rewrite (getRippleStateIndex_sym i receiver). by apply line_index_ne.
  - rewrite Hrec, Hoth2; try done. by apply line_index_ne.
  - intros x Hx Hxi Hxs Hxr. rewrite Hoth2, Hoth1; try done.
    + rewrite (getRippleStateIndex_sym i receiver). by apply line_index_ne.
    + by apply line_index_ne.
Qed.


(** C40: [rippleSend] to or from the issuer drops the result of [rippleCredit]: an
    asset whose sender has not set one up is refused with [temBAD_ISSUER], yet
    [accountSend] reports success, while nothing has moved. *)
Theorem failed_credit_reported_as_success c v m sender receiver amount steps fuel :
  reads_as (base_ v) c → sees c ∅ v m → sender ≠ receiver → Amt.is_zero amount = false → Amt.mIsNative amount = false →
  currency_of amount = assetCurrency → issuer amount = sender →
  lookup_keylet m (keylet.asset receiver assetCurrency) = None →
  lookup_keylet m (keylet.asset sender assetCurrency) = None →
  ∃ v', rippleCredit info fuel sender receiver amount v = Ok (temBAD_ISSUER, v') ∧
    accountSend info steps fuel sender receiver amount v = Ok (tesSUCCESS, v') ∧ sees c ∅ v' m ∧ frame v v'.
Proof using Type.
  intros Hb Hsees Hne Hz Hnat Hcur Hiss Hr Hs.
  assert (state c v m ∅ ∅ ∅ v) as Hst by (split; [done|done|intros p k; by rewrite lookup_empty|by intros k ?%elem_of_empty]).
  assert (wp (rippleCredit info fuel sender receiver amount) v
    (λ ter v', ter = temBAD_ISSUER ∧ ∃ hs D, state c v m hs ∅ D v')) as Hwp.
  { unfold rippleCredit. rewrite Hcur. apply wp_bind.
    assert (∀ o v1 hs, state c v m hs ∅ ∅ v1 →
      wp (let! isAsset := issueAsset info fuel (receiver <? sender) sender receiver assetCurrency amount
            (getRippleStateIndex sender receiver assetCurrency) o in ret isAsset) v1
        (λ r v', r = (true, temBAD_ISSUER) ∧ v' = v1)) as Hia.
    { intros o v1 hs H1. unfold issueAsset. rewrite Z.eqb_refl. cbn [negb]. apply wp_bind.
      eapply wp_exists; [done|done|]. rewrite Hr. eapply wp_read; [done|done|]. rewrite Hs. apply wp_ret. by apply wp_ret. }
    eapply wp_peek; [done|done|..].
    - intros v1 _ H1. pose proof (wp_bind_inv _ _ _ _ (Hia None v1 ∅ H1)) as Hx. apply wp_bind. eapply wp_mono; [exact Hx|].
      intros a v2 [-> ->]. cbn [fst snd]. apply wp_ret. by eauto.
    - intros s p v1 _ _ H1. pose proof (wp_bind_inv _ _ _ _ (Hia (Some p) v1 _ H1)) as Hx. apply wp_bind. eapply wp_mono; [exact Hx|].
      intros a v2 [-> ->]. cbn [fst snd]. apply wp_ret. by eauto. }
  apply wp_run in Hwp as (ter & v' & E & -> & hs & D & H'). exists v'. split; [done|]. split; [|split; apply H'].
  unfold accountSend, rippleSend. rewrite Hz, Hnat, Hiss, (proj2 (Z.eqb_neq sender receiver) Hne), Z.eqb_refl. cbn [orb negb].
  unfold bind, ret. by rewrite E.
Qed.

(** C29: [addRefer] never throws.  It makes the referee the referee of the account
    and lists the account among those the referee has referred, or changes
    nothing; either way every referral stays recorded on both sides and the
    referrals stay without cycles, so that the walk from an account to its
    ancestors, along which fees are shared, comes to an end after fewer steps than
    there are accounts. *)
Theorem referrals_acyclic c v m referee reference :
  reads_as (base_ v) c → sees c ∅ v m → forest A m → referee ∈ A → reference ∈ A → referee ≠ 0 →
  ∃ ter v' m', addRefer referee reference v = Ok (ter, v') ∧ sees c ∅ v' m' ∧ frame v v' ∧ forest A m' ∧
    (if bool_decide (ter = tesSUCCESS) then referred A referee reference m m' else m' = m) ∧
    ∀ a, a ∈ A → ∃ l, ancestors m' a l ∧ NoDup (a :: l) ∧ (length l < base.size A)%nat.
Proof using AP.
  intros Hb Hsees Hf Hfe Hfr H0.
  assert (state c v m ∅ ∅ ∅ v) as Hst by (split; [done|done|intros p k; by rewrite lookup_empty|by intros k ?%elem_of_empty]).
  destruct (wp_run _ _ _ (addRefer_ok A c v Hb m ∅ ∅ v referee reference Hst Hf Hfe Hfr H0)) as (ter & v' & E & Hpost).
  assert (∃ m', sees c ∅ v' m' ∧ frame v v' ∧ forest A m' ∧
    (if bool_decide (ter = tesSUCCESS) then referred A referee reference m m' else m' = m)) as (m' & Hs' & Hf' & Hfo & Href).
  { destruct Hpost as [(Hne & hs & D & H')|(-> & Hne & Hleaf & Hno & m' & hs & D & H' & Href)].
    - exists m. rewrite bool_decide_false by done. split; [apply H'|]. split; [apply H'|done].
    - exists m'. rewrite bool_decide_true by done. split; [apply H'|]. split; [apply H'|]. split; [by apply (referred_forest A referee reference m)|done]. }
  exists ter, v', m'. do 5 (split; [done|]). intros a Ha.
  destruct (forest_ancestors A m' a Hfo Ha) as (l & Hl & Hnd & Hin). exists l. split; [done|]. split; [done|].
  assert (list_to_set (a :: l) ⊆ A) as Hsub by (intros x; rewrite elem_of_list_to_set, elem_of_cons; intros [->|?]; auto).
  apply subseteq_size in Hsub. rewrite size_list_to_set in Hsub by done. exact Hsub.
Qed.

End properties.

(** ** A ledger to try them on *)

(** A ledger that has nothing but accounts is well-formed. *)
Section accounts.
Context `{Dg : Digest} (A : gset Z) {AP : Apart A}.

Definition root (a : AccountID) : SLE STObject :=
  mkSLE (getAccountRootIndex a) ltACCOUNT_ROOT (setFieldAmount sfBalance (Amt.of_drops 1000000 false) empty_object).

Definition accounts_only : gmap Z (SLE STObject) := list_to_map ((λ a, (getAccountRootIndex a, root a)) <$> elements A).

Lemma accounts_only_lookup a : a ∈ A → accounts_only !! getAccountRootIndex a = Some (root a).
Proof using AP.
  intros Ha. apply elem_of_list_to_map_1.
  - rewrite <- list_fmap_compose. apply NoDup_fmap_2_strong; [|apply NoDup_elements].
    intros x y Hx Hy E. simpl in E. apply elem_of_elements in Hx, Hy. by apply (account_key_inj A).
  - apply list_elem_of_fmap. exists a. split; [done|by apply elem_of_elements].
Qed.

Lemma accounts_only_none k : (∀ a, a ∈ A → k ≠ getAccountRootIndex a) → accounts_only !! k = None.
Proof using Type.
  intros Hk. apply not_elem_of_list_to_map_1. rewrite <- list_fmap_compose. intros (a & -> & Ha)%list_elem_of_fmap.
  apply elem_of_elements in Ha. by apply (Hk a).
Qed.

Lemma accounts_only_ledger : ledger A ∅ (λ _, ∅) accounts_only.
Proof using AP.
  split.
  - intros a Ha. exists (root a). split; [by apply accounts_only_lookup|]. split; [done|]. by vm_compute.
  - intros a Ha. split; [intros n l; by rewrite lookup_empty| |intros n [l Hl]; by rewrite lookup_empty in Hl|
      intros n l; by rewrite lookup_empty].
    intros n Hn _. apply accounts_only_none. intros b Hb E. by apply (account_outside A b Hb a Ha n Hn).
  - intros a b cur s Ha Hb Hlt Hc _. rewrite accounts_only_none; [done|]. intros x Hx. by apply (line_not_account A).
Qed.

End accounts.

(** A digest without collisions: the bytes themselves. *)
#[local] Instance plain_digest : Digest := λ bs, be_int (1 :: bs).

Lemma plain_digest_length s t :
  bytes_ok s → bytes_ok t → sha512Half s = sha512Half t → (length t ≤ length s)%nat.
Proof.
  intros Hs%be_int_range Ht%be_int_range E. unfold sha512Half, plain_digest in E. cbn [be_int] in E.
  destruct (le_lt_dec (length t) (length s)) as [|Hlt]; [done|]. exfalso.
  assert (256 ^ Z.of_nat (S (length s)) ≤ 256 ^ Z.of_nat (length t)) as Hp by (apply Z.pow_le_mono_r; lia).
  rewrite pow256_S in Hp. lia.
Qed.

Lemma plain_digest_inj s t : bytes_ok s → bytes_ok t → sha512Half s = sha512Half t → s = t.
Proof.
  intros Hs Ht E. pose proof (plain_digest_length s t Hs Ht E) as H1.
  pose proof (plain_digest_length t s Ht Hs (eq_sym E)) as H2. assert (length s = length t) as Hl by lia.
  apply be_int_inj; [done..|]. unfold sha512Half, plain_digest in E. cbn [be_int] in E. rewrite Hl in E. lia.
Qed.

Lemma hashed_bytes A s : hashed A s → bytes_ok s.
Proof. intros []; repeat first [apply Forall_app; split | apply be_bytes_ok | constructor]. Qed.

(** Three accounts. *)
Definition alice : AccountID := 10.
Definition bob : AccountID := 20.
Definition gateway : AccountID := 30.
Definition people : gset Z := {[alice; bob; gateway]}.

#[local] Instance people_apart : Apart people.
Proof.
  split.
  - intros a Ha. unfold people in Ha. unfold is_id. assert (a = 10 ∨ a = 20 ∨ a = 30) as [-> | [-> | ->]] by set_solver; by vm_compute.
  - intros a Ha. unfold people in Ha. assert (a = 10 ∨ a = 20 ∨ a = 30) as [-> | [-> | ->]] by set_solver; by vm_compute.
  - intros s t Hs Ht. apply plain_digest_inj; by eapply hashed_bytes.
Qed.

Definition town : gmap Z (SLE STObject) := accounts_only people.

Lemma town_shows : shows people town (apply_view town) (λ _, ∅) town.
Proof.
  split; [apply map_reads_as; by_computation|]. split; [|apply (accounts_only_ledger people)].
  split; [apply map_Forall_empty|]. split; [intros k p; simpl; by rewrite lookup_empty|].
  apply map_eq. intros k. by rewrite apply_contents_lookup.
Qed.

Definition usd : Currency := 0x55534400000000000000000000.
Definition dollars (n : Z) : Amt.STAmount := Amt.mkAmt (mkIssue usd gateway) (n * 10 ^ 13) (-13) false false.

Lemma dollars_payable sender receiver :
  sender ∈ people → receiver ∈ people → sender ≠ receiver → payable people sender receiver (dollars 100).
Proof.
  intros Hs Hr Hne. split; [done|]. split; [done|]. split; [done|]. split; [by vm_compute|]. split; [done|]. split; [done|].
  by_computation.
Qed.

Definition plain_info : LedgerInfo := mkInfo false 0 0 0 0 0.

Definition ter_of {S} (r : result (TER * S)) : option TER := match r with Ok (ter, _) => Some ter | Throw _ => None end.



Lemma account_holds_witness :
  ∃ v', accountHolds plain_info 0 alice (currency_of (dollars 100)) gateway false (apply_view town) =
    Ok (holds town alice gateway (currency_of (dollars 100)), v').
Proof.
  destruct (account_holds plain_info people town (apply_view town) (λ _, ∅) town alice gateway (dollars 100) 0 false town_shows)
    as [(v' & E & _) _]; [apply dollars_payable; by_computation|]. cbn [andb] in E. exists v'. exact E.
Defined.

(** Dollars go from the gateway to Alice and back, and then to Bob, who redeems
    them: the lines are made and deleted again. *)
Definition round_trip : list transfer :=
  [IssueIOU gateway alice (dollars 100); Credit alice gateway (dollars 100); Credit gateway bob (dollars 100);
   RedeemIOU bob gateway (dollars 100)].

Lemma round_trip_valid : Forall (transfer_valid people) round_trip.
Proof. repeat (constructor; [apply dollars_payable; by_computation|]). constructor. Qed.


(** Alice sends Bob drops she has. *)
Lemma native_payment_witness :
  ∃ v1 v2, accountSend plain_info 0 0 alice bob (Amt.of_drops 250000 false) (apply_view town) = Ok (tesSUCCESS, v1) ∧
    transferXRP plain_info alice bob (Amt.of_drops 250000 false) (apply_view town) = Ok (tesSUCCESS, v2).
Proof.
  destruct (native_payment plain_info people town (apply_view town) (λ _, ∅) town alice bob (Amt.of_drops 250000 false)
    (root alice) (root bob) 0 0 town_shows) as (ter & v1 & v2 & E1 & E2 & H1 & H2);
    [by_computation|by_computation|by_computation|by_computation|by_computation|vm_compute; reflexivity|vm_compute; reflexivity
    |by_computation|reflexivity|by_computation|by_computation|].
  destruct H1 as [-> _]. exists v1, v2. split; [exact E1|exact E2].
Defined.


Definition shares (n : Z) : Amt.STAmount := Amt.mkAmt (mkIssue assetCurrency alice) (n * 10 ^ 13) (-13) false false.

Lemma failed_credit_reported_as_success_witness :
  ∃ v', accountSend plain_info 0 0 alice bob (shares 100) (apply_view town) = Ok (tesSUCCESS, v') ∧ sees town ∅ v' town.
Proof.
  destruct (failed_credit_reported_as_success plain_info town (apply_view town) town alice bob (shares 100) 0 0)
    as (v' & _ & E & H & _);
    [apply town_shows|apply town_shows|by_computation|reflexivity|reflexivity|reflexivity|reflexivity
    |vm_compute; reflexivity|vm_compute; reflexivity|].
  exists v'. split; [exact E|exact H].
Defined.

Lemma town_forest : forest people town.
Proof.
  assert (∀ b, b ∈ people → town !! getReferIndex b = None) as Hn.
  { intros b Hb. apply accounts_only_none. intros a Ha. by apply (refer_not_account people). }
  assert (∀ a, a ∈ people → referee_of town a = None) as Hr.
  { intros a Ha. unfold referee_of, lookup_keylet. cbn [k_key keylet.account].
    unfold town. rewrite (accounts_only_lookup people) by done. by destruct (check _ _). }
  split.
  - intros b s Hb. by rewrite Hn.
  - intros a b Ha. by rewrite Hr.
  - exists (λ _, O). intros a b Ha. by rewrite Hr.
Qed.

Lemma referrals_acyclic_witness :
  ∃ v' m', addRefer gateway alice (apply_view town) = Ok (tesSUCCESS, v') ∧ referred people gateway alice town m'.
Proof.
  destruct (referrals_acyclic people town (apply_view town) town gateway alice) as (ter & v' & m' & E & _ & _ & _ & H & _);
    [apply town_shows|apply town_shows|exact town_forest|by_computation|by_computation|by_computation|].
  assert (ter = tesSUCCESS) as ->.
  { apply (f_equal ter_of) in E. vm_compute in E. congruence. }
  exists v', m'. split; [exact E|exact H].
Defined.

End TrustProps.
