(* ===== verification/SHAMapNode.v ===== *)
(** * Nodes of a SHAMap

    shamap/SHAMapNodeID.h, shamap/SHAMapItem.h, shamap/SHAMapTreeNode.h and the
    files that implement them: the position of a node in the tree, inner nodes
    and leaves, their hashes, and their two binary forms.

    Digests, keys and node identifiers are 256-bit integers; byte [i] of one is
    byte [i] of its big endian form. *)

From S2P Require Import Prelude Serializer.

Module Node.

(** ** Positions *)

Record SHAMapNodeID := mkNodeID { mDepth : nat; mNodeID : Z }.

#[global] Instance SHAMapNodeID_eq_dec : EqDecision SHAMapNodeID.
Proof. solve_decision. Defined.

Definition root_id : SHAMapNodeID := mkNodeID 0 0.
Definition isRoot (id : SHAMapNodeID) : bool := (mDepth id =? 0)%nat.
Definition isValidID (id : SHAMapNodeID) : bool := (mDepth id <=? 64)%nat.

(** [* (v.begin () + i)] *)
Definition key_byte (v : Z) (i : nat) : Z := default 0 (be_bytes 32 v !! i).

Definition selectBranch (id : SHAMapNodeID) (hash : Z) : nat :=
  let branch := key_byte hash (mDepth id / 2) in
  Z.to_nat (if Nat.odd (mDepth id) then Z.land branch 0xf else Z.shiftr branch 4).

Definition getChildNodeID (id : SHAMapNodeID) (m : nat) : SHAMapNodeID :=
  let d := mDepth id in
  let m := Z.of_nat m in
  let child :=
    alter (λ b, Z.lor b (if Nat.odd d then m else Z.shiftl m 4)) (d / 2)%nat
      (be_bytes 32 (mNodeID id)) in
  mkNodeID (S d) (be_int child).

(** [Masks]: the table is filled from a selector whose bytes become 0xF0, then
    0xFF. *)
Definition Masks (depth : nat) : Z :=
  let selector (i : nat) := replicate i 0xFF ++ replicate (32 - i) 0 in
  be_int (if Nat.odd depth then <[(depth / 2)%nat := 0xF0]> (selector (depth / 2)%nat)
          else selector (depth / 2)%nat).

(** The constructor from [len] bytes, and [addIDRaw].  An invalid identifier has
    depth -1, which is [None]. *)
Definition nodeID_of_raw (bs : list Z) : option SHAMapNodeID :=
  if (length bs <? 33)%nat then None
  else Some (mkNodeID (Z.to_nat (default 0 (bs !! 32%nat))) (be_int (take 32 bs))).

Definition addIDRaw (s : Ser.Serializer) (id : SHAMapNodeID) : Ser.Serializer :=
  Ser.add8 (Ser.addBitString 32 s (mNodeID id)) (Ser.byte (Z.of_nat (mDepth id))).

(** ** Nodes

    [tnINNER] is the constructor [Inner], the other types are those of leaves;
    no node is given the type [tnERROR].  Items are not changed once they are
    made, so a leaf has its item itself and not a pointer to it. *)

Definition loc := positive.

Record SHAMapItem := mkItem { key : Z; peekData : list Z }.

Inductive TNType := tnTRANSACTION_NM | tnTRANSACTION_MD | tnACCOUNT_STATE.

Inductive SHANodeFormat := snfPREFIX | snfWIRE | snfHASH.

Record SHAMapInnerNode := mkInner {
  i_hash : Z;
  i_seq : Z;
  mHashes : list Z;
  mChildren : list (option loc);
  mIsBranch : Z;
  mFullBelowGen : Z
}.

Record SHAMapTreeNode := mkLeaf {
  l_hash : Z;
  l_seq : Z;
  mType : TNType;
  mItem : SHAMapItem
}.

Inductive SHAMapAbstractNode :=
  | Inner (i : SHAMapInnerNode)
  | Leaf (t : SHAMapTreeNode).

#[global] Instance SHAMapItem_eq_dec : EqDecision SHAMapItem.
Proof. solve_decision. Defined.
#[global] Instance TNType_eq_dec : EqDecision TNType.
Proof. solve_decision. Defined.
#[global] Instance SHAMapInnerNode_eq_dec : EqDecision SHAMapInnerNode.
Proof. solve_decision. Defined.
#[global] Instance SHAMapTreeNode_eq_dec : EqDecision SHAMapTreeNode.
Proof. solve_decision. Defined.
#[global] Instance SHAMapAbstractNode_eq_dec : EqDecision SHAMapAbstractNode.
Proof. solve_decision. Defined.

Definition isInner (n : SHAMapAbstractNode) : bool :=
  match n with Inner _ => true | Leaf _ => false end.
Definition isLeaf (n : SHAMapAbstractNode) : bool := negb (isInner n).

Definition getNodeHash (n : SHAMapAbstractNode) : Z :=
  match n with Inner i => i_hash i | Leaf t => l_hash t end.
Definition getSeq (n : SHAMapAbstractNode) : Z :=
  match n with Inner i => i_seq i | Leaf t => l_seq t end.
Definition setSeq (n : SHAMapAbstractNode) (s : Z) : SHAMapAbstractNode :=
  match n with
  | Inner i => Inner (mkInner (i_hash i) s (mHashes i) (mChildren i) (mIsBranch i) (mFullBelowGen i))
  | Leaf t => Leaf (mkLeaf (l_hash t) s (mType t) (mItem t))
  end.

(** ** Inner nodes *)

Definition new_inner (seq : Z) : SHAMapInnerNode :=
  mkInner 0 seq (replicate 16 0) (replicate 16 None) 0 0.

Definition isEmpty (i : SHAMapInnerNode) : bool := mIsBranch i =? 0.

Definition isEmptyBranch (i : SHAMapInnerNode) (m : nat) : bool :=
  Z.land (mIsBranch i) (Z.shiftl 1 (Z.of_nat m)) =? 0.

Definition getBranchCount (i : SHAMapInnerNode) : nat :=
  length (filter (λ m, isEmptyBranch i m = false) (seq 0 16)).

Definition getChildHash (i : SHAMapInnerNode) (m : nat) : Z := default 0 (mHashes i !! m).

Definition getChild (i : SHAMapInnerNode) (m : nat) : option loc := mjoin (mChildren i !! m).

Definition setChild (i : SHAMapInnerNode) (m : nat) (child : option loc) : SHAMapInnerNode :=
  let bit := Z.shiftl 1 (Z.of_nat m) in
  mkInner 0 (i_seq i) (<[m := 0]> (mHashes i)) (<[m := child]> (mChildren i))
    (match child with
     | Some _ => Z.lor (mIsBranch i) bit
     | None => Z.land (mIsBranch i) (Z.lnot bit)
     end) (mFullBelowGen i).

(** [shareChild], and the hook up of [canonicalizeChild] *)
Definition shareChild (i : SHAMapInnerNode) (m : nat) (child : loc) : SHAMapInnerNode :=
  mkInner (i_hash i) (i_seq i) (mHashes i) (<[m := Some child]> (mChildren i)) (mIsBranch i)
    (mFullBelowGen i).

(** [clone] of either kind of node. *)
Definition clone (n : SHAMapAbstractNode) (seq : Z) : SHAMapAbstractNode :=
  match n with
  | Inner i => Inner (mkInner (i_hash i) seq (mHashes i) (mChildren i) (mIsBranch i) (mFullBelowGen i))
  | Leaf t => Leaf (mkLeaf (l_hash t) seq (mType t) (mItem t))
  end.

(** ** Hashes *)

(** The prefixes 'TXN', 'SND', 'MLN' and 'MIN' of protocol/HashPrefix. *)
Definition HashPrefix (a b c : Z) : Z := ((a * 256 + b) * 256 + c) * 256.
Definition transactionID : Z := HashPrefix 0x54 0x58 0x4E.
Definition txNode : Z := HashPrefix 0x53 0x4E 0x44.
Definition leafNode : Z := HashPrefix 0x4D 0x4C 0x4E.
Definition innerNode : Z := HashPrefix 0x4D 0x49 0x4E.

Section digest.
Context `{Digest}.

Definition inner_hash (i : SHAMapInnerNode) : Z :=
  if mIsBranch i =? 0 then 0
  else sha512Half (be_bytes 4 innerNode ++ (mHashes i ≫= be_bytes 32)).

Definition leaf_hash (type : TNType) (item : SHAMapItem) : Z :=
  match type with
  | tnTRANSACTION_NM => sha512Half (be_bytes 4 transactionID ++ peekData item)
  | tnACCOUNT_STATE =>
      sha512Half (be_bytes 4 leafNode ++ peekData item ++ be_bytes 32 (key item))
  | tnTRANSACTION_MD =>
      sha512Half (be_bytes 4 txNode ++ peekData item ++ be_bytes 32 (key item))
  end.

(** [SHAMapInnerNode::updateHash]: the node is changed only when its hash is. *)
Definition inner_updateHash (i : SHAMapInnerNode) : SHAMapInnerNode :=
  let nh := inner_hash i in
  if nh =? i_hash i then i
  else mkInner nh (i_seq i) (mHashes i) (mChildren i) (mIsBranch i) (mFullBelowGen i).

(** [SHAMapTreeNode::updateHash]: whether the hash changed, and the node. *)
Definition leaf_updateHash (t : SHAMapTreeNode) : bool * SHAMapTreeNode :=
  let nh := leaf_hash (mType t) (mItem t) in
  if nh =? l_hash t then (false, t)
  else (true, mkLeaf nh (l_seq t) (mType t) (mItem t)).

Definition setItem (t : SHAMapTreeNode) (item : SHAMapItem) (type : TNType) : bool * SHAMapTreeNode :=
  leaf_updateHash (mkLeaf (l_hash t) (l_seq t) type item).

(** The two constructors of [SHAMapTreeNode]: with a hash that is known, and
    with one that is computed. *)
Definition new_leaf_hash (item : SHAMapItem) (type : TNType) (seq hash : Z) : SHAMapTreeNode :=
  mkLeaf hash seq type item.

Definition new_leaf (item : SHAMapItem) (type : TNType) (seq : Z) : SHAMapTreeNode :=
  (leaf_updateHash (mkLeaf 0 seq type item)).2.

(** ** Binary forms *)

Definition set_hash (i : SHAMapInnerNode) (pos : nat) (h : Z) : SHAMapInnerNode :=
  mkInner (i_hash i) (i_seq i) (<[pos := h]> (mHashes i)) (mChildren i)
    (if h =? 0 then mIsBranch i else Z.lor (mIsBranch i) (Z.shiftl 1 (Z.of_nat pos)))
    (mFullBelowGen i).

(** [if (hashValid) ret->mHash = hash; else ret->updateHash ();] *)
Definition finish_inner (hash : Z) (hashValid : bool) (i : SHAMapInnerNode) : SHAMapAbstractNode :=
  Inner (if hashValid then mkInner hash (i_seq i) (mHashes i) (mChildren i) (mIsBranch i) (mFullBelowGen i)
         else inner_updateHash i).

Definition finish_leaf (item : SHAMapItem) (type : TNType) (seq hash : Z) (hashValid : bool) :
    SHAMapAbstractNode :=
  Leaf (if hashValid then new_leaf_hash item type seq hash else new_leaf item type seq).

(** [s.get256 (u, off)], where the variable keeps its zero if it fails. *)
Definition get256 (s : Ser.Serializer) (off : nat) : Z := default 0 (Ser.getBitString 32 s off).

(** The sixteen hashes of a full inner node. *)
Definition full_inner (s : Ser.Serializer) (seq : Z) : SHAMapInnerNode :=
  foldl (λ ret i, set_hash ret i (get256 s (i * 32))) (new_inner seq) (List.seq 0 16).

(** One entry of a compressed inner node. *)
Definition compressed_entry (s : Ser.Serializer) (ret : SHAMapInnerNode) (i : nat) :
    result SHAMapInnerNode :=
  match Ser.get8 s (32 + i * 33) with
  | None => Throw (runtime_error "short CI node")
  | Some pos =>
      if (pos <? 0) || (16 <=? pos) then Throw (runtime_error "invalid CI node")
      else Ok (set_hash ret (Z.to_nat pos) (get256 s (i * 33)))
  end.

Fixpoint compressed_inner (s : Ser.Serializer) (ret : SHAMapInnerNode) (idx : list nat) :
    result SHAMapInnerNode :=
  match idx with
  | [] => Ok ret
  | i :: idx => let* ret := compressed_entry s ret i in compressed_inner s ret idx
  end.

(** Data followed by a 256-bit tag.  The serialized form of a state entry or a
    transaction with metadata. *)
Definition tagged (s : Ser.Serializer) (short : string) : result (Z * list Z) :=
  let len := length s in
  if (len <? 32)%nat then Throw (runtime_error short)
  else Ok (get256 s (len - 32), default s (Ser.chop s 32)).

Definition make_wire (rawNode : list Z) (seq hash : Z) (hashValid : bool) :
    result (option SHAMapAbstractNode) :=
  match last rawNode with
  | None => Ok None
  | Some type =>
      let s := take (length rawNode - 1) rawNode in
      let len := length s in
      if (type <? 0) || (4 <? type) then Ok None
      else if type =? 0 then
        let item := mkItem (sha512Half (be_bytes 4 transactionID ++ s)) s in
        Ok (Some (finish_leaf item tnTRANSACTION_NM seq hash hashValid))
      else if type =? 1 then
        let* (u, data) := tagged s "short AS node" in
        if u =? 0 then Throw (runtime_error "invalid AS node")
        else Ok (Some (finish_leaf (mkItem u data) tnACCOUNT_STATE seq hash hashValid))
      else if type =? 2 then
        if negb (len =? 512)%nat then Throw (runtime_error "invalid FI node")
        else Ok (Some (finish_inner hash hashValid (full_inner s seq)))
      else if type =? 3 then
        let* ret := compressed_inner s (new_inner seq) (List.seq 0 (len / 33)) in
        Ok (Some (finish_inner hash hashValid ret))
      else
        let* (u, data) := tagged s "short TM node" in
        if u =? 0 then Throw (runtime_error "invalid TM node")
        else Ok (Some (finish_leaf (mkItem u data) tnTRANSACTION_MD seq hash hashValid))
  end.

Definition make_prefix (rawNode : list Z) (seq hash : Z) (hashValid : bool) :
    result (option SHAMapAbstractNode) :=
  if (length rawNode <? 4)%nat then Throw (runtime_error "invalid P node")
  else
    let prefix := be_int (take 4 rawNode) in
    let s := drop 4 rawNode in
    if prefix =? transactionID then
      Ok (Some (finish_leaf (mkItem (sha512Half rawNode) s) tnTRANSACTION_NM seq hash hashValid))
    else if prefix =? leafNode then
      let* (u, data) := tagged s "short PLN node" in
      if u =? 0 then Throw (runtime_error "invalid PLN node")
      else Ok (Some (finish_leaf (mkItem u data) tnACCOUNT_STATE seq hash hashValid))
    else if prefix =? innerNode then
      if negb (length s =? 512)%nat then Throw (runtime_error "invalid PIN node")
      else Ok (Some (finish_inner hash hashValid (full_inner s seq)))
    else if prefix =? txNode then
      let* (txID, data) := tagged s "short TXN node" in
      Ok (Some (finish_leaf (mkItem txID data) tnTRANSACTION_MD seq hash hashValid))
    else Throw (runtime_error "invalid node prefix").

(** [SHAMapAbstractNode::make]; [None] is the null pointer. *)
Definition make (rawNode : list Z) (seq : Z) (format : SHANodeFormat) (hash : Z) (hashValid : bool) :
    result (option SHAMapAbstractNode) :=
  match format with
  | snfWIRE => make_wire rawNode seq hash hashValid
  | snfPREFIX => make_prefix rawNode seq hash hashValid
  | snfHASH => Throw (runtime_error "Unknown format")
  end.

(** [SHAMapInnerNode::addRaw] *)
Definition inner_addRaw (s : Ser.Serializer) (i : SHAMapInnerNode) (format : SHANodeFormat) :
    Ser.Serializer :=
  match format with
  | snfHASH => Ser.addBitString 32 s (i_hash i)
  | snfPREFIX =>
      foldl (λ s m, Ser.addBitString 32 s (getChildHash i m)) (Ser.add32 s innerNode) (seq 0 16)
  | snfWIRE =>
      if (getBranchCount i <? 12)%nat then
        Ser.add8
          (foldl (λ s m,
             if isEmptyBranch i m then s
             else Ser.add8 (Ser.addBitString 32 s (getChildHash i m)) (Z.of_nat m)) s (seq 0 16)) 3
      else Ser.add8 (foldl (λ s m, Ser.addBitString 32 s (getChildHash i m)) s (seq 0 16)) 2
  end.

(** [SHAMapTreeNode::addRaw] *)
Definition leaf_addRaw (s : Ser.Serializer) (t : SHAMapTreeNode) (format : SHANodeFormat) :
    Ser.Serializer :=
  let tagged s := Ser.addBitString 32 (Ser.addRaw s (peekData (mItem t))) (key (mItem t)) in
  match format, mType t with
  | snfHASH, _ => Ser.addBitString 32 s (l_hash t)
  | snfPREFIX, tnACCOUNT_STATE => tagged (Ser.add32 s leafNode)
  | _, tnACCOUNT_STATE => Ser.add8 (tagged s) 1
  | snfPREFIX, tnTRANSACTION_NM => Ser.addRaw (Ser.add32 s transactionID) (peekData (mItem t))
  | _, tnTRANSACTION_NM => Ser.add8 (Ser.addRaw s (peekData (mItem t))) 0
  | snfPREFIX, tnTRANSACTION_MD => tagged (Ser.add32 s txNode)
  | _, tnTRANSACTION_MD => Ser.add8 (tagged s) 4
  end.

Definition addRaw (s : Ser.Serializer) (n : SHAMapAbstractNode) (format : SHANodeFormat) :
    Ser.Serializer :=
  match n with Inner i => inner_addRaw s i format | Leaf t => leaf_addRaw s t format end.

End digest.

End Node.
