(* ===== verification/SHAMap.v ===== *)
(** * SHAMap

    shamap/SHAMap.h and shamap/impl/SHAMap.cpp: the hash tree that holds the
    entries of a ledger.  Nodes are shared between maps and copied when a map
    that does not own them changes them, so they live in a heap; a node belongs
    to the map whose sequence number it carries, and one with sequence number
    zero may be shared by any number of maps.

    The loops walk down the tree.  Each step looks at a byte of the key or of
    the node identifier at its depth, and below depth 64 there is none, so the
    fuel of a walk that starts at depth [d] is [64 - d] and a walk that would go
    on reads past the end of the key. *)

From S2P Require Import Prelude Serializer StateMonad SHAMapNode.
Import Node.
Open Scope prog_scope.

Module SM.

(** ** State *)

Inductive SHAMapState := Modifying | Immutable | Synching | Floating | Invalid.
Inductive SHAMapType := TRANSACTION | STATE | FREE.

Record SHAMap := mkSHAMap {
  seq_ : Z;
  ledgerSeq_ : Z;
  root_ : loc;
  state_ : SHAMapState;
  type_ : SHAMapType;
  backed_ : bool
}.

(** What the maps of a family share: the nodes in memory, the cache of shared
    nodes by hash, the node store, and the ledgers reported to [missing_node]. *)
Record world := mkWorld {
  heap : gmap loc SHAMapAbstractNode;
  treecache : gmap Z loc;
  db : gmap Z (list Z);
  missing : list Z
}.

Definition set_heap (w : world) (h : gmap loc SHAMapAbstractNode) : world :=
  mkWorld h (treecache w) (db w) (missing w).
Definition set_cache (w : world) (c : gmap Z loc) : world := mkWorld (heap w) c (db w) (missing w).
Definition set_db (w : world) (d : gmap Z (list Z)) : world :=
  mkWorld (heap w) (treecache w) d (missing w).
Definition set_root (m : SHAMap) (r : loc) : SHAMap :=
  mkSHAMap (seq_ m) (ledgerSeq_ m) r (state_ m) (type_ m) (backed_ m).
Definition setLedgerSeq (m : SHAMap) (lseq : Z) : SHAMap :=
  mkSHAMap (seq_ m) lseq (root_ m) (state_ m) (type_ m) (backed_ m).
Definition set_state (m : SHAMap) (st : SHAMapState) : SHAMap :=
  mkSHAMap (seq_ m) (ledgerSeq_ m) (root_ m) st (type_ m) (backed_ m).
Definition setImmutable (m : SHAMap) : SHAMap := set_state m Immutable.
Definition setSynching (m : SHAMap) : SHAMap := set_state m Synching.
Definition clearSynching (m : SHAMap) : SHAMap := set_state m Modifying.
Definition isSynching (m : SHAMap) : bool :=
  match state_ m with Floating | Synching => true | _ => false end.
Definition setUnbacked (m : SHAMap) : SHAMap :=
  mkSHAMap (seq_ m) (ledgerSeq_ m) (root_ m) (state_ m) (type_ m) false.

(** A method of a map. *)
Definition prog (A : Type) : Type := M (world * SHAMap) A.

Definition this : prog SHAMap := gets snd.
Definition on_heap (f : gmap loc SHAMapAbstractNode → gmap loc SHAMapAbstractNode) : prog () :=
  modify (λ s, (set_heap s.1 (f (heap s.1)), s.2)).

Definition deref (l : loc) : prog SHAMapAbstractNode :=
  let! n := gets (λ s : world * SHAMap, heap s.1 !! l) in non_null n.

(** A cast to [SHAMapInnerNode*] *)
Definition deref_inner (l : loc) : prog SHAMapInnerNode :=
  let! n := deref l in
  match n with Inner i => ret i | Leaf _ => throw (Undefined "not an inner node") end.

(** [std::make_shared] *)
Definition alloc (n : SHAMapAbstractNode) : prog loc :=
  let! l := gets (λ s : world * SHAMap, fresh (dom (heap s.1))) in
  on_heap <[l := n]> ;; ret l.

(** A method of an inner node that changes it. *)
Definition on_inner (l : loc) (f : SHAMapInnerNode → SHAMapInnerNode) : prog () :=
  let! i := deref_inner l in on_heap <[l := Inner (f i)]>.

Section methods.
Context `{Digest}.

(** ** The cache and the node store *)

(** [f_.treecache ().canonicalize (hash, node)]: a node that is cached under the
    hash takes the place of the one given.  When an entry of the cache is dropped
    is up to the cache. *)
Definition canonicalize (hash : Z) (node : loc) : prog loc :=
  let! c := gets (λ s : world * SHAMap, treecache s.1 !! hash) in
  match c with
  | Some l => ret l
  | None => modify (λ s, (set_cache s.1 (<[hash := node]> (treecache s.1)), s.2)) ;; ret node
  end.

Definition getCache (hash : Z) : prog (option loc) :=
  gets (λ s : world * SHAMap, treecache s.1 !! hash).

Definition fetchNodeFromDB (hash : Z) : prog (option loc) :=
  let! m := this in
  if backed_ m then
    let! obj := gets (λ s : world * SHAMap, db s.1 !! hash) in
    match obj with
    | Some data =>
        match make data 0 snfPREFIX hash true with
        | Ok (Some n) => let! l := alloc n in let! l := canonicalize hash l in ret (Some l)
        | Ok None => ret None
        | Throw _ => ret None
        end
    | None =>
        when (negb (ledgerSeq_ m =? 0))
          (modify (λ s, (mkWorld (heap s.1) (treecache s.1) (db s.1) (missing s.1 ++ [ledgerSeq_ m]),
                         setLedgerSeq s.2 0))) ;;
        ret None
    end
  else ret None.

(** [fetchNodeNT (hash)] *)
Definition fetchNodeNT (hash : Z) : prog (option loc) :=
  let! node := getCache hash in
  let! m := this in
  match node with
  | None => if backed_ m then fetchNodeFromDB hash else ret None
  | Some l => ret (Some l)
  end.

Definition fetchNode (hash : Z) : prog loc :=
  let! node := fetchNodeNT hash in
  match node with Some l => ret l | None => throw (SHAMapMissingNode hash) end.

(** ** Descending *)

Definition canonicalizeChild (parent : loc) (branch : nat) (node : loc) : prog loc :=
  let! i := deref_inner parent in
  match getChild i branch with
  | Some c => ret c
  | None => on_inner parent (λ i, shareChild i branch node) ;; ret node
  end.

(** [descend (SHAMapInnerNode*, int)] *)
Definition descend_ptr (parent : loc) (branch : nat) : prog (option loc) :=
  let! i := deref_inner parent in
  let! m := this in
  match getChild i branch with
  | Some c => ret (Some c)
  | None =>
      if negb (backed_ m) then ret None
      else
        let! node := fetchNodeNT (getChildHash i branch) in
        match node with
        | None => ret None
        | Some n => let! n := canonicalizeChild parent branch n in ret (Some n)
        end
  end.

(** [descend (std::shared_ptr<SHAMapInnerNode> const&, int)] *)
Definition descend (parent : loc) (branch : nat) : prog (option loc) :=
  let! i := deref_inner parent in
  let! m := this in
  match getChild i branch with
  | Some c => ret (Some c)
  | None =>
      if negb (backed_ m) then ret None
      else
        let! node := fetchNode (getChildHash i branch) in
        let! node := canonicalizeChild parent branch node in ret (Some node)
  end.

Definition throw_missing (parent : loc) (branch : nat) (r : option loc) : prog (option loc) :=
  let! i := deref_inner parent in
  match r with
  | None => if isEmptyBranch i branch then ret None else throw (SHAMapMissingNode (getChildHash i branch))
  | Some _ => ret r
  end.

Definition descendThrow_ptr (parent : loc) (branch : nat) : prog (option loc) :=
  let! r := descend_ptr parent branch in throw_missing parent branch r.

Definition descendThrow (parent : loc) (branch : nat) : prog (option loc) :=
  let! r := descend parent branch in throw_missing parent branch r.

(** ** Walking to a key *)

Definition past_end {A} : prog A := throw (Undefined "read past the end of a key").

(** The stack of [getStack], its top first. *)
Definition Stack := list (loc * SHAMapNodeID).

(** The walk of [getStack], with either way to descend. *)
Section walk.
Context (down : loc → nat → prog (option loc)).

Fixpoint walk_stack (fuel : nat) (node : loc) (nodeID : SHAMapNodeID) (id : Z)
    (include_nonmatching_leaf : bool) (stack : Stack) : prog Stack :=
  let! n := deref node in
  match n with
  | Leaf t =>
      ret (if include_nonmatching_leaf || (key (mItem t) =? id) then (node, nodeID) :: stack else stack)
  | Inner i =>
      let stack := (node, nodeID) :: stack in
      match fuel with
      | O => past_end
      | S fuel =>
          let branch := selectBranch nodeID id in
          if isEmptyBranch i branch then ret stack
          else
            let! next := down node branch in
            let! next := non_null next in
            walk_stack fuel next (getChildNodeID nodeID branch) id include_nonmatching_leaf stack
      end
  end.
End walk.

Definition getStack (id : Z) (include_nonmatching_leaf : bool) : prog Stack :=
  let! m := this in walk_stack descendThrow 64 (root_ m) root_id id include_nonmatching_leaf [].

Fixpoint walkToPointer_from (fuel : nat) (inNode : loc) (nodeID : SHAMapNodeID) (id : Z) :
    prog (option SHAMapTreeNode) :=
  let! n := deref inNode in
  match n with
  | Leaf t => ret (if key (mItem t) =? id then Some t else None)
  | Inner i =>
      match fuel with
      | O => past_end
      | S fuel =>
          let branch := selectBranch nodeID id in
          if isEmptyBranch i branch then ret None
          else
            let! next := descendThrow_ptr inNode branch in
            let! next := non_null next in
            walkToPointer_from fuel next (getChildNodeID nodeID branch) id
      end
  end.

Definition walkToPointer (id : Z) : prog (option SHAMapTreeNode) :=
  let! m := this in walkToPointer_from 64 (root_ m) root_id id.

Definition fetch (k : Z) : prog (option SHAMapItem) :=
  let! leaf := walkToPointer k in ret (mItem <$> leaf).
Definition peekItem (id : Z) : prog (option SHAMapItem) :=
  let! leaf := walkToPointer id in ret (mItem <$> leaf).
Definition peekItem_type (id : Z) : prog (option (SHAMapItem * TNType)) :=
  let! leaf := walkToPointer id in ret ((λ t, (mItem t, mType t)) <$> leaf).
Definition peekItem_hash (id : Z) : prog (option (SHAMapItem * Z)) :=
  let! leaf := walkToPointer id in ret ((λ t, (mItem t, l_hash t)) <$> leaf).
Definition hasItem (id : Z) : prog bool :=
  let! leaf := walkToPointer id in ret (bool_decide (is_Some leaf)).

(** ** Changing nodes *)

Definition unshareNode (node : loc) (nodeID : SHAMapNodeID) : prog loc :=
  let! n := deref node in
  let! m := this in
  if negb (getSeq n =? seq_ m) then
    let! l := alloc (clone n (seq_ m)) in
    when (isRoot nodeID) (modify (λ s, (s.1, set_root s.2 l))) ;; ret l
  else ret node.

Fixpoint dirtyUp (stack : Stack) (target : Z) (child : loc) : prog () :=
  match stack with
  | [] => ret ()
  | (node, nodeID) :: stack =>
      let branch := selectBranch nodeID target in
      let! node := unshareNode node nodeID in
      on_inner node (λ i, setChild i branch (Some child)) ;;
      dirtyUp stack target node
  end.

(** The type of the leaves for [isTransaction] and [hasMeta] *)
Definition leaf_type (isTransaction hasMeta : bool) : TNType :=
  if negb isTransaction then tnACCOUNT_STATE
  else if hasMeta then tnTRANSACTION_MD else tnTRANSACTION_NM.

(** The loop of [addGiveItem] that makes inner nodes until the two items go to
    different branches. *)
Fixpoint split_leaf (fuel : nat) (node : loc) (nodeID : SHAMapNodeID) (tag other : Z) (stack : Stack) :
    prog (loc * SHAMapNodeID * Stack) :=
  match fuel with
  | O => past_end
  | S fuel =>
      let b1 := selectBranch nodeID tag in
      let b2 := selectBranch nodeID other in
      if (b1 =? b2)%nat then
        let stack := (node, nodeID) :: stack in
        let! m := this in
        let! node := alloc (Inner (new_inner (seq_ m))) in
        split_leaf fuel node (getChildNodeID nodeID b1) tag other stack
      else ret (node, nodeID, stack)
  end.

(** The two leaves on the inner node where they part. *)
Definition add_two (item otherItem : SHAMapItem) (type : TNType) (node : loc) (nodeID : SHAMapNodeID)
    (stack : Stack) : prog bool :=
  let tag := key item in
  let! m := this in
  let b1 := selectBranch nodeID tag in
  let b2 := selectBranch nodeID (key otherItem) in
  let! newNode := alloc (Leaf (new_leaf item type (seq_ m))) in
  on_inner node (λ i, setChild i b1 (Some newNode)) ;;
  let! newNode := alloc (Leaf (new_leaf otherItem type (seq_ m))) in
  on_inner node (λ i, setChild i b2 (Some newNode)) ;;
  dirtyUp stack tag node ;; ret true.

(** [addGiveItem] from the node at the end of the path, after it was unshared. *)
Definition add_below (item : SHAMapItem) (type : TNType) (node : loc) (nodeID : SHAMapNodeID)
    (stack : Stack) : prog bool :=
  let tag := key item in
  let! n := deref node in
  let! m := this in
  match n with
  | Inner _ =>
      let branch := selectBranch nodeID tag in
      let! newNode := alloc (Leaf (new_leaf item type (seq_ m))) in
      on_inner node (λ i, setChild i branch (Some newNode)) ;;
      dirtyUp stack tag node ;; ret true
  | Leaf leaf =>
      let otherItem := mItem leaf in
      let! node := alloc (Inner (new_inner (l_seq leaf))) in
      let! r := split_leaf (64 - mDepth nodeID) node nodeID tag (key otherItem) stack in
      let '(node, nodeID, stack) := r in
      add_two item otherItem type node nodeID stack
  end.

Definition addGiveItem (item : SHAMapItem) (isTransaction hasMeta : bool) : prog bool :=
  let tag := key item in
  let type := leaf_type isTransaction hasMeta in
  let! stack := getStack tag true in
  match stack with
  | [] => throw (SHAMapMissingNode tag)
  | (node, nodeID) :: stack =>
      let! n := deref node in
      if match n with Leaf t => key (mItem t) =? tag | Inner _ => false end then ret false
      else
        let! node := unshareNode node nodeID in
        add_below item type node nodeID stack
  end.

Definition addItem : SHAMapItem → bool → bool → prog bool := addGiveItem.

(** [updateGiveItem] from the leaf of the item, after it was unshared. *)
Definition update_leaf (item : SHAMapItem) (type : TNType) (node : loc) (stack : Stack) : prog bool :=
  let! n := deref node in
  match n with
  | Inner _ => throw (Undefined "not a leaf")
  | Leaf t =>
      let '(changed, t) := setItem t item type in
      on_heap <[node := Leaf t]> ;;
      if negb changed then ret true
      else dirtyUp stack (key item) node ;; ret true
  end.

Definition updateGiveItem (item : SHAMapItem) (isTransaction hasMeta : bool) : prog bool :=
  let tag := key item in
  let! stack := getStack tag true in
  match stack with
  | [] => throw (SHAMapMissingNode tag)
  | (node, nodeID) :: stack =>
      let! n := deref node in
      match n with
      | Inner _ => ret false
      | Leaf t =>
          if negb (key (mItem t) =? tag) then ret false
          else
            let! node := unshareNode node nodeID in
            update_leaf item (leaf_type isTransaction hasMeta) node stack
      end
  end.

(** The loop over the branches in [onlyBelow]: the only child, or [None] when a
    second one is found. *)
Fixpoint only_child (node : loc) (branches : list nat) (nextNode : option loc) :
    prog (option (option loc)) :=
  match branches with
  | [] => ret (Some nextNode)
  | i :: branches =>
      let! inner := deref_inner node in
      if isEmptyBranch inner i then only_child node branches nextNode
      else
        match nextNode with
        | Some _ => ret None
        | None => let! next := descendThrow_ptr node i in only_child node branches next
        end
  end.

(** [onlyBelow]; a map has at most 64 inner nodes on a path. *)
Fixpoint onlyBelow (fuel : nat) (node : loc) : prog (option SHAMapItem) :=
  let! n := deref node in
  match n with
  | Leaf t => ret (Some (mItem t))
  | Inner _ =>
      let! r := only_child node (seq 0 16) None in
      match r with
      | None => ret None
      | Some None => ret None
      | Some (Some next) =>
          match fuel with
          | O => throw (Undefined "more than 64 inner nodes on a path")
          | S fuel => onlyBelow fuel next
          end
      end
  end.

(** What [delItem] attaches to the node above [node], which is not the root. *)
Definition pull_up (node : loc) (type : TNType) : prog (option loc) :=
  let! i := deref_inner node in
  let bc := getBranchCount i in
  if (bc =? 0)%nat then ret None
  else if (bc =? 1)%nat then
    let! item := onlyBelow 64 node in
    match item with
    | Some item =>
        let! i := deref_inner node in
        match filter (λ b, isEmptyBranch i b = false) (seq 0 16) with
        | b :: _ => on_inner node (λ i, setChild i b None)
        | [] => ret ()
        end ;;
        let! l := alloc (Leaf (new_leaf item type (i_seq i))) in ret (Some l)
    | None => ret (Some node)
    end
  else ret (Some node).

Fixpoint del_up (stack : Stack) (id : Z) (type : TNType) (prevNode : option loc) : prog () :=
  match stack with
  | [] => ret ()
  | (node, nodeID) :: stack =>
      let! node := unshareNode node nodeID in
      on_inner node (λ i, setChild i (selectBranch nodeID id) prevNode) ;;
      if negb (isRoot nodeID) then
        let! prevNode := pull_up node type in del_up stack id type prevNode
      else del_up stack id type prevNode
  end.

Definition delItem (id : Z) : prog bool :=
  let! stack := getStack id true in
  match stack with
  | [] => throw (SHAMapMissingNode id)
  | (node, _) :: stack =>
      let! n := deref node in
      match n with
      | Inner _ => ret false
      | Leaf leaf =>
          if negb (key (mItem leaf) =? id) then ret false
          else del_up stack id (mType leaf) None ;; ret true
      end
  end.

(** ** Hashing, sharing and writing *)

Definition preFlushNode (node : loc) : prog loc :=
  let! n := deref node in
  let! m := this in
  if negb (getSeq n =? seq_ m) then alloc (clone n (seq_ m)) else ret node.

Definition writeNode (node : loc) : prog loc :=
  let! n := deref node in
  on_heap <[node := setSeq n 0]> ;;
  let! node := canonicalize (getNodeHash n) node in
  let! n := deref node in
  modify (λ s : world * SHAMap,
    (set_db s.1 (<[getNodeHash n := addRaw [] n snfPREFIX]> (db s.1)), s.2)) ;;
  ret node.

(** [updateHashDeep]: the hashes of the linked children, then that of the node. *)
Definition updateHashDeep (node : loc) : prog () :=
  foldM (λ _ pos,
    let! i := deref_inner node in
    match getChild i pos with
    | Some c =>
        let! n := deref c in
        on_inner node (λ i, mkInner (i_hash i) (i_seq i) (<[pos := getNodeHash n]> (mHashes i))
          (mChildren i) (mIsBranch i) (mFullBelowGen i))
    | None => ret ()
    end) () (seq 0 16) ;;
  on_inner node inner_updateHash.

(** A leaf of the map, and any leaf, is flushed. *)
Definition flush_own_leaf (write : bool) (child : loc) : prog loc :=
  let! n := deref child in
  match n with
  | Leaf t => on_heap <[child := Leaf (leaf_updateHash t).2]>
  | Inner _ => throw (Undefined "not a leaf")
  end ;;
  if write then writeNode child else ret child.

Definition flush_leaf (write : bool) (child : loc) : prog loc :=
  let! child := preFlushNode child in flush_own_leaf write child.

(** One branch of the inner node that is flushed: [flush] is for inner nodes. *)
Definition flush_branch (flush : loc → prog (Z * loc)) (write : bool) (node : loc) (flushed : Z)
    (pos : nat) : prog Z :=
  let! i := deref_inner node in
  if isEmptyBranch i pos then ret flushed
  else
    match getChild i pos with
    | None => ret flushed
    | Some child =>
        let! n := deref child in
        if getSeq n =? 0 then ret flushed
        else
          let! r := match n with
                    | Inner _ => let! child := preFlushNode child in flush child
                    | Leaf _ => let! child := flush_leaf write child in ret (1, child)
                    end in
          on_inner node (λ i, shareChild i pos r.2) ;; ret (flushed + r.1)
    end.

(** [walkSubTree] below an inner node that [preFlushNode] has prepared; the stack
    of nodes being flushed is the recursion.  The result is the number of nodes
    flushed and the node to link to. *)
Fixpoint flush_inner (fuel : nat) (doWrite : bool) (node : loc) : prog (Z * loc) :=
  let! m := this in
  let write := doWrite && backed_ m in
  let flush :=
    match fuel with
    | O => λ _, throw (Undefined "more than 64 inner nodes on a path")
    | S fuel => flush_inner fuel doWrite
    end in
  let! flushed := foldM (flush_branch flush write node) 0 (seq 0 16) in
  updateHashDeep node ;;
  let! node := if write then writeNode node else ret node in
  ret (flushed + 1, node).

Definition walkSubTree (doWrite : bool) : prog Z :=
  let! m := this in
  let! n := deref (root_ m) in
  if getSeq n =? 0 then ret 0
  else
    match n with
    | Leaf _ =>
        let! r := preFlushNode (root_ m) in
        let! r := if doWrite && backed_ m then writeNode r else ret r in
        modify (λ s, (s.1, set_root s.2 r)) ;; ret 1
    | Inner i =>
        if isEmpty i then ret 0
        else
          let! node := preFlushNode (root_ m) in
          let! r := flush_inner 64 doWrite node in
          modify (λ s, (s.1, set_root s.2 r.2)) ;; ret r.1
    end.

Definition unshare : prog Z := walkSubTree false.
Definition flushDirty : prog Z := walkSubTree true.

Definition getHash : prog Z :=
  let! m := this in
  let! n := deref (root_ m) in
  if getNodeHash n =? 0 then
    unshare ;;
    let! m := this in
    let! n := deref (root_ m) in ret (getNodeHash n)
  else ret (getNodeHash n).

(** [SHAMap (t, f, seq)], with the world it is made in. *)
Definition new_map (t : SHAMapType) (seq : Z) (w : world) : world * SHAMap :=
  let l := fresh (dom (heap w)) in
  (set_heap w (<[l := Inner (new_inner seq)]> (heap w)), mkSHAMap seq 0 l Modifying t true).

Definition snapShot (isMutable : bool) : prog SHAMap :=
  λ '(w, m),
    let '(w, newMap) := new_map (type_ m) 1 w in
    let newMap :=
      mkSHAMap (u32 (seq_ m + 1)) (ledgerSeq_ newMap) (root_ m)
        (if negb isMutable then Immutable else state_ newMap) (type_ newMap) (backed_ newMap) in
    if negb (match state_ m with Immutable => true | _ => false end) || negb isMutable then
      let* r := unshare (w, newMap) in Ok (r.2.2, (r.2.1, m))
    else Ok (newMap, (w, m)).

(** ** Iteration *)

(** The loop over the branches in [firstBelow]: the first branch that is not
    empty. *)
Definition first_branch (i : SHAMapInnerNode) (from : nat) : option nat :=
  head (filter (λ b, isEmptyBranch i b = false) (seq from (16 - from))).

Fixpoint firstBelow (fuel : nat) (node : loc) (stack : Stack) : prog (option SHAMapTreeNode * Stack) :=
  let! n := deref node in
  match n with
  | Leaf t => ret (Some t, stack)
  | Inner i =>
      match first_branch i 0 with
      | None => ret (None, stack)
      | Some b =>
          let! next := descendThrow_ptr node b in
          let! next := non_null next in
          match stack, fuel with
          | (_, top) :: _, S fuel => firstBelow fuel next ((next, getChildNodeID top b) :: stack)
          | [], _ => throw (Undefined "top of an empty stack")
          | _, O => past_end
          end
      end
  end.

(** [const_iterator]: the stack and the item, [None] at the end. *)
Record const_iterator := mkIterator { stack_ : Stack; item_ : option SHAMapItem }.

Definition peekFirstItem : prog const_iterator :=
  let! m := this in
  let! r := firstBelow 64 (root_ m) [(root_ m, root_id)] in
  match r.1 with
  | None => ret (mkIterator [] None)
  | Some t => ret (mkIterator r.2 (Some (mItem t)))
  end.

Definition begin_ : prog const_iterator := peekFirstItem.
Definition end_ : const_iterator := mkIterator [] None.

(** The next branch to the right of the one [id] is on, common to [peekNextItem]
    and [upper_bound]. *)
Definition right_of (id : Z) (inner : SHAMapInnerNode) (node : loc) (nodeID : SHAMapNodeID) (stack : Stack) :
    prog (option const_iterator) :=
  match first_branch inner (S (selectBranch nodeID id)) with
  | None => ret None
  | Some b =>
      let! next := descendThrow_ptr node b in
      let! next := non_null next in
      let nodeID := getChildNodeID nodeID b in
      let! r := firstBelow (64 - mDepth nodeID) next ((next, nodeID) :: stack) in
      match r.1 with
      | None => throw (SHAMapMissingNode id)
      | Some t => ret (Some (mkIterator r.2 (Some (mItem t))))
      end
  end.

Fixpoint next_up (id : Z) (stack : Stack) : prog const_iterator :=
  match stack with
  | [] => ret end_
  | (node, nodeID) :: rest =>
      let! inner := deref_inner node in
      let! r := right_of id inner node nodeID stack in
      match r with Some it => ret it | None => next_up id rest end
  end.

Definition peekNextItem (id : Z) (stack : Stack) : prog const_iterator :=
  match stack with
  | [] => throw (Undefined "pop of an empty stack")
  | _ :: stack => next_up id stack
  end.

(** [operator++] *)
Definition increment (it : const_iterator) : prog const_iterator :=
  let! item := non_null (item_ it) in peekNextItem (key item) (stack_ it).

Fixpoint upper_up (id : Z) (stack : Stack) : prog const_iterator :=
  match stack with
  | [] => ret end_
  | (node, nodeID) :: rest =>
      let! n := deref node in
      match n with
      | Leaf t =>
          if id <? key (mItem t) then ret (mkIterator stack (Some (mItem t))) else upper_up id rest
      | Inner inner =>
          let! r := right_of id inner node nodeID stack in
          match r with Some it => ret it | None => upper_up id rest end
      end
  end.

(** [upper_bound]: its first loop makes the stack of [getStack], with plain
    pointers. *)
Definition upper_bound (id : Z) : prog const_iterator :=
  let! m := this in
  let! stack := walk_stack descendThrow_ptr 64 (root_ m) root_id id true [] in
  upper_up id stack.

End methods.

End SM.
