(* ===== verification/SHAMapSync.v ===== *)
(** * Reading maps from the store and from peers

    [SHAMap (t, hash, f)] with [fetchRoot] of SHAMap.cpp, and the operations of
    SHAMapSync.cpp that add nodes a peer sent.  A [SHAMapSyncFilter] is an
    interface: where else nodes may be ([haveNode]), and who is told of a node
    ([gotNode], by what it does to the store). *)

From S2P Require Import Prelude Serializer StateMonad SHAMapNode SHAMap.
Import Node SM.
Open Scope prog_scope.

Module Sync.

Section sync.
Context `{Digest}.

(** ** The filter *)

(** [getType]: nothing for [tnINNER]. *)
Definition getType (n : SHAMapAbstractNode) : option TNType :=
  match n with Inner _ => None | Leaf t => Some (mType t) end.

Record SHAMapSyncFilter := mkFilter {
  haveNode : SHAMapNodeID → Z → option (list Z);
  gotNode : bool → SHAMapNodeID → Z → list Z → option TNType → gmap Z (list Z) → gmap Z (list Z)
}.

(** [AccountStateSF]: fetch packs, and the node store. *)
Definition AccountStateSF (getFetchPack : Z → option (list Z)) : SHAMapSyncFilter :=
  mkFilter (λ _ nodeHash, getFetchPack nodeHash) (λ _ _ nodeHash nodeData _, <[nodeHash := nodeData]>).

Definition tell (f : SHAMapSyncFilter) (fromFilter : bool) (id : SHAMapNodeID) (hash : Z) (data : list Z)
    (type : option TNType) : prog () :=
  modify (λ s : world * SHAMap, (set_db s.1 (gotNode f fromFilter id hash data type (db s.1)), s.2)).

Definition checkFilter (hash : Z) (id : SHAMapNodeID) (filter : SHAMapSyncFilter) : prog (option loc) :=
  match haveNode filter id hash with
  | None => ret None
  | Some nodeData =>
      let! node := lift (make nodeData 0 snfPREFIX hash true) in
      match node with
      | None => ret None
      | Some n =>
          tell filter true id hash nodeData (getType n) ;;
          let! l := alloc n in
          let! m := this in
          let! l := if backed_ m then canonicalize hash l else ret l in ret (Some l)
      end
  end.

(** [fetchNodeNT (id, hash, filter)] *)
Definition fetchNodeNT_filter (id : SHAMapNodeID) (hash : Z) (filter : option SHAMapSyncFilter) : prog (option loc) :=
  let! node := getCache hash in
  match node with
  | Some l => ret (Some l)
  | None =>
      let! m := this in
      let! node := if backed_ m then fetchNodeFromDB hash else ret None in
      match node with
      | Some l => let! l := canonicalize hash l in ret (Some l)
      | None => match filter with Some f => checkFilter hash id f | None => ret None end
      end
  end.

(** [SHAMap (t, hash, f)]; the hash is not used. *)
Definition map_of_hash (t : SHAMapType) (hash : Z) (w : world) : world * SHAMap :=
  let l := fresh (dom (heap w)) in
  (set_heap w (<[l := Inner (new_inner 1)]> (heap w)), mkSHAMap 1 0 l Synching t true).

Definition fetchRoot (hash : Z) (filter : option SHAMapSyncFilter) : prog bool :=
  let! m := this in
  let! r := deref (root_ m) in
  if hash =? getNodeHash r then ret true
  else
    let! newRoot := fetchNodeNT_filter root_id hash filter in
    match newRoot with
    | Some l => modify (λ s, (s.1, set_root s.2 l)) ;; ret true
    | None => ret false
    end.

End sync.

End Sync.
