(* ===== verification/SHAMapDelta.v ===== *)
(** * Comparing maps

    shamap/impl/SHAMapDelta.cpp: [walkBranch] and [compare].  A comparison works on
    two maps in one world; [on_first] and [on_second] run a method of one of them. *)

From S2P Require Import Prelude Serializer StateMonad SHAMapNode SHAMap.
Import Node SM.
Open Scope prog_scope.

Module Delta.

(** ** Two maps in one world *)

Definition world2 : Type := world * SHAMap * SHAMap.

Definition on_first {A} (p : prog A) : M world2 A :=
  λ '(w, a, b), let* (r, (w, a)) := p (w, a) in Ok (r, (w, a, b)).

Definition on_second {A} (p : prog A) : M world2 A :=
  λ '(w, a, b), let* (r, (w, b)) := p (w, b) in Ok (r, (w, a, b)).

(** ** Differences *)

(** The items of the first and of the second map. *)
Abbreviation DeltaItem := (option SHAMapItem * option SHAMapItem)%type.
Abbreviation Delta := (gmap Z DeltaItem).

(** The differences found, and how many more may be. *)
Abbreviation found := (Delta * Z)%type.

(** [differences.insert (std::make_pair (k, v))], which keeps a pair that is there,
    and [if (--maxCount <= 0) return false]. *)
Definition note (k : Z) (v : DeltaItem) (f : found) : bool * found :=
  let d := match f.1 !! k with Some _ => f.1 | None => <[k := v]> f.1 end in
  let maxCount := f.2 - 1 in
  (negb (maxCount <=? 0), (d, maxCount)).

(** [DeltaRef (item, other)], the other way round for the second map. *)
Definition DeltaRef (isFirstMap : bool) (item other : option SHAMapItem) : DeltaItem :=
  if isFirstMap then (item, other) else (other, item).

Section methods.
Context `{Digest}.

(** ** [walkBranch] *)

Definition push_branch (node : loc) (nodeStack : list (option loc)) (i : nat) : prog (list (option loc)) :=
  let! inner := deref_inner node in
  if isEmptyBranch inner i then ret nodeStack
  else let! c := descendThrow_ptr node i in ret (c :: nodeStack).

Section walk.
Context (otherMapItem : option SHAMapItem) (isFirstMap : bool).

Fixpoint branch_loop (fuel : nat) (nodeStack : list (option loc)) (emptyBranch : bool) (f : found) :
    prog (bool * found) :=
  match nodeStack with
  | [] =>
      match emptyBranch, otherMapItem with
      | false, Some o => ret (note (key o) (DeltaRef isFirstMap None (Some o)) f)
      | _, _ => ret (true, f)
      end
  | node :: nodeStack =>
      match fuel with
      | O => throw (Undefined "more nodes than the walk was given")
      | S fuel =>
          let! node := non_null node in
          let! n := deref node in
          match n with
          | Inner _ =>
              let! nodeStack := foldM (push_branch node) nodeStack (seq 0 16) in
              branch_loop fuel nodeStack emptyBranch f
          | Leaf t =>
              let item := mItem t in
              let unmatched :=
                let '(go, f) := note (key item) (DeltaRef isFirstMap (Some item) None) f in
                if go then branch_loop fuel nodeStack emptyBranch f else ret (false, f) in
              match emptyBranch, otherMapItem with
              | false, Some o =>
                  if negb (key item =? key o) then unmatched
                  else if negb (bool_decide (peekData item = peekData o)) then
                    let '(go, f) := note (key item) (DeltaRef isFirstMap (Some item) (Some o)) f in
                    if go then branch_loop fuel nodeStack true f else ret (false, f)
                  else branch_loop fuel nodeStack true f
              | _, _ => unmatched
              end
          end
      end
  end.
End walk.

Definition walkBranch (fuel : nat) (node : option loc) (otherMapItem : option SHAMapItem) (isFirstMap : bool)
    (f : found) : prog (bool * found) :=
  branch_loop otherMapItem isFirstMap fuel [node] (match otherMapItem with None => true | Some _ => false end) f.

(** ** [compare] *)

Definition PairStack : Type := list (option loc * option loc).

Section compare.
Context (fuel : nat).

(** Two leaves. *)
Definition compare_leaves (ours other : SHAMapItem) (f : found) : bool * found :=
  if key ours =? key other then
    if negb (bool_decide (peekData ours = peekData other)) then note (key ours) (Some ours, Some other) f
    else (true, f)
  else
    let '(go, f) := note (key ours) (Some ours, None) f in
    if go then note (key other) (None, Some other) f else (false, f).

(** One branch of two inner nodes: what to go on with, nothing for [return false]. *)
Definition compare_branch (ourNode otherNode : loc) (st : option PairStack * found) (i : nat) :
    M world2 (option PairStack * found) :=
  match st with
  | (None, f) => ret (None, f)
  | (Some nodeStack, f) =>
      let! ours := on_first (deref_inner ourNode) in
      let! other := on_second (deref_inner otherNode) in
      if getChildHash ours i =? getChildHash other i then ret (Some nodeStack, f)
      else if isEmptyBranch other i then
        let! iNode := on_first (descendThrow_ptr ourNode i) in
        let! r := on_first (walkBranch fuel iNode None true f) in
        ret (if r.1 then Some nodeStack else None, r.2)
      else if isEmptyBranch ours i then
        let! iNode := on_second (descendThrow_ptr otherNode i) in
        let! r := on_second (walkBranch fuel iNode None false f) in
        ret (if r.1 then Some nodeStack else None, r.2)
      else
        let! c1 := on_first (descendThrow_ptr ourNode i) in
        let! c2 := on_second (descendThrow_ptr otherNode i) in
        ret (Some ((c1, c2) :: nodeStack), f)
  end.

(** One pair of nodes. *)
Definition compare_nodes (ourNode otherNode : loc) (nodeStack : PairStack) (f : found) :
    M world2 (option PairStack * found) :=
  let! n1 := on_first (deref ourNode) in
  let! n2 := on_second (deref otherNode) in
  let go (r : bool * found) := (if r.1 then Some nodeStack else None, r.2) in
  match n1, n2 with
  | Leaf ours, Leaf other => ret (go (compare_leaves (mItem ours) (mItem other) f))
  | Inner _, Leaf other =>
      let! r := on_first (walkBranch fuel (Some ourNode) (Some (mItem other)) true f) in ret (go r)
  | Leaf ours, Inner _ =>
      let! r := on_second (walkBranch fuel (Some otherNode) (Some (mItem ours)) false f) in ret (go r)
  | Inner _, Inner _ => foldM (compare_branch ourNode otherNode) (Some nodeStack, f) (seq 0 16)
  end.

Fixpoint compare_loop (steps : nat) (nodeStack : PairStack) (f : found) : M world2 (bool * Delta) :=
  match nodeStack with
  | [] => ret (true, f.1)
  | (ourNode, otherNode) :: nodeStack =>
      match steps with
      | O => throw (Undefined "more nodes than the comparison was given")
      | S steps =>
          match ourNode, otherNode with
          | Some ourNode, Some otherNode =>
              let! r := compare_nodes ourNode otherNode nodeStack f in
              match r with
              | (Some nodeStack, f) => compare_loop steps nodeStack f
              | (None, f) => ret (false, f.1)
              end
          | _, _ => throw (SHAMapMissingNode 0)
          end
      end
  end.

Definition compare (differences : Delta) (maxCount : Z) : M world2 (bool * Delta) :=
  let! h1 := on_first getHash in
  let! h2 := on_second getHash in
  if h1 =? h2 then ret (true, differences)
  else
    let! roots := gets (λ s : world2, (root_ s.1.2, root_ s.2)) in
    compare_loop fuel [(Some roots.1, Some roots.2)] (differences, maxCount).

End compare.

End methods.

End Delta.
