(* ===== verification/SHAMapRep.v ===== *)
(** * What a SHAMap stands for

    A map in memory stands for a set of items.  [rep] says so for the tree below
    a node: the shape of the tree is determined by its items, as a radix tree
    has a leaf where there is one item and an inner node where there are more.
    Children that are not in memory are found by hash in the node store.

    [rep] is relative to a predicate on the nodes of the tree in memory and their
    sequence numbers, which is how the theorems about sharing say which nodes a
    tree does not have. *)

From S2P Require Import Prelude Serializer StateMonad SHAMapNode SHAMap.
Import Node SM.

Module Rep.

Abbreviation content := (gmap Z SHAMapItem).

(** ** Keys by digits *)

(** Digit [d] of a key, the most significant first. *)
Definition nib (d : nat) (k : Z) : nat := Z.to_nat ((k / 16 ^ (63 - Z.of_nat d)) mod 16).

(** The digits before [d]. *)
Definition pre (d : nat) (k : Z) : Z := k / 16 ^ (64 - Z.of_nat d).

Definition key_ok (k : Z) : Prop := 0 ≤ k < 2 ^ 256.

Lemma nib_lt d k : (nib d k < 16)%nat.
Proof. unfold nib. pose proof (Z.mod_pos_bound (k / 16 ^ (63 - Z.of_nat d)) 16). lia. Qed.

Lemma pre_S d k : (d < 64)%nat → pre (S d) k = 16 * pre d k + Z.of_nat (nib d k).
Proof.
  intros Hd. unfold pre, nib. replace (64 - Z.of_nat (S d)) with (63 - Z.of_nat d) by lia.
  replace (64 - Z.of_nat d) with (63 - Z.of_nat d + 1) by lia.
  rewrite Z.pow_add_r, Z.pow_1_r, <- Z.div_div by lia.
  pose proof (Z.mod_pos_bound (k / 16 ^ (63 - Z.of_nat d)) 16).
  rewrite Z2Nat.id by lia. apply Z.div_mod. lia.
Qed.

Lemma pre_S_eq d k k' :
  (d < 64)%nat → pre (S d) k = pre (S d) k' ↔ pre d k = pre d k' ∧ nib d k = nib d k'.
Proof.
  intros Hd. rewrite !pre_S by done. pose proof (nib_lt d k). pose proof (nib_lt d k'). lia.
Qed.

Lemma pre_0 k : key_ok k → pre 0 k = 0.
Proof.
  intros Hk. unfold pre. apply Z.div_small. change (16 ^ (64 - Z.of_nat 0)) with (2 ^ 256). done.
Qed.

Lemma pre_64 k : pre 64 k = k.
Proof. unfold pre. change (64 - Z.of_nat 64) with 0. apply Z.div_1_r. Qed.

Lemma pre_le d k k' : k ≤ k' → pre d k ≤ pre d k'.
Proof.
  intros Hk. unfold pre. destruct (Z.le_gt_cases (64 - Z.of_nat d) 0) as [H|H].
  - destruct (Z.eq_dec (64 - Z.of_nat d) 0) as [->|]; [by rewrite !Z.div_1_r|].
    rewrite Z.pow_neg_r by lia. by rewrite !Z.div_0_r.
  - apply Z.div_le_mono; [|done]. apply Z.pow_pos_nonneg; lia.
Qed.

(** The source's way to the digit. *)
Lemma be_bytes_lookup n z i :
  (i < n)%nat → be_bytes n z !! i = Some (u8 (z / 256 ^ Z.of_nat (n - S i))).
Proof.
  revert i. induction n as [|n IH]; intros i Hi; [lia|]. destruct i as [|i]; cbn [be_bytes lookup list_lookup].
  - by rewrite Nat.sub_succ, Nat.sub_0_r.
  - change (be_bytes n z !! i = Some (u8 (z / 256 ^ Z.of_nat (S n - S (S i))))).
    rewrite IH by lia. do 5 f_equal. 
Qed.

Lemma selectBranch_nib id k : (mDepth id < 64)%nat → selectBranch id k = nib (mDepth id) k.
Proof.
  destruct id as [d nid]. cbn [mDepth]. intros Hd. unfold selectBranch, key_byte, nib. cbn [mDepth].
  pose proof (Nat.div_mod d 2) as Hdm. pose proof (Nat.mod_upper_bound d 2) as Hm.
  rewrite be_bytes_lookup by (apply Nat.Div0.div_lt_upper_bound; lia). cbn [default from_option id].
  set (i := (d / 2)%nat) in *. unfold u8, uwrap. change (2 ^ 8) with 256.
  f_equal. rewrite <- Nat.negb_even. destruct (Nat.even d) eqn:E; cbn [negb].
  - apply Nat.even_spec in E as [j Hj]. assert (j = i) as -> by lia.
    rewrite Z.shiftr_div_pow2 by done. change (2 ^ 4) with 16.
    replace (63 - Z.of_nat d) with (2 * Z.of_nat (32 - S i) + 1) by lia.
    rewrite Z.pow_add_r, Z.pow_mul_r, Z.pow_1_r by lia. change (16 ^ 2) with 256.
    rewrite <- Z.div_div by (try apply Z.pow_nonzero; lia).
    change 256 with (16 * 16) at 2. rewrite Z.rem_mul_r by lia.
    rewrite Z.mul_comm, Z.div_add by lia.
    rewrite (Z.div_small (_ mod 16)) by (apply Z.mod_pos_bound; lia). lia.
  - assert (d = 2 * i + 1)%nat as Hj.
    { assert (Nat.odd d = true) as Ho by (by rewrite <- Nat.negb_even, E).
      apply Nat.odd_spec in Ho as [j Hj]. lia. }
    change 0xf with (Z.ones 4). rewrite Z.land_ones by done. change (2 ^ 4) with 16.
    replace (63 - Z.of_nat d) with (2 * Z.of_nat (32 - S i)) by lia.
    rewrite Z.pow_mul_r by lia. change (16 ^ 2) with 256.
    change 256 with (16 * 16) at 2. rewrite Z.rem_mul_r by lia.
    rewrite Z.mul_comm, Z.mod_add by lia. apply Z.mod_mod. lia.
Qed.

Lemma getChildNodeID_depth id b : mDepth (getChildNodeID id b) = S (mDepth id).
Proof. done. Qed.

(** ** The items on a branch *)

Definition sub (d b : nat) (m : content) : content := filter (λ kv, nib d kv.1 = b) m.

Lemma lookup_sub d b m k it : sub d b m !! k = Some it ↔ m !! k = Some it ∧ nib d k = b.
Proof. apply map_lookup_filter_Some. Qed.

Lemma sub_empty d b : sub d b ∅ = ∅.
Proof. apply map_filter_empty. Qed.

Lemma sub_subseteq d b m : sub d b m ⊆ m.
Proof. apply map_filter_subseteq. Qed.

(** Two contents are equal when they have the same items. *)
Ltac same_items :=
  apply map_eq; let k' := fresh "k" in intros k'; apply option_eq; let x := fresh "x" in intros x;
  rewrite ?lookup_sub, ?lookup_insert_Some, ?lookup_delete_Some, ?lookup_sub; intuition congruence.

Lemma sub_insert d m k it : sub d (nib d k) (<[k := it]> m) = <[k := it]> (sub d (nib d k) m).
Proof. same_items. Qed.

Lemma sub_insert_ne d b m k it : nib d k ≠ b → sub d b (<[k := it]> m) = sub d b m.
Proof. intros Hb. same_items. Qed.

Lemma sub_delete d m k : sub d (nib d k) (delete k m) = delete k (sub d (nib d k) m).
Proof. same_items. Qed.

Lemma sub_delete_ne d b m k : nib d k ≠ b → sub d b (delete k m) = sub d b m.
Proof. intros Hb. same_items. Qed.

Lemma sub_singleton d k it : sub d (nib d k) {[k := it]} = {[k := it]}.
Proof. rewrite <- insert_empty, sub_insert, sub_empty. done. Qed.

Lemma sub_singleton_ne d b k it : nib d k ≠ b → sub d b {[k := it]} = ∅.
Proof. intros. rewrite <- insert_empty, sub_insert_ne by done. apply sub_empty. Qed.

(** Contents are determined by their branches. *)
Lemma sub_ext d m m' : (∀ b, (b < 16)%nat → sub d b m = sub d b m') → m = m'.
Proof.
  intros Hb. apply map_eq. intros k. apply option_eq. intros x.
  specialize (Hb (nib d k) (nib_lt d k)).
  pose proof (lookup_sub d (nib d k) m k x) as H1. pose proof (lookup_sub d (nib d k) m' k x) as H2.
  rewrite Hb in H1. intuition.
Qed.

Lemma sub_all d b m : (∀ k, is_Some (m !! k) → nib d k = b) → sub d b m = m.
Proof.
  intros Hb. apply map_eq. intros k. apply option_eq. intros x. rewrite lookup_sub. split; [by intros [? _]|].
  intros Hx. split; [done|]. apply Hb. eauto.
Qed.

(** Items under one position: keys in range that agree on their first [d]
    digits. *)
Definition good (d : nat) (m : content) : Prop :=
  (∀ k, is_Some (m !! k) → key_ok k) ∧
  (∀ k k', is_Some (m !! k) → is_Some (m !! k') → pre d k = pre d k').

Lemma good_sub d b m : (d < 64)%nat → good d m → good (S d) (sub d b m).
Proof.
  intros Hd [H1 H2]. split.
  - intros k [x [Hx _]%lookup_sub]. apply H1. eauto.
  - intros k k' [x [Hx ?]%lookup_sub] [x' [Hx' ?]%lookup_sub]. apply pre_S_eq; [done|].
    split; [apply H2; eauto|congruence].
Qed.

Lemma good_subseteq d m m' : m ⊆ m' → good d m' → good d m.
Proof.
  intros Hs [H1 H2]. split.
  - intros k [x Hx]. apply H1. exists x. by eapply lookup_weaken.
  - intros k k' [x Hx] [x' Hx']. apply H2; [exists x|exists x']; by eapply lookup_weaken.
Qed.

(** Two items differ before digit 64. *)
Lemma good_64 m k k' : good 64 m → is_Some (m !! k) → is_Some (m !! k') → k = k'.
Proof. intros [_ H] Hk Hk'. specialize (H k k' Hk Hk'). by rewrite !pre_64 in H. Qed.

Lemma two_items (m : content) :
  (2 ≤ size m)%nat ↔ ∃ k k', k ≠ k' ∧ is_Some (m !! k) ∧ is_Some (m !! k').
Proof.
  split.
  - intros Hs. destruct (map_choose m) as (k & x & Hk).
    { intros ->. rewrite map_size_empty in Hs. lia. }
    destruct (map_choose (delete k m)) as (k' & x' & Hk').
    { intros He. apply (f_equal base.size) in He. rewrite map_size_delete, Hk, map_size_empty in He. simpl in He. lia. }
    apply lookup_delete_Some in Hk' as [Hne Hk']. exists k, k'. eauto.
  - intros (k & k' & Hne & [x Hx] & [x' Hx']).
    rewrite <- (insert_delete_id m k x), map_size_insert_None by (done || apply lookup_delete_eq).
    rewrite <- (insert_delete_id (delete k m) k' x'), map_size_insert_None.
    + lia.
    + apply lookup_delete_eq.
    + by rewrite lookup_delete_ne.
Qed.

Lemma one_item (m : content) : size m = 1%nat → ∃ k x, m = {[k := x]}.
Proof.
  intros Hs. destruct (map_choose m) as (k & x & Hk).
  { intros ->. by rewrite map_size_empty in Hs. }
  exists k, x. rewrite <- (insert_delete_id m k x) by done.
  assert (delete k m = ∅) as ->; [|apply insert_empty].
  apply map_size_empty_iff. rewrite map_size_delete, Hk, Hs. done.
Qed.

(** Contents are empty, one item, or more. *)
Lemma content_cases (m : content) : m = ∅ ∨ (∃ k x, m = {[k := x]}) ∨ (2 ≤ size m)%nat.
Proof.
  destruct (decide (m = ∅)) as [|Hne]; [auto|]. right.
  destruct (decide (size m = 1%nat)) as [Hs|Hs]; [left; by apply one_item|right].
  assert (base.size m ≠ 0%nat) by (by rewrite map_size_empty_iff). lia.
Qed.

Section rep.
Context `{Digest} (ty : TNType).
Implicit Types (m : content) (l c : loc) (i : SHAMapInnerNode) (w : world).

(** ** Hashes by contents *)

Definition only_hash m : Z :=
  match map_to_list m with (_, it) :: _ => leaf_hash ty it | [] => 0 end.

(** The hash of the tree with contents [m], [n] digits above the bottom. *)
Fixpoint tree_hash (n : nat) m : Z :=
  match n with
  | O => only_hash m
  | S n =>
      if decide (size m = 1%nat) then only_hash m
      else sha512Half (be_bytes 4 innerNode ++
        (seq 0 16 ≫= λ b,
           be_bytes 32 (let mb := sub (63 - n) b m in if decide (mb = ∅) then 0 else tree_hash n mb)))
  end.

Definition branch_hash (n : nat) m : Z := if decide (m = ∅) then 0 else tree_hash n m.

(** The hash of an inner node with contents [m] and children [n] digits above
    the bottom. *)
Definition inner_digest (n : nat) m : Z :=
  if decide (m = ∅) then 0
  else sha512Half (be_bytes 4 innerNode ++
         (seq 0 16 ≫= λ b, be_bytes 32 (branch_hash n (sub (63 - n) b m)))).

(** The hash of a map: its root is an inner node even when it has one item. *)
Definition root_hash m : Z := inner_digest 63 m.

Lemma tree_hash_singleton n k it : tree_hash n {[k := it]} = leaf_hash ty it.
Proof.
  assert (only_hash {[k := it]} = leaf_hash ty it) as E.
  { unfold only_hash. by rewrite map_to_list_singleton. }
  destruct n; simpl; [done|]. by rewrite decide_True by apply map_size_singleton.
Qed.

Lemma tree_hash_inner n m : (2 ≤ size m)%nat → tree_hash (S n) m = inner_digest n m.
Proof.
  intros Hs. unfold inner_digest. cbn [tree_hash]. rewrite decide_False by lia.
  rewrite decide_False; [done|]. intros ->. rewrite map_size_empty in Hs. lia.
Qed.

(** ** Inner nodes

    [child] says when a link, its hash and the contents of its branch belong
    together, [hashed] what the hash of a child in memory is, by the sequence
    number of the node. *)

Record branch_ok (child : option loc → Z → content → Prop) i (b : nat) (mb : content) : Prop := {
  bo_empty : isEmptyBranch i b = bool_decide (mb = ∅);
  bo_none : mb = ∅ → getChild i b = None ∧ getChildHash i b = 0;
  bo_some : mb ≠ ∅ → child (getChild i b) (getChildHash i b) mb
}.

(** A node that was changed has no hash, and is not shared; otherwise its hash
    and those of its children are right. *)
Definition hash_ok (hashed : Z → loc → Z → Prop) (n : nat) i m : Prop :=
  i_hash i = 0 ∧ i_seq i ≠ 0 ∨
  i_hash i = inner_digest n m ∧
  ∀ b, (b < 16)%nat →
    getChildHash i b = branch_hash n (sub (63 - n) b m) ∧
    ∀ c, getChild i b = Some c → hashed (i_seq i) c (getChildHash i b).

Record shape_ok i : Prop := {
  so_hashes : length (mHashes i) = 16%nat;
  so_children : length (mChildren i) = 16%nat;
  so_branch : 0 ≤ mIsBranch i < 2 ^ 16
}.

Record inner_ok child hashed (n : nat) i m : Prop := {
  io_shape : shape_ok i;
  io_branch b : (b < 16)%nat → branch_ok child i b (sub (63 - n) b m);
  io_hash : hash_ok hashed n i m
}.

(** ** Trees in the node store *)

Fixpoint stored (d : gmap Z (list Z)) (n : nat) (hh : Z) m : Prop :=
  hh = tree_hash n m ∧
  ∃ data nd, d !! hh = Some data ∧ make data 0 snfPREFIX hh true = Ok (Some nd) ∧
  match nd with
  | Leaf t => mType t = ty ∧ m = {[key (mItem t) := mItem t]}
  | Inner i =>
      match n with
      | O => False
      | S n =>
          (2 ≤ size m)%nat ∧
          inner_ok (λ (c : option loc) hh mb, c = None ∧ stored d n hh mb) (λ _ _ _, False) n i m
      end
  end.

(** ** Trees in memory

    [P] holds of the nodes in memory and their sequence numbers; [A] says whether
    the node store may be used. *)

Definition hash_at w c (hh : Z) : Prop := ∃ nd, heap w !! c = Some nd ∧ getNodeHash nd = hh.

(** The child of a node that has its hash has it too, and that of a shared node
    is shared. *)
Definition link_at w (sq : Z) c (hh : Z) : Prop :=
  ∃ nd, heap w !! c = Some nd ∧ getNodeHash nd = hh ∧ (sq = 0 → getSeq nd = 0).

Fixpoint rep (P : loc → Z → Prop) (A : bool) w (n : nat) l m : Prop :=
  ∃ nd, heap w !! l = Some nd ∧ P l (getSeq nd) ∧
  match nd with
  | Leaf t => mType t = ty ∧ m = {[key (mItem t) := mItem t]} ∧ l_hash t = leaf_hash ty (mItem t)
  | Inner i =>
      match n with
      | O => False
      | S n =>
          (2 ≤ size m)%nat ∧
          inner_ok (λ (c : option loc) hh mb,
            match c with
            | Some c => rep P A w n c mb
            | None => A = true ∧ stored (db w) n hh mb
            end) (link_at w) n i m
      end
  end.

Definition child_rep P A w n (c : option loc) hh m : Prop :=
  match c with
  | Some c => rep P A w n c m
  | None => A = true ∧ stored (db w) n hh m
  end.

(** An inner node with any number of items below it: the root of a map is one. *)
Definition inner_at P A w n l m : Prop :=
  ∃ i, heap w !! l = Some (Inner i) ∧ P l (i_seq i) ∧ inner_ok (child_rep P A w n) (link_at w) n i m.

Definition leaf_at P w l m : Prop :=
  ∃ t, heap w !! l = Some (Leaf t) ∧ P l (l_seq t) ∧ mType t = ty ∧
    m = {[key (mItem t) := mItem t]} ∧ l_hash t = leaf_hash ty (mItem t).

Lemma rep_unfold P A w n l m :
  rep P A w n l m ↔
  leaf_at P w l m ∨ ∃ n', n = S n' ∧ (2 ≤ size m)%nat ∧ inner_at P A w n' l m.
Proof.
  unfold leaf_at, inner_at. split.
  - destruct n as [|n]; intros ([i|t] & Hl & HP & Hr); cbn [rep] in *; try done.
    + left. by exists t.
    + right. exists n. split; [done|]. destruct Hr as [? ?]. split; [done|]. by exists i.
    + left. by exists t.
  - intros [(t & Hl & HP & Ht)|(n' & -> & Hs & i & Hl & HP & Hi)].
    + destruct n; exists (Leaf t); done.
    + exists (Inner i). done.
Qed.

Lemma rep_nonempty P A w n l m : rep P A w n l m → m ≠ ∅.
Proof.
  intros [(t & _ & _ & _ & Hm & _)|(n' & _ & Hs & _)]%rep_unfold He.
  - apply (map_non_empty_singleton (M := gmap Z) (key (mItem t)) (mItem t)). congruence.
  - rewrite He, map_size_empty in Hs. lia.
Qed.

(** Changing what is known about the children. *)
Lemma inner_ok_impl (child child' : option loc → Z → content → Prop) (hashed hashed' : Z → loc → Z → Prop) n i m :
  inner_ok child hashed n i m →
  (∀ b, (b < 16)%nat → sub (63 - n) b m ≠ ∅ →
     child (getChild i b) (getChildHash i b) (sub (63 - n) b m) →
     child' (getChild i b) (getChildHash i b) (sub (63 - n) b m)) →
  (∀ b c sq hh, (b < 16)%nat → getChild i b = Some c →
     child (Some c) (getChildHash i b) (sub (63 - n) b m) → hashed sq c hh → hashed' sq c hh) →
  inner_ok child' hashed' n i m.
Proof.
  intros [Hs Hb Hh] Hc Hd. split; [done| |].
  - intros b Hlt. destruct (Hb b Hlt) as [H1 H2 H3]. split; [done|done|]. auto.
  - destruct Hh as [Hh|[Hh Hall]]; [by left|right]. split; [done|]. intros b Hlt.
    destruct (Hall b Hlt) as [? Hcl]. split; [done|]. intros c Hg. destruct (Hb b Hlt) as [_ H2 H3].
    destruct (decide (sub (63 - n) b m = ∅)) as [He|He]; [destruct (H2 He); congruence|].
    specialize (H3 He). rewrite Hg in H3. eauto.
Qed.

End rep.

End Rep.
