(* ===== verification/SHAMapRepFacts.v ===== *)
(** * Facts about the representation of SHAMaps

    What a tree stands for does not depend on nodes it does not have; a node
    stands for one set of items at one depth, so a tree has no node twice; and
    linking a node fetched from the store changes nothing. *)

From S2P Require Import Prelude Serializer StateMonad SHAMapNode SHAMap SHAMapRep.
Import Node SM Rep.

Module RepFacts.

Lemma pre_down d d' k k' : (d ≤ d' ≤ 64)%nat → pre d' k = pre d' k' → pre d k = pre d k'.
Proof.
  intros Hd. assert (∀ x, pre d x = pre d' x / 16 ^ Z.of_nat (d' - d)) as E; [|by rewrite !E; intros ->].
  intros x. unfold pre. rewrite Z.div_div by (try apply Z.pow_nonzero; try apply Z.pow_pos_nonneg; lia).
  rewrite <- Z.pow_add_r by lia. do 2 f_equal. lia.
Qed.

Lemma nib_down d d' k k' : (d < d' ≤ 64)%nat → pre d' k = pre d' k' → nib d k = nib d k'.
Proof. intros Hd Hp. apply (pre_down (S d)) in Hp; [|lia]. by apply pre_S_eq in Hp as [_ ?]; [|lia]. Qed.

Lemma elem_sub d (m : content) k : is_Some (m !! k) → is_Some (sub d (nib d k) m !! k).
Proof. intros [x Hx]. exists x. by apply lookup_sub. Qed.

Section facts.
Context `{Digest} (ty : TNType).
Implicit Types (m : content) (l c : loc) (i : SHAMapInnerNode) (w : world).
Implicit Types (P Q : loc → Z → Prop).

(** ** Frames *)

Lemma stored_mono d d' n hh m : d ⊆ d' → stored ty d n hh m → stored ty d' n hh m.
Proof.
  intros Hd. revert hh m. induction n as [|n IH]; intros hh m (He & data & nd & Hdata & Hmake & Hnd);
    (split; [done|]); exists data, nd; (split; [by eapply lookup_weaken|]); (split; [done|]);
    destruct nd as [i|t]; try done.
  destruct Hnd as [Hs Hi]. split; [done|]. eapply inner_ok_impl; [done| |done].
  intros b _ _ [? ?]. auto.
Qed.

(** A tree is kept when its nodes are. *)
Lemma rep_transfer P Q A w w' :
  db w ⊆ db w' →
  (∀ l nd, heap w !! l = Some nd → P l (getSeq nd) → heap w' !! l = Some nd ∧ Q l (getSeq nd)) →
  ∀ n l m, rep ty P A w n l m → rep ty Q A w' n l m.
Proof.
  intros Hd Hl. induction n as [|n IH]; intros l m (nd & Hnd & HP & Hr);
    destruct (Hl l nd Hnd HP) as [Hnd' HQ]; exists nd; (split; [done|]); (split; [done|]);
    destruct nd as [i|t]; try done.
  destruct Hr as [Hs Hi]. split; [done|]. eapply inner_ok_impl; [done| |].
  - intros b _ _. destruct (getChild i b); [apply IH|]. intros [? ?]. split; [done|]. by eapply stored_mono.
  - intros b c sq hh _ _ Hc (nc & Hnc & Hh). destruct n; destruct Hc as (nc' & Hnc' & HPc & _);
      destruct (Hl c nc' Hnc' HPc) as [? _]; exists nc; (split; [congruence|done]).
Qed.

Lemma child_transfer P Q A w w' :
  db w ⊆ db w' →
  (∀ l nd, heap w !! l = Some nd → P l (getSeq nd) → heap w' !! l = Some nd ∧ Q l (getSeq nd)) →
  ∀ n (c : option loc) hh m, child_rep ty P A w n c hh m → child_rep ty Q A w' n c hh m.
Proof.
  intros Hd Hl n [c|] hh m; simpl; [by eapply rep_transfer|].
  intros [? ?]. split; [done|]. by eapply stored_mono.
Qed.

Lemma rep_seq P A w n l m : rep ty P A w n l m → ∃ nd, heap w !! l = Some nd ∧ P l (getSeq nd).
Proof. destruct n; intros (nd & ? & ? & _); eauto. Qed.

Lemma inner_ok_transfer P Q A w w' n i m :
  db w ⊆ db w' →
  (∀ l nd, heap w !! l = Some nd → P l (getSeq nd) → heap w' !! l = Some nd ∧ Q l (getSeq nd)) →
  inner_ok ty (child_rep ty P A w n) (link_at w) n i m →
  inner_ok ty (child_rep ty Q A w' n) (link_at w') n i m.
Proof.
  intros Hd Hl Hi. eapply inner_ok_impl; [done| |].
  - intros b _ _. by eapply child_transfer.
  - intros b c sq hh _ _ (nc' & Hnc' & HPc)%rep_seq (nc & Hnc & Hh).
    destruct (Hl c nc' Hnc' HPc) as [? _]. exists nc. split; [congruence|done].
Qed.

Lemma inner_at_transfer P Q A w w' :
  db w ⊆ db w' →
  (∀ l nd, heap w !! l = Some nd → P l (getSeq nd) → heap w' !! l = Some nd ∧ Q l (getSeq nd)) →
  ∀ n l m, inner_at ty P A w n l m → inner_at ty Q A w' n l m.
Proof.
  intros Hd Hl n l m (i & Hnd & HP & Hi). exists i. destruct (Hl l _ Hnd HP) as [? ?].
  split; [done|]. split; [done|]. by eapply inner_ok_transfer.
Qed.

Lemma rep_mono P Q A w n l m :
  (∀ l s, P l s → Q l s) → rep ty P A w n l m → rep ty Q A w n l m.
Proof. intros HPQ. apply rep_transfer; [done|]. auto. Qed.

Lemma child_mono P Q A w n (c : option loc) hh m :
  (∀ l s, P l s → Q l s) → child_rep ty P A w n c hh m → child_rep ty Q A w n c hh m.
Proof. intros HPQ. apply child_transfer; [done|]. auto. Qed.

(** Writing at a location the tree does not have. *)
Definition put w x (nd : SHAMapAbstractNode) : world := set_heap w (<[x := nd]> (heap w)).

Definition misses P w x : Prop := ∀ nd, heap w !! x = Some nd → ¬ P x (getSeq nd).

Lemma misses_keep P w x nd' l nd :
  misses P w x → heap w !! l = Some nd → P l (getSeq nd) →
  heap (put w x nd') !! l = Some nd ∧ P l (getSeq nd).
Proof.
  intros Hx Hl HP. split; [|done]. simpl. rewrite lookup_insert_ne; [done|].
  intros <-. by apply (Hx nd).
Qed.

Lemma rep_put P A w x nd n l m :
  misses P w x → rep ty P A w n l m → rep ty P A (put w x nd) n l m.
Proof. intros Hx. apply rep_transfer; [done|]. intros. by apply misses_keep. Qed.

Lemma child_put P A w x nd n (c : option loc) hh m :
  misses P w x → child_rep ty P A w n c hh m → child_rep ty P A (put w x nd) n c hh m.
Proof. intros Hx. apply child_transfer; [done|]. intros. by apply misses_keep. Qed.

Lemma inner_at_put P A w x nd n l m :
  misses P w x → inner_at ty P A w n l m → inner_at ty P A (put w x nd) n l m.
Proof. intros Hx. apply inner_at_transfer; [done|]. intros. by apply misses_keep. Qed.

Lemma misses_fresh P w x : heap w !! x = None → misses P w x.
Proof. intros E nd. congruence. Qed.

(** ** A node stands for one set of items *)

Lemma inner_ok_inj (ch1 ch2 : option loc → Z → content → Prop) h1 h2 n1 n2 i m1 m2 :
  inner_ok ty ch1 h1 n1 i m1 → inner_ok ty ch2 h2 n2 i m2 →
  (n1 < 64)%nat → (n2 < 64)%nat → good (63 - n1) m1 → good (63 - n2) m2 →
  (∀ b mb1 mb2, good (64 - n1) mb1 → good (64 - n2) mb2 →
     ch1 (getChild i b) (getChildHash i b) mb1 → ch2 (getChild i b) (getChildHash i b) mb2 →
     mb1 = mb2 ∧ ((2 ≤ size mb1)%nat → n1 = n2)) →
  m1 = m2 ∧ ((2 ≤ size m1)%nat → n1 = n2).
Proof.
  intros [_ Hb1 _] [_ Hb2 _] Hn1 Hn2 Hg1 Hg2 Hch.
  assert (∀ b, (b < 16)%nat → sub (63 - n1) b m1 = sub (63 - n2) b m2 ∧
    ((2 ≤ size (sub (63 - n1) b m1))%nat → n1 = n2)) as Hsub.
  { intros b Hb. destruct (Hb1 b Hb) as [E1 _ S1], (Hb2 b Hb) as [E2 _ S2].
    assert (sub (63 - n1) b m1 = ∅ ↔ sub (63 - n2) b m2 = ∅) as Hiff.
    { rewrite <- (bool_decide_eq_true (sub (63 - n1) b m1 = ∅)).
      rewrite <- (bool_decide_eq_true (sub (63 - n2) b m2 = ∅)). by rewrite <- E1, <- E2. }
    destruct (decide (sub (63 - n1) b m1 = ∅)) as [He|He].
    - rewrite He. split; [symmetry; by apply Hiff|]. rewrite map_size_empty. lia.
    - apply (Hch b); [| |by apply S1|apply S2; tauto].
      + replace (64 - n1)%nat with (S (63 - n1)) by lia. apply good_sub; [lia|done].
      + replace (64 - n2)%nat with (S (63 - n2)) by lia. apply good_sub; [lia|done]. }
  assert (m1 = m2) as <-.
  { apply map_eq. intros k. apply option_eq. intros x. split; intros Hx.
    - assert (sub (63 - n1) (nib (63 - n1) k) m1 !! k = Some x) as Hs by (by apply lookup_sub).
      rewrite (proj1 (Hsub _ (nib_lt _ _))) in Hs. by apply lookup_sub in Hs as [? _].
    - assert (sub (63 - n2) (nib (63 - n2) k) m2 !! k = Some x) as Hs by (by apply lookup_sub).
      rewrite <- (proj1 (Hsub _ (nib_lt _ _))) in Hs. by apply lookup_sub in Hs as [? _]. }
  split; [done|]. intros (k & k' & Hne & Hk & Hk')%two_items.
  assert (∀ x, is_Some (m1 !! x) → nib (63 - n2) x = nib (63 - n1) x) as Hnib.
  { intros x Hx. pose proof (elem_sub (63 - n1) m1 x Hx) as [y Hy].
    rewrite (proj1 (Hsub _ (nib_lt _ _))) in Hy. by apply lookup_sub in Hy as [_ ?]. }
  destruct (decide (nib (63 - n1) k = nib (63 - n1) k')) as [Heq|Hdiff].
  - apply (Hsub (nib (63 - n1) k) (nib_lt _ _)). apply two_items. exists k, k'.
    split; [done|]. split; [by apply elem_sub|]. rewrite Heq. by apply elem_sub.
  - destruct (Nat.lt_trichotomy n1 n2) as [Hlt|[|Hlt]]; [exfalso|done|exfalso].
    + apply Hdiff. rewrite <- !Hnib by done. apply (nib_down _ (63 - n1)); [lia|]. by apply Hg1.
    + apply Hdiff. apply (nib_down _ (63 - n2)); [lia|]. by apply Hg2.
Qed.

Lemma singleton_not_two (k : Z) (x : SHAMapItem) : ¬ (2 ≤ size ({[k := x]} : content))%nat.
Proof. rewrite map_size_singleton. lia. Qed.

Lemma stored_inj d n n' hh m m' :
  stored ty d n hh m → stored ty d n' hh m' → (n ≤ 64)%nat → (n' ≤ 64)%nat →
  good (64 - n) m → good (64 - n') m' → m = m' ∧ ((2 ≤ size m)%nat → n = n').
Proof.
  revert n' hh m m'. induction n as [|n IH]; intros n' hh m m' (_ & data & nd & Hd & Hmk & Hr)
    H' Hn Hn' Hg Hg'; destruct n' as [|n']; destruct H' as (_ & data' & nd' & Hd' & Hmk' & Hr');
    assert (data' = data) as -> by congruence; assert (nd' = nd) as -> by congruence;
    destruct nd as [i|t]; try done;
    try (destruct Hr as [_ ->], Hr' as [_ ->]; split; [done|]; by intros []%singleton_not_two).
  destruct Hr as [Hs Hi], Hr' as [Hs' Hi'].
  destruct (inner_ok_inj _ _ _ _ n n' i m m' Hi Hi') as [-> Heq]; try done; try lia; [|auto with lia].
  intros b mb1 mb2 Hg1 Hg2 [_ H1] [_ H2]. destruct (IH n' _ _ _ H1 H2) as [-> Hq]; [lia..|done|done|].
  split; [done|]. done.
Qed.

Lemma rep_inj P Q A B w n n' l m m' :
  rep ty P A w n l m → rep ty Q B w n' l m' → (n ≤ 64)%nat → (n' ≤ 64)%nat →
  good (64 - n) m → good (64 - n') m' → m = m' ∧ ((2 ≤ size m)%nat → n = n').
Proof.
  revert n' l m m'. induction n as [|n IH]; intros n' l m m' (nd & Hl & _ & Hr) H' Hn Hn' Hg Hg';
    destruct n' as [|n']; destruct H' as (nd' & Hl' & _ & Hr');
    assert (nd' = nd) as -> by congruence; destruct nd as [i|t]; try done;
    try (destruct Hr as (_ & -> & _), Hr' as (_ & -> & _); split; [done|]; by intros []%singleton_not_two).
  destruct Hr as [Hs Hi], Hr' as [Hs' Hi'].
  destruct (inner_ok_inj _ _ _ _ n n' i m m' Hi Hi') as [-> Heq]; try done; try lia; [|auto with lia].
  intros b mb1 mb2 Hg1 Hg2. destruct (getChild i b) as [c|].
  - intros H1 H2. destruct (IH n' _ _ _ H1 H2) as [-> Hq]; [lia..|done|done|]. done.
  - intros [_ H1] [_ H2]. destruct (stored_inj _ n n' _ _ _ H1 H2) as [-> Hq]; [lia..|done|done|]. done.
Qed.

(** ** Nodes elsewhere in the map

    A node that is not below one with [n] digits to go and contents [m]: it has
    more digits to go, or other items. *)
Definition elsewhere w x (n : nat) m : Prop :=
  (∃ Q B nx mx, inner_at ty Q B w nx x mx ∧ (nx < 64)%nat ∧ good (63 - nx) mx ∧
     ((n ≤ nx)%nat ∨ m ##ₘ mx)) ∨
  (∃ Q mx, leaf_at ty Q w x mx ∧ m ##ₘ mx).

Lemma disjoint_self m : m ##ₘ m → m = ∅.
Proof.
  intros Hd. apply map_empty. intros k. destruct (m !! k) as [x|] eqn:E; [|done].
  rewrite map_disjoint_spec in Hd. exfalso. by eapply Hd.
Qed.

Lemma disjoint_weaken_sub d b m m' : m ##ₘ m' → sub d b m ##ₘ m'.
Proof. intros Hd. eapply map_disjoint_weaken_l; [done|apply sub_subseteq]. Qed.

Lemma elsewhere_ne P A w x n l m :
  elsewhere w x n m → rep ty P A w n l m → (n ≤ 64)%nat → good (64 - n) m → l ≠ x.
Proof.
  intros Hx Hr Hn Hg <-. pose proof (rep_nonempty ty _ _ _ _ _ _ Hr) as Hne.
  apply rep_unfold in Hr as [(t & Hl & _ & _ & Hm & _)|(n' & -> & Hs & i & Hl & _ & Hi)];
    destruct Hx as [(Q & B & nx & mx & (i' & Hl' & _ & Hi') & Hnx & Hgx & Hd)|(Q & mx & (t' & Hl' & _ & _ & Hm' & _) & Hd)];
    try congruence.
  - assert (mx = m) as -> by congruence. by apply disjoint_self in Hd.
  - assert (i' = i) as -> by congruence.
    destruct (inner_ok_inj _ _ _ _ n' nx i m mx Hi Hi') as [-> Heq]; try done; try lia.
    + intros b mb1 mb2 Hg1 Hg2. destruct (getChild i b) as [c|]; simpl.
      * intros H1 H2. by eapply rep_inj in H2; [|exact H1|lia..|done|done].
      * intros [_ H1] [_ H2]. by eapply stored_inj in H2; [|exact H1|lia..|done|done].
    + destruct Hd as [Hle|Hd%disjoint_self]; [|done]. specialize (Heq Hs). lia.
Qed.

Lemma elsewhere_sub w x n m d b : elsewhere w x (S n) m → elsewhere w x n (sub d b m).
Proof.
  intros [(Q & B & nx & mx & ? & ? & ? & Hd)|(Q & mx & ? & Hd)].
  - left. exists Q, B, nx, mx. do 3 (split; [done|]).
    destruct Hd as [?|?]; [left; lia|right; by apply disjoint_weaken_sub].
  - right. exists Q, mx. split; [done|]. by apply disjoint_weaken_sub.
Qed.

Lemma rep_avoid P (E : loc → Prop) A w n l m :
  rep ty P A w n l m → (∀ x, E x → elsewhere w x n m) → (n ≤ 64)%nat → good (64 - n) m →
  rep ty (λ l s, P l s ∧ ¬ E l) A w n l m.
Proof.
  revert l m. induction n as [|n IH]; intros l m Hr HE Hn Hg;
    assert (¬ E l) as Hne by (intros HEl; by apply (elsewhere_ne _ _ _ l _ _ _ (HE l HEl) Hr Hn Hg));
    destruct Hr as (nd & Hl & HP & Hr); exists nd; (split; [done|]); (split; [done|]);
    destruct nd as [i|t]; try done.
  destruct Hr as [Hs Hi]. split; [done|]. eapply inner_ok_impl; [done| |done].
  intros b _ _. destruct (getChild i b) as [c|]; [|done].
  intros Hc. apply IH; [done|intros x Hx; by apply elsewhere_sub, HE|lia|].
  replace (64 - n)%nat with (S (63 - n)) by lia. apply good_sub; [lia|].
  by replace (63 - n)%nat with (64 - S n)%nat by lia.
Qed.

End facts.

End RepFacts.
