(* ===== verification/SHAMapGrow.v ===== *)
(** * Descending in a SHAMap

    A child that is not in memory is fetched from the cache or from the node
    store and linked.  That changes no tree: [grows] relates the worlds before
    and after. *)

From S2P Require Import Prelude Serializer StateMonad SHAMapNode SHAMap SHAMapRep SHAMapRepFacts.
Import Node SM Rep RepFacts.
Open Scope prog_scope.

Module Grow.

(** ** Links *)

Lemma getChild_share i b c : (b < length (mChildren i))%nat → getChild (shareChild i b c) b = Some c.
Proof. intros Hb. unfold getChild. simpl. by rewrite list_lookup_insert_eq. Qed.

Lemma getChild_share_ne i b b' c : b ≠ b' → getChild (shareChild i b c) b' = getChild i b'.
Proof. intros Hb. unfold getChild. simpl. by rewrite list_lookup_insert_ne. Qed.

Lemma full_inner_seq s q : i_seq (full_inner s q) = q.
Proof.
  unfold full_inner. change q with (i_seq (new_inner q)) at 2. generalize (new_inner q).
  induction (List.seq 0 16) as [|b bs IH]; intros i; [done|]. cbn [foldl]. by rewrite IH.
Qed.

(** The same node, with more of its children linked. *)
Definition node_le (nd nd' : SHAMapAbstractNode) : Prop :=
  match nd, nd' with
  | Leaf t, Leaf t' => t = t'
  | Inner i, Inner i' =>
      i_hash i = i_hash i' ∧ i_seq i = i_seq i' ∧ mHashes i = mHashes i' ∧
      mIsBranch i = mIsBranch i' ∧ length (mChildren i) = length (mChildren i') ∧
      ∀ b c, getChild i b = Some c → getChild i' b = Some c
  | _, _ => False
  end.

Lemma node_le_refl nd : node_le nd nd.
Proof. destruct nd; simpl; auto 10. Qed.

Lemma node_le_trans n1 n2 n3 : node_le n1 n2 → node_le n2 n3 → node_le n1 n3.
Proof.
  destruct n1, n2, n3; simpl; try done; [|congruence].
  intros (? & ? & ? & ? & ? & Hc1) (? & ? & ? & ? & ? & Hc2).
  do 5 (split; [congruence|]). auto.
Qed.

Section grow.
Context `{Digest} (ty : TNType).
Implicit Types (m : content) (l c p : loc) (i : SHAMapInnerNode) (w : world) (s : SHAMap).
Implicit Types (P Q : loc → Z → Prop).

(** Nodes that are shared. *)
Definition zero : loc → Z → Prop := λ _ sq, sq = 0.

Lemma finish_inner_ok hh i :
  getSeq (finish_inner hh true i) = i_seq i ∧ getNodeHash (finish_inner hh true i) = hh.
Proof. done. Qed.

Lemma make_prefix_ok data sq hh nd :
  make data sq snfPREFIX hh true = Ok (Some nd) → getSeq nd = sq ∧ getNodeHash nd = hh.
Proof.
  unfold make, make_prefix. destruct (_ <? 4)%nat; [done|].
  destruct (_ =? transactionID); [by intros [= <-]|].
  destruct (_ =? leafNode).
  { destruct (tagged _ _) as [[u ?]|]; cbn [rbind]; [|done]. destruct (u =? 0); [done|]. by intros [= <-]. }
  destruct (_ =? innerNode).
  { destruct (negb _); [done|]. intros Hm. assert (nd = finish_inner hh true (full_inner (drop 4 data) sq)) as ->
      by congruence. rewrite <- (full_inner_seq (drop 4 data) sq) at 2. apply finish_inner_ok. }
  destruct (_ =? txNode); [|done].
  destruct (tagged _ _) as [[u ?]|]; cbn [rbind]; [|done]. by intros [= <-].
Qed.

(** What the store has becomes a tree when its top node is put in memory. *)
Lemma stored_put w n hh m l data nd :
  stored ty (db w) n hh m → heap w !! l = None →
  db w !! hh = Some data → make data 0 snfPREFIX hh true = Ok (Some nd) →
  rep ty zero true (put w l nd) n l m.
Proof.
  intros Hs Hl Hd Hm. destruct (make_prefix_ok _ _ _ _ Hm) as [Hseq Hh].
  destruct n as [|n]; destruct Hs as (He & data' & nd' & Hd' & Hm' & Hnd);
    assert (data' = data) as -> by congruence; assert (nd' = nd) as -> by congruence;
    exists nd; (split; [apply lookup_insert_eq|]); (split; [done|]); destruct nd as [i|t]; try done;
    try (destruct Hnd as [? ->]; rewrite tree_hash_singleton in He; simpl in Hh; split_and!; [done|done|congruence]).
  destruct Hnd as [Hs Hi]. split; [done|]. eapply inner_ok_impl; [done| |].
  - intros b _ _ [-> ?]. done.
  - intros b c sq hh' _ _ [? _]. done.
Qed.

(** A shared tree has its hash. *)
Lemma rep_zero_link A w n l m sq : rep ty zero A w n l m → link_at w sq l (tree_hash ty n m).
Proof.
  intros [(t & Hl & Hz & _ & -> & Hh)|(n' & -> & Hs & i & Hl & Hz & [_ _ Hh])]%rep_unfold.
  - exists (Leaf t). by rewrite tree_hash_singleton.
  - exists (Inner i). split; [done|]. rewrite tree_hash_inner by done. split; [|done].
    destruct Hh as [[_ Hn]|[Hh _]]; [by destruct Hn|done].
Qed.

(** ** Linking a child *)

Section hook.
Context w p i b c (Hp : heap w !! p = Some (Inner i)) (Hb : getChild i b = None).
Context (Hnb : isEmptyBranch i b = false).
Context (Hc : ∀ n m, stored ty (db w) n (getChildHash i b) m → rep ty zero true w n c m).
Let w' := put w p (Inner (shareChild i b c)).

Lemma hook_node l nd : heap w !! l = Some nd → ∃ nd', heap w' !! l = Some nd' ∧ node_le nd nd'.
Proof using All.
  intros Hl. simpl. destruct (decide (p = l)) as [<-|Hne].
  - rewrite lookup_insert_eq. eexists; split; [done|]. assert (nd = Inner i) as -> by congruence.
    simpl. rewrite length_insert. do 5 (split; [done|]). intros b' c' Hg.
    rewrite getChild_share_ne; [done|]. intros ->. congruence.
  - rewrite lookup_insert_ne by done. exists nd. split; [done|apply node_le_refl].
Qed.

Lemma hook_link sq l hh : link_at w sq l hh → link_at w' sq l hh.
Proof using All.
  intros (nd & Hl & <- & Hz). destruct (hook_node _ _ Hl) as (nd' & ? & Hle). exists nd'. split; [done|].
  destruct nd, nd'; simpl in *; try done; [|by subst]. destruct Hle as (-> & <- & _). done.
Qed.

Lemma hook_branch n Q A l j j' b' mb :
  (∀ Q A l m, (∀ l, Q l 0) → rep ty Q A w n l m → rep ty Q A w' n l m) →
  (∀ l, Q l 0) → heap w !! l = Some (Inner j) → heap w' !! l = Some (Inner j') →
  shape_ok j → (b' < 16)%nat →
  branch_ok (child_rep ty Q A w n) j b' mb → branch_ok (child_rep ty Q A w' n) j' b' mb.
Proof using All.
  intros IH HQ Hl Hl' Hsh Hb' [E1 E2 E3].
  assert (mb ≠ ∅ → child_rep ty Q A w' n (getChild j b') (getChildHash j b') mb) as E3'.
  { intros Hmb. specialize (E3 Hmb). destruct (getChild j b') as [c'|]; [by apply IH|done]. }
  simpl in Hl'. destruct (decide (p = l)) as [<-|Hne].
  2:{ rewrite lookup_insert_ne in Hl' by done. assert (j' = j) as -> by congruence. done. }
  rewrite lookup_insert_eq in Hl'. assert (j = i) as -> by congruence. injection Hl' as <-.
  destruct (decide (b = b')) as [<-|Hbb]; [|split; [done| |]; rewrite getChild_share_ne by done; done].
  assert (mb ≠ ∅) as Hmb.
  { intros He. rewrite bool_decide_eq_true_2 in E1 by done. congruence. }
  split; [done|done|]. intros _. rewrite getChild_share by (rewrite (so_children _ Hsh); lia). simpl.
  specialize (E3 Hmb). rewrite Hb in E3. destruct E3 as [-> Hst].
  apply (rep_mono _ zero); [by intros ? ? ->|]. apply IH; [done|]. by apply Hc.
Qed.

Lemma hook_inner n :
  (∀ Q A l m, (∀ l, Q l 0) → rep ty Q A w n l m → rep ty Q A w' n l m) →
  ∀ Q A l m, (∀ l, Q l 0) → inner_at ty Q A w n l m → inner_at ty Q A w' n l m.
Proof using All.
  intros IH Q A l m HQ (j & Hl & HQl & Hj).
  destruct (hook_node _ _ Hl) as ([j'|] & Hl' & Hle); [|done].
  exists j'. split; [done|]. destruct Hle as (Hh & Hsq & Hhs & Hbr & Hlen & _). split; [by rewrite <- Hsq|].
  destruct Hj as [Hsh Hbs Hhash]. split.
  - destruct Hsh. split; congruence.
  - intros b' Hlt. eapply hook_branch; [done|done|exact Hl|done|done|done|by apply Hbs].
  - unfold hash_ok. rewrite <- Hh, <- Hsq. unfold getChildHash. rewrite <- Hhs.
    destruct Hhash as [|[Hd Hall]]; [by left|right]. split; [done|]. intros b' Hlt.
    destruct (Hall b' Hlt) as [Hh' Hcl]. split; [done|]. intros c' Hg. apply hook_link.
    simpl in Hl'. destruct (decide (p = l)) as [<-|Hne].
    2:{ rewrite lookup_insert_ne in Hl' by done. apply Hcl. congruence. }
    rewrite lookup_insert_eq in Hl'. assert (j = i) as -> by congruence. injection Hl' as <-.
    destruct (decide (b = b')) as [<-|Hbb]; [|rewrite getChild_share_ne in Hg by done; by apply Hcl].
    rewrite getChild_share in Hg by (rewrite (so_children _ Hsh); lia). injection Hg as <-.
    destruct (Hbs b Hlt) as [E1 _ E3]. assert (sub (63 - n) b m ≠ ∅) as Hmb.
    { intros He. rewrite bool_decide_eq_true_2 in E1 by done. congruence. }
    specialize (E3 Hmb). rewrite Hb in E3. destruct E3 as [_ Hst].
    pose proof (rep_zero_link _ _ _ _ _ (i_seq i) (Hc _ _ Hst)) as Hhc.
    unfold branch_hash in Hh'. rewrite decide_False in Hh' by done. unfold getChildHash in Hh'. by rewrite Hh'.
Qed.

Lemma hook_rep n Q A l m : (∀ l, Q l 0) → rep ty Q A w n l m → rep ty Q A w' n l m.
Proof using All.
  revert Q A l m. induction n as [|n IH]; intros Q A l m HQ Hr; apply rep_unfold;
    apply rep_unfold in Hr as [(t & Hl & Ht)|(n' & Hn & Hs & Hi)]; try lia.
  1,2: left; exists t; simpl; rewrite lookup_insert_ne by congruence; done.
  right. exists n. injection Hn as <-. split; [done|]. split; [done|]. by apply hook_inner.
Qed.
End hook.

(** ** Shared nodes

    A shared node is in the store under its hash. *)

(** A node without its links. *)
Definition unlinked (nd : SHAMapAbstractNode) : SHAMapAbstractNode :=
  match nd with
  | Inner i => Inner (mkInner (i_hash i) (i_seq i) (mHashes i) (replicate 16 None) (mIsBranch i) 0)
  | Leaf t => Leaf t
  end.

Definition recorded w (nd : SHAMapAbstractNode) : Prop :=
  ∃ data, db w !! getNodeHash nd = Some data ∧
    make data 0 snfPREFIX (getNodeHash nd) true = Ok (Some (unlinked nd)).

(** A shared node with a given hash. *)
Definition shared_at w l (hh : Z) : Prop :=
  ∃ nd, heap w !! l = Some nd ∧ getSeq nd = 0 ∧ getNodeHash nd = hh.

Definition links_ok w (nd : SHAMapAbstractNode) : Prop :=
  match nd with
  | Inner i => length (mChildren i) = 16%nat ∧
      ∀ b c, getChild i b = Some c → isEmptyBranch i b = false ∧ shared_at w c (getChildHash i b)
  | Leaf _ => True
  end.

(** What is asked of a node in memory when it is shared: it is in the store, and
    the nodes it is linked to are shared and have the hashes it has for them. *)
Definition admissible w (nd : SHAMapAbstractNode) : Prop := getSeq nd = 0 → recorded w nd ∧ links_ok w nd.

Lemma own_admissible w nd q : getSeq nd = q → q ≠ 0 → admissible w nd.
Proof. intros E Hq Hz. congruence. Qed.

Lemma set_hashes_unlinked (f : nat → Z) (l : list nat) i :
  mChildren i = replicate 16 None → mFullBelowGen i = 0 →
  mChildren (foldl (λ ret b, set_hash ret b (f b)) i l) = replicate 16 None ∧
  mFullBelowGen (foldl (λ ret b, set_hash ret b (f b)) i l) = 0.
Proof. revert i. induction l as [|b l IH]; intros i Hc Hg; cbn [foldl]; [done|]. by apply IH. Qed.

Lemma full_inner_unlinked (s : list Z) q :
  mChildren (full_inner s q) = replicate 16 None ∧ mFullBelowGen (full_inner s q) = 0.
Proof. apply (set_hashes_unlinked (λ b, get256 s (b * 32)) (seq 0 16) (new_inner q)); reflexivity. Qed.

Lemma make_unlinked data hh nd :
  make data 0 snfPREFIX hh true = Ok (Some nd) → unlinked nd = nd.
Proof.
  cbn [make]. unfold make_prefix. destruct (length data <? 4)%nat; [done|].
  destruct (_ =? transactionID); [by intros [= <-]|].
  destruct (_ =? leafNode).
  { destruct (tagged _ _) as [[u d]|]; [|done]. cbn [rbind]. destruct (u =? 0); [done|]. by intros [= <-]. }
  destruct (_ =? innerNode).
  { destruct (negb _); [done|]. intros E. injection E as <-. generalize (full_inner_unlinked (drop 4 data) 0).
    generalize (full_inner (drop 4 data) 0). intros i [Ec Eg]. unfold finish_inner. by rewrite Ec, Eg. }
  destruct (_ =? txNode); [|done]. destruct (tagged _ _) as [[u d]|]; [|done]. by intros [= <-].
Qed.

Lemma make_admissible w data hh nd :
  db w !! hh = Some data → make data 0 snfPREFIX hh true = Ok (Some nd) → admissible w nd.
Proof.
  intros Hd Hm _. destruct (make_prefix_ok _ _ _ _ Hm) as [_ Hh]. pose proof (make_unlinked _ _ _ Hm) as Hu. split.
  - exists data. rewrite Hh. split; [done|]. by rewrite Hu.
  - rewrite <- Hu. destruct nd as [i|t]; [|done]. split; [done|]. intros b c. unfold getChild. cbn [unlinked mChildren].
    intros Hc. destruct (replicate 16 None !! b) as [x|] eqn:E; [|done].
    apply lookup_replicate in E as [-> _]. done.
Qed.

(** ** Worlds that differ in links

    The cache has shared nodes under their hashes. *)
Record cache_ok w : Prop := {
  co_node hh l : treecache w !! hh = Some l → shared_at w l hh;
  co_shared l nd : heap w !! l = Some nd → admissible w nd
}.

(** An inner node that is shared, with links to shared nodes. *)
Lemma shared_inner_ok w n i m :
  i_seq i = 0 → links_ok w (Inner i) →
  (∀ c hh mb, shared_at w c hh → stored ty (db w) n hh mb → rep ty zero true w n c mb) →
  inner_ok ty (λ (c : option loc) hh mb, c = None ∧ stored ty (db w) n hh mb) (λ _ _ _, False) n
    (mkInner (i_hash i) (i_seq i) (mHashes i) (replicate 16 None) (mIsBranch i) 0) m →
  inner_ok ty (child_rep ty zero true w n) (link_at w) n i m.
Proof.
  intros Hz [Hlen Hlk] IH [[Sh Sc Sb] Hbs Hhash]. simpl in Sh, Sb.
  destruct Hhash as [[_ ?]|[Hdig Hhs]]; [done|]. split; [done| |].
  - intros b Hb. destruct (Hbs b Hb) as [E1 E2 E3]. split; [done| |].
    + intros Hm0. split; [|by apply E2]. destruct (getChild i b) as [c|] eqn:Hc; [|done].
      destruct (Hlk b c Hc) as [Hne _]. rewrite bool_decide_eq_true_2 in E1 by done.
      change (isEmptyBranch i b = true) in E1. congruence.
    + intros Hm0. destruct (E3 Hm0) as [_ Hst]. destruct (getChild i b) as [c|] eqn:Hc; [|done].
      apply (IH c (getChildHash i b)); [by apply Hlk|done].
  - right. split; [done|]. intros b Hb. split; [by apply Hhs|]. intros c Hc.
    destruct (Hlk b c Hc) as [_ (nd & ? & ? & ?)]. by exists nd.
Qed.

(** A shared node stands for what the store has under its hash. *)
Lemma shared_rep w n l hh m : cache_ok w → shared_at w l hh → stored ty (db w) n hh m → rep ty zero true w n l m.
Proof.
  intros [_ Hsh]. revert l hh m. induction n as [|n IH]; intros l hh m (nd & Hl & Hz & Hh) (He & data & nd' & Hd & Hm & Hnd);
    destruct (Hsh l nd Hl Hz) as [(data' & Hd' & Hm') Hlk]; rewrite Hh in Hd', Hm';
    assert (data' = data) as -> by congruence; assert (nd' = unlinked nd) as -> by congruence;
    exists nd; (split; [done|]); (split; [done|]); destruct nd as [i|t]; cbn [unlinked] in Hnd; try done.
  1,3: destruct Hnd as [? ->]; rewrite tree_hash_singleton in He; simpl in Hh; split_and!; [done|done|congruence].
  destruct Hnd as [Hs Hi]. split; [done|]. by apply shared_inner_ok.
Qed.

Lemma admissible_keep w w' nd :
  db w ⊆ db w' → (∀ l hh, shared_at w l hh → shared_at w' l hh) → admissible w nd → admissible w' nd.
Proof.
  intros Hd Hs Ha Hz. destruct (Ha Hz) as [(data & ? & ?) Hlk]. split.
  - exists data. split; [by eapply lookup_weaken|done].
  - destruct nd as [i|t]; [|done]. destruct Hlk as [? Hlk]. split; [done|]. intros b c Hc.
    destruct (Hlk b c Hc). auto.
Qed.

Record grows w w' : Prop := {
  gr_db : db w' = db w;
  gr_rep Q A n l m : (∀ l, Q l 0) → rep ty Q A w n l m → rep ty Q A w' n l m;
  gr_inner Q A n l m : (∀ l, Q l 0) → inner_at ty Q A w n l m → inner_at ty Q A w' n l m;
  gr_cache : cache_ok w → cache_ok w';
  gr_node l nd : heap w !! l = Some nd → ∃ nd', heap w' !! l = Some nd' ∧ node_le nd nd';
  gr_branch Q A n l i i' b mb :
    (∀ l, Q l 0) → heap w !! l = Some (Inner i) → heap w' !! l = Some (Inner i') →
    shape_ok i → (b < 16)%nat →
    branch_ok (child_rep ty Q A w n) i b mb → branch_ok (child_rep ty Q A w' n) i' b mb
}.

Lemma shape_ok_le i i' : node_le (Inner i) (Inner i') → shape_ok i → shape_ok i'.
Proof. intros (_ & _ & Hh & Hb & Hl & _) []. split; congruence. Qed.

Lemma grows_refl w : grows w w.
Proof.
  split; try done; [intros l nd Hl; exists nd; split; [done|apply node_le_refl]|].
  intros Q A n l i i' b mb _ Hl Hl'. assert (i' = i) as -> by congruence. done.
Qed.

Lemma grows_trans w1 w2 w3 : grows w1 w2 → grows w2 w3 → grows w1 w3.
Proof.
  intros [D1 R1 I1 C1 N1 B1] [D2 R2 I2 C2 N2 B2]. split; [congruence|auto|auto|auto| |].
  - intros l nd Hl. destruct (N1 _ _ Hl) as (nd' & Hl' & Hle). destruct (N2 _ _ Hl') as (nd'' & ? & ?).
    exists nd''. split; [done|]. by eapply node_le_trans.
  - intros Q A n l i i' b mb HQ Hl Hl' Hsh Hb Hbr. destruct (N1 _ _ Hl) as ([i1|] & Hl1 & Hle); [|done].
    apply (B2 Q A n l i1 i'); [done|done|done|by eapply shape_ok_le|done|]. by apply (B1 Q A n l i i1).
Qed.

Lemma zero_0 l : zero l 0.
Proof. done. Qed.

Lemma grows_fresh w l nd : heap w !! l = None → admissible w nd → grows w (put w l nd).
Proof.
  intros Hl Had. split; [done| | | | |].
  - intros Q A n l' m _. apply rep_put. by apply misses_fresh.
  - intros Q A n l' m _. apply inner_at_put. by apply misses_fresh.
  - intros [C2 C3]. assert (∀ l' hh, shared_at w l' hh → shared_at (put w l nd) l' hh) as Hsh.
    { intros l' hh (nd' & ? & ?). exists nd'. simpl. by rewrite lookup_insert_ne by congruence. }
    split; [intros hh l' Hl'; by apply Hsh, C2|].
    intros l' nd' Hl'. apply (admissible_keep w); [done|exact Hsh|].
    simpl in Hl'. apply lookup_insert_Some in Hl' as [[<- <-]|[_ Hl']]; [done|by apply (C3 l')].
  - intros l' nd' Hl'. exists nd'. split; [|apply node_le_refl]. simpl.
    rewrite lookup_insert_ne; [done|congruence].
  - intros Q A n l' i i' b mb _ Hi Hi' _ _ [E1 E2 E3]. assert (l ≠ l') by congruence.
    simpl in Hi'. rewrite lookup_insert_ne in Hi' by done.
    assert (i' = i) as -> by congruence. split; [done|done|]. intros Hmb.
    apply child_put; [by apply misses_fresh|auto].
Qed.

(** The cache does not matter to the trees. *)
Lemma grows_cache w hh l :
  shared_at w l hh → grows w (set_cache w (<[hh := l]> (treecache w))).
Proof.
  intros Hnd. assert (∀ P A n l' m, rep ty P A w n l' m →
    rep ty P A (set_cache w (<[hh := l]> (treecache w))) n l' m) as Hr.
  { intros P A. by apply rep_transfer. }
  split; [done|auto| | | |].
  - intros Q A n l' m _. by apply inner_at_transfer.
  - intros [C2 C3]. split; [|done]. intros hh' l' Hl'. cbn [set_cache treecache] in Hl'.
    apply lookup_insert_Some in Hl' as [[<- <-]|[_ Hl']]; [done|by apply C2].
  - intros l' nd Hl'. exists nd. split; [done|apply node_le_refl].
  - intros Q A n l' i i' b mb _ Hi Hi' _ _ [E1 E2 E3]. cbn [set_cache heap] in Hi'.
    assert (i' = i) as -> by congruence.
    split; [done|done|]. intros Hmb. specialize (E3 Hmb). destruct (getChild i b); [by apply Hr|done].
Qed.

Lemma grows_hook w p i b c :
  heap w !! p = Some (Inner i) → getChild i b = None → isEmptyBranch i b = false →
  (∀ n m, stored ty (db w) n (getChildHash i b) m → rep ty zero true w n c m) →
  shared_at w c (getChildHash i b) → grows w (put w p (Inner (shareChild i b c))).
Proof.
  intros Hp Hb Hne Hc Hsc. split; [done| | | | |].
  - intros. by apply hook_rep.
  - intros Q A n l m HQ Hi. apply hook_inner; [done..| |done|done]. intros. by apply hook_rep.
  - intros [C2 C3]. assert (∀ l hh, shared_at w l hh → shared_at (put w p (Inner (shareChild i b c))) l hh) as Hsh.
    { intros l hh (nd & Hnd & Hz & Hh).
      destruct (hook_link w p i b c Hp Hb Hne Hc 0 l hh) as (nd' & ? & ? & ?); [by exists nd|]. exists nd'. auto. }
    split; [intros hh l Hl; by apply Hsh, C2|].
    intros l nd Hl. apply (admissible_keep w); [done|exact Hsh|].
    simpl in Hl. apply lookup_insert_Some in Hl as [[<- <-]|[_ Hl]]; [|by apply (C3 l)].
    intros Hz. destruct (C3 p _ Hp Hz) as [Hrec [Hlen Hlk]]. split; [done|].
    split; [cbn [shareChild mChildren]; by rewrite length_insert|]. intros b' c' Hc'. 
    destruct (decide (b = b')) as [<-|Hbb]; [|rewrite getChild_share_ne in Hc' by done; by apply Hlk].
    split; [done|]. unfold getChild in Hc'. cbn [shareChild mChildren] in Hc'.
    destruct (decide (b < length (mChildren i))%nat) as [Hlt|Hge].
    + rewrite list_lookup_insert_eq in Hc' by done. simpl in Hc'. injection Hc' as <-. by apply Hsc.
    + rewrite list_insert_ge in Hc' by lia. unfold getChild in Hb. congruence.
  - intros. by apply hook_node.
  - intros Q A n l j j' b' mb HQ Hl Hl' Hsh Hb' Hbr.
    eapply hook_branch; [exact Hp|done..| |done|exact Hl|done|done|done|done]. intros. by apply hook_rep.
Qed.

(** ** Programs *)

Lemma wp_deref w s l nd (Q : _ → _ → Prop) :
  heap w !! l = Some nd → Q nd (w, s) → wp (deref l) (w, s) Q.
Proof. intros Hl HQ. apply wp_bind, wp_gets. simpl. by rewrite Hl. Qed.

Lemma wp_deref_inner w s l i (Q : _ → _ → Prop) :
  heap w !! l = Some (Inner i) → Q i (w, s) → wp (deref_inner l) (w, s) Q.
Proof. intros Hl HQ. apply wp_bind. by eapply wp_deref. Qed.

Lemma wp_alloc w s nd (Q : _ → _ → Prop) :
  (∀ l, heap w !! l = None → Q l (put w l nd, s)) → wp (alloc nd) (w, s) Q.
Proof.
  intros HQ. apply wp_bind, wp_gets, wp_bind, wp_modify, wp_ret. apply HQ.
  apply not_elem_of_dom, is_fresh.
Qed.

Lemma wp_on_inner w s l i f (Q : _ → _ → Prop) :
  heap w !! l = Some (Inner i) → Q () (put w l (Inner (f i)), s) → wp (on_inner l f) (w, s) Q.
Proof. intros Hl HQ. apply wp_bind. eapply wp_deref_inner; [done|]. by apply wp_modify. Qed.

Lemma fresh_lookup_put w l nd : heap (put w l nd) !! l = Some nd.
Proof. apply lookup_insert_eq. Qed.

(** The store has a node under the hash. *)
Definition readable w (hh : Z) : Prop :=
  ∃ data nd, db w !! hh = Some data ∧ make data 0 snfPREFIX hh true = Ok (Some nd).

Lemma stored_readable w n hh m : stored ty (db w) n hh m → readable w hh.
Proof. destruct n; intros (_ & data & nd & ? & ? & _); by exists data, nd. Qed.

Lemma wp_fetchNodeFromDB w s hh (Q : _ → _ → Prop) :
  readable w hh → cache_ok w → backed_ s = true → treecache w !! hh = None →
  (∀ l w', grows w w' → shared_at w' l hh → treecache w' !! hh = Some l → Q (Some l) (w', s)) →
  wp (fetchNodeFromDB hh) (w, s) Q.
Proof.
  intros (data & nd & Hd & Hm) Hc Hb Hl HQ. apply wp_bind, wp_gets. cbn [fst snd]. rewrite Hb.
  apply wp_bind, wp_gets. cbn [fst snd].
  rewrite Hd, Hm. apply wp_bind, wp_alloc. intros l Hf. apply wp_bind, wp_bind, wp_gets. cbn [fst snd].
  cbn [put set_heap treecache]. rewrite Hl. apply wp_bind, wp_modify, wp_ret, wp_ret.
  destruct (make_prefix_ok _ _ _ _ Hm) as [Hz Hhh].
  assert (shared_at (put w l nd) l hh) as Hnd by (exists nd; split; [apply fresh_lookup_put|done]).
  apply HQ; [|done|apply lookup_insert_eq].
  eapply grows_trans; [apply grows_fresh; [done|by eapply make_admissible]|by apply grows_cache].
Qed.

Lemma wp_fetchNodeNT w s n hh m (Q : _ → _ → Prop) :
  stored ty (db w) n hh m → cache_ok w → backed_ s = true →
  (∀ l w', grows w w' → shared_at w' l hh → Q (Some l) (w', s)) →
  wp (fetchNodeNT hh) (w, s) Q.
Proof.
  intros Hst%stored_readable Hc Hb HQ. apply wp_bind, wp_gets, wp_bind, wp_gets. cbn [fst snd].
  destruct (treecache w !! hh) as [l|] eqn:Hl.
  { apply wp_ret, HQ; [apply grows_refl|]. by apply (co_node _ Hc). }
  rewrite Hb. apply wp_fetchNodeFromDB; auto.
Qed.

Definition linked w p (b : nat) c : Prop := ∃ i, heap w !! p = Some (Inner i) ∧ getChild i b = Some c.

Lemma linked_grows w w' p b c : grows w w' → linked w p b c → linked w' p b c.
Proof.
  intros Hg (i & Hp & Hc). destruct (gr_node _ _ Hg _ _ Hp) as ([i'|] & Hp' & Hle); [|done].
  exists i'. split; [done|]. by apply Hle.
Qed.

Lemma wp_canonicalizeChild w s p i b c (Q : _ → _ → Prop) :
  heap w !! p = Some (Inner i) → isEmptyBranch i b = false → (b < length (mChildren i))%nat →
  cache_ok w → shared_at w c (getChildHash i b) →
  (∀ c' w', grows w w' → linked w' p b c' → Q c' (w', s)) →
  wp (canonicalizeChild p b c) (w, s) Q.
Proof.
  intros Hp Hne Hb Hcc Hc HQ. apply wp_bind. eapply wp_deref_inner; [done|].
  destruct (getChild i b) as [c'|] eqn:Hg.
  { apply wp_ret, HQ; [apply grows_refl|by exists i]. }
  apply wp_bind. eapply wp_on_inner; [done|]. apply wp_ret, HQ; [apply grows_hook; try done; intros n m; by apply shared_rep|].
  eexists. split; [apply fresh_lookup_put|]. by apply getChild_share.
Qed.

Lemma linked_rep P A w n p m b c :
  inner_at ty P A w n p m → linked w p b c → (b < 16)%nat → sub (63 - n) b m ≠ ∅ →
  rep ty P A w n c (sub (63 - n) b m).
Proof.
  intros (i & Hp & _ & [_ Hbs _]) (i' & Hp' & Hc) Hb Hne. assert (i' = i) as -> by congruence.
  destruct (Hbs b Hb) as [_ _ Hs]. specialize (Hs Hne). by rewrite Hc in Hs.
Qed.

(** The child on a branch that is not empty. *)
Definition descends (down : loc → nat → prog (option loc)) : Prop :=
  ∀ P w s n p m b (Q : option loc → world * SHAMap → Prop),
  (∀ l, P l 0) → cache_ok w → inner_at ty P (backed_ s) w n p m →
  (b < 16)%nat → sub (63 - n) b m ≠ ∅ →
  (∀ c w', grows w w' → linked w' p b c → rep ty P (backed_ s) w' n c (sub (63 - n) b m) → Q (Some c) (w', s)) →
  wp (down p b) (w, s) Q.

Lemma wp_throw_missing w s p b c (Q : _ → _ → Prop) :
  linked w p b c → Q (Some c) (w, s) → wp (throw_missing p b (Some c)) (w, s) Q.
Proof. intros (i & Hp & _) HQ. apply wp_bind. by eapply wp_deref_inner. Qed.

(** Both ways to descend fetch a child that is not linked, and link it. *)
Lemma wp_fetch_child w s n p i b m (Q : loc → world * SHAMap → Prop) :
  heap w !! p = Some (Inner i) → isEmptyBranch i b = false → shape_ok i → (b < 16)%nat →
  stored ty (db w) n (getChildHash i b) m → cache_ok w → backed_ s = true →
  (∀ c w', grows w w' → linked w' p b c → Q c (w', s)) →
  wp (fetchNodeNT (getChildHash i b)) (w, s)
    (λ r st, ∃ l, r = Some l ∧ wp (canonicalizeChild p b l) st Q).
Proof.
  intros Hp Hne Hsh Hb Hst Hc Hbk HQ. eapply wp_fetchNodeNT; [done..|]. intros l w1 Hg1 Hl.
  exists l. split; [done|]. destruct (gr_node _ _ Hg1 _ _ Hp) as ([i1|] & Hp1 & Hle); [|done].
  destruct Hle as (_ & _ & Hh & Hbr & Hlen & _).
  assert (getChildHash i1 b = getChildHash i b) as Ehh by (unfold getChildHash; by rewrite Hh).
  eapply wp_canonicalizeChild; [done| | |by apply (gr_cache _ _ Hg1)|by rewrite Ehh|].
  - unfold isEmptyBranch in *. by rewrite <- Hbr.
  - rewrite <- Hlen, (so_children _ Hsh). lia.
  - intros c w2 Hg2 Hlk. apply HQ; [by eapply grows_trans|done].
Qed.

Lemma descend_child P w s n p m b (Q : option loc → world * SHAMap → Prop) :
  (∀ l, P l 0) → cache_ok w → inner_at ty P (backed_ s) w n p m →
  (b < 16)%nat → sub (63 - n) b m ≠ ∅ →
  (∀ c w', grows w w' → linked w' p b c → rep ty P (backed_ s) w' n c (sub (63 - n) b m) → Q (Some c) (w', s)) →
  ∃ i, heap w !! p = Some (Inner i) ∧
    match getChild i b with
    | Some c => wp (throw_missing p b (Some c)) (w, s) Q
    | None =>
        backed_ s = true ∧
        wp (fetchNodeNT (getChildHash i b)) (w, s)
          (λ r st, ∃ l, r = Some l ∧
             wp (canonicalizeChild p b l) st (λ c st, wp (throw_missing p b (Some c)) st Q))
    end.
Proof.
  intros HP Hc Hi Hb Hne HQ. pose proof Hi as (i & Hp & HPp & [Hsh Hbs _]). exists i. split; [done|].
  destruct (Hbs b Hb) as [E1 _ E3]. rewrite bool_decide_eq_false_2 in E1 by done. specialize (E3 Hne).
  destruct (getChild i b) as [c|] eqn:Hg; simpl in E3.
  - assert (linked w p b c) by (by exists i). eapply wp_throw_missing; [done|].
    apply HQ; [apply grows_refl|done|done].
  - destruct E3 as [Hbk Hst]. split; [done|]. eapply wp_fetch_child; [done..|].
    intros c w' Hg' Hlk. eapply wp_throw_missing; [done|]. apply HQ; [done|done|].
    apply (linked_rep _ _ _ _ p); [by apply (gr_inner _ _ Hg')|done..].
Qed.

Lemma descendThrow_ptr_ok : descends descendThrow_ptr.
Proof.
  intros P w s n p m b Q HP Hc Hi Hb Hne HQ.
  destruct (descend_child P w s n p m b Q HP Hc Hi Hb Hne HQ) as (i & Hp & Hcase).
  apply wp_bind, wp_bind. eapply wp_deref_inner; [done|]. apply wp_bind, wp_gets. cbn [fst snd].
  destruct (getChild i b) as [c|]; [by apply wp_ret|]. destruct Hcase as [-> Hf]. simpl.
  apply wp_bind. eapply wp_mono; [exact Hf|]. cbn beta. intros r s' (l & -> & Hcan).
  apply wp_bind. eapply wp_mono; [exact Hcan|]. cbn beta. intros c s'' Ht. by apply wp_ret.
Qed.

Lemma descendThrow_ok : descends descendThrow.
Proof.
  intros P w s n p m b Q HP Hc Hi Hb Hne HQ.
  destruct (descend_child P w s n p m b Q HP Hc Hi Hb Hne HQ) as (i & Hp & Hcase).
  apply wp_bind, wp_bind. eapply wp_deref_inner; [done|]. apply wp_bind, wp_gets. cbn [fst snd].
  destruct (getChild i b) as [c|]; [by apply wp_ret|]. destruct Hcase as [-> Hf]. simpl.
  apply wp_bind, wp_bind. eapply wp_mono; [exact Hf|]. cbn beta. intros r s' (l & -> & Hcan).
  apply wp_ret, wp_bind. eapply wp_mono; [exact Hcan|]. cbn beta. intros c s'' Ht. by apply wp_ret.
Qed.

End grow.
End Grow.
