(* ===== verification/SHAMapWalk.v ===== *)
(** * Walking to a key

    The items a walk to a key still has in front of it, what the stack of a walk
    looks like, and that looking an item up finds it. *)

From S2P Require Import Prelude Serializer StateMonad SHAMapNode SHAMap.
From S2P Require Import SHAMapRep SHAMapRepFacts SHAMapGrow.
Import Node SM Rep RepFacts Grow.
Open Scope prog_scope.

Module Walk.

(** ** The items that agree with a key on its first digits *)

Definition at_ (d : nat) (t : Z) (m : content) : content := filter (λ kv, pre d kv.1 = pre d t) m.

Definition keys_ok (m : content) : Prop := ∀ k, is_Some (m !! k) → key_ok k.

Lemma lookup_at d t m k x : at_ d t m !! k = Some x ↔ m !! k = Some x ∧ pre d k = pre d t.
Proof. apply map_lookup_filter_Some. Qed.

Lemma lookup_at_self d t m : at_ d t m !! t = m !! t.
Proof. apply option_eq. intros x. rewrite lookup_at. tauto. Qed.

Lemma at_0 t m : keys_ok m → key_ok t → at_ 0 t m = m.
Proof.
  intros Hm Ht. apply map_eq. intros k. apply option_eq. intros x. rewrite lookup_at.
  split; [by intros [? _]|]. intros Hk. split; [done|]. rewrite !pre_0; [done|done|]. apply Hm. eauto.
Qed.

Lemma at_S d t m : (d < 64)%nat → sub d (nib d t) (at_ d t m) = at_ (S d) t m.
Proof.
  intros Hd. apply map_eq. intros k. apply option_eq. intros x.
  rewrite lookup_sub, !lookup_at, pre_S_eq by done. tauto.
Qed.

Lemma at_good d t m : keys_ok m → good d (at_ d t m).
Proof.
  intros Hm. split.
  - intros k [x [Hx _]%lookup_at]. apply Hm. eauto.
  - intros k k' [x [_ Hx]%lookup_at] [x' [_ Hx']%lookup_at]. congruence.
Qed.

Lemma at_insert d t m it : at_ d t (<[t := it]> m) = <[t := it]> (at_ d t m).
Proof.
  apply map_eq. intros k. apply option_eq. intros x. rewrite lookup_insert_Some, !lookup_at, lookup_insert_Some.
  split; [tauto|]. intros [[<- <-]|[? [? ?]]]; [split; [by left|done]|tauto].
Qed.

Lemma at_delete d t m : at_ d t (delete t m) = delete t (at_ d t m).
Proof.
  apply map_eq. intros k. apply option_eq. intros x.
  rewrite lookup_delete_Some, !lookup_at, lookup_delete_Some. tauto.
Qed.

Lemma keys_ok_insert m t it : keys_ok m → key_ok t → keys_ok (<[t := it]> m).
Proof.
  intros Hm Ht k [x [[<- _]|[_ Hx]]%lookup_insert_Some]; [done|]. apply Hm. eauto.
Qed.

Lemma keys_ok_delete m t : keys_ok m → keys_ok (delete t m).
Proof. intros Hm k [x [_ Hx]%lookup_delete_Some]. apply Hm. eauto. Qed.

(** At depth 64 only the item itself is left. *)
Lemma at_64_small t m : keys_ok m → ¬ (2 ≤ size (at_ 64 t m))%nat.
Proof.
  intros Hm (k & k' & Hne & Hk & Hk')%two_items. apply Hne. apply (good_64 (at_ 64 t m)); [|done|done].
  by apply at_good.
Qed.

(** One item in front: it is the one looked for, or there is none. *)
Lemma at_singleton d t m k x : at_ d t m = {[k := x]} → m !! t = if k =? t then Some x else None.
Proof.
  intros E. rewrite <- (lookup_at_self d), E. destruct (Z.eqb_spec k t) as [->|Hne].
  - apply lookup_singleton_eq.
  - by apply lookup_singleton_ne.
Qed.

Section walk.
Context `{Digest} (ty : TNType).
Implicit Types (m : content) (l c p root : loc) (w : world) (s : SHAMap) (stack : Stack).
Implicit Types (P : loc → Z → Prop).

(** ** Paths

    The stack has the inner nodes from the root to a node, the last first. *)
Fixpoint path P A w root (t : Z) m stack l : Prop :=
  match stack with
  | [] => l = root
  | (p, id) :: rest =>
      let d := length rest in
      mDepth id = d ∧ (d < 64)%nat ∧ inner_at ty P A w (63 - d) p (at_ d t m) ∧
      ((0 < d)%nat → (2 ≤ size (at_ d t m))%nat) ∧
      linked w p (nib d t) l ∧ path P A w root t m rest p
  end.

Lemma path_grows P A w w' root t m stack l :
  grows ty w w' → (∀ l, P l 0) → path P A w root t m stack l → path P A w' root t m stack l.
Proof.
  intros Hg HP. revert l. induction stack as [|[p id] rest IH]; intros l; simpl; [done|].
  intros (? & ? & Hi & ? & Hl & Hp). do 2 (split; [done|]).
  split; [by apply (gr_inner _ _ _ Hg)|]. split; [done|].
  split; [by eapply linked_grows|]. by apply IH.
Qed.

(** The end of a path: a leaf, or an inner node with nothing on the branch of
    the key. *)
Definition ends P A w (t : Z) m (d : nat) l : Prop :=
  (0 < d)%nat ∧ leaf_at ty P w l (at_ d t m) ∨
  (d < 64)%nat ∧ inner_at ty P A w (63 - d) l (at_ d t m) ∧
  ((0 < d)%nat → (2 ≤ size (at_ d t m))%nat) ∧ at_ (S d) t m = ∅.

(** The root, or a tree at depth [d]. *)
Definition node_at P A w (t : Z) m (d : nat) l : Prop :=
  (0 < d)%nat ∧ leaf_at ty P w l (at_ d t m) ∨
  (d < 64)%nat ∧ inner_at ty P A w (63 - d) l (at_ d t m) ∧
  ((0 < d)%nat → (2 ≤ size (at_ d t m))%nat).

Lemma rep_node_at P A w t m d l :
  keys_ok m → (0 < d ≤ 64)%nat → rep ty P A w (64 - d) l (at_ d t m) → node_at P A w t m d l.
Proof.
  intros Hm Hd [Hl|(n' & Hn & Hs & Hi)]%rep_unfold; [left; split; [lia|done]|right].
  assert (d < 64)%nat by (destruct (decide (d = 64%nat)) as [->|]; lia).
  replace (63 - d)%nat with n' by lia. done.
Qed.

Lemma node_at_child P A w n c t m d :
  keys_ok m → (d < 64)%nat → n = (63 - d)%nat → rep ty P A w n c (sub d (nib d t) (at_ d t m)) →
  node_at P A w t m (S d) c.
Proof.
  intros Hm Hd -> Hr. apply rep_node_at; [done|lia|]. rewrite <- at_S by done.
  by replace (64 - S d)%nat with (63 - d)%nat by lia.
Qed.

Context (down : loc → nat → prog (option loc)) (Hdown : descends ty down).

Lemma walk_stack_ok P w s root t m fuel l id stack (Q : Stack → world * SHAMap → Prop) :
  (∀ l, P l 0) → cache_ok w → keys_ok m →
  mDepth id = length stack → fuel = (64 - length stack)%nat →
  path P (backed_ s) w root t m stack l → node_at P (backed_ s) w t m (length stack) l →
  (∀ w' l id stack, grows ty w w' → mDepth id = length stack →
     path P (backed_ s) w' root t m stack l → ends P (backed_ s) w' t m (length stack) l →
     Q ((l, id) :: stack) (w', s)) →
  wp (walk_stack down fuel l id t true stack) (w, s) Q.
Proof using Hdown.
  intros HP Hc Hm. revert w l id stack Hc.
  induction fuel as [|fuel IH]; intros w l id stack Hc Hid Hf Hpath Hn HQ;
    destruct Hn as [(Hd & (u & Hl & Hu))|(Hd & Hi & Hs)]; try lia.
  1,2: apply wp_bind; eapply wp_deref; [done|]; apply wp_ret, HQ;
    [apply grows_refl|done|done|left; split; [done|]; by exists u].
  pose proof Hi as (i & Hl & _ & [_ Hbs _]).
  apply wp_bind. eapply wp_deref; [done|]. cbv zeta. rewrite selectBranch_nib by lia. rewrite Hid.
  set (d := length stack) in *. specialize (Hbs _ (nib_lt d t)).
  replace (63 - (63 - d))%nat with d in Hbs by lia. rewrite at_S in Hbs by done.
  destruct Hbs as [E1 _ _]. rewrite E1. destruct (bool_decide_reflect (at_ (S d) t m = ∅)) as [He|He].
  { apply wp_ret, HQ; [apply grows_refl|done|done|]. right. done. }
  apply wp_bind. eapply (Hdown P w s (63 - d)%nat); [done|done|done|apply nib_lt| |].
  { replace (63 - (63 - d))%nat with d by lia. by rewrite at_S. }
  replace (63 - (63 - d))%nat with d by lia. intros c w' Hg Hlk Hr. apply wp_bind, wp_ret.
  apply IH; [by apply (gr_cache _ _ _ Hg)|simpl; lia|simpl; lia| | |].
  - simpl. split; [done|]. split; [done|]. split; [by apply (gr_inner _ _ _ Hg)|].
    split; [done|]. split; [done|]. by eapply path_grows.
  - by eapply node_at_child.
  - intros w2 l2 id2 stack2 Hg2. apply HQ. by eapply grows_trans.
Qed.

End walk.

(** ** Lookups *)

Section lookup.
Context `{Digest} (ty : TNType).
Implicit Types (m : content) (l c p root : loc) (w : world) (s : SHAMap) (stack : Stack).
Implicit Types (P : loc → Z → Prop).

Lemma walkToPointer_from_ok P w s t m fuel l id d (Q : option SHAMapTreeNode → world * SHAMap → Prop) :
  (∀ l, P l 0) → cache_ok w → keys_ok m →
  mDepth id = d → fuel = (64 - d)%nat → node_at ty P (backed_ s) w t m d l →
  (∀ w' r, grows ty w w' → mItem <$> r = m !! t →
     (∀ u, r = Some u → mType u = ty ∧ l_hash u = leaf_hash ty (mItem u)) → Q r (w', s)) →
  wp (walkToPointer_from fuel l id t) (w, s) Q.
Proof.
  intros HP Hc Hm. revert w l id d Hc.
  induction fuel as [|fuel IH]; intros w l id d Hc Hid Hf Hn HQ;
    destruct Hn as [(Hd & (u & Hl & _ & Hty & Hat & Hh))|(Hd & Hi & Hs)]; try lia.
  1,2: apply wp_bind; eapply wp_deref; [done|]; apply wp_ret, HQ; [apply grows_refl| |];
    [rewrite (at_singleton _ _ _ _ _ Hat); by destruct (_ =? t)|
     intros u'; destruct (_ =? t); [by intros [= <-]|done]].
  pose proof Hi as (i & Hl & _ & [_ Hbs _]).
  apply wp_bind. eapply wp_deref; [done|]. cbv zeta. rewrite selectBranch_nib by lia. rewrite Hid.
  specialize (Hbs _ (nib_lt d t)).
  replace (63 - (63 - d))%nat with d in Hbs by lia. rewrite at_S in Hbs by done.
  destruct Hbs as [E1 _ _]. rewrite E1. destruct (bool_decide_reflect (at_ (S d) t m = ∅)) as [He|He].
  { apply wp_ret, HQ; [apply grows_refl| |done]. by rewrite <- (lookup_at_self (S d)), He. }
  apply wp_bind. eapply (descendThrow_ptr_ok ty P w s (63 - d)%nat); [done|done|done|apply nib_lt| |].
  { replace (63 - (63 - d))%nat with d by lia. by rewrite at_S. }
  replace (63 - (63 - d))%nat with d by lia. intros c w' Hg Hlk Hr. apply wp_bind, wp_ret.
  apply (IH _ _ _ (S d)); [by apply (gr_cache _ _ _ Hg)|by rewrite getChildNodeID_depth, Hid|lia| |].
  - by eapply node_at_child.
  - intros w2 r Hg2. apply HQ. by eapply grows_trans.
Qed.

(** ** The state of a map

    [m] are its items; [P] holds of its nodes in memory. *)
Record inv P w s m : Prop := {
  inv_root : inner_at ty P (backed_ s) w 63 (root_ s) m;
  inv_cache : cache_ok w;
  inv_keys : keys_ok m;
  inv_seq : seq_ s ≠ 0;
  inv_zero l : P l 0;
  inv_own l : P l (seq_ s)
}.

Lemma inv_node_at P w s m t : inv P w s m → key_ok t → node_at ty P (backed_ s) w t m 0 (root_ s).
Proof. intros [Hr _ Hm _ _ _] Ht. right. rewrite at_0 by done. split; [lia|]. split; [done|lia]. Qed.

Lemma inv_grows P w w' s m : inv P w s m → grows ty w w' → inv P w' s m.
Proof.
  intros [? ? ? ? ? ?] Hg. split; try done; [by apply (gr_inner _ _ _ Hg)|by apply (gr_cache _ _ _ Hg)].
Qed.

Lemma walkToPointer_ok P w s m t (Q : option SHAMapTreeNode → world * SHAMap → Prop) :
  inv P w s m → key_ok t →
  (∀ w' r, grows ty w w' → mItem <$> r = m !! t →
     (∀ u, r = Some u → mType u = ty ∧ l_hash u = leaf_hash ty (mItem u)) → Q r (w', s)) →
  wp (walkToPointer t) (w, s) Q.
Proof.
  intros Hinv Ht HQ. apply wp_bind, wp_gets. cbn [snd].
  eapply (walkToPointer_from_ok P _ _ _ _ _ _ _ 0); [apply Hinv..|done|done| |done].
  by apply inv_node_at.
Qed.

Lemma getStack_ok P w s m t (Q : Stack → world * SHAMap → Prop) :
  inv P w s m → key_ok t →
  (∀ w' l id stack, grows ty w w' → mDepth id = length stack →
     path ty P (backed_ s) w' (root_ s) t m stack l →
     ends ty P (backed_ s) w' t m (length stack) l → Q ((l, id) :: stack) (w', s)) →
  wp (getStack t true) (w, s) Q.
Proof.
  intros Hinv Ht HQ. apply wp_bind, wp_gets. cbn [snd].
  eapply (walk_stack_ok _ _ (descendThrow_ok ty)); [apply Hinv..|done|done|done| |done].
  by apply inv_node_at.
Qed.

End lookup.

End Walk.
