(* ===== verification/SHAMapModify.v ===== *)
(** * Changing a SHAMap

    A change rebuilds the path to a key from the bottom up.  A node on the path
    that belongs to the map is changed in place, another is copied, so the trees
    that have none of the map's own nodes keep what they stand for: [frame]. *)

From S2P Require Import Prelude Serializer StateMonad SHAMapNode SHAMap.
From S2P Require Import SHAMapRep SHAMapRepFacts SHAMapGrow SHAMapWalk.
Import Node SM Rep RepFacts Grow Walk.
Open Scope prog_scope.

Module Modify.

(** ** Setting a child *)

Lemma isEmptyBranch_testbit i b : isEmptyBranch i b = negb (Z.testbit (mIsBranch i) (Z.of_nat b)).
Proof.
  unfold isEmptyBranch. rewrite Z.shiftl_1_l, land_pow2 by lia.
  destruct (Z.testbit _ _); simpl; [|done]. apply Z.eqb_neq. apply Z.pow_nonzero; lia.
Qed.

Lemma getChild_set i b c : (b < length (mChildren i))%nat → getChild (setChild i b c) b = c.
Proof. intros Hb. unfold getChild. simpl. by rewrite list_lookup_insert_eq. Qed.

Lemma getChild_set_ne i b b' c : b ≠ b' → getChild (setChild i b c) b' = getChild i b'.
Proof. intros Hb. unfold getChild. simpl. by rewrite list_lookup_insert_ne. Qed.

Lemma getChildHash_set i b c : (b < length (mHashes i))%nat → getChildHash (setChild i b c) b = 0.
Proof. intros Hb. unfold getChildHash. simpl. by rewrite list_lookup_insert_eq. Qed.

Lemma getChildHash_set_ne i b b' c : b ≠ b' → getChildHash (setChild i b c) b' = getChildHash i b'.
Proof. intros Hb. unfold getChildHash. simpl. by rewrite list_lookup_insert_ne. Qed.

Lemma isEmptyBranch_set i b c : isEmptyBranch (setChild i b c) b = bool_decide (c = None).
Proof.
  rewrite isEmptyBranch_testbit. simpl. rewrite Z.shiftl_1_l. destruct c as [c|].
  - rewrite Z.lor_spec, Z.pow2_bits_true by lia. by rewrite orb_true_r.
  - rewrite Z.land_spec, Z.lnot_spec, Z.pow2_bits_true by lia. by rewrite andb_false_r.
Qed.

Lemma isEmptyBranch_set_ne i b b' c : b ≠ b' → isEmptyBranch (setChild i b c) b' = isEmptyBranch i b'.
Proof.
  intros Hb. rewrite !isEmptyBranch_testbit. simpl. rewrite Z.shiftl_1_l. f_equal. destruct c as [c|].
  - rewrite Z.lor_spec, Z.pow2_bits_false by lia. by rewrite orb_false_r.
  - rewrite Z.land_spec, Z.lnot_spec, Z.pow2_bits_false by lia. by rewrite andb_true_r.
Qed.

Lemma bits_bound x k : 0 ≤ k → 0 ≤ x → (∀ j, k ≤ j → Z.testbit x j = false) → x < 2 ^ k.
Proof.
  intros Hk Hx Hb. assert (x = x mod 2 ^ k) as ->; [|apply Z.mod_pos_bound; by apply Z.pow_pos_nonneg].
  apply Z.bits_inj'. intros j Hj. destruct (Z.lt_ge_cases j k).
  - by rewrite Z.mod_pow2_bits_low.
  - rewrite Z.mod_pow2_bits_high by lia. by apply Hb.
Qed.

Lemma shape_set i b c : shape_ok i → (b < 16)%nat → shape_ok (setChild i b c).
Proof.
  intros [Hh Hc Hr] Hb. split; simpl; [by rewrite length_insert..|]. rewrite Z.shiftl_1_l.
  assert (0 < 2 ^ Z.of_nat b) by (apply Z.pow_pos_nonneg; lia).
  destruct c as [c|].
  - assert (0 ≤ Z.lor (mIsBranch i) (2 ^ Z.of_nat b)) by (apply Z.lor_nonneg; lia).
    split; [done|]. apply bits_bound; [done|done|]. intros j Hj.
    by rewrite Z.lor_spec, (testbit_high _ 16), Z.pow2_bits_false by lia.
  - assert (0 ≤ Z.land (mIsBranch i) (Z.lnot (2 ^ Z.of_nat b))) by (apply Z.land_nonneg; lia).
    split; [done|]. apply bits_bound; [done|done|]. intros j Hj.
    by rewrite Z.land_spec, (testbit_high _ 16) by lia.
Qed.

Definition reseq (i : SHAMapInnerNode) (q : Z) : SHAMapInnerNode :=
  mkInner (i_hash i) q (mHashes i) (mChildren i) (mIsBranch i) (mFullBelowGen i).

Lemma put_put w x nd nd' : put (put w x nd) x nd' = put w x nd'.
Proof. unfold put, set_heap. simpl. by rewrite insert_insert_eq. Qed.

Lemma put_comm w x y nd nd' : x ≠ y → put (put w x nd) y nd' = put (put w y nd') x nd.
Proof. intros Hne. unfold put, set_heap. simpl. by rewrite insert_insert_ne. Qed.

Section modify.
Context `{Digest} (ty : TNType).
Implicit Types (m : content) (l c p x root : loc) (i : SHAMapInnerNode) (w : world) (s : SHAMap) (stack : Stack).
Implicit Types (P Q R : loc → Z → Prop) (X : list loc).

(** ** What a change of a map keeps

    [q] is the sequence number of the map: trees without nodes of that number are
    kept. *)
Record frame (q : Z) w w' : Prop := {
  fr_db : db w ⊆ db w';
  fr_rep Q A n l m :
    (∀ l, Q l 0) → (∀ l, ¬ Q l q) → rep ty Q A w n l m → rep ty Q A w' n l m;
  fr_inner Q A n l m :
    (∀ l, Q l 0) → (∀ l, ¬ Q l q) → inner_at ty Q A w n l m → inner_at ty Q A w' n l m;
  fr_cache : cache_ok w → cache_ok w'
}.

Lemma frame_refl q w : frame q w w.
Proof. by split. Qed.

Lemma frame_trans q w1 w2 w3 : frame q w1 w2 → frame q w2 w3 → frame q w1 w3.
Proof. intros [D1 R1 I1 C1] [D2 R2 I2 C2]. split; [by etrans|auto|auto|auto]. Qed.

Lemma grows_frame q w w' : grows ty w w' → frame q w w'.
Proof.
  intros Hg. split; [by rewrite (gr_db _ _ _ Hg)| | |apply Hg]; intros Q A n l m HQ _; [by apply (gr_rep _ _ _ Hg)|by apply (gr_inner _ _ _ Hg)].
Qed.

(** A location that is new, or a node of the map. *)
Definition ours (q : Z) w x : Prop := ∀ nd, heap w !! x = Some nd → getSeq nd = q.

Lemma ours_fresh q w x : heap w !! x = None → ours q w x.
Proof. intros E nd. congruence. Qed.

Lemma ours_misses q w x Q : ours q w x → (∀ l, ¬ Q l q) → misses Q w x.
Proof. intros Ho HQ nd Hx. rewrite (Ho nd Hx). apply HQ. Qed.

Lemma cache_put q w x nd : q ≠ 0 → ours q w x → getSeq nd = q → cache_ok w → cache_ok (put w x nd).
Proof.
  intros Hq Ho Hs [C2 C3]. assert (∀ l hh, shared_at w l hh → shared_at (put w x nd) l hh) as Hsh.
  { intros l hh (nd' & Hl' & Hz & ?). exists nd'. simpl.
    rewrite lookup_insert_ne; [done|]. intros ->. apply Hq. by rewrite <- (Ho _ Hl'). }
  split; [intros hh l Hl; by apply Hsh, C2|].
  intros l nd' Hl. apply (admissible_keep w); [done|exact Hsh|].
  simpl in Hl. apply lookup_insert_Some in Hl as [[<- <-]|[_ Hl]]; [by eapply own_admissible|by apply (C3 l)].
Qed.

Lemma frame_put q w x nd : q ≠ 0 → ours q w x → getSeq nd = q → frame q w (put w x nd).
Proof.
  intros Hq Ho Hs. split; [done| | |by eapply cache_put].
  - intros Q A n l m _ HQ. apply rep_put. by eapply ours_misses.
  - intros Q A n l m _ HQ. apply inner_at_put. by eapply ours_misses.
Qed.

Lemma grows_own w l nd q : heap w !! l = None → getSeq nd = q → q ≠ 0 → grows ty w (put w l nd).
Proof. intros Hl Hs Hq. apply grows_fresh; [done|]. by eapply own_admissible. Qed.

Lemma new_leaf_seq it sq : getSeq (Leaf (new_leaf it ty sq)) = sq.
Proof. unfold new_leaf, leaf_updateHash. by destruct (_ =? _). Qed.

(** ** Nodes of the path are kept out of the other branches *)

Definition both P Q : loc → Z → Prop := λ l sq, P l sq ∧ Q l sq.

(** Not one of the map's own nodes in [X]. *)
Definition avoids X (q : Z) : loc → Z → Prop := λ l sq, ¬ (l ∈ X ∧ sq = q).

Lemma avoids_mono X Y q l sq : (∀ x, x ∈ Y → x ∈ X) → avoids X q l sq → avoids Y q l sq.
Proof. unfold avoids. intros HXY Ha [? ?]. apply Ha. auto. Qed.

Lemma avoids_misses P X q w x : x ∈ X → ours q w x → misses (both P (avoids X q)) w x.
Proof. intros Hx Ho nd Hnd [_ Ha]. apply Ha. by rewrite (Ho _ Hnd). Qed.

(** The inner nodes above a position, with the branches off the path as they
    should be and nothing said about the branch of the key. *)
Fixpoint ctx P A w (q : Z) X (t : Z) m stack : Prop :=
  match stack with
  | [] => True
  | (p, id) :: rest =>
      let d := length rest in
      mDepth id = d ∧ (d < 64)%nat ∧ p ∈ X ∧ (p ∉ rest.*1) ∧
      (∃ i, heap w !! p = Some (Inner i) ∧ shape_ok i ∧
         ∀ b, (b < 16)%nat → b ≠ nib d t →
           branch_ok (child_rep ty (both P (avoids X q)) A w (63 - d)) i b (sub d b (at_ d t m))) ∧
      ctx P A w q X t m rest
  end.

Lemma branch_ok_impl (ch ch' : option loc → Z → content → Prop) i b mb :
  (∀ (c : option loc) hh, ch c hh mb → ch' c hh mb) → branch_ok ch i b mb → branch_ok ch' i b mb.
Proof. intros Himp [? ? ?]. split; auto. Qed.

Lemma ctx_grows P A w w' q X t m stack :
  grows ty w w' → q ≠ 0 → (∀ l, P l 0) → ctx P A w q X t m stack → ctx P A w' q X t m stack.
Proof.
  intros Hg Hq HP. induction stack as [|[p id] rest IH]; simpl; [done|].
  intros (? & ? & ? & ? & (i & Hi & Hsh & Hb) & Hr). do 4 (split; [done|]). split; [|by apply IH].
  destruct (gr_node _ _ _ Hg _ _ Hi) as ([i'|] & Hi' & Hle); [|done]. exists i'. split; [done|].
  split; [by eapply shape_ok_le|]. intros b Hlt Hne.
  apply (gr_branch _ _ _ Hg _ _ _ p i i'); [|done|done|done|done|by apply Hb].
  intros l. split; [done|]. intros [_ ?]. congruence.
Qed.

(** Writing at a node of [X], or at a new one. *)
Lemma ctx_put P A w q X t m stack x nd :
  ours q w x → x ∈ X ∨ heap w !! x = None → (x ∉ stack.*1) →
  ctx P A w q X t m stack → ctx P A (put w x nd) q (x :: X) t m stack.
Proof.
  intros Ho Hx. induction stack as [|[p id] rest IH]; simpl; [done|].
  intros Hni (? & ? & ? & ? & (i & Hi & Hsh & Hb) & Hr). apply not_elem_of_cons in Hni as [Hne Hni].
  do 2 (split; [done|]). split; [by right|]. split; [done|]. split; [|by apply IH].
  exists i. split; [simpl; by rewrite lookup_insert_ne|]. split; [done|]. intros b Hlt Hbne.
  eapply branch_ok_impl; [|by apply Hb]. intros c hh Hc. destruct Hx as [Hx|Hf].
  - apply (child_put _ _ _ w x nd) in Hc; [|by apply avoids_misses]. eapply child_mono; [|exact Hc].
    intros l sq [? Ha]. split; [done|]. eapply avoids_mono; [|exact Ha]. intros y [Hy|Hy]%elem_of_cons; [by rewrite Hy|done].
  - eapply child_transfer; [| |exact Hc]; [done|]. intros l nd' Hl [HP Ha].
    assert (x ≠ l) by congruence. split; [simpl; by rewrite lookup_insert_ne|]. split; [done|].
    intros [[->|Hin]%elem_of_cons ?]; [done|]. by apply Ha.
Qed.

Lemma ctx_in P A w q X t m stack x : ctx P A w q X t m stack → x ∈ stack.*1 → x ∈ X ∧ is_Some (heap w !! x).
Proof.
  induction stack as [|[p id] rest IH]; simpl; [by intros _ ?%elem_of_nil|].
  intros (_ & _ & Hp & _ & (i & Hi & _) & Hr) [->|Hx]%elem_of_cons; [by eauto|by apply IH].
Qed.

(** ** One step up *)

(** The map after a node was copied: the root moves with its node. *)
Definition moved s (id : SHAMapNodeID) x : SHAMap := if isRoot id then set_root s x else s.

Definition same_map s s' : Prop := s' = set_root s (root_ s').

Lemma set_root_same s : set_root s (root_ s) = s.
Proof. by destruct s. Qed.

Lemma reseq_same i : reseq i (i_seq i) = i.
Proof. by destruct i. Qed.

Lemma moved_same s id x : same_map s (moved s id x).
Proof. unfold same_map, moved. destruct (isRoot id); [done|]. by rewrite set_root_same. Qed.

Lemma same_map_trans s1 s2 s3 : same_map s1 s2 → same_map s2 s3 → same_map s1 s3.
Proof. unfold same_map. intros E2 E3. rewrite E3, E2. done. Qed.

(** [x] is the node [p] itself, which belongs to the map, or a new one. *)
Definition taken s w p x : Prop :=
  x = p ∧ (∃ nd, heap w !! p = Some nd ∧ getSeq nd = seq_ s) ∨ heap w !! x = None.

Lemma taken_ours s w p x : taken s w p x → ours (seq_ s) w x.
Proof. intros [[-> (nd & Hp & Hs)]|Hf]; [intros nd'; congruence|by apply ours_fresh]. Qed.

Lemma wp_unshare w s p id nd (Q : loc → world * SHAMap → Prop) :
  heap w !! p = Some nd →
  (getSeq nd = seq_ s → Q p (w, s)) →
  (∀ x, heap w !! x = None → Q x (put w x (clone nd (seq_ s)), moved s id x)) →
  wp (unshareNode p id) (w, s) Q.
Proof.
  intros Hp Hq Hf. apply wp_bind. eapply wp_deref; [done|]. apply wp_bind, wp_gets. cbn [snd].
  destruct (Z.eqb_spec (getSeq nd) (seq_ s)); simpl; [by apply wp_ret, Hq|].
  apply wp_bind, wp_alloc. intros x Hx. specialize (Hf x Hx). unfold moved in Hf. apply wp_bind.
  destruct (isRoot id); simpl; [apply wp_modify|apply wp_ret]; by apply wp_ret.
Qed.

Lemma wp_relink {B} w s p id i b (child : option loc) (K : loc → prog B) (Q : B → world * SHAMap → Prop) :
  heap w !! p = Some (Inner i) → (isRoot id = true → root_ s = p) →
  (∀ x, taken s w p x →
     wp (K x) (put w x (Inner (setChild (reseq i (seq_ s)) b child)), moved s id x) Q) →
  wp (let! node := unshareNode p id in on_inner node (λ i, setChild i b child) ;; K node) (w, s) Q.
Proof.
  intros Hp Hr HK. apply wp_bind. eapply wp_unshare; [done| |].
  - intros Hs. simpl in Hs. apply wp_bind. eapply wp_on_inner; [done|].
    assert (moved s id p = s) as Es.
    { unfold moved. destruct (isRoot id); [|done]. rewrite <- (Hr eq_refl). apply set_root_same. }
    specialize (HK p). rewrite Es, <- Hs, reseq_same in HK. apply HK. left. eauto.
  - intros x Hx. apply wp_bind. eapply wp_on_inner; [apply fresh_lookup_put|]. rewrite put_put.
    apply HK. by right.
Qed.

Lemma relink_inner R R' A w x i n b (child : option loc) M q :
  shape_ok i → (b < 16)%nat → misses R w x → (∀ l sq, R l sq → R' l sq) → R' x q → q ≠ 0 →
  (∀ b', (b' < 16)%nat → b' ≠ b → branch_ok (child_rep ty R A w n) i b' (sub (63 - n) b' M)) →
  match child with
  | Some c => rep ty R A w n c (sub (63 - n) b M)
  | None => sub (63 - n) b M = ∅
  end →
  inner_at ty R' A (put w x (Inner (setChild (reseq i q) b child))) n x M.
Proof.
  intros Hsh Hb Hmiss HRR HR Hq Hoff Hch.
  assert (shape_ok (reseq i q)) as Hsh' by (by destruct Hsh).
  exists (setChild (reseq i q) b child). split; [apply fresh_lookup_put|]. split; [done|]. split.
  - by apply shape_set.
  - intros b' Hb'. destruct (decide (b = b')) as [<-|Hne].
    + destruct child as [c|].
      * assert (sub (63 - n) b M ≠ ∅) as Hm by (by eapply rep_nonempty).
        split; [rewrite isEmptyBranch_set, bool_decide_eq_false_2; [by rewrite bool_decide_eq_false_2|done]|done|].
        intros _. rewrite getChild_set by (rewrite (so_children _ Hsh'); lia). simpl.
        eapply rep_mono; [exact HRR|]. by apply rep_put.
      * rewrite Hch. split; [rewrite isEmptyBranch_set; by rewrite !bool_decide_eq_true_2| |done].
        intros _. rewrite getChild_set by (rewrite (so_children _ Hsh'); lia).
        by rewrite getChildHash_set by (rewrite (so_hashes _ Hsh'); lia).
    + destruct (Hoff b' Hb' ltac:(done)) as [E1 E2 E3].
      split; [by rewrite isEmptyBranch_set_ne| |];
        rewrite getChild_set_ne, getChildHash_set_ne by done; [done|].
      intros Hm. eapply child_mono; [exact HRR|]. apply child_put; [done|]. by apply E3.
  - left. done.
Qed.

(** The child that is put back on the path, with the trees off it. *)
Lemma ctx_relink P A w q X t m p id rest i x (child : option loc) :
  ctx P A w q X t m ((p, id) :: rest) → heap w !! p = Some (Inner i) → q ≠ 0 → (∀ l, P l q) →
  ours q w x → x = p ∨ heap w !! x = None →
  match child with
  | Some c => rep ty (both P (avoids (p :: rest.*1) q)) A w (63 - length rest) c (at_ (S (length rest)) t m)
  | None => at_ (S (length rest)) t m = ∅
  end →
  let w' := put w x (Inner (setChild (reseq i q) (nib (length rest) t) child)) in
  inner_at ty (both P (avoids (rest.*1) q)) A w' (63 - length rest) x (at_ (length rest) t m) ∧
  ctx P A w' q (x :: X) t m rest ∧ x ∉ rest.*1.
Proof.
  intros Hctx Hp Hq HP Ho Hx Hch. pose proof Hctx as (Hid & Hd & HpX & Hnd & (i' & Hp' & Hsh & Hoff) & Hr).
  assert (i' = i) as -> by congruence.
  assert (x ∉ rest.*1) as Hxr.
  { destruct Hx as [->|Hf]; [done|]. intros Hxin. destruct (ctx_in _ _ _ _ _ _ _ _ x Hr Hxin) as [_ [? ?]]. congruence. }
  split; [|split; [|done]].
  - apply (relink_inner (both P (avoids (p :: rest.*1) q))); [done|apply nib_lt| | | |done| |].
    + destruct Hx as [->|Hf]; [|by apply misses_fresh]. apply avoids_misses; [by left|done].
    + intros l sq [? Ha]. split; [done|]. eapply avoids_mono; [|exact Ha]. intros y Hy. by right.
    + split; [apply HP|]. by intros [? _].
    + intros b Hb Hne. replace (63 - (63 - length rest))%nat with (length rest) by lia.
      eapply branch_ok_impl; [|by apply Hoff]. intros c hh. apply child_mono.
      intros l sq [? Ha]. split; [done|]. eapply avoids_mono; [|exact Ha].
      intros y [->|Hy]%elem_of_cons; [done|]. by apply (ctx_in _ _ _ _ _ _ _ _ y Hr).
    + replace (63 - (63 - length rest))%nat with (length rest) by lia. by rewrite at_S.
  - apply ctx_put; [done| |done|done]. destruct Hx as [->|?]; auto.
Qed.

(** ** [dirtyUp] *)

Lemma dirtyUp_ok P w s t m X stack c (Q : () → world * SHAMap → Prop) :
  (∀ l, P l (seq_ s)) → seq_ s ≠ 0 → stack ≠ [] → (length stack ≤ 64)%nat →
  ctx P (backed_ s) w (seq_ s) X t m stack → last (stack.*1) = Some (root_ s) →
  (∀ j, (0 < j < length stack)%nat → (2 ≤ size (at_ j t m))%nat) →
  rep ty (both P (avoids (stack.*1) (seq_ s))) (backed_ s) w (64 - length stack) c (at_ (length stack) t m) →
  (∀ w' s', frame (seq_ s) w w' → same_map s s' →
     inner_at ty P (backed_ s) w' 63 (root_ s') (at_ 0 t m) → Q () (w', s')) →
  wp (dirtyUp stack t c) (w, s) Q.
Proof.
  intros HP Hq. revert w s X c HP Hq. induction stack as [|[p id] rest IH]; [done|].
  intros w s X c HP Hq _ Hlen Hctx Hroot Hsz Hc HQ. cbn [dirtyUp].
  pose proof Hctx as (Hid & Hd & HpX & Hnd & (i & Hp & Hsh & Hoff) & Hr).
  rewrite selectBranch_nib by (rewrite Hid; lia). rewrite Hid.
  assert (isRoot id = true → rest = []) as Hrest.
  { unfold isRoot. rewrite Hid. intros E%Nat.eqb_eq. by apply nil_length_inv. }
  eapply wp_relink; [done| |].
  { intros E. rewrite (Hrest E) in Hroot. simpl in Hroot. congruence. }
  intros x Hx. destruct (ctx_relink P (backed_ s) w (seq_ s) X t m p id rest i x (Some c)) as (Hin & Hctx' & Hxr);
    [done|done|done|done|by eapply taken_ours|destruct Hx as [[-> _]|?]; auto| |].
  { by replace (63 - length rest)%nat with (64 - length ((p, id) :: rest))%nat by (simpl; lia). }
  set (w' := put _ _ _) in *.
  assert (frame (seq_ s) w w') as Hfr by (apply frame_put; [done|by eapply taken_ours|done]).
  assert (backed_ (moved s id x) = backed_ s ∧ seq_ (moved s id x) = seq_ s) as [Eb Es].
  { unfold moved. by destruct (isRoot id). }
  destruct rest as [|[p' id'] rest'].
  - apply wp_ret. apply HQ; [done|apply moved_same|].
    assert (root_ (moved s id x) = x) as ->. { unfold moved, isRoot. by rewrite Hid. }
    eapply inner_at_transfer; [done| |exact Hin]. intros l nd Hl [? _]. done.
  - assert (moved s id x = s) as Em. { unfold moved, isRoot. by rewrite Hid. }
    rewrite Em. eapply IH; [done|done|done|simpl in *; lia|done| | | |].
    + by simpl in Hroot.
    + intros j Hj. apply Hsz. simpl in *. lia.
    + apply rep_unfold. right. exists (63 - length ((p', id') :: rest'))%nat.
      split; [simpl in *; lia|]. split; [apply Hsz; simpl; lia|done].
    + intros w2 s2 Hfr2 Hsame. apply HQ; [by eapply frame_trans|done].
Qed.

End modify.

End Modify.
