(* ===== verification/SHAMapAdd.v ===== *)
(** * Adding and updating items *)

From S2P Require Import Prelude Serializer StateMonad SHAMapNode SHAMap.
From S2P Require Import SHAMapRep SHAMapRepFacts SHAMapGrow SHAMapWalk SHAMapModify.
Import Node SM Rep RepFacts Grow Walk Modify.
Open Scope prog_scope.

Module Add.

Section add.
Context `{Digest} (ty : TNType).
Implicit Types (m : content) (l c p x root : loc) (i : SHAMapInnerNode) (w : world) (s : SHAMap) (stack : Stack).
Implicit Types (P Q R : loc → Z → Prop) (X : list loc).

(** ** From a path to its surroundings *)

(** A node on the way to [t], or the leaf at its end, below depth [d]. *)
Definition on_way w (t : Z) m (d : nat) x : Prop :=
  (∃ Q B j, (j < 64)%nat ∧ inner_at ty Q B w (63 - j) x (at_ j t m)) ∨
  (∃ Q j, (d ≤ j ≤ 64)%nat ∧ leaf_at ty Q w x (at_ j t m)).

Lemma at_off_disjoint d j t m b :
  (d < j ≤ 64)%nat → b ≠ nib d t → sub d b (at_ d t m) ##ₘ at_ j t m.
Proof.
  intros Hd Hb. apply map_disjoint_spec. intros k x y [_ Hk]%lookup_sub [_ Hp]%lookup_at.
  apply Hb. rewrite <- Hk. by apply (nib_down d j).
Qed.

Lemma on_way_elsewhere w t m d x b :
  keys_ok m → (d < 64)%nat → b ≠ nib d t → on_way w t m (S d) x →
  elsewhere ty w x (63 - d) (sub d b (at_ d t m)).
Proof.
  intros Hm Hd Hb [(Q & B & j & Hj & Hi)|(Q & j & Hj & Hl)].
  - left. exists Q, B, (63 - j)%nat, (at_ j t m). split; [done|]. split; [lia|].
    split; [replace (63 - (63 - j))%nat with j by lia; by apply at_good|].
    destruct (decide (j ≤ d)%nat); [left; lia|right; apply at_off_disjoint; [lia|done]].
  - right. exists Q, (at_ j t m). split; [done|]. apply at_off_disjoint; [lia|done].
Qed.

Lemma off_branch P A w q X t m d i b (hashed : Z → loc → Z → Prop) :
  keys_ok m → (d < 64)%nat → (b < 16)%nat → b ≠ nib d t →
  (∀ x, x ∈ X → on_way w t m (S d) x) →
  inner_ok ty (child_rep ty P A w (63 - d)) hashed (63 - d) i (at_ d t m) →
  branch_ok (child_rep ty (both P (avoids X q)) A w (63 - d)) i b (sub d b (at_ d t m)).
Proof.
  intros Hm Hd Hb Hne HX [_ Hbs _]. specialize (Hbs b Hb).
  replace (63 - (63 - d))%nat with d in Hbs by lia. destruct Hbs as [E1 E2 E3].
  split; [done|done|]. intros Hmb. specialize (E3 Hmb). destruct (getChild i b) as [c|]; [|done].
  simpl in *. apply (rep_avoid _ _ (.∈ X)) in E3; [|intros x Hx; by apply on_way_elsewhere; [..|apply HX]|lia|].
  - eapply rep_mono; [|exact E3]. intros l' sq [? Hni]. split; [done|]. by intros [? _].
  - replace (64 - (63 - d))%nat with (S d) by lia. apply good_sub; [done|]. by apply at_good.
Qed.

Lemma path_in P A w root t m stack l p :
  path ty P A w root t m stack l → p ∈ stack.*1 →
  ∃ j, (j < length stack)%nat ∧ (j < 64)%nat ∧ inner_at ty P A w (63 - j) p (at_ j t m).
Proof.
  revert l. induction stack as [|[p' id] rest IH]; intros l; simpl; [by intros _ ?%elem_of_nil|].
  intros (_ & Hd & Hi & _ & _ & Hp) [->|Hin]%elem_of_cons.
  - exists (length rest). split; [lia|]. done.
  - destruct (IH _ Hp Hin) as (j & ? & ? & ?). exists j. split; [lia|]. done.
Qed.

Lemma path_on_way P A w root t m stack l d p :
  path ty P A w root t m stack l → p ∈ stack.*1 → on_way w t m d p.
Proof. intros Hp Hin. destruct (path_in _ _ _ _ _ _ _ _ _ Hp Hin) as (j & ? & ? & ?). left. eauto. Qed.

Lemma path_size P A w root t m stack l j :
  path ty P A w root t m stack l → (0 < j < length stack)%nat → (2 ≤ size (at_ j t m))%nat.
Proof.
  revert l. induction stack as [|[p id] rest IH]; intros l; simpl; [lia|].
  intros (_ & _ & _ & Hs & _ & Hp) Hj. destruct (decide (j = length rest)) as [->|]; [apply Hs; lia|].
  apply (IH p); [done|lia].
Qed.

Lemma path_last P A w root t m stack l :
  path ty P A w root t m stack l → stack ≠ [] → last (stack.*1) = Some root.
Proof.
  revert l. induction stack as [|[p id] rest IH]; intros l; [done|].
  intros (_ & _ & _ & _ & _ & Hp) _. destruct rest as [|[p' id'] rest]; [simpl in *; by subst|].
  specialize (IH p Hp ltac:(done)). done.
Qed.

(** A node of the path is not further up. *)
Lemma path_fresh P A w root t m stack l d p B R :
  keys_ok m → path ty P A w root t m stack l → d = length stack → (0 < d)%nat → (d < 64)%nat →
  inner_at ty R B w (63 - d) p (at_ d t m) → (2 ≤ size (at_ d t m))%nat → p ∉ stack.*1.
Proof.
  intros Hm Hp -> Hd0 Hd Hi Hs Hin. destruct (path_in _ _ _ _ _ _ _ _ _ Hp Hin) as (j & Hj & Hj' & Hij).
  apply (elsewhere_ne ty R B w p (64 - length stack) p (at_ (length stack) t m)); [| |lia| |done].
  - left. exists P, A, (63 - j)%nat, (at_ j t m). split; [done|]. split; [lia|].
    split; [replace (63 - (63 - j))%nat with j by lia; by apply at_good|]. left. lia.
  - apply rep_unfold. right. exists (63 - length stack)%nat. split; [lia|]. done.
  - replace (64 - (64 - length stack))%nat with (length stack) by lia. by apply at_good.
Qed.

Lemma path_ctx P A w root t m stack l q X :
  keys_ok m → path ty P A w root t m stack l → (∀ p, p ∈ stack.*1 → p ∈ X) →
  (∀ x, x ∈ X → on_way w t m (length stack) x) → ctx ty P A w q X t m stack.
Proof.
  intros Hm. revert l. induction stack as [|[p id] rest IH]; intros l; simpl; [done|].
  intros (Hid & Hd & Hi & Hs & Hlk & Hp) Hin HX. split; [done|]. split; [done|].
  split; [apply Hin; by left|]. split.
  { destruct rest as [|r rest]; [apply not_elem_of_nil|].
    eapply (path_fresh _ _ _ _ _ _ _ _ (length (r :: rest))); [done|exact Hp|done|simpl; lia|done|done|apply Hs; simpl; lia]. }
  split.
  - destruct Hi as (i & Hpi & _ & Hi). exists i. split; [done|]. split; [apply Hi|].
    intros b Hb Hne. by eapply off_branch.
  - apply (IH p); [done| |].
    + intros p' Hp'. apply Hin. by right.
    + intros x Hx. destruct (HX x Hx) as [?|(R & j & ? & ?)]; [by left|right]. exists R, j. split; [lia|done].
Qed.

(** The trees off the path do not depend on the item of the key. *)
Definition same_off (t : Z) m m' : Prop := ∀ d b, b ≠ nib d t → sub d b (at_ d t m) = sub d b (at_ d t m').

Lemma same_off_insert t m it : same_off t m (<[t := it]> m).
Proof. intros d b Hb. by rewrite at_insert, sub_insert_ne. Qed.

Lemma same_off_delete t m : same_off t m (delete t m).
Proof. intros d b Hb. by rewrite at_delete, sub_delete_ne. Qed.

Lemma ctx_same_off P A w q X t m m' stack :
  same_off t m m' → ctx ty P A w q X t m stack → ctx ty P A w q X t m' stack.
Proof.
  intros Hoff. induction stack as [|[p id] rest IH]; simpl; [done|].
  intros (? & ? & ? & ? & (i & Hi & Hsh & Hb) & Hr). do 4 (split; [done|]). split; [|by apply IH].
  exists i. split; [done|]. split; [done|]. intros b Hlt Hne. rewrite <- Hoff by done. by apply Hb.
Qed.

(** ** Adding below an inner node *)

(** What an operation does to a map: the trees without its nodes are kept, the
    map has the items [m']. *)
Record changed P w s w' s' m' : Prop := {
  ch_frame : frame ty (seq_ s) w w';
  ch_same : same_map s s';
  ch_inv : inv ty P w' s' m'
}.

Lemma same_map_fields s s' : same_map s s' → seq_ s' = seq_ s ∧ backed_ s' = backed_ s.
Proof. unfold same_map. by intros ->. Qed.

Lemma changed_inv P w s m w' s' m' :
  inv ty P w s m → frame ty (seq_ s) w w' → same_map s s' → keys_ok m' →
  inner_at ty P (backed_ s) w' 63 (root_ s') m' → changed P w s w' s' m'.
Proof.
  intros [? ? ? ? ? ?] Hf Hs Hk Hi. destruct (same_map_fields _ _ Hs) as [Eq Eb].
  split; [done|done|]. split; [by rewrite Eb|by apply (fr_cache _ _ _ _ Hf)|done|by rewrite Eq|done|by rewrite Eq].
Qed.

(** [dirtyUp] from an inner node that was put in place. *)
Lemma dirtyUp_from P w s t m X stack id x (Q : () → world * SHAMap → Prop) :
  (∀ l, P l (seq_ s)) → seq_ s ≠ 0 → mDepth id = length stack → (length stack < 64)%nat →
  ctx ty P (backed_ s) w (seq_ s) X t m stack → (stack ≠ [] → last (stack.*1) = Some (root_ s)) →
  (∀ j, (0 < j ≤ length stack)%nat → (2 ≤ size (at_ j t m))%nat) →
  inner_at ty (both P (avoids (stack.*1) (seq_ s))) (backed_ s) w (63 - length stack) x (at_ (length stack) t m) →
  (∀ w' s', frame ty (seq_ s) w w' → same_map s s' →
     inner_at ty P (backed_ s) w' 63 (root_ s') (at_ 0 t m) → Q () (w', s')) →
  wp (dirtyUp stack t x) (w, moved s id x) Q.
Proof.
  intros HP Hq Hid Hlen Hctx Hlast Hsz Hi HQ. destruct stack as [|e stack].
  - apply wp_ret, HQ; [apply frame_refl|apply moved_same|]. unfold moved, isRoot. rewrite Hid. simpl.
    eapply inner_at_transfer; [done| |exact Hi]. intros l nd Hl [? _]. done.
  - assert (moved s id x = s) as -> by (unfold moved, isRoot; by rewrite Hid).
    eapply (dirtyUp_ok ty P w s t m X); [done|done|done|lia|done|by apply Hlast| | |done].
    + intros j Hj. apply Hsz. lia.
    + apply rep_unfold. right. exists (63 - length (e :: stack))%nat.
      split; [lia|]. split; [apply Hsz; simpl; lia|done].
Qed.

Lemma leaf_rep P A w n l it sq :
  heap w !! l = Some (Leaf (new_leaf it ty sq)) → P l sq → rep ty P A w n l {[key it := it]}.
Proof.
  intros Hl HP. apply rep_unfold. left. unfold new_leaf, leaf_updateHash in Hl. cbn [l_hash mType mItem l_seq] in Hl.
  destruct (Z.eqb_spec (leaf_hash ty it) 0) as [E|E]; simpl in Hl; eexists; (split; [exact Hl|]); done.
Qed.

(** The end of a path that is an inner node. *)
Lemma end_ctx P A w root t m stack l id q :
  keys_ok m → path ty P A w root t m stack l → mDepth id = length stack → (length stack < 64)%nat →
  inner_at ty P A w (63 - length stack) l (at_ (length stack) t m) →
  ((0 < length stack)%nat → (2 ≤ size (at_ (length stack) t m))%nat) →
  ctx ty P A w q (l :: stack.*1) t m ((l, id) :: stack).
Proof.
  intros Hm Hp Hid Hd Hi Hs.
  assert (∀ d x, x ∈ l :: stack.*1 → on_way w t m d x) as Hway.
  { intros d x [->|Hx]%elem_of_cons; [left; eauto|by eapply path_on_way]. }
  split; [done|]. split; [done|]. split; [by left|]. split.
  { destruct stack as [|e stack]; [apply not_elem_of_nil|].
    eapply (path_fresh _ _ _ _ _ _ _ _ (length (e :: stack))); [done|done|done|simpl; lia|done|done|apply Hs; simpl; lia]. }
  split.
  - destruct Hi as (i & Hpi & _ & Hi). exists i. split; [done|]. split; [apply Hi|].
    intros b Hb Hne. eapply off_branch; [done|done|done|done| |done]. auto.
  - eapply path_ctx; [done|done| |auto]. intros p Hin. by right.
Qed.

Lemma size_insert m t it : (size m ≤ size (<[t := it]> m))%nat.
Proof. rewrite map_size_insert. destruct (m !! t); simpl; lia. Qed.

Lemma add_inner_ok P w s m it l id stack x l2 i (Q : () → world * SHAMap → Prop) :
  let t := key it in
  inv ty P w s m → mDepth id = length stack → path ty P (backed_ s) w (root_ s) t m stack l →
  (length stack < 64)%nat → inner_at ty P (backed_ s) w (63 - length stack) l (at_ (length stack) t m) →
  ((0 < length stack)%nat → (2 ≤ size (at_ (length stack) t m))%nat) →
  at_ (S (length stack)) t m = ∅ → heap w !! l = Some (Inner i) → heap w !! l2 = None →
  taken s (put w l2 (Leaf (new_leaf it ty (seq_ s)))) l x →
  (∀ w' s', frame ty (seq_ s) w w' → same_map s s' →
     inner_at ty P (backed_ s) w' 63 (root_ s') (at_ 0 t (<[t := it]> m)) → Q () (w', s')) →
  wp (dirtyUp stack t x)
    (put (put w l2 (Leaf (new_leaf it ty (seq_ s)))) x
       (Inner (setChild (reseq i (seq_ s)) (nib (length stack) t) (Some l2))), moved s id x) Q.
Proof.
  intros t Hinv Hid Hp Hd Hi Hs He Hl Hl2 Hx HQ. pose proof Hinv as [_ _ Hm Hq HP0 HPq].
  set (w2 := put w l2 _) in *.
  assert (grows ty w w2) as Hg by (by eapply grows_own; [|apply new_leaf_seq|]).
  pose proof (end_ctx P (backed_ s) w2 (root_ s) t m stack l id (seq_ s) Hm) as Hctx.
  specialize (Hctx (path_grows _ _ _ _ _ _ _ _ _ _ Hg HP0 Hp) Hid Hd (gr_inner _ _ _ Hg _ _ _ _ _ HP0 Hi) Hs).
  apply (ctx_same_off _ _ _ _ _ _ _ (<[t := it]> m)) in Hctx; [|apply same_off_insert].
  assert (l2 ∉ l :: stack.*1) as Hnew.
  { intros [->|Hin]%elem_of_cons; [congruence|].
    destruct (path_in _ _ _ _ _ _ _ _ _ Hp Hin) as (j & _ & _ & (i' & Hi' & _)). congruence. }
  destruct (ctx_relink ty P (backed_ s) w2 (seq_ s) (l :: stack.*1) t (<[t := it]> m) l id stack i x (Some l2))
    as (Hin & Hctx' & Hxr); [done| |done|done|by eapply taken_ours|destruct Hx as [[-> _]|?]; auto| |].
  { simpl. rewrite lookup_insert_ne; [done|]. intros ->. congruence. }
  { rewrite at_insert, He. apply (leaf_rep _ _ _ _ _ _ (seq_ s)); [apply fresh_lookup_put|].
    split; [done|]. by intros [? _]. }
  eapply (dirtyUp_from _ _ _ _ (<[t := it]> m)); [done|done|done|done|done| | |done|].
  - by eapply path_last.
  - intros j Hj. rewrite at_insert. etrans; [|apply size_insert].
    destruct (decide (j = length stack)) as [->|]; [apply Hs; lia|]. eapply path_size; [done|lia].
  - intros w' s' Hf. apply HQ. eapply frame_trans; [by apply grows_frame|].
    eapply frame_trans; [|done]. apply frame_put; [done|by eapply taken_ours|done].
Qed.

(** ** Splitting a leaf *)

(** The two items that are below the position of the leaf from now on. *)
Definition pair_of (it other : SHAMapItem) : content := <[key it := it]> {[key other := other]}.

Lemma pair_size it other : key it ≠ key other → size (pair_of it other) = 2%nat.
Proof.
  intros Hne. unfold pair_of. rewrite map_size_insert_None, map_size_singleton; [done|].
  by apply lookup_singleton_ne.
Qed.

Lemma pair_sub d b it other :
  sub d b (pair_of it other) =
    if decide (nib d (key it) = b) then
      if decide (nib d (key other) = b) then pair_of it other else {[key it := it]}
    else if decide (nib d (key other) = b) then {[key other := other]} else ∅.
Proof.
  unfold pair_of. destruct (decide (nib d (key it) = b)) as [<-|Hne].
  - rewrite sub_insert. destruct (decide (nib d (key other) = nib d (key it))) as [E|E].
    + by rewrite <- E, sub_singleton.
    + by rewrite sub_singleton_ne.
  - rewrite sub_insert_ne by done. destruct (decide _) as [<-|E]; [apply sub_singleton|by apply sub_singleton_ne].
Qed.

Lemma new_inner_empty q b : (b < 16)%nat →
  isEmptyBranch (new_inner q) b = true ∧ getChild (new_inner q) b = None ∧ getChildHash (new_inner q) b = 0.
Proof.
  intros Hb. split; [done|]. unfold getChild, getChildHash, new_inner. cbn [mChildren mHashes].
  rewrite !lookup_replicate_2 by lia. done.
Qed.

Lemma new_inner_shape q : shape_ok (new_inner q).
Proof. by split. Qed.

(** A new inner node on the stack: its branches are empty. *)
Lemma ctx_new P A w q X t m stack x id :
  ctx ty P A w q X t m stack → mDepth id = length stack → (length stack < 64)%nat →
  x ∈ X → x ∉ stack.*1 → heap w !! x = Some (Inner (new_inner q)) →
  (∀ b, b ≠ nib (length stack) t → sub (length stack) b (at_ (length stack) t m) = ∅) →
  ctx ty P A w q X t m ((x, id) :: stack).
Proof.
  intros Hctx Hid Hd HX Hni Hx Hoff. split; [done|]. split; [done|]. split; [done|]. split; [done|].
  split; [|done]. exists (new_inner q). split; [done|]. split; [apply new_inner_shape|].
  intros b Hb Hne. rewrite Hoff by done. destruct (new_inner_empty q b Hb) as (? & ? & ?).
  split; [by rewrite bool_decide_eq_true_2|done|done].
Qed.

Lemma split_leaf_ok P w s it other m fuel x id stack X (Q : loc * SHAMapNodeID * Stack → world * SHAMap → Prop) :
  let t := key it in
  (∀ l, P l 0) → seq_ s ≠ 0 → key_ok t → key_ok (key other) → t ≠ key other →
  ctx ty P (backed_ s) w (seq_ s) X t m stack → mDepth id = length stack → (length stack ≤ 64)%nat →
  fuel = (64 - length stack)%nat → at_ (length stack) t m = pair_of it other →
  x ∈ X → x ∉ stack.*1 → heap w !! x = Some (Inner (new_inner (seq_ s))) →
  (∀ w' x' id' stack' X', grows ty w w' → ctx ty P (backed_ s) w' (seq_ s) X' t m stack' →
     mDepth id' = length stack' → (length stack ≤ length stack' < 64)%nat →
     (∃ pre, stack' = pre ++ stack) →
     (∀ j, (length stack ≤ j ≤ length stack')%nat → at_ j t m = pair_of it other) →
     nib (length stack') t ≠ nib (length stack') (key other) →
     x' ∈ X' → x' ∉ stack'.*1 → heap w' !! x' = Some (Inner (new_inner (seq_ s))) →
     Q (x', id', stack') (w', s)) →
  wp (split_leaf fuel x id t (key other) stack) (w, s) Q.
Proof.
  intros t HP Hq Ht Ho Hne. revert w x id stack X.
  induction fuel as [|fuel IH]; intros w x id stack X Hctx Hid Hlen Hf Hat HxX Hxs Hx HQ.
  { exfalso. apply Hne. apply (good_64 (pair_of it other)).
    - assert (length stack = 64%nat) as E by lia. rewrite E in Hat. split.
      + intros k [y Hy]. unfold pair_of in Hy.
        apply lookup_insert_Some in Hy as [[<- _]|[_ [<- _]%lookup_singleton_Some]]; done.
      + rewrite <- Hat. intros k k' [y [_ Hk]%lookup_at] [y' [_ Hk']%lookup_at]. congruence.
    - exists it. apply lookup_insert_eq.
    - exists other. unfold pair_of. rewrite lookup_insert_ne by done. apply lookup_singleton_eq. }
  cbn [split_leaf]. rewrite !selectBranch_nib by (rewrite Hid; lia). rewrite Hid.
  destruct (Nat.eqb_spec (nib (length stack) t) (nib (length stack) (key other))) as [E|E].
  2:{ apply wp_ret. apply (HQ w x id stack X); try done; [apply grows_refl|lia|by exists []|].
      intros j Hj. by replace j with (length stack) by lia. }
  apply wp_bind, wp_gets. cbn [snd]. apply wp_bind, wp_alloc. intros x' Hx'.
  set (w' := put w x' _). assert (grows ty w w') as Hg by (by eapply grows_own).
  assert (x' ∉ stack.*1) as Hx's.
  { intros Hin. destruct (ctx_in _ _ _ _ _ _ _ _ _ x' Hctx Hin) as [_ [? ?]]. congruence. }
  assert (x ≠ x') by congruence.
  assert (at_ (S (length stack)) t m = pair_of it other) as HatS.
  { rewrite <- at_S, Hat, pair_sub by lia. rewrite decide_True by done. by rewrite decide_True. }
  apply (IH w' x' _ ((x, id) :: stack) (x' :: X)); [| |simpl; lia|simpl; lia|done|by left| |apply fresh_lookup_put|].
  - apply ctx_new; [|done|lia|by right|done|simpl; by rewrite lookup_insert_ne|].
    + apply ctx_put; [by apply ours_fresh|by right|done|done].
    + intros b Hb. rewrite Hat, pair_sub. rewrite decide_False by done. rewrite decide_False by congruence. done.
  - rewrite getChildNodeID_depth, Hid. done.
  - intros [->|Hin]%elem_of_cons; [done|]. by apply Hx's.
  - intros w2 x2 id2 stack2 X2 Hg2 Hctx2 Hid2 Hlen2 [pre ->] Hat2 Hnib Hin2 Hni2 Hx2.
    apply (HQ w2 x2 id2 (pre ++ (x, id) :: stack) X2); try done.
    + by eapply grows_trans.
    + simpl in Hlen2. lia.
    + exists (pre ++ [(x, id)]). by rewrite <- app_assoc.
    + intros j Hj. destruct (decide (j = length stack)) as [->|]; [done|]. apply Hat2. simpl. lia.
Qed.

(** The inner node that gets the two leaves. *)
Lemma two_leaves_ok P A w q it other x d l1 l2 X :
  let t := key it in
  shape_ok (new_inner q) → q ≠ 0 → (d < 64)%nat → (∀ l, P l q) →
  heap w !! x = Some (Inner (new_inner q)) → heap w !! l1 = None → heap w !! l2 = None → l1 ≠ l2 →
  (∀ y, y ∈ X → is_Some (heap w !! y)) → x ∉ X →
  nib d t ≠ nib d (key other) →
  inner_at ty (both P (avoids X q)) A
    (put (put (put w l1 (Leaf (new_leaf it ty q))) l2 (Leaf (new_leaf other ty q))) x
       (Inner (setChild (setChild (new_inner q) (nib d t) (Some l1)) (nib d (key other)) (Some l2))))
    (63 - d) x (pair_of it other).
Proof.
  intros t Hsh Hq Hd HP Hx Hl1 Hl2 Hne HX HxX Hnib.
  set (w2 := put (put w l1 _) l2 _). set (i1 := setChild (new_inner q) (nib d t) (Some l1)).
  change (setChild i1 (nib d (key other)) (Some l2)) with (setChild (reseq i1 q) (nib d (key other)) (Some l2)).
  assert (∀ y, heap w !! y = None → y ∉ X) as HnX. { intros y Hy Hin. destruct (HX y Hin). congruence. }
  assert (x ≠ l1 ∧ x ≠ l2) as [Hx1 Hx2] by (split; congruence).
  assert (∀ n l it', (l = l1 ∧ it' = it) ∨ (l = l2 ∧ it' = other) →
    rep ty (both P (avoids (x :: X) q)) A w2 n l {[key it' := it']}) as Hleaf.
  { intros n l it' Hl. apply (leaf_rep _ _ _ _ _ _ q).
    - destruct Hl as [[-> ->]|[-> ->]]; [|apply fresh_lookup_put].
      simpl. rewrite lookup_insert_ne by done. apply lookup_insert_eq.
    - split; [done|]. intros [[->|Hin]%elem_of_cons _].
      + destruct Hl as [[? _]|[? _]]; congruence.
      + destruct Hl as [[-> _]|[-> _]]; [by apply (HnX l1)|by apply (HnX l2)]. }
  apply (relink_inner ty (both P (avoids (x :: X) q))); [by apply shape_set, nib_lt|apply nib_lt| | | |done| |].
  - apply avoids_misses; [by left|]. intros nd. simpl. rewrite !lookup_insert_ne by done.
    rewrite Hx. by intros [= <-].
  - intros l sq [? Ha]. split; [done|]. eapply avoids_mono; [|exact Ha]. intros y Hy. by right.
  - split; [done|]. by intros [? _].
  - intros b Hb Hbne. replace (63 - (63 - d))%nat with d by lia. rewrite pair_sub.
    destruct (decide (nib d (key other) = b)) as [?|_]; [congruence|].
    destruct (decide (nib d (key it) = b)) as [<-|Hb1].
    + split; [unfold i1; rewrite isEmptyBranch_set; symmetry; apply bool_decide_eq_false_2| |].
      * intros E. by apply (map_non_empty_singleton (M := gmap Z) (key it) it).
      * intros E. exfalso. by apply (map_non_empty_singleton (M := gmap Z) (key it) it).
      * intros _. unfold i1. rewrite getChild_set by (rewrite (so_children _ Hsh); apply nib_lt).
        apply Hleaf. by left.
    + destruct (new_inner_empty q b Hb) as (E1 & E2 & E3).
      split; [unfold i1; rewrite isEmptyBranch_set_ne, E1 by done; symmetry; by apply bool_decide_eq_true_2| |done].
      unfold i1. by rewrite getChild_set_ne, getChildHash_set_ne by done.
  - replace (63 - (63 - d))%nat with d by lia. rewrite pair_sub. rewrite decide_False by done.
    rewrite decide_True by done. apply Hleaf. by right.
Qed.

Lemma frame_fresh w q l nd : heap w !! l = None → getSeq nd = q → q ≠ 0 → frame ty q w (put w l nd).
Proof. intros. by eapply grows_frame, grows_own. Qed.

(** The end of [addGiveItem] when a leaf was split. *)
Lemma add_leaves_ok P w s it other m x id stack X (Q : bool → world * SHAMap → Prop) :
  let t := key it in
  (∀ l, P l (seq_ s)) → seq_ s ≠ 0 → t ≠ key other →
  ctx ty P (backed_ s) w (seq_ s) X t m stack → mDepth id = length stack → (0 < length stack < 64)%nat →
  last (stack.*1) = Some (root_ s) →
  (∀ j, (0 < j < length stack)%nat → (2 ≤ size (at_ j t m))%nat) →
  at_ (length stack) t m = pair_of it other →
  nib (length stack) t ≠ nib (length stack) (key other) →
  x ∈ X → x ∉ stack.*1 → heap w !! x = Some (Inner (new_inner (seq_ s))) →
  (∀ w' s', frame ty (seq_ s) w w' → same_map s s' →
     inner_at ty P (backed_ s) w' 63 (root_ s') (at_ 0 t m) → Q true (w', s')) →
  wp (add_two it other ty x id stack) (w, s) Q.
Proof.
  intros t HP Hq Hne Hctx Hid Hd Hlast Hsz Hat Hnib HxX Hxs Hx HQ.
  apply wp_bind, wp_gets. cbn [snd]. rewrite !selectBranch_nib by (rewrite Hid; lia). rewrite Hid.
  apply wp_bind, wp_alloc. intros l1 Hl1. assert (x ≠ l1) by congruence.
  apply wp_bind. eapply wp_on_inner; [simpl; by rewrite lookup_insert_ne|].
  apply wp_bind, wp_alloc. intros l2 Hl2. simpl in Hl2.
  assert (x ≠ l2) by (intros <-; by rewrite lookup_insert_eq in Hl2). rewrite lookup_insert_ne in Hl2 by done.
  assert (l1 ≠ l2) by (intros <-; by rewrite lookup_insert_eq in Hl2). rewrite lookup_insert_ne in Hl2 by done.
  apply wp_bind. eapply wp_on_inner; [simpl; rewrite lookup_insert_ne by done; apply lookup_insert_eq|].
  rewrite (put_comm _ l2 x), put_put, (put_comm _ x l2) by done. apply wp_bind.
  set (w2 := put (put w l1 (Leaf (new_leaf it ty (seq_ s)))) l2 (Leaf (new_leaf other ty (seq_ s)))).
  assert (grows ty w w2) as Hg.
  { eapply grows_trans; [by eapply (grows_own ty w l1); [|apply new_leaf_seq|]|].
    eapply grows_own; [simpl; by rewrite lookup_insert_ne|apply new_leaf_seq|done]. }
  assert (ours (seq_ s) w2 x) as Hours.
  { intros nd. simpl. rewrite !lookup_insert_ne by done. rewrite Hx. by intros [= <-]. }
  assert (∀ y, y ∈ stack.*1 → is_Some (heap w !! y)) as Hdom.
  { intros y Hy. by apply (ctx_in _ _ _ _ _ _ _ _ _ y Hctx). }
  eapply (dirtyUp_ok ty P _ s t m); [done|done|by destruct stack; simpl in *; [lia|]|lia| |done|done| |].
  - apply ctx_put; [exact Hours| |done|].
    + left. right. right. exact HxX.
    + apply ctx_put; [by apply ours_fresh; simpl; rewrite lookup_insert_ne| | |].
      * right. simpl. by rewrite lookup_insert_ne.
      * intros Hin. destruct (Hdom l2 Hin). congruence.
      * apply ctx_put; [by apply ours_fresh|by right| |done]. intros Hin. destruct (Hdom l1 Hin). congruence.
  - apply rep_unfold. right. exists (63 - length stack)%nat. split; [lia|].
    rewrite Hat. split; [by rewrite pair_size|].
    apply two_leaves_ok; try done; lia.
  - intros w' s' Hf Hs Hi. apply wp_ret, HQ; [|done|done].
    eapply frame_trans; [by apply grows_frame|]. eapply frame_trans; [|done]. by apply frame_put.
Qed.

Lemma last_app_ne {B} (l1 l2 : list B) : l2 ≠ [] → last (l1 ++ l2) = last l2.
Proof. intros Hne. rewrite last_app. destruct (last l2) eqn:E; [done|]. by apply last_None in E. Qed.

Lemma add_leaf_ok P w s m it w2 x u id stack l (Q : bool → world * SHAMap → Prop) :
  let t := key it in
  inv ty P w s m → key_ok t → mDepth id = length stack → (0 < length stack)%nat →
  path ty P (backed_ s) w (root_ s) t m stack l →
  at_ (length stack) t m = {[key (mItem u) := mItem u]} → key (mItem u) ≠ t →
  grows ty w w2 → heap w2 !! x = Some (Leaf u) → l_seq u = seq_ s →
  (∀ w' s', frame ty (seq_ s) w w' → same_map s s' →
     inner_at ty P (backed_ s) w' 63 (root_ s') (at_ 0 t (<[t := it]> m)) → Q true (w', s')) →
  wp (add_below it ty x id stack) (w2, s) Q.
Proof.
  intros t Hinv Ht Hid Hd Hp Hat Hne Hg Hx Hu HQ. pose proof Hinv as [_ _ Hm Hq HP0 HPq].
  assert (key_ok (key (mItem u))) as Hok.
  { apply Hm. exists (mItem u). apply (lookup_at (length stack) t). rewrite Hat. apply lookup_singleton_eq. }
  assert (stack ≠ []) as Hs0 by (destruct stack; simpl in *; [lia|done]).
  apply (path_grows _ _ _ _ w2) in Hp; [|done|done].
  assert (length stack ≤ 64)%nat as Hlen.
  { destruct stack as [|[p pid] rest]; [done|]. destruct Hp as (_ & ? & _). simpl. lia. }
  apply wp_bind. eapply wp_deref; [done|]. apply wp_bind, wp_gets. cbn [snd]. rewrite Hu, Hid.
  apply wp_bind, wp_alloc. intros n0 Hn0. apply wp_bind.
  set (w3 := put w2 n0 (Inner (new_inner (seq_ s)))).
  assert (ctx ty P (backed_ s) w2 (seq_ s) (stack.*1) t (<[t := it]> m) stack) as Hctx.
  { eapply ctx_same_off; [apply same_off_insert|]. eapply path_ctx; [done|done|done|].
    intros y Hy. by eapply path_on_way. }
  assert (n0 ∉ stack.*1) as Hn0s.
  { intros Hin. destruct (ctx_in _ _ _ _ _ _ _ _ _ n0 Hctx Hin) as [_ [? ?]]. congruence. }
  eapply (split_leaf_ok P w3 s it (mItem u) (<[t := it]> m)); try done.
  - by apply ctx_put; [apply ours_fresh|right| |].
  - rewrite at_insert, Hat. done.
  - by left.
  - apply fresh_lookup_put.
  - intros w4 x4 id4 stack4 X4 Hg4 Hctx4 Hid4 Hlen4 [pre Hpre] Hat4 Hnib4 HxX Hxs Hx4.
    eapply (add_leaves_ok P w4 s it (mItem u) (<[t := it]> m)); try done; [lia| | |apply Hat4; lia|].
    + rewrite Hpre, fmap_app, last_app_ne by (by destruct stack). by eapply path_last.
    + intros j Hj. destruct (decide (j < length stack)%nat).
      * rewrite at_insert. etrans; [|apply size_insert]. eapply path_size; [done|lia].
      * rewrite Hat4 by lia. by rewrite pair_size.
    + intros w' s' Hf. apply HQ. eapply frame_trans; [by apply grows_frame|].
      eapply frame_trans; [by apply (frame_fresh w2 (seq_ s) n0 (Inner (new_inner (seq_ s))))|].
      eapply frame_trans; [by apply grows_frame|done].
Qed.

Lemma add_end_ok P w s m it l id stack x i w2 (Q : bool → world * SHAMap → Prop) :
  let t := key it in
  inv ty P w s m → mDepth id = length stack → path ty P (backed_ s) w (root_ s) t m stack l →
  (length stack < 64)%nat → inner_at ty P (backed_ s) w (63 - length stack) l (at_ (length stack) t m) →
  ((0 < length stack)%nat → (2 ≤ size (at_ (length stack) t m))%nat) →
  at_ (S (length stack)) t m = ∅ → heap w !! l = Some (Inner i) → taken s w l x →
  heap w2 !! x = Some (Inner (reseq i (seq_ s))) → (∀ y, y ≠ x → heap w2 !! y = heap w !! y) →
  (∀ nd, put w2 x nd = put w x nd) →
  (∀ w' s', frame ty (seq_ s) w w' → same_map s s' →
     inner_at ty P (backed_ s) w' 63 (root_ s') (at_ 0 t (<[t := it]> m)) → Q true (w', s')) →
  wp (add_below it ty x id stack) (w2, moved s id x) Q.
Proof.
  intros t Hinv Hid Hp Hd Hi Hs He Hl Hx Hx2 Hsame Hput HQ.
  apply wp_bind. eapply wp_deref; [done|]. apply wp_bind, wp_gets. cbn [snd].
  assert (seq_ (moved s id x) = seq_ s) as -> by (unfold moved; by destruct (isRoot id)).
  rewrite selectBranch_nib by (rewrite Hid; lia). rewrite Hid.
  apply wp_bind, wp_alloc. intros l2 Hl2. assert (x ≠ l2) as Hne by congruence.
  rewrite Hsame in Hl2 by done.
  apply wp_bind. eapply wp_on_inner; [simpl; by rewrite lookup_insert_ne|].
  rewrite (put_comm w2 l2 x), Hput, (put_comm w x l2) by done. apply wp_bind.
  eapply (add_inner_ok P w s m it); try done.
  destruct Hx as [[-> (nd & Hnd & Hq)]|Hf]; [left|right]; simpl.
  - split; [done|]. exists nd. by rewrite lookup_insert_ne.
  - by rewrite lookup_insert_ne.
Qed.

(** ** [addGiveItem] *)
Lemma addGiveItem_ok P w s m it isTransaction hasMeta (Q : bool → world * SHAMap → Prop) :
  let t := key it in
  inv ty P w s m → key_ok t → leaf_type isTransaction hasMeta = ty →
  (∀ w', is_Some (m !! t) → grows ty w w' → Q false (w', s)) →
  (∀ w' s', m !! t = None → changed P w s w' s' (<[t := it]> m) → Q true (w', s')) →
  wp (addGiveItem it isTransaction hasMeta) (w, s) Q.
Proof.
  intros t Hinv Ht Hty HQf HQt. apply wp_bind. eapply getStack_ok; [done|done|].
  intros w1 l id stack Hg Hid Hp Hend. pose proof (inv_grows _ _ _ _ _ _ Hinv Hg) as Hinv1.
  pose proof Hinv1 as [_ _ Hm Hq HP0 HPq].
  assert (keys_ok (<[t := it]> m)) as Hm' by (by apply keys_ok_insert).
  assert (∀ w' s', m !! t = None → frame ty (seq_ s) w1 w' → same_map s s' →
    inner_at ty P (backed_ s) w' 63 (root_ s') (at_ 0 t (<[t := it]> m)) → Q true (w', s')) as Hdone.
  { intros w' s' Hnone Hf Hs Hi. apply HQt; [done|]. rewrite at_0 in Hi by done.
    eapply changed_inv; [done| |done|done|done]. eapply frame_trans; [by apply grows_frame|done]. }
  destruct Hend as [(Hd & (u & Hl & HPl & Htyu & Hat & Hh))|(Hd & Hi & Hs & He)].
  - apply wp_bind. eapply wp_deref; [done|]. pose proof (at_singleton _ _ _ _ _ Hat) as Hmt.
    cbv zeta. fold t in Hmt, Hp, Hat |- *. rewrite Hty.
    destruct (Z.eqb_spec (key (mItem u)) t) as [E|E]; [apply wp_ret, HQf; [by rewrite Hmt|done]|].
    assert (isRoot id = false) as Hroot by (unfold isRoot; rewrite Hid; apply Nat.eqb_neq; lia).
    apply wp_bind. eapply wp_unshare; [exact Hl| |].
    + intros Hs. eapply (add_leaf_ok P w1 s m it w1 l u); try done; [apply grows_refl|auto].
    + intros x Hx. unfold moved. rewrite Hroot.
      eapply (add_leaf_ok P w1 s m it _ x (mkLeaf (l_hash u) (seq_ s) (mType u) (mItem u))); try done;
        [by eapply grows_own|apply fresh_lookup_put|auto].
  - fold t in He, Hp, Hi, Hs. assert (m !! t = None) as Hnone by (by rewrite <- (lookup_at_self (S (length stack))), He).
    pose proof Hi as (i & Hl & _). apply wp_bind. eapply wp_deref; [done|]. cbn beta iota zeta. rewrite Hty.
    apply wp_bind. eapply wp_unshare; [exact Hl| |].
    + intros Hs'. assert (moved s id l = s) as Em.
      { unfold moved, isRoot. destruct stack as [|e stack]; [|by rewrite Hid].
        destruct (mDepth id =? 0)%nat; [|done]. simpl in Hp. subst l. apply set_root_same. }
      rewrite <- Em. apply (add_end_ok P w1 s m it l id stack l i); try done; [left; eauto| |auto].
      rewrite <- Hs'. by rewrite reseq_same.
    + intros x Hx. apply (add_end_ok P w1 s m it l id stack x i); try done; [by right|apply fresh_lookup_put| | |auto].
      * intros y Hy. simpl. by rewrite lookup_insert_ne.
      * intros nd. apply put_put.
Qed.

End add.

End Add.

(** ** Updating an item *)

Import Add.

Module Update.

Section update.
Context `{Digest} (ty : TNType).
Implicit Types (m : content) (l c p x root : loc) (i : SHAMapInnerNode) (w : world) (s : SHAMap) (stack : Stack).
Implicit Types (P Q R : loc → Z → Prop) (X : list loc).

Lemma put_same w l nd : heap w !! l = Some nd → put w l nd = w.
Proof. intros Hl. unfold put, set_heap. rewrite insert_id by done. by destruct w. Qed.

(** [dirtyUp] from a leaf in the place of the one at the end of the path. *)
Lemma replace_leaf_ok P w s m it l u stack x (Q : () → world * SHAMap → Prop) :
  let t := key it in
  inv ty P w s m → path ty P (backed_ s) w (root_ s) t m stack l → (0 < length stack)%nat →
  leaf_at ty P w l (at_ (length stack) t m) → heap w !! l = Some (Leaf u) → key (mItem u) = t →
  taken s w l x →
  (∀ w' s', frame ty (seq_ s) w w' → same_map s s' →
     inner_at ty P (backed_ s) w' 63 (root_ s') (at_ 0 t (<[t := it]> m)) → Q () (w', s')) →
  wp (dirtyUp stack t x) (put w x (Leaf (mkLeaf (leaf_hash ty it) (seq_ s) ty it)), s) Q.
Proof.
  intros t Hinv Hp Hd Hleaf Hl Hk Hx HQ. pose proof Hinv as [_ _ Hm Hq HP0 HPq].
  assert (∀ p, p ∈ stack.*1 → ∃ i, heap w !! p = Some (Inner i)) as Hinn.
  { intros p Hin. destruct (path_in _ _ _ _ _ _ _ _ _ _ Hp Hin) as (j & _ & _ & (i & Hi & _)). eauto. }
  assert (length stack ≤ 64)%nat as Hlen.
  { destruct stack as [|[p pid] rest]; [simpl; lia|]. destruct Hp as (_ & ? & _). simpl. lia. }
  assert (x ∉ stack.*1) as Hxs.
  { intros Hin. destruct (Hinn x Hin). destruct Hx as [[-> _]|?]; congruence. }
  eapply (dirtyUp_ok ty P _ s t (<[t := it]> m) (x :: l :: stack.*1)); [done|done|by destruct stack; simpl in *; [lia|]|done| | | | |].
  - apply ctx_put; [by eapply taken_ours| |done|].
    + destruct Hx as [[-> _]|?]; [left; by left|by right].
    + eapply ctx_same_off; [apply same_off_insert|].
      eapply path_ctx; [done|done| |].
      * intros p Hin. by right.
      * intros y [->|Hy]%elem_of_cons; [|by eapply path_on_way]. right. exists P, (length stack). split; [lia|done].
  - eapply path_last; [done|]. by destruct stack; simpl in *; [lia|].
  - intros j Hj. rewrite at_insert. etrans; [|apply size_insert]. by eapply path_size.
  - rewrite at_insert. destruct Hleaf as (u' & Hl' & _ & _ & -> & _).
    assert (u' = u) as -> by congruence. rewrite Hk, insert_singleton_eq.
    apply rep_unfold. left. eexists. split; [apply fresh_lookup_put|]. split; [|done].
    split; [done|]. by intros [? _].
  - intros w' s' Hf. apply HQ. eapply frame_trans; [|done]. apply frame_put; [done|by eapply taken_ours|done].
Qed.

(** What is left when the leaf has been unshared. *)
Lemma update_leaf_ok P w s m it l u stack x w2 (Q : bool → world * SHAMap → Prop) :
  let t := key it in
  inv ty P w s m → path ty P (backed_ s) w (root_ s) t m stack l → (0 < length stack)%nat →
  leaf_at ty P w l (at_ (length stack) t m) → heap w !! l = Some (Leaf u) → key (mItem u) = t →
  (leaf_hash ty it = leaf_hash ty (mItem u) → it = mItem u) → l_hash u = leaf_hash ty (mItem u) →
  taken s w l x → grows ty w w2 → heap w2 !! x = Some (Leaf (mkLeaf (l_hash u) (seq_ s) ty (mItem u))) →
  (∀ nd, put w2 x nd = put w x nd) →
  (∀ w', it = mItem u → grows ty w w' → Q true (w', s)) →
  (∀ w' s', frame ty (seq_ s) w w' → same_map s s' →
     inner_at ty P (backed_ s) w' 63 (root_ s') (at_ 0 t (<[t := it]> m)) → Q true (w', s')) →
  wp (update_leaf it ty x stack) (w2, s) Q.
Proof.
  intros t Hinv Hp Hd Hleaf Hl Hk Hcoll Hh Hx Hg Hx2 Hput HQ1 HQ2.
  apply wp_bind. eapply wp_deref; [done|]. unfold setItem, leaf_updateHash. cbn [l_hash mType mItem l_seq].
  rewrite Hh in *. destruct (Z.eqb_spec (leaf_hash ty it) (leaf_hash ty (mItem u))) as [E|E]; apply wp_bind, wp_modify.
  - apply wp_ret, HQ1; [auto|]. rewrite (Hcoll E) in *. change (grows ty w (put w2 x (Leaf (mkLeaf (leaf_hash ty (mItem u)) (seq_ s) ty (mItem u))))).
    by rewrite put_same.
  - cbn [fst snd negb]. change (set_heap w2 _) with (put w2 x (Leaf (mkLeaf (leaf_hash ty it) (seq_ s) ty it))).
    rewrite Hput. apply wp_bind. eapply (replace_leaf_ok P w s m it l u); try done.
Qed.

(** ** [updateGiveItem]

    An item with the hash of the one it replaces is taken for the same. *)
Lemma updateGiveItem_ok P w s m it isTransaction hasMeta (Q : bool → world * SHAMap → Prop) :
  let t := key it in
  inv ty P w s m → key_ok t → leaf_type isTransaction hasMeta = ty →
  (∀ old, m !! t = Some old → leaf_hash ty it = leaf_hash ty old → it = old) →
  (∀ w', m !! t = None → grows ty w w' → Q false (w', s)) →
  (∀ w' s', is_Some (m !! t) → changed ty P w s w' s' (<[t := it]> m) → Q true (w', s')) →
  wp (updateGiveItem it isTransaction hasMeta) (w, s) Q.
Proof.
  intros t Hinv Ht Hty Hcoll HQf HQt. apply wp_bind. eapply getStack_ok; [done|done|]. fold t.
  intros w1 l id stack Hg Hid Hp Hend. pose proof (inv_grows _ _ _ _ _ _ Hinv Hg) as Hinv1.
  destruct Hend as [(Hd & Hleaf)|(Hd & Hi & Hs & He)].
  2:{ pose proof Hi as (i & Hl & _). apply wp_bind. eapply wp_deref; [done|]. apply wp_ret, HQf; [|done].
      by rewrite <- (lookup_at_self (S (length stack))), He. }
  pose proof Hleaf as (u & Hl & HPl & Htyu & Hat & Hh). pose proof (at_singleton _ _ _ _ _ Hat) as Hmt.
  apply wp_bind. eapply wp_deref; [done|]. cbn beta iota zeta. fold t. rewrite Hty.
  destruct (Z.eqb_spec (key (mItem u)) t) as [E|E]; cbn [negb]; [|by apply wp_ret, HQf].
  assert (isRoot id = false) as Hroot by (unfold isRoot; rewrite Hid; apply Nat.eqb_neq; lia).
  assert (∀ w' s', frame ty (seq_ s) w1 w' → same_map s s' →
    inner_at ty P (backed_ s) w' 63 (root_ s') (at_ 0 t (<[t := it]> m)) → Q true (w', s')) as Hdone.
  { intros w' s' Hf Hs Hi. apply HQt; [by rewrite Hmt|]. rewrite at_0 in Hi; [|by apply keys_ok_insert, Ht; apply Hinv|done].
    eapply changed_inv; [done| |done|by apply keys_ok_insert, Ht; apply Hinv|done].
    eapply frame_trans; [by apply grows_frame|done]. }
  assert (∀ w', it = mItem u → grows ty w1 w' → Q true (w', s)) as Hsame.
  { intros w' Hit Hg'. assert (grows ty w w') by (by eapply grows_trans).
    apply HQt; [by rewrite Hmt|]. rewrite insert_id by (by rewrite Hit).
    split; [by apply grows_frame|symmetry; apply set_root_same|by eapply inv_grows]. }
  apply wp_bind. eapply wp_unshare; [exact Hl| |].
  - intros Hs. eapply (update_leaf_ok P w1 s m it l u stack l w1); eauto; [left; eauto|apply grows_refl|].
    rewrite Hl, <- Hs, <- Htyu. by destruct u.
  - intros x Hx. unfold moved. rewrite Hroot.
    eapply (update_leaf_ok P w1 s m it l u stack x); eauto; [by right|by eapply grows_own; [|done|apply Hinv]| |intros; apply put_put].
    rewrite <- Htyu. apply fresh_lookup_put.
Qed.


End update.

End Update.
