(* ===== verification/SHAMapDelete.v ===== *)
(** * Deleting an item

    Above the leaf that goes away, inner nodes that are left with one item give
    way to a leaf, so the tree keeps the shape its items determine. *)

From S2P Require Import Prelude Serializer StateMonad SHAMapNode SHAMap.
From S2P Require Import SHAMapRep SHAMapRepFacts SHAMapGrow SHAMapWalk SHAMapModify SHAMapAdd.
Import Node SM Rep RepFacts Grow Walk Modify Add.
Open Scope prog_scope.

Module Delete.

(** ** Branches *)

Lemma sub_nonempty d (m : content) k : is_Some (m !! k) → sub d (nib d k) m ≠ ∅.
Proof. intros Hk He. apply (elem_sub d) in Hk. rewrite He in Hk. by destruct Hk. Qed.

Lemma sub_only d b (m : content) : (∀ b', (b' < 16)%nat → b' ≠ b → sub d b' m = ∅) → sub d b m = m.
Proof.
  intros Hb. apply sub_all. intros k Hk. destruct (decide (nib d k = b)) as [|Hne]; [done|].
  exfalso. apply (sub_nonempty d m k Hk). apply Hb; [apply nib_lt|done].
Qed.

Lemma sub_none d (m : content) : (∀ b, (b < 16)%nat → sub d b m = ∅) → m = ∅.
Proof. intros Hb. apply (sub_ext d). intros b Hlt. rewrite sub_empty. by apply Hb. Qed.

Lemma two_branches d b b' (m : content) :
  b ≠ b' → sub d b m ≠ ∅ → sub d b' m ≠ ∅ → (2 ≤ size m)%nat.
Proof.
  intros Hne (k & x & [Hk E]%lookup_sub)%map_choose (k' & x' & [Hk' E']%lookup_sub)%map_choose.
  apply two_items. exists k, k'. split; [|by eauto]. intros ->. congruence.
Qed.

Section delete.
Context `{Digest} (ty : TNType).
Implicit Types (m : content) (l c p x root : loc) (i : SHAMapInnerNode) (w : world) (s : SHAMap) (stack : Stack).
Implicit Types (P Q R : loc → Z → Prop) (X : list loc).

(** ** [onlyBelow] *)

(** What the loop has found on the branches it has seen. *)
Definition seen_branches P A w n m (bs : list nat) (next : option loc) : Prop :=
  match next with
  | None => ∀ b, (b < 16)%nat → b ∉ bs → sub (63 - n) b m = ∅
  | Some c => ∃ b0, (b0 < 16)%nat ∧ (b0 ∉ bs) ∧ rep ty P A w n c (sub (63 - n) b0 m) ∧
      ∀ b, (b < 16)%nat → b ∉ bs → b ≠ b0 → sub (63 - n) b m = ∅
  end.

Definition only_found P A w n m (r : option (option loc)) : Prop :=
  match r with
  | None => (2 ≤ size m)%nat
  | Some None => m = ∅
  | Some (Some c) => rep ty P A w n c m
  end.

Lemma only_child_ok P w s n l m bs next (Q : option (option loc) → world * SHAMap → Prop) :
  (∀ l, P l 0) → cache_ok w → inner_at ty P (backed_ s) w n l m →
  NoDup bs → (∀ b, b ∈ bs → (b < 16)%nat) → seen_branches P (backed_ s) w n m bs next →
  (∀ w' r, grows ty w w' → only_found P (backed_ s) w' n m r → Q r (w', s)) →
  wp (only_child l bs next) (w, s) Q.
Proof.
  intros HP. revert w next. induction bs as [|b bs IH]; intros w next Hc Hi Hnd Hlt Hseen HQ.
  { apply wp_ret, HQ; [apply grows_refl|]. destruct next as [c|]; simpl in *.
    - destruct Hseen as (b0 & Hb0 & _ & Hr & Hoff). rewrite (sub_only (63 - n) b0) in Hr; [done|].
      intros b' Hb' Hne. apply Hoff; [done|apply not_elem_of_nil|done].
    - apply (sub_none (63 - n)). intros b Hb. apply Hseen; [done|apply not_elem_of_nil]. }
  apply NoDup_cons in Hnd as [Hnb Hnd]. assert (b < 16)%nat as Hb by (apply Hlt; by left).
  assert (∀ b', b' ∈ bs → (b' < 16)%nat) as Hlt' by (intros b' ?; apply Hlt; by right).
  pose proof Hi as (i & Hl & _ & [_ Hbs _]). destruct (Hbs b Hb) as [E1 _ _].
  cbn [only_child]. apply wp_bind. eapply wp_deref_inner; [done|]. rewrite E1.
  destruct (bool_decide_reflect (sub (63 - n) b m = ∅)) as [He|He].
  - apply IH; try done. destruct next as [c|]; simpl in *.
    + destruct Hseen as (b0 & Hb0 & Hni & Hr & Hoff). apply not_elem_of_cons in Hni as [Hne Hni].
      exists b0. split; [done|]. split; [done|]. split; [done|]. intros b' Hb' Hni' Hne'.
      destruct (decide (b' = b)) as [->|]; [done|]. apply Hoff; [done|by apply not_elem_of_cons|done].
    + intros b' Hb' Hni'. destruct (decide (b' = b)) as [->|]; [done|]. apply Hseen; [done|by apply not_elem_of_cons].
  - destruct next as [c|]; simpl in Hseen.
    + destruct Hseen as (b0 & Hb0 & Hni & Hr & Hoff). apply not_elem_of_cons in Hni as [Hne Hni].
      apply wp_ret, HQ; [apply grows_refl|]. simpl. eapply (two_branches (63 - n) b0 b); [done|by eapply rep_nonempty|done].
    + apply wp_bind. eapply descendThrow_ptr_ok; [done|done|done|done|done|]. intros c w' Hg _ Hr.
      apply IH; try done; [by apply (gr_cache _ _ _ Hg)|by apply (gr_inner _ _ _ Hg)| |].
      * exists b. split; [done|]. split; [done|]. split; [done|]. intros b' Hb' Hni' Hne'.
        apply Hseen; [done|by apply not_elem_of_cons].
      * intros w2 r Hg2. apply HQ. by eapply grows_trans.
Qed.

Definition only_item m (r : option SHAMapItem) : Prop :=
  match r with Some it => m = {[key it := it]} | None => size m ≠ 1%nat end.

Lemma onlyBelow_inner P w s n l m fuel (Q : option SHAMapItem → world * SHAMap → Prop) :
  (∀ l, P l 0) → cache_ok w → inner_at ty P (backed_ s) w n l m →
  (∀ w' c (Q' : option SHAMapItem → world * SHAMap → Prop), cache_ok w' → rep ty P (backed_ s) w' n c m →
     (∀ w2 r, grows ty w' w2 → only_item m r → Q' r (w2, s)) → wp (onlyBelow fuel c) (w', s) Q') →
  (∀ w' r, grows ty w w' → only_item m r → Q r (w', s)) →
  wp (onlyBelow (S fuel) l) (w, s) Q.
Proof.
  intros HP Hc Hi IH HQ. pose proof Hi as (i & Hl & _). apply wp_bind. eapply wp_deref; [done|].
  apply wp_bind. eapply (only_child_ok P w s n l m); [done|done|done|apply NoDup_seq| | |].
  - intros b Hb%elem_of_seq. lia.
  - intros b Hb Hni. exfalso. apply Hni, elem_of_seq. lia.
  - intros w' [[c|]|] Hg Hf; simpl in Hf.
    + apply IH; [by apply (gr_cache _ _ _ Hg)|done|]. intros w2 r Hg2. apply HQ. by eapply grows_trans.
    + apply wp_ret, HQ; [done|]. rewrite Hf. simpl. by rewrite map_size_empty.
    + apply wp_ret, HQ; [done|]. simpl. lia.
Qed.

Lemma onlyBelow_rep P s n m fuel : (∀ l, P l 0) → (n ≤ fuel)%nat →
  ∀ w l (Q : option SHAMapItem → world * SHAMap → Prop), cache_ok w → rep ty P (backed_ s) w n l m →
  (∀ w' r, grows ty w w' → only_item m r → Q r (w', s)) → wp (onlyBelow fuel l) (w, s) Q.
Proof.
  intros HP. revert n. induction fuel as [|fuel IH]; intros n Hn w l Q Hc Hr HQ;
    apply rep_unfold in Hr as [(u & Hl & _ & _ & Hm & _)|(n' & -> & Hs & Hi)]; try lia.
  1,2: apply wp_bind; eapply wp_deref; [done|]; apply wp_ret, HQ; [apply grows_refl|done].
  eapply onlyBelow_inner; [done|done|done| |done]. intros w' c Q'. apply IH. lia.
Qed.

(** ** [pull_up] *)

Lemma branch_count_0 P A w n l m i :
  inner_at ty P A w n l m → heap w !! l = Some (Inner i) → getBranchCount i = 0%nat ↔ m = ∅.
Proof.
  intros (i' & Hl' & _ & [_ Hbs _]) Hl. assert (i' = i) as -> by congruence. split.
  - intros Hc%nil_length_inv. apply (sub_none (63 - n)). intros b Hb. destruct (Hbs b Hb) as [E1 _ _].
    destruct (isEmptyBranch i b) eqn:E; [symmetry in E1; by apply bool_decide_eq_true in E1|].
    assert (b ∈ filter (λ b, isEmptyBranch i b = false) (seq 0 16)) as Hin.
    { apply list_elem_of_filter. split; [done|]. apply elem_of_seq. lia. }
    rewrite Hc in Hin. by apply elem_of_nil in Hin.
  - intros ->. unfold getBranchCount. destruct (filter _ _) as [|b bs] eqn:E; [done|].
    assert (b ∈ filter (λ b, isEmptyBranch i b = false) (seq 0 16)) as Hin by (rewrite E; by left).
    apply list_elem_of_filter in Hin as [Hb Hin%elem_of_seq]. destruct (Hbs b ltac:(lia)) as [E1 _ _].
    rewrite sub_empty, Hb in E1. symmetry in E1. by apply bool_decide_eq_false in E1.
Qed.

Lemma branch_count_2 P A w n l m i :
  inner_at ty P A w n l m → heap w !! l = Some (Inner i) → (2 ≤ getBranchCount i)%nat → (2 ≤ size m)%nat.
Proof.
  intros (i' & Hl' & _ & [_ Hbs _]) Hl Hc. assert (i' = i) as -> by congruence. unfold getBranchCount in Hc.
  assert (NoDup (filter (λ b, isEmptyBranch i b = false) (seq 0 16))) as Hnd by apply NoDup_filter, NoDup_seq.
  assert (∀ b, b ∈ filter (λ b, isEmptyBranch i b = false) (seq 0 16) → sub (63 - n) b m ≠ ∅) as Hin.
  { intros b [E Hb%elem_of_seq]%list_elem_of_filter. destruct (Hbs b ltac:(lia)) as [E1 _ _].
    rewrite E in E1. symmetry in E1. by apply bool_decide_eq_false in E1. }
  destruct (filter _ _) as [|b [|b' bs]]; simpl in Hc; [lia|lia|].
  apply NoDup_cons in Hnd as [Hni _]. apply not_elem_of_cons in Hni as [Hne _].
  eapply (two_branches (63 - n) b b'); [done|apply Hin; by left|apply Hin; right; by left].
Qed.

(** What is put in the place of a position: nothing, or a tree. *)
Definition placed P A w (n : nat) m (c : option loc) : Prop :=
  match c with Some c => rep ty P A w n c m | None => m = ∅ end.

Lemma both_avoids_zero P Y q l : q ≠ 0 → (∀ l, P l 0) → both P (avoids Y q) l 0.
Proof. intros Hq HP. split; [done|]. intros [_ ?]. congruence. Qed.

(** A leaf in the place of the inner node. *)
Lemma pull_leaf_ok P w0 w s t m it rest X (Q : option loc → world * SHAMap → Prop) :
  let P' := both P (avoids (rest.*1) (seq_ s)) in
  (∀ l, P l (seq_ s)) → seq_ s ≠ 0 → (length rest < 64)%nat → at_ (length rest) t m = {[key it := it]} →
  ctx ty P (backed_ s) w (seq_ s) X t m rest → frame ty (seq_ s) w0 w →
  (∀ w' X' prev, frame ty (seq_ s) w0 w' → ctx ty P (backed_ s) w' (seq_ s) X' t m rest →
     placed P' (backed_ s) w' (64 - length rest) (at_ (length rest) t m) prev → Q prev (w', s)) →
  wp (let! l := alloc (Leaf (new_leaf it ty (seq_ s))) in ret (Some l)) (w, s) Q.
Proof.
  intros P' HP Hq Hd Hat Hctx Hf HQ. apply wp_bind, wp_alloc. intros l Hl. apply wp_ret.
  assert (l ∉ rest.*1) as Hlr.
  { intros Hin. destruct (ctx_in _ _ _ _ _ _ _ _ _ l Hctx Hin) as [_ [? ?]]. congruence. }
  eapply (HQ _ (l :: X)).
  - eapply frame_trans; [done|by apply frame_fresh; [|apply new_leaf_seq|]].
  - by apply ctx_put; [apply ours_fresh|right|..].
  - rewrite Hat. apply (leaf_rep _ _ _ _ _ _ _ (seq_ s)); [apply fresh_lookup_put|].
    split; [done|]. by intros [? _].
Qed.

Lemma pull_up_ok P w s t m x i rest X (Q : option loc → world * SHAMap → Prop) :
  let P' := both P (avoids (rest.*1) (seq_ s)) in
  (∀ l, P l 0) → (∀ l, P l (seq_ s)) → seq_ s ≠ 0 → cache_ok w →
  ctx ty P (backed_ s) w (seq_ s) X t m rest → (length rest < 64)%nat → x ∈ X → x ∉ rest.*1 →
  heap w !! x = Some (Inner i) → i_seq i = seq_ s →
  inner_at ty P' (backed_ s) w (63 - length rest) x (at_ (length rest) t m) →
  (∀ w' X' prev, frame ty (seq_ s) w w' → ctx ty P (backed_ s) w' (seq_ s) X' t m rest →
     placed P' (backed_ s) w' (64 - length rest) (at_ (length rest) t m) prev → Q prev (w', s)) →
  wp (pull_up x ty) (w, s) Q.
Proof.
  intros P' HP0 HPq Hq Hc Hctx Hd HxX Hxr Hx Hs Hi HQ.
  assert (∀ w', grows ty w w' → (2 ≤ size (at_ (length rest) t m))%nat → Q (Some x) (w', s)) as Hkeep.
  { intros w' Hg Hsz. apply (HQ w' X); [by apply grows_frame|by eapply ctx_grows|]. simpl.
    apply rep_unfold. right. exists (63 - length rest)%nat. split; [lia|]. split; [done|].
    apply (gr_inner _ _ _ Hg); [intros; by apply both_avoids_zero|done]. }
  apply wp_bind. eapply wp_deref_inner; [done|]. cbn beta zeta.
  destruct (Nat.eqb_spec (getBranchCount i) 0) as [E|E].
  { apply wp_ret, (HQ w X); [apply frame_refl|done|]. simpl. by rewrite <- branch_count_0. }
  destruct (Nat.eqb_spec (getBranchCount i) 1) as [E1|E1].
  2:{ apply wp_ret, Hkeep; [apply grows_refl|]. eapply branch_count_2; [done|done|lia]. }
  apply wp_bind. eapply (onlyBelow_inner P'); [intros; by apply both_avoids_zero|done|done| |].
  { intros w' c Q' Hc'. apply onlyBelow_rep; [intros; by apply both_avoids_zero|lia|done]. }
  intros w1 [it|] Hg Hit; simpl in Hit.
  2:{ apply wp_ret, Hkeep; [done|]. pose proof (branch_count_0 _ _ _ _ _ _ _ Hi Hx) as H0.
      destruct (content_cases (at_ (length rest) t m)) as [He|[(k & y & He)|?]]; [tauto| |done].
      rewrite He, map_size_singleton in Hit. done. }
  destruct (gr_node _ _ _ Hg _ _ Hx) as ([i1|] & Hx1 & Hle); [|done].
  assert (i_seq i1 = seq_ s) as Hs1 by (rewrite <- Hs; symmetry; apply Hle).
  apply wp_bind. eapply wp_deref_inner; [done|]. rewrite Hs1. apply wp_bind.
  apply (ctx_grows _ _ _ _ w1) in Hctx; [|done..]. pose proof (grows_frame ty (seq_ s) _ _ Hg) as Hf.
  destruct (filter _ _) as [|b bs]; [apply wp_ret; by eapply pull_leaf_ok|].
  eapply wp_on_inner; [done|].
  assert (ours (seq_ s) w1 x) as Hours. { intros nd Hnd. assert (nd = Inner i1) as -> by congruence. done. }
  eapply pull_leaf_ok; [done|done|done|done| | |done].
  - by apply ctx_put; [done|left|done|].
  - eapply frame_trans; [done|]. by apply frame_put.
Qed.

(** ** [delItem] *)

Lemma moved_above s id x (rest : Stack) : mDepth id = length rest → rest ≠ [] → isRoot id = false ∧ moved s id x = s.
Proof. intros Hid Hr. unfold moved, isRoot. rewrite Hid. by destruct rest. Qed.

Lemma del_up_ok P w s t m X stack prev (Q : () → world * SHAMap → Prop) :
  (∀ l, P l 0) → (∀ l, P l (seq_ s)) → seq_ s ≠ 0 → cache_ok w → stack ≠ [] →
  ctx ty P (backed_ s) w (seq_ s) X t m stack → last (stack.*1) = Some (root_ s) →
  placed (both P (avoids (stack.*1) (seq_ s))) (backed_ s) w (64 - length stack) (at_ (length stack) t m) prev →
  (∀ w' s', frame ty (seq_ s) w w' → same_map s s' →
     inner_at ty P (backed_ s) w' 63 (root_ s') (at_ 0 t m) → Q () (w', s')) →
  wp (del_up stack t ty prev) (w, s) Q.
Proof.
  intros HP0 HP Hq. revert w X prev. induction stack as [|[p id] rest IH]; [done|].
  intros w X prev Hc _ Hctx Hroot Hprev HQ. cbn [del_up].
  pose proof Hctx as (Hid & Hd & HpX & Hnd & (i & Hp & Hsh & Hoff) & Hr).
  rewrite selectBranch_nib by (rewrite Hid; lia). rewrite Hid. eapply wp_relink; [done| |].
  { unfold isRoot. rewrite Hid. intros E%Nat.eqb_eq. apply nil_length_inv in E as ->. simpl in Hroot. congruence. }
  intros x Hx. destruct (ctx_relink ty P (backed_ s) w (seq_ s) X t m p id rest i x prev) as (Hin & Hctx' & Hxr);
    [done|done|done|done|by eapply taken_ours|destruct Hx as [[-> _]|?]; auto|by destruct prev|].
  set (w' := put _ _ _) in *.
  assert (frame ty (seq_ s) w w') as Hfr by (apply frame_put; [done|by eapply taken_ours|done]).
  destruct rest as [|e rest].
  - unfold moved, isRoot. rewrite Hid. cbn. apply wp_ret. apply HQ; [done|done|].
    eapply inner_at_transfer; [done| |exact Hin]. intros l nd Hl [? _]. done.
  - destruct (moved_above s id x (e :: rest) Hid ltac:(done)) as [-> ->]. cbn [negb]. apply wp_bind.
    eapply (pull_up_ok P w' s t m x); [done|done|done|by apply (fr_cache _ _ _ _ Hfr)|done|done|by left|done
      |apply fresh_lookup_put|done|done|].
    intros w2 X2 prev2 Hf2 Hctx2 Hprev2. assert (frame ty (seq_ s) w w2) as Hf by (by eapply frame_trans).
    eapply (IH w2 X2); [by apply (fr_cache _ _ _ _ Hf)|done|done|done|done|].
    intros w3 s3 Hf3. apply HQ. by eapply frame_trans.
Qed.

Lemma delItem_ok P w s m t (Q : bool → world * SHAMap → Prop) :
  inv ty P w s m → key_ok t →
  (∀ w', m !! t = None → grows ty w w' → Q false (w', s)) →
  (∀ w' s', is_Some (m !! t) → changed ty P w s w' s' (delete t m) → Q true (w', s')) →
  wp (delItem t) (w, s) Q.
Proof.
  intros Hinv Ht HQf HQt. apply wp_bind. eapply getStack_ok; [done|done|].
  intros w1 l id stack Hg Hid Hp Hend. pose proof (inv_grows _ _ _ _ _ _ Hinv Hg) as Hinv1.
  destruct Hend as [(Hd & Hleaf)|(Hd & Hi & Hs & He)].
  2:{ pose proof Hi as (i & Hl & _). apply wp_bind. eapply wp_deref; [done|]. apply wp_ret, HQf; [|done].
      by rewrite <- (lookup_at_self (S (length stack))), He. }
  pose proof Hleaf as (u & Hl & HPl & Htyu & Hat & Hh). pose proof (at_singleton _ _ _ _ _ Hat) as Hmt.
  apply wp_bind. eapply wp_deref; [done|]. cbn beta iota zeta.
  destruct (Z.eqb_spec (key (mItem u)) t) as [E|E]; cbn [negb]; [|by apply wp_ret, HQf].
  pose proof Hinv1 as [_ Hc Hm Hq HP0 HPq]. assert (stack ≠ []) as Hne by (by destruct stack; simpl in *; [lia|]).
  assert (keys_ok (delete t m)) as Hm' by (by apply keys_ok_delete).
  rewrite Htyu. apply wp_bind.
  eapply (del_up_ok P w1 s t (delete t m) (stack.*1)); [done|done|done|done|done| |by eapply path_last| |].
  - eapply ctx_same_off; [apply same_off_delete|]. eapply path_ctx; [done|done|done|].
    intros y Hy. by eapply path_on_way.
  - simpl. rewrite at_delete, Hat, E. apply delete_singleton_eq.
  - intros w' s' Hf Hs Hi. apply wp_ret, HQt; [by rewrite Hmt|]. rewrite at_0 in Hi by done.
    eapply changed_inv; [done| |done|done|done]. eapply frame_trans; [by apply grows_frame|done].
Qed.

End delete.

End Delete.
