(* ===== verification/SHAMapIter.v ===== *)
(** * Iteration over a SHAMap

    The leaves of a radix tree are in the order of their keys: iteration gives
    the items in that order, and [upper_bound] the first item after a key. *)

From Stdlib Require Import Sorted.
From S2P Require Import Prelude Serializer StateMonad SHAMapNode SHAMap.
From S2P Require Import SHAMapRep SHAMapRepFacts SHAMapGrow SHAMapWalk SHAMapDelete.
Import Node SM Rep RepFacts Grow Walk Delete.
Open Scope prog_scope.

Module Iter.

(** ** The order of keys by digits *)

Lemma nib_order d k k' : (d < 64)%nat → pre d k = pre d k' → (nib d k < nib d k')%nat → k < k'.
Proof.
  intros Hd Hp Hn. destruct (Z.lt_ge_cases k k') as [|Hle]; [done|].
  apply (pre_le (S d)) in Hle. rewrite !pre_S in Hle by done. lia.
Qed.

Lemma pre_order d k k' : pre d k < pre d k' → k < k'.
Proof. intros Hp. destruct (Z.lt_ge_cases k k') as [|Hle]; [done|]. apply (pre_le d) in Hle. lia. Qed.

(** The least key, and the least key after another. *)
Definition least (m : content) (k : Z) : Prop := is_Some (m !! k) ∧ ∀ j, is_Some (m !! j) → k ≤ j.

Definition next_key (m : content) (k k' : Z) : Prop :=
  is_Some (m !! k') ∧ k < k' ∧ ∀ j, is_Some (m !! j) → k < j → k' ≤ j.

Definition no_next (m : content) (k : Z) : Prop := ∀ j, is_Some (m !! j) → j ≤ k.

Lemma at_pre d t t' m : pre d t = pre d t' → at_ d t m = at_ d t' m.
Proof. intros E. unfold at_. by rewrite E. Qed.

Lemma in_at d t m k : is_Some (at_ d t m !! k) ↔ is_Some (m !! k) ∧ pre d k = pre d t.
Proof.
  split.
  - intros [x [Hx Hp]%lookup_at]. eauto.
  - intros [[x Hx] Hp]. exists x. by apply lookup_at.
Qed.

Lemma in_sub d b (m : content) k : is_Some (sub d b m !! k) ↔ is_Some (m !! k) ∧ nib d k = b.
Proof.
  split.
  - intros [x [Hx Hp]%lookup_sub]. eauto.
  - intros [[x Hx] Hp]. exists x. by apply lookup_sub.
Qed.

(** ** The first branch *)

Lemma first_branch_some i n b :
  first_branch i n = Some b →
  (n ≤ b < 16)%nat ∧ isEmptyBranch i b = false ∧ ∀ b', (n ≤ b' < b)%nat → isEmptyBranch i b' = true.
Proof.
  unfold first_branch. remember (16 - n)%nat as len eqn:Hlen.
  assert (n + len ≤ 16 ∨ len = 0)%nat as Hle by lia. clear Hlen. revert n Hle.
  induction len as [|len IH]; intros n Hle; simpl; [done|]. destruct (decide (isEmptyBranch i n = false)) as [E|E].
  - rewrite filter_cons_True by done. intros [= <-]. split; [lia|]. split; [done|]. lia.
  - rewrite filter_cons_False by done. intros Hb. apply IH in Hb as (? & ? & Hn); [|lia].
    split; [lia|]. split; [done|]. intros b' Hb'. destruct (decide (b' = n)) as [->|]; [|apply Hn; lia].
    by destruct (isEmptyBranch i n).
Qed.

Lemma first_branch_none i n b : first_branch i n = None → (n ≤ b < 16)%nat → isEmptyBranch i b = true.
Proof.
  unfold first_branch. intros Hh Hb. destruct (isEmptyBranch i b) eqn:E; [done|].
  assert (b ∈ filter (λ b, isEmptyBranch i b = false) (seq n (16 - n))) as Hin.
  { apply list_elem_of_filter. split; [done|]. apply elem_of_seq. lia. }
  destruct (filter _ _); [by apply elem_of_nil in Hin|done].
Qed.

Section iter.
Context `{Digest} (ty : TNType).
Implicit Types (m : content) (l c p root : loc) (w : world) (s : SHAMap) (stack : Stack) (t k : Z).
Implicit Types (P : loc → Z → Prop) (i : SHAMapInnerNode) (d n b : nat).

Lemma path_prefix P A w root t t' m stack l :
  pre (length stack) t = pre (length stack) t' → path ty P A w root t m stack l → path ty P A w root t' m stack l.
Proof.
  revert l. induction stack as [|[p id] rest IH]; intros l; simpl; [done|].
  intros Hp (Hid & Hd & Hi & Hs & Hlk & Hr). destruct (proj1 (pre_S_eq _ _ _ Hd) Hp) as [Hp' Hn].
  rewrite <- (at_pre _ _ _ m Hp'), <- Hn. do 5 (split; [done|]). by apply IH.
Qed.

(** ** [firstBelow] *)

(** A stack that ends in the leaf of [k]. *)
Definition at_leaf P A w root m k (u : SHAMapTreeNode) stack : Prop :=
  ∃ l id rest, stack = (l, id) :: rest ∧ path ty P A w root k m rest l ∧
    leaf_at ty P w l (at_ (length rest) k m) ∧ (0 < length rest)%nat ∧
    heap w !! l = Some (Leaf u) ∧ key (mItem u) = k ∧ m !! k = Some (mItem u).

Lemma leaf_at_key P w l d t m u :
  leaf_at ty P w l (at_ d t m) → heap w !! l = Some (Leaf u) →
  m !! key (mItem u) = Some (mItem u) ∧ pre d (key (mItem u)) = pre d t ∧
  ∀ j, is_Some (at_ d t m !! j) → j = key (mItem u).
Proof.
  intros (u' & Hl' & _ & _ & Hat & _) Hl. assert (u' = u) as -> by congruence.
  assert (at_ d t m !! key (mItem u) = Some (mItem u)) as [? ?]%lookup_at by (rewrite Hat; apply lookup_singleton_eq).
  split; [done|]. split; [done|]. intros j [x Hj]. rewrite Hat in Hj. by apply lookup_singleton_Some in Hj as [? _].
Qed.

(** The least key of the first branch is the least of all. *)
Lemma least_first d t m b k :
  (d < 64)%nat → (∀ b', (b' < b)%nat → sub d b' (at_ d t m) = ∅) →
  least (sub d b (at_ d t m)) k → least (at_ d t m) k.
Proof.
  intros Hd Hbelow [[Hk Hn]%in_sub Hall]. split; [done|]. intros j Hj.
  destruct (decide (nib d j = b)) as [Ej|Ej]; [by apply Hall, in_sub|].
  assert (b < nib d j)%nat as Hlt.
  { destruct (decide (nib d j < b)%nat) as [Hlt|]; [|lia]. exfalso. by apply (sub_nonempty d (at_ d t m) j), Hbelow. }
  apply in_at in Hk as [_ Hpk]. apply in_at in Hj as [_ Hpj].
  apply Z.lt_le_incl, (nib_order d); [done|congruence|lia].
Qed.

(** Going down a branch that has items: one of its keys stands for the branch. *)
Lemma descend_branch P w s root t m l id rest b (Q : option loc → world * SHAMap → Prop) :
  let d := length rest in
  (∀ l, P l 0) → cache_ok w → keys_ok m → mDepth id = d → (d < 64)%nat → (b < 16)%nat →
  path ty P (backed_ s) w root t m rest l →
  inner_at ty P (backed_ s) w (63 - d) l (at_ d t m) → ((0 < d)%nat → (2 ≤ size (at_ d t m))%nat) →
  sub d b (at_ d t m) ≠ ∅ →
  (∀ w' c t', grows ty w w' → at_ (S d) t' m = sub d b (at_ d t m) →
     path ty P (backed_ s) w' root t' m ((l, id) :: rest) c → node_at ty P (backed_ s) w' t' m (S d) c →
     Q (Some c) (w', s)) →
  wp (descendThrow_ptr l b) (w, s) Q.
Proof.
  intros d HP Hc Hm Hid Hd Hb Hp Hi Hs Hne HQ.
  destruct (map_choose _ Hne) as (t' & x & [Hat Hnt]%lookup_sub). apply lookup_at in Hat as [Hx Hpre].
  pose proof (at_pre _ _ _ m Hpre) as Eat.
  eapply (descendThrow_ptr_ok ty P w s (63 - d)%nat); [done|done|done|lia| |].
  { by replace (63 - (63 - d))%nat with d by lia. }
  replace (63 - (63 - d))%nat with d by lia. intros c w' Hg Hlk Hr. apply (HQ w' c t'); [done| | |].
  - rewrite <- at_S by done. by rewrite Eat, Hnt.
  - simpl. fold d. rewrite Eat, Hnt. split; [done|]. split; [done|]. split; [by apply (gr_inner _ _ _ Hg)|].
    split; [done|]. split; [done|]. eapply path_prefix; [symmetry; exact Hpre|]. by eapply path_grows.
  - rewrite <- Eat, <- Hnt in Hr. by eapply node_at_child.
Qed.

Lemma branch_empty P A w d l t m i b :
  (d < 64)%nat → inner_at ty P A w (63 - d) l (at_ d t m) → heap w !! l = Some (Inner i) → (b < 16)%nat →
  isEmptyBranch i b = true ↔ sub d b (at_ d t m) = ∅.
Proof.
  intros Hd (i' & Hl' & _ & [_ Hbs _]) Hl Hb. assert (i' = i) as -> by congruence.
  destruct (Hbs b Hb) as [-> _ _]. replace (63 - (63 - d))%nat with d by lia. apply bool_decide_eq_true.
Qed.

Lemma firstBelow_ok P w s root t m fuel l id rest (Q : option SHAMapTreeNode * Stack → world * SHAMap → Prop) :
  (∀ l, P l 0) → cache_ok w → keys_ok m → mDepth id = length rest → fuel = (64 - length rest)%nat →
  path ty P (backed_ s) w root t m rest l → node_at ty P (backed_ s) w t m (length rest) l →
  at_ (length rest) t m ≠ ∅ →
  (∀ w' u stack, grows ty w w' → least (at_ (length rest) t m) (key (mItem u)) →
     at_leaf P (backed_ s) w' root m (key (mItem u)) u stack → Q (Some u, stack) (w', s)) →
  wp (firstBelow fuel l ((l, id) :: rest)) (w, s) Q.
Proof.
  intros HP Hc Hm. revert w t l id rest Hc.
  induction fuel as [|fuel IH]; intros w t l id rest Hc Hid Hf Hp Hn Hne HQ;
    destruct Hn as [(Hd & Hleaf)|(Hd & Hi & Hs)]; try lia.
  1,2: pose proof Hleaf as (u & Hl & _); destruct (leaf_at_key _ _ _ _ _ _ _ Hleaf Hl) as (Hu & Hpre & Hall);
    apply wp_bind; (eapply wp_deref; [done|]); apply wp_ret, HQ; [apply grows_refl| |];
    [split; [by apply in_at|intros j Hj; rewrite (Hall j Hj); lia]|];
    exists l, id, rest; split; [done|]; split; [by eapply path_prefix|];
    split; [by rewrite (at_pre _ _ _ m Hpre)|]; done.
  pose proof Hi as (i & Hl & _). set (d := length rest) in *.
  assert (∀ b, (b < 16)%nat → isEmptyBranch i b = true ↔ sub d b (at_ d t m) = ∅) as Hemp.
  { intros b Hb. by eapply branch_empty. }
  cbn [firstBelow]. apply wp_bind. eapply wp_deref; [done|]. cbn beta iota.
  destruct (first_branch i 0) as [b|] eqn:Eb.
  2:{ exfalso. apply Hne, (sub_none d). intros b Hb. apply Hemp; [done|]. eapply first_branch_none; [done|lia]. }
  apply first_branch_some in Eb as (Hb & Hnb & Hbelow).
  assert (sub d b (at_ d t m) ≠ ∅) as Hsub by (rewrite <- Hemp by lia; by rewrite Hnb).
  apply wp_bind. eapply (descend_branch P w s root t m l id rest b); try done; [lia|]. fold d.
  intros w' c t' Hg Eat Hp' Hn'. apply wp_bind, wp_ret.
  eapply (IH w' t'); [by apply (gr_cache _ _ _ Hg)|by rewrite getChildNodeID_depth, Hid|simpl; lia|done|done| |].
  { simpl. fold d. by rewrite Eat. }
  intros w2 u stack Hg2 Hu Hat. simpl in Hu. fold d in Hu. rewrite Eat in Hu.
  apply HQ; [by eapply grows_trans| |done].
  eapply least_first; [done| |exact Hu]. intros b' Hb'. apply Hemp; [lia|]. apply Hbelow. lia.
Qed.

(** ** Going up to the next item *)

(** The first key after [k] at a position on the way to [k]. *)
Lemma next_at d t m k' :
  is_Some (at_ d t m !! k') → t < k' → (∀ j, is_Some (at_ d t m !! j) → t < j → k' ≤ j) → next_key m t k'.
Proof.
  intros [Hk Hp]%in_at Hlt Hall. split; [done|]. split; [done|]. intros j Hj Htj.
  destruct (decide (pre d j = pre d t)) as [E|E]; [by apply Hall; [apply in_at|]|].
  apply Z.lt_le_incl, (pre_order d). assert (pre d t ≤ pre d j) by (apply pre_le; lia). lia.
Qed.

(** An iterator at the item of [k]. *)
Definition valid P A w root m k (it : const_iterator) : Prop :=
  ∃ u stack, it = mkIterator stack (Some (mItem u)) ∧ at_leaf P A w root m k u stack.

Lemma right_of_ok P w s root t m p id rest i (Q : option const_iterator → world * SHAMap → Prop) :
  let d := length rest in
  (∀ l, P l 0) → cache_ok w → keys_ok m → mDepth id = d → (d < 64)%nat →
  path ty P (backed_ s) w root t m rest p → heap w !! p = Some (Inner i) →
  inner_at ty P (backed_ s) w (63 - d) p (at_ d t m) → ((0 < d)%nat → (2 ≤ size (at_ d t m))%nat) →
  (∀ j, is_Some (at_ (S d) t m !! j) → j ≤ t) →
  (∀ w' it k, grows ty w w' → next_key m t k → valid P (backed_ s) w' root m k it → Q (Some it) (w', s)) →
  ((∀ j, is_Some (at_ d t m !! j) → j ≤ t) → Q None (w, s)) →
  wp (right_of t i p id ((p, id) :: rest)) (w, s) Q.
Proof.
  intros d HP Hc Hm Hid Hd Hp Hl Hi Hs Hbelow HQ1 HQ2. unfold right_of.
  rewrite selectBranch_nib by lia. rewrite Hid. fold d.
  assert (∀ b, (b < 16)%nat → isEmptyBranch i b = true ↔ sub d b (at_ d t m) = ∅) as Hemp.
  { intros b Hb. by eapply branch_empty. }
  assert (∀ j, is_Some (at_ d t m !! j) → t < j → (nib d t < nib d j)%nat) as Hright.
  { intros j Hj Htj. pose proof Hj as [Hj1 Hj2]%in_at. destruct (decide (nib d j = nib d t)) as [E|E].
    - exfalso. assert (j ≤ t); [|lia]. apply Hbelow, in_at. split; [done|]. by apply pre_S_eq.
    - destruct (decide (nib d j < nib d t)%nat) as [H'|]; [|lia]. apply (nib_order d) in H'; [lia|done|done]. }
  destruct (first_branch i (S (nib d t))) as [b|] eqn:Eb.
  - apply first_branch_some in Eb as (Hb & Hnb & Hlow).
    assert (sub d b (at_ d t m) ≠ ∅) as Hsub by (rewrite <- Hemp by lia; by rewrite Hnb).
    apply wp_bind. eapply (descend_branch P w s root t m p id rest b); try done; [lia|]. fold d.
    intros w' c t' Hg Eat Hp' Hn'. apply wp_bind, wp_ret. cbv zeta. rewrite getChildNodeID_depth, Hid. apply wp_bind.
    eapply (firstBelow_ok P w' s root t'); [done|by apply (gr_cache _ _ _ Hg)|done|by rewrite getChildNodeID_depth, Hid|done|done|done| |].
    { simpl. fold d. by rewrite Eat. }
    intros w2 u stack Hg2 [Hu Hall] Hat. simpl in Hu, Hall. fold d in Hu, Hall. rewrite Eat in Hu, Hall.
    apply wp_ret. apply (HQ1 _ _ (key (mItem u))); [by eapply grows_trans| |by exists u, stack].
    apply in_sub in Hu as [Hu Hub]. pose proof Hu as [_ Hpu]%in_at.
    apply (next_at d); [done|apply (nib_order d); [done|done|lia]|]. intros j Hj Htj.
    pose proof (Hright j Hj Htj). destruct (decide (nib d j = b)) as [E|E]; [by apply Hall, in_sub|].
    assert (b < nib d j)%nat as Hbj.
    { destruct (decide (nib d j < b)%nat); [|lia]. exfalso. apply (sub_nonempty d (at_ d t m) j Hj).
      apply Hemp; [apply nib_lt|]. apply Hlow. lia. }
    apply in_at in Hj as [_ Hpj]. apply Z.lt_le_incl, (nib_order d); [done|congruence|lia].
  - apply wp_ret, HQ2. intros j Hj. destruct (Z.le_gt_cases j t) as [|Htj]; [done|].
    pose proof (Hright j Hj ltac:(lia)). exfalso. apply (sub_nonempty d (at_ d t m) j Hj).
    apply Hemp; [apply nib_lt|]. eapply first_branch_none; [done|]. pose proof (nib_lt d j). lia.
Qed.

(** [next_up] and [upper_up] on inner nodes. *)
Definition goes_up (up : Z → Stack → prog const_iterator) : Prop :=
  (∀ t, up t [] = ret end_) ∧
  ∀ t p id rest i w s, heap w !! p = Some (Inner i) →
    up t ((p, id) :: rest) (w, s) =
      (let! r := right_of t i p id ((p, id) :: rest) in
       match r with Some it => ret it | None => up t rest end) (w, s).

Lemma next_up_goes : goes_up next_up.
Proof. split; [done|]. intros t p id rest i w s Hp. cbn [next_up]. unfold deref_inner, deref, gets, bind. simpl. by rewrite Hp. Qed.

Lemma upper_up_goes : goes_up upper_up.
Proof. split; [done|]. intros t p id rest i w s Hp. cbn [upper_up]. unfold deref, gets, bind. simpl. by rewrite Hp. Qed.

Lemma up_ok up P w s root t m stack l (Q : const_iterator → world * SHAMap → Prop) :
  goes_up up → (∀ l, P l 0) → cache_ok w → keys_ok m → key_ok t →
  path ty P (backed_ s) w root t m stack l → (∀ j, is_Some (at_ (length stack) t m !! j) → j ≤ t) →
  (∀ w' it k, grows ty w w' → next_key m t k → valid P (backed_ s) w' root m k it → Q it (w', s)) →
  (∀ w', grows ty w w' → no_next m t → Q end_ (w', s)) →
  wp (up t stack) (w, s) Q.
Proof.
  intros [Hnil Hcons] HP Hc Hm Ht. revert w l Hc. induction stack as [|[p id] rest IH]; intros w l Hc Hp Hbelow HQ1 HQ2.
  - rewrite Hnil. apply wp_ret, HQ2; [apply grows_refl|]. simpl in Hbelow. by rewrite at_0 in Hbelow.
  - destruct Hp as (Hid & Hd & Hi & Hs & _ & Hp). pose proof Hi as (i & Hl & _).
    unfold wp. rewrite (Hcons t p id rest i w s Hl). apply wp_bind.
    eapply (right_of_ok P w s root t m p id rest i); try done.
    intros Hle. by eapply IH.
Qed.

(** ** The iterator *)

Lemma least_at_0 m t k : keys_ok m → key_ok t → least (at_ 0 t m) k ↔ least m k.
Proof. intros Hm Ht. by rewrite at_0. Qed.

(** [begin] is at the first item. *)
Lemma begin_ok P w s m (Q : const_iterator → world * SHAMap → Prop) :
  inv ty P w s m →
  (m = ∅ → Q end_ (w, s)) →
  (∀ w' it k, grows ty w w' → least m k → valid P (backed_ s) w' (root_ s) m k it → Q it (w', s)) →
  wp begin_ (w, s) Q.
Proof.
  intros Hinv HQ0 HQ1. pose proof Hinv as [Hr Hc Hm Hq HP0 HPq]. assert (key_ok 0) as H0 by (unfold key_ok; lia).
  apply wp_bind, wp_gets. cbn [snd]. apply wp_bind. destruct (decide (m = ∅)) as [He|Hne].
  - pose proof Hr as (i & Hl & _ & [_ Hbs _]). apply wp_bind. eapply wp_deref; [done|]. cbn beta iota.
    assert (first_branch i 0 = None) as ->; [|by apply wp_ret, wp_ret, HQ0].
    destruct (first_branch i 0) as [b|] eqn:Eb; [|done]. apply first_branch_some in Eb as (Hb & Hnb & _).
    destruct (Hbs b ltac:(lia)) as [E1 _ _]. rewrite He, sub_empty, bool_decide_eq_true_2 in E1 by done. congruence.
  - eapply (firstBelow_ok P w s (root_ s) 0 m 64 (root_ s) root_id []); try done; [by apply inv_node_at|by rewrite at_0|].
    intros w' u stack Hg Hu Hat. apply wp_ret. simpl in Hu. rewrite at_0 in Hu by done.
    eapply HQ1; [done|exact Hu|]. by exists u, stack.
Qed.

(** [++] goes to the next item. *)
Lemma increment_ok P w s m it k (Q : const_iterator → world * SHAMap → Prop) :
  inv ty P w s m → valid P (backed_ s) w (root_ s) m k it →
  (∀ w' it k', grows ty w w' → next_key m k k' → valid P (backed_ s) w' (root_ s) m k' it → Q it (w', s)) →
  (∀ w', grows ty w w' → no_next m k → Q end_ (w', s)) →
  wp (increment it) (w, s) Q.
Proof.
  intros Hinv (u & stack & -> & (l & id & rest & -> & Hp & Hleaf & Hd & Hl & Hk & Hmk)) HQ1 HQ2.
  pose proof Hinv as [Hr Hc Hm Hq HP0 HPq]. apply wp_bind, wp_ret. cbn [stack_ peekNextItem]. rewrite Hk.
  eapply (up_ok next_up P w s (root_ s) k m rest l); try done; [apply next_up_goes|by apply Hm|].
  destruct (leaf_at_key _ _ _ _ _ _ _ Hleaf Hl) as (_ & _ & Hall). intros j Hj. rewrite (Hall j Hj). lia.
Qed.

(** [upper_bound] is at the first item after a key. *)
Lemma upper_bound_ok P w s m t (Q : const_iterator → world * SHAMap → Prop) :
  inv ty P w s m → key_ok t →
  (∀ w' it k', grows ty w w' → next_key m t k' → valid P (backed_ s) w' (root_ s) m k' it → Q it (w', s)) →
  (∀ w', grows ty w w' → no_next m t → Q end_ (w', s)) →
  wp (upper_bound t) (w, s) Q.
Proof.
  intros Hinv Ht HQ1 HQ2. pose proof Hinv as [Hr Hc Hm Hq HP0 HPq].
  apply wp_bind, wp_gets. cbn [snd]. apply wp_bind.
  eapply (walk_stack_ok _ _ (descendThrow_ptr_ok ty)); [apply Hinv..|done|done|done|by apply inv_node_at|].
  intros w1 l id stack Hg Hid Hp Hend. assert (cache_ok w1) as Hc1 by (by apply (gr_cache _ _ _ Hg)).
  assert ((∀ j, is_Some (at_ (length stack) t m !! j) → j ≤ t) → wp (upper_up t stack) (w1, s) Q) as Hup.
  { intros Hle. eapply (up_ok upper_up P w1 s (root_ s) t m stack l); try done; [apply upper_up_goes| |].
    - intros w' it k Hg'. apply HQ1. by eapply grows_trans.
    - intros w' Hg'. apply HQ2. by eapply grows_trans. }
  destruct Hend as [(Hd & Hleaf)|(Hd & Hi & Hs & He)].
  - pose proof Hleaf as (u & Hl & _). destruct (leaf_at_key _ _ _ _ _ _ _ Hleaf Hl) as (Hu & Hpre & Hall).
    apply wp_bind. eapply wp_deref; [done|]. cbn beta iota. destruct (Z.ltb_spec t (key (mItem u))) as [Hlt|Hge].
    + apply wp_ret. apply (HQ1 _ _ (key (mItem u))); [done| |].
      * apply (next_at (length stack)); [by apply in_at|done|]. intros j Hj _. rewrite (Hall j Hj). lia.
      * exists u, ((l, id) :: stack). split; [done|]. exists l, id, stack. split; [done|].
        split; [by eapply path_prefix|]. split; [by rewrite (at_pre _ _ _ m Hpre)|]. done.
    + apply Hup. intros j Hj. by rewrite (Hall j Hj).
  - pose proof Hi as (i & Hl & _). unfold wp. rewrite (proj2 upper_up_goes t l id stack i w1 s Hl). apply wp_bind.
    eapply (right_of_ok P w1 s (root_ s) t m l id stack i); try done.
    + intros j. rewrite He. by intros [? ?].
    + intros w' it k Hg'. apply HQ1. by eapply grows_trans.
Qed.

(** ** All items in order *)

(** Items are filed under their keys. *)
Definition keyed m : Prop := ∀ k x, m !! k = Some x → key x = k.

Lemma keyed_singleton (it : SHAMapItem) : keyed {[key it := it]}.
Proof. intros k x [<- <-]%lookup_singleton_Some. done. Qed.

Lemma keyed_branches n i m (child : option loc → Z → content → Prop) hashed :
  inner_ok ty child hashed n i m →
  (∀ b, (b < 16)%nat → child (getChild i b) (getChildHash i b) (sub (63 - n) b m) → keyed (sub (63 - n) b m)) →
  keyed m.
Proof.
  intros [_ Hbs _] Hc k x Hk. destruct (Hbs (nib (63 - n) k) (nib_lt _ _)) as [_ _ E3].
  apply (Hc _ (nib_lt (63 - n) k)); [apply E3|by apply lookup_sub]. apply sub_nonempty. eauto.
Qed.

Lemma stored_keyed st n hh m : stored ty st n hh m → keyed m.
Proof.
  revert hh m. induction n as [|n IH]; intros hh m (_ & data & nd & _ & _ & Hnd); destruct nd as [i|u]; try done.
  1,3: destruct Hnd as [_ ->]; apply keyed_singleton.
  destruct Hnd as [_ Hi]. eapply keyed_branches; [exact Hi|]. intros b _ [_ Hc]. by eapply IH.
Qed.

Lemma rep_keyed P A w n l m : rep ty P A w n l m → keyed m.
Proof.
  revert l m. induction n as [|n IH]; intros l m (nd & _ & _ & Hnd); destruct nd as [i|u]; try done.
  1,3: destruct Hnd as (_ & -> & _); apply keyed_singleton.
  destruct Hnd as [_ Hi]. eapply keyed_branches; [exact Hi|]. intros b _ Hc.
  destruct (getChild i b); [by eapply IH|]. destruct Hc as [_ Hc]. by eapply stored_keyed.
Qed.

Lemma inv_keyed P w s m : inv ty P w s m → keyed m.
Proof.
  intros [(i & _ & _ & Hi) _ _ _ _ _]. eapply keyed_branches; [exact Hi|]. intros b _ Hc.
  destruct (getChild i b); [by eapply rep_keyed|]. destruct Hc as [_ Hc]. by eapply stored_keyed.
Qed.

(** [for (auto const& item : map)]. *)
Fixpoint for_each (fuel : nat) (it : const_iterator) : prog (list SHAMapItem) :=
  match item_ it with
  | None => ret []
  | Some x =>
      match fuel with
      | O => throw (Undefined "more steps than items")
      | S fuel => let! it := increment it in let! xs := for_each fuel it in ret (x :: xs)
      end
  end.

Definition items : nat → prog (list SHAMapItem) := λ fuel, let! it := begin_ in for_each fuel it.

Definition from (k : Z) m : content := filter (λ kv, k ≤ kv.1) m.

Lemma lookup_from k m j x : from k m !! j = Some x ↔ m !! j = Some x ∧ k ≤ j.
Proof. apply map_lookup_filter_Some. Qed.

Lemma from_next m k k' : is_Some (m !! k) → next_key m k k' → (size (from k' m) < size (from k m))%nat.
Proof.
  intros [x Hx] (_ & Hlt & _). apply map_subset_size, map_subset_alt. split.
  - apply map_subseteq_spec. intros j y [Hj ?]%lookup_from. apply lookup_from. split; [done|lia].
  - exists k. split; [apply eq_None_not_Some; intros [y [_ ?]%lookup_from]; lia|]. exists x. by apply lookup_from.
Qed.

(** The items from [k] on, in order. *)
Definition in_order m k (l : list SHAMapItem) : Prop :=
  StronglySorted (λ x y, key x < key y) l ∧ ∀ x, x ∈ l ↔ m !! key x = Some x ∧ k ≤ key x.

Lemma in_order_cons m k k' x (l : list SHAMapItem) :
  keyed m → m !! k = Some x → next_key m k k' → in_order m k' l → in_order m k (x :: l).
Proof.
  intros Hkey Hx (_ & Hlt & Hall) [Hs Hl]. pose proof (Hkey _ _ Hx) as Ek. split.
  - constructor; [done|]. apply Forall_forall. intros y [_ ?]%Hl. lia.
  - intros y. rewrite elem_of_cons, Hl. split.
    + intros [->|[? ?]]; [rewrite Ek; split; [done|lia]|split; [done|lia]].
    + intros [Hy Hle]. destruct (decide (key y = k)) as [E|E]; [left; congruence|right].
      split; [done|]. apply Hall; [by eauto|lia].
Qed.

Lemma items_in_order_last m k x : keyed m → m !! k = Some x → no_next m k → in_order m k [x].
Proof.
  intros Hkey Hx Hno. pose proof (Hkey _ _ Hx) as Ek. split; [repeat constructor|]. intros y.
  rewrite elem_of_cons. split.
  - intros [->|?%elem_of_nil]; [rewrite Ek; split; [done|lia]|done].
  - intros [Hy Hle]. left. assert (key y = k) as E; [|congruence]. specialize (Hno (key y)). rewrite Hy in Hno.
    specialize (Hno (ex_intro _ _ eq_refl)). lia.
Qed.

Lemma for_each_end fuel st (Q : list SHAMapItem → world * SHAMap → Prop) : Q [] st → wp (for_each fuel end_) st Q.
Proof. intros HQ. destruct fuel; by apply wp_ret. Qed.

Lemma for_each_ok P w s m it k fuel (Q : list SHAMapItem → world * SHAMap → Prop) :
  inv ty P w s m → valid P (backed_ s) w (root_ s) m k it → (size (from k m) ≤ fuel)%nat →
  (∀ w' xs, grows ty w w' → in_order m k xs → Q xs (w', s)) →
  wp (for_each fuel it) (w, s) Q.
Proof.
  revert w it k Q. induction fuel as [|fuel IH]; intros w it k Q Hinv Hv Hsz HQ;
    pose proof Hv as (u & stack & -> & (l & id & rest & _ & _ & _ & _ & _ & Hk & Hx)); pose proof (inv_keyed _ _ _ _ Hinv) as Hkey.
  - exfalso. assert (from k m = ∅) as He by (apply map_size_empty_iff; lia).
    assert (from k m !! k = Some (mItem u)) as Hf by (apply lookup_from; split; [done|lia]). by rewrite He in Hf.
  - cbn [for_each item_]. apply wp_bind. eapply increment_ok; [done|exact Hv| |].
    + intros w' it' k' Hg Hnext Hv'. assert (is_Some (m !! k)) as Hs by eauto.
      pose proof (from_next _ _ _ Hs Hnext). apply wp_bind. eapply (IH w' it' k'); [by eapply inv_grows|done|lia|].
      intros w2 l' Hg2 Hord. apply wp_ret, HQ; [by eapply grows_trans|]. by eapply in_order_cons.
    + intros w' Hg Hno. apply wp_bind, for_each_end, wp_ret, HQ; [done|]. by apply items_in_order_last.
Qed.

Lemma items_complete P w s m fuel (Q : list SHAMapItem → world * SHAMap → Prop) :
  inv ty P w s m → (size m ≤ fuel)%nat →
  (∀ w' xs, grows ty w w' → StronglySorted (λ x y, key x < key y) xs →
     (∀ x, x ∈ xs ↔ m !! key x = Some x) → Q xs (w', s)) →
  wp (items fuel) (w, s) Q.
Proof.
  intros Hinv Hsz HQ. apply wp_bind. eapply begin_ok; [done| |].
  - intros ->. apply for_each_end, HQ; [apply grows_refl|constructor|]. intros x. rewrite elem_of_nil. by rewrite lookup_empty.
  - intros w' it k Hg [Hk Hleast] Hv. assert (from k m = m) as Ef.
    { apply map_eq. intros j. apply option_eq. intros x. rewrite lookup_from. split; [by intros [? _]|].
      intros Hj. split; [done|]. apply Hleast. eauto. }
    eapply (for_each_ok P w' s m it k); [by eapply inv_grows|done|by rewrite Ef|].
    intros w2 l Hg2 [Hs Hl]. apply HQ; [by eapply grows_trans|done|]. intros x. rewrite Hl. split; [by intros [? _]|].
    intros Hx. split; [done|]. apply Hleast. eauto.
Qed.

End iter.

End Iter.
