(* ===== verification/SHAMapMerkle.v ===== *)
(** * The root hash identifies the items

    Two maps with the same root hash have the same items, unless two of the byte
    strings that were hashed for them collide.  The strings are listed, so the
    assumption on the digest is one about finitely many strings. *)

From S2P Require Import Prelude Serializer StateMonad SHAMapNode SHAMap.
From S2P Require Import SHAMapRep SHAMapRepFacts SHAMapWalk SHAMapDelete SHAMapIter.
Import Node SM Rep RepFacts Walk Delete Iter.

Module Merkle.

(** Blocks of one length can be told apart. *)
Lemma blocks_inj {A} (f g : A → list Z) n l :
  (∀ x, length (f x) = n) → (∀ x, length (g x) = n) → l ≫= f = l ≫= g → ∀ x, x ∈ l → f x = g x.
Proof.
  intros Hf Hg. induction l as [|y l IH]; [by intros _ x ?%elem_of_nil|]. cbn [mbind list_bind].
  intros E x [->|Hx]%elem_of_cons; apply app_inj_1 in E as [? ?];
    [done|by rewrite Hf, Hg|by apply IH|by rewrite Hf, Hg].
Qed.

Section merkle.
Context `{Digest} (ty : TNType).
Implicit Types (m : content) (it : SHAMapItem).

(** ** The strings that are hashed *)

Definition leaf_string it : list Z :=
  match ty with
  | tnTRANSACTION_NM => be_bytes 4 transactionID ++ peekData it
  | tnACCOUNT_STATE => be_bytes 4 leafNode ++ peekData it ++ be_bytes 32 (key it)
  | tnTRANSACTION_MD => be_bytes 4 txNode ++ peekData it ++ be_bytes 32 (key it)
  end.

Definition inner_string (n : nat) m : list Z :=
  be_bytes 4 innerNode ++ (seq 0 16 ≫= λ b, be_bytes 32 (branch_hash ty n (sub (63 - n) b m))).

Definition leaf_strings m : list (list Z) := leaf_string ∘ snd <$> map_to_list m.

Fixpoint tree_strings (n : nat) m : list (list Z) :=
  match n with
  | O => leaf_strings m
  | S n =>
      if decide (m = ∅) then []
      else if decide (size m = 1%nat) then leaf_strings m
      else inner_string n m :: (seq 0 16 ≫= λ b, tree_strings n (sub (63 - n) b m))
  end.

Definition root_strings m : list (list Z) :=
  if decide (m = ∅) then []
  else inner_string 63 m :: (seq 0 16 ≫= λ b, tree_strings 63 (sub 0 b m)).

Definition no_collision (l : list (list Z)) : Prop :=
  ∀ x y, x ∈ l → y ∈ l → sha512Half x = sha512Half y → x = y.

#[export] Instance no_collision_dec l : Decision (no_collision l).
Proof.
  refine (cast_if (decide (Forall (λ x, Forall (λ y, sha512Half x = sha512Half y → x = y) l) l))).
  - abstract (intros x y Hx Hy; eapply Forall_forall in f; [|exact Hx]; by eapply Forall_forall in f).
  - abstract (intros Hn; apply n; apply Forall_forall; intros x Hx; apply Forall_forall; intros y Hy; by apply Hn).
Defined.

Lemma leaf_hash_string it : leaf_hash ty it = sha512Half (leaf_string it).
Proof. unfold leaf_hash, leaf_string. by destruct ty. Qed.

Lemma inner_digest_string n m : m ≠ ∅ → inner_digest ty n m = sha512Half (inner_string n m).
Proof. intros Hne. unfold inner_digest. by rewrite decide_False. Qed.

Lemma leaf_inner_string it n m : leaf_string it ≠ inner_string n m.
Proof. unfold leaf_string, inner_string. by destruct ty. Qed.

(** An item is determined by the string of its leaf; a transaction without
    metadata has its hash as its key. *)
Definition items_ok m : Prop :=
  keys_ok m ∧ keyed m ∧ (ty = tnTRANSACTION_NM → ∀ k x, m !! k = Some x → key x = leaf_hash ty x).

Lemma items_ok_forall m :
  map_Forall (λ k x, 0 ≤ k < 2 ^ 256 ∧ key x = k ∧ (ty = tnTRANSACTION_NM → key x = leaf_hash ty x)) m → items_ok m.
Proof.
  intros Hm. split; [|split].
  - intros k [x Hx]. by apply (Hm k x).
  - intros k x Hx. by apply (Hm k x).
  - intros Ht k x Hx. by apply (Hm k x).
Qed.

Lemma items_ok_sub d b m : items_ok m → items_ok (sub d b m).
Proof.
  intros (Hk & Hd & Ht). split; [|split].
  - intros k [x [? _]%lookup_sub]. apply Hk. eauto.
  - intros k x [? _]%lookup_sub. by apply Hd.
  - intros E k x [? _]%lookup_sub. by apply (Ht E k).
Qed.

Lemma leaf_string_inj m m' k k' x x' :
  items_ok m → items_ok m' → m !! k = Some x → m' !! k' = Some x' → leaf_string x = leaf_string x' → x = x' ∧ k = k'.
Proof.
  intros (Hk & Hd & Ht) (Hk' & Hd' & Ht') Hx Hx' E.
  assert (x = x') as ->; [|by rewrite <- (Hd _ _ Hx), <- (Hd' _ _ Hx')].
  assert (key_ok (key x)) as R by (rewrite (Hd _ _ Hx); apply Hk; eauto).
  assert (key_ok (key x')) as R' by (rewrite (Hd' _ _ Hx'); apply Hk'; eauto).
  assert (peekData x = peekData x' ∧ key x = key x') as [E1 E2].
  { pose proof E as E'. unfold leaf_string in E. destruct ty eqn:Ety.
    1: apply app_inv_head in E; split; [done|];
      rewrite (Ht eq_refl _ _ Hx), (Ht' eq_refl _ _ Hx'); unfold leaf_hash; by rewrite E.
    all: apply app_inv_head, app_inj_2 in E as [Ed Ek]; [|by rewrite !length_be_bytes]; split; [done|];
      by apply be_bytes_inj in Ek. }
  destruct x, x'; simpl in *; congruence.
Qed.

(** ** Trees with the same hash *)

Lemma leaf_strings_singleton k it : leaf_strings {[k := it]} = [leaf_string it].
Proof. unfold leaf_strings. by rewrite map_to_list_singleton. Qed.

Lemma tree_strings_singleton n k it : tree_strings n {[k := it]} = [leaf_string it].
Proof.
  destruct n; cbn [tree_strings]; [apply leaf_strings_singleton|].
  rewrite decide_False by apply map_non_empty_singleton. rewrite decide_True by apply map_size_singleton.
  apply leaf_strings_singleton.
Qed.

Lemma tree_strings_inner n m : (2 ≤ size m)%nat →
  tree_strings (S n) m = inner_string n m :: (seq 0 16 ≫= λ b, tree_strings n (sub (63 - n) b m)).
Proof.
  intros Hs. cbn [tree_strings]. rewrite decide_False; [by rewrite decide_False by lia|].
  intros ->. rewrite map_size_empty in Hs. lia.
Qed.

Lemma tree_string_sub n m b x :
  (b < 16)%nat → x ∈ tree_strings n (sub (63 - n) b m) → x ∈ seq 0 16 ≫= λ b, tree_strings n (sub (63 - n) b m).
Proof. intros Hb Hx. apply list_elem_of_bind. exists b. split; [done|]. apply elem_of_seq. lia. Qed.

Lemma no_collision_mono l l' : (∀ x, x ∈ l → x ∈ l') → no_collision l' → no_collision l.
Proof. intros Hl Hn x y Hx Hy. apply Hn; auto. Qed.

Context {LD : DigestLaws}.

Lemma tree_hash_range n m : m ≠ ∅ → 0 < tree_hash ty n m < 2 ^ 256.
Proof using LD.
  intros Hne. assert (0 < only_hash ty m < 2 ^ 256) as Ho.
  { unfold only_hash. destruct (map_to_list m) as [|[k x] l] eqn:E; [by apply map_to_list_empty_iff in E|].
    rewrite leaf_hash_string. apply digest_range. }
  destruct n; cbn [tree_hash]; [done|]. case_decide; [done|apply digest_range].
Qed.

Lemma branch_hash_range n m : 0 ≤ branch_hash ty n m < 256 ^ Z.of_nat 32.
Proof using LD.
  unfold branch_hash. change (256 ^ Z.of_nat 32) with (2 ^ 256). case_decide; [lia|].
  pose proof (tree_hash_range n m ltac:(done)). lia.
Qed.

Definition tree_injective (n : nat) : Prop :=
  ∀ m m', good (64 - n) m → good (64 - n) m' → items_ok m → items_ok m' → m ≠ ∅ → m' ≠ ∅ →
  no_collision (tree_strings n m ++ tree_strings n m') → tree_hash ty n m = tree_hash ty n m' → m = m'.

Lemma inner_injective n m m' :
  (n < 64)%nat → tree_injective n → good (63 - n) m → good (63 - n) m' → items_ok m → items_ok m' →
  no_collision ((inner_string n m :: (seq 0 16 ≫= λ b, tree_strings n (sub (63 - n) b m))) ++
                (inner_string n m' :: (seq 0 16 ≫= λ b, tree_strings n (sub (63 - n) b m')))) →
  sha512Half (inner_string n m) = sha512Half (inner_string n m') → m = m'.
Proof using LD.
  intros Hn IH Hg Hg' Hi Hi' Hnc Hh. apply Hnc in Hh; [|apply elem_of_app; left; by left|apply elem_of_app; right; by left].
  apply app_inv_head in Hh.
  apply (sub_ext (63 - n)). intros b Hb. apply (blocks_inj _ _ 32) with (x := b) in Hh;
    [|intros; apply length_be_bytes|intros; apply length_be_bytes|apply elem_of_seq; lia].
  apply be_bytes_inj in Hh; [|apply branch_hash_range..]. unfold branch_hash in Hh.
  destruct (decide (sub (63 - n) b m = ∅)) as [Hd|Hd], (decide (sub (63 - n) b m' = ∅)) as [Hd'|Hd']; [congruence|..].
  - pose proof (tree_hash_range n _ Hd'). lia.
  - pose proof (tree_hash_range n _ Hd). lia.
  - apply IH; try done; try (replace (64 - n)%nat with (S (63 - n)) by lia; apply good_sub; [lia|done]);
      [by apply items_ok_sub..|].
    eapply no_collision_mono; [|exact Hnc]. intros x. rewrite !elem_of_app. intros [Hx|Hx]; [left|right]; right;
      by apply (tree_string_sub n _ b).
Qed.

Lemma leaf_injective n k k' x x' :
  items_ok {[k := x]} → items_ok {[k' := x']} →
  no_collision (tree_strings n {[k := x]} ++ tree_strings n {[k' := x']}) →
  tree_hash ty n {[k := x]} = tree_hash ty n {[k' := x']} → ({[k := x]} : content) = {[k' := x']}.
Proof using LD.
  intros Hi Hi' Hnc Hh. rewrite !tree_strings_singleton in Hnc. rewrite !tree_hash_singleton, !leaf_hash_string in Hh.
  apply Hnc in Hh; [|by left|right; by left].
  destruct (leaf_string_inj {[k := x]} {[k' := x']} k k' x x') as [-> ->]; try done; apply lookup_singleton_eq.
Qed.

Lemma tree_inj n : (n ≤ 64)%nat → tree_injective n.
Proof using LD.
  induction n as [|n IH]; intros Hn m m' Hg Hg' Hi Hi' Hne Hne' Hnc Hh.
  - assert (∀ m, good (64 - 0) m → ¬ (2 ≤ size m)%nat) as Hsmall.
    { intros m0 Hg0 (k & k' & Hkk & Hk & Hk')%two_items. apply Hkk. by apply (good_64 m0). }
    destruct (content_cases m) as [?|[(k & x & ->)|Hs]]; [done| |by destruct (Hsmall m)].
    destruct (content_cases m') as [?|[(k' & x' & ->)|Hs]]; [done| |by destruct (Hsmall m')].
    by eapply leaf_injective.
  - destruct (content_cases m) as [?|[(k & x & ->)|Hs]], (content_cases m') as [?|[(k' & x' & ->)|Hs']]; try done.
    + by eapply leaf_injective.
    + exfalso. rewrite tree_strings_singleton, tree_strings_inner in Hnc by done.
      rewrite tree_hash_singleton, tree_hash_inner, leaf_hash_string, inner_digest_string in Hh by done.
      apply (leaf_inner_string x n m'), Hnc; [by left|right; by left|done].
    + exfalso. rewrite tree_strings_singleton, tree_strings_inner in Hnc by done.
      rewrite tree_hash_singleton, tree_hash_inner, leaf_hash_string, inner_digest_string in Hh by done.
      apply (leaf_inner_string x' n m). symmetry. apply Hnc; [by left|apply elem_of_app; right; by left|done].
    + rewrite !tree_strings_inner in Hnc by done. rewrite !tree_hash_inner, !inner_digest_string in Hh by done.
      replace (64 - S n)%nat with (63 - n)%nat in Hg, Hg' by lia.
      apply (inner_injective n); try done. apply IH. lia.
Qed.

(** The root hash determines the items. *)
Lemma root_hash_inj m m' :
  items_ok m → items_ok m' → no_collision (root_strings m ++ root_strings m') →
  root_hash ty m = root_hash ty m' → m = m'.
Proof using LD.
  intros Hi Hi' Hnc Hh. unfold root_hash in Hh. unfold root_strings in Hnc.
  assert (∀ m, items_ok m → good (63 - 63) m) as Hg.
  { intros m0 (Hk & _). split; [done|]. intros k k' ??. rewrite !pre_0; auto. }
  destruct (decide (m = ∅)) as [->|Hne], (decide (m' = ∅)) as [->|Hne']; [done|..].
  - rewrite (inner_digest_string _ m') in Hh by done. pose proof (digest_range (inner_string 63 m')).
    change (inner_digest ty 63 ∅) with 0 in Hh. lia.
  - rewrite (inner_digest_string _ m) in Hh by done. pose proof (digest_range (inner_string 63 m)).
    change (inner_digest ty 63 ∅) with 0 in Hh. lia.
  - rewrite !inner_digest_string in Hh by done. apply (inner_injective 63); auto. apply tree_inj. lia.
Qed.

End merkle.

End Merkle.
