(* ===== verification/SHAMapWire.v ===== *)
(** * The binary forms of nodes

    A node is read back from the form it is written in, for the node store
    ([snfPREFIX]) and for peers ([snfWIRE]). *)

From S2P Require Import Prelude Serializer SerialIter StateMonad SHAMapNode SHAMap.
From S2P Require Import SHAMapRep SHAMapModify.
Import Node SM Rep Modify.

Module Wire.

(** Tests on numerals. *)
Ltac numeral_tests :=
  repeat match goal with
  | |- context [Z.eqb ?a ?b] => let r := eval vm_compute in (Z.eqb a b) in
      match r with true => idtac | false => idtac end; change (Z.eqb a b) with r
  | |- context [Z.ltb ?a ?b] => let r := eval vm_compute in (Z.ltb a b) in
      match r with true => idtac | false => idtac end; change (Z.ltb a b) with r
  end; cbn [orb].

(** ** Blocks of one length *)

Section blocks.
Context {A : Type} (f : A → list Z) (n : nat) (Hf : ∀ x, length (f x) = n).

Lemma length_blocks l : length (l ≫= f) = (length l * n)%nat.
Proof using Hf. induction l as [|x l IH]; [done|]. cbn. rewrite length_app, Hf. by rewrite IH. Qed.

Lemma block_drop l j x : l !! j = Some x → ∃ rest, drop (j * n) (l ≫= f) = f x ++ rest.
Proof using Hf.
  revert j. induction l as [|y l IH]; intros j; [done|]. destruct j as [|j]; cbn.
  - intros [= ->]. exists (l ≫= f). done.
  - intros Hj. destruct (IH j Hj) as [rest E]. exists rest. rewrite drop_app_ge by (rewrite Hf; lia).
    rewrite Hf. by replace (n + j * n - n)%nat with (j * n)%nat by lia.
Qed.
End blocks.

(** Appending block by block. *)
Lemma foldl_blocks {A} (f : A → list Z) (s : list Z) l : foldl (λ s x, s ++ f x) s l = s ++ (l ≫= f).
Proof. revert s. induction l as [|x l IH]; intros s; cbn; [by rewrite app_nil_r|]. by rewrite IH, <- app_assoc. Qed.

Lemma be_int_32 h : 0 ≤ h < 2 ^ 256 → be_int (be_bytes 32 h) = h.
Proof. intros Hh. rewrite be_int_be_bytes. by apply Z.mod_small. Qed.

(** A hash in a block. *)
Lemma get256_block {A} (f : A → list Z) n l j x h tail :
  (∀ x, length (f x) = n) → (32 ≤ n)%nat → l !! j = Some x → 0 ≤ h < 2 ^ 256 → f x = be_bytes 32 h ++ tail →
  get256 (l ≫= f) (j * n) = h.
Proof.
  intros Hf Hn Hj Hh Hx. unfold get256, Ser.getBitString. destruct (block_drop f n Hf l j x Hj) as [rest E].
  pose proof (lookup_lt_Some _ _ _ Hj). rewrite (length_blocks f n Hf).
  destruct (Nat.leb_spec (j * n + 32) (length l * n)) as [_|Hlt]; [|nia]. cbn [default].
  rewrite E, Hx, <- app_assoc, take_app_length' by (by rewrite length_be_bytes). by apply be_int_32.
Qed.

(** ** Inner nodes *)

(** A node with the hashes [hs] on the branches [L] and nothing else. *)
Record filled (hs : nat → Z) (L : list nat) (sq : Z) (i : SHAMapInnerNode) : Prop := {
  fl_rest : i = mkInner 0 sq (mHashes i) (replicate 16 None) (mIsBranch i) 0;
  fl_shape : shape_ok i;
  fl_hash b : (b < 16)%nat → getChildHash i b = if decide (b ∈ L) then hs b else 0;
  fl_branch b : (b < 16)%nat → isEmptyBranch i b = true ↔ getChildHash i b = 0
}.

Lemma filled_new hs sq : filled hs [] sq (new_inner sq).
Proof.
  assert (∀ b, (b < 16)%nat → getChildHash (new_inner sq) b = 0) as E.
  { intros b Hb. unfold getChildHash, new_inner. cbn [mHashes]. by rewrite lookup_replicate_2. }
  split; [done|by split| |].
  - intros b Hb. rewrite E by done. rewrite decide_False; [done|]. apply not_elem_of_nil.
  - intros b Hb. by rewrite E.
Qed.

Lemma set_hash_get i b h b' : (b < length (mHashes i))%nat →
  getChildHash (set_hash i b h) b' = if decide (b = b') then h else getChildHash i b'.
Proof.
  intros Hb. unfold getChildHash, set_hash. cbn [mHashes]. case_decide as E.
  - subst. by rewrite list_lookup_insert_eq.
  - by rewrite list_lookup_insert_ne.
Qed.

Lemma set_hash_empty i b h b' :
  isEmptyBranch (set_hash i b h) b' =
    if decide (b = b') then (h =? 0) && isEmptyBranch i b else isEmptyBranch i b'.
Proof.
  rewrite !isEmptyBranch_testbit. cbn [mIsBranch set_hash]. destruct (Z.eqb_spec h 0) as [->|Hh].
  - case_decide; [by subst|done].
  - rewrite Z.shiftl_1_l, Z.lor_spec. case_decide as E.
    + subst. rewrite Z.pow2_bits_true by lia. by rewrite orb_true_r.
    + rewrite Z.pow2_bits_false by lia. by rewrite orb_false_r.
Qed.

Lemma shape_set_hash i b h : shape_ok i → (b < 16)%nat → shape_ok (set_hash i b h).
Proof.
  intros [Hl1 Hl2 Hr] Hb. split; cbn [set_hash mHashes mChildren mIsBranch]; [by rewrite length_insert|done|].
  destruct (h =? 0); [done|]. rewrite Z.shiftl_1_l.
  assert (0 < 2 ^ Z.of_nat b) by (apply Z.pow_pos_nonneg; lia).
  assert (0 ≤ Z.lor (mIsBranch i) (2 ^ Z.of_nat b)) by (apply Z.lor_nonneg; lia).
  split; [done|]. apply bits_bound; [done|done|]. intros j Hj.
  by rewrite Z.lor_spec, (testbit_high _ 16), Z.pow2_bits_false by lia.
Qed.

Lemma filled_set hs L sq i b :
  filled hs L sq i → (b < 16)%nat → b ∉ L → filled hs (b :: L) sq (set_hash i b (hs b)).
Proof.
  intros [E1 E2 E3 E4] Hb Hni. pose proof E2 as [Hl1 Hl2 Hr]. split.
  - rewrite E1 at 1. done.
  - by apply shape_set_hash.
  - intros b' Hb'. rewrite set_hash_get by lia. destruct (decide (b = b')) as [<-|Hne].
    + rewrite decide_True; [done|by left].
    + rewrite E3 by done. destruct (decide (b' ∈ L)); [rewrite decide_True; [done|by right]|].
      rewrite decide_False; [done|]. by intros [->|?]%elem_of_cons.
  - intros b' Hb'. rewrite set_hash_get, set_hash_empty by lia. destruct (decide (b = b')) as [<-|Hne]; [|by apply E4].
    assert (isEmptyBranch i b = true) as ->.
    { apply E4; [done|]. rewrite E3 by done. by rewrite decide_False. }
    rewrite andb_true_r. apply Z.eqb_eq.
Qed.

(** A node is determined by its branches and hashes. *)
Lemma filled_inj hs hs' L L' sq i i' :
  filled hs L sq i → filled hs' L' sq i' → (∀ b, (b < 16)%nat → getChildHash i b = getChildHash i' b) → i = i'.
Proof.
  intros [E1 E2 _ E4] [E1' E2' _ E4'] Hh. rewrite E1, E1'.
  assert (mHashes i = mHashes i') as ->.
  { apply list_eq_same_length with 16%nat; [apply E2'|apply E2|]. intros b x y Hb Hx Hy.
    specialize (Hh b Hb). unfold getChildHash in Hh. by rewrite Hx, Hy in Hh. }
  assert (mIsBranch i = mIsBranch i') as ->; [|done].
  apply Z.bits_inj'. intros j Hj. destruct (Z.lt_ge_cases j 16) as [Hlt|Hge].
  - specialize (Hh (Z.to_nat j) ltac:(lia)). specialize (E4 (Z.to_nat j) ltac:(lia)). specialize (E4' (Z.to_nat j) ltac:(lia)).
    rewrite isEmptyBranch_testbit, Z2Nat.id in E4, E4' by lia. rewrite Hh in E4.
    destruct (Z.testbit (mIsBranch i) j), (Z.testbit (mIsBranch i') j); simpl in *; intuition congruence.
  - destruct E2 as [_ _ Hr], E2' as [_ _ Hr']. by rewrite !(testbit_high _ 16) by lia.
Qed.

Lemma filled_fold hs L sq i l (step : SHAMapInnerNode → nat → SHAMapInnerNode) :
  (∀ ret b, b ∈ l → step ret b = set_hash ret b (hs b)) →
  filled hs L sq i → NoDup l → (∀ b, b ∈ l → (b < 16)%nat ∧ b ∉ L) →
  filled hs (reverse l ++ L) sq (foldl step i l).
Proof.
  revert L i. induction l as [|b l IH]; intros L i Hstep Hfl Hnd Hl; [done|].
  apply NoDup_cons in Hnd as [Hni Hnd]. destruct (Hl b ltac:(by left)) as [Hb HbL]. cbn [foldl].
  rewrite Hstep by (by left). rewrite reverse_cons, <- app_assoc.
  apply IH; [intros; apply Hstep; by right|by apply filled_set|done|]. intros b' Hb'.
  destruct (Hl b' ltac:(by right)) as [? ?]. split; [done|]. intros [->|?]%elem_of_cons; done.
Qed.

(** What is kept of an inner node in its binary form: the hashes and branches. *)
Definition bare (i : SHAMapInnerNode) (sq : Z) : SHAMapInnerNode :=
  mkInner 0 sq (mHashes i) (replicate 16 None) (mIsBranch i) 0.

(** The branch bits say which hashes are not zero. *)
Record hashes_ok (i : SHAMapInnerNode) : Prop := {
  ho_shape : shape_ok i;
  ho_range b : (b < 16)%nat → 0 ≤ getChildHash i b < 2 ^ 256;
  ho_branch b : (b < 16)%nat → isEmptyBranch i b = true ↔ getChildHash i b = 0
}.

Lemma filled_bare i sq : hashes_ok i → filled (getChildHash i) (seq 0 16) sq (bare i sq).
Proof.
  intros [[? ? ?] _ Hb]. split; [done|by split| |done].
  intros b Hlt. rewrite decide_True; [done|]. apply elem_of_seq. lia.
Qed.

Lemma filled_is_bare i L sq i' :
  hashes_ok i → filled (getChildHash i) L sq i' → (∀ b, (b < 16)%nat → b ∉ L → getChildHash i b = 0) → i' = bare i sq.
Proof.
  intros Hi Hfl HL. eapply filled_inj; [exact Hfl|by apply filled_bare|]. intros b Hb.
  rewrite (fl_hash _ _ _ _ Hfl) by done. change (getChildHash (bare i sq) b) with (getChildHash i b).
  case_decide; [done|]. by rewrite HL.
Qed.

Definition hash_block (i : SHAMapInnerNode) (b : nat) : list Z := be_bytes 32 (getChildHash i b).

Lemma full_inner_bare i sq : hashes_ok i → full_inner (seq 0 16 ≫= hash_block i) sq = bare i sq.
Proof.
  intros Hi. unfold full_inner. eapply filled_is_bare; [done| |].
  - eapply (filled_fold (getChildHash i) []); [|apply filled_new|apply NoDup_seq|].
    + intros ret b Hb. apply elem_of_seq in Hb. f_equal.
      apply (get256_block (hash_block i) 32 _ _ b _ []); [intros; apply length_be_bytes|lia| |apply Hi; lia|by rewrite app_nil_r].
      by rewrite lookup_seq_lt by lia.
    + intros b Hb%elem_of_seq. split; [lia|]. apply not_elem_of_nil.
  - intros b Hb Hni. exfalso. apply Hni. rewrite app_nil_r. apply elem_of_reverse, elem_of_seq. lia.
Qed.

(** ** The compressed form *)

(** An entry is a hash and the number of its branch. *)
Definition entry_bytes (e : nat * Z) : list Z := be_bytes 32 e.2 ++ [Z.of_nat e.1].

Definition entry_ok (e : nat * Z) : Prop := (e.1 < 16)%nat ∧ 0 ≤ e.2 < 2 ^ 256.

Lemma entry_bytes_length e : length (entry_bytes e) = 33%nat.
Proof. unfold entry_bytes. rewrite length_app, length_be_bytes. done. Qed.

Lemma compressed_entry_ok l j e ret :
  l !! j = Some e → entry_ok e → compressed_entry (l ≫= entry_bytes) ret j = Ok (set_hash ret e.1 e.2).
Proof.
  intros Hj [Hb Hh]. unfold compressed_entry.
  destruct (block_drop entry_bytes 33 entry_bytes_length l j e Hj) as [rest E].
  assert (Ser.get8 (l ≫= entry_bytes) (32 + j * 33) = Some (Z.of_nat e.1)) as ->.
  { unfold Ser.get8, Ser.Serializer. replace (32 + j * 33)%nat with (j * 33 + 32)%nat by lia. rewrite <- lookup_drop, E. unfold entry_bytes.
    rewrite <- app_assoc, lookup_app_r by (rewrite length_be_bytes; lia). by rewrite length_be_bytes. }
  destruct (Z.ltb_spec (Z.of_nat e.1) 0); [lia|]. destruct (Z.leb_spec 16 (Z.of_nat e.1)); [lia|]. cbn [orb].
  rewrite Nat2Z.id. do 2 f_equal.
  eapply (get256_block entry_bytes); [apply entry_bytes_length|lia|done|done|done].
Qed.

(** The entries are taken in order, a later one in the place of an earlier one. *)
Lemma compressed_inner_fold l k pre ret :
  Forall entry_ok l → length pre = k →
  compressed_inner ((pre ++ l) ≫= entry_bytes) ret (seq k (length l)) =
    Ok (foldl (λ ret e, set_hash ret e.1 e.2) ret l).
Proof.
  intros Hl. revert k pre ret. induction Hl as [|e l He Hl IH]; intros k pre ret Hk; [done|].
  cbn [length seq compressed_inner foldl]. rewrite (compressed_entry_ok _ k e);
    [|rewrite lookup_app_r by lia; by rewrite Hk, Nat.sub_diag|done].
  cbn. rewrite <- (IH (S k) (pre ++ [e])); [by rewrite <- app_assoc|].
  rewrite length_app, Hk. simpl. lia.
Qed.

Lemma compressed_inner_entries l ret :
  Forall entry_ok l →
  compressed_inner (l ≫= entry_bytes) ret (seq 0 (length l)) = Ok (foldl (λ ret e, set_hash ret e.1 e.2) ret l).
Proof. intros Hl. by apply (compressed_inner_fold l 0 []). Qed.

Definition entry (i : SHAMapInnerNode) (b : nat) : nat * Z := (b, getChildHash i b).

Definition entry_block (i : SHAMapInnerNode) (b : nat) : list Z := entry_bytes (entry i b).

Lemma entry_blocks i l : l ≫= entry_block i = (entry i <$> l) ≫= entry_bytes.
Proof. induction l as [|b l IH]; [done|]. cbn. by rewrite IH. Qed.

Lemma entries_ok i l : hashes_ok i → (∀ b, b ∈ l → (b < 16)%nat) → Forall entry_ok (entry i <$> l).
Proof. intros Hi Hl. apply Forall_fmap, Forall_forall. intros b Hb. split; [by apply Hl|]. by apply Hi, Hl. Qed.

Definition branches (i : SHAMapInnerNode) : list nat := filter (λ b, isEmptyBranch i b = false) (seq 0 16).

Lemma compressed_inner_bare i sq :
  hashes_ok i →
  compressed_inner (branches i ≫= entry_block i) (new_inner sq) (seq 0 (length (branches i))) = Ok (bare i sq).
Proof.
  intros Hi. assert (∀ b, b ∈ branches i ↔ (b < 16)%nat ∧ isEmptyBranch i b = false) as Hin.
  { intros b. unfold branches. rewrite list_elem_of_filter, elem_of_seq. intuition lia. }
  rewrite entry_blocks. replace (length (branches i)) with (length (entry i <$> branches i)) by apply length_fmap.
  rewrite compressed_inner_entries by (apply entries_ok; [done|by intros b [? _]%Hin]).
  f_equal. rewrite foldl_fmap.
  eapply filled_is_bare; [done| |].
  - eapply (filled_fold (getChildHash i) []); [done|apply filled_new|apply NoDup_filter, NoDup_seq|].
    intros b [? _]%Hin. split; [done|]. apply not_elem_of_nil.
  - intros b Hb Hni. apply Hi; [done|]. destruct (isEmptyBranch i b) eqn:E; [done|].
    exfalso. apply Hni. rewrite app_nil_r. apply elem_of_reverse. by apply Hin.
Qed.

(** ** Writing and reading back *)

Section roundtrip.
Context `{Digest}.

Lemma inner_prefix_bytes i : inner_addRaw [] i snfPREFIX = be_bytes 4 innerNode ++ (seq 0 16 ≫= hash_block i).
Proof. unfold inner_addRaw, Ser.addBitString. rewrite foldl_blocks. done. Qed.

Lemma foldl_entries i s l :
  foldl (λ s m, if isEmptyBranch i m then s
                else Ser.add8 (Ser.addBitString 32 s (getChildHash i m)) (Z.of_nat m)) s l =
  s ++ (filter (λ b, isEmptyBranch i b = false) l ≫= entry_block i).
Proof.
  revert s. induction l as [|b l IH]; intros s; cbn [foldl]; [by rewrite app_nil_r|]. rewrite IH.
  destruct (isEmptyBranch i b) eqn:E.
  - by rewrite filter_cons_False by (by rewrite E).
  - rewrite filter_cons_True by done. cbn. unfold Ser.add8, Ser.addBitString, entry_block, entry_bytes, entry.
    by rewrite <- !app_assoc.
Qed.

Lemma inner_wire_bytes i : inner_addRaw [] i snfWIRE =
  if (getBranchCount i <? 12)%nat then (branches i ≫= entry_block i) ++ [3]
  else (seq 0 16 ≫= hash_block i) ++ [2].
Proof.
  unfold inner_addRaw. destruct (getBranchCount i <? 12)%nat.
  - rewrite foldl_entries. done.
  - unfold Ser.addBitString. rewrite foldl_blocks. done.
Qed.

(** What is read back: the children are not linked, and the hash is the one
    that is given or computed. *)
Definition read_back (n : SHAMapAbstractNode) (sq hash : Z) (hashValid : bool) : SHAMapAbstractNode :=
  match n with
  | Inner i =>
      Inner (mkInner (if hashValid then hash else inner_hash i) sq (mHashes i) (replicate 16 None) (mIsBranch i) 0)
  | Leaf t => Leaf (mkLeaf (if hashValid then hash else leaf_hash (mType t) (mItem t)) sq (mType t) (mItem t))
  end.

(** Nodes that have a binary form: keys and hashes are 256 bits, keys are not
    zero and that of a transaction without metadata is its hash. *)
Definition node_ok (n : SHAMapAbstractNode) : Prop :=
  match n with
  | Inner i => hashes_ok i
  | Leaf t =>
      0 < key (mItem t) < 2 ^ 256 ∧
      (mType t = tnTRANSACTION_NM → key (mItem t) = leaf_hash tnTRANSACTION_NM (mItem t))
  end.

Lemma finish_inner_back i sq hash hv : finish_inner hash hv (bare i sq) = read_back (Inner i) sq hash hv.
Proof.
  unfold finish_inner, read_back. destruct hv; [done|]. f_equal. unfold inner_updateHash.
  change (inner_hash (bare i sq)) with (inner_hash i). destruct (Z.eqb_spec (inner_hash i) (i_hash (bare i sq))) as [->|_]; done.
Qed.

Lemma finish_leaf_back t it type sq hash hv :
  it = mItem t → type = mType t → finish_leaf it type sq hash hv = read_back (Leaf t) sq hash hv.
Proof.
  intros -> ->. unfold finish_leaf, read_back, new_leaf, leaf_updateHash. destruct hv; [done|]. cbn [mType mItem l_hash l_seq].
  destruct (Z.eqb_spec (leaf_hash (mType t) (mItem t)) 0) as [->|_]; done.
Qed.

Lemma tagged_ok data k e : 0 ≤ k < 2 ^ 256 → tagged (data ++ be_bytes 32 k) e = Ok (k, data).
Proof.
  intros Hk. unfold tagged, Ser.chop, get256, Ser.getBitString. rewrite !length_app, length_be_bytes.
  destruct (Nat.ltb_spec (length data + 32) 32); [lia|].
  replace (length data + 32 - 32)%nat with (length data) by lia.
  destruct (Nat.leb_spec (length data + 32) (length data + 32)); [|lia]. cbn [default from_option].
  rewrite drop_app_length, take_app_length, take_ge by (rewrite length_be_bytes; lia). by rewrite be_int_32.
Qed.

(** The prefix and what follows. *)
Lemma prefix_parts p body : 0 ≤ p < 2 ^ 32 →
  (length (be_bytes 4 p ++ body) <? 4)%nat = false ∧ be_int (take 4 (be_bytes 4 p ++ body)) = p ∧
  drop 4 (be_bytes 4 p ++ body) = body.
Proof.
  intros Hp. rewrite length_app, length_be_bytes, take_app_length', drop_app_length', be_int_be_bytes by (by rewrite length_be_bytes).
  split; [apply Nat.ltb_ge; lia|]. split; [|done]. by apply Z.mod_small.
Qed.

Lemma full_inner_read i sq hash hv (e : exn) :
  hashes_ok i →
  (if negb (length (seq 0 16 ≫= hash_block i) =? 512)%nat then Throw e
   else Ok (Some (finish_inner hash hv (full_inner (seq 0 16 ≫= hash_block i) sq)))) =
  Ok (Some (read_back (Inner i) sq hash hv)).
Proof.
  intros Hi. rewrite (length_blocks _ 32) by (intros; apply length_be_bytes). rewrite length_seq.
  change (16 * 32 =? 512)%nat with true. cbn [negb]. by rewrite full_inner_bare, finish_inner_back.
Qed.

Lemma make_addRaw_prefix n sq hash hv :
  node_ok n → make (addRaw [] n snfPREFIX) sq snfPREFIX hash hv = Ok (Some (read_back n sq hash hv)).
Proof.
  intros Hn. destruct n as [i|t]; cbn [make addRaw].
  - rewrite inner_prefix_bytes. unfold make_prefix. destruct (prefix_parts innerNode (seq 0 16 ≫= hash_block i)) as (-> & -> & ->); [done|].
    cbv zeta. numeral_tests.
    by apply (full_inner_read i sq hash hv (runtime_error "invalid PIN node")).
  - destruct Hn as [Hk Ht]. destruct t as [h q type it]. cbn [mType mItem] in *. destruct type.
    + change (leaf_addRaw [] _ _) with (be_bytes 4 transactionID ++ peekData it). unfold make_prefix.
      destruct (prefix_parts transactionID (peekData it)) as (-> & -> & ->); [done|]. cbv zeta.
      rewrite Z.eqb_refl. do 2 f_equal. apply finish_leaf_back; [|done]. cbn [mItem]. destruct it as [k d]. cbn [key peekData] in *.
      by rewrite (Ht eq_refl).
    + change (leaf_addRaw [] _ _) with ((be_bytes 4 txNode ++ peekData it) ++ be_bytes 32 (key it)). rewrite <- app_assoc. unfold make_prefix.
      destruct (prefix_parts txNode (peekData it ++ be_bytes 32 (key it))) as (-> & -> & ->); [done|]. cbv zeta.
      numeral_tests. rewrite tagged_ok by lia. cbn [rbind]. do 2 f_equal. apply finish_leaf_back; [|done]. by destruct it.
    + change (leaf_addRaw [] _ _) with ((be_bytes 4 leafNode ++ peekData it) ++ be_bytes 32 (key it)). rewrite <- app_assoc. unfold make_prefix.
      destruct (prefix_parts leafNode (peekData it ++ be_bytes 32 (key it))) as (-> & -> & ->); [done|]. cbv zeta.
      numeral_tests. rewrite tagged_ok by lia. cbn [rbind]. destruct (Z.eqb_spec (key it) 0); [lia|]. do 2 f_equal.
      apply finish_leaf_back; [|done]. by destruct it.
Qed.

(** The body and the type byte. *)
Lemma wire_parts body (ty : Z) :
  last (body ++ [ty]) = Some ty ∧ take (length (body ++ [ty]) - 1) (body ++ [ty]) = body.
Proof.
  split; [apply last_snoc|]. rewrite length_app. cbn [length].
  replace (length body + 1 - 1)%nat with (length body) by lia. apply take_app_length.
Qed.

Lemma make_wire_inner i sq hash hv :
  hashes_ok i → make_wire (inner_addRaw [] i snfWIRE) sq hash hv = Ok (Some (read_back (Inner i) sq hash hv)).
Proof.
  intros Hi. rewrite inner_wire_bytes. unfold make_wire. destruct (getBranchCount i <? 12)%nat.
  - destruct (wire_parts (branches i ≫= entry_block i) 3) as [-> ->]. cbv zeta. numeral_tests.
    rewrite (length_blocks _ 33 (λ b, entry_bytes_length (entry i b))), Nat.div_mul by lia.
    rewrite compressed_inner_bare by done. cbn [rbind]. by rewrite finish_inner_back.
  - destruct (wire_parts (seq 0 16 ≫= hash_block i) 2) as [-> ->]. cbv zeta.
    by apply (full_inner_read i sq hash hv (runtime_error "invalid FI node")).
Qed.

Lemma make_addRaw_wire n sq hash hv :
  node_ok n → make (addRaw [] n snfWIRE) sq snfWIRE hash hv = Ok (Some (read_back n sq hash hv)).
Proof.
  intros Hn. destruct n as [i|t]; cbn [make addRaw]; [by apply make_wire_inner|].
  destruct Hn as [Hk Ht]. destruct t as [h q type it]. cbn [mType mItem] in *. unfold make_wire. destruct type.
  - change (leaf_addRaw [] _ _) with (peekData it ++ [0]).
    destruct (wire_parts (peekData it) 0) as [-> ->]. cbv zeta. numeral_tests. do 2 f_equal.
    apply finish_leaf_back; [|done]. cbn [mItem]. destruct it as [k d]. cbn [key peekData] in *. by rewrite (Ht eq_refl).
  - change (leaf_addRaw [] _ _) with ((peekData it ++ be_bytes 32 (key it)) ++ [4]).
    destruct (wire_parts (peekData it ++ be_bytes 32 (key it)) 4) as [-> ->]. cbv zeta. numeral_tests.
    rewrite tagged_ok by lia. cbn [rbind]. destruct (Z.eqb_spec (key it) 0); [lia|]. do 2 f_equal.
    apply finish_leaf_back; [|done]. by destruct it.
  - change (leaf_addRaw [] _ _) with ((peekData it ++ be_bytes 32 (key it)) ++ [1]).
    destruct (wire_parts (peekData it ++ be_bytes 32 (key it)) 1) as [-> ->]. cbv zeta. numeral_tests.
    rewrite tagged_ok by lia. cbn [rbind]. destruct (Z.eqb_spec (key it) 0); [lia|]. do 2 f_equal.
    apply finish_leaf_back; [|done]. by destruct it.
Qed.

End roundtrip.

End Wire.
