(* ===== verification/SHAMapParse.v ===== *)
(** * Nodes from bytes

    What [SHAMapAbstractNode::make] makes of arbitrary bytes. *)

From S2P Require Import Prelude Serializer StateMonad SHAMapNode SHAMap SHAMapRep SHAMapRepFacts SHAMapGrow SHAMapWire.
Import Node SM Rep RepFacts Grow Wire.

Module Parse.

Section parse.
Context `{Digest}.
Implicit Types (i : SHAMapInnerNode) (b : nat) (s : list Z).

(** ** Well-formed nodes *)

(** An inner node without links: sixteen branches, hashes of 256 bits, and a
    branch that has a hash is not empty. *)
Record inner_wf (sq : Z) i : Prop := {
  iw_seq : i_seq i = sq;
  iw_shape : shape_ok i;
  iw_unlinked : mChildren i = replicate 16 None;
  iw_range b : (b < 16)%nat → 0 ≤ getChildHash i b < 2 ^ 256;
  iw_branch b : (b < 16)%nat → isEmptyBranch i b = true → getChildHash i b = 0
}.

Definition node_wf (sq : Z) (n : SHAMapAbstractNode) : Prop :=
  match n with
  | Inner i => inner_wf sq i
  | Leaf t => l_seq t = sq ∧ 0 ≤ key (mItem t) < 2 ^ 256
  end.

(** The hash a node should have. *)
Definition own_hash (n : SHAMapAbstractNode) : Z :=
  match n with Inner i => inner_hash i | Leaf t => leaf_hash (mType t) (mItem t) end.

(** Empty branches are those without a hash. *)
Definition exact i : Prop := ∀ b, (b < 16)%nat → getChildHash i b = 0 → isEmptyBranch i b = true.

Lemma get256_range s off : bytes_ok s → 0 ≤ get256 s off < 2 ^ 256.
Proof.
  intros Hs. unfold get256, Ser.getBitString. destruct (_ <=? _)%nat eqn:E; cbn [default]; [|lia].
  apply Nat.leb_le in E. assert (bytes_ok (take 32 (drop off s))) as Hb%be_int_range by (by apply Forall_take, Forall_drop).
  rewrite length_take, length_drop in Hb. rewrite Nat.min_l in Hb by lia. exact Hb.
Qed.

Lemma filled_wf hs L sq i : (∀ b, (b < 16)%nat → 0 ≤ hs b < 2 ^ 256) → filled hs L sq i → inner_wf sq i ∧ exact i.
Proof.
  intros Hhs [E1 E2 E3 E4]. split; [|by intros b Hb; apply E4]. split; [by rewrite E1|done|by rewrite E1| |].
  - intros b Hb. rewrite E3 by done. case_decide; [by apply Hhs|lia].
  - intros b Hb. by apply E4.
Qed.

Lemma full_inner_wf s sq : bytes_ok s → inner_wf sq (full_inner s sq) ∧ exact (full_inner s sq).
Proof.
  intros Hs. eapply (filled_wf (λ b, get256 s (b * 32))); [intros; by apply get256_range|].
  unfold full_inner. apply (filled_fold _ []); [done|apply filled_new|apply NoDup_seq|].
  intros b Hb%elem_of_seq. split; [lia|]. apply not_elem_of_nil.
Qed.

Lemma new_inner_wf sq : inner_wf sq (new_inner sq).
Proof. apply (filled_wf (λ _, 0) [] sq); [lia|]. apply filled_new. Qed.

Lemma set_hash_wf sq i b h : inner_wf sq i → (b < 16)%nat → 0 ≤ h < 2 ^ 256 → inner_wf sq (set_hash i b h).
Proof.
  intros [E1 E2 E3 E4 E5] Hb Hh. pose proof E2 as [Hl1 Hl2 Hr]. split; [done| |done| |].
  - by apply shape_set_hash.
  - intros b' Hb'. rewrite set_hash_get by lia. case_decide; auto.
  - intros b' Hb'. rewrite set_hash_get, set_hash_empty by lia. case_decide; [|by apply E5].
    by intros [?%Z.eqb_eq _]%andb_prop.
Qed.

Lemma compressed_inner_wf s sq ret idx i :
  bytes_ok s → inner_wf sq ret → compressed_inner s ret idx = Ok i → inner_wf sq i.
Proof.
  intros Hs. revert ret. induction idx as [|j idx IH]; intros ret Hr; cbn [compressed_inner]; [by intros [= <-]|].
  unfold compressed_entry. destruct (Ser.get8 s (32 + j * 33)) as [pos|]; [|done].
  destruct (Z.ltb_spec pos 0); [done|]. destruct (Z.leb_spec 16 pos); [done|]. cbn [orb rbind].
  apply IH, set_hash_wf; [done|lia|by apply get256_range].
Qed.

(** ** [make] *)

Lemma finish_inner_wf sq hash hv i :
  inner_wf sq i → let n := finish_inner hash hv i in
  node_wf sq n ∧ getNodeHash n = if hv then hash else own_hash n.
Proof.
  intros [E1 [? ? ?] E3 E4 E5]. destruct hv; [split; [split; [done|by split|done..]|done]|]. unfold finish_inner, inner_updateHash.
  destruct (Z.eqb_spec (inner_hash i) (i_hash i)) as [E|E]; (split; [split; [done|by split|done..]|done]).
Qed.

Lemma finish_leaf_wf it ty sq hash hv :
  0 ≤ key it < 2 ^ 256 → let n := finish_leaf it ty sq hash hv in
  node_wf sq n ∧ getNodeHash n = if hv then hash else own_hash n.
Proof.
  intros Hk. destruct hv; [done|]. unfold finish_leaf, new_leaf, leaf_updateHash. cbn.
  by destruct (Z.eqb_spec (leaf_hash ty it) 0).
Qed.

Lemma tagged_range s short u data : bytes_ok s → tagged s short = Ok (u, data) → 0 ≤ u < 2 ^ 256.
Proof. intros Hs. unfold tagged. destruct (_ <? _)%nat; [done|]. intros [= <- _]. by apply get256_range. Qed.

(** What [make] promises of the node it makes. *)
Definition made (sq : Z) (fmt : SHANodeFormat) (hash : Z) (hv : bool) (n : SHAMapAbstractNode) : Prop :=
  node_wf sq n ∧ getNodeHash n = (if hv then hash else own_hash n) ∧
  (fmt = snfPREFIX → ∀ i, n = Inner i → exact i).

Lemma made_leaf it ty sq fmt hash hv : 0 ≤ key it < 2 ^ 256 → made sq fmt hash hv (finish_leaf it ty sq hash hv).
Proof. intros Hk. destruct (finish_leaf_wf it ty sq hash hv Hk). split; [done|]. split; [done|]. by unfold finish_leaf. Qed.

Lemma made_inner i sq fmt hash hv :
  inner_wf sq i → (fmt = snfPREFIX → exact i) → made sq fmt hash hv (finish_inner hash hv i).
Proof.
  intros Hi He. destruct (finish_inner_wf sq hash hv i Hi). split; [done|]. split; [done|].
  intros Hf i' [= <-]. specialize (He Hf). destruct hv; [done|]. unfold inner_updateHash. by destruct (_ =? _).
Qed.

Lemma made_tagged s short ty sq fmt hash hv n (k : Z * list Z → result (option SHAMapAbstractNode)) :
  bytes_ok s → (∀ u data, k (u, data) = Ok (Some n) → n = finish_leaf (mkItem u data) ty sq hash hv) →
  rbind (tagged s short) k = Ok (Some n) → made sq fmt hash hv n.
Proof.
  intros Hs Hk. destruct (tagged s short) as [[u data]|] eqn:Et; [|done]. cbn [rbind]. intros ->%Hk.
  apply made_leaf. by eapply tagged_range.
Qed.

Lemma digest_wide bs `{!DigestLaws} : 0 ≤ sha512Half bs < 2 ^ 256.
Proof. pose proof (digest_range bs). lia. Qed.

Lemma make_prefix_wf raw sq hash hv n `{!DigestLaws} :
  bytes_ok raw → make_prefix raw sq hash hv = Ok (Some n) → made sq snfPREFIX hash hv n.
Proof.
  intros Hr. assert (bytes_ok (drop 4 raw)) by (by apply Forall_drop). unfold make_prefix. destruct (_ <? _)%nat; [done|].
  destruct (_ =? _); [intros [= <-]; apply made_leaf, digest_wide; done|].
  destruct (_ =? _); [eapply made_tagged; [done|]; intros u data; destruct (u =? 0); [done|]; by intros [= <-]|].
  destruct (_ =? _).
  { destruct (negb _); [done|]. destruct (full_inner_wf (drop 4 raw) sq); [done|]. intros [= <-]. by apply made_inner. }
  destruct (_ =? _); [|done]. eapply made_tagged; [done|]. by intros u data [= <-].
Qed.

Lemma make_wire_wf raw sq hash hv n `{!DigestLaws} :
  bytes_ok raw → make_wire raw sq hash hv = Ok (Some n) → made sq snfWIRE hash hv n.
Proof.
  intros Hr. unfold make_wire. destruct (last raw) as [type|]; [|done]. cbv zeta.
  set (s := take (length raw - 1) raw). assert (bytes_ok s) by (by apply Forall_take). destruct (_ || _); [done|].
  destruct (_ =? _); [intros [= <-]; apply made_leaf, digest_wide; done|].
  destruct (_ =? _); [eapply made_tagged; [done|]; intros u data; destruct (u =? 0); [done|]; by intros [= <-]|].
  destruct (_ =? _).
  { destruct (negb _); [done|]. destruct (full_inner_wf s sq); [done|]. intros [= <-]. by apply made_inner. }
  destruct (_ =? _); [|eapply made_tagged; [done|]; intros u data; destruct (u =? 0); [done|]; by intros [= <-]].
  destruct (compressed_inner _ _ _) as [i|] eqn:Ec; [|done]. cbn [rbind]. intros [= <-]. apply made_inner; [|done].
  eapply compressed_inner_wf; [|apply new_inner_wf|done]. done.
Qed.

(** ** A repeated entry

    In the compressed form a branch may have several entries.  The last of them is
    its hash, but one that is not zero is enough for the branch to count as not
    empty. *)

(** The entries of all branches of a node, and before them one more. *)
Definition repeated i b (h : Z) : list Z := (((b, h) :: (entry i <$> seq 0 16)) ≫= entry_bytes) ++ [3].

Lemma set_hashes_get i i0 i' l b :
  length (mHashes i0) = 16%nat → (∀ b, b ∈ l → (b < 16)%nat) →
  foldl (λ ret b, set_hash ret b (getChildHash i b)) i0 l = i' →
  (b ∈ l → getChildHash i' b = getChildHash i b) ∧ (b ∉ l → getChildHash i' b = getChildHash i0 b) ∧
  isEmptyBranch i' b = isEmptyBranch i0 b && bool_decide (b ∈ l → getChildHash i b = 0).
Proof.
  revert i0. induction l as [|a l IH]; intros i0 Hl Hin Hi'; cbn [foldl] in Hi'.
  { subst i'. split; [by intros ?%elem_of_nil|]. split; [done|]. rewrite bool_decide_eq_true_2; [by rewrite andb_true_r|by intros ?%elem_of_nil]. }
  assert ((a < 16)%nat) as Ha by (apply Hin; by left).
  destruct (IH (set_hash i0 a (getChildHash i a))) as (I1 & I2 & I3); [simpl; by rewrite length_insert|intros; apply Hin; by right|done|].
  rewrite set_hash_get in I2 by lia. rewrite set_hash_empty in I3. split; [|split].
  - intros [->|?]%elem_of_cons; [|by apply I1]. destruct (decide (a ∈ l)); [by apply I1|]. rewrite I2 by done. by rewrite decide_True.
  - intros [Hne ?]%not_elem_of_cons. rewrite I2 by done. by rewrite decide_False.
  - rewrite I3. destruct (decide (a = b)) as [->|Hne].
    + destruct (Z.eqb_spec (getChildHash i b) 0) as [E|E]; cbn [andb].
      * by rewrite !bool_decide_eq_true_2.
      * rewrite (bool_decide_eq_false_2 (b ∈ b :: l → _)); [by rewrite andb_false_r|]. intros Hx. apply E, Hx. by left.
    + f_equal. apply bool_decide_ext. rewrite elem_of_cons. intuition congruence.
Qed.

(** The hash of a node does not depend on its branch bits, as long as there are
    any. *)
Lemma updateHash_branches i i' b :
  mHashes i' = mHashes i → isEmpty i = false → isEmptyBranch i' b = false →
  i_hash (inner_updateHash i') = inner_hash i ∧ mHashes (inner_updateHash i') = mHashes i ∧
  isEmptyBranch (inner_updateHash i') b = false.
Proof.
  intros Em He Hb. assert (inner_hash i' = inner_hash i) as Eh.
  { unfold inner_hash. rewrite Em. unfold isEmpty in He. rewrite He. destruct (Z.eqb_spec (mIsBranch i') 0) as [E|]; [|done].
    unfold isEmptyBranch in Hb. by rewrite E, Z.land_0_l in Hb. }
  unfold inner_updateHash. rewrite Eh. destruct (Z.eqb_spec (inner_hash i) (i_hash i')) as [E|E]; done.
Qed.

Lemma set_hashes_all i i0 :
  length (mHashes i) = 16%nat → length (mHashes i0) = 16%nat →
  mHashes (foldl (λ ret b, set_hash ret b (getChildHash i b)) i0 (seq 0 16)) = mHashes i.
Proof.
  intros Hi Hl0. remember (foldl _ i0 (seq 0 16)) as i' eqn:Ei. symmetry in Ei.
  assert (length (mHashes i') = 16%nat) as Hl.
  { subst i'. revert Hl0. generalize i0. clear. induction (seq 0 16) as [|a l IH]; intros i0 Hl; [done|].
    apply IH. simpl. by rewrite length_insert. }
  apply list_eq_same_length with 16%nat; [done|done|]. intros b x y Hb Hx Hy.
  destruct (set_hashes_get i i0 i' (seq 0 16) b Hl0) as (I1 & _); [intros ? ?%elem_of_seq; lia|done|].
  specialize (I1 ltac:(apply elem_of_seq; lia)). unfold getChildHash in I1. by rewrite Hx, Hy in I1.
Qed.

Lemma make_repeated i b h sq `{!DigestLaws} :
  hashes_ok i → isEmpty i = false → (b < 16)%nat → 0 < h < 2 ^ 256 →
  ∃ i', make (repeated i b h) sq snfWIRE 0 false = Ok (Some (Inner i')) ∧
    i_hash i' = inner_hash i ∧ mHashes i' = mHashes i ∧ isEmptyBranch i' b = false.
Proof.
  intros Hi He Hb Hh. unfold make, make_wire, repeated. set (l := (b, h) :: (entry i <$> seq 0 16)).
  assert (Forall entry_ok l) as Hl.
  { constructor; [split; [done|simpl; lia]|]. apply entries_ok; [done|]. intros ? ?%elem_of_seq. lia. }
  destruct (wire_parts (l ≫= entry_bytes) 3) as [-> ->]. cbv zeta. numeral_tests.
  rewrite (length_blocks _ 33 entry_bytes_length), Nat.div_mul by lia.
  rewrite compressed_inner_entries by done. cbn [rbind]. eexists. split; [reflexivity|].
  unfold l. cbn [foldl]. rewrite foldl_fmap. cbn [entry fst snd].
  assert (length (mHashes (set_hash (new_inner sq) b h)) = 16%nat) as Hl0 by (simpl; by rewrite length_insert).
  apply updateHash_branches; [apply set_hashes_all; [apply Hi|done]|done|].
  edestruct (set_hashes_get i (set_hash (new_inner sq) b h)) as (_ & _ & E); [done| |reflexivity|rewrite E; clear E]; [intros ? ?%elem_of_seq; lia|].
  rewrite set_hash_empty, decide_True by done. destruct (Z.eqb_spec h 0); [lia|done].
Qed.

End parse.

End Parse.
