(* ===== verification/SHAMapStore.v ===== *)
(** * Shared nodes and the node store

    A tree of shared nodes is in the store.  [writeNode] shares a node whose
    children are shared, unless the store has another record under its hash. *)

From S2P Require Import Prelude Serializer StateMonad SHAMapNode SHAMap.
From S2P Require Import SHAMapRep SHAMapRepFacts SHAMapGrow SHAMapWalk SHAMapModify SHAMapDelete SHAMapIter SHAMapMerkle SHAMapWire.
Import Node SM Rep RepFacts Grow Walk Modify Delete Iter Merkle Wire.
Open Scope prog_scope.

Module Store.

Section store.
Context `{Digest} (ty : TNType).
Implicit Types (m M : content) (l c p x : loc) (i : SHAMapInnerNode) (w : world) (s : SHAMap).
Implicit Types (P Q R : loc → Z → Prop) (n b : nat) (A : bool) (nd : SHAMapAbstractNode).

(** ** From memory to the store *)

(** The record of an inner node whose children are in the store. *)
Definition stored_inner (d : gmap Z (list Z)) n (hh : Z) m : Prop :=
  ∃ data i, d !! hh = Some data ∧ make data 0 snfPREFIX hh true = Ok (Some (Inner i)) ∧
    inner_ok ty (λ (c : option loc) hh mb, c = None ∧ stored ty d n hh mb) (λ _ _ _, False) n i m.

Lemma stored_inner_stored d n hh m :
  stored_inner d n hh m → (2 ≤ size m)%nat → hh = inner_digest ty n m → stored ty d (S n) hh m.
Proof.
  intros (data & i & Hd & Hm & Hi) Hs Hh. split; [by rewrite tree_hash_inner|].
  exists data, (Inner i). done.
Qed.


(** An inner node that is shared, with its children in the store or shared. *)
Lemma recorded_inner w n i m R A :
  cache_ok w → i_seq i = 0 → recorded w (Inner i) →
  inner_ok ty (child_rep ty R A w n) (link_at w) n i m →
  (∀ b c, (b < 16)%nat → getChild i b = Some c → rep ty R A w n c (sub (63 - n) b m) →
     stored ty (db w) n (getChildHash i b) (sub (63 - n) b m)) →
  stored_inner (db w) n (i_hash i) m.
Proof.
  intros Hc Hz (data & Hd & Hm) [Hsh Hbs Hh] Hch. cbn [getNodeHash unlinked] in *. rewrite Hz in Hm.
  eexists data, _. split; [done|]. split; [exact Hm|].
  destruct Hh as [[_ ?]|[Hdig Hhs]]; [done|]. split; [by destruct Hsh| |].
  - intros b Hb. destruct (Hbs b Hb) as [E1 E2 E3].
    assert (∀ h q hs cs br g, cs = replicate 16 None → getChild (mkInner h q hs cs br g) b = None) as Hn.
    { intros h q hs cs br g ->. unfold getChild. cbn [mChildren]. by rewrite lookup_replicate_2. }
    split; [done| |]; rewrite Hn by done.
    + intros Hm0. split; [done|]. by apply E2.
    + intros Hm0. split; [done|]. specialize (E3 Hm0).
      change (getChildHash _ b) with (getChildHash i b).
      destruct (getChild i b) as [c|] eqn:Hcb; [by apply (Hch b c)|]. by destruct E3.
  - right. split; [done|]. intros b Hb. split; [by apply Hhs|]. intros c. unfold getChild. cbn [mChildren].
    by rewrite lookup_replicate_2.
Qed.

(** A tree of shared nodes is in the store. *)
Lemma rep_zero_stored A w n l m :
  cache_ok w → rep ty zero A w n l m → stored ty (db w) n (tree_hash ty n m) m.
Proof.
  intros Hc. revert l m. induction n as [|n IH]; intros l m Hr;
    pose proof Hr as [(t & Hl & Hz & Hty & -> & Hh)|(n' & Hn & Hs & (i & Hl & Hz & Hi))]%rep_unfold; try lia.
  1,2: destruct (co_shared _ Hc l _ Hl Hz) as [(data & Hd & Hm) _]; cbn [getNodeHash unlinked] in *;
    split; [done|]; exists data, (Leaf t); rewrite tree_hash_singleton, <- Hh; done.
  injection Hn as <-. destruct (co_shared _ Hc l _ Hl Hz) as [Hrec _].
  pose proof Hi as [_ _ [[_ ?]|[Hdig Hhs]]]; [done|].
  rewrite tree_hash_inner by done. rewrite <- Hdig. apply stored_inner_stored; [|done|done].
  eapply (recorded_inner w n i m zero A); [done|done|done|done|].
  intros b c Hb Hcb Hrc. destruct (Hhs b Hb) as [-> _]. unfold branch_hash.
  rewrite decide_False by (by eapply rep_nonempty). by eapply IH.
Qed.

(** And back: a shared node whose record is in the store. *)
Lemma shared_inner_at w n l hh m :
  cache_ok w → shared_at w l hh → stored_inner (db w) n hh m → inner_at ty zero true w n l m.
Proof.
  intros Hc (nd & Hl & Hz & Hh) (data & i' & Hd & Hm & Hi).
  destruct (co_shared _ Hc l nd Hl Hz) as [(data' & Hd' & Hm') Hlk]. rewrite Hh in Hd', Hm'.
  assert (data' = data) as -> by congruence. assert (Inner i' = unlinked nd) as E by congruence.
  destruct nd as [i|t]; [|done]. injection E as ->. exists i. split; [done|]. split; [done|].
  apply shared_inner_ok; [done|done| |done]. intros c hc mb. by apply shared_rep.
Qed.

(** ** [writeNode] *)

Definition record_of nd : list Z := addRaw [] nd snfPREFIX.

Lemma record_unlinked nd : record_of (unlinked nd) = record_of nd.
Proof. by destruct nd. Qed.

Lemma record_setSeq nd q : record_of (setSeq nd q) = record_of nd.
Proof. by destruct nd. Qed.

(** The world after [l] was written. *)
Record wrote w l nd w' : Prop := {
  wr_heap : heap w' = <[l := setSeq nd 0]> (heap w);
  wr_db : db w' = <[getNodeHash nd := record_of nd]> (db w);
  wr_grows : db w ⊆ db w';
  wr_cache : cache_ok w'
}.

Lemma wrote_ok w l nd w' :
  cache_ok w → heap w !! l = Some nd → getSeq nd ≠ 0 → links_ok w nd →
  make (record_of nd) 0 snfPREFIX (getNodeHash nd) true = Ok (Some (unlinked (setSeq nd 0))) →
  (∀ data, db w !! getNodeHash nd = Some data → data = record_of nd) →
  heap w' = <[l := setSeq nd 0]> (heap w) → db w' = <[getNodeHash nd := record_of nd]> (db w) →
  treecache w' = treecache w ∨ treecache w' = <[getNodeHash nd := l]> (treecache w) →
  wrote w l nd w'.
Proof.
  intros [C1 C2] Hl Hz Hlk Hmake Hdb Eh Ed Et.
  assert (db w ⊆ db w') as Hsub.
  { rewrite Ed. apply map_subseteq_spec. intros k d Hk. destruct (decide (getNodeHash nd = k)) as [<-|].
    - rewrite (Hdb _ Hk). apply lookup_insert_eq.
    - by rewrite lookup_insert_ne. }
  assert (∀ l' hh, shared_at w l' hh → shared_at w' l' hh) as Hsh.
  { intros l' hh (nd' & Hl' & Hz' & ?). exists nd'. split; [|done]. rewrite Eh, lookup_insert_ne; [done|]. intros ->. congruence. }
  assert (getNodeHash (setSeq nd 0) = getNodeHash nd ∧ getSeq (setSeq nd 0) = 0) as [Eg Es] by (by destruct nd).
  split; [done|done|done|]. split.
  - assert (shared_at w' l (getNodeHash nd)) by (exists (setSeq nd 0); by rewrite Eh, lookup_insert_eq).
    intros hh l'. destruct Et as [-> | ->]; [intros ?; by apply Hsh, C1|].
    intros [[<- <-]|[_ Hl']]%lookup_insert_Some; [done|by apply Hsh, C1].
  - intros l' nd'. rewrite Eh. intros [[<- <-]|[_ Hl']]%lookup_insert_Some.
    + intros _. split; [exists (record_of nd); rewrite Eg; split; [by rewrite Ed, lookup_insert_eq|done]|].
      destruct nd as [i|t]; [|done]. destruct Hlk as [? Hlk]. split; [done|]. intros b c Hc.
      destruct (Hlk b c Hc). split; [done|by apply Hsh].
    + apply (admissible_keep w); [done|done|]. by apply (C2 l').
Qed.

Lemma writeNode_ok w s l nd (Q : loc → world * SHAMap → Prop) :
  cache_ok w → heap w !! l = Some nd → getSeq nd ≠ 0 → links_ok w nd →
  make (record_of nd) 0 snfPREFIX (getNodeHash nd) true = Ok (Some (unlinked (setSeq nd 0))) →
  (∀ data, db w !! getNodeHash nd = Some data → data = record_of nd) →
  (∀ w' l', wrote w l nd w' → shared_at w' l' (getNodeHash nd) → Q l' (w', s)) →
  wp (writeNode l) (w, s) Q.
Proof.
  intros Hc Hl Hz Hlk Hmake Hdb HQ. apply wp_bind. eapply wp_deref; [done|]. apply wp_bind, wp_modify. cbn [fst snd].
  change (set_heap w _) with (put w l (setSeq nd 0)).
  assert (getNodeHash (setSeq nd 0) = getNodeHash nd ∧ getSeq (setSeq nd 0) = 0) as [Eg Es] by (by destruct nd).
  apply wp_bind, wp_bind, wp_gets. cbn [fst put set_heap treecache].
  destruct (treecache w !! getNodeHash nd) as [l'|] eqn:Et.
  - destruct (co_node _ Hc _ _ Et) as (nd' & Hl' & Hz' & Hh'). assert (l ≠ l') as Hne by congruence.
    assert (record_of nd' = record_of nd) as Er.
    { destruct (co_shared _ Hc l' nd' Hl' Hz') as [(data & Hd & Hm) _]. rewrite Hh' in Hd, Hm.
      rewrite (Hdb _ Hd), Hmake in Hm. injection Hm as E. by rewrite <- record_unlinked, <- E, record_unlinked, record_setSeq. }
    apply wp_ret, wp_bind. eapply wp_deref; [simpl; by rewrite lookup_insert_ne|].
    apply wp_bind, wp_modify, wp_ret. cbn [fst snd]. fold (record_of nd'). rewrite Hh', Er.
    set (w' := set_db _ _). apply HQ.
    + apply wrote_ok; try done. by left.
    + exists nd'. split; [simpl; by rewrite lookup_insert_ne|done].
  - apply wp_bind, wp_modify, wp_ret, wp_bind. eapply wp_deref; [apply lookup_insert_eq|].
    apply wp_bind, wp_modify, wp_ret. cbn [fst snd]. fold (record_of (setSeq nd 0)). rewrite Eg, record_setSeq.
    apply HQ.
    + apply wrote_ok; try done. by right.
    + exists (setSeq nd 0). split; [apply lookup_insert_eq|done].
Qed.

End store.

End Store.
