(* ===== verification/SHAMapBranch.v ===== *)
(** * Work on one branch

    The nodes of a tree are told apart by their position, so work on one branch
    leaves the others alone. *)

From S2P Require Import Prelude Serializer StateMonad SHAMapNode SHAMap.
From S2P Require Import SHAMapRep SHAMapRepFacts SHAMapGrow SHAMapWalk SHAMapModify SHAMapAdd.
From S2P Require Import SHAMapDelete SHAMapIter SHAMapMerkle SHAMapWire SHAMapStore.
Import Node SM Rep RepFacts Grow Walk Modify Add Update Delete Iter Merkle Wire Store.
Open Scope prog_scope.

Module Branch.

Section branch.
Context `{Digest} (ty : TNType) (strs : list (list Z)).
Implicit Types (m M : content) (l c p x node : loc) (i : SHAMapInnerNode) (w : world) (s : SHAMap).
Implicit Types (P Q R : loc → Z → Prop) (n b : nat) (A : bool).

(** ** The nodes of a tree by position *)

Lemma elsewhere_in w x n m : elsewhere ty w x n m → is_Some (heap w !! x).
Proof. intros [(Q & B & nx & mx & (i & ? & _) & _)|(Q & mx & (t & ? & _) & _)]; eauto. Qed.

(** The nodes of a tree are elsewhere for a tree with other items. *)
Lemma rep_elsewhere P A w n l m n' m' :
  rep ty P A w n l m → (n ≤ 64)%nat → good (64 - n) m → m ##ₘ m' →
  rep ty (λ l sq, P l sq ∧ elsewhere ty w l n' m') A w n l m.
Proof.
  revert l m. induction n as [|n IH]; intros l m Hr Hn Hg Hd;
    apply rep_unfold in Hr as [Hl|(n2 & Hn2 & Hs & Hi)]; try lia; apply rep_unfold.
  1,2: left; pose proof Hl as (t & Ht & HP & Hrest); exists t; split; [done|]; split; [|done]; split; [done|];
    right; exists P, m; split; [done|]; by symmetry.
  injection Hn2 as <-. right. exists n. split; [done|]. split; [done|].
  assert (elsewhere ty w l n' m') as He.
  { left. exists P, A, n, m. split; [done|]. split; [lia|].
    split; [by replace (63 - n)%nat with (64 - S n)%nat by lia|]. right. by symmetry. }
  destruct Hi as (i & Hl & HP & Hi). exists i. split; [done|]. split; [done|].
  eapply inner_ok_impl; [exact Hi| |done].
  intros b Hb Hm Hc. destruct (getChild i b) as [c|]; [|done]. simpl in *.
  apply IH; [done|lia| |].
  - replace (64 - n)%nat with (S (63 - n)) by lia. apply good_sub; [lia|]. by replace (63 - n)%nat with (64 - S n)%nat by lia.
  - eapply map_disjoint_weaken_l; [exact Hd|]. apply sub_subseteq.
Qed.

(** ** What flushing keeps

    The nodes that are not the map's own, and its own outside of the tree; the
    records of the store.  [strs] are the strings that may be written. *)

(** The store has no other record under the hash of one of the strings. *)
Definition compat w : Prop := ∀ y, y ∈ strs → ∀ data, db w !! sha512Half y = Some data → data = y.

Record kept P (q : Z) w w' : Prop := {
  kp_db : db w ⊆ db w';
  kp_cache : cache_ok w → cache_ok w';
  kp_store : compat w → compat w';
  kp_dom x : is_Some (heap w !! x) → is_Some (heap w' !! x);
  kp_node x nd : heap w !! x = Some nd → getSeq nd ≠ q ∨ ¬ P x q → heap w' !! x = Some nd
}.

Lemma kept_refl P q w : kept P q w w.
Proof. by split. Qed.

Lemma kept_trans P q w1 w2 w3 : kept P q w1 w2 → kept P q w2 w3 → kept P q w1 w3.
Proof. intros [D1 C1 S1 M1 N1] [D2 C2 S2 M2 N2]. split; [by etrans|auto|auto|auto|auto]. Qed.

Lemma kept_mono P P' q w w' : (∀ l, P' l q → P l q) → kept P' q w w' → kept P q w w'.
Proof. intros HP [D C T M N]. split; [done|done|done|done|]. intros x nd Hx [?|?]; apply N; auto. Qed.

Lemma kept_put P q w x nd :
  q ≠ 0 → ours q w x → P x q → getSeq nd = q → kept P q w (put w x nd).
Proof.
  intros Hq Ho HP Hs. split; [done|by eapply cache_put|done| |].
  - intros y Hy. simpl. destruct (decide (x = y)) as [->|]; [by rewrite lookup_insert_eq|by rewrite lookup_insert_ne].
  - intros y nd' Hy Hk. simpl. destruct (decide (x = y)) as [->|]; [|by rewrite lookup_insert_ne].
    destruct Hk as [Hk|Hk]; [destruct (Hk (Ho _ Hy))|done].
Qed.

Lemma kept_fresh P q w x nd : q ≠ 0 → heap w !! x = None → P x q → getSeq nd = q → kept P q w (put w x nd).
Proof. intros. apply kept_put; [done|by apply ours_fresh|done|done]. Qed.

(** Trees without own nodes of the flushed one are kept. *)
Lemma kept_rep P q w w' R R' A n l m :
  kept P q w w' → (∀ l sq, R l sq → (sq ≠ q ∨ ¬ P l q) ∧ R' l sq) →
  rep ty R A w n l m → rep ty R' A w' n l m.
Proof.
  intros Hk HR. apply rep_transfer; [apply Hk|].
  intros l' nd Hl HRl. destruct (HR _ _ HRl) as [Hp ?]. split; [|done]. by apply (kp_node _ _ _ _ Hk).
Qed.

Lemma kept_frame P q w w' : q ≠ 0 → kept P q w w' → frame ty q w w'.
Proof.
  intros Hq Hk. split; [apply Hk| | |apply Hk].
  - intros Q A n l m _ HQ. eapply kept_rep; [done|]. intros l' sq Hs. split; [|done]. left. intros ->. by eapply HQ.
  - intros Q A n l m _ HQ. eapply inner_at_transfer; [apply Hk|].
    intros l' nd Hl Hs. split; [|done]. apply (kp_node _ _ _ _ Hk); [done|]. left. intros E. rewrite E in Hs. by eapply HQ.
Qed.

(** Writing a node of the map. *)
Lemma kept_wrote P w l nd w' :
  wrote w l nd w' → heap w !! l = Some nd → P l (getSeq nd) →
  record_of nd ∈ strs → getNodeHash nd = sha512Half (record_of nd) → no_collision strs →
  kept P (getSeq nd) w w'.
Proof.
  intros [Eh Ed Hsub Hc] Hl HP Hin Hh Hnc. split; [done|done| | |].
  - intros Hcomp y Hy data. rewrite Ed. intros [[E <-]|[_ Hd]]%lookup_insert_Some; [|by apply Hcomp].
    apply Hnc; [done|done|]. congruence.
  - intros y Hy. rewrite Eh. destruct (decide (l = y)) as [->|]; [by rewrite lookup_insert_eq|by rewrite lookup_insert_ne].
  - intros y nd' Hy Hk. rewrite Eh. destruct (decide (l = y)) as [->|]; [|by rewrite lookup_insert_ne].
    assert (nd' = nd) as -> by congruence. by destruct Hk.
Qed.

(** ** Putting a flushed child back *)

Lemma sub_disjoint d b b' m : b ≠ b' → sub d b m ##ₘ sub d b' m.
Proof. intros Hb. apply map_disjoint_spec. intros k x y [_ ?]%lookup_sub [_ ?]%lookup_sub. congruence. Qed.

(** The nodes of a branch: not elsewhere, unless they are shared. *)
Definition within P w n m : loc → Z → Prop := λ l sq, P l sq ∧ (sq ≠ 0 → ¬ elsewhere ty w l n m).

Lemma node_elsewhere P A w n node M b :
  (n < 64)%nat → good (63 - n) M → inner_at ty P A w n node M → elsewhere ty w node n (sub (63 - n) b M).
Proof. intros Hn Hg Hi. left. exists P, A, n, M. split; [done|]. split; [done|]. split; [done|]. by left. Qed.

Lemma child_within P A w n M b c :
  (n < 64)%nat → good (63 - n) M → rep ty P A w n c (sub (63 - n) b M) →
  rep ty (within P w n (sub (63 - n) b M)) A w n c (sub (63 - n) b M).
Proof.
  intros Hn Hg Hr. eapply (rep_avoid _ _ (λ x, elsewhere ty w x n (sub (63 - n) b M))) in Hr; [|done|lia|].
  - eapply rep_mono; [|exact Hr]. intros l sq [? ?]. done.
  - replace (64 - n)%nat with (S (63 - n)) by lia. apply good_sub; [lia|done].
Qed.

(** A child on another branch stays as it is. *)
Lemma sibling_kept P R q A w w' n node M b b' c nd' :
  (n < 64)%nat → good (63 - n) M → b' ≠ b → q ≠ 0 → inner_at ty P A w n node M →
  kept (within P w n (sub (63 - n) b M)) q w w' → rep ty R A w n c (sub (63 - n) b' M) →
  rep ty R A (put w' node nd') n c (sub (63 - n) b' M) ∧
  ∀ nd, heap w !! c = Some nd → heap (put w' node nd') !! c = Some nd.
Proof.
  intros Hn Hg Hb Hq Hi Hk Hr. assert (good (64 - n) (sub (63 - n) b' M)) as Hg'.
  { replace (64 - n)%nat with (S (63 - n)) by lia. apply good_sub; [lia|done]. }
  apply (rep_avoid _ _ (.= node)) in Hr; [|intros x ->; by eapply node_elsewhere|lia|done].
  apply (rep_elsewhere _ _ _ _ _ _ n (sub (63 - n) b M)) in Hr; [|lia|done|by apply sub_disjoint].
  assert (∀ x nd, heap w !! x = Some nd → x ≠ node → elsewhere ty w x n (sub (63 - n) b M) →
    heap (put w' node nd') !! x = Some nd) as Hkeep.
  { intros x nd Hx Hne He. simpl. rewrite lookup_insert_ne by done. apply (kp_node _ _ _ _ Hk); [done|].
    right. intros [_ Hw]. by apply Hw. }
  split.
  - eapply rep_transfer; [| |exact Hr]; [apply Hk|].
    intros x nd Hx [[? ?] ?]. split; [by apply Hkeep|done].
  - intros nd Hc. destruct (rep_seq _ _ _ _ _ _ _ Hr) as (nd2 & Hc2 & [[_ ?] ?]). by apply Hkeep.
Qed.

Lemma isEmptyBranch_share i b c b' : isEmptyBranch (shareChild i b c) b' = isEmptyBranch i b'.
Proof. done. Qed.

Lemma shape_share i b c : shape_ok i → shape_ok (shareChild i b c).
Proof. intros [? ? ?]. split; simpl; [done|by rewrite length_insert|done]. Qed.

(** The children on the other branches are the same. *)
Definition siblings_same w w2 A n i M b : Prop :=
  ∀ b' c, (b' < 16)%nat → b' ≠ b → getChild i b' = Some c →
    (∀ nd, heap w !! c = Some nd → heap w2 !! c = Some nd) ∧
    ∀ R, rep ty R A w n c (sub (63 - n) b' M) → rep ty R A w2 n c (sub (63 - n) b' M).

Lemma reshare_hash w w2 A n i M b c child :
  inner_ok ty child (link_at w) n i M → i_seq i ≠ 0 → (b < 16)%nat → sub (63 - n) b M ≠ ∅ →
  hash_at w2 c (tree_hash ty n (sub (63 - n) b M)) → siblings_same w w2 A n i M b →
  hash_ok ty (link_at w2) n (shareChild i b c) M.
Proof.
  intros [Hsh Hbs Hh] Hz Hb Hm (nd & Hc & Hhc) Hsib. destruct Hh as [?|[Hh Hall]]; [by left|right]. split; [done|].
  intros b' Hb'. destruct (Hall b' Hb') as [Hch Hcl]. split; [done|]. intros c'.
  destruct (decide (b' = b)) as [->|Hne].
  - rewrite getChild_share by (rewrite (so_children _ Hsh); lia). intros [= <-].
    change (getChildHash (shareChild i b c) b) with (getChildHash i b). rewrite Hch. unfold branch_hash.
    rewrite decide_False by done. exists nd. done.
  - rewrite getChild_share_ne by done. intros Hc'. destruct (Hcl c' Hc') as (nd' & Hnd' & Hh').
    exists nd'. split; [|done]. by apply (Hsib b' c').
Qed.

Lemma reshare_ok P q A w w' n node i M b c :
  let mb := sub (63 - n) b M in let w2 := put w' node (Inner (shareChild i b c)) in
  (n < 64)%nat → good (63 - n) M → (b < 16)%nat → mb ≠ ∅ → P node q → q ≠ 0 →
  inner_at ty P A w n node M → heap w !! node = Some (Inner i) → i_seq i = q →
  kept (within P w n mb) q w w' → rep ty (within P w n mb) A w' n c mb → hash_at w' c (tree_hash ty n mb) →
  kept P q w w2 ∧ inner_at ty P A w2 n node M ∧ siblings_same w w2 A n i M b ∧
  (∀ nd, heap w' !! c = Some nd → heap w2 !! c = Some nd) ∧
  ∀ R, rep ty (both R (within P w n mb)) A w' n c mb → rep ty R A w2 n c mb.
Proof.
  intros mb w2 Hn Hg Hb Hmb HPn Hq Hi Hnode Hseq Hk Hc Hhc.
  pose proof Hi as (i' & Hnode' & _ & Hok). assert (i' = i) as -> by congruence. pose proof Hok as [Hsh Hbs Hh].
  assert (elsewhere ty w node n mb) as Hen by (by eapply node_elsewhere).
  assert (heap w' !! node = Some (Inner i)) as Hnw.
  { apply (kp_node _ _ _ _ Hk); [done|]. right. intros [_ Hw]. by apply Hw. }
  assert (c ≠ node) as Hcn.
  { intros ->. destruct (rep_seq _ _ _ _ _ _ _ Hc) as (nd & Hnd & [_ He]). assert (nd = Inner i) as -> by congruence.
    apply He; [simpl; lia|done]. }
  assert (∀ nd, heap w' !! c = Some nd → heap w2 !! c = Some nd) as Hc2.
  { intros nd. simpl. by rewrite lookup_insert_ne. }
  assert (∀ R, rep ty (both R (within P w n mb)) A w' n c mb → rep ty R A w2 n c mb) as HcR.
  { intros R Hr. eapply rep_mono; [|apply rep_put; [|exact Hr]]; [by intros l sq [? _]|].
    intros nd Hnd [_ [_ Hw]]. assert (nd = Inner i) as -> by congruence. apply Hw; [simpl; lia|done]. }
  assert (siblings_same w w2 A n i M b) as Hsib.
  { intros b' c' Hb' Hne Hc'. destruct (Hbs b' Hb') as [_ E2 E3].
    assert (sub (63 - n) b' M ≠ ∅) as Hm by (intros Hm; destruct (E2 Hm); congruence).
    specialize (E3 Hm). rewrite Hc' in E3. split; [by eapply (sibling_kept P P)|].
    intros R HR. by eapply (sibling_kept P R). }
  split; [|split; [|done]].
  - eapply kept_trans; [eapply kept_mono; [|exact Hk]; by intros l [? _]|].
    apply kept_put; [done| |done|done]. intros nd. rewrite Hnw. by intros [= <-].
  - exists (shareChild i b c). split; [apply fresh_lookup_put|]. split; [by rewrite <- Hseq in HPn|].
    split; [by apply shape_share| |].
    + intros b' Hb'. destruct (Hbs b' Hb') as [E1 E2 E3]. destruct (decide (b' = b)) as [->|Hne].
      * split; [done|done|]. intros _. rewrite getChild_share by (rewrite (so_children _ Hsh); lia). simpl.
        apply HcR. eapply rep_mono; [|exact Hc]. intros l sq [? ?]. done.
      * split; [done| |]; rewrite getChild_share_ne by done; [done|]. intros Hm. specialize (E3 Hm).
        destruct (getChild i b') as [c'|] eqn:Hc'; [by apply (Hsib b' c')|].
        destruct E3 as [? ?]. split; [done|]. eapply stored_mono; [|done]. apply Hk.
    + eapply (reshare_hash w w2 A); [done|lia|done|done| |done].
      destruct Hhc as (nd & Hnd & ?). exists nd. split; [by apply Hc2|done].
Qed.

(** ** [updateHashDeep] *)

Definition with_hashes i (hs : list Z) : SHAMapInnerNode :=
  mkInner (i_hash i) (i_seq i) hs (mChildren i) (mIsBranch i) (mFullBelowGen i).

Lemma bind_fmap {B C D} (f : B → C) (g : C → list D) (l : list B) : (f <$> l) ≫= g = l ≫= λ (y : B), g (f y).
Proof. induction l as [|y l IH]; [done|]. cbn. by rewrite IH. Qed.

Lemma inner_nonempty i n M child hashed : inner_ok ty child hashed n i M → M ≠ ∅ → mIsBranch i ≠ 0.
Proof.
  intros [_ Hbs _] HM E. apply HM, (sub_none (63 - n)). intros b Hb. destruct (Hbs b Hb) as [E1 _ _].
  unfold isEmptyBranch in E1. rewrite E, Z.land_0_l in E1. symmetry in E1. by apply bool_decide_eq_true in E1.
Qed.

Lemma inner_empty i n child hashed : inner_ok ty child hashed n i ∅ → mIsBranch i = 0.
Proof.
  intros [[_ _ Hr] Hbs _]. apply Z.bits_inj_0. intros b. destruct (Z.lt_ge_cases b 0); [by apply Z.testbit_neg_r|].
  destruct (Z.lt_ge_cases b 16) as [Hb|Hb]; [|by apply (testbit_high _ 16)].
  destruct (Hbs (Z.to_nat b) ltac:(lia)) as [E1 _ _]. rewrite isEmptyBranch_testbit, Z2Nat.id, sub_empty in E1 by lia.
  rewrite bool_decide_eq_true_2 in E1 by done. by apply negb_true_iff in E1.
Qed.

Lemma inner_hash_digest i n M child hashed hs :
  inner_ok ty child hashed n i M → M ≠ ∅ → length hs = 16%nat →
  (∀ b, (b < 16)%nat → default 0 (hs !! b) = branch_hash ty n (sub (63 - n) b M)) →
  inner_hash (with_hashes i hs) = inner_digest ty n M.
Proof.
  intros Hi HM Hlen Hhs. unfold inner_hash. cbn [mIsBranch mHashes with_hashes].
  destruct (Z.eqb_spec (mIsBranch i) 0) as [E|_]; [by destruct (inner_nonempty _ _ _ _ _ Hi HM)|].
  unfold inner_digest. rewrite decide_False by done. do 2 f_equal.
  assert (hs = (λ b, branch_hash ty n (sub (63 - n) b M)) <$> seq 0 16) as ->; [|apply bind_fmap].
  apply list_eq_same_length with 16%nat; [by rewrite length_fmap, length_seq|done|].
  intros b x y Hb Hx Hy. rewrite list_lookup_fmap, lookup_seq_lt in Hy by lia. simpl in Hy. injection Hy as <-.
  specialize (Hhs b Hb). by rewrite Hx in Hhs.
Qed.

Lemma child_hash_known P A w n M i b :
  inner_ok ty (child_rep ty P A w n) (link_at w) n i M → (b < 16)%nat → getChild i b = None →
  getChildHash i b = branch_hash ty n (sub (63 - n) b M).
Proof.
  intros [_ Hbs _] Hb Hc. destruct (Hbs b Hb) as [_ E2 E3]. unfold branch_hash. case_decide as Hm; [by apply E2|].
  specialize (E3 Hm). rewrite Hc in E3. destruct E3 as [_ Hst]. destruct n; by destruct Hst as [? _].
Qed.

(** Writing the node itself. *)
Lemma put_node P A w n node M i i' :
  (n < 64)%nat → good (63 - n) M → inner_at ty P A w n node M → heap w !! node = Some (Inner i) →
  mChildren i' = mChildren i → mIsBranch i' = mIsBranch i → i_seq i' = i_seq i → length (mHashes i') = 16%nat →
  (∀ b, (b < 16)%nat → getChild i b = None → getChildHash i' b = getChildHash i b) →
  hash_ok ty (link_at (put w node (Inner i'))) n i' M → inner_at ty P A (put w node (Inner i')) n node M.
Proof.
  intros Hn Hg Hi Hnode Ec Eb Es Hl Hhs Hh.
  pose proof Hi as (i0 & Hnode' & HP & [Hsh Hbs _]). assert (i0 = i) as -> by congruence.
  exists i'. split; [apply fresh_lookup_put|]. split; [by rewrite Es|].
  split; [split; [done|rewrite Ec; apply Hsh|rewrite Eb; apply Hsh]| |done].
  intros b Hb. destruct (Hbs b Hb) as [E1 E2 E3].
  assert (getChild i' b = getChild i b) as Ech by (unfold getChild; by rewrite Ec).
  split; [unfold isEmptyBranch in *; by rewrite Eb| |]; rewrite Ech.
  - intros Hm. destruct (E2 Hm) as [En Ez]. split; [done|]. by rewrite Hhs.
  - intros Hm. specialize (E3 Hm). destruct (getChild i b) as [c|] eqn:Ecb; [|by rewrite Hhs].
    simpl in *. apply (rep_avoid _ _ (.= node)) in E3; [|intros y ->; by eapply node_elsewhere|lia|].
    + eapply rep_mono; [|apply rep_put; [|exact E3]]; [by intros l sq [? _]|]. by intros nd _ [_ ?].
    + replace (64 - n)%nat with (S (63 - n)) by lia. apply good_sub; [lia|done].
Qed.

(** Children are not the node. *)
Lemma child_ne_node P A w n node M i b c :
  (n < 64)%nat → good (63 - n) M → inner_at ty P A w n node M → heap w !! node = Some (Inner i) →
  (b < 16)%nat → getChild i b = Some c → c ≠ node.
Proof.
  intros Hn Hg Hi Hnode Hb Hc. pose proof Hi as (i0 & Hnode' & HP & [_ Hbs _]). assert (i0 = i) as -> by congruence.
  destruct (Hbs b Hb) as [_ E2 E3]. destruct (decide (sub (63 - n) b M = ∅)) as [Hm|Hm].
  - destruct (E2 Hm). congruence.
  - specialize (E3 Hm). rewrite Hc in E3. eapply elsewhere_ne; [by eapply node_elsewhere|exact E3|lia|].
    replace (64 - n)%nat with (S (63 - n)) by lia. apply good_sub; [lia|done].
Qed.

Lemma finish_hash_ok P A w n node M i hs (K : SHAMapInnerNode → Prop) :
  (n < 64)%nat → good (63 - n) M → M ≠ ∅ → inner_at ty P A w n node M → heap w !! node = Some (Inner i) → i_seq i ≠ 0 →
  (∀ b c, (b < 16)%nat → getChild i b = Some c → hash_at w c (branch_hash ty n (sub (63 - n) b M))) →
  length hs = 16%nat → (∀ b, (b < 16)%nat → default 0 (hs !! b) = branch_hash ty n (sub (63 - n) b M)) →
  (∀ i', i_seq i' = i_seq i → i_hash i' = inner_digest ty n M →
     inner_at ty P A (put w node (Inner i')) n node M → K i') →
  K (inner_updateHash (with_hashes i hs)).
Proof.
  intros Hn Hg HM Hi Hnode Hz Hch Hlen Hhs HK. pose proof Hi as (i0 & Hnode' & HP & Hok).
  assert (i0 = i) as -> by congruence. pose proof (inner_hash_digest _ _ _ _ _ _ Hok HM Hlen Hhs) as Hd.
  set (i' := inner_updateHash (with_hashes i hs)).
  assert (mHashes i' = hs ∧ mChildren i' = mChildren i ∧ mIsBranch i' = mIsBranch i ∧ i_seq i' = i_seq i ∧
    i_hash i' = inner_digest ty n M) as (E1 & E2 & E3 & E4 & E5).
  { unfold i', inner_updateHash. rewrite Hd. destruct (Z.eqb_spec (inner_digest ty n M) (i_hash (with_hashes i hs))); done. }
  apply HK; [done|done|]. eapply put_node; try done; [by rewrite E1| |].
  - intros b Hb Hc. unfold getChildHash at 1. rewrite E1, Hhs by done. symmetry. by eapply child_hash_known.
  - right. split; [done|]. intros b Hb. unfold getChildHash, getChild. rewrite E1, E2, Hhs by done.
    split; [done|]. intros c Hc. destruct (Hch b c Hb Hc) as (nd & ? & ?). exists nd.
    split; [|split; [done|by rewrite E4]].
    simpl. rewrite lookup_insert_ne; [done|]. symmetry. by eapply child_ne_node.
Qed.

(** The hash at [b] when the loop has done [k] branches. *)
Definition hash_upto n i M (k b : nat) : Z :=
  if (b <? k)%nat then
    match getChild i b with Some _ => branch_hash ty n (sub (63 - n) b M) | None => getChildHash i b end
  else getChildHash i b.

Lemma hash_upto_other n i M k b : k ≠ b ∨ getChild i k = None → hash_upto n i M (k + 1) b = hash_upto n i M k b.
Proof.
  intros Hk. unfold hash_upto. destruct (decide (k = b)) as [<-|Hne].
  - destruct Hk as [?|Hk]; [done|]. rewrite Hk. by destruct (_ <? _)%nat, (_ <? _)%nat.
  - by replace (b <? k + 1)%nat with (b <? k)%nat by (apply eq_bool_prop_intro; rewrite !Is_true_true, !Nat.ltb_lt; lia).
Qed.

Lemma updateHashDeep_ok P A w s n node M i (Q : () → world * SHAMap → Prop) :
  (n < 64)%nat → good (63 - n) M → M ≠ ∅ → inner_at ty P A w n node M → heap w !! node = Some (Inner i) → i_seq i ≠ 0 →
  (∀ b c, (b < 16)%nat → getChild i b = Some c → hash_at w c (branch_hash ty n (sub (63 - n) b M))) →
  (∀ i', i_seq i' = i_seq i → i_hash i' = inner_digest ty n M →
     inner_at ty P A (put w node (Inner i')) n node M → Q () (put w node (Inner i'), s)) →
  wp (updateHashDeep node) (w, s) Q.
Proof.
  intros Hn Hg HM Hi Hnode Hz Hch HQ. pose proof Hi as (i0 & Hnode' & HP & Hok). assert (i0 = i) as -> by congruence.
  apply wp_bind. eapply (wp_foldM_seq _ (λ k _ st, ∃ hs, st = (put w node (Inner (with_hashes i hs)), s) ∧
    length hs = 16%nat ∧ ∀ b, (b < 16)%nat → default 0 (hs !! b) = hash_upto n i M k b)).
  - exists (mHashes i). split; [|split; [apply Hok|done]].
    unfold with_hashes. rewrite put_same; [done|]. rewrite Hnode. by destruct i.
  - intros k [] st Hk (hs & -> & Hlen & Hhs). apply wp_bind. eapply wp_deref_inner; [apply fresh_lookup_put|].
    change (getChild (with_hashes i hs) k) with (getChild i k). destruct (getChild i k) as [c|] eqn:Hc.
    + destruct (Hch k c Hk Hc) as (nd & Hcn & Hhn).
      assert (c ≠ node) by (by eapply child_ne_node).
      apply wp_bind. eapply wp_deref; [simpl; by rewrite lookup_insert_ne|].
      eapply wp_on_inner; [apply fresh_lookup_put|]. rewrite put_put. eexists. split; [done|]. cbn [mHashes with_hashes].
      split; [by rewrite length_insert|]. intros b Hb. destruct (decide (k = b)) as [<-|Hne].
      * rewrite list_lookup_insert_eq by lia. unfold hash_upto. rewrite Hc.
        by replace (k <? k + 1)%nat with true by (symmetry; apply Nat.ltb_lt; lia).
      * rewrite list_lookup_insert_ne, Hhs by done. symmetry. apply hash_upto_other. by left.
    + apply wp_ret. exists hs. split; [done|]. split; [done|]. intros b Hb. rewrite Hhs by done.
      symmetry. apply hash_upto_other. by right.
  - intros [] st (hs & -> & Hlen & Hhs). eapply wp_on_inner; [apply fresh_lookup_put|]. rewrite put_put.
    apply (finish_hash_ok P A w n node M i hs); try done. intros b Hb. rewrite Hhs by done. unfold hash_upto.
    replace (b <? 16)%nat with true by (symmetry; by apply Nat.ltb_lt).
    destruct (getChild i b) eqn:Hc; [done|]. by eapply child_hash_known.
Qed.

End branch.

End Branch.
