(* ===== verification/SHAMapFlush.v ===== *)
(** * Hashing and writing a SHAMap

    [unshare] takes over the nodes of a map that other maps may use and brings
    their hashes up to date; [flushDirty] writes them to the store as well and
    leaves them shared. *)

From S2P Require Import Prelude Serializer StateMonad SHAMapNode SHAMap.
From S2P Require Import SHAMapRep SHAMapRepFacts SHAMapGrow SHAMapWalk SHAMapModify SHAMapAdd.
From S2P Require Import SHAMapDelete SHAMapIter SHAMapMerkle SHAMapWire SHAMapStore SHAMapBranch.
Import Node SM Rep RepFacts Grow Walk Modify Add Update Delete Iter Merkle Wire Store Branch.
Open Scope prog_scope.

Module Flush.

Section flush.
Context `{Digest} (ty : TNType) (strs : list (list Z)) (s : SHAMap) (doWrite write : bool).
Implicit Types (m M : content) (l c p x node : loc) (i : SHAMapInnerNode) (w : world).
Implicit Types (P Q R : loc → Z → Prop) (n b : nat) (A : bool).

(** ** What may be written *)

(** Items that can be read back: keys are not zero. *)
Definition items_writable M : Prop := items_ok ty M ∧ ∀ k, is_Some (M !! k) → k ≠ 0.

Definition inner_strings n M : list (list Z) :=
  inner_string ty n M :: (seq 0 16 ≫= λ b, tree_strings ty n (sub (63 - n) b M)).

Definition may_write n M : Prop :=
  write = true → items_writable M ∧ ∀ y, y ∈ tree_strings ty n M → y ∈ strs.

Definition may_write_inner n M : Prop :=
  write = true → items_writable M ∧ ∀ y, y ∈ inner_strings n M → y ∈ strs.

Lemma may_write_child n M b : (b < 16)%nat → may_write_inner n M → may_write n (sub (63 - n) b M).
Proof.
  intros Hb Hm Ht. destruct (Hm Ht) as [[Hi Hz] Hs]. split; [split; [by apply items_ok_sub|]|].
  - intros k [x [Hx _]%lookup_sub]. apply Hz. eauto.
  - intros y Hy. apply Hs. right. by eapply tree_string_sub.
Qed.

Lemma may_write_tree n M : (2 ≤ size M)%nat → may_write (S n) M → may_write_inner n M.
Proof. intros Hs Hm Ht. destruct (Hm Ht) as [? Hy]. split; [done|]. intros y. unfold inner_strings. rewrite <- tree_strings_inner by done. apply Hy. Qed.

(** The nodes of a flushed tree: shared ones, or the map's own and shared ones. *)
Definition owned P (q : Z) : loc → Z → Prop := λ l sq, P l sq ∧ (sq = 0 ∨ sq = q).

Definition res P (q : Z) : loc → Z → Prop := if write then zero else owned P q.

Lemma res_sub P l sq : (∀ l, P l 0) → res P (seq_ s) l sq → P l sq.
Proof. intros HP. unfold res, owned, zero. destruct write; [by intros ->|by intros [? _]]. Qed.

Lemma res_mono P P' l sq : (P l sq → P' l sq) → res P (seq_ s) l sq → res P' (seq_ s) l sq.
Proof. intros HP. unfold res, owned. destruct write; [done|]. intros [? ?]. auto. Qed.

(** ** Writing a leaf *)

Context (Hnc : no_collision strs) (Hq : seq_ s ≠ 0).

Lemma record_leaf t : mType t = ty → record_of (Leaf t) = leaf_string ty (mItem t).
Proof. intros <-. unfold record_of, leaf_string. cbn [addRaw leaf_addRaw]. by destruct (mType t). Qed.

Lemma write_leaf_ok P w n c t (Q : loc → world * SHAMap → Prop) :
  let mb := {[key (mItem t) := mItem t]} in
  write = true → may_write n mb → cache_ok w → compat strs w → P c (seq_ s) →
  heap w !! c = Some (Leaf t) → l_seq t = seq_ s → mType t = ty → l_hash t = leaf_hash ty (mItem t) →
  (∀ w' c', kept strs P (seq_ s) w w' → rep ty zero true w' n c' mb → hash_at w' c' (tree_hash ty n mb) → Q c' (w', s)) →
  wp (writeNode c) (w, s) Q.
Proof using Hnc Hq.
  intros mb Ht Hmay Hc Hcomp HP Hl Hs Hty Hh HQ. destruct (Hmay Ht) as [[(Hk & _ & HNM) Hz] Hstr].
  assert (mb !! key (mItem t) = Some (mItem t)) as Hmb by apply lookup_singleton_eq.
  pose proof (record_leaf t Hty) as Hrec. pose proof (leaf_hash_string ty (mItem t)) as Hhs.
  assert (leaf_string ty (mItem t) ∈ strs) as Hin.
  { apply Hstr. unfold mb. rewrite tree_strings_singleton. by left. }
  assert (make (record_of (Leaf t)) 0 snfPREFIX (l_hash t) true = Ok (Some (unlinked (setSeq (Leaf t) 0)))) as Hmake.
  { unfold record_of. rewrite make_addRaw_prefix; [done|]. split.
    - assert (key_ok (key (mItem t))) as [? ?] by (apply Hk; eauto). assert (key (mItem t) ≠ 0) by (apply Hz; eauto). lia.
    - intros E. rewrite <- E, Hty. apply (HNM ltac:(congruence) _ _ Hmb). }
  eapply (writeNode_ok w s c (Leaf t)); [done|done|simpl; lia|done|done| |].
  - intros data. cbn [getNodeHash]. rewrite Hh, Hhs, Hrec. by apply Hcomp.
  - intros w' c' Hwr Hsh. cbn [getNodeHash] in *.
    assert (stored ty (db w') n (l_hash t) mb) as Hst.
    { assert (l_hash t = tree_hash ty n mb) as E by (unfold mb; by rewrite tree_hash_singleton).
      assert (db w' !! l_hash t = Some (record_of (Leaf t))) as Hd by (rewrite (wr_db _ _ _ _ Hwr); apply lookup_insert_eq).
      destruct n; (split; [done|]); eexists _, _; (split; [exact Hd|]); (split; [exact Hmake|done]). }
    apply HQ.
    + assert (seq_ s = getSeq (Leaf t)) as -> by done. eapply kept_wrote; [done|done|by rewrite <- Hs in HP| | |done].
      * by rewrite Hrec.
      * cbn [getNodeHash]. by rewrite Hh, Hhs, Hrec.
    + eapply shared_rep; [apply Hwr|done|done].
    + destruct Hsh as (nd & ? & ? & ?). exists nd. split; [done|]. unfold mb. rewrite tree_hash_singleton. congruence.
Qed.

(** ** Writing an inner node *)

(** The state of an inner node before it is written: its children are shared, its
    hashes are up to date. *)
Record ready w n node i M : Prop := {
  rd_at : heap w !! node = Some (Inner i);
  rd_seq : i_seq i = seq_ s;
  rd_shape : shape_ok i;
  rd_hash : i_hash i = inner_digest ty n M;
  rd_branch b : (b < 16)%nat → isEmptyBranch i b = bool_decide (sub (63 - n) b M = ∅);
  rd_child b : (b < 16)%nat → getChildHash i b = branch_hash ty n (sub (63 - n) b M);
  rd_none b : (b < 16)%nat → getChild i b = None → sub (63 - n) b M ≠ ∅ →
    stored ty (db w) n (getChildHash i b) (sub (63 - n) b M);
  rd_some b c : (b < 16)%nat → getChild i b = Some c →
    sub (63 - n) b M ≠ ∅ ∧ rep ty zero true w n c (sub (63 - n) b M)
}.

Lemma ready_from w n node M i `{!DigestLaws} :
  (n < 64)%nat → good (63 - n) M → M ≠ ∅ → inner_at ty (λ l sq, sq = 0 ∨ l = node) true w n node M →
  heap w !! node = Some (Inner i) → i_seq i = seq_ s → i_hash i = inner_digest ty n M → ready w n node i M.
Proof.
  intros Hn Hg HM Hi Hl Hs Hh. pose proof Hi as (i' & Hl' & _ & [Hsh Hbs Hhash]). assert (i' = i) as -> by congruence.
  assert (0 < inner_digest ty n M) as Hpos by (rewrite inner_digest_string by done; apply digest_range).
  destruct Hhash as [[? _]|[_ Hhs]]; [lia|].
  split; [done|done|done|done| | | |].
  - intros b Hb. by destruct (Hbs b Hb).
  - intros b Hb. by apply Hhs.
  - intros b Hb Hc Hm. destruct (Hbs b Hb) as [_ _ E3]. specialize (E3 Hm). rewrite Hc in E3. by destruct E3.
  - intros b c Hb Hc. destruct (Hbs b Hb) as [_ E2 E3].
    assert (sub (63 - n) b M ≠ ∅) as Hm by (intros Hm; destruct (E2 Hm); congruence).
    split; [done|]. specialize (E3 Hm). rewrite Hc in E3. simpl in E3.
    apply (rep_avoid _ _ (.= node)) in E3; [|intros y ->; by eapply node_elsewhere|lia|].
    + eapply rep_mono; [|exact E3]. by intros l sq [[?|?] ?].
    + replace (64 - n)%nat with (S (63 - n)) by lia. apply good_sub; [lia|done].
Qed.

Lemma ready_record w n node i M : ready w n node i M → record_of (Inner i) = inner_string ty n M.
Proof.
  intros Hr. unfold record_of. cbn [addRaw]. rewrite inner_prefix_bytes. unfold inner_string. f_equal.
  assert (∀ bs, (∀ b, b ∈ bs → (b < 16)%nat) →
    bs ≫= hash_block i = bs ≫= λ b, be_bytes 32 (branch_hash ty n (sub (63 - n) b M))) as E.
  { induction bs as [|b bs IH]; intros Hbs; [done|]. cbn. rewrite IH by (intros; apply Hbs; by right).
    unfold hash_block. by rewrite (rd_child _ _ _ _ _ Hr) by (apply Hbs; by left). }
  apply E. intros b Hb%elem_of_seq. lia.
Qed.

Lemma ready_hashes w n node i M `{!DigestLaws} : ready w n node i M → hashes_ok i.
Proof.
  intros Hr. split; [apply Hr| |].
  - intros b Hb. rewrite (rd_child _ _ _ _ _ Hr) by done. by apply branch_hash_range.
  - intros b Hb. rewrite (rd_child _ _ _ _ _ Hr), (rd_branch _ _ _ _ _ Hr), bool_decide_eq_true by done.
    unfold branch_hash. case_decide as Hm; [done|]. pose proof (tree_hash_range ty n _ Hm). split; [done|lia].
Qed.

(** A shared child. *)
Lemma rep_zero_shared A w n c m : rep ty zero A w n c m → shared_at w c (tree_hash ty n m).
Proof. intros Hr. destruct (rep_zero_link _ _ _ _ _ _ 0 Hr) as (nd & ? & ? & ?). exists nd. auto. Qed.

Lemma ready_links w n node i M : ready w n node i M → links_ok w (Inner i).
Proof.
  intros Hr. split; [apply Hr|]. intros b c Hc.
  assert (b < 16)%nat as Hb.
  { rewrite <- (so_children i) by apply Hr. unfold getChild in Hc. destruct (mChildren i !! b) eqn:E; [|done]. by eapply lookup_lt_Some. }
  destruct (rd_some _ _ _ _ _ Hr b c Hb Hc) as [Hm Hrep].
  rewrite (rd_branch _ _ _ _ _ Hr), bool_decide_eq_false_2 by done. split; [done|].
  rewrite (rd_child _ _ _ _ _ Hr) by done. unfold branch_hash. rewrite decide_False by done. by eapply rep_zero_shared.
Qed.

(** After it was written. *)
Lemma ready_wrote w n node i M w' :
  ready w n node i M → wrote w node (Inner i) w' → stored_inner ty (db w') n (i_hash i) M.
Proof using Hq.
  intros Hr [Eh Ed Hsub Hc]. set (i0 := mkInner (i_hash i) 0 (mHashes i) (mChildren i) (mIsBranch i) (mFullBelowGen i)).
  assert (heap w' !! node = Some (Inner i0)) as Hl by (rewrite Eh; apply lookup_insert_eq).
  assert (∀ c mb, rep ty zero true w n c mb → rep ty zero true w' n c mb) as Hkeep.
  { intros c mb. apply rep_transfer; [done|]. intros l nd Hnd Hz. split; [|done]. rewrite Eh, lookup_insert_ne; [done|].
    intros <-. rewrite (rd_at _ _ _ _ _ Hr) in Hnd. injection Hnd as <-. apply Hq. by rewrite <- (rd_seq _ _ _ _ _ Hr). }
  destruct (co_shared _ Hc node _ Hl eq_refl) as [Hrec _].
  apply (recorded_inner ty w' n i0 M zero true); [done|done|done| |].
  - split; [by destruct (rd_shape _ _ _ _ _ Hr)| |].
    + intros b Hb. split; [by apply (rd_branch _ _ _ _ _ Hr)| |].
      * intros Hm. change (getChild i0 b = None ∧ getChildHash i b = 0). rewrite (rd_child _ _ _ _ _ Hr) by done.
        unfold branch_hash. rewrite decide_True by done. split; [|done]. change (getChild i b = None).
        destruct (getChild i b) as [c|] eqn:Hcb; [|done]. by destruct (rd_some _ _ _ _ _ Hr b c Hb Hcb).
      * intros Hm. change (child_rep ty zero true w' n (getChild i b) (getChildHash i b) (sub (63 - n) b M)).
        destruct (getChild i b) as [c|] eqn:Hcb; [by apply Hkeep, (rd_some _ _ _ _ _ Hr b c)|].
        split; [done|]. eapply stored_mono; [done|]. by apply (rd_none _ _ _ _ _ Hr).
    + right. split; [apply Hr|]. intros b Hb. change (getChildHash i0 b) with (getChildHash i b).
      change (getChild i0 b) with (getChild i b). rewrite (rd_child _ _ _ _ _ Hr) by done. split; [done|].
      intros c Hcb. destruct (rd_some _ _ _ _ _ Hr b c Hb Hcb) as [Hm Hrep].
      unfold branch_hash. rewrite decide_False by done. by apply (rep_zero_link _ _ _ _ _ _ 0 (Hkeep _ _ Hrep)).
  - intros b c Hb Hcb Hrep. change (getChildHash i0 b) with (getChildHash i b). rewrite (rd_child _ _ _ _ _ Hr) by done.
    unfold branch_hash. rewrite decide_False by (by eapply rep_nonempty). by eapply rep_zero_stored.
Qed.

Lemma write_inner_ok P w n node i M (Q : loc → world * SHAMap → Prop) `{!DigestLaws} :
  write = true → may_write_inner n M → cache_ok w → compat strs w → P node (seq_ s) → M ≠ ∅ → ready w n node i M →
  (∀ w' l, kept strs P (seq_ s) w w' → inner_at ty zero true w' n l M → hash_at w' l (inner_digest ty n M) → Q l (w', s)) →
  wp (writeNode node) (w, s) Q.
Proof using Hnc Hq.
  intros Ht Hmay Hc Hcomp HP HM Hr HQ. destruct (Hmay Ht) as [_ Hstr]. pose proof (ready_record _ _ _ _ _ Hr) as Hrec.
  assert (inner_string ty n M ∈ strs) as Hin by (apply Hstr; by left).
  assert (i_hash i = sha512Half (inner_string ty n M)) as Hh by (rewrite (rd_hash _ _ _ _ _ Hr); by apply inner_digest_string).
  eapply (writeNode_ok w s node (Inner i)); [done|apply Hr| |by eapply ready_links| | |].
  - cbn [getSeq]. by rewrite (rd_seq _ _ _ _ _ Hr).
  - unfold record_of. rewrite make_addRaw_prefix; [done|]. by eapply ready_hashes.
  - intros data. cbn [getNodeHash]. rewrite Hh, Hrec. by apply Hcomp.
  - intros w' l Hwr Hsh. cbn [getNodeHash] in *. apply HQ.
    + rewrite <- (rd_seq _ _ _ _ _ Hr). eapply (kept_wrote _ _ _ _ (Inner i)); [done|apply Hr| | | |done].
      * cbn [getSeq]. by rewrite (rd_seq _ _ _ _ _ Hr).
      * by rewrite Hrec.
      * cbn [getNodeHash]. by rewrite Hrec.
    + eapply shared_inner_at; [apply Hwr|done|]. by eapply ready_wrote.
    + destruct Hsh as (nd & ? & ? & ?). exists nd. split; [done|]. rewrite <- (rd_hash _ _ _ _ _ Hr). done.
Qed.

(** ** Taking over a node *)

Lemma clone_inner R A w n l m i x :
  inner_at ty R A w n l m → heap w !! l = Some (Inner i) → heap w !! x = None → R x (seq_ s) →
  inner_at ty R A (put w x (clone (Inner i) (seq_ s))) n x m.
Proof using Hq.
  intros (i' & Hl' & HR & Hok) Hl Hx HRx. assert (i' = i) as -> by congruence.
  exists (reseq i (seq_ s)). split; [apply fresh_lookup_put|]. split; [done|].
  eapply (inner_ok_transfer _ R R A w); [done|by intros l' nd ??; apply misses_keep; [apply misses_fresh|..]|].
  destruct Hok as [[? ? ?] Hbs Hh]. split; [done|intros b Hb; by destruct (Hbs b Hb)|].
  destruct Hh as [[? ?]|[Hd Hall]]; [by left|right]. split; [done|]. intros b Hb. destruct (Hall b Hb) as [? Hcl].
  split; [done|]. intros c Hc. destruct (Hcl c Hc) as (nd & ? & ? & _). by exists nd.
Qed.

Lemma wp_preFlush w c nd (Q : loc → world * SHAMap → Prop) :
  heap w !! c = Some nd → (getSeq nd = seq_ s → Q c (w, s)) →
  (∀ x, heap w !! x = None → Q x (put w x (clone nd (seq_ s)), s)) →
  wp (preFlushNode c) (w, s) Q.
Proof.
  intros Hc Hs Hf. apply wp_bind. eapply wp_deref; [done|]. apply wp_bind, wp_gets. cbn [snd].
  destruct (Z.eqb_spec (getSeq nd) (seq_ s)); simpl; [by apply wp_ret, Hs|by apply wp_alloc].
Qed.

(** A shared node has shared nodes below it, and its hash. *)
Lemma rep_shared P A w n l m nd :
  rep ty P A w n l m → heap w !! l = Some nd → getSeq nd = 0 → rep ty (λ l sq, P l sq ∧ sq = 0) A w n l m.
Proof.
  revert l m nd. induction n as [|n IH]; intros l m nd Hr Hl Hz; apply rep_unfold;
    apply rep_unfold in Hr as [(t & Ht & HP & Hrest)|(n' & Hn & Hs & (i & Hi & HP & Hok))]; try lia.
  1,2: left; exists t; assert (nd = Leaf t) as -> by congruence; simpl in Hz; done.
  injection Hn as <-. assert (nd = Inner i) as -> by congruence. simpl in Hz.
  right. exists n. split; [done|]. split; [done|]. exists i. split; [done|]. split; [done|].
  destruct Hok as [Hsh Hbs Hh]. split; [done| |done]. intros b Hb. destruct (Hbs b Hb) as [E1 E2 E3].
  split; [done|done|]. intros Hm. specialize (E3 Hm). destruct (getChild i b) as [c|] eqn:Hc; [|done]. simpl in *.
  destruct Hh as [[_ ?]|[_ Hall]]; [done|]. destruct (Hall b Hb) as [_ Hcl].
  destruct (Hcl c Hc) as (nc & Hcn & _ & Hzc). eapply IH; [done|done|by apply Hzc].
Qed.

Lemma rep_shared_hash P A w n l m nd :
  rep ty P A w n l m → heap w !! l = Some nd → getSeq nd = 0 → hash_at w l (tree_hash ty n m).
Proof.
  intros [(t & Hl & _ & _ & -> & Hh)|(n' & -> & Hs & (i & Hl & _ & [_ _ Hh]))]%rep_unfold Hnd Hz.
  - exists (Leaf t). by rewrite tree_hash_singleton.
  - exists (Inner i). split; [done|]. assert (nd = Inner i) as -> by congruence. simpl in Hz.
    rewrite tree_hash_inner by done. destruct Hh as [[_ ?]|[? _]]; [lia|done].
Qed.

Lemma zero_res P l sq : P l sq ∧ sq = 0 → res P (seq_ s) l sq.
Proof. unfold res, owned, zero. destruct write; [by intros [_ ?]|]. intros [? ?]. auto. Qed.

(** ** Flushing a child *)

Context (Hw : write = doWrite && backed_ s) (HL : write = true → DigestLaws).

(** The world has the nodes and records it should have; a node may be added. *)
Record world_ok P w : Prop := {
  wo_zero l : P l 0;
  wo_cache : cache_ok w;
  wo_store : compat strs w;
  wo_fresh l : heap w !! l = None → P l (seq_ s)
}.

Lemma world_ok_kept P w w' : world_ok P w → kept strs P (seq_ s) w w' → world_ok P w'.
Proof.
  intros [HP Hc Hs Hf] Hk. split; [done|by apply (kp_cache _ _ _ _ _ Hk)|by apply (kp_store _ _ _ _ _ Hk)|].
  intros l Hl. apply Hf. destruct (heap w !! l) eqn:E; [|done]. destruct (kp_dom _ _ _ _ _ Hk l) as [? ?]; [by rewrite E|congruence].
Qed.

Lemma world_ok_within P w n m : world_ok P w → world_ok (within ty P w n m) w.
Proof.
  intros [HP Hc Hs Hf]. split; [by intros l; split|done|done|]. intros l Hl. split; [by apply Hf|].
  intros _ [? ?]%elsewhere_in. congruence.
Qed.

(** A branch of [w] after its child was flushed to [c]. *)
Record branch_done P w n mb w' c : Prop := {
  bd_kept : kept strs (within ty P w n mb) (seq_ s) w w';
  bd_rep : rep ty (res (within ty P w n mb) (seq_ s)) (backed_ s) w' n c mb;
  bd_hash : hash_at w' c (tree_hash ty n mb)
}.

Lemma backed_write : write = true → backed_ s = true.
Proof using Hw. rewrite Hw. by intros [_ ?]%andb_prop. Qed.

Lemma flush_own_leaf_ok P w w1 n c t (Q : loc → world * SHAMap → Prop) :
  let mb := {[key (mItem t) := mItem t]} in let P' := within ty P w n mb in
  may_write n mb → world_ok P' w1 → kept strs P' (seq_ s) w w1 →
  P' c (seq_ s) → heap w1 !! c = Some (Leaf t) → l_seq t = seq_ s → mType t = ty → l_hash t = leaf_hash ty (mItem t) →
  (∀ w' c', branch_done P w n mb w' c' → Q c' (w', s)) →
  wp (flush_own_leaf write c) (w1, s) Q.
Proof using Hnc Hq Hw.
  intros mb P' Hmay [_ Hc Hcomp _] Hk HPc Hl Hs Hty Hh HQ. apply wp_bind. eapply wp_deref; [done|]. apply wp_bind, wp_modify.
  cbn [fst snd]. assert (leaf_updateHash t = (false, t)) as ->.
  { unfold leaf_updateHash. by rewrite Hty, Hh, Z.eqb_refl. }
  cbn [snd]. change (set_heap w1 _) with (put w1 c (Leaf t)). rewrite put_same by done.
  remember write as wr eqn:Ew in |- *. symmetry in Ew. destruct wr.
  - eapply (write_leaf_ok P' w1 n c t); try done. intros w' c' Hk' Hr' Hh'. apply HQ. split; [by eapply kept_trans| |done].
    unfold res. rewrite Ew, backed_write by done. done.
  - apply wp_ret, HQ. split; [done| |exists (Leaf t); split; [done|]; unfold mb; by rewrite tree_hash_singleton].
    unfold res. rewrite Ew. apply rep_unfold. left. exists t. split; [done|]. rewrite Hs. split; [by split; [|right]|done].
Qed.

Lemma flush_leaf_ok P w n mb c t (Q : loc → world * SHAMap → Prop) :
  may_write n mb → world_ok P w → rep ty (within ty P w n mb) (backed_ s) w n c mb → heap w !! c = Some (Leaf t) →
  (∀ w' c', branch_done P w n mb w' c' → Q c' (w', s)) →
  wp (flush_leaf write c) (w, s) Q.
Proof using Hnc Hq Hw.
  intros Hmay Hok Hr Hc HQ. pose proof Hr as [(t' & Hc' & HPc & Hty & -> & Hh)|(n' & _ & _ & (i & Hi & _))]%rep_unfold; [|congruence].
  assert (t' = t) as -> by congruence. apply (world_ok_within _ _ n {[key (mItem t) := mItem t]}) in Hok.
  apply wp_bind. eapply wp_preFlush; [done| |].
  - intros Hs. simpl in Hs. eapply (flush_own_leaf_ok P w w n c t); try done; by rewrite <- Hs.
  - intros x Hx. set (t' := mkLeaf (l_hash t) (seq_ s) (mType t) (mItem t)).
    assert (kept strs (within ty P w n {[key (mItem t) := mItem t]}) (seq_ s) w (put w x (Leaf t'))) as Hk.
    { apply kept_fresh; [done|done|by apply Hok|done]. }
    eapply (flush_own_leaf_ok P w _ n x t'); try done; [by eapply world_ok_kept|by apply Hok|apply fresh_lookup_put].
Qed.

(** What flushing an inner node with less than [N] digits below its children does. *)
Definition flushes (flush : loc → prog (Z * loc)) (N : nat) : Prop :=
  ∀ P w n node i M (Q : Z * loc → world * SHAMap → Prop),
  (n < N)%nat → (n < 64)%nat → good (63 - n) M → M ≠ ∅ → may_write_inner n M → world_ok P w →
  inner_at ty P (backed_ s) w n node M → heap w !! node = Some (Inner i) → i_seq i = seq_ s →
  (∀ w' cnt l, kept strs P (seq_ s) w w' → inner_at ty (res P (seq_ s)) (backed_ s) w' n l M →
     hash_at w' l (inner_digest ty n M) → Q (cnt, l) (w', s)) →
  wp (flush node) (w, s) Q.

Lemma flush_child_ok flush N P w n mb c i (Q : Z * loc → world * SHAMap → Prop) :
  flushes flush N → (n ≤ N)%nat → (n ≤ 64)%nat → good (64 - n) mb → may_write n mb → world_ok P w →
  rep ty (within ty P w n mb) (backed_ s) w n c mb → heap w !! c = Some (Inner i) →
  (∀ w' c' cnt, branch_done P w n mb w' c' → Q (cnt, c') (w', s)) →
  wp (let! child := preFlushNode c in flush child) (w, s) Q.
Proof using Hq.
  intros IH Hf Hn Hg Hmay Hok Hr Hc HQ.
  pose proof Hr as [(t & Hc' & _)|(n' & -> & Hs & Hi)]%rep_unfold; [congruence|].
  replace (64 - S n')%nat with (63 - n')%nat in Hg by lia. apply may_write_tree in Hmay; [|done].
  assert (mb ≠ ∅) as Hmb by (by eapply rep_nonempty). apply (world_ok_within _ _ (S n') mb) in Hok.
  set (P' := within ty P w (S n') mb) in *.
  assert (∀ w1 w' c' cnt, kept strs P' (seq_ s) w w1 → kept strs P' (seq_ s) w1 w' →
    inner_at ty (res P' (seq_ s)) (backed_ s) w' n' c' mb → hash_at w' c' (inner_digest ty n' mb) →
    Q (cnt, c') (w', s)) as Hdone.
  { intros w1 w' c' cnt Hk1 Hk2 Hi' Hh. apply HQ. split; [by eapply kept_trans| |by rewrite tree_hash_inner].
    apply rep_unfold. right. by exists n'. }
  apply wp_bind. eapply wp_preFlush; [done| |].
  - intros Hs'. eapply (IH P' w n' c i mb); try done. intros w' cnt l ???. eapply (Hdone w); [apply kept_refl|done..].
  - intros x Hx. assert (kept strs P' (seq_ s) w (put w x (clone (Inner i) (seq_ s)))) as Hk.
    { apply kept_fresh; [done|done|by apply Hok|done]. }
    eapply (IH P' _ n' x _ mb); try done; [by eapply world_ok_kept| |apply fresh_lookup_put|done|].
    + apply (clone_inner _ _ _ _ c); try done. by apply Hok.
    + intros w' cnt l ???. by eapply Hdone.
Qed.

(** ** The loop over the branches *)

(** A child that is done. *)
Definition child_done P w n mb c : Prop :=
  hash_at w c (branch_hash ty n mb) ∧ rep ty (res P (seq_ s)) (backed_ s) w n c mb.

Definition loop_at P w n node M (k : nat) (st : world * SHAMap) : Prop :=
  st.2 = s ∧ kept strs P (seq_ s) w st.1 ∧ inner_at ty P (backed_ s) st.1 n node M ∧
  ∃ i, heap st.1 !! node = Some (Inner i) ∧ i_seq i = seq_ s ∧
    ∀ b c, (b < k)%nat → getChild i b = Some c → child_done P st.1 n (sub (63 - n) b M) c.

Lemma loop_skip P w n node M k st i :
  (k < 16)%nat → loop_at P w n node M k st → heap st.1 !! node = Some (Inner i) →
  (∀ c, getChild i k = Some c → child_done P st.1 n (sub (63 - n) k M) c) →
  loop_at P w n node M (k + 1) st.
Proof.
  intros Hk (Es & Hkp & Hi & i' & Hnode & Hseq & Hd) Hnode' Hc. assert (i' = i) as -> by congruence.
  split; [done|]. split; [done|]. split; [done|]. exists i. split; [done|]. split; [done|].
  intros b c Hb Hbc. destruct (decide (b = k)) as [->|]; [by apply Hc|]. apply Hd; [lia|done].
Qed.

Lemma loop_share P w n node M k w1 i w' c :
  (n < 64)%nat → good (63 - n) M → (k < 16)%nat → sub (63 - n) k M ≠ ∅ → P node (seq_ s) → (∀ l, P l 0) →
  loop_at P w n node M k (w1, s) → heap w1 !! node = Some (Inner i) →
  branch_done P w1 n (sub (63 - n) k M) w' c →
  heap w' !! node = Some (Inner i) ∧
  loop_at P w n node M (k + 1) (put w' node (Inner (shareChild i k c)), s).
Proof using Hq.
  intros Hn Hg Hk Hm HPn HP0 (_ & Hkp & Hi & i' & Hnode & Hseq & Hd) Hnode' [Hk2 Hr Hh]. simpl in *.
  assert (i' = i) as -> by congruence. set (P' := within ty P w1 n (sub (63 - n) k M)) in *.
  assert (∀ l sq, res P' (seq_ s) l sq → P' l sq) as Hsub by (intros l sq; apply res_sub; by split).
  destruct (reshare_ok ty strs P (seq_ s) (backed_ s) w1 w' n node i M k c) as (Hkp' & Hi' & Hsib & Hc2 & HcR); try done.
  { eapply rep_mono; [|exact Hr]. auto. }
  split.
  { apply (kp_node _ _ _ _ _ Hk2); [done|]. right. intros [_ He]. apply He; [done|]. by eapply node_elsewhere. }
  split; [done|]. split; [by eapply kept_trans|]. split; [done|].
  exists (shareChild i k c). split; [apply fresh_lookup_put|]. split; [done|]. intros b c' Hb.
  destruct (decide (b = k)) as [->|Hne].
  - pose proof Hi as (i2 & Hn2 & _ & [Hsh _ _]). assert (i2 = i) as -> by congruence.
    rewrite getChild_share by (rewrite (so_children _ Hsh); lia). intros [= <-]. split.
    + unfold branch_hash. rewrite decide_False by done. destruct Hh as (nd & Hnd & ?). exists nd. split; [by apply Hc2|done].
    + apply HcR. eapply rep_mono; [|exact Hr]. intros l sq HR. split; [|by apply Hsub].
      eapply res_mono; [|exact HR]. by intros [? _].
  - rewrite getChild_share_ne by done. intros Hc'. destruct (Hd b c' ltac:(lia) Hc') as [(nd & Hnd & ?) Hrep].
    destruct (Hsib b c' ltac:(lia) Hne Hc') as [Hs1 Hs2]. split; [exists nd; split; [by apply Hs1|done]|by apply Hs2].
Qed.

Lemma flush_branch_ok flush N P w n node M k cnt w1 :
  flushes flush N → (n ≤ N)%nat → (n < 64)%nat → good (63 - n) M → (k < 16)%nat →
  may_write_inner n M → world_ok P w → loop_at P w n node M k (w1, s) →
  wp (flush_branch flush write node cnt k) (w1, s) (λ _ st, loop_at P w n node M (k + 1) st).
Proof using Hnc Hq Hw.
  intros HF HnN Hn Hg Hk Hmay Hok Hl. pose proof Hl as (_ & Hkp & Hi & i & Hnode & Hseq & Hd). simpl in *.
  pose proof Hi as (i2 & Hn2 & HPi & [Hsh Hbs Hh]). assert (i2 = i) as -> by congruence. rewrite Hseq in HPi.
  destruct (Hbs k Hk) as [E1 E2 E3]. apply wp_bind. eapply wp_deref_inner; [done|]. rewrite E1.
  destruct (bool_decide_reflect (sub (63 - n) k M = ∅)) as [Hm|Hm].
  { apply wp_ret. eapply loop_skip; [done|done|done|]. intros c Hc. destruct (E2 Hm). congruence. }
  specialize (E3 Hm). destruct (getChild i k) as [c|] eqn:Hc; simpl in E3.
  2:{ apply wp_ret. eapply loop_skip; [done|done|done|]. intros c. by rewrite Hc. }
  destruct (rep_seq _ _ _ _ _ _ _ E3) as (nd & Hcn & _). apply wp_bind. eapply wp_deref; [done|].
  destruct (Z.eqb_spec (getSeq nd) 0) as [Hz|Hz].
  { apply wp_ret. eapply loop_skip; [done|done|done|]. intros c'. rewrite Hc. intros [= <-].
    split; [unfold branch_hash; rewrite decide_False by done; by eapply rep_shared_hash|].
    eapply rep_mono; [|by eapply rep_shared]. intros l sq. apply zero_res. }
  pose proof (world_ok_kept _ _ _ Hok Hkp) as Hok1. apply child_within in E3; [|done|done].
  assert (good (64 - n) (sub (63 - n) k M)) as Hg'.
  { replace (64 - n)%nat with (S (63 - n)) by lia. apply good_sub; [lia|done]. }
  pose proof (may_write_child _ _ _ Hk Hmay) as Hmay'.
  apply wp_bind, (wp_mono _ _ (λ r st, ∃ w', st = (w', s) ∧ branch_done P w1 n (sub (63 - n) k M) w' r.2)).
  - destruct nd as [ci|t].
    + eapply flush_child_ok; try done; [lia|]. intros. eexists. done.
    + apply wp_bind. eapply flush_leaf_ok; [done|done|done|done|]. intros. apply wp_ret. eexists. done.
  - intros [cnt' c'] st (w' & -> & Hdone).
    destruct (loop_share P w n node M k w1 i w' c') as [Hnw Hl']; try done; [apply Hok|].
    apply wp_bind. eapply wp_on_inner; [done|]. by apply wp_ret.
Qed.

(** ** The whole tree *)

(** The nodes while the node itself is not yet written. *)
Definition almost P node : loc → Z → Prop := λ l sq, res P (seq_ s) l sq ∨ (l = node ∧ sq = seq_ s).

Lemma loop_end P w n node M w1 :
  loop_at P w n node M 16 (w1, s) → inner_at ty (almost P node) (backed_ s) w1 n node M.
Proof.
  intros (_ & _ & (i & Hl & HP & [Hsh Hbs Hh]) & i' & Hl' & Hs & Hd). simpl in *. assert (i' = i) as -> by congruence.
  exists i. split; [done|]. split; [by right|]. split; [done| |done].
  intros b Hb. destruct (Hbs b Hb) as [E1 E2 E3]. split; [done|done|]. intros Hm. specialize (E3 Hm).
  destruct (getChild i b) as [c|] eqn:Hc; [|done]. simpl. eapply rep_mono; [|by apply (Hd b c)]. intros l sq ?. by left.
Qed.

Lemma inner_at_mono R R' A w n l m :
  (∀ l sq, R l sq → R' l sq) → inner_at ty R A w n l m → inner_at ty R' A w n l m.
Proof. intros HR. eapply inner_at_transfer; [done|]. auto. Qed.

Lemma flush_end_ok P w n node i M (Q : loc → world * SHAMap → Prop) :
  (n < 64)%nat → good (63 - n) M → M ≠ ∅ → may_write_inner n M → world_ok P w → P node (seq_ s) →
  inner_at ty (almost P node) (backed_ s) w n node M →
  heap w !! node = Some (Inner i) → i_seq i = seq_ s → i_hash i = inner_digest ty n M →
  (∀ w' l, kept strs P (seq_ s) w w' → inner_at ty (res P (seq_ s)) (backed_ s) w' n l M →
     hash_at w' l (inner_digest ty n M) → Q l (w', s)) →
  wp (if write then writeNode node else ret node) (w, s) Q.
Proof using Hnc Hq Hw HL.
  intros Hn Hg HM Hmay [HP0 Hc Hcomp _] HPn Hi Hnode Hs Hh HQ.
  remember write as wr eqn:Ew in |- *. symmetry in Ew. destruct wr.
  - pose proof (HL Ew) as Hlaws. pose proof (backed_write Ew) as Hb.
    eapply (write_inner_ok P w n node i M); try done.
    + apply ready_from; try done. rewrite Hb in Hi. eapply inner_at_mono; [|exact Hi].
      intros l sq [HR|[-> _]]; [left|by right]. unfold res in HR. by rewrite Ew in HR.
    + intros w' l ? Hi' ?. apply HQ; [done| |done]. unfold res. by rewrite Ew, Hb.
  - apply wp_ret, HQ; [apply kept_refl| |by exists (Inner i)]. eapply inner_at_mono; [|exact Hi].
    intros l sq [?|[-> ->]]; [done|]. unfold res. rewrite Ew. split; [done|by right].
Qed.

Definition flush_below (fuel : nat) : loc → prog (Z * loc) :=
  match fuel with
  | O => λ _, throw (Undefined "more than 64 inner nodes on a path")
  | S fuel => flush_inner fuel doWrite
  end.

Lemma wp_flush_inner fuel node w (Q : Z * loc → world * SHAMap → Prop) :
  wp (let! flushed := foldM (flush_branch (flush_below fuel) write node) 0 (seq 0 16) in
      updateHashDeep node ;;
      let! node := if write then writeNode node else ret node in ret (flushed + 1, node)) (w, s) Q →
  wp (flush_inner fuel doWrite node) (w, s) Q.
Proof using Hw. intros HQ. destruct fuel; cbn [flush_inner]; apply wp_bind, wp_gets; cbn [snd]; rewrite <- Hw; exact HQ. Qed.

Lemma flush_loop_ok flush N fuel :
  flushes flush N → flush = flush_below fuel → flushes (flush_inner fuel doWrite) (S N).
Proof using Hnc Hq Hw HL.
  intros HF Heq P w n node i M Q HnN Hn Hg HM Hmay Hok Hi Hnode Hseq HQ. apply wp_flush_inner. rewrite <- Heq. apply wp_bind.
  assert (P node (seq_ s)) as HPn.
  { pose proof Hi as (i2 & Hn2 & HPi & _). assert (i2 = i) as -> by congruence. by rewrite <- Hseq. }
  eapply (wp_foldM_seq _ (λ k _ st, loop_at P w n node M k st)).
  - split; [done|]. split; [apply kept_refl|]. split; [done|]. exists i. split; [done|]. split; [done|]. lia.
  - intros k cnt [w1 s1] Hk Hl. pose proof Hl as (Es & _). simpl in Es. subst s1.
    eapply flush_branch_ok; try done. lia.
  - intros cnt [w1 s1] Hl. pose proof Hl as (Es & Hkp & _ & i1 & Hn1 & Hs1 & Hd). simpl in *. subst s1.
    apply wp_bind. eapply (updateHashDeep_ok ty (almost P node));
      [done|done|done|by eapply loop_end|done|by rewrite Hs1|intros b c Hb Hc; by apply (Hd b c)|].
    intros i' Es' Hh' Hi'. apply wp_bind. assert (kept strs P (seq_ s) w (put w1 node (Inner i'))) as Hk'.
    { eapply kept_trans; [done|]. apply kept_put; [done| |done|by simpl; rewrite Es']. intros nd. rewrite Hn1. by intros [= <-]. }
    eapply (flush_end_ok P _ n node i' M); try done; [by eapply world_ok_kept|apply fresh_lookup_put|by rewrite Es'|].
    intros w' l Hk Hi2 Hh2. apply wp_ret, HQ; [by eapply kept_trans|done|done].
Qed.

Lemma flush_inner_ok fuel : flushes (flush_inner fuel doWrite) (S fuel).
Proof using Hnc Hq Hw HL.
  induction fuel as [|fuel IH].
  - apply (flush_loop_ok (flush_below 0)); [|done]. intros P w n. lia.
  - by apply (flush_loop_ok (flush_below (S fuel))).
Qed.

End flush.

End Flush.
