(* ===== verification/SHAMapUnshare.v ===== *)
(** * [unshare], [getHash] and [flushDirty]

    The items of a map are kept, its hash is the Merkle hash of the items, and
    after [flushDirty] the store has what is needed to read the map back. *)

From S2P Require Import Prelude Serializer StateMonad SHAMapNode SHAMap.
From S2P Require Import SHAMapRep SHAMapRepFacts SHAMapGrow SHAMapWalk SHAMapModify SHAMapAdd.
From S2P Require Import SHAMapDelete SHAMapIter SHAMapMerkle SHAMapWire SHAMapStore SHAMapBranch SHAMapFlush.
Import Node SM Rep RepFacts Grow Walk Modify Add Update Delete Iter Merkle Wire Store Branch Flush.
Open Scope prog_scope.

Module Unshare.

Section unshare.
Context `{Digest} (ty : TNType).
Implicit Types (m M : content) (l c p x node : loc) (i : SHAMapInnerNode) (w : world) (s : SHAMap).
Implicit Types (P Q R : loc → Z → Prop) (n b : nat) (A : bool).

Lemma inv_good P w s m : inv ty P w s m → good 0 m.
Proof. intros [_ _ Hm _ _ _]. split; [done|]. intros k k' Hk Hk'. rewrite !pre_0; auto. Qed.

(** Below a shared inner node. *)
Lemma inner_at_shared P A w n l m i :
  inner_at ty P A w n l m → heap w !! l = Some (Inner i) → i_seq i = 0 →
  inner_at ty (λ l sq, P l sq ∧ sq = 0) A w n l m.
Proof.
  intros (i' & Hi & HP & [Hsh Hbs Hh]) Hl Hz. assert (i' = i) as -> by congruence.
  exists i. split; [done|]. split; [done|]. split; [done| |done].
  intros b Hb. destruct (Hbs b Hb) as [E1 E2 E3]. split; [done|done|]. intros Hm. specialize (E3 Hm).
  destruct (getChild i b) as [c|] eqn:Hc; [|done]. simpl in *.
  destruct Hh as [[_ ?]|[_ Hall]]; [done|]. destruct (Hall b Hb) as [_ Hcl].
  destruct (Hcl c Hc) as (nc & Hnc & _ & Hzc). eapply rep_shared; [done|done|by apply Hzc].
Qed.

(** ** [walkSubTree] *)

Definition walked strs (write : bool) P w s m w' s' : Prop :=
  kept strs P (seq_ s) w w' ∧ same_map s s' ∧
  inner_at ty (res write P (seq_ s)) (backed_ s) w' 63 (root_ s') m ∧ hash_at w' (root_ s') (root_hash ty m).

Lemma walkSubTree_ok strs (doWrite : bool) P w s m (Q : Z → world * SHAMap → Prop) :
  let write := doWrite && backed_ s in
  inv ty P w s m → no_collision strs → (write = true → DigestLaws) → may_write_inner ty strs write 63 m → compat strs w →
  (∀ cnt, m = ∅ → hash_at w (root_ s) (root_hash ty m) → Q cnt (w, s)) →
  (∀ w' s' cnt, m ≠ ∅ → walked strs write P w s m w' s' → Q cnt (w', s')) →
  wp (walkSubTree doWrite) (w, s) Q.
Proof.
  intros write Hinv Hnc HL Hmay Hcomp HQ0 HQ. pose proof Hinv as [Hr Hc Hm Hq HP0 HPq].
  pose proof Hr as (i & Hl & HPi & Hok). apply wp_bind, wp_gets. cbn [snd]. apply wp_bind. eapply wp_deref; [done|].
  cbn [getSeq]. destruct (Z.eqb_spec (i_seq i) 0) as [Hz|Hz].
  { apply wp_ret. assert (hash_at w (root_ s) (root_hash ty m)).
    { exists (Inner i). split; [done|]. destruct Hok as [_ _ [[_ ?]|[? _]]]; done. }
    destruct (decide (m = ∅)); [by apply HQ0|apply HQ; [done|]].
    split; [apply kept_refl|]. split; [symmetry; apply set_root_same|]. split; [|done].
    eapply inner_at_mono; [|by eapply inner_at_shared]. intros l sq. apply zero_res. }
  unfold isEmpty. destruct (Z.eqb_spec (mIsBranch i) 0) as [He|He].
  { apply wp_ret. destruct (decide (m = ∅)) as [->|Hne]; [|by destruct (inner_nonempty _ _ _ _ _ _ Hok Hne)].
    apply HQ0; [done|]. exists (Inner i). split; [done|]. destruct Hok as [_ _ [[? _]|[? _]]]; done. }
  assert (m ≠ ∅) as Hne by (intros ->; by eapply He, inner_empty).
  assert (∀ w1 node j, kept strs P (seq_ s) w w1 → inner_at ty P (backed_ s) w1 63 node m →
    heap w1 !! node = Some (Inner j) → i_seq j = seq_ s →
    wp (let! r := flush_inner 64 doWrite node in modify (λ st : world * SHAMap, (st.1, set_root st.2 r.2)) ;; ret r.1) (w1, s) Q) as Hflush.
  { intros w1 node j Hk Hi Hn Hs. apply wp_bind.
    eapply (flush_inner_ok ty strs s doWrite write Hnc Hq eq_refl HL 64 P w1 63%nat node j m); try done; [lia|lia|by eapply inv_good| |].
    - split; [done|by apply (kp_cache _ _ _ _ _ Hk)|by apply (kp_store _ _ _ _ _ Hk)|done].
    - intros w' cnt r Hk' Hi' Hh. apply wp_bind, wp_modify, wp_ret. apply HQ; [done|].
      split; [by eapply kept_trans|done]. }
  apply wp_bind. eapply wp_preFlush; [done| |].
  - intros Hs. by eapply (Hflush w (root_ s) i).
  - intros x Hx. eapply (Hflush _ x (reseq i (seq_ s))); [by apply kept_fresh| |apply fresh_lookup_put|done].
    by eapply clone_inner.
Qed.

Lemma walked_changed strs write P w s m w' s' :
  inv ty P w s m → walked strs write P w s m w' s' → changed ty P w s w' s' m.
Proof.
  intros [Hr Hc Hm Hq HP0 HPq] (Hk & Hs & Hi & _). destruct (same_map_fields _ _ Hs) as [Eq Eb].
  split; [by eapply kept_frame|done|].
  split; [|by apply (kp_cache _ _ _ _ _ Hk)|done|by rewrite Eq|done|by rewrite Eq].
  rewrite Eb. eapply inner_at_mono; [|exact Hi]. intros l sq. by apply res_sub.
Qed.

(** ** [unshare] and [getHash] *)

Lemma no_strings w : no_collision [] ∧ compat [] w.
Proof. split; [intros ? ? Hx|intros ? Hx]; by apply elem_of_nil in Hx. Qed.

(** The items are kept, the root gets its hash, and unless the map is empty its
    nodes are its own or shared. *)
Lemma unshare_ok P w s m (Q : Z → world * SHAMap → Prop) :
  inv ty P w s m →
  (∀ cnt, m = ∅ → hash_at w (root_ s) (root_hash ty m) → Q cnt (w, s)) →
  (∀ w' s' cnt, m ≠ ∅ → changed ty P w s w' s' m → changed ty (owned P (seq_ s)) w s w' s' m →
     hash_at w' (root_ s') (root_hash ty m) → kept [] P (seq_ s) w w' → Q cnt (w', s')) →
  wp unshare (w, s) Q.
Proof.
  intros Hinv HQ0 HQ. destruct (no_strings w). eapply (walkSubTree_ok []); [done|done|done|done|done|done|].
  intros w' s' cnt Hne Hwk. pose proof (walked_changed _ _ _ _ _ _ _ _ Hinv Hwk) as Hch.
  destruct Hwk as (Hk & _ & Hi & Hh). apply HQ; [done|done| |done|done].
  destruct Hch as [Hf Hs [? ? ? ? ? ?]], (same_map_fields _ _ Hs) as [Eq Eb]. rewrite Eq in *.
  split; [done|done|]. split; [by rewrite Eb|done|done|by rewrite Eq| |].
  - intros l. split; [done|by left].
  - intros l. rewrite Eq. split; [done|by right].
Qed.

Lemma changed_refl P w s m : inv ty P w s m → changed ty P w s w s m.
Proof. split; [apply frame_refl|symmetry; apply set_root_same|done]. Qed.

Lemma getHash_ok P w s m (Q : Z → world * SHAMap → Prop) :
  inv ty P w s m →
  (∀ w' s', changed ty P w s w' s' m → hash_at w' (root_ s') (root_hash ty m) → kept [] P (seq_ s) w w' →
     Q (root_hash ty m) (w', s')) →
  wp getHash (w, s) Q.
Proof.
  intros Hinv HQ. pose proof Hinv as [Hr Hc Hm Hq HP0 HPq].
  pose proof Hr as (i & Hl & HPi & [_ _ Hh]). apply wp_bind, wp_gets. cbn [snd]. apply wp_bind. eapply wp_deref; [done|].
  cbn [getNodeHash]. destruct (Z.eqb_spec (i_hash i) 0) as [Hz|Hz].
  - assert (∀ w' s', changed ty P w s w' s' m → hash_at w' (root_ s') (root_hash ty m) →
      kept [] P (seq_ s) w w' → wp (let! s0 := this in let! nd := deref (root_ s0) in ret (getNodeHash nd)) (w', s') Q) as Hend.
    { intros w' s' Hch (nd & Hnd & Hh') Hk. apply wp_bind, wp_gets. cbn [snd]. apply wp_bind.
      eapply wp_deref; [done|]. apply wp_ret. rewrite Hh'. apply HQ; [done|by exists nd|done]. }
    apply wp_bind. eapply unshare_ok; [done| |].
    + intros cnt _ Hh'. apply Hend; [by apply changed_refl|done|apply kept_refl].
    + intros w' s' cnt _ Hch _ Hh' Hk. by apply Hend.
  - apply wp_ret. destruct Hh as [[? _]|[E _]]; [done|]. rewrite E.
    apply HQ; [by apply changed_refl|by exists (Inner i)|apply kept_refl].
Qed.

(** ** [flushDirty] *)

Lemma inner_zero_stored A w n l m :
  cache_ok w → inner_at ty zero A w n l m → stored_inner ty (db w) n (inner_digest ty n m) m.
Proof.
  intros Hc (i & Hl & Hz & Hi). destruct (co_shared _ Hc l _ Hl Hz) as [Hrec _].
  pose proof Hi as [_ Hbs [[_ ?]|[Hdig Hhs]]]; [done|]. rewrite <- Hdig. eapply recorded_inner; [done|done|done|done|].
  intros b c Hb Hcb Hr. destruct (Hhs b Hb) as [-> _]. unfold branch_hash.
  rewrite decide_False by (by eapply rep_nonempty). by eapply rep_zero_stored.
Qed.

(** The items are kept; when the map has any, all of its nodes are shared and are
    in the store. *)
Lemma flushDirty_ok P w s m `{!DigestLaws} (Q : Z → world * SHAMap → Prop) :
  inv ty P w s m → backed_ s = true → items_writable ty m →
  no_collision (inner_strings ty 63 m) → compat (inner_strings ty 63 m) w →
  (∀ cnt, m = ∅ → Q cnt (w, s)) →
  (∀ w' s' cnt, m ≠ ∅ → changed ty P w s w' s' m → inner_at ty zero true w' 63 (root_ s') m →
     stored_inner ty (db w') 63 (root_hash ty m) m → db w ⊆ db w' → Q cnt (w', s')) →
  wp flushDirty (w, s) Q.
Proof.
  intros Hinv Hb Hit Hnc Hcomp HQ0 HQ. eapply (walkSubTree_ok (inner_strings ty 63 m)); [done|done|done|by intros _|done|by intros cnt ? _; apply HQ0|].
  rewrite Hb. intros w' s' cnt Hne Hwk. pose proof (walked_changed _ _ _ _ _ _ _ _ Hinv Hwk) as Hch.
  destruct Hwk as (Hk & _ & Hi & _). rewrite Hb in Hi. apply HQ; [done|done|done| |apply Hk].
  eapply inner_zero_stored; [by apply (kp_cache _ _ _ _ _ Hk), Hinv|done].
Qed.

End unshare.

End Unshare.
