(* ===== verification/SHAMapSpec.v ===== *)
(** * SHAMaps as maps

    What the operations promise, as operations on finite maps, and that a SHAMap
    keeps the promise: a client that calls them in any order gets the answers the
    finite map gives.  Two maps that share nodes, an original and its snapshot,
    answer as two finite maps that have nothing to do with each other. *)

From S2P Require Import Prelude Serializer StateMonad SHAMapNode SHAMap.
From S2P Require Import SHAMapRep SHAMapRepFacts SHAMapGrow SHAMapWalk SHAMapModify SHAMapAdd.
From S2P Require Import SHAMapDelete SHAMapBranch SHAMapFlush SHAMapUnshare.
Import Node SM Rep RepFacts Grow Walk Modify Add Update Delete Branch Flush Unshare.
Open Scope prog_scope.

Module Spec.

(** ** Commands *)

Inductive cmd :=
  | AddItem (it : SHAMapItem)
  | UpdateItem (it : SHAMapItem)
  | DelItem (k : Z)
  | PeekItem (k : Z)
  | PeekItemHash (k : Z)
  | HasItem (k : Z)
  | GetHash.

Inductive answer :=
  | ABool (b : bool)
  | AItem (it : option SHAMapItem)
  | AItemHash (r : option (SHAMapItem * Z))
  | AHash (h : Z).

Section spec.
Context `{Digest} (ty : TNType) (isTransaction hasMeta : bool).
Implicit Types (m : content) (w : world) (s : SHAMap) (P : loc → Z → Prop).

Definition exec (c : cmd) : prog answer :=
  match c with
  | AddItem it => let! b := addGiveItem it isTransaction hasMeta in ret (ABool b)
  | UpdateItem it => let! b := updateGiveItem it isTransaction hasMeta in ret (ABool b)
  | DelItem k => let! b := delItem k in ret (ABool b)
  | PeekItem k => let! r := peekItem k in ret (AItem r)
  | PeekItemHash k => let! r := peekItem_hash k in ret (AItemHash r)
  | HasItem k => let! b := hasItem k in ret (ABool b)
  | GetHash => let! h := getHash in ret (AHash h)
  end.

Definition present m (k : Z) : bool := bool_decide (is_Some (m !! k)).

(** The same on the items. *)
Definition spec (c : cmd) m : answer * content :=
  match c with
  | AddItem it => if present m (key it) then (ABool false, m) else (ABool true, <[key it := it]> m)
  | UpdateItem it => if present m (key it) then (ABool true, <[key it := it]> m) else (ABool false, m)
  | DelItem k => (ABool (present m k), delete k m)
  | PeekItem k => (AItem (m !! k), m)
  | PeekItemHash k => (AItemHash ((λ it, (it, leaf_hash ty it)) <$> m !! k), m)
  | HasItem k => (ABool (present m k), m)
  | GetHash => (AHash (root_hash ty m), m)
  end.

(** Keys are 256 bits; an update with another item that has the hash of the old
    one would be taken for no change. *)
Definition allowed (c : cmd) m : Prop :=
  match c with
  | AddItem it => key_ok (key it)
  | UpdateItem it => key_ok (key it) ∧
      ∀ old, m !! key it = Some old → leaf_hash ty it = leaf_hash ty old → it = old
  | DelItem k | PeekItem k | PeekItemHash k | HasItem k => key_ok k
  | GetHash => True
  end.

Definition reads (c : cmd) : Prop :=
  match c with PeekItem _ | PeekItemHash _ | HasItem _ => True | _ => False end.

(** Reading links nodes that are fetched, and nothing else. *)
Lemma exec_reads P w s m c :
  inv ty P w s m → allowed c m → reads c →
  wp (exec c) (w, s) (λ a st, a = (spec c m).1 ∧ (spec c m).2 = m ∧ st.2 = s ∧ grows ty w st.1).
Proof.
  intros Hinv Ha Hr. destruct c; try done; simpl in Ha; apply wp_bind, wp_bind;
    (eapply walkToPointer_ok; [done|done|]); intros w' r Hg Hm Ht; apply wp_ret, wp_ret; simpl;
    rewrite <- ?Hm; unfold present; rewrite <- ?Hm; (split; [|done]); destruct r as [u|]; simpl; try done.
  destruct (Ht u eq_refl) as [_ ->]. done.
Qed.

Lemma changed_grows P w s w' m : inv ty P w s m → grows ty w w' → changed ty P w s w' s m.
Proof. intros Hinv Hg. split; [by apply grows_frame|symmetry; apply set_root_same|by eapply inv_grows]. Qed.

Lemma exec_ok P w s m c :
  leaf_type isTransaction hasMeta = ty → inv ty P w s m → allowed c m →
  wp (exec c) (w, s) (λ a st, a = (spec c m).1 ∧ changed ty P w s st.1 st.2 (spec c m).2).
Proof.
  intros Hty Hinv Ha. assert (∀ k, m !! k = None → present m k = false) as Hno.
  { intros k Hk. unfold present. rewrite Hk. done. }
  assert (∀ k, is_Some (m !! k) → present m k = true) as Hyes by (intros; by apply bool_decide_eq_true_2).
  assert (∀ w', grows ty w w' → changed ty P w s w' s m) as Hg by (intros; by apply changed_grows).
  destruct c as [it|it|k| | | |]; simpl in Ha.
  - apply wp_bind. eapply addGiveItem_ok; [done|done|done| |]; intros; apply wp_ret; simpl; [rewrite Hyes by done|rewrite Hno by done]; auto.
  - destruct Ha as [Hk Hc]. apply wp_bind. eapply updateGiveItem_ok; [done|done|done|done| |]; intros; apply wp_ret; simpl;
      [rewrite Hno by done|rewrite Hyes by done]; auto.
  - apply wp_bind. eapply delItem_ok; [done|done| |]; intros; apply wp_ret; simpl;
      [rewrite Hno, delete_id by done|rewrite Hyes by done]; auto.
  - eapply wp_mono; [by apply (exec_reads P w s m)|]. intros a [w' s'] (-> & -> & -> & ?). auto.
  - eapply wp_mono; [by apply (exec_reads P w s m)|]. intros a [w' s'] (-> & -> & -> & ?). auto.
  - eapply wp_mono; [by apply (exec_reads P w s m)|]. intros a [w' s'] (-> & -> & -> & ?). auto.
  - apply wp_bind. eapply getHash_ok; [done|]. intros w' s' Hch _ _. by apply wp_ret.
Qed.

(** ** Sequences of commands *)

Fixpoint execs (cs : list cmd) : prog (list answer) :=
  match cs with
  | [] => ret []
  | c :: cs => let! a := exec c in let! l := execs cs in ret (a :: l)
  end.

Fixpoint specs (cs : list cmd) m : list answer * content :=
  match cs with
  | [] => ([], m)
  | c :: cs => let '(a, m) := spec c m in let '(l, m) := specs cs m in (a :: l, m)
  end.

Fixpoint all_allowed (cs : list cmd) m : Prop :=
  match cs with [] => True | c :: cs => allowed c m ∧ all_allowed cs (spec c m).2 end.

Lemma changed_trans P w1 s1 w2 s2 w3 s3 m2 m3 :
  changed ty P w1 s1 w2 s2 m2 → changed ty P w2 s2 w3 s3 m3 → changed ty P w1 s1 w3 s3 m3.
Proof.
  intros [F1 S1 I1] [F2 S2 I2]. destruct (same_map_fields _ _ S1) as [Eq _]. rewrite Eq in F2.
  split; [by eapply frame_trans|by eapply same_map_trans|done].
Qed.

Lemma execs_ok P w s m cs :
  leaf_type isTransaction hasMeta = ty → inv ty P w s m → all_allowed cs m →
  wp (execs cs) (w, s) (λ l st, l = (specs cs m).1 ∧ changed ty P w s st.1 st.2 (specs cs m).2).
Proof.
  intros Hty. revert w s m. induction cs as [|c cs IH]; intros w s m Hinv Ha.
  { apply wp_ret. split; [done|]. by apply changed_refl. }
  destruct Ha as [Hc Ha]. apply wp_bind. eapply wp_mono; [by apply (exec_ok P w s m)|].
  intros a [w' s'] [-> Hch]. cbn [fst snd] in *. apply wp_bind. eapply wp_mono; [apply IH; [apply Hch|done]|].
  intros l [w2 s2] [-> Hch2]. cbn [fst snd] in *. apply wp_ret. cbn [specs fst snd].
  destruct (spec c m) as [a m1]. cbn [fst snd] in *. destruct (specs cs m1) as [l m2]. cbn [fst snd] in *.
  split; [done|]. by eapply changed_trans.
Qed.

(** A new map is empty. *)
Lemma new_map_inv P w t q w' s :
  cache_ok w → q ≠ 0 → (∀ l, P l 0) → (∀ l, P l q) → new_map t q w = (w', s) →
  inv ty P w' s ∅ ∧ seq_ s = q ∧ grows ty w w'.
Proof.
  intros Hc Hq HP0 HPq [= <- <-]. set (l := fresh (dom (heap w))).
  assert (heap w !! l = None) as Hl by apply not_elem_of_dom, is_fresh.
  assert (grows ty w (put w l (Inner (new_inner q)))) as Hg by (by eapply grows_own).
  split; [|done]. split; [|by apply (gr_cache _ _ _ Hg)|by intros k [? ?]|done|done|done].
  exists (new_inner q). split; [apply fresh_lookup_put|]. split; [done|]. split; [apply new_inner_shape| |by left].
  intros b Hb. rewrite sub_empty. destruct (new_inner_empty q b Hb) as (? & ? & ?).
  split; [by rewrite bool_decide_eq_true_2|done|done].
Qed.

End spec.

End Spec.
