(* ===== verification/SHAMapSnapshot.v ===== *)
(** * Snapshots

    A snapshot shares nodes with its original.  Both are maps in one world, and
    a command on one of them leaves the other alone. *)

From S2P Require Import Prelude Serializer StateMonad SHAMapNode SHAMap SHAMapDelta.
From S2P Require Import SHAMapRep SHAMapRepFacts SHAMapGrow SHAMapWalk SHAMapModify SHAMapAdd.
From S2P Require Import SHAMapDelete SHAMapBranch SHAMapFlush SHAMapUnshare SHAMapSpec.
From S2P Require Import SHAMapSync SHAMapIter SHAMapMerkle SHAMapWire SHAMapStore.
Import Node SM Delta Rep RepFacts Grow Walk Modify Add Update Delete Branch Flush Unshare Spec.
Open Scope prog_scope.

Module Snap.

Section snap.
Context `{Digest} (ty : TNType) (isTransaction hasMeta : bool).
Implicit Types (m : content) (w : world) (a b s : SHAMap) (P : loc → Z → Prop) (c : cmd).

(** ** Two maps in one world *)

(** A command on the first or the second map. *)
Definition exec2 (first : bool) c : M world2 answer :=
  let p := exec isTransaction hasMeta c in if first then on_first p else on_second p.

Fixpoint exec2s (cs : list (bool * cmd)) : M world2 (list answer) :=
  match cs with
  | [] => ret []
  | (first, c) :: cs => let! x := exec2 first c in let! l := exec2s cs in ret (x :: l)
  end.

(** The same on two finite maps. *)
Definition spec2 (first : bool) c (mm : content * content) : answer * (content * content) :=
  if first then let '(x, m) := spec ty c mm.1 in (x, (m, mm.2))
  else let '(x, m) := spec ty c mm.2 in (x, (mm.1, m)).

Fixpoint spec2s (cs : list (bool * cmd)) (mm : content * content) : list answer * (content * content) :=
  match cs with
  | [] => ([], mm)
  | (first, c) :: cs =>
      let '(x, mm) := spec2 first c mm in let '(l, mm) := spec2s cs mm in (x :: l, mm)
  end.

(** [full] is false when the first map may only be read. *)
Fixpoint all_allowed2 (full : bool) (cs : list (bool * cmd)) (mm : content * content) : Prop :=
  match cs with
  | [] => True
  | (first, c) :: cs =>
      allowed ty c (if first then mm.1 else mm.2) ∧ (first = true → full = false → reads c) ∧
      all_allowed2 full cs (spec2 first c mm).2
  end.

Record pair_inv (full : bool) (Pa Pb : loc → Z → Prop) (st : world2) (mm : content * content) : Prop := {
  pi_first : inv ty Pa st.1.1 st.1.2 mm.1;
  pi_second : inv ty Pb st.1.1 st.2 mm.2;
  pi_apart l : ¬ Pa l (seq_ st.2);
  pi_full l : full = true → ¬ Pb l (seq_ st.1.2)
}.

Lemma inv_frame P q w w' s m : inv ty P w s m → frame ty q w w' → (∀ l, ¬ P l q) → inv ty P w' s m.
Proof.
  intros [Hr Hc Hm Hq HP0 HPq] Hf Hn.
  split; [by apply (fr_inner _ _ _ _ Hf)|by apply (fr_cache _ _ _ _ Hf)|done|done|done|done].
Qed.

Lemma exec2_ok full Pa Pb st (mm : content * content) (first : bool) c :
  leaf_type isTransaction hasMeta = ty → pair_inv full Pa Pb st mm →
  allowed ty c (if first then mm.1 else mm.2) → (first = true → full = false → reads c) →
  wp (exec2 first c) st (λ x st', x = (spec2 first c mm).1 ∧ pair_inv full Pa Pb st' (spec2 first c mm).2).
Proof.
  intros Hty [Ia Ib Hap Hfull] Ha Hr. destruct st as [[w a] b], mm as [ma mb]. cbn [fst snd] in *. unfold wp, exec2, spec2, on_first, on_second.
  destruct first; cbn [fst snd].
  - destruct full.
    + destruct (wp_run _ _ _ (exec_ok ty isTransaction hasMeta Pa w a ma c Hty Ia Ha)) as (x & [w' a'] & -> & -> & [Hf Hs Hi]).
      cbn. destruct (spec ty c ma) as [x m]. cbn [fst snd] in *. split; [done|].
      destruct (same_map_fields _ _ Hs) as [Eq _]. split; cbn [fst snd]; [done|by eapply inv_frame; eauto|done|].
      intros l _. rewrite Eq. by apply Hfull.
    + destruct (wp_run _ _ _ (exec_reads ty isTransaction hasMeta Pa w a ma c Ia Ha ltac:(auto))) as (x & [w' a'] & -> & -> & E & Es & Hg).
      cbn in *. subst a'. destruct (spec ty c ma) as [x m]. cbn [fst snd] in *. subst m. split; [done|].
      split; cbn [fst snd]; [by eapply inv_grows|by eapply inv_grows|done|done].
  - destruct (wp_run _ _ _ (exec_ok ty isTransaction hasMeta Pb w b mb c Hty Ib Ha)) as (x & [w' b'] & -> & -> & [Hf Hs Hi]).
    cbn. destruct (spec ty c mb) as [x m]. cbn [fst snd] in *. split; [done|].
    destruct (same_map_fields _ _ Hs) as [Eq _]. split; cbn [fst snd]; [by eapply inv_frame|done| |done].
    intros l. rewrite Eq. by apply Hap.
Qed.

Lemma exec2s_ok full Pa Pb st (mm : content * content) cs :
  leaf_type isTransaction hasMeta = ty → pair_inv full Pa Pb st mm → all_allowed2 full cs mm →
  wp (exec2s cs) st (λ l st', l = (spec2s cs mm).1 ∧ pair_inv full Pa Pb st' (spec2s cs mm).2).
Proof.
  intros Hty. revert st mm. induction cs as [|[first c] cs IH]; intros st mm Hinv Ha; [by apply wp_ret|].
  destruct Ha as (Hc & Hr & Ha). apply wp_bind. eapply wp_mono; [by eapply (exec2_ok full Pa Pb st mm)|].
  intros x st' [-> Hinv']. cbn [fst snd] in *. apply wp_bind. eapply wp_mono; [by apply (IH _ _ Hinv')|].
  intros l st2 [-> Hinv2]. cbn [fst snd] in *. apply wp_ret. cbn [spec2s fst snd].
  destruct (spec2 first c mm) as [x m1]. cbn [fst snd] in *. destruct (spec2s cs m1) as [l m2]. done.
Qed.

(** ** Taking a snapshot *)

(** The nodes of a map are not younger than the map. *)
Definition upto (q : Z) : loc → Z → Prop := λ _ sq, 0 ≤ sq ≤ q.

(** Its own nodes and shared ones. *)
Definition mine (q : Z) : loc → Z → Prop := λ _ sq, sq = 0 ∨ sq = q.

(** Trees that are all in memory may use the store. *)
Lemma rep_backed P A w n l m : rep ty P A w n l m → rep ty P true w n l m.
Proof.
  revert l m. induction n as [|n IH]; intros l m (nd & Hl & HP & Hr); exists nd; (split; [done|]); (split; [done|]);
    destruct nd as [i|t]; try done.
  destruct Hr as [Hs Hi]. split; [done|]. eapply inner_ok_impl; [exact Hi| |done].
  intros b _ _ Hc. destruct (getChild i b); [by apply IH|]. by destruct Hc.
Qed.

Lemma inner_at_backed P A w n l m : inner_at ty P A w n l m → inner_at ty P true w n l m.
Proof.
  intros (i & Hl & HP & Hi). exists i. split; [done|]. split; [done|].
  eapply inner_ok_impl; [exact Hi| |done]. intros b _ _ Hc. destruct (getChild i b); [by eapply rep_backed|by destruct Hc].
Qed.

(** When the snapshot takes over the nodes it needs. *)
Definition unshares a (isMutable : bool) : bool :=
  negb (match state_ a with Immutable => true | _ => false end) || negb isMutable.

Lemma snapShot_ok w a m isMutable (Q : SHAMap → world * SHAMap → Prop) :
  inv ty (upto (seq_ a)) w a m → 0 < seq_ a < 2 ^ 32 - 1 →
  (∀ w' b, inv ty (upto (seq_ a)) w' a m → inv ty (upto (seq_ b)) w' b m → seq_ b = seq_ a + 1 →
     (unshares a isMutable = true → m ≠ ∅ → inv ty (mine (seq_ b)) w' b m) → Q b (w', a)) →
  wp (snapShot isMutable) (w, a) Q.
Proof.
  intros Ia Hq HQ. pose proof Ia as [Hr Hc Hm Hq0 HP0 HPq]. unfold wp, snapShot.
  destruct (new_map (type_ a) 1 w) as [w1 s1] eqn:En.
  destruct (new_map_inv ty (λ _ _, True) w (type_ a) 1 w1 s1) as (_ & _ & Hg); [done..|].
  assert (backed_ s1 = true) as Eb by (by injection En as <- <-).
  rewrite Eb. set (b := mkSHAMap _ _ _ _ _ _).
  assert (seq_ b = seq_ a + 1) as Es by (unfold b; simpl; apply Z.mod_small; lia).
  pose proof (inv_grows _ _ _ _ _ _ Ia Hg) as Ia1.
  assert (inv ty (upto (seq_ b)) w1 b m) as Ib.
  { destruct Ia1 as [Hr1 ? ? ? ? ?]. split; [|done|done|lia|intros; unfold upto; lia|intros; unfold upto; lia].
    apply (inner_at_backed _ (backed_ a)). eapply inner_at_transfer; [done| |exact Hr1].
    intros l nd ? ?. unfold upto in *. split; [done|lia]. }
  fold (unshares a isMutable). destruct (unshares a isMutable) eqn:Eu; [|by apply HQ].
  assert (wp unshare (w1, b) (λ _ st, Q st.2 (st.1, a))) as Hun; [|by unfold wp in Hun; destruct (unshare (w1, b)) as [[? [? ?]]|]].
  eapply unshare_ok; [exact Ib| |].
  - intros cnt -> _. apply HQ; [done|done|done|done].
  - intros w' b' cnt Hne [Hf Hs Ib'] Hch _ _.
    destruct (same_map_fields _ _ Hs) as [Eq _]. rewrite Es in Hf. apply (HQ w' b').
    + eapply inv_frame; [done|done|]. unfold upto. lia.
    + by rewrite Eq.
    + by rewrite Eq.
    + intros _ _. destruct Hch as [_ _ [Hr' ? ? ? ? ?]]. split; [|done|done|done|by left|by right].
      eapply inner_at_transfer; [done| |exact Hr']. intros l nd ? [_ ?]. unfold mine. by rewrite Eq.
Qed.

End snap.

End Snap.

(** ** Reading a map back

    A map that was written can be read back by its hash. *)

Import Sync Iter Merkle Wire Store Snap.

Module Fetch.

Section fetch.
Context `{Digest} (ty : TNType).
Implicit Types (m : content) (w : world) (s : SHAMap) (P : loc → Z → Prop).

Lemma wp_fetchNodeNT_filter w s id hh f (Q : option loc → world * SHAMap → Prop) :
  readable w hh → cache_ok w → backed_ s = true →
  (∀ l w', grows ty w w' → shared_at w' l hh → Q (Some l) (w', s)) →
  wp (fetchNodeNT_filter id hh f) (w, s) Q.
Proof.
  intros Hst Hc Hb HQ. apply wp_bind, wp_gets. cbn [fst snd].
  destruct (treecache w !! hh) as [l|] eqn:Hl.
  { apply wp_ret, HQ; [apply grows_refl|]. by apply (co_node _ Hc). }
  apply wp_bind, wp_gets. cbn [fst snd]. rewrite Hb. apply wp_bind.
  apply (wp_fetchNodeFromDB ty); [done|done|done|done|]. intros l w' Hg Hs Ht.
  apply wp_bind, wp_bind, wp_gets. cbn [fst snd]. rewrite Ht. apply wp_ret, wp_ret. auto.
Qed.

(** A map made for a hash and its root fetched has the items that are stored
    under the hash. *)
Lemma fetchRoot_ok w m t f w1 s `{!DigestLaws} (Q : bool → world * SHAMap → Prop) :
  cache_ok w → m ≠ ∅ → keys_ok m → stored_inner ty (db w) 63 (root_hash ty m) m →
  map_of_hash t (root_hash ty m) w = (w1, s) →
  (∀ w' s', inv ty (mine 1) w' s' m → seq_ s' = 1 → grows ty w w' → Q true (w', s')) →
  wp (fetchRoot (root_hash ty m) f) (w1, s) Q.
Proof.
  intros Hc Hne Hk Hst [= <- <-] HQ. set (l0 := fresh (dom (heap w))). set (w1 := set_heap w _).
  assert (heap w !! l0 = None) as Hl0 by apply not_elem_of_dom, is_fresh.
  assert (grows ty w w1) as Hg by (by eapply (grows_own ty w l0 (Inner (new_inner 1)))).
  apply wp_bind, wp_gets. cbn [snd root_]. apply wp_bind. eapply wp_deref; [apply lookup_insert_eq|]. cbn [getNodeHash i_hash new_inner].
  assert (0 < root_hash ty m).
  { unfold root_hash. rewrite inner_digest_string by done. apply digest_range. }
  destruct (Z.eqb_spec (root_hash ty m) 0); [lia|]. apply wp_bind. apply wp_fetchNodeNT_filter; [|by apply (gr_cache _ _ _ Hg)|done|].
  { destruct Hst as (data & i & ? & ? & _). by exists data, (Inner i). }
  intros l w' Hg' Hs. apply wp_bind, wp_modify, wp_ret. pose proof (grows_trans _ _ _ _ Hg Hg') as Hg2.
  assert (cache_ok w') as Hc' by (by apply (gr_cache _ _ _ Hg2)).
  apply HQ; [|done|done]. split; [|done|done|done|by left|by right].
  eapply inner_at_mono; [|apply (shared_inner_at ty w' 63 l (root_hash ty m)); [done|done|]]; [intros ? ? ->; by left|].
  by rewrite (gr_db _ _ _ Hg2).
Qed.

End fetch.

End Fetch.
