(* ===== verification/SHAMapWalkBranch.v ===== *)
(** * Differences and [walkBranch] *)

From S2P Require Import Prelude Serializer StateMonad SHAMapNode SHAMap SHAMapDelta.
From S2P Require Import SHAMapRep SHAMapRepFacts SHAMapGrow SHAMapWalk SHAMapModify SHAMapAdd SHAMapDelete.
Import Node SM Delta Rep RepFacts Grow Walk Modify Add Delete.
Open Scope prog_scope.

Module WalkBranch.

(** ** The differences of two maps *)

Definition dif (a b : content) : Delta :=
  merge (λ o1 o2, if decide (o1 = o2) then None else Some (o1, o2)) a b.

Lemma lookup_dif a b k : dif a b !! k = if decide (a !! k = b !! k) then None else Some (a !! k, b !! k).
Proof. unfold dif. rewrite lookup_merge. by destruct (a !! k), (b !! k). Qed.

(** With the first map on the left or on the right. *)
Definition dif_of (isFirst : bool) (a b : content) : Delta := if isFirst then dif a b else dif b a.

Lemma lookup_dif_of isFirst a b k :
  dif_of isFirst a b !! k = if decide (a !! k = b !! k) then None else Some (DeltaRef isFirst (a !! k) (b !! k)).
Proof. destruct isFirst; simpl; rewrite lookup_dif; [done|]. destruct (decide (a !! k = b !! k)) as [E|E].
  - by rewrite decide_True.
  - by rewrite decide_False. Qed.

Lemma dif_same a : dif a a = ∅.
Proof. apply map_eq. intros k. rewrite lookup_dif, lookup_empty. by rewrite decide_True. Qed.

Lemma dif_of_empty isFirst : dif_of isFirst ∅ ∅ = ∅.
Proof. destruct isFirst; apply dif_same. Qed.

(** An item that the other map does not have. *)
Lemma dif_of_insert isFirst a b k x :
  a !! k = None → b !! k = None →
  map_to_list (dif_of isFirst (<[k := x]> a) b) ≡ₚ
    (k, DeltaRef isFirst (Some x) None) :: map_to_list (dif_of isFirst a b).
Proof.
  intros Ha Hb. assert (dif_of isFirst a b !! k = None) as Hk by (rewrite lookup_dif_of, Ha, Hb; by rewrite decide_True).
  rewrite <- map_to_list_insert by done. apply Permutation_refl'. f_equal. apply map_eq. intros j. rewrite lookup_dif_of.
  destruct (decide (k = j)) as [<-|Hne].
  - rewrite !lookup_insert_eq, Hb. by rewrite decide_False.
  - by rewrite !lookup_insert_ne, lookup_dif_of by done.
Qed.

(** An item with the key of the only one of the other map. *)
Lemma dif_of_match isFirst a (x o : SHAMapItem) :
  a !! key o = None → key x = key o →
  map_to_list (dif_of isFirst (<[key o := x]> a) {[key o := o]}) ≡ₚ
    (if decide (x = o) then [] else [(key o, DeltaRef isFirst (Some x) (Some o))]) ++ map_to_list (dif_of isFirst a ∅).
Proof.
  intros Ha Hk. assert (dif_of isFirst a ∅ !! key o = None) as Hd by (rewrite lookup_dif_of, Ha; by rewrite decide_True).
  assert (∀ j, key o ≠ j → dif_of isFirst (<[key o := x]> a) {[key o := o]} !! j = dif_of isFirst a ∅ !! j) as Hj.
  { intros j Hne. rewrite !lookup_dif_of. by rewrite lookup_insert_ne, lookup_singleton_ne, lookup_empty by done. }
  case_decide as E; cbn [app].
  - apply Permutation_refl'. f_equal. apply map_eq. intros j. destruct (decide (key o = j)) as [<-|Hne]; [|by apply Hj].
    rewrite Hd, lookup_dif_of, lookup_insert_eq, lookup_singleton_eq. rewrite decide_True; [done|congruence].
  - rewrite <- map_to_list_insert by done. apply Permutation_refl'. f_equal. apply map_eq. intros j.
    destruct (decide (key o = j)) as [<-|Hne]; [|by rewrite Hj, lookup_insert_ne].
    rewrite lookup_dif_of, !lookup_insert_eq, lookup_singleton_eq. rewrite decide_False; [done|congruence].
Qed.

Lemma dif_of_only isFirst (o : SHAMapItem) :
  map_to_list (dif_of isFirst ∅ {[key o := o]}) = [(key o, DeltaRef isFirst None (Some o))].
Proof.
  assert (dif_of isFirst ∅ {[key o := o]} = {[key o := DeltaRef isFirst None (Some o)]}) as ->; [|apply map_to_list_singleton].
  apply map_eq. intros j. rewrite lookup_dif_of, lookup_empty. destruct (decide (key o = j)) as [<-|Hne].
  - rewrite !lookup_singleton_eq. by rewrite decide_False.
  - rewrite !lookup_singleton_ne by done. by rewrite decide_True.
Qed.

(** ** By branches *)

Lemma branches_perm {V} (d : nat) (m : gmap Z V) :
  map_to_list m ≡ₚ seq 0 16 ≫= λ b, map_to_list (filter (λ kv, nib d kv.1 = b) m).
Proof.
  apply NoDup_Permutation; [apply NoDup_map_to_list| |].
  - apply NoDup_bind; [|intros; apply NoDup_map_to_list|apply NoDup_seq].
    intros b b' [k x] _ _ Hk Hk'. apply elem_of_map_to_list, map_lookup_filter_Some in Hk as [_ <-].
    by apply elem_of_map_to_list, map_lookup_filter_Some in Hk' as [_ <-].
  - intros [k x]. rewrite elem_of_map_to_list, list_elem_of_bind. split.
    + intros Hk. exists (nib d k). split; [|apply elem_of_seq; pose proof (nib_lt d k); lia].
      apply elem_of_map_to_list, map_lookup_filter_Some. done.
    + intros (b & Hk & _). by apply elem_of_map_to_list, map_lookup_filter_Some in Hk as [? _].
Qed.

Lemma sub_perm d m : map_to_list m ≡ₚ seq 0 16 ≫= λ b, map_to_list (sub d b m).
Proof. apply branches_perm. Qed.

Lemma dif_sub d b m m' : dif (sub d b m) (sub d b m') = filter (λ kv, nib d kv.1 = b) (dif m m').
Proof.
  assert (∀ (m : content) k, sub d b m !! k = if decide (nib d k = b) then m !! k else None) as Hs.
  { intros m0 k. apply option_eq. intros x. rewrite lookup_sub. case_decide; naive_solver. }
  apply map_eq. intros k. rewrite lookup_dif, !Hs. apply option_eq. intros v. rewrite map_lookup_filter_Some, lookup_dif. cbn [fst].
  destruct (decide (nib d k = b)); [|by rewrite decide_True; naive_solver]. case_decide; naive_solver.
Qed.

Lemma dif_perm d m m' : map_to_list (dif m m') ≡ₚ seq 0 16 ≫= λ b, map_to_list (dif (sub d b m) (sub d b m')).
Proof.
  rewrite (branches_perm d). generalize (seq 0 16). intros bs. apply Permutation_refl', list_bind_ext; [|done]. intros b. by rewrite dif_sub.
Qed.

(** ** Noting a difference *)

Section note.
Context (D : Delta) (mc : Z).

(** What is found so far and what is still to be found. *)
Record so_far (f : found) (L : list (Z * DeltaItem)) : Prop := {
  sf_perm : map_to_list D ≡ₚ map_to_list f.1 ++ L;
  sf_count : f.2 = mc - Z.of_nat (size f.1);
  sf_go : size f.1 = 0%nat ∨ Z.of_nat (size f.1) < mc
}.

(** There were too many differences. *)
Definition stopped (f : found) : Prop := f.1 ⊆ D ∧ Z.of_nat (size f.1) = Z.max 1 mc.

Lemma so_far_perm f L L' : L ≡ₚ L' → so_far f L → so_far f L'.
Proof. intros HL [HP ? ?]. split; [by rewrite <- HL|done|done]. Qed.

Lemma note_ok f k v L :
  so_far f ((k, v) :: L) →
  let r := note k v f in if r.1 then so_far r.2 L else stopped r.2.
Proof.
  intros [HP Hc Hg] r. destruct f as [d cnt]. cbn [fst snd] in *.
  assert (d !! k = None) as Hk.
  { pose proof (NoDup_fst_map_to_list D) as Hnd. rewrite HP, fmap_app in Hnd. apply NoDup_app in Hnd as (_ & Hdis & _).
    apply eq_None_not_Some. intros [x Hx]. apply (Hdis k); [|by left]. apply list_elem_of_fmap. exists (k, x).
    split; [done|]. by apply elem_of_map_to_list. }
  assert (size (<[k := v]> d) = S (size d)) as Hs by (by apply map_size_insert_None).
  assert (map_to_list D ≡ₚ map_to_list (<[k := v]> d) ++ L) as HP'.
  { rewrite map_to_list_insert by done. rewrite HP. cbn [app]. by rewrite Permutation_middle. }
  unfold r, note. cbn [fst snd]. rewrite Hk. destruct (Z.leb_spec (cnt - 1) 0); cbn [negb].
  - split; cbn [fst]; [|rewrite Hs; lia]. apply map_subseteq_spec. intros j x Hj. apply elem_of_map_to_list. rewrite HP'.
    apply elem_of_app. left. by apply elem_of_map_to_list.
  - split; cbn [fst snd]; [done|rewrite Hs; lia|right; rewrite Hs; lia].
Qed.

Lemma so_far_done f : so_far f [] → f.1 = D ∧ (D = ∅ ∨ Z.of_nat (size D) < mc).
Proof.
  intros [HP _ Hg]. rewrite app_nil_r in HP. apply map_to_list_inj in HP. subst D. split; [done|].
  destruct Hg as [Hg|]; [left; by apply map_size_empty_iff|by right].
Qed.

End note.

(** ** The walk *)

Section walk.
Context `{Digest} (ty : TNType) (P : loc → Z → Prop) (A : bool) (HP0 : ∀ l, P l 0).
Implicit Types (w : world) (s : SHAMap).

(** A node to be visited, with its height and its items. *)
Definition ent w (c : option loc) (e : nat * content) : Prop := ∃ l, c = Some l ∧ rep ty P A w e.1 l e.2.

Definition weight (es : list (nat * content)) : nat := sum_list_with (λ e, (e.1 + 1) * size e.2)%nat es.

Definition ent_items (e : nat * content) : list (Z * SHAMapItem) := map_to_list e.2.

Lemma ents_grows w w' st es : grows ty w w' → Forall2 (ent w) st es → Forall2 (ent w') st es.
Proof using HP0.
  intros Hg Hes. eapply Forall2_impl; [exact Hes|]. intros c e (l & -> & Hr). exists l. split; [done|]. by apply (gr_rep _ _ _ Hg).
Qed.

Lemma push_branch_ok w s n p m st es b :
  backed_ s = A → cache_ok w → inner_at ty P A w n p m → (b < 16)%nat → Forall2 (ent w) st es →
  wp (push_branch p st b) (w, s) (λ st' ws, ws.2 = s ∧ grows ty w ws.1 ∧ ∃ es',
    Forall2 (ent ws.1) st' es' ∧ es' ≫= ent_items ≡ₚ map_to_list (sub (63 - n) b m) ++ (es ≫= ent_items) ∧
    weight es' = ((n + 1) * length (map_to_list (sub (63 - n) b m)) + weight es)%nat).
Proof using HP0.
  intros Hb Hc Hi Hlt Hes. pose proof Hi as (i & Hl & _ & [_ Hbr _]). destruct (Hbr b Hlt) as [He _ _].
  apply wp_bind. eapply wp_deref_inner; [done|]. rewrite He. case_bool_decide as E.
  - apply wp_ret. split; [done|]. split; [apply grows_refl|]. exists es. rewrite E, map_to_list_empty. cbn. split; [done|]. split; [done|lia].
  - apply wp_bind. rewrite <- Hb in Hi. eapply (descendThrow_ptr_ok ty P w s n p m b); try done.
    rewrite Hb. intros c w' Hg _ Hr. apply wp_ret. split; [done|]. split; [done|]. exists ((n, sub (63 - n) b m) :: es).
    split; [constructor; [by exists c|by eapply ents_grows]|]. split; [done|]. cbn. by rewrite length_map_to_list.
Qed.

Lemma push_branches_ok w s n p m st es :
  backed_ s = A → cache_ok w → inner_at ty P A w n p m → Forall2 (ent w) st es →
  wp (foldM (push_branch p) st (seq 0 16)) (w, s) (λ st' ws, ws.2 = s ∧ grows ty w ws.1 ∧ ∃ es',
    Forall2 (ent ws.1) st' es' ∧ es' ≫= ent_items ≡ₚ map_to_list m ++ (es ≫= ent_items) ∧
    weight es' = ((n + 1) * size m + weight es)%nat).
Proof using HP0.
  intros Hb Hc Hi Hes. set (items := λ b, map_to_list (sub (63 - n) b m)).
  apply (wp_foldM_seq _ (λ k st' ws, ws.2 = s ∧ grows ty w ws.1 ∧ ∃ es',
    Forall2 (ent ws.1) st' es' ∧ es' ≫= ent_items ≡ₚ (seq 0 k ≫= items) ++ (es ≫= ent_items) ∧
    weight es' = ((n + 1) * length (seq 0 k ≫= items) + weight es)%nat)).
  - split; [done|]. split; [apply grows_refl|]. exists es. cbn. split; [done|]. split; [done|lia].
  - intros k st1 [w1 s1] Hk (E & Hg & es1 & Hes1 & HP1 & HW1). cbn [fst snd] in *. subst s1.
    eapply wp_mono; [eapply (push_branch_ok w1 s n p m st1 es1 k); [done|by apply (gr_cache _ _ _ Hg)|by apply (gr_inner _ _ _ Hg)|done|done]|].
    intros st2 [w2 s2] (E2 & Hg2 & es2 & Hes2 & HP2 & HW2). cbn [fst snd] in *. subst s2. split; [done|]. split; [by eapply grows_trans|].
    exists es2. split; [done|]. rewrite (seq_app k 1 0). cbn [seq]. rewrite bind_app, length_app. cbn [mbind list_bind]. rewrite app_nil_r. split.
    + rewrite HP2, HP1. rewrite !app_assoc. f_equiv. by rewrite Permutation_app_comm.
    + fold (items k) in HW2. rewrite HW2, HW1. cbn [Nat.add]. lia.
  - intros st1 [w1 s1] (E1 & Hg & es1 & Hes1 & HP1 & HW1). cbn [fst snd] in *. subst s1. split; [done|]. split; [done|].
    exists es1. split; [done|]. unfold items in *. rewrite <- sub_perm in HP1. split; [done|]. rewrite HW1.
    by rewrite <- sub_perm, length_map_to_list.
Qed.

(** ** [walkBranch] *)

(** The item of the other map that is not accounted for. *)
Definition rest (emptyBranch : bool) (other : option SHAMapItem) : content :=
  match emptyBranch, other with false, Some o => {[key o := o]} | _, _ => ∅ end.

Context (D : Delta) (mc : Z) (other : option SHAMapItem) (isFirst : bool).

(** What a walk ends with. *)
Definition walk_done (L : list (Z * DeltaItem)) w s (r : bool * found) (ws : world * SHAMap) : Prop :=
  ws.2 = s ∧ grows ty w ws.1 ∧ if r.1 then so_far D mc r.2 L else stopped D mc r.2.

Lemma wp_note w s L L' k v f (next : found → prog (bool * found)) :
  so_far D mc f ((k, v) :: L') →
  (∀ f', so_far D mc f' L' → wp (next f') (w, s) (walk_done L w s)) →
  wp (let '(go, f) := note k v f in if go then next f else ret (false, f)) (w, s) (walk_done L w s).
Proof.
  intros Hf Hn. apply note_ok in Hf. cbn zeta in Hf. destruct (note k v f) as [[|] f']; cbn [fst snd] in Hf; [auto|].
  apply wp_ret. split; [done|]. split; [apply grows_refl|done].
Qed.

(** A leaf is taken from the items to be visited. *)
Lemma take_leaf (M : content) x l :
  map_to_list M ≡ₚ (key x, x) :: l → ∃ M', M = <[key x := x]> M' ∧ M' !! key x = None ∧ map_to_list M' ≡ₚ l.
Proof.
  intros HM. exists (delete (key x) M). assert (M !! key x = Some x) as Hx.
  { apply elem_of_map_to_list. rewrite HM. by left. }
  split; [by rewrite insert_delete_id|]. split; [apply lookup_delete_eq|].
  apply (Permutation_cons_inv (a := (key x, x))). rewrite <- HM, <- map_to_list_insert by apply lookup_delete_eq.
  by rewrite insert_delete_id.
Qed.

Lemma branch_end e f L w s :
  so_far D mc f (map_to_list (dif_of isFirst ∅ (rest e other)) ++ L) →
  wp (branch_loop other isFirst 0 [] e f) (w, s) (walk_done L w s).
Proof.
  intros Hf. assert (so_far D mc f L → walk_done L w s (true, f) (w, s)) as Hend.
  { intros Hf'. split; [done|]. split; [apply grows_refl|done]. }
  cbn [branch_loop]. unfold rest in Hf. destruct e; [|destruct other as [o|]].
  1,3: apply wp_ret, Hend; by rewrite dif_of_empty, map_to_list_empty in Hf.
  rewrite dif_of_only in Hf. apply note_ok in Hf. cbn zeta in Hf. apply wp_ret.
  split; [done|]. split; [apply grows_refl|done].
Qed.

(** One leaf, when the loop goes on rightly. *)
Lemma branch_leaf fuel st (x : SHAMapItem) M e f L w s :
  M !! key x = None → so_far D mc f (map_to_list (dif_of isFirst (<[key x := x]> M) (rest e other)) ++ L) →
  (∀ e f, so_far D mc f (map_to_list (dif_of isFirst M (rest e other)) ++ L) →
     wp (branch_loop other isFirst fuel st e f) (w, s) (walk_done L w s)) →
  let unmatched :=
    let '(go, f) := note (key x) (DeltaRef isFirst (Some x) None) f in
    if go then branch_loop other isFirst fuel st e f else ret (false, f) in
  wp (match e, other with
      | false, Some o =>
          if negb (key x =? key o) then unmatched
          else if negb (bool_decide (peekData x = peekData o)) then
            let '(go, f) := note (key x) (DeltaRef isFirst (Some x) (Some o)) f in
            if go then branch_loop other isFirst fuel st true f else ret (false, f)
          else branch_loop other isFirst fuel st true f
      | _, _ => unmatched
      end) (w, s) (walk_done L w s).
Proof.
  intros HM Hf Hgo unmatched.
  assert (rest e other !! key x = None → wp unmatched (w, s) (walk_done L w s)) as Hun.
  { intros Ho. eapply wp_note; [|by apply Hgo]. eapply so_far_perm; [|exact Hf]. by rewrite dif_of_insert. }
  destruct e; [by apply Hun|]. destruct other as [o|]; [|by apply Hun].
  destruct (Z.eqb_spec (key x) (key o)) as [Ek|Ek]; cbn [negb]; [|apply Hun; by apply lookup_singleton_ne].
  cbn [rest] in Hf. rewrite Ek in HM, Hf |- *.
  pose proof (so_far_perm _ _ _ _ _ (Permutation_app_tail L (dif_of_match isFirst M x o HM Ek)) Hf) as Hf'.
  case_decide as E; cbn [app] in Hf'.
  - subst o. rewrite bool_decide_true by done. by apply Hgo.
  - rewrite bool_decide_false; [|intros Ed; apply E; destruct x, o; simpl in *; congruence].
    eapply wp_note; [exact Hf'|]. intros f' Hf2. by apply Hgo.
Qed.

Lemma branch_loop_ok fuel st es M e f L w s :
  backed_ s = A → cache_ok w → Forall2 (ent w) st es → map_to_list M ≡ₚ es ≫= ent_items → (weight es ≤ fuel)%nat →
  so_far D mc f (map_to_list (dif_of isFirst M (rest e other)) ++ L) →
  wp (branch_loop other isFirst fuel st e f) (w, s) (walk_done L w s).
Proof using HP0.
  intros Hb. revert st es M e f w. induction fuel as [|fuel IH]; intros st es M e f w Hc Hes HM Hw Hf;
    destruct Hes as [|c [n m] st es (l & -> & Hr) Hes].
  1,3: apply Permutation_nil_r, map_to_list_empty_iff in HM; subst M; by apply branch_end.
  all: pose proof (rep_nonempty _ _ _ _ _ _ _ Hr) as Hne; apply map_size_non_empty_iff in Hne;
    cbn [weight sum_list_with fst snd] in Hw; fold (weight es) in Hw; cbn [fst snd] in *.
  { destruct (size m); lia. }
  cbn [branch_loop]. apply wp_bind. apply wp_ret. apply wp_bind.
  apply rep_unfold in Hr as [(t & Hl & _ & _ & -> & _)|(n' & -> & Hs & Hi)].
  - eapply wp_deref; [done|]. cbn zeta iota beta. cbn [mbind list_bind] in HM. unfold ent_items at 1 in HM.
    cbn [snd] in HM. rewrite map_to_list_singleton in HM.
    apply take_leaf in HM as (M' & -> & HM & HM'). eapply branch_leaf; [done|done|].
    intros e' f' Hf'. eapply IH; [done|exact Hes|done| |done]. rewrite map_size_singleton in Hw. lia.
  - pose proof Hi as (i & Hl & _). eapply wp_deref; [done|]. apply wp_bind.
    eapply wp_mono; [by eapply push_branches_ok|]. intros st' [w' s'] (Es & Hg & es' & Hes' & HP' & HW'). cbn [fst snd] in *. subst s'.
    eapply wp_mono; [eapply (IH st' es' M); [by apply (gr_cache _ _ _ Hg)|done|by rewrite HP'| |exact Hf]|].
    + rewrite HW'. lia.
    + intros r ws (Es & Hg2 & Hr). split; [done|]. split; [by eapply grows_trans|done].
Qed.

Lemma walkBranch_ok fuel c n m f L w s :
  backed_ s = A → cache_ok w → rep ty P A w n c m → ((n + 1) * size m ≤ fuel)%nat →
  so_far D mc f (map_to_list (dif_of isFirst m (rest false other)) ++ L) →
  wp (walkBranch fuel (Some c) other isFirst f) (w, s) (walk_done L w s).
Proof using HP0.
  intros Hb Hc Hr Hw Hf. eapply (branch_loop_ok _ _ [(n, m)] m); [done|done| | | |].
  - constructor; [by exists c|constructor].
  - cbn. by rewrite app_nil_r.
  - cbn. lia.
  - by destruct other.
Qed.

End walk.

End WalkBranch.
