(* ===== verification/SHAMapCompare.v ===== *)
(** * Comparing two maps

    [compare] finds the differences of two maps by going down both trees where
    their hashes differ.  Equal hashes mean equal items, as no two of the strings
    hashed for the two maps have the same hash. *)

From S2P Require Import Prelude Serializer StateMonad SHAMapNode SHAMap SHAMapDelta.
From S2P Require Import SHAMapRep SHAMapRepFacts SHAMapGrow SHAMapWalk SHAMapModify SHAMapAdd SHAMapDelete.
From S2P Require Import SHAMapMerkle SHAMapBranch SHAMapFlush SHAMapUnshare SHAMapSnapshot SHAMapWalkBranch.
Import Node SM Delta Rep RepFacts Grow Walk Modify Add Delete Merkle Branch Flush Unshare Snap WalkBranch.
Open Scope prog_scope.

Module Compare.

(** ** Methods of one of two maps *)

Lemma wp_on_first {A} (p : prog A) w a b (Q : A → world2 → Prop) :
  wp p (w, a) (λ x ws, Q x (ws.1, ws.2, b)) → wp (on_first p) (w, a, b) Q.
Proof. unfold wp, on_first. by destruct (p (w, a)) as [[x [w' a']]|]. Qed.

Lemma wp_on_second {A} (p : prog A) w a b (Q : A → world2 → Prop) :
  wp p (w, b) (λ x ws, Q x (ws.1, a, ws.2)) → wp (on_second p) (w, a, b) Q.
Proof. unfold wp, on_second. by destruct (p (w, b)) as [[x [w' b']]|]. Qed.

Section compare.
Context `{Digest} {LD : DigestLaws} (ty : TNType) (Pa Pb : loc → Z → Prop) (HPa : ∀ l, Pa l 0) (HPb : ∀ l, Pb l 0).
Implicit Types (w : world) (b n : nat) (P : loc → Z → Prop) (m : content).

(** ** Hashes of children *)

Lemma hash_at_grows w w' l hh : grows ty w w' → hash_at w l hh → hash_at w' l hh.
Proof.
  intros Hg (nd & Hl & Hh). destruct (gr_node _ _ _ Hg _ _ Hl) as (nd' & Hl' & Hle). exists nd'. split; [done|].
  rewrite <- Hh. destruct nd, nd'; simpl in *; try done; [|by subst]. by destruct Hle as (-> & _).
Qed.

Lemma inner_hashed P A w n l m i b :
  inner_at ty P A w n l m → hash_at w l (inner_digest ty n m) → heap w !! l = Some (Inner i) → (b < 16)%nat →
  getChildHash i b = branch_hash ty n (sub (63 - n) b m) ∧
  ∀ c, getChild i b = Some c → hash_at w c (branch_hash ty n (sub (63 - n) b m)).
Proof using LD.
  intros (i' & Hi & _ & [_ Hbs Hh]) (nd & Hnd & Hd) Hl Hb. assert (i' = i) as -> by congruence.
  assert (nd = Inner i) as -> by congruence. cbn [getNodeHash] in Hd. destruct Hh as [[Hz _]|[_ Hall]].
  - assert (m = ∅) as ->.
    { destruct (decide (m = ∅)) as [|Hne]; [done|]. rewrite Hz, inner_digest_string in Hd by done.
      pose proof (digest_range (inner_string ty n m)). lia. }
    rewrite sub_empty. destruct (Hbs b Hb) as [_ E _]. rewrite sub_empty in E. destruct (E eq_refl) as [-> ->].
    unfold branch_hash. by rewrite decide_True.
  - destruct (Hall b Hb) as [E Hc]. split; [done|]. intros c Hg. destruct (Hc c Hg) as (nc & ? & ? & _). exists nc.
    by rewrite <- E.
Qed.

(** ** Pairs of trees *)

Record both (n : nat) m1 m2 : Prop := {
  bt_n : (n ≤ 64)%nat;
  bt_good1 : good (64 - n) m1;
  bt_good2 : good (64 - n) m2;
  bt_items1 : items_ok ty m1;
  bt_items2 : items_ok ty m2;
  bt_strings : no_collision (tree_strings ty n m1 ++ tree_strings ty n m2)
}.

Definition branch_strings (n : nat) m : list (list Z) := seq 0 16 ≫= λ b, tree_strings ty n (sub (63 - n) b m).

Record below (n : nat) m1 m2 : Prop := {
  bl_n : (n < 64)%nat;
  bl_good1 : good (63 - n) m1;
  bl_good2 : good (63 - n) m2;
  bl_items1 : items_ok ty m1;
  bl_items2 : items_ok ty m2;
  bl_strings : no_collision (branch_strings n m1 ++ branch_strings n m2)
}.

Lemma both_below n m1 m2 : both (S n) m1 m2 → (2 ≤ size m1)%nat → (2 ≤ size m2)%nat → below n m1 m2.
Proof.
  intros [Hn G1 G2 I1 I2 Hs] H1 H2. rewrite !tree_strings_inner in Hs by done.
  split; [lia|by replace (63 - n)%nat with (64 - S n)%nat by lia..|done|done|].
  eapply no_collision_mono; [|exact Hs]. intros x. rewrite !elem_of_app. intros [?|?]; [left|right]; by right.
Qed.

Lemma below_both n m1 m2 b : below n m1 m2 → (b < 16)%nat → both n (sub (63 - n) b m1) (sub (63 - n) b m2).
Proof.
  intros [Hn G1 G2 I1 I2 Hs] Hb.
  split; [lia|replace (64 - n)%nat with (S (63 - n)) by lia; apply good_sub; [lia|done]..|by apply items_ok_sub|by apply items_ok_sub|].
  eapply no_collision_mono; [|exact Hs]. intros x. rewrite !elem_of_app. intros [?|?]; [left|right]; by eapply tree_string_sub.
Qed.

(** Equal hashes of branches. *)
Lemma branch_hash_inj n m1 m2 : both n m1 m2 → branch_hash ty n m1 = branch_hash ty n m2 → m1 = m2.
Proof using LD.
  intros [Hn G1 G2 I1 I2 Hs]. unfold branch_hash.
  destruct (decide (m1 = ∅)) as [->|H1], (decide (m2 = ∅)) as [->|H2]; [done|..].
  - pose proof (tree_hash_range ty n m2 H2). lia.
  - pose proof (tree_hash_range ty n m1 H1). lia.
  - by apply tree_inj.
Qed.

(** Two nodes to be compared, with their height and their items. *)
Context (s1 s2 : SHAMap).

Record pair_at w (n : nat) (l1 l2 : loc) m1 m2 : Prop := {
  pa_rep1 : rep ty Pa (backed_ s1) w n l1 m1;
  pa_rep2 : rep ty Pb (backed_ s2) w n l2 m2;
  pa_hash1 : hash_at w l1 (tree_hash ty n m1);
  pa_hash2 : hash_at w l2 (tree_hash ty n m2);
  pa_both : both n m1 m2
}.

Record inners_at w (n : nat) (l1 l2 : loc) m1 m2 : Prop := {
  in_at1 : inner_at ty Pa (backed_ s1) w n l1 m1;
  in_at2 : inner_at ty Pb (backed_ s2) w n l2 m2;
  in_hash1 : hash_at w l1 (inner_digest ty n m1);
  in_hash2 : hash_at w l2 (inner_digest ty n m2);
  in_below : below n m1 m2
}.

Lemma pair_grows w w' n l1 l2 m1 m2 : grows ty w w' → pair_at w n l1 l2 m1 m2 → pair_at w' n l1 l2 m1 m2.
Proof using HPa HPb.
  intros Hg []. split; [by apply (gr_rep _ _ _ Hg)..|by eapply hash_at_grows|by eapply hash_at_grows|done].
Qed.

Lemma inners_grows w w' n l1 l2 m1 m2 : grows ty w w' → inners_at w n l1 l2 m1 m2 → inners_at w' n l1 l2 m1 m2.
Proof using HPa HPb.
  intros Hg []. split; [by apply (gr_inner _ _ _ Hg)..|by eapply hash_at_grows|by eapply hash_at_grows|done].
Qed.

Definition pent w (c : option loc * option loc) (e : nat * (content * content)) : Prop :=
  ∃ l1 l2, c = (Some l1, Some l2) ∧ pair_at w e.1 l1 l2 e.2.1 e.2.2.

Definition pending (e : nat * (content * content)) : list (Z * DeltaItem) := map_to_list (dif e.2.1 e.2.2).

Definition pweight (es : list (nat * (content * content))) : nat :=
  sum_list_with (λ e, (e.1 + 1) * (size e.2.1 + size e.2.2))%nat es.

Lemma pents_grows w w' st es : grows ty w w' → Forall2 (pent w) st es → Forall2 (pent w') st es.
Proof using HPa HPb.
  intros Hg Hes. eapply Forall2_impl; [exact Hes|]. intros c e (l1 & l2 & -> & Hp). exists l1, l2. split; [done|].
  by eapply pair_grows.
Qed.

(** ** One branch *)

Context (D : Delta) (mc : Z) (fuel : nat).

(** What a step of the comparison ends with: the pairs of nodes to go on with and
    what is found so far. *)
Definition step_done (L : list (Z * DeltaItem)) (W : nat) w (r : option PairStack * found) (ws : world2) : Prop :=
  ∃ w', ws = (w', s1, s2) ∧ grows ty w w' ∧
  match r.1 with
  | None => stopped D mc r.2
  | Some st => ∃ es, Forall2 (pent w') st es ∧ so_far D mc r.2 ((es ≫= pending) ++ L) ∧ (pweight es ≤ W)%nat
  end.

Lemma step_done_grows L W w w' r ws : grows ty w w' → step_done L W w' r ws → step_done L W w r ws.
Proof. intros Hg (w2 & -> & Hg2 & Hr). exists w2. split; [done|]. split; [by eapply grows_trans|done]. Qed.

(** A walk of one tree ends a step. *)
Lemma walk_step1 w c n m other st es f L W :
  cache_ok w → rep ty Pa (backed_ s1) w n c m → ((n + 1) * size m ≤ fuel)%nat →
  Forall2 (pent w) st es → (pweight es ≤ W)%nat →
  so_far D mc f (map_to_list (dif m (rest false other)) ++ (es ≫= pending) ++ L) →
  wp (let! r := on_first (walkBranch fuel (Some c) other true f) in ret (if r.1 then Some st else None, r.2))
    (w, s1, s2) (step_done L W w).
Proof using HPa HPb.
  intros Hc Hr Hw Hes HW Hf. apply wp_bind, wp_on_first.
  eapply wp_mono; [eapply (walkBranch_ok ty Pa _ HPa D mc other true); done|].
  intros [go f'] [w' s'] (E & Hg & Hgo). cbn [fst snd] in *. subst s'. apply wp_ret. exists w'. split; [done|]. split; [done|].
  destruct go; [|done]. exists es. split; [by eapply pents_grows|done].
Qed.

Lemma walk_step2 w c n m other st es f L W :
  cache_ok w → rep ty Pb (backed_ s2) w n c m → ((n + 1) * size m ≤ fuel)%nat →
  Forall2 (pent w) st es → (pweight es ≤ W)%nat →
  so_far D mc f (map_to_list (dif (rest false other) m) ++ (es ≫= pending) ++ L) →
  wp (let! r := on_second (walkBranch fuel (Some c) other false f) in ret (if r.1 then Some st else None, r.2))
    (w, s1, s2) (step_done L W w).
Proof using HPa HPb.
  intros Hc Hr Hw Hes HW Hf. apply wp_bind, wp_on_second.
  eapply wp_mono; [eapply (walkBranch_ok ty Pb _ HPb D mc other false); done|].
  intros [go f'] [w' s'] (E & Hg & Hgo). cbn [fst snd] in *. subst s'. apply wp_ret. exists w'. split; [done|]. split; [done|].
  destruct go; [|done]. exists es. split; [by eapply pents_grows|done].
Qed.

(** Going down on both sides. *)
Lemma descend_first w n l1 l2 m1 m2 b (Q : option loc → world2 → Prop) :
  cache_ok w → inners_at w n l1 l2 m1 m2 → (b < 16)%nat → sub (63 - n) b m1 ≠ ∅ →
  (∀ c w', grows ty w w' → rep ty Pa (backed_ s1) w' n c (sub (63 - n) b m1) →
     hash_at w' c (tree_hash ty n (sub (63 - n) b m1)) → Q (Some c) (w', s1, s2)) →
  wp (on_first (descendThrow_ptr l1 b)) (w, s1, s2) Q.
Proof using HPa LD.
  intros Hc [Hi _ Hh _ _] Hb Hne HQ. apply wp_on_first. eapply (descendThrow_ptr_ok ty Pa w s1 n l1 m1 b); try done.
  intros c w' Hg (i & Hl & Hci) Hr. apply HQ; [done|done|].
  pose proof (gr_inner _ _ _ Hg _ _ _ _ _ HPa Hi) as Hi'.
  destruct (inner_hashed _ _ _ _ _ _ _ _ Hi' (hash_at_grows _ _ _ _ Hg Hh) Hl Hb) as [_ Hch].
  specialize (Hch c Hci). unfold branch_hash in Hch. by rewrite decide_False in Hch.
Qed.

Lemma descend_second w n l1 l2 m1 m2 b (Q : option loc → world2 → Prop) :
  cache_ok w → inners_at w n l1 l2 m1 m2 → (b < 16)%nat → sub (63 - n) b m2 ≠ ∅ →
  (∀ c w', grows ty w w' → rep ty Pb (backed_ s2) w' n c (sub (63 - n) b m2) →
     hash_at w' c (tree_hash ty n (sub (63 - n) b m2)) → Q (Some c) (w', s1, s2)) →
  wp (on_second (descendThrow_ptr l2 b)) (w, s1, s2) Q.
Proof using HPb LD.
  intros Hc [_ Hi _ Hh _] Hb Hne HQ. apply wp_on_second. eapply (descendThrow_ptr_ok ty Pb w s2 n l2 m2 b); try done.
  intros c w' Hg (i & Hl & Hci) Hr. apply HQ; [done|done|].
  pose proof (gr_inner _ _ _ Hg _ _ _ _ _ HPb Hi) as Hi'.
  destruct (inner_hashed _ _ _ _ _ _ _ _ Hi' (hash_at_grows _ _ _ _ Hg Hh) Hl Hb) as [_ Hch].
  specialize (Hch c Hci). unfold branch_hash in Hch. by rewrite decide_False in Hch.
Qed.

Lemma compare_branch_ok w n l1 l2 m1 m2 b st es f L :
  cache_ok w → inners_at w n l1 l2 m1 m2 → (b < 16)%nat → Forall2 (pent w) st es →
  let m1b := sub (63 - n) b m1 in
  let m2b := sub (63 - n) b m2 in
  let W := ((n + 1) * (size m1b + size m2b))%nat in
  (W ≤ fuel)%nat → so_far D mc f (map_to_list (dif m1b m2b) ++ (es ≫= pending) ++ L) →
  wp (compare_branch fuel l1 l2 (Some st, f) b) (w, s1, s2) (step_done L (W + pweight es) w).
Proof using HPa HPb LD.
  intros Hc Hin Hb Hes m1b m2b W Hfuel Hf. pose proof Hin as [Hi1 Hi2 Hh1 Hh2 Hbl].
  pose proof Hi1 as (i1 & Hl1 & _ & [_ Hb1 _]). pose proof Hi2 as (i2 & Hl2 & _ & [_ Hb2 _]).
  destruct (inner_hashed _ _ _ _ _ _ _ _ Hi1 Hh1 Hl1 Hb) as [E1 _].
  destruct (inner_hashed _ _ _ _ _ _ _ _ Hi2 Hh2 Hl2 Hb) as [E2 _].
  pose proof (below_both n m1 m2 b Hbl Hb) as Hbt. fold m1b m2b in E1, E2, Hbt.
  cbn [compare_branch]. apply wp_bind, wp_on_first. eapply wp_deref_inner; [done|].
  apply wp_bind, wp_on_second. eapply wp_deref_inner; [done|]. cbn [fst snd]. rewrite E1, E2.
  rewrite (bo_empty _ _ _ _ (Hb1 b Hb)), (bo_empty _ _ _ _ (Hb2 b Hb)). fold m1b m2b.
  destruct (Z.eqb_spec (branch_hash ty n m1b) (branch_hash ty n m2b)) as [E|E].
  - apply (branch_hash_inj n) in E; [|done]. rewrite E, dif_same, map_to_list_empty in Hf. apply wp_ret.
    exists w. split; [done|]. split; [apply grows_refl|]. exists es. split; [done|]. split; [done|lia].
  - case_bool_decide as Z2; [|case_bool_decide as Z1].
    + apply wp_bind. eapply (descend_first w n l1 l2 m1 m2 b); try done; [fold m1b; congruence|]. fold m1b. intros c w' Hg Hr _.
      eapply wp_mono; [eapply (walk_step1 w' c n m1b None st es f L (W + pweight es)); try done|intros r ws; by apply step_done_grows].
      * by apply (gr_cache _ _ _ Hg).
      * lia.
      * by eapply pents_grows.
      * lia.
      * by rewrite Z2 in Hf.
    + apply wp_bind. eapply (descend_second w n l1 l2 m1 m2 b); try done. fold m2b. intros c w' Hg Hr _.
      eapply wp_mono; [eapply (walk_step2 w' c n m2b None st es f L (W + pweight es)); try done|intros r ws; by apply step_done_grows].
      * by apply (gr_cache _ _ _ Hg).
      * lia.
      * by eapply pents_grows.
      * lia.
      * by rewrite Z1 in Hf.
    + apply wp_bind. eapply (descend_first w n l1 l2 m1 m2 b); try done. fold m1b. intros c1 w1 Hg1 Hr1 Hc1.
      apply wp_bind. eapply descend_second; [by apply (gr_cache _ _ _ Hg1)|by eapply inners_grows|done|done|].
      fold m2b. intros c2 w2 Hg2 Hr2 Hc2. apply wp_ret. exists w2. split; [done|]. split; [by eapply grows_trans|].
      exists ((n, (m1b, m2b)) :: es). split; [|split; [|done]; by rewrite bind_cons, <- app_assoc].
      constructor; [|by eapply pents_grows; [|eapply pents_grows]]. exists c1, c2. split; [done|].
      split; [by apply (gr_rep _ _ _ Hg2)|done|by eapply hash_at_grows|done|done].
Qed.

(** ** Two inner nodes *)

Lemma step_done_le L W W' w r ws : (W ≤ W')%nat → step_done L W w r ws → step_done L W' w r ws.
Proof.
  intros HW (w' & -> & Hg & Hr). exists w'. split; [done|]. split; [done|]. destruct r.1; [|done].
  destruct Hr as (es & ? & ? & ?). exists es. split; [done|]. split; [done|lia].
Qed.

Lemma compare_inners_ok w n l1 l2 m1 m2 st es f L :
  cache_ok w → inners_at w n l1 l2 m1 m2 → Forall2 (pent w) st es → ((n + 1) * (size m1 + size m2) ≤ fuel)%nat →
  so_far D mc f (map_to_list (dif m1 m2) ++ (es ≫= pending) ++ L) →
  wp (foldM (compare_branch fuel l1 l2) (Some st, f) (seq 0 16)) (w, s1, s2)
    (step_done L ((n + 1) * (size m1 + size m2) + pweight es) w).
Proof using HPa HPb LD.
  intros Hc Hin Hes Hfuel Hf. set (items m b := map_to_list (sub (63 - n) b m)).
  assert (∀ m b, length (items m b) = size (sub (63 - n) b m)) as Hlen by (intros; apply length_map_to_list).
  set (pb b := map_to_list (dif (sub (63 - n) b m1) (sub (63 - n) b m2))).
  apply (wp_foldM_seq _ (λ k, step_done ((seq k (16 - k) ≫= pb) ++ L)
    ((n + 1) * (length (seq 0 k ≫= items m1) + length (seq 0 k ≫= items m2)) + pweight es) w)).
  - exists w. split; [done|]. split; [apply grows_refl|]. exists es. split; [done|]. split; [|cbn; lia].
    eapply so_far_perm; [|exact Hf]. rewrite (dif_perm (63 - n)). cbn [Nat.sub]. fold pb. rewrite !app_assoc. f_equiv.
    apply Permutation_app_comm.
  - intros k [[st'|] f'] ws Hk (w' & -> & Hg & Hr); cbn [fst snd] in Hr; [|by apply wp_ret; exists w'].
    destruct Hr as (es' & Hes' & Hf' & HW). replace (16 - k)%nat with (S (16 - (k + 1))) in Hf' by lia.
    cbn [seq] in Hf'. rewrite bind_cons in Hf'. replace (S k) with (k + 1)%nat in Hf' by lia.
    rewrite (seq_app k 1 0), !bind_app, !length_app. cbn [seq Nat.add]. rewrite !bind_cons. cbn [mbind list_bind]. rewrite !app_nil_r.
    eapply wp_mono; [eapply (compare_branch_ok w' n l1 l2 m1 m2 k st' es' f' ((seq (k + 1) (16 - (k + 1)) ≫= pb) ++ L))|].
    + by apply (gr_cache _ _ _ Hg).
    + by eapply inners_grows.
    + done.
    + done.
    + pose proof (map_subseteq_size _ _ (sub_subseteq (63 - n) k m1)). pose proof (map_subseteq_size _ _ (sub_subseteq (63 - n) k m2)). nia.
    + fold (pb k). eapply so_far_perm; [|exact Hf']. rewrite !app_assoc. do 2 f_equiv. apply Permutation_app_comm.
    + intros r ws' Hr. apply (step_done_grows _ _ _ _ _ _ Hg). eapply step_done_le; [|exact Hr].
      rewrite <- !Hlen. lia.
  - intros r ws. apply step_done_le. unfold items. by rewrite <- !sub_perm, !length_map_to_list.
Qed.

(** ** Two nodes *)

Lemma compare_leaves_ok x y f L :
  so_far D mc f (map_to_list (dif {[key x := x]} {[key y := y]}) ++ L) →
  let r := compare_leaves x y f in if r.1 then so_far D mc r.2 L else stopped D mc r.2.
Proof.
  intros Hf. unfold compare_leaves. destruct (Z.eqb_spec (key x) (key y)) as [E|E].
  - pose proof (dif_of_match true ∅ x y (lookup_empty _) E) as Hm. rewrite insert_empty, <- E in Hm. cbn [dif_of] in Hm.
    rewrite dif_same, map_to_list_empty, app_nil_r in Hm. rewrite <- E in Hf. apply (so_far_perm _ _ _ _ _ (Permutation_app_tail L Hm)) in Hf.
    case_decide as Exy.
    + subst y. by rewrite bool_decide_true.
    + rewrite bool_decide_false; [|intros Ed; apply Exy; destruct x, y; simpl in *; congruence]. by apply note_ok in Hf.
  - pose proof (dif_of_insert true ∅ {[key y := y]} (key x) x (lookup_empty _) (lookup_singleton_ne _ _ _ (not_eq_sym E))) as Hm.
    rewrite insert_empty, dif_of_only in Hm. apply (so_far_perm _ _ _ _ _ (Permutation_app_tail L Hm)), note_ok in Hf.
    cbn zeta in Hf. cbn [DeltaRef] in Hf. destruct (note (key x) _ f) as [[|] f']; cbn [fst snd] in Hf; [|done]. by apply note_ok in Hf.
Qed.

Lemma compare_nodes_ok w n l1 l2 m1 m2 st es f L :
  cache_ok w → pair_at w n l1 l2 m1 m2 → Forall2 (pent w) st es → ((n + 1) * (size m1 + size m2) ≤ fuel)%nat →
  so_far D mc f (map_to_list (dif m1 m2) ++ (es ≫= pending) ++ L) →
  wp (compare_nodes fuel l1 l2 st f) (w, s1, s2) (step_done L (n * (size m1 + size m2) + pweight es) w).
Proof using HPa HPb LD.
  intros Hc [R1 R2 H1 H2 Hb] Hes Hfuel Hf. pose proof R1 as R1'. pose proof R2 as R2'.
  apply rep_unfold in R1' as [(t1 & Hl1 & _ & _ & E1 & _)|(n1 & E1 & S1 & I1)];
  apply rep_unfold in R2' as [(t2 & Hl2 & _ & _ & E2 & _)|(n2 & E2 & S2 & I2)];
    try (pose proof I1 as (i1 & Hl1 & _)); try (pose proof I2 as (i2 & Hl2 & _));
    apply wp_bind, wp_on_first; (eapply wp_deref; [done|]); cbn [fst snd];
    apply wp_bind, wp_on_second; (eapply wp_deref; [done|]); cbn [fst snd].
  - subst m1 m2. apply wp_ret. exists w. split; [done|]. split; [apply grows_refl|]. apply compare_leaves_ok in Hf. cbn [fst snd].
    destruct (compare_leaves _ _ f) as [[|] f']; cbn [fst snd] in *; [|done]. exists es. split; [done|]. split; [done|lia].
  - subst m1. eapply walk_step2; try done; lia.
  - subst m2. eapply walk_step1; try done; lia.
  - subst n. assert (n2 = n1) as -> by lia. rewrite !tree_hash_inner in H1, H2 by done.
    eapply wp_mono; [eapply (compare_inners_ok w n1 l1 l2 m1 m2 st es); try done; [|lia]|intros r ws; apply step_done_le; lia].
    split; try done. by apply both_below.
Qed.

(** ** The loop *)

Lemma compare_loop_ok steps st es f w :
  cache_ok w → Forall2 (pent w) st es → (pweight es ≤ steps)%nat → (steps ≤ fuel)%nat → so_far D mc f (es ≫= pending) →
  wp (compare_loop fuel steps st f) (w, s1, s2) (λ r ws, ∃ w', ws = (w', s1, s2) ∧ grows ty w w' ∧
    if r.1 then r.2 = D ∧ (D = ∅ ∨ Z.of_nat (size D) < mc) else r.2 ⊆ D ∧ Z.of_nat (size r.2) = Z.max 1 mc).
Proof using HPa HPb LD.
  revert st es f w. induction steps as [|steps IH]; intros st es f w Hc Hes Hw Hs Hf;
    destruct Hes as [|c [n [m1 m2]] st es (l1 & l2 & -> & Hp) Hes].
  1,3: apply wp_ret; exists w; split; [done|]; split; [apply grows_refl|]; by apply so_far_done.
  all: pose proof (rep_nonempty _ _ _ _ _ _ _ (pa_rep1 _ _ _ _ _ _ Hp)) as Hne; apply map_size_non_empty_iff in Hne;
    cbn [pweight sum_list_with fst snd] in *; fold (pweight es) in Hw; cbn [fst snd] in *.
  { destruct (size m1); lia. }
  cbn [compare_loop]. apply wp_bind. eapply wp_mono; [eapply (compare_nodes_ok w n l1 l2 m1 m2 st es f []); try done; [lia|]|].
  { by rewrite app_nil_r. }
  intros [[st'|] f'] ws (w' & -> & Hg & Hr); cbn [fst snd] in Hr.
  - destruct Hr as (es' & Hes' & Hf' & HW). rewrite app_nil_r in Hf'.
    eapply wp_mono; [eapply (IH st' es' f' w'); [by apply (gr_cache _ _ _ Hg)|done|lia|lia|done]|].
    intros r ws (w2 & -> & Hg2 & Hr). exists w2. split; [done|]. split; [by eapply grows_trans|done].
  - apply wp_ret. by exists w'.
Qed.

(** The roots, which are inner nodes with any number of items. *)
Lemma compare_roots_ok steps m1 m2 w f :
  cache_ok w → inners_at w 63 (root_ s1) (root_ s2) m1 m2 → D = dif m1 m2 → (64 * (size m1 + size m2) < fuel)%nat →
  so_far D mc f (map_to_list D) → steps = fuel →
  wp (compare_loop fuel steps [(Some (root_ s1), Some (root_ s2))] f) (w, s1, s2) (λ r ws, ∃ w', ws = (w', s1, s2) ∧ grows ty w w' ∧
    if r.1 then r.2 = D ∧ (D = ∅ ∨ Z.of_nat (size D) < mc) else r.2 ⊆ D ∧ Z.of_nat (size r.2) = Z.max 1 mc).
Proof using HPa HPb LD.
  intros Hc Hin ED Hfuel Hf Es. destruct steps as [|steps]; [lia|]. cbn [compare_loop]. apply wp_bind.
  pose proof Hin as [(i1 & Hl1 & _) (i2 & Hl2 & _) _ _ _]. unfold compare_nodes.
  apply wp_bind, wp_on_first. eapply wp_deref; [done|]. apply wp_bind, wp_on_second. cbn [fst snd].
  eapply wp_deref; [done|]. cbn [fst snd]. eapply wp_mono; [eapply (compare_inners_ok w 63 _ _ m1 m2 [] [] f []); try done; [lia|]|].
  { cbn. by rewrite app_nil_r, <- ED. }
  intros [[st'|] f'] ws (w' & -> & Hg & Hr); cbn [fst snd] in Hr.
  - destruct Hr as (es' & Hes' & Hf' & HW). rewrite app_nil_r in Hf'. cbn in HW.
    eapply wp_mono; [eapply (compare_loop_ok steps st' es' f' w'); [by apply (gr_cache _ _ _ Hg)|done|lia|lia|done]|].
    intros r ws (w2 & -> & Hg2 & Hr). exists w2. split; [done|]. split; [by eapply grows_trans|done].
  - apply wp_ret. by exists w'.
Qed.

End compare.

Section whole.
Context `{Digest} {LD : DigestLaws} (ty : TNType).
Implicit Types (m : content) (w : world).

Lemma root_below m1 m2 :
  items_ok ty m1 → items_ok ty m2 → no_collision (root_strings ty m1 ++ root_strings ty m2) → below ty 63 m1 m2.
Proof.
  intros I1 I2 Hs. assert (∀ m, items_ok ty m → good (63 - 63) m) as Hg.
  { intros m (Hk & _). split; [done|]. intros k k' ??. rewrite !pre_0; auto. }
  split; [lia|auto..|]. eapply no_collision_mono; [|exact Hs].
  assert (∀ m x, x ∈ branch_strings ty 63 m → x ∈ root_strings ty m) as Hin.
  { intros m x Hx. unfold root_strings. case_decide as E; [|by right]. subst m.
    apply list_elem_of_bind in Hx as (b & Hx & _). by rewrite sub_empty in Hx. }
  intros x. rewrite !elem_of_app. intros [?|?]; [left|right]; auto.
Qed.

(** The hashes of both roots are there before they are compared. *)
Lemma compare_ok Pa Pb st m1 m2 mc fuel :
  pair_inv ty true Pa Pb st (m1, m2) → items_ok ty m1 → items_ok ty m2 →
  no_collision (root_strings ty m1 ++ root_strings ty m2) → (64 * (size m1 + size m2) < fuel)%nat →
  wp (compare fuel ∅ mc) st (λ r st', pair_inv ty true Pa Pb st' (m1, m2) ∧
    let D := dif m1 m2 in
    if r.1 then r.2 = D ∧ (D = ∅ ∨ Z.of_nat (size D) < mc) else r.2 ⊆ D ∧ Z.of_nat (size r.2) = Z.max 1 mc).
Proof using LD.
  intros [I1 I2 Hap Hfull] T1 T2 Hnc Hfuel. destruct st as [[w s1] s2]. cbn [fst snd] in *.
  apply wp_bind, wp_on_first. eapply getHash_ok; [done|]. intros w1 s1' [Hf1 Hs1 I1'] Hh1 Hk1. cbn [fst snd].
  destruct (same_map_fields _ _ Hs1) as [Eq1 Eb1].
  assert (inv ty Pb w1 s2 m2) as I2a by (eapply inv_frame; [done|done|]; intros l; by apply Hfull).
  apply wp_bind, wp_on_second. eapply getHash_ok; [done|]. intros w2 s2' [Hf2 Hs2 I2'] Hh2 Hk2. cbn [fst snd].
  destruct (same_map_fields _ _ Hs2) as [Eq2 Eb2].
  pose proof (inv_frame _ _ _ _ _ _ _ I1' Hf2 Hap) as I1a.
  assert (hash_at w2 (root_ s1') (root_hash ty m1)) as Hh1a.
  { destruct Hh1 as (nd & Hnd & Hd). exists nd. split; [|done]. apply (kp_node _ _ _ _ _ Hk2); [done|]. left.
    destruct (inv_root _ _ _ _ _ I1') as (i & Hi & HPi & _). assert (nd = Inner i) as -> by congruence. intros E.
    cbn in E. rewrite E in HPi. by apply Hap in HPi. }
  assert (∀ w', grows ty w2 w' → pair_inv ty true Pa Pb (w', s1', s2') (m1, m2)) as Hpi.
  { intros w' Hg. split; cbn [fst snd]; [by eapply inv_grows|by eapply inv_grows|by rewrite Eq2|].
    intros l _. rewrite Eq1. by apply Hfull. }
  destruct (Z.eqb_spec (root_hash ty m1) (root_hash ty m2)) as [E|E].
  - apply root_hash_inj in E; [|done..]. subst m2. apply wp_ret. split; [by apply Hpi, grows_refl|].
    cbn. rewrite dif_same. auto.
  - apply wp_bind, wp_gets. cbn [fst snd].
    eapply wp_mono; [eapply (compare_roots_ok ty Pa Pb (inv_zero _ _ _ _ _ I1a) (inv_zero _ _ _ _ _ I2') s1' s2' (dif m1 m2) mc fuel); try done|].
    + apply I1a.
    + split; [apply I1a|apply I2'|done|done|by apply root_below].
    + split; cbn [fst snd]; [by rewrite map_to_list_empty|rewrite map_size_empty; lia|left; apply map_size_empty].
    + intros r ws (w' & -> & Hg & Hr). split; [by apply Hpi|done].
Qed.

End whole.

End Compare.
