(* ===== verification/SHAMapProps.v ===== *)
(** * What SHAMaps guarantee

    The theorems on whole maps: any sequence of commands, snapshots, hashes,
    iteration, and writing and reading back. *)

From Stdlib Require Import Sorted.
From S2P Require Import Prelude Serializer StateMonad SHAMapNode SHAMap SHAMapSync SHAMapDelta.
From S2P Require Import SHAMapRep SHAMapRepFacts SHAMapGrow SHAMapWalk SHAMapModify SHAMapAdd.
From S2P Require Import SHAMapDelete SHAMapIter SHAMapMerkle SHAMapWire SHAMapParse SHAMapStore SHAMapBranch SHAMapFlush.
From S2P Require Import SHAMapUnshare SHAMapSpec SHAMapSnapshot SHAMapWalkBranch SHAMapCompare.
Import Node SM Sync Delta Rep RepFacts Grow Walk Modify Add Update Delete Iter Merkle Wire Parse Store Branch Flush Unshare.
Import Spec Snap Fetch WalkBranch Compare.
Open Scope prog_scope.

Module MapProps.

(** ** A digest to compute with *)

#[local] Instance toy_digest : Digest := λ bs, 1 + foldl (λ h b, (h * 257 + b) mod 4294967291) 7 bs mod 4294967291.

#[local] Instance toy_laws : DigestLaws.
Proof.
  split. intros bs. unfold sha512Half, toy_digest.
  pose proof (Z.mod_pos_bound (foldl (λ h b, (h * 257 + b) mod 4294967291) 7 bs) 4294967291). lia.
Qed.

(** A world without nodes. *)
Definition nothing : world := mkWorld ∅ ∅ ∅ [].

Lemma nothing_ok `{Digest} : cache_ok nothing.
Proof. by split. Qed.

Section props.
Context `{Digest}.
Implicit Types (m : content) (w : world) (s : SHAMap) (P : loc → Z → Prop).

(** ** Commands *)

(** A new map after any commands. *)
Lemma run_new isTransaction hasMeta t q w cs :
  let ty := leaf_type isTransaction hasMeta in
  cache_ok w → 0 < q → all_allowed ty cs ∅ →
  ∃ w' s', execs isTransaction hasMeta cs (new_map t q w) = Ok ((specs ty cs ∅).1, (w', s')) ∧
    inv ty (mine q) w' s' (specs ty cs ∅).2 ∧ seq_ s' = q ∧ state_ s' = Modifying ∧ backed_ s' = true.
Proof.
  intros ty Hc Hq Ha. destruct (new_map t q w) as [w1 s1] eqn:En.
  destruct (new_map_inv ty (mine q) w t q w1 s1) as (Hinv & Es & _); [done|lia|by left|by right|done|].
  destruct (wp_run _ _ _ (execs_ok ty isTransaction hasMeta (mine q) w1 s1 ∅ cs eq_refl Hinv Ha)) as (l & [w' s'] & -> & -> & [_ Hs Hi]).
  exists w', s'. split; [done|]. split; [done|]. unfold same_map in Hs. cbn [fst snd] in Hs. rewrite Hs. by injection En as <- <-.
Qed.

Lemma mine_upto q w s ty m : 0 < q → inv ty (mine q) w s m → seq_ s = q → inv ty (upto q) w s m.
Proof.
  intros Hq [Hr ? ? ? ? ?] Es. split; [|done|done|done|intros; unfold upto; lia|intros; unfold upto; lia].
  eapply inner_at_mono; [|exact Hr]. unfold mine, upto. intros l sq. lia.
Qed.

(** C1: any sequence of additions, updates, deletions, lookups and hash
    computations on a new map gives the answers of the finite map from keys to
    items, where the hash is the Merkle hash of the items. *)
Theorem commands_refine isTransaction hasMeta t q w cs :
  let ty := leaf_type isTransaction hasMeta in
  cache_ok w → 0 < q → all_allowed ty cs ∅ →
  ∃ st, execs isTransaction hasMeta cs (new_map t q w) = Ok ((specs ty cs ∅).1, st).
Proof. intros ty Hc Hq Ha. destruct (run_new isTransaction hasMeta t q w cs) as (w' & s' & ? & _); eauto. Qed.


(** ** Snapshots *)

(** C2: after a snapshot of a map that is not empty, commands on the two maps in
    any order give the answers of two finite maps: neither sees what is done to
    the other. *)
Theorem snapshot_isolated isTransaction hasMeta isMutable t q w cs cs' :
  let ty := leaf_type isTransaction hasMeta in let m := (specs ty cs ∅).2 in
  cache_ok w → 0 < q < 2 ^ 32 - 1 → all_allowed ty cs ∅ → m ≠ ∅ → all_allowed2 ty true cs' (m, m) →
  ∃ w1 a w2 b st, execs isTransaction hasMeta cs (new_map t q w) = Ok ((specs ty cs ∅).1, (w1, a)) ∧
    snapShot isMutable (w1, a) = Ok (b, (w2, a)) ∧
    exec2s isTransaction hasMeta cs' (w2, a, b) = Ok ((spec2s ty cs' (m, m)).1, st).
Proof.
  intros ty m Hc Hq Ha Hm Ha'. destruct (run_new isTransaction hasMeta t q w cs) as (w1 & a & Hr & Hi & Es & Est & _); [done|lia|done|].
  apply mine_upto in Hi; [|lia|done]. rewrite <- Es in Hi.
  edestruct (wp_run _ _ _ (snapShot_ok ty w1 a m isMutable (λ b st, st.2 = a ∧ pair_inv ty true (upto q) (mine (q + 1)) (st.1, a, b) (m, m)) Hi ltac:(lia)
    ltac:(intros w' b Ia Ib Eb Hun; split; [done|]; split; cbn [fst snd];
      [by rewrite <- Es|by rewrite <- Es, <- Eb; apply Hun; [unfold unshares; rewrite Est|]|
       rewrite Eb, Es; unfold upto; lia|rewrite Es; unfold mine; lia]))) as (b & [w2 a'] & Hs & Ea & Hp).
  cbn [fst snd] in *. subst a'.
  destruct (wp_run _ _ _ (exec2s_ok ty isTransaction hasMeta true _ _ _ (m, m) cs' eq_refl Hp Ha')) as (l & st & ? & -> & _).
  by exists w1, a, w2, b, st.
Qed.

(** A mutable snapshot of an immutable map takes over no node, and still no
    command on it shows in the original. *)
Theorem working_copy_isolated isTransaction hasMeta w a m cs :
  let ty := leaf_type isTransaction hasMeta in
  inv ty (upto (seq_ a)) w a m → state_ a = Immutable → 0 < seq_ a < 2 ^ 32 - 1 → all_allowed2 ty false cs (m, m) →
  ∃ w' b st, snapShot true (w, a) = Ok (b, (w', a)) ∧ root_ b = root_ a ∧
    exec2s isTransaction hasMeta cs (w', a, b) = Ok ((spec2s ty cs (m, m)).1, st).
Proof.
  intros ty Hi Hst Hq Ha.
  edestruct (wp_run _ _ _ (snapShot_ok ty w a m true (λ b st, st.2 = a ∧ pair_inv ty false (upto (seq_ a)) (upto (seq_ a + 1)) (st.1, a, b) (m, m)) Hi Hq
    ltac:(intros w' b Ia Ib Eb _; split; [done|]; split; cbn [fst snd]; [done|by rewrite <- Eb|rewrite Eb; unfold upto; lia|done])))
    as (b & [w' a'] & Hs & Ea & Hp).
  cbn [fst snd] in *. subst a'.
  destruct (wp_run _ _ _ (exec2s_ok ty isTransaction hasMeta false _ _ _ (m, m) cs eq_refl Hp Ha)) as (l & st & ? & -> & _).
  exists w', b, st. split; [done|]. split; [|done]. unfold snapShot in Hs. rewrite Hst in Hs. by injection Hs as <- _.
Qed.

(** Adding to an empty map changes its root in place. *)
Lemma add_in_place ty P w s it isTransaction hasMeta i :
  inv ty P w s ∅ → heap w !! root_ s = Some (Inner i) → i_seq i = seq_ s →
  wp (addGiveItem it isTransaction hasMeta) (w, s) (λ _ st, st.2 = s).
Proof.
  intros [(i' & Hl' & _ & [_ Hbs _]) _ _ _ _ _] Hl Hs. assert (i' = i) as -> by congruence.
  assert (isEmptyBranch i (selectBranch root_id (key it)) = true) as He.
  { destruct (Hbs (selectBranch root_id (key it))) as [-> _ _]; [rewrite selectBranch_nib by (simpl; lia); apply nib_lt|]. rewrite sub_empty. by apply bool_decide_eq_true_2. }
  apply wp_bind, wp_bind, wp_gets. cbn [snd]. change 64%nat with (S 63). generalize 63%nat. intros fuel. cbn [walk_stack]. apply wp_bind. eapply wp_deref; [done|]. cbn beta iota zeta.
  rewrite He. apply wp_ret. apply wp_bind. eapply wp_deref; [done|]. cbn beta iota.
  apply wp_bind, wp_bind. eapply wp_deref; [done|]. apply wp_bind, wp_gets. cbn [snd getSeq]. rewrite Hs, Z.eqb_refl. apply wp_ret.
  apply wp_bind. eapply wp_deref; [done|]. apply wp_bind, wp_gets. cbn [snd]. apply wp_bind, wp_alloc. intros x Hx.
  assert (x ≠ root_ s) by congruence.
  apply wp_bind. eapply wp_on_inner; [simpl; by rewrite lookup_insert_ne|]. by apply wp_bind, wp_ret, wp_ret.
Qed.

(** Snapshots of an empty map share its root. *)
Lemma snapShot_empty ty w a isMutable :
  inv ty (λ _ _, True) w a ∅ → 0 < seq_ a < 2 ^ 32 - 1 →
  wp (snapShot isMutable) (w, a) (λ b st, grows ty w st.1 ∧ st.2 = a ∧ root_ b = root_ a ∧ seq_ b ≠ 0 ∧ backed_ b = true).
Proof.
  intros Ia Hq. unfold wp, snapShot. destruct (new_map (type_ a) 1 w) as [w1 s1] eqn:E1.
  destruct (new_map_inv ty (λ _ _, True) w (type_ a) 1 w1 s1) as (_ & _ & Hg); [apply Ia|done..|].
  assert (backed_ s1 = true) as -> by (by injection E1 as <- <-). set (b := mkSHAMap _ _ _ _ _ _).
  assert (seq_ b ≠ 0) as Hb by (unfold b; simpl; unfold u32, uwrap; rewrite Z.mod_small; lia).
  destruct (_ || _); [|done].
  assert (wp unshare (w1, b) (λ _ st, st = (w1, b))) as Hu;
    [|by unfold wp in Hu; destruct (unshare (w1, b)) as [[? [? ?]]|]; [injection Hu as -> ->|]].
  eapply (unshare_ok ty (λ _ _, True) w1 b ∅); [|done|done].
  destruct (inv_grows _ _ _ _ _ _ Ia Hg) as [Hr ? ? ? ? ?]. split; [|done..]. by eapply inner_at_backed.
Qed.

(** a snapshot of a map that is empty is not apart from it: what is added to
    the original afterwards is found in the snapshot, even in an immutable one. *)
Theorem empty_snapshot_shared isTransaction hasMeta isMutable t q w it :
  cache_ok w → 0 < q < 2 ^ 32 - 1 → key_ok (key it) →
  let '(w0, a) := new_map t q w in
  ∃ b w1 w2 a' st, snapShot isMutable (w0, a) = Ok (b, (w1, a)) ∧
    addGiveItem it isTransaction hasMeta (w1, a) = Ok (true, (w2, a')) ∧
    peekItem (key it) (w2, b) = Ok (Some it, st).
Proof.
  intros Hc Hq Hk. set (ty := leaf_type isTransaction hasMeta). destruct (new_map t q w) as [w0 a] eqn:En.
  destruct (new_map_inv ty (λ _ _, True) w t q w0 a) as (Ia & Es & _); [done|lia|done|done|done|].
  assert (∃ i, heap w0 !! root_ a = Some (Inner i) ∧ i_seq i = q) as (i & Hl & Hs).
  { injection En as <- <-. exists (new_inner q). split; [apply lookup_insert_eq|done]. }
  destruct (wp_run _ _ _ (snapShot_empty ty w0 a isMutable Ia ltac:(lia))) as (b & [w1 a1] & Hrun & Hg & Ea1 & Er & Hb & Eb).
  cbn [fst snd] in *. subst a1. destruct (gr_node _ _ _ Hg _ _ Hl) as ([i1|] & Hl1 & Hle); [|done].
  pose proof (inv_grows _ _ _ _ _ _ Ia Hg) as Ia1.
  destruct (wp_run _ _ _ (wp_and _ _ _ _
    (add_in_place ty _ w1 a it isTransaction hasMeta i1 Ia1 Hl1 ltac:(destruct Hle as (_ & E & _); congruence))
    (addGiveItem_ok ty (λ _ _, True) w1 a ∅ it isTransaction hasMeta (λ r st, r = true ∧ inv ty (λ _ _, True) st.1 st.2 {[key it := it]})
      Ia1 Hk eq_refl ltac:(intros ? ? ?; by rewrite lookup_empty in *) ltac:(intros w' s' Hno [_ _ Hi]; done))))
    as (r & [w2 a2] & Hadd & Ea & -> & Hi2). cbn [fst snd] in *. subst a2.
  assert (inv ty (λ _ _, True) w2 b {[key it := it]}) as Hib.
  { destruct Hi2 as [Hr ? ? ? ? ?]. split; [|done..]. rewrite Er, Eb. by eapply inner_at_backed. }
  assert (wp (peekItem (key it)) (w2, b) (λ r _, r = Some it)) as (r & st & ? & ->)%wp_run.
  { apply wp_bind. eapply walkToPointer_ok; [done|done|]. intros w' r _ Hm _. apply wp_ret. by rewrite Hm, lookup_singleton_eq. }
  by exists b, w1, w2, a, st.
Qed.

(** ** Hashes *)

(** C4: two maps have the same hash exactly when they have the same items,
    whatever led to them, unless two of the strings they hash collide. *)
Theorem hash_equivalence ty P1 w1 s1 m1 P2 w2 s2 m2 `{!DigestLaws} :
  inv ty P1 w1 s1 m1 → inv ty P2 w2 s2 m2 → items_ok ty m1 → items_ok ty m2 →
  no_collision (root_strings ty m1 ++ root_strings ty m2) →
  ∃ h1 st1 h2 st2, getHash (w1, s1) = Ok (h1, st1) ∧ getHash (w2, s2) = Ok (h2, st2) ∧ (h1 = h2 ↔ m1 = m2).
Proof.
  intros I1 I2 O1 O2 Hnc.
  destruct (wp_run _ _ _ (getHash_ok ty P1 w1 s1 m1 (λ h _, h = root_hash ty m1) I1 ltac:(done))) as (h1 & st1 & ? & ->).
  destruct (wp_run _ _ _ (getHash_ok ty P2 w2 s2 m2 (λ h _, h = root_hash ty m2) I2 ltac:(done))) as (h2 & st2 & ? & ->).
  do 4 eexists. split; [done|]. split; [done|]. split; [by apply root_hash_inj|by intros ->].
Qed.

(** C5: comparing two maps finds exactly the items in which they differ, each with
    what either map has under its key, when there are fewer of them than asked for,
    and otherwise as many of them as asked for; the maps keep their items. *)
Theorem compare_differences ty Pa Pb st m1 m2 maxCount fuel `{!DigestLaws} :
  pair_inv ty true Pa Pb st (m1, m2) → items_ok ty m1 → items_ok ty m2 →
  no_collision (root_strings ty m1 ++ root_strings ty m2) → (64 * (size m1 + size m2) < fuel)%nat →
  ∃ complete differences st', compare fuel ∅ maxCount st = Ok ((complete, differences), st') ∧
    pair_inv ty true Pa Pb st' (m1, m2) ∧
    (complete = true ↔ Z.of_nat (size (dif m1 m2)) < Z.max 1 maxCount) ∧
    (complete = true → differences = dif m1 m2) ∧
    (complete = false → differences ⊆ dif m1 m2 ∧ Z.of_nat (size differences) = Z.max 1 maxCount).
Proof.
  intros Hp I1 I2 Hnc Hf. destruct (wp_run _ _ _ (compare_ok ty Pa Pb st m1 m2 maxCount fuel Hp I1 I2 Hnc Hf)) as ([r d] & st' & ? & Hp' & Hr).
  exists r, d, st'. split; [done|]. split; [done|]. cbn [fst snd] in Hr. destruct r.
  - destruct Hr as [-> Hr]. split; [|done]. split; [|done]. intros _. destruct Hr as [->|?]; [rewrite map_size_empty; lia|lia].
  - destruct Hr as [Hs Hr]. split; [|done]. split; [done|]. intros Hlt. pose proof (map_subseteq_size _ _ Hs). lia.
Qed.

(** ** Iteration *)

(** C30: iterating over a map gives each of its items once, in the order of their
    keys. *)
Theorem iteration_complete ty P w s m fuel :
  inv ty P w s m → (size m ≤ fuel)%nat →
  ∃ xs w', items fuel (w, s) = Ok (xs, (w', s)) ∧ StronglySorted (λ x y, key x < key y) xs ∧
    ∀ x, x ∈ xs ↔ m !! key x = Some x.
Proof.
  intros Hi Hf.
  destruct (wp_run _ _ _ (items_complete ty P w s m fuel (λ xs st, st.2 = s ∧ StronglySorted (λ x y, key x < key y) xs ∧
    ∀ x, x ∈ xs ↔ m !! key x = Some x) Hi Hf ltac:(done))) as (xs & [w' s'] & ? & Es & ? & ?).
  cbn in Es. subst s'. by exists xs, w'.
Qed.

(** [upper_bound] is at the item with the least key above the one given, and
    at the end when there is none. *)
Theorem upper_bound_least ty P w s m t :
  inv ty P w s m → key_ok t →
  ∃ it w', upper_bound t (w, s) = Ok (it, (w', s)) ∧
    match item_ it with
    | Some x => next_key m t (key x) ∧ m !! key x = Some x
    | None => no_next m t
    end.
Proof.
  intros Hi Ht. pose proof (inv_keyed _ _ _ _ _ Hi) as Hkd.
  edestruct (wp_run _ _ _ (upper_bound_ok ty P w s m t (λ it st, st.2 = s ∧ match item_ it with
    | Some x => next_key m t (key x) ∧ m !! key x = Some x | None => no_next m t end) Hi Ht
    ltac:(intros w' it k' _ Hn (u & stack & -> & (l & id & rest & _ & _ & _ & _ & _ & Hk & Hm)); cbn [item_];
          rewrite (Hkd _ _ Hm); done) ltac:(done))) as (it & [w' s'] & ? & Es & ?).
  cbn in Es. subst s'. by exists it, w'.
Qed.

(** ** Writing and reading back *)

(** What is left when the program is started again. *)
Definition restart w : world := mkWorld ∅ ∅ (db w) (missing w).

Lemma restart_ok w : cache_ok (restart w).
Proof. by split. Qed.

(** C3: a map that was flushed is read back by its hash from the store alone,
    and then answers as the finite map of the items that were written. *)
Theorem flush_fetch isTransaction hasMeta P w s m t f cs `{!DigestLaws} :
  let ty := leaf_type isTransaction hasMeta in
  inv ty P w s m → backed_ s = true → m ≠ ∅ → items_writable ty m →
  no_collision (inner_strings ty 63 m) → compat (inner_strings ty 63 m) w → all_allowed ty cs m →
  ∃ n w1 s1 w2 s2 st, flushDirty (w, s) = Ok (n, (w1, s1)) ∧
    fetchRoot (root_hash ty m) f (map_of_hash t (root_hash ty m) (restart w1)) = Ok (true, (w2, s2)) ∧
    execs isTransaction hasMeta cs (w2, s2) = Ok ((specs ty cs m).1, st).
Proof.
  intros ty Hi Hb Hm Hit Hnc Hcomp Ha.
  destruct (wp_run _ _ _ (flushDirty_ok ty P w s m (λ _ st, stored_inner ty (db st.1) 63 (root_hash ty m) m) Hi Hb Hit Hnc Hcomp
    ltac:(done) ltac:(done))) as (n & [w1 s1] & ? & Hst).
  destruct (map_of_hash t (root_hash ty m) (restart w1)) as [w0 s0] eqn:E0.
  destruct (wp_run _ _ _ (fetchRoot_ok ty (restart w1) m t f w0 s0 (λ r st, r = true ∧ inv ty (mine 1) st.1 st.2 m) (restart_ok w1) Hm
    ltac:(apply Hi) Hst E0 ltac:(done))) as (r & [w2 s2] & ? & -> & Hi2).
  destruct (wp_run _ _ _ (execs_ok ty isTransaction hasMeta _ _ _ m cs eq_refl Hi2 Ha)) as (l & st & ? & -> & _).
  exists n, w1, s1, w2, s2, st. by rewrite E0.
Qed.

(** ** Binary forms *)

(** C36: a node reads back from the form for the store and from the form for
    peers, with its hash if it is not given. *)
Theorem node_roundtrip n sq :
  node_ok n →
  make (addRaw [] n snfPREFIX) sq snfPREFIX 0 false = Ok (Some (read_back n sq 0 false)) ∧
  make (addRaw [] n snfWIRE) sq snfWIRE 0 false = Ok (Some (read_back n sq 0 false)).
Proof. intros Hn. split; [by apply make_addRaw_prefix|by apply make_addRaw_wire]. Qed.

(** C31: whatever bytes [make] is given, a node it makes is well-formed: an inner
    node has sixteen branches with hashes of 256 bits, no links, and a branch with
    a hash is not empty; a leaf has a key of 256 bits; the hash is the one given
    or the one of the content. *)
Theorem make_well_formed raw sq fmt hash hv n `{!DigestLaws} :
  bytes_ok raw → make raw sq fmt hash hv = Ok (Some n) →
  node_wf sq n ∧ getNodeHash n = (if hv then hash else own_hash n) ∧
  (fmt = snfPREFIX → ∀ i, n = Inner i → exact i).
Proof. intros Hr Hm. destruct fmt; [by eapply make_prefix_wf|by eapply make_wire_wf|done]. Qed.

(** a peer can send an inner node that has the hash of a given one and all of
    its hashes, and in addition a branch that counts as not empty but has no hash:
    the compressed form may have two entries for one branch, and the hash of a
    node says nothing of its branch bits. *)
Theorem repeated_entry i b h sq `{!DigestLaws} :
  hashes_ok i → isEmpty i = false → (b < 16)%nat → getChildHash i b = 0 → 0 < h < 2 ^ 256 →
  ∃ i', make (repeated i b h) sq snfWIRE 0 false = Ok (Some (Inner i')) ∧
    i_hash i' = inner_hash i ∧ getChildHash i' b = 0 ∧ isEmptyBranch i' b = false.
Proof.
  intros Hi He Hb Hz Hh. destruct (make_repeated i b h sq) as (i' & ? & ? & Em & ?); [done..|].
  exists i'. split; [done|]. split; [done|]. split; [|done]. unfold getChildHash in *. by rewrite Em.
Qed.

End props.

(** ** Examples *)

Definition it1 : SHAMapItem := mkItem (0x51 * 2 ^ 248 + 5) [1; 2; 3].
Definition it2 : SHAMapItem := mkItem (0x52 * 2 ^ 248 + 9) [4].
Definition it3 : SHAMapItem := mkItem 7 [8].

Definition example : list cmd :=
  [AddItem it1; AddItem it2; AddItem it3; UpdateItem (mkItem (key it1) [9]); DelItem 7;
   PeekItem (key it2); PeekItemHash (key it1); HasItem 7; GetHash].

(** Commands with literal arguments are allowed. *)
Ltac allowed :=
  unfold example; cbn [all_allowed all_allowed2 Spec.allowed];
  repeat match goal with
  | |- _ ∧ _ => split
  | |- True => exact I
  | |- true = false → _ => discriminate
  | |- false = true → _ => discriminate
  | |- true = true → _ => intros _
  | |- key_ok _ => split; [by vm_compute|by vm_compute]
  | |- ∀ old, _ !! _ = Some old → _ =>
      let old := fresh in let Ho := fresh in let Hh := fresh in
      intros old Ho; vm_compute in Ho; injection Ho as <-; intros Hh; vm_compute in Hh; discriminate
  | |- _ → reads _ => intros _; exact I
  end.

Lemma example_allowed : all_allowed tnACCOUNT_STATE example ∅.
Proof. allowed. Qed.

Lemma commands_refine_witness :
  ∃ st, execs false false example (new_map STATE 1 nothing) = Ok ((specs tnACCOUNT_STATE example ∅).1, st).
Proof. apply (commands_refine false false); [apply nothing_ok|done|apply example_allowed]. Defined.

Lemma example_run :
  ∃ w s, execs false false example (new_map STATE 1 nothing) = Ok ((specs tnACCOUNT_STATE example ∅).1, (w, s)) ∧
    inv tnACCOUNT_STATE (mine 1) w s (specs tnACCOUNT_STATE example ∅).2 ∧ seq_ s = 1 ∧ state_ s = Modifying ∧ backed_ s = true.
Proof. apply (run_new false false); [apply nothing_ok|done|apply example_allowed]. Qed.


Lemma snapshot_isolated_witness :
  ∃ w1 a w2 b st, snapShot false (w1, a) = Ok (b, (w2, a)) ∧
    exec2s false false [(true, AddItem it3); (false, HasItem (key it3))] (w2, a, b) = Ok ([ABool true; ABool false], st).
Proof.
  destruct (snapshot_isolated false false false STATE 1 nothing example [(true, AddItem it3); (false, HasItem (key it3))])
    as (w1 & a & w2 & b & st & _ & ? & Hr); [apply nothing_ok|done|apply example_allowed| |allowed|].
  - intros E. apply (f_equal (lookup (key it1))) in E. vm_compute in E. discriminate.
  - exists w1, a, w2, b, st. split; [done|]. by rewrite Hr.
Defined.

(** Two trees with one and with two items. *)
Definition two : content := {[key it1 := it1; key it2 := it2]}.

Lemma two_run : ∃ w s, execs false false [AddItem it1; AddItem it2] (new_map STATE 1 nothing) = Ok ([ABool true; ABool true], (w, s)) ∧
  inv tnACCOUNT_STATE (mine 1) w s two ∧ seq_ s = 1 ∧ state_ s = Modifying ∧ backed_ s = true.
Proof.
  destruct (run_new false false STATE 1 nothing [AddItem it1; AddItem it2]) as (w & s & Hr & Hi & Hs); [apply nothing_ok|done|allowed|].
  exists w, s. split; [by rewrite Hr|]. split; [|done]. replace two with (specs tnACCOUNT_STATE [AddItem it1; AddItem it2] ∅).2; [done|].
  apply (bool_decide_unpack _). by vm_compute.
Qed.

Lemma two_ok : items_writable tnACCOUNT_STATE two.
Proof.
  split; [apply items_ok_forall, (bool_decide_unpack _); by vm_compute|].
  intros k [x Hx]. assert (map_Forall (λ k _, k ≠ 0) two) as Hf by (apply (bool_decide_unpack _); by vm_compute). by apply (Hf k x).
Qed.

Lemma working_copy_isolated_witness :
  ∃ w a w' b st, snapShot true (w, a) = Ok (b, (w', a)) ∧ root_ b = root_ a ∧
    exec2s false false [(false, DelItem (key it1)); (true, HasItem (key it1))] (w', a, b) = Ok ([ABool true; ABool true], st).
Proof.
  destruct two_run as (w & s & _ & Hi & Es & _). apply mine_upto in Hi; [|done|done].
  assert (inv tnACCOUNT_STATE (upto (seq_ (setImmutable s))) w (setImmutable s) two) as Hi' by (simpl; rewrite Es; by destruct Hi).
  destruct (working_copy_isolated false false w (setImmutable s) two [(false, DelItem (key it1)); (true, HasItem (key it1))])
    as (w' & b & st & ? & ? & Hr); [done|done|simpl; by rewrite Es|allowed|].
  exists w, (setImmutable s), w', b, st. split; [done|]. split; [done|]. by rewrite Hr.
Defined.

Lemma empty_snapshot_shared_witness :
  let '(w0, a) := new_map STATE 1 nothing in
  ∃ b w1 w2 a' st, snapShot false (w0, a) = Ok (b, (w1, a)) ∧
    addGiveItem it1 false false (w1, a) = Ok (true, (w2, a')) ∧ peekItem (key it1) (w2, b) = Ok (Some it1, st).
Proof. apply (empty_snapshot_shared false false false STATE 1 nothing it1); [apply nothing_ok|done|allowed]. Defined.

Lemma hash_equivalence_witness :
  ∃ w1 s1 w2 s2 h1 st1 h2 st2, getHash (w1, s1) = Ok (h1, st1) ∧ getHash (w2, s2) = Ok (h2, st2) ∧
    (h1 = h2 ↔ two = (specs tnACCOUNT_STATE example ∅).2).
Proof.
  destruct two_run as (w1 & s1 & _ & Hi1 & _), example_run as (w2 & s2 & _ & Hi2 & _). exists w1, s1, w2, s2.
  apply (hash_equivalence tnACCOUNT_STATE (mine 1) w1 s1 two (mine 1) w2 s2 _ Hi1 Hi2); [apply two_ok| |].
  - apply items_ok_forall, (bool_decide_unpack _). by vm_compute.
  - apply (bool_decide_unpack _). by vm_compute.
Defined.

(** Two maps in one world that have one item in common. *)
Definition three : content := {[key it2 := it2; key it3 := it3]}.

Lemma pair_run : ∃ st, pair_inv tnACCOUNT_STATE true (mine 1) (mine 2) st (two, three).
Proof.
  destruct two_run as (w & a & _ & Hi & Es & _). destruct (new_map STATE 2 w) as [w' b] eqn:En.
  destruct (new_map_inv tnACCOUNT_STATE (mine 2) w STATE 2 w' b) as (Hb & Eb & Hg); [apply Hi|done|by left|by right|done|].
  assert (pair_inv tnACCOUNT_STATE true (mine 1) (mine 2) (w', a, b) (two, ∅)) as Hp.
  { split; cbn [fst snd]; [by eapply inv_grows|done|rewrite Eb; unfold mine; lia|rewrite Es; unfold mine; lia]. }
  destruct (wp_run _ _ _ (exec2s_ok tnACCOUNT_STATE false false true _ _ _ (two, ∅) [(false, AddItem it2); (false, AddItem it3)] eq_refl Hp ltac:(allowed)))
    as (l & st & _ & _ & Hst).
  exists st. replace (two, three) with (spec2s tnACCOUNT_STATE [(false, AddItem it2); (false, AddItem it3)] (two, ∅)).2; [done|].
  apply (bool_decide_unpack _). by vm_compute.
Qed.

Lemma compare_differences_witness :
  ∃ st st', compare 1000 ∅ 10 st = Ok ((true, {[key it1 := (Some it1, None); key it3 := (None, Some it3)]}), st').
Proof.
  destruct pair_run as (st & Hp). exists st.
  destruct (compare_differences tnACCOUNT_STATE (mine 1) (mine 2) st two three 10 1000 Hp) as (r & d & st' & Hc & _ & [_ Hr] & Hd & _).
  - apply two_ok.
  - apply items_ok_forall, (bool_decide_unpack _). by vm_compute.
  - apply (bool_decide_unpack _). by vm_compute.
  - apply Nat.ltb_lt. by vm_compute.
  - exists st'. rewrite Hc. assert (r = true) as -> by (apply Hr; by vm_compute). rewrite Hd by done.
    assert (dif two three = {[key it1 := (Some it1, None); key it3 := (None, Some it3)]}) as ->; [|done].
    apply (bool_decide_unpack _). by vm_compute.
Defined.

Lemma iteration_complete_witness :
  ∃ w s xs w', items 2 (w, s) = Ok (xs, (w', s)) ∧ StronglySorted (λ x y, key x < key y) xs ∧ ∀ x, x ∈ xs ↔ two !! key x = Some x.
Proof.
  destruct two_run as (w & s & _ & Hi & _). exists w, s.
  apply (iteration_complete tnACCOUNT_STATE (mine 1) w s two 2 Hi). by vm_compute.
Defined.

Lemma upper_bound_least_witness :
  ∃ w s it w', upper_bound (key it1) (w, s) = Ok (it, (w', s)) ∧
    match item_ it with
    | Some x => next_key two (key it1) (key x) ∧ two !! key x = Some x
    | None => no_next two (key it1)
    end.
Proof.
  destruct two_run as (w & s & _ & Hi & _). exists w, s.
  apply (upper_bound_least tnACCOUNT_STATE (mine 1) w s two (key it1) Hi). allowed.
Defined.

Lemma flush_fetch_witness :
  ∃ w s n w1 s1 w2 s2 st, flushDirty (w, s) = Ok (n, (w1, s1)) ∧
    fetchRoot (root_hash tnACCOUNT_STATE two) None (map_of_hash STATE (root_hash tnACCOUNT_STATE two) (restart w1)) = Ok (true, (w2, s2)) ∧
    execs false false [PeekItem (key it1); HasItem 7] (w2, s2) = Ok ([AItem (Some it1); ABool false], st).
Proof.
  destruct two_run as (w & s & Hr & Hi & _ & _ & Hb). exists w, s.
  assert (db w = ∅) as Hd.
  { change (db w) with (match Ok ([ABool true; ABool true], (w, s)) with Ok (_, (w, _)) => db w | Throw _ => ∅ end).
    rewrite <- Hr. by vm_compute. }
  destruct (flush_fetch false false (mine 1) w s two STATE None [PeekItem (key it1); HasItem 7])
    as (n & w1 & s1 & w2 & s2 & st & ? & ? & Hx); [done|done| |apply two_ok| | |allowed|].
  - intros E. apply (f_equal (lookup (key it1))) in E. vm_compute in E. discriminate.
  - apply (bool_decide_unpack _). by vm_compute.
  - intros y _ data. by rewrite Hd, lookup_empty.
  - exists n, w1, s1, w2, s2, st. split; [done|]. split; [done|]. by rewrite Hx.
Defined.

(** A leaf, and an inner node over the hash of it. *)
Definition leaf1 : SHAMapTreeNode := new_leaf it1 tnACCOUNT_STATE 1.
Definition inner1 : SHAMapInnerNode := set_hash (new_inner 1) 5 (l_hash leaf1).

Lemma inner1_ok : hashes_ok inner1.
Proof.
  assert (filled (λ _, l_hash leaf1) [5%nat] 1 inner1) as [_ Hs _ Hb].
  { apply (filled_set (λ _, l_hash leaf1)); [apply filled_new|lia|by intros ?%elem_of_nil]. }
  split; [done| |done]. intros b Hb'. unfold inner1. rewrite set_hash_get by (simpl; lia). case_decide; [by vm_compute|].
  unfold getChildHash, new_inner. cbn [mHashes]. by rewrite lookup_replicate_2.
Qed.

Lemma node_roundtrip_witness :
  make (addRaw [] (Inner inner1) snfPREFIX) 0 snfPREFIX 0 false = Ok (Some (read_back (Inner inner1) 0 0 false)) ∧
  make (addRaw [] (Inner inner1) snfWIRE) 0 snfWIRE 0 false = Ok (Some (read_back (Inner inner1) 0 0 false)).
Proof. apply (node_roundtrip (Inner inner1) 0). apply inner1_ok. Defined.

Lemma make_well_formed_witness :
  make (addRaw [] (Inner inner1) snfWIRE) 3 snfWIRE 0 false = Ok (Some (read_back (Inner inner1) 3 0 false)) ∧
  node_wf 3 (read_back (Inner inner1) 3 0 false).
Proof.
  assert (make (addRaw [] (Inner inner1) snfWIRE) 3 snfWIRE 0 false = Ok (Some (read_back (Inner inner1) 3 0 false))) as Hm.
  { apply make_addRaw_wire, inner1_ok. }
  split; [exact Hm|]. refine (proj1 (make_well_formed _ 3 snfWIRE 0 false _ _ Hm)).
  apply (bool_decide_unpack _). by vm_compute.
Defined.

Lemma repeated_entry_witness :
  ∃ i', make (repeated inner1 7 1) 0 snfWIRE 0 false = Ok (Some (Inner i')) ∧
    i_hash i' = inner_hash inner1 ∧ getChildHash i' 7 = 0 ∧ isEmptyBranch i' 7 = false.
Proof. apply (repeated_entry inner1 7 1 0); [apply inner1_ok|by vm_compute|lia|by vm_compute|done]. Defined.

End MapProps.
