(* ===== verification/LedgerFormats.v ===== *)
(** * Templates of ledger entries

    protocol/impl/LedgerFormats.cpp and protocol/SOTemplate.h: which fields an
    entry of each type may have, and which it always has.  A required field that
    the maps of an object do not mention has its default value; [complete] puts
    it in, so that objects can be compared field by field. *)

From stdpp Require Import strings.
From S2P Require Import Prelude Issue STAmount Views StateMonad ApplyStateTable ViewLogic Objects Directory Indexes.
Import Obj Idx.

Open Scope Z_scope.

Module Formats.

(** The types of fields. *)
Inductive kind :=
  | KU8 | KU16 | KU32 | KU64 | KH128 | KH160 | KH256 | KV256 | KVL | KAccount | KAmount | KArray.

Inductive SOE_Flags := SOE_REQUIRED | SOE_OPTIONAL.

Record SOElement := mkElement { e_field : string; e_kind : kind; e_flags : SOE_Flags }.

Definition required (f : string) (k : kind) : SOElement := mkElement f k SOE_REQUIRED.
Definition optional (f : string) (k : kind) : SOElement := mkElement f k SOE_OPTIONAL.

Definition formats (type : Z) : list SOElement :=
  if type =? ltACCOUNT_ROOT then
    [required "Account" KAccount; required "Sequence" KU32; required "Balance" KAmount;
     required "BalanceVBC" KAmount; required "OwnerCount" KU32; required "PreviousTxnID" KH256;
     required "PreviousTxnLgrSeq" KU32; optional "AccountTxnID" KH256; optional "RegularKey" KAccount;
     optional "EmailHash" KH128; optional "WalletLocator" KH256; optional "WalletSize" KU32;
     optional "MessageKey" KVL; optional "TransferRate" KU32; optional "Domain" KVL; optional "Referee" KAccount;
     optional "References" KArray; optional "ReferenceHeight" KU32; optional "DividendLedger" KU32;
     optional "DividendVRank" KU64; optional "DividendVSprd" KU64; optional "DividendTSprd" KU64;
     optional "ProposalVotes" KArray; optional "AccountCT" KAccount; optional "MaskCT" KH256;
     optional "ShieldValue" KU64]
  else if type =? ltASSET then
    [required "Amount" KAmount; required "RegularKey" KAccount; optional "ReleaseSchedule" KArray;
     required "PreviousTxnID" KH256; required "PreviousTxnLgrSeq" KU32]
  else if type =? ltASSET_STATE then
    [required "Account" KAccount; required "Amount" KAmount; optional "DeliveredAmount" KAmount;
     required "PreviousTxnID" KH256; required "PreviousTxnLgrSeq" KU32; optional "LowNode" KU64;
     optional "HighNode" KU64; optional "NextReleaseTime" KU32]
  else if type =? ltDIR_NODE then
    [optional "Owner" KAccount; optional "TakerPaysCurrency" KH160; optional "TakerPaysIssuer" KH160;
     optional "TakerGetsCurrency" KH160; optional "TakerGetsIssuer" KH160; optional "ExchangeRate" KU64;
     required "Indexes" KV256; required "RootIndex" KH256; optional "IndexNext" KU64; optional "IndexPrevious" KU64]
  else if type =? ltOFFER then
    [required "Account" KAccount; required "Sequence" KU32; required "TakerPays" KAmount;
     required "TakerGets" KAmount; required "BookDirectory" KH256; required "BookNode" KU64;
     required "OwnerNode" KU64; required "PreviousTxnID" KH256; required "PreviousTxnLgrSeq" KU32;
     optional "Expiration" KU32]
  else if type =? ltRIPPLE_STATE then
    [required "Balance" KAmount; optional "Reserve" KAmount; required "LowLimit" KAmount;
     required "HighLimit" KAmount; required "PreviousTxnID" KH256; required "PreviousTxnLgrSeq" KU32;
     optional "LowNode" KU64; optional "LowQualityIn" KU32; optional "LowQualityOut" KU32;
     optional "HighNode" KU64; optional "HighQualityIn" KU32; optional "HighQualityOut" KU32]
  else if type =? ltSUSPAY then
    [required "Account" KAccount; required "Destination" KAccount; required "Amount" KAmount;
     optional "Digest" KH256; optional "CancelAfter" KU32; optional "FinishAfter" KU32; optional "SourceTag" KU32;
     optional "DestinationTag" KU32; required "OwnerNode" KU64; required "PreviousTxnID" KH256;
     required "PreviousTxnLgrSeq" KU32]
  else if type =? ltLEDGER_HASHES then
    [optional "FirstLedgerSequence" KU32; optional "LastLedgerSequence" KU32; required "Hashes" KV256]
  else if type =? ltAMENDMENTS then
    [optional "LedgerSequence" KU32; optional "Amendments" KV256; optional "Majorities" KArray]
  else if type =? ltFEE_SETTINGS then
    [optional "LedgerSequence" KU32; required "BaseFee" KU64; required "ReferenceFeeUnits" KU32;
     required "ReserveBase" KU32; required "ReserveIncrement" KU32]
  else if type =? ltTICKET then
    [required "Account" KAccount; required "Sequence" KU32; required "OwnerNode" KU64; optional "Target" KAccount;
     optional "Expiration" KU32]
  else if type =? ltDIVIDEND then
    [required "DividendState" KU8; required "DividendLedger" KU32; required "DividendCoins" KU64;
     required "DividendCoinsVBC" KU64; optional "PreviousTxnID" KH256; optional "PreviousTxnLgrSeq" KU32;
     optional "DividendVRank" KU64; optional "DividendVSprd" KU64; optional "DividendHash" KH256;
     optional "DividendMarker" KH256]
  else if type =? ltREFER then
    [optional "Account" KAccount; optional "References" KArray]
  else if type =? ltSIGNER_LIST then
    [required "OwnerNode" KU64; required "SignerQuorum" KU32; required "SignerEntries" KArray;
     required "SignerListID" KU32; required "PreviousTxnID" KH256; required "PreviousTxnLgrSeq" KU32]
  else if type =? ltRING then
    [optional "LedgerSequence" KU32; optional "RingHash" KH256; optional "Amount" KAmount;
     optional "RingDeposited" KU32; optional "RingWithdrawed" KU32; optional "Accounts" KV256;
     optional "PublicKeys" KArray; optional "KeyImages" KArray; optional "RingIndex" KU32;
     optional "ParticipantsNum" KU32]
  else if type =? ltPROPOSAL then
    [optional "Account" KAccount; optional "ProposalIndex" KU32; optional "ProposalOptions" KU8;
     optional "ProposalExpire" KU32; optional "ProposalAppendix" KVL; optional "ProposalCloseLedger" KU32]
  else if type =? ltCT then
    [optional "LedgerSequence" KU32; optional "Proof" KVL; optional "MaskCT" KH256; optional "ShieldValue" KU64]
  else [].

(** [addCommonFields], but for the index and the type, which are not fields of
    the object here. *)
Definition common : list SOElement := [required "Flags" KU32].

Definition elements (type : Z) : list SOElement := formats type ++ common.

(** Whether the template has a field. *)
Definition has_field (type : Z) (f : string) : bool := existsb (λ e, bool_decide (e_field e = f)) (elements type).

Definition isThreadedType (type : Z) : bool := has_field type "PreviousTxnID".

(** A required field that is missing gets its default. *)
Definition complete_field (o : STObject) (e : SOElement) : STObject :=
  let f := e_field e in
  match e_flags e, e_kind e with
  | SOE_OPTIONAL, _ | _, KH160 => o
  | _, KU8 => setFieldU8 f (getFieldU8 f o) o
  | _, KU16 => setFieldU16 f (getFieldU16 f o) o
  | _, KU32 => setFieldU32 f (getFieldU32 f o) o
  | _, KU64 => setFieldU64 f (getFieldU64 f o) o
  | _, KH128 => setFieldH128 f (getFieldH128 f o) o
  | _, KH256 => setFieldH256 f (getFieldH256 f o) o
  | _, KV256 => setFieldV256 f (getFieldV256 f o) o
  | _, KVL => setFieldVL f (getFieldVL f o) o
  | _, KAccount => setAccountID f (getAccountID f o) o
  | _, KAmount => setFieldAmount f (getFieldAmount f o) o
  | _, KArray => setFieldArray f (getFieldArray f o) o
  end.

Definition complete (type : Z) (o : STObject) : STObject := foldl complete_field o (elements type).

(** [operator==] on entries: every field has a counterpart and there are as many.
    Amounts are compared by their own operator, which does not look at issuers. *)
Definition same_amounts (x y : gmap string Amt.STAmount) : bool :=
  forallb (λ p, match y !! p.1 with Some a => Amt.eqb p.2 a | None => false end) (map_to_list x) &&
  (size x =? size y)%nat.

Definition other_fields (o : STObject) : STObject :=
  mkObject (u8s o) (u16s o) (u32s o) (u64s o) (h128s o) (h256s o) (v256s o) (vls o) (accounts o) ∅ (arrays o).

Definition same_entry (s t : SLE STObject) : bool :=
  let x := complete (sle_type s) (fields s) in
  let y := complete (sle_type t) (fields t) in
  bool_decide (sle_type s = sle_type t ∧ other_fields x = other_fields y) && same_amounts (amounts x) (amounts y).

Lemma amount_eqb_refl (a : Amt.STAmount) : Amt.eqb a a = true.
Proof.
  unfold Amt.eqb, Amt.areComparable. rewrite !Bool.eqb_reflx, !Z.eqb_refl.
  by destruct (Amt.mIsNative a).
Qed.

Lemma same_entry_refl s : same_entry s s = true.
Proof.
  unfold same_entry, same_amounts. rewrite bool_decide_true, Nat.eqb_refl, andb_true_r by done. simpl.
  apply forallb_forall. intros [f a] Hin. apply list_elem_of_In, elem_of_map_to_list in Hin. simpl.
  rewrite Hin. apply amount_eqb_refl.
Qed.

End Formats.
