(* ===== verification/LoadFeeTrack.v ===== *)
(** * Fees under load

    core/LoadFeeTrack.h and core/impl/LoadFeeTrack.cpp: how much more than the
    normal fee the server asks for. *)

From S2P Require Import Prelude Issue STAmount BigNum STAmountArith MulDivFacts.

Open Scope Z_scope.

Module LoadFee.

Definition lftNormalFee : Z := 256.
Definition lftFeeIncFraction : Z := 4.
Definition lftFeeDecFraction : Z := 4.
Definition lftFeeMax : Z := lftNormalFee * 1000000.

Record LoadFeeTrack := mkFees {
  mLocalTxnLoadFee : Z;
  mRemoteTxnLoadFee : Z;
  mClusterTxnLoadFee : Z;
  raiseCount : Z
}.

Implicit Type t : LoadFeeTrack.

Definition load_fee_track : LoadFeeTrack := mkFees lftNormalFee lftNormalFee lftNormalFee 0.

Definition setRemoteFee (f : Z) t : LoadFeeTrack := mkFees (mLocalTxnLoadFee t) f (mClusterTxnLoadFee t) (raiseCount t).
Definition setClusterFee (f : Z) t : LoadFeeTrack := mkFees (mLocalTxnLoadFee t) (mRemoteTxnLoadFee t) f (raiseCount t).

Definition getLoadFactor t : Z :=
  Z.max (mClusterTxnLoadFee t) (Z.max (mLocalTxnLoadFee t) (mRemoteTxnLoadFee t)).

(** ** Scaling *)

Definition scaleFeeBase (fee baseFee referenceFeeUnits : Z) : result Z := Arith.mulDiv fee baseFee referenceFeeUnits.

(** The first statement returns: the test of [fee] in front of it is a comment. *)
Definition scaleFeeLoad t (fee baseFee referenceFeeUnits : Z) (bUnlimited : bool) : Z := fee.

(** ** The local fee *)

(** The fee after a raise, as a 32-bit integer. *)
Definition raised (fee : Z) : Z :=
  let fee := u32 (fee + fee / lftFeeIncFraction) in
  if lftFeeMax <? fee then lftFeeMax else fee.

Definition raiseLocalFee t : bool * LoadFeeTrack :=
  let count := raiseCount t + 1 in
  if count <? 2 then (false, mkFees (mLocalTxnLoadFee t) (mRemoteTxnLoadFee t) (mClusterTxnLoadFee t) count)
  else
    let origFee := mLocalTxnLoadFee t in
    let fee := raised (if origFee <? mRemoteTxnLoadFee t then mRemoteTxnLoadFee t else origFee) in
    (negb (origFee =? fee), mkFees fee (mRemoteTxnLoadFee t) (mClusterTxnLoadFee t) count).

Definition lowerLocalFee t : bool * LoadFeeTrack :=
  let origFee := mLocalTxnLoadFee t in
  let fee := origFee - origFee / lftFeeDecFraction in
  let fee := if fee <? lftNormalFee then lftNormalFee else fee in
  (negb (origFee =? fee), mkFees fee (mRemoteTxnLoadFee t) (mClusterTxnLoadFee t) 0).

Definition isLoadedLocal t : bool := negb (raiseCount t =? 0) || negb (mLocalTxnLoadFee t =? lftNormalFee).

Definition isLoadedCluster t : bool :=
  negb (raiseCount t =? 0) || negb (mLocalTxnLoadFee t =? lftNormalFee) || negb (mClusterTxnLoadFee t =? lftNormalFee).

(** ** The fee stays between the normal and the largest one

    The sum of a raise wraps if the remote fee is near 2^32; up to this bound it
    does not. *)

Definition remote_bound : Z := 3435973836.

Definition local_ok t : Prop := lftNormalFee ≤ mLocalTxnLoadFee t ≤ lftFeeMax.

Definition remote_ok t : Prop := 0 ≤ mRemoteTxnLoadFee t ≤ remote_bound.

Lemma raised_spec fee : 0 ≤ fee ≤ remote_bound → raised fee = Z.min lftFeeMax (fee + fee / 4).
Proof.
  intros Hf. unfold raised, lftFeeIncFraction, remote_bound in *.
  assert (0 ≤ fee + fee / 4 < 2 ^ 32) as Hr.
  { pose proof (Z.div_mod fee 4). pose proof (Z.mod_pos_bound fee 4). lia. }
  unfold u32, uwrap. rewrite Z.mod_small by done. destruct (Z.ltb_spec lftFeeMax (fee + fee / 4)); lia.
Qed.

(** Raising and lowering keep the fee within its bounds, and a raise that takes
    effect asks for at least a quarter more than before and than the others, up to
    the largest fee. *)
Lemma raiseLocalFee_ok t :
  local_ok t → remote_ok t →
  local_ok (raiseLocalFee t).2 ∧
  (1 ≤ raiseCount t →
   let fee := Z.max (mLocalTxnLoadFee t) (mRemoteTxnLoadFee t) in
   mLocalTxnLoadFee (raiseLocalFee t).2 = Z.min lftFeeMax (fee + fee / 4)).
Proof.
  intros Hl Hr. unfold raiseLocalFee. destruct (Z.ltb_spec (raiseCount t + 1) 2); [split; [done|lia]|].
  set (fee := if _ <? _ then _ else _). assert (fee = Z.max (mLocalTxnLoadFee t) (mRemoteTxnLoadFee t)) as Ef.
  { subst fee. destruct (Z.ltb_spec (mLocalTxnLoadFee t) (mRemoteTxnLoadFee t)); lia. }
  unfold local_ok, remote_ok, lftNormalFee, lftFeeMax, lftNormalFee in *.
  assert (0 ≤ fee ≤ remote_bound) as Hb by (unfold remote_bound in *; lia).
  cbn [snd]. unfold local_ok. cbn [mLocalTxnLoadFee]. rewrite raised_spec, <- Ef by done.
  split; [|done]. unfold lftFeeMax, lftNormalFee. pose proof (Z.div_pos fee 4). lia.
Qed.

Lemma lowerLocalFee_ok t :
  local_ok t → local_ok (lowerLocalFee t).2 ∧ mLocalTxnLoadFee (lowerLocalFee t).2 ≤ mLocalTxnLoadFee t.
Proof.
  unfold local_ok, lowerLocalFee, lftFeeDecFraction, lftFeeMax, lftNormalFee. cbn [snd mLocalTxnLoadFee]. intros Hl.
  pose proof (Z.div_pos (mLocalTxnLoadFee t) 4).
  destruct (Z.ltb_spec (mLocalTxnLoadFee t - mLocalTxnLoadFee t / 4) 256); lia.
Qed.

(** Beyond the bound a raise leaves the server asking for nothing. *)
Lemma raise_wraps : mLocalTxnLoadFee (raiseLocalFee (mkFees 256 3435973837 256 1)).2 = 0.
Proof. by vm_compute. Qed.

End LoadFee.
