(* ===== verification/Transaction.v ===== *)
(** * Transactions

    protocol/STTx.h, protocol/impl/STTx.cpp, protocol/TxFormats.h and
    protocol/TxFlags.h: a transaction is an object with an identifier and a type;
    here is what the code reads of it and how its signatures are checked. *)

From stdpp Require Import strings.
From S2P Require Import Prelude Issue STAmount Views StateMonad ApplyStateTable ViewLogic Objects TrustLines.
Import Obj.

Open Scope Z_scope.

Module Tx.

Inductive TxType :=
  | ttINVALID
  | ttPAYMENT | ttSUSPAY_CREATE | ttSUSPAY_FINISH | ttACCOUNT_SET | ttSUSPAY_CANCEL | ttREGULAR_KEY_SET
  | ttNICKNAME_SET | ttOFFER_CREATE | ttOFFER_CANCEL | no_longer_used | ttTICKET_CREATE | ttTICKET_CANCEL
  | ttSIGNER_LIST_SET | ttTRUST_SET | ttAMENDMENT | ttFEE
  | ttDIVIDEND | ttADDREFEREE | ttACTIVEACCOUNT | ttISSUE | ttRING_DEPOSIT | ttRING_WITHDRAW | ttRING_CANCEL
  | ttPROPOSAL_CREATE | ttPROPOSAL_CLOSE | ttPROPOSAL_VOTE | ttASSET_RELEASE
  | ttDEPOSIT_CT | ttPAYMENT_CT | ttWITHDRAW_CT.

#[global] Instance TxType_eq_dec : EqDecision TxType.
Proof. solve_decision. Defined.

(** [STPathElement] and [STPath] *)
Record STPathElement := mkPathElement { pe_account : AccountID; pe_currency : Currency; pe_issuer : AccountID }.

Definition STPath : Type := list STPathElement.

(** The identifier is the digest of the serialized transaction, taken when it is
    made.  The paths of a payment are the one field of a type no other object
    has. *)
Record STTx := mkTx {
  getTransactionID : Z;
  getTxnType : TxType;
  tx_fields : STObject;
  tx_paths : option (list STPath)
}.

(** ** Fields *)

Definition sfSequence : string := "Sequence".
Definition sfFee : string := "Fee".
Definition sfSigningPubKey : string := "SigningPubKey".
Definition sfTxnSignature : string := "TxnSignature".
Definition sfSigners : string := "Signers".
Definition sfAccountTxnID : string := "AccountTxnID".
Definition sfLastLedgerSequence : string := "LastLedgerSequence".
Definition sfDestination : string := "Destination".

Definition tx_account (tx : STTx) : AccountID := getAccountID Trust.sfAccount (tx_fields tx).
Definition getSequence (tx : STTx) : Z := getFieldU32 sfSequence (tx_fields tx).
Definition getFlags (tx : STTx) : Z := getFieldU32 sfFlags (tx_fields tx).
Definition getSigningPubKey (tx : STTx) : list Z := getFieldVL sfSigningPubKey (tx_fields tx).

(** ** Flags *)

(** [flags & mask] as a condition. *)
Definition has_any (flags mask : Z) : bool := negb (Z.land flags mask =? 0).

Definition tfFullyCanonicalSig : Z := 0x80000000.
Definition tfUniversal : Z := tfFullyCanonicalSig.
Definition tfUniversalMask : Z := u32 (Z.lnot tfUniversal).

Definition requireDestTag : Z := 0x00010000.
Definition tfOptionalDestTag : Z := 0x00020000.
Definition tfRequireAuth : Z := 0x00040000.
Definition tfOptionalAuth : Z := 0x00080000.
Definition tfDisallowXRP : Z := 0x00100000.
Definition tfAllowXRP : Z := 0x00200000.
Definition tfAccountSetMask : Z :=
  u32 (Z.lnot (Z.lor tfUniversal (Z.lor requireDestTag (Z.lor tfOptionalDestTag
    (Z.lor tfRequireAuth (Z.lor tfOptionalAuth (Z.lor tfDisallowXRP tfAllowXRP))))))).

Definition asfRequireDest : Z := 1.
Definition asfRequireAuth : Z := 2.
Definition asfDisallowXRP : Z := 3.
Definition asfDisableMaster : Z := 4.
Definition asfAccountTxnID : Z := 5.
Definition asfNoFreeze : Z := 6.
Definition asfGlobalFreeze : Z := 7.
Definition asfDefaultRipple : Z := 8.

Definition tfNoRippleDirect : Z := 0x00010000.
Definition tfPartialPayment : Z := 0x00020000.
Definition tfLimitQuality : Z := 0x00040000.
Definition tfPaymentMask : Z :=
  u32 (Z.lnot (Z.lor tfUniversal (Z.lor tfPartialPayment (Z.lor tfLimitQuality tfNoRippleDirect)))).

(** ** Signatures *)

(** What is not part of the sources: the verification of a signature with a
    public key, the account a public key belongs to, and, with the serialization
    of objects, the bytes of a transaction that are signed and that are stored.
    The check of the memos needs those bytes too. *)
Class Keys := {
  verify : list Z → list Z → list Z → bool → bool;
  calcAccountID : list Z → AccountID;
  signing_data : STTx → list Z;
  multi_signing_data : STTx → AccountID → list Z;
  tx_bytes : STTx → list Z;
  passesLocalChecks : STTx → bool
}.

Definition minMultiSigners : nat := 1.
Definition maxMultiSigners : nat := 8.

Section signatures.
Context `{Keys}.

Definition fullyCanonical (tx : STTx) : bool := has_any (getFlags tx) tfFullyCanonicalSig.

Definition checkSingleSign (tx : STTx) : bool :=
  if present (arrays (tx_fields tx)) sfSigners then false
  else verify (getSigningPubKey tx) (signing_data tx) (getFieldVL sfTxnSignature (tx_fields tx)) (fullyCanonical tx).

(** The signers, in the order of their accounts. *)
Fixpoint check_signers (tx : STTx) (lastAccountID : AccountID) (signers : list STInner) : bool :=
  match signers with
  | [] => true
  | signer :: signers =>
      let accountID := inner_getAccountID Trust.sfAccount signer in
      if accountID =? tx_account tx then false
      else if accountID <=? lastAccountID then false
      else if verify (inner_getFieldVL sfSigningPubKey signer) (multi_signing_data tx accountID)
                (inner_getFieldVL sfTxnSignature signer) (fullyCanonical tx)
      then check_signers tx accountID signers
      else false
  end.

Definition checkMultiSign (tx : STTx) : bool :=
  if negb (present (arrays (tx_fields tx)) sfSigners) then false
  else if present (vls (tx_fields tx)) sfTxnSignature then false
  else
    let signers := getFieldArray sfSigners (tx_fields tx) in
    if (length signers <? minMultiSigners)%nat || (maxMultiSigners <? length signers)%nat then false
    else check_signers tx 0 signers.

Definition checkSign (allowMultiSign : bool) (tx : STTx) : bool :=
  if allowMultiSign then
    if bool_decide (getSigningPubKey tx = []) then checkMultiSign tx else checkSingleSign tx
  else checkSingleSign tx.

End signatures.

End Tx.
