(* ===== verification/HashRouter.v ===== *)
(** * The hash router and the validity of transactions

    app/misc/HashRouter.cpp, app/misc/HashRouter.h and app/tx/impl/apply.cpp: the
    table of the hashes that were seen lately, and how the verdict on a
    transaction's signature is remembered in it. *)

From stdpp Require Import strings.
From S2P Require Import Prelude StateMonad Issue STAmount Objects Transaction.
Import Obj Tx.

Open Scope Z_scope.
Open Scope prog_scope.

Module Router.

(** An entry and when it was touched last. *)
Record Entry := mkEntry { e_when : Z; flags_ : Z; peers_ : gset Z }.

Record HashRouter := mkRouter { mSuppressionMap : gmap Z Entry; mHoldTime : Z }.

Definition hash_router (entryHoldTimeInSeconds : Z) : HashRouter := mkRouter ∅ entryHoldTimeInSeconds.

Implicit Type r : HashRouter.

(** The time is an argument; entries that were not touched for the hold time go
    when a new one comes. *)
Section router.
Context (now : Z).

Definition expire r : gmap Z Entry := filter (λ x, now - mHoldTime r < e_when x.2) (mSuppressionMap r).

Definition put (key : Z) (e : Entry) : M HashRouter () :=
  modify (λ r, mkRouter (<[key := e]> (mSuppressionMap r)) (mHoldTime r)).

Definition emplace (key : Z) : M HashRouter (Entry * bool) :=
  let! found := gets (λ r, mSuppressionMap r !! key) in
  match found with
  | Some e =>
      let e := mkEntry now (flags_ e) (peers_ e) in
      put key e;; ret (e, false)
  | None =>
      modify (λ r, mkRouter (expire r) (mHoldTime r));;
      let e := mkEntry now 0 ∅ in
      put key e;; ret (e, true)
  end.

Definition addSuppression (key : Z) : M HashRouter () := let! _ := emplace key in ret ().

Definition addPeer (peer : Z) (e : Entry) : Entry :=
  if peer =? 0 then e else mkEntry (e_when e) (flags_ e) ({[peer]} ∪ peers_ e).

Definition addSuppressionPeer (key peer : Z) : M HashRouter (bool * Z) :=
  let! e := emplace key in
  put key (addPeer peer e.1);;
  ret (e.2, flags_ e.1).

Definition getFlags (key : Z) : M HashRouter Z := let! e := emplace key in ret (flags_ e.1).

Definition setFlags (key flags : Z) : M HashRouter bool :=
  let! e := emplace key in
  if Z.land (flags_ e.1) flags =? flags then ret false
  else
    put key (mkEntry (e_when e.1) (Z.lor (flags_ e.1) flags) (peers_ e.1));;
    ret true.

(** The peers of the entry, exchanged for the caller's. *)
Definition swapSet (key : Z) (peers : gset Z) (flag : Z) : M HashRouter (bool * gset Z) :=
  let! e := emplace key in
  if Z.land (flags_ e.1) flag =? flag then ret (false, peers)
  else
    put key (mkEntry (e_when e.1) (Z.lor (flags_ e.1) flag) peers);;
    ret (true, peers_ e.1).

(** ** Validity *)

Definition SF_SIGBAD : Z := 0x100.
Definition SF_SIGGOOD : Z := 0x200.
Definition SF_LOCALBAD : Z := 0x400.
Definition SF_LOCALGOOD : Z := 0x800.

Inductive Validity := SigBad | SigGoodOnly | Valid.

#[global] Instance Validity_eq_dec : EqDecision Validity.
Proof. solve_decision. Defined.

Context `{Keys}.

Definition checkValidity (tx : STTx) (allowMultiSign : bool) : M HashRouter Validity :=
  let id := getTransactionID tx in
  let! flags := getFlags id in
  if has_any flags SF_SIGBAD then ret SigBad
  else
    let! good :=
      if has_any flags SF_SIGGOOD then ret true
      else if negb (checkSign allowMultiSign tx) then (let! _ := setFlags id SF_SIGBAD in ret false)
      else (let! _ := setFlags id SF_SIGGOOD in ret true) in
    if negb good then ret SigBad
    else if has_any flags SF_LOCALBAD then ret SigGoodOnly
    else if has_any flags SF_LOCALGOOD then ret Valid
    else if negb (passesLocalChecks tx) then (let! _ := setFlags id SF_LOCALBAD in ret SigGoodOnly)
    else (let! _ := setFlags id SF_LOCALGOOD in ret Valid).

Definition forceValidity (txid : Z) (validity : Validity) : M HashRouter () :=
  let flags := match validity with
               | Valid => Z.lor SF_LOCALGOOD SF_SIGGOOD
               | SigGoodOnly => SF_SIGGOOD
               | SigBad => 0
               end in
  if negb (flags =? 0) then (let! _ := setFlags txid flags in ret ()) else ret ().


(** ** The verdict is that of the checks

    Whatever was forgotten or remembered: a router whose flags agree with the
    checks gives the result they give, and still agrees with them afterwards. *)

Context (allowMultiSign : bool) (known : STTx → Prop).

Definition verdict (tx : STTx) : Validity :=
  if checkSign allowMultiSign tx then if passesLocalChecks tx then Valid else SigGoodOnly else SigBad.

(** The transactions there are have identifiers of their own. *)
Definition identified : Prop := ∀ tx tx', known tx → known tx' → getTransactionID tx = getTransactionID tx' →
  checkSign allowMultiSign tx = checkSign allowMultiSign tx' ∧ passesLocalChecks tx = passesLocalChecks tx'.

Definition agrees (tx : STTx) (flags : Z) : Prop :=
  (Z.testbit flags 8 → checkSign allowMultiSign tx = false) ∧ (Z.testbit flags 9 → checkSign allowMultiSign tx = true) ∧
  (Z.testbit flags 10 → passesLocalChecks tx = false) ∧ (Z.testbit flags 11 → passesLocalChecks tx = true).

Definition sound r : Prop :=
  ∀ tx e, known tx → mSuppressionMap r !! getTransactionID tx = Some e → agrees tx (flags_ e).

Lemma has_any_bit flags n : 0 ≤ n → has_any flags (2 ^ n) = Z.testbit flags n.
Proof. intros Hn. unfold has_any. by rewrite flag_testbit, negb_involutive. Qed.

Lemma agrees_0 tx : agrees tx 0.
Proof. unfold agrees. by rewrite !Z.bits_0. Qed.

Lemma agrees_lor tx x y : agrees tx x → agrees tx y → agrees tx (Z.lor x y).
Proof.
  intros (H1 & H2 & H3 & H4) (H1' & H2' & H3' & H4'). unfold agrees. rewrite !Z.lor_spec.
  split_and!; intros [?|?]%orb_True; auto.
Qed.

Lemma sound_put r key e : sound r → (∀ tx, known tx → getTransactionID tx = key → agrees tx (flags_ e)) →
  sound (mkRouter (<[key := e]> (mSuppressionMap r)) (mHoldTime r)).
Proof.
  intros Hs He tx e' Hkn. simpl. intros [[Hk <-]|[_ Hl]]%lookup_insert_Some; [by apply He|by eapply Hs].
Qed.

Lemma sound_expire r : sound r → sound (mkRouter (expire r) (mHoldTime r)).
Proof. intros Hs tx e Hkn. simpl. unfold expire. rewrite map_lookup_filter_Some. intros [Hl _]. by eapply Hs. Qed.

Lemma wp_emplace r key (Q : Entry * bool → HashRouter → Prop) :
  sound r →
  (∀ e b r', sound r' → mSuppressionMap r' !! key = Some e → Q (e, b) r') → wp (emplace key) r Q.
Proof.
  intros Hs HQ. apply wp_bind, wp_gets. destruct (mSuppressionMap r !! key) as [e|] eqn:E.
  - apply wp_bind, wp_modify, wp_ret, HQ; [|simpl; apply lookup_insert_eq]. apply sound_put; [done|].
    intros tx Hkn Hk. apply (Hs tx e); [done|]. by rewrite Hk.
  - apply wp_bind, wp_modify, wp_bind, wp_modify, wp_ret, HQ; [|simpl; apply lookup_insert_eq].
    apply (sound_put (mkRouter (expire r) (mHoldTime r))); [by apply sound_expire|]. intros tx _ _. apply agrees_0.
Qed.

Lemma wp_setFlags r key flags (Q : bool → HashRouter → Prop) :
  sound r → (∀ tx, known tx → getTransactionID tx = key → agrees tx flags) →
  (∀ b r', sound r' → Q b r') → wp (setFlags key flags) r Q.
Proof.
  intros Hs Hf HQ. apply wp_bind. apply wp_emplace; [done|]. intros e b r' Hr' He. simpl.
  destruct (_ =? flags); [by apply wp_ret, HQ|].
  apply wp_bind, wp_modify, wp_ret, HQ. apply sound_put; [done|]. intros tx Hkn Htx. simpl.
  apply agrees_lor; [|by apply Hf]. subst key. by apply (Hr' tx).
Qed.

(** What a flag says. *)
Definition says (tx : STTx) (n : Z) : Prop :=
  (n = 8 ∧ checkSign allowMultiSign tx = false) ∨ (n = 9 ∧ checkSign allowMultiSign tx = true) ∨
  (n = 10 ∧ passesLocalChecks tx = false) ∨ (n = 11 ∧ passesLocalChecks tx = true).

Lemma wp_says r tx n (Q : bool → HashRouter → Prop) :
  identified → known tx → sound r → says tx n → (∀ b r', sound r' → Q b r') → wp (setFlags (getTransactionID tx) (2 ^ n)) r Q.
Proof.
  intros Hid Hkn Hs Hn HQ. apply wp_setFlags; [done| |done]. intros tx' Hkn' Htx. destruct (Hid tx' tx Hkn' Hkn Htx) as [E1 E2].
  destruct Hn as [[-> E]|[[-> E]|[[-> E]|[-> E]]]];
    unfold agrees; rewrite !Z.pow2_bits_eqb by done; split_and!; try done; intros _; congruence.
Qed.

Lemma checkValidity_ok r tx (Q : Validity → HashRouter → Prop) :
  identified → known tx → sound r → (∀ r', sound r' → Q (verdict tx) r') → wp (checkValidity tx allowMultiSign) r Q.
Proof.
  intros Hid Hkn Hs HQ. unfold checkValidity, verdict in *.
  apply wp_bind, wp_bind, wp_emplace; [done|]. intros e b r1 Hr1 He. apply wp_ret. cbn [fst].
  destruct (Hr1 tx e Hkn He) as (Hbad & Hgood & Hlbad & Hlgood).
  rewrite (has_any_bit _ 8), (has_any_bit _ 9), (has_any_bit _ 10), (has_any_bit _ 11) by done.
  destruct (Z.testbit (flags_ e) 8); [rewrite Hbad in HQ by done; by apply wp_ret, HQ|].
  apply wp_bind.
  apply (wp_mono _ _ (λ good r', sound r' ∧ good = checkSign allowMultiSign tx)).
  - destruct (Z.testbit (flags_ e) 9); [apply wp_ret; by rewrite Hgood|].
    destruct (checkSign allowMultiSign tx) eqn:Ec; cbn [negb];
      (apply wp_bind; first [apply (wp_says _ tx 9); [done|done|done|by right; left|]|apply (wp_says _ tx 8); [done|done|done|by left|]]; intros b' r' Hr'; by apply wp_ret).
  - intros good r2 [Hr2 ->]. destruct (checkSign allowMultiSign tx) eqn:Ec; cbn [negb]; [|by apply wp_ret, HQ].
    destruct (Z.testbit (flags_ e) 10); [rewrite Hlbad in HQ by done; by apply wp_ret, HQ|].
    destruct (Z.testbit (flags_ e) 11); [rewrite Hlgood in HQ by done; by apply wp_ret, HQ|].
    destruct (passesLocalChecks tx) eqn:Ep; cbn [negb];
      (apply wp_bind; first [apply (wp_says _ tx 11); [done|done|done|by do 3 right|]|apply (wp_says _ tx 10); [done|done|done|by do 2 right; left|]];
       intros b' r' Hr'; by apply wp_ret, HQ).
Qed.

End router.

End Router.
