(* ===== verification/Metadata.v ===== *)
(** * Transaction metadata

    ledger/TxMeta.h, ledger/impl/TxMeta.cpp and the part of
    ledger/impl/ApplyStateTable.cpp that applies a transaction to an open view: in
    a ledger that is not open any more every entry the transaction affects is
    described, and the transaction is threaded to the accounts it concerns. *)

From stdpp Require Import strings.
From S2P Require Import Prelude StateMonad Issue STAmount Views Overlay RawStateTable ApplyStateTable ViewLogic Objects.
From S2P Require Import Directory Indexes LedgerFormats TrustLines Transaction.
Import Apply Obj Idx Formats Tx.

Open Scope Z_scope.
Open Scope prog_scope.

Module Meta.

(** ** Fields in metadata *)

Definition sfPreviousTxnID : string := "PreviousTxnID".
Definition sfPreviousTxnLgrSeq : string := "PreviousTxnLgrSeq".

Definition sMD_Never : Z := 0x00.
Definition sMD_ChangeOrig : Z := 0x01.
Definition sMD_ChangeNew : Z := 0x02.
Definition sMD_DeleteFinal : Z := 0x04.
Definition sMD_Create : Z := 0x08.
Definition sMD_Always : Z := 0x10.
Definition sMD_Default : Z := Z.lor sMD_ChangeOrig (Z.lor sMD_ChangeNew (Z.lor sMD_DeleteFinal sMD_Create)).

Definition fieldMeta (f : string) : Z :=
  if bool_decide (f = sfPreviousTxnID ∨ f = sfPreviousTxnLgrSeq) then sMD_DeleteFinal
  else if bool_decide (f = "RootIndex"%string) then sMD_Always
  else if bool_decide (f = "Indexes"%string) then sMD_Never
  else sMD_Default.

Definition shouldMeta (c : Z) (f : string) : bool := negb (Z.land (fieldMeta f) c =? 0).

(** The fields that satisfy a predicate, by name. *)
Definition select {A} (p : string → A → bool) (m : gmap string A) : gmap string A := filter (λ x, p x.1 x.2) m.

Definition restrict (c : Z) (o : STObject) : STObject :=
  mkObject (select (λ f _, shouldMeta c f) (u8s o)) (select (λ f _, shouldMeta c f) (u16s o))
    (select (λ f _, shouldMeta c f) (u32s o)) (select (λ f _, shouldMeta c f) (u64s o))
    (select (λ f _, shouldMeta c f) (h128s o)) (select (λ f _, shouldMeta c f) (h256s o))
    (select (λ f _, shouldMeta c f) (v256s o)) (select (λ f _, shouldMeta c f) (vls o))
    (select (λ f _, shouldMeta c f) (accounts o)) (select (λ f _, shouldMeta c f) (amounts o))
    (select (λ f _, shouldMeta c f) (arrays o)).

(** Those without a matching entry in another object. *)
Definition unmatched {A} `{EqDecision A} (m other : gmap string A) : gmap string A :=
  select (λ f x, negb (bool_decide (other !! f = Some x))) m.

Definition differing (o other : STObject) : STObject :=
  mkObject (unmatched (u8s o) (u8s other)) (unmatched (u16s o) (u16s other)) (unmatched (u32s o) (u32s other))
    (unmatched (u64s o) (u64s other)) (unmatched (h128s o) (h128s other)) (unmatched (h256s o) (h256s other))
    (unmatched (v256s o) (v256s other)) (unmatched (vls o) (vls other)) (unmatched (accounts o) (accounts other))
    (select (λ f x, match amounts other !! f with Some y => negb (Amt.eqb x y) | None => true end) (amounts o))
    (unmatched (arrays o) (arrays other)).

(** Those that do not have the default value. *)
Definition nonzero (m : gmap string Z) : gmap string Z := select (λ _ x, negb (x =? 0)) m.
Definition nonempty {A} `{EqDecision A} (m : gmap string (list A)) : gmap string (list A) :=
  select (λ _ x, negb (bool_decide (x = []))) m.

Definition non_default (o : STObject) : STObject :=
  mkObject (nonzero (u8s o)) (nonzero (u16s o)) (nonzero (u32s o)) (nonzero (u64s o)) (nonzero (h128s o))
    (nonzero (h256s o)) (nonempty (v256s o)) (nonempty (vls o)) (accounts o)
    (select (λ _ x, negb ((Amt.mValue x =? 0) && Amt.mIsNative x)) (amounts o)) (nonempty (arrays o)).

(** An object with no fields is not added. *)
Definition unless_empty (o : STObject) : option STObject := if bool_decide (o = empty_object) then None else Some o.

(** ** TxMeta *)

Inductive NodeKind := sfCreatedNode | sfModifiedNode | sfDeletedNode.

#[global] Instance NodeKind_eq_dec : EqDecision NodeKind.
Proof. solve_decision. Defined.

Record AffectedNode := mkNode {
  n_kind : NodeKind;
  n_index : Z;
  n_type : Z;
  n_thread : option (Z * Z);
  n_previous : option STObject;
  n_final : option STObject;
  n_new : option STObject
}.

Record TxMeta := mkMeta {
  mTransactionID : Z;
  mLedger : Z;
  mNodes : list AffectedNode;
  mDelivered : option Amt.STAmount;
  mFeeShareTakers : list (AccountID * Amt.STAmount)
}.

Definition set_nodes (l : list AffectedNode) (m : TxMeta) : TxMeta :=
  mkMeta (mTransactionID m) (mLedger m) l (mDelivered m) (mFeeShareTakers m).

Definition new_node (k : NodeKind) (index type : Z) : AffectedNode := mkNode k index type None None None None.

(** Changes the first node with an index, or adds one. *)
Fixpoint at_node (index : Z) (f : AffectedNode → AffectedNode) (fresh_node : AffectedNode) (l : list AffectedNode) :
    list AffectedNode :=
  match l with
  | [] => [f fresh_node]
  | n :: l => if n_index n =? index then f n :: l else n :: at_node index f fresh_node l
  end.

(** [setAffectedNode]: the kind and the type are forced. *)
Definition setAffectedNode (node : Z) (k : NodeKind) (type : Z) (m : TxMeta) : TxMeta :=
  set_nodes (at_node node
    (λ n, mkNode k (n_index n) type (n_thread n) (n_previous n) (n_final n) (n_new n)) (new_node k node type) (mNodes m)) m.

(** [TxMeta::thread (getAffectedNode (sle, sfModifiedNode), prevTxID, prevLgrID)] *)
Definition thread_node (sle : SLE STObject) (prev : Z * Z) (m : TxMeta) : TxMeta :=
  set_nodes (at_node (sle_key sle)
    (λ n, mkNode (n_kind n) (n_index n) (n_type n) (Some (default prev (n_thread n))) (n_previous n) (n_final n) (n_new n))
    (new_node sfModifiedNode (sle_key sle) (sle_type sle)) (mNodes m)) m.

(** [getAffectedNode (index).emplace_back (...)], for a node that is there. *)
Definition describe (index : Z) (previous final new : option STObject) (m : TxMeta) : TxMeta :=
  set_nodes (at_node index
    (λ n, mkNode (n_kind n) (n_index n) (n_type n) (n_thread n) previous final new) (new_node sfModifiedNode index 0)
    (mNodes m)) m.

Definition isNodeAffected (m : TxMeta) (node : Z) : bool := existsb (λ n, n_index n =? node) (mNodes m).

(** ** Threading *)

(** [STLedgerEntry::thread]: what the entry was threaded to before. *)
Definition thread (txID ledgerSeq : Z) (s : SLE STObject) : option (Z * Z) * SLE STObject :=
  let o := fields s in
  let oldPrevTxID := getFieldH256 sfPreviousTxnID o in
  if oldPrevTxID =? txID then (None, s)
  else (Some (oldPrevTxID, getFieldU32 sfPreviousTxnLgrSeq o),
        mkSLE (sle_key s) (sle_type s)
          (setFieldU32 sfPreviousTxnLgrSeq ledgerSeq (setFieldH256 sfPreviousTxnID txID o))).

(** The serialization of metadata is not part of the model. *)
Class MetaWire := meta_bytes : TxMeta → TER → Z → list Z.

Section apply.
Context `{Digest} {V : Type} {RV : ReadView STObject V}.
Abbreviation base := (Raw.OpenView STObject V).

(** The entries of the table, the metadata and the entries that are changed only
    by threading. *)
Record Threading := mkThreading {
  t_store : gmap loc (SLE STObject);
  t_meta : TxMeta;
  t_mods : gmap Z (SLE STObject)
}.

Context (items : gmap Z (Action * loc)) (to : base).

Definition on_meta (f : TxMeta → TxMeta) : M Threading () :=
  StateMonad.modify (λ t, mkThreading (t_store t) (f (t_meta t)) (t_mods t)).

(** What [getForMod] returns: an entry of the table or one of [mods]. *)
Inductive Target := in_table (p : loc) | in_mods (key : Z).

Definition getForMod (key : Z) : M Threading (option Target) :=
  let! found := gets (λ t, t_mods t !! key) in
  match found, items !! key with
  | Some _, _ => ret (Some (in_mods key))
  | None, Some (erase_, _) => ret None
  | None, Some (insert_, p) | None, Some (modify, p) => ret (Some (in_table p))
  | None, Some (cache, _) | None, None =>
      match rv_read to (unchecked key) with
      | None => ret None
      | Some c =>
          StateMonad.modify (λ t, mkThreading (t_store t) (t_meta t) (<[key := c]> (t_mods t)));;
          ret (Some (in_mods key))
      end
  end.

Definition fetch_target (x : Target) : M Threading (SLE STObject) :=
  let! s := gets (λ t, match x with in_table p => t_store t !! p | in_mods k => t_mods t !! k end) in non_null s.

Definition put_target (x : Target) (s : SLE STObject) : M Threading () :=
  StateMonad.modify (λ t, match x with
               | in_table p => mkThreading (<[p := s]> (t_store t)) (t_meta t) (t_mods t)
               | in_mods k => mkThreading (t_store t) (t_meta t) (<[k := s]> (t_mods t))
               end).

Definition threadItem (x : Target) : M Threading () :=
  let! s := fetch_target x in
  let! m := gets t_meta in
  let '(prev, s') := thread (mTransactionID m) (mLedger m) s in
  match prev with
  | None => ret ()
  | Some prev =>
      put_target x s';;
      if prev.1 =? 0 then ret () else on_meta (thread_node s prev)
  end.

Definition threadTx (account : AccountID) : M Threading () :=
  let! x := getForMod (k_key (keylet.account account)) in
  match x with None => ret () | Some x => threadItem x end.

Definition threadOwners (s : SLE STObject) : M Threading () :=
  let o := fields s in
  if sle_type s =? ltACCOUNT_ROOT then ret ()
  else if sle_type s =? ltSUSPAY then
    threadTx (getAccountID Trust.sfAccount o);; threadTx (getAccountID sfDestination o)
  else if sle_type s =? ltRIPPLE_STATE then
    threadTx (account (Amt.mIssue (getFieldAmount "LowLimit" o)));;
    threadTx (account (Amt.mIssue (getFieldAmount "HighLimit" o)))
  else match accounts o !! Trust.sfAccount with Some a => threadTx a | None => ret () end.

(** ** The changes of a transaction *)

Definition whole (s : SLE STObject) : STObject := complete (sle_type s) (fields s).

Definition changed_fields (orig cur : STObject) : option STObject :=
  unless_empty (restrict sMD_ChangeOrig (differing orig cur)).

Definition affected (k : Z) (kind : NodeKind) (p : loc) : M Threading () :=
  let origNode := rv_read to (unchecked k) in
  let! curNode := fetch_target (in_table p) in
  match kind with
  | sfDeletedNode =>
      on_meta (setAffectedNode k kind (sle_type curNode));;
      let! origNode := non_null origNode in
      threadOwners origNode;;
      let! curNode := fetch_target (in_table p) in
      on_meta (describe k (changed_fields (whole origNode) (whole curNode))
        (unless_empty (restrict (Z.lor sMD_Always sMD_DeleteFinal) (whole curNode))) None)
  | sfModifiedNode =>
      let! origNode := non_null origNode in
      if same_entry curNode origNode then ret ()
      else
        on_meta (setAffectedNode k kind (sle_type curNode));;
        when (isThreadedType (sle_type curNode)) (threadItem (in_table p));;
        let! curNode := fetch_target (in_table p) in
        on_meta (describe k (changed_fields (whole origNode) (whole curNode))
          (unless_empty (restrict (Z.lor sMD_Always sMD_ChangeNew) (whole curNode))) None)
  | sfCreatedNode =>
      on_meta (setAffectedNode k kind (sle_type curNode));;
      threadOwners curNode;;
      when (isThreadedType (sle_type curNode)) (threadItem (in_table p));;
      let! curNode := fetch_target (in_table p) in
      on_meta (describe k None None
        (unless_empty (restrict (Z.lor sMD_Create sMD_Always) (non_default (whole curNode)))))
  end.

Definition affected_item (x : Z * (Action * loc)) : M Threading () :=
  match x.2 with
  | (cache, _) => ret ()
  | (erase_, p) => affected x.1 sfDeletedNode p
  | (insert_, p) => affected x.1 sfCreatedNode p
  | (modify, p) => affected x.1 sfModifiedNode p
  end.

Definition affect_all (l : list (Z * (Action * loc))) : M Threading () := foldM (λ _, affected_item) () l.

End apply.

(** ** [ApplyStateTable::apply (OpenView&, ...)] *)

Section apply_tx.
Context `{Digest} `{Keys} `{MetaWire} {V V' : Type} {RV : ReadView STObject V}.

Fixpoint replace_all (to : Raw.OpenView STObject V) (l : list (Z * SLE STObject)) : result (Raw.OpenView STObject V) :=
  match l with
  | [] => Ok to
  | (_, s) :: l => let* to := Views.rawReplace to s in replace_all to l
  end.

(** [TxMeta::addRaw]: the nodes in the order of their indexes. *)
Definition node_le (x y : AffectedNode) : Prop := n_index x ≤ n_index y.

#[global] Instance node_le_dec x y : Decision (node_le x y).
Proof. unfold node_le. apply _. Defined.

Definition addRaw (m : TxMeta) (ter : TER) (index : Z) : list Z :=
  meta_bytes (set_nodes (merge_sort node_le (mNodes m)) m) ter index.

(** Without metadata the view is applied as it is; otherwise its entries are
    threaded first. *)
Definition apply_tx (v : ApplyView STObject V') (to : Raw.OpenView STObject V) (tx : STTx) (ter : TER)
    (deliver : option Amt.STAmount) : result (Raw.OpenView STObject V) :=
  if Raw.open (Raw.info_ to) then
    let* to := Raw.rawTxInsert to (getTransactionID tx) (tx_bytes tx) None in
    Apply.apply v to
  else
    let meta := mkMeta (getTransactionID tx) (Raw.seq (Raw.info_ to)) [] deliver (feeShareTakers_ v) in
    let* r := affect_all (items_ v) to (in_order (items_ v)) (mkThreading (store v) meta ∅) in
    let t := r.2 in
    let* to := replace_all to (in_order (t_mods t)) in
    let sMeta := addRaw (t_meta t) ter (Z.of_nat (Raw.txCount to)) in
    let* to := Raw.rawTxInsert to (getTransactionID tx) (tx_bytes tx) (Some sMeta) in
    Apply.apply (set_store v (t_store t)) to.

End apply_tx.

End Meta.
