(* ===== verification/Transactor.v ===== *)
(** * Applying transactions

    app/tx/impl/Transactor.cpp, app/tx/impl/Transactor.h, app/tx/impl/ApplyContext.cpp,
    app/tx/impl/apply.cpp and app/tx/impl/applySteps.cpp: the checks every
    transaction goes through, what is charged for it, and how its changes, or only
    its fee, get into the ledger.  What a type of transaction does of its own is a
    [Transactor]. *)

From stdpp Require Import strings.
From S2P Require Import Prelude StateMonad Issue STAmount BigNum STAmountArith Views Overlay RawStateTable ApplyStateTable.
From S2P Require Import ViewLogic Objects Directory Indexes TrustLines LoadFeeTrack Transaction HashRouter LedgerFormats Metadata.
Import Apply VL Dir Idx Tx Trust Obj.

Open Scope Z_scope.
Open Scope prog_scope.

Module Transact.

(** ** The environment *)

Record Fees := mkFees { base_fee : Z; units : Z; reserve : Z; increment : Z }.

(** The configuration: the features that are enabled at all events, the fees that
    are fixed, and the account that takes the fees of ring deposits. *)
Record Config := mkConfig {
  features : gset Z;
  FEE_DEFAULT_CREATE : Z;
  FEE_DEFAULT_RATE_NATIVE : Z;
  FEE_DEFAULT_MIN_NATIVE : Z;
  FEE_DEFAULT_NONE_NATIVE : Z;
  ASSET_TX_MIN : Z;
  ring_account : option AccountID
}.

(** The amendments a ledger has enabled. *)
Definition Rules : Type := gset Z.

Definition enabled (rules : Rules) (id : Z) (presets : gset Z) : bool :=
  if bool_decide (id ∈ presets) then true else bool_decide (id ∈ rules).

Definition tapNONE : Z := 0x00.
Definition tapNO_CHECK_SIGN : Z := 0x01.
Definition tapENABLE_TESTING : Z := 0x02.
Definition tapPOST_SEQ : Z := 0x04.
Definition tapRETRY : Z := 0x20.
Definition tapUNLIMITED : Z := 0x400.

Definition SYSTEM_CURRENCY_START : Z := 2 * 1000000 * 1000000.

(** The drops are compared as unsigned integers. *)
Definition isLegalAmount (amount : Amt.XRPAmount) : bool := u64 (Amt.drops_ amount) <=? SYSTEM_CURRENCY_START.

Definition lsfPasswordSpent : Z := 0x00010000.
Definition lsfDisableMaster : Z := 0x00100000.

Definition sfSignerQuorum : string := "SignerQuorum".
Definition sfSignerEntries : string := "SignerEntries".
Definition sfSignerWeight : string := "SignerWeight".
Definition sfTakerPays : string := "TakerPays".

(** [catch (std::exception const&)], which does not see a call of [LogicError]. *)
Definition catch_std {A} (r : result A) (otherwise : A) : result A :=
  match r with
  | Throw (LogicError _ as e) | Throw (Undefined _ as e) => Throw e
  | Throw _ => Ok otherwise
  | Ok a => Ok a
  end.

Definition is_success (ter : TER) : bool := bool_decide (ter = tesSUCCESS).

Section transactor.
Context `{Digest} `{BN : BigNum} `{Keys} `{Meta.MetaWire} {V : Type} {RV : ReadView STObject V}.
Abbreviation ledger := (Raw.OpenView STObject V).
Abbreviation prog := (prog STObject ledger).
Context (config : Config) (feeTrack : LoadFee.LoadFeeTrack) (fees : Fees) (now : Z).

Definition featureMultiSign : Z :=
  sha512Half [77; 117; 108; 116; 105; 83; 105; 103; 110].

(** [(flags & tapENABLE_TESTING) || rules.enabled (featureMultiSign, ...)] *)
Definition multi_sign (rules : Rules) (flags : Z) : bool :=
  has_any flags tapENABLE_TESTING || enabled rules featureMultiSign (features config).

(** What the functions of ledger/View.cpp see of the ledger. *)
Definition view_info (view : ledger) : Trust.LedgerInfo :=
  let info := Raw.info_ view in
  Trust.mkInfo (Raw.open info) (Raw.seq info) (Raw.closeTime info) (Raw.parentCloseTime info) (reserve fees) (increment fees).

Definition accountReserve (ownerCount : Z) : Z := i64 (u64 (reserve fees + ownerCount * increment fees)).

(** ** Checks without a ledger *)

Section preflight.
Context (rules : Rules) (flags : Z).

Definition preflight0 (tx : STTx) : TER := if getTransactionID tx =? 0 then temINVALID else tesSUCCESS.

Definition preflight1 (tx : STTx) : result TER :=
  let ret := preflight0 tx in
  if negb (isTesSuccess ret) then Ok ret
  else if tx_account tx =? 0 then Ok temBAD_SRC_ACCOUNT
  else
    let fee := getFieldAmount sfFee (tx_fields tx) in
    if negb (Amt.mIsNative fee) || Amt.mIsNegative fee then Ok temBAD_FEE
    else
      let* drops := Amt.xrp fee in
      if negb (isLegalAmount drops) then Ok temBAD_FEE else Ok tesSUCCESS.

Definition preflight2 (tx : STTx) : M Router.HashRouter TER :=
  if has_any flags tapNO_CHECK_SIGN then ret tesSUCCESS
  else
    let! validity := Router.checkValidity now tx (multi_sign rules flags) in
    ret (if bool_decide (validity = Router.SigBad) then temINVALID else tesSUCCESS).

(** [preflight1], the checks of a type of transaction, [preflight2]. *)
Definition preflight_with (own : STTx → result TER) (tx : STTx) : M Router.HashRouter TER :=
  let! ter := lift (preflight1 tx) in
  if negb (isTesSuccess ter) then ret ter
  else
    let! ter := lift (own tx) in
    if negb (isTesSuccess ter) then ret ter else preflight2 tx.

End preflight.

(** ** Fees *)

Definition calculateFee (baseFee flags : Z) : Amt.XRPAmount :=
  Amt.mkXRP (i64 (LoadFee.scaleFeeLoad feeTrack baseFee (base_fee fees) (units fees) (has_any flags tapUNLIMITED))) false.

(** The base fee and one more for each signer. *)
Definition calculateBaseFee (tx : STTx) : Z :=
  let signerCount := Z.of_nat (length (getFieldArray sfSigners (tx_fields tx))) in
  u64 (units fees + signerCount * units fees).

(** [std::max (STAmount, STAmount)] *)
Definition max_amount (x y : Amt.STAmount) : result Amt.STAmount :=
  let* less := Amt.ltb x y in Ok (if less then y else x).

(** A share of a native amount, at least some drops. *)
Definition share_of (amount : Amt.STAmount) (rate least : Z) : result Amt.XRPAmount :=
  let* rate := Arith.amountFromRate rate in
  let* share := Arith.multiply amount rate (Amt.mIssue amount) in
  let* share := max_amount share (Amt.of_drops least false) in
  Amt.xrp share.

Definition fee_due (tx : STTx) (baseFee flags : Z) : result Amt.XRPAmount :=
  if bool_decide (getTxnType tx = ttRING_DEPOSIT) then
    share_of (getFieldAmount sfAmount (tx_fields tx)) (2 * FEE_DEFAULT_RATE_NATIVE config) (2 * FEE_DEFAULT_MIN_NATIVE config)
  else Ok (calculateFee baseFee flags).

(** ** Checks against a ledger *)

Section preclaim.
Context (view : ledger) (flags : Z).

Definition is_open : bool := Raw.open (Raw.info_ view).

(** An entry the code uses without asking whether it is there. *)
Definition must {A} (r : option A) : result A :=
  match r with Some x => Ok x | None => Throw (Undefined "null pointer") end.

Definition read_account (id : AccountID) : option STObject := fields <$> rv_read view (keylet.account id).

Definition checkFee (tx : STTx) (baseFee : Z) : result TER :=
  let* feePaid := Amt.xrp (getFieldAmount sfFee (tx_fields tx)) in
  if negb (isLegalAmount feePaid) || (Amt.drops_ feePaid <? 0) then Ok temBAD_FEE
  else
    let* feeDue := fee_due tx baseFee flags in
    if is_open && (Amt.drops_ feePaid <? Amt.drops_ feeDue) then Ok telINSUF_FEE_P
    else if Amt.drops_ feePaid =? 0 then Ok tesSUCCESS
    else
      let* sle := must (read_account (tx_account tx)) in
      let* balance := Amt.xrp (getFieldAmount sfBalance sle) in
      if Amt.drops_ balance <? Amt.drops_ feePaid then
        if (0 <? Amt.drops_ balance) && negb is_open then Ok tecINSUFF_FEE else Ok terINSUF_FEE_B
      else Ok tesSUCCESS.

Definition checkSeq (tx : STTx) : result TER :=
  match read_account (tx_account tx) with
  | None => Ok terNO_ACCOUNT
  | Some sle =>
      let t_seq := getSequence tx in
      let a_seq := getFieldU32 sfSequence sle in
      if negb (t_seq =? a_seq) then
        if a_seq <? t_seq then
          if has_any flags tapPOST_SEQ then Ok tesSUCCESS else Ok terPRE_SEQ
        else if Raw.txExists view (getTransactionID tx) then Ok tefALREADY
        else Ok tefPAST_SEQ
      else if present (h256s (tx_fields tx)) sfAccountTxnID &&
              negb (getFieldH256 sfAccountTxnID sle =? getFieldH256 sfAccountTxnID (tx_fields tx))
      then Ok tefWRONG_PRIOR
      else if present (u32s (tx_fields tx)) sfLastLedgerSequence &&
              (getFieldU32 sfLastLedgerSequence (tx_fields tx) <? Raw.seq (Raw.info_ view))
      then Ok tefMAX_LEDGER
      else Ok tesSUCCESS
  end.

(** *** Signatures *)

Definition checkSingleSign (tx : STTx) : result TER :=
  let id := tx_account tx in
  let* sle := must (read_account id) in
  let hasAuthKey := present (accounts sle) sfRegularKey in
  let pkAccount := calcAccountID (getSigningPubKey tx) in
  if pkAccount =? id then
    if isFlag lsfDisableMaster sle then Ok tefMASTER_DISABLED else Ok tesSUCCESS
  else if hasAuthKey && (pkAccount =? getAccountID sfRegularKey sle) then Ok tesSUCCESS
  else if hasAuthKey then Ok tefBAD_AUTH
  else Ok tefBAD_AUTH_MASTER.

(** [SignerEntries::deserialize] *)
Record SignerEntry := mkSigner { s_account : AccountID; s_weight : Z }.

Fixpoint signer_entries (l : list STInner) : option (list SignerEntry) :=
  match l with
  | [] => Some []
  | sEntry :: l =>
      if negb (bool_decide (inner_name sEntry = "SignerEntry"%string)) then None
      else
        let e := mkSigner (inner_getAccountID sfAccount sEntry) (inner_getFieldU16 sfSignerWeight sEntry) in
        (e ::.) <$> signer_entries l
  end.

Definition deserialize (obj : STObject) : TER + list SignerEntry :=
  match arrays obj !! sfSignerEntries with
  | None => inl temMALFORMED
  | Some l => match signer_entries l with None => inl temMALFORMED | Some l => inr l end
  end.

(** Whether a signer may use its key: an account that is not in the ledger may,
    one that is needs a master key that is not disabled or its regular key. *)
Definition authorized (txSignerAcctID signingAcctIDFromPubKey : AccountID) : TER :=
  match read_account txSignerAcctID with
  | sleTxSignerRoot =>
      if signingAcctIDFromPubKey =? txSignerAcctID then
        match sleTxSignerRoot with
        | Some root => if has_any (getFieldU32 sfFlags root) lsfDisableMaster then tefMASTER_DISABLED else tesSUCCESS
        | None => tesSUCCESS
        end
      else
        match sleTxSignerRoot with
        | None => tefBAD_SIGNATURE
        | Some root =>
            if negb (present (accounts root) sfRegularKey) then tefBAD_SIGNATURE
            else if negb (signingAcctIDFromPubKey =? getAccountID sfRegularKey root) then tefBAD_SIGNATURE
            else tesSUCCESS
        end
  end.

(** The [while] loop: on to the first entry that does not come before the signer;
    nothing if there is none. *)
Fixpoint advance (txSignerAcctID : AccountID) (iter : list SignerEntry) : result (option (list SignerEntry)) :=
  match iter with
  | [] => Throw (Undefined "iter->account")
  | e :: rest =>
      if s_account e <? txSignerAcctID then
        match rest with [] => Ok None | _ => advance txSignerAcctID rest end
      else Ok (Some iter)
  end.

(** The [for] loop: the sum of the weights or why there is none. *)
Fixpoint match_signers (iter : list SignerEntry) (weightSum : Z) (txSigners : list STInner) : result (TER + Z) :=
  match txSigners with
  | [] => Ok (inr weightSum)
  | txSigner :: txSigners =>
      let txSignerAcctID := inner_getAccountID sfAccount txSigner in
      let* iter := advance txSignerAcctID iter in
      match iter with
      | None | Some [] => Ok (inl tefBAD_SIGNATURE)
      | Some (e :: rest) =>
          if negb (s_account e =? txSignerAcctID) then Ok (inl tefBAD_SIGNATURE)
          else
            let ter := authorized txSignerAcctID (calcAccountID (inner_getFieldVL sfSigningPubKey txSigner)) in
            if negb (is_success ter) then Ok (inl ter)
            else match_signers (e :: rest) (u32 (weightSum + s_weight e)) txSigners
      end
  end.

Definition checkMultiSign (tx : STTx) : result TER :=
  match rv_read view (keylet.signers (tx_account tx)) with
  | None => Ok tefNOT_MULTI_SIGNING
  | Some sleAccountSigners =>
      match deserialize (fields sleAccountSigners) with
      | inl ter => Ok ter
      | inr accountSigners =>
          let* r := match_signers accountSigners 0 (getFieldArray sfSigners (tx_fields tx)) in
          match r with
          | inl ter => Ok ter
          | inr weightSum =>
              if weightSum <? getFieldU32 sfSignerQuorum (fields sleAccountSigners) then Ok tefBAD_QUORUM else Ok tesSUCCESS
          end
      end
  end.

Definition checkSign (rules : Rules) (tx : STTx) : result TER :=
  if multi_sign rules flags && bool_decide (getSigningPubKey tx = []) then checkMultiSign tx else checkSingleSign tx.

End preclaim.

(** ** Transactors *)

(** The source account, what is due, and the balance before and after the fee. *)
Record State := mkState {
  account_ : AccountID;
  mFeeDue : Z;
  mPriorBalance : Z;
  mSourceBalance : Z
}.

(** What a type of transaction brings along.  [doApply] gives the result and, for
    some payments, the amount that was delivered. *)
Record Transactor := mkTransactor {
  t_preflight : Rules → Z → STTx → M Router.HashRouter TER;
  t_calculateBaseFee : ledger → STTx → Z;
  t_preclaim : ledger → Z → STTx → result TER;
  t_doApply : Trust.LedgerInfo → Rules → Z → STTx → State → prog (TER * option Amt.STAmount)
}.

Definition invoke_preclaim (T : Transactor) (rules : Rules) (view : ledger) (flags : Z) (tx : STTx) : result (TER * Z) :=
  let baseFee := t_calculateBaseFee T view tx in
  if tx_account tx =? 0 then Ok (tesSUCCESS, baseFee)
  else
    let* ter := checkSeq view flags tx in
    if negb (is_success ter) then Ok (ter, baseFee)
    else
      let* ter := checkFee view flags tx baseFee in
      if negb (is_success ter) then Ok (ter, baseFee)
      else
        let* ter := checkSign view flags rules tx in
        if negb (is_success ter) then Ok (ter, baseFee)
        else
          let* ter := t_preclaim T view flags tx in
          Ok (ter, baseFee).

Definition likelyToClaimFee (ter : TER) : bool := is_success ter || isTecClaim ter.

(** ** Applying *)

Section apply.
Context (T : Transactor) (info : Trust.LedgerInfo) (rules : Rules) (flags : Z) (tx : STTx).

Definition setSeq : prog () :=
  let! sle := peek (keylet.account (tx_account tx)) in
  let! sle := non_null sle in
  set sle (setFieldU32 sfSequence (u32 (getSequence tx + 1)));;
  let! tracked := get sle (λ o, present (h256s o) sfAccountTxnID) in
  when tracked (set sle (setFieldH256 sfAccountTxnID (getTransactionID tx))).

(** The result and the balance of the source. *)
Definition payFee (mSourceBalance : Z) : prog (TER * Z) :=
  let! feePaid := lift (Amt.xrp (getFieldAmount sfFee (tx_fields tx))) in
  if bool_decide (getTxnType tx = ttRING_DEPOSIT) then
    match ring_account config with
    | None => ret (tefINTERNAL, mSourceBalance)
    | Some midAccount =>
        let! amount := lift (Amt.of_xrp feePaid) in
        let! ter := Trust.transferXRP info (tx_account tx) midAccount amount in
        ret (ter, mSourceBalance)
    end
  else
    let! sle := peek (keylet.account (tx_account tx)) in
    let! sle := non_null sle in
    let mSourceBalance := i64 (mSourceBalance - Amt.drops_ feePaid) in
    let! balance := lift (Amt.of_xrp (Amt.mkXRP mSourceBalance false)) in
    set sle (setFieldAmount sfBalance balance);;
    ret (tesSUCCESS, mSourceBalance).

Definition apply (baseFee : Z) : prog (TER * option Amt.STAmount) :=
  let account_ := tx_account tx in
  let! sle := peek (keylet.account account_) in
  let feeDue := Amt.drops_ (calculateFee baseFee flags) in
  match sle with
  | None => t_doApply T info rules flags tx (mkState account_ feeDue 0 0)
  | Some sle =>
      let! balance := get sle (getFieldAmount sfBalance) in
      let! prior := lift (Amt.xrp balance) in
      setSeq;;
      let! paid := payFee (Amt.drops_ prior) in
      if negb (is_success paid.1) then ret (paid.1, None)
      else
        update sle;;
        t_doApply T info rules flags tx (mkState account_ feeDue (Amt.drops_ prior) paid.2)
  end.

(** The offers that were removed unchanged, from what was visited. *)
Definition removed_offers (l : list (Visit (F := STObject))) : list Z :=
  omap (λ x,
    match isDelete x, before_ x, after_ x with
    | true, Some before, Some after =>
        if (sle_type before =? ltOFFER) &&
           Amt.eqb (getFieldAmount sfTakerPays (fields before)) (getFieldAmount sfTakerPays (fields after))
        then Some (v_key x) else None
    | _, _, _ => None
    end) l.

(** At most 1000 of the offers are deleted. *)
Fixpoint removeUnfundedOffers (removed : Z) (offers : list Z) : prog () :=
  match offers with
  | [] => ret ()
  | index :: offers =>
      let! sleOffer := peek (keylet.offer_key index) in
      match sleOffer with
      | None => removeUnfundedOffers removed offers
      | Some _ =>
          let! _ := Trust.offerDelete sleOffer in
          if removed + 1 =? 1000 then ret () else removeUnfundedOffers (removed + 1) offers
      end
  end.

Definition charged_fee : result Z :=
  if bool_decide (getTxnType tx = ttRING_DEPOSIT) then Ok 0
  else let* fee := Amt.xrp (getFieldAmount sfFee (tx_fields tx)) in Ok (Amt.drops_ fee).

(** Only the fee is claimed; the fee that is charged. *)
Definition claim_fee (oversize : bool) (removedOffers : list Z) (fee : Z) : prog Z :=
  let! txnAcct := peek (keylet.account (tx_account tx)) in
  let! txnAcct := non_null txnAcct in
  let! balance := get txnAcct (getFieldAmount sfBalance) in
  let! balance := lift (Amt.xrp balance) in
  let balance := Amt.drops_ balance in
  let fee := if balance <? fee then balance else fee in
  let! rest := lift (Amt.of_xrp (Amt.mkXRP (i64 (balance - fee)) false)) in
  set txnAcct (setFieldAmount sfBalance rest);;
  set txnAcct (setFieldU32 sfSequence (u32 (getSequence tx + 1)));;
  when oversize (removeUnfundedOffers 0 removedOffers);;
  update txnAcct;;
  ret fee.

(** [operator()] up to where the changes are applied: the result, and if the
    transaction is applied the view with its changes and the fee, and the amount
    delivered. *)
Definition decide_ (base : ledger) (preclaimResult : TER) (baseFee : Z) :
    result (TER * option (ApplyView STObject ledger * Z * option Amt.STAmount)) :=
  let fresh_view := apply_view base in
  let* r :=
    if is_success preclaimResult then apply baseFee fresh_view
    else Ok ((preclaimResult, None), fresh_view) in
  let '((terResult, deliver), v) := r in
  let didApply := isTesSuccess terResult in
  let* fee := charged_fee in
  let terResult := if 5200 <? Z.of_nat (Apply.size v) then tecOVERSIZE else terResult in
  let oversize := bool_decide (terResult = tecOVERSIZE) in
  if oversize || (isTecClaim terResult && negb (has_any flags tapRETRY)) then
    let removedOffers := if oversize then removed_offers (Apply.visit v base) else [] in
    let* r := claim_fee oversize removedOffers fee fresh_view in
    Ok (terResult, Some (r.2, r.1, None))
  else if didApply then Ok (terResult, Some (v, fee, deliver))
  else Ok (terResult, None).

(** A closed ledger destroys the fee. *)
Definition destroy_fee (base : ledger) (fee : Z) (v : ApplyView STObject ledger) : result (ApplyView STObject ledger) :=
  if Raw.open (Raw.info_ base) then Ok v
  else if fee <? 0 then Throw (logic_error "amount is negative!")
  else Ok (if fee =? 0 then v else destroyXRP v fee).

End apply.

(** [operator()] as [doApply] calls it, with its exceptions caught.  One that came
    while the changes are applied would leave the ledger half changed and has no
    result here; that there is none is part of [TxFacts.run_ok]. *)
Definition run (T : Transactor) (rules : Rules) (flags : Z) (tx : STTx) (base : ledger) (preclaimResult : TER) (baseFee : Z) :
    result (TER * bool * ledger) :=
  let* r := catch_std (
    let* r := decide_ T (view_info base) rules flags tx base preclaimResult baseFee in
    match r with
    | (ter, None) => Ok (ter, None)
    | (ter, Some (v, fee, deliver)) => let* v := destroy_fee base fee v in Ok (ter, Some (v, deliver))
    end) (tefEXCEPTION, None) in
  match r with
  | (ter, None) => Ok (ter, false, base)
  | (ter, Some (v, deliver)) => let* base := Meta.apply_tx v base tx ter deliver in Ok (ter, true, base)
  end.

(** ** The steps *)

Context (transactors : TxType → option Transactor).

Definition preflight (rules : Rules) (tx : STTx) (flags : Z) : M Router.HashRouter TER :=
  match transactors (getTxnType tx) with
  | None => ret temUNKNOWN
  | Some T => λ router, catch_std (t_preflight T rules flags tx router) (tefEXCEPTION, router)
  end.

(** The result, the base fee. *)
Definition preclaim (preflight_rules rules : Rules) (preflight_ter : TER) (view : ledger) (flags : Z) (tx : STTx) :
    M Router.HashRouter (TER * Z) :=
  let! ter := if bool_decide (preflight_rules = rules) then ret preflight_ter else preflight rules tx flags in
  if negb (is_success ter) then ret (ter, 0)
  else
    match transactors (getTxnType tx) with
    | None => ret (temUNKNOWN, 0)
    | Some T => lift (catch_std (invoke_preclaim T rules view flags tx) (tefEXCEPTION, 0))
    end.

Definition doApply (rules : Rules) (claimed_seq : Z) (ter : TER) (baseFee flags : Z) (tx : STTx) (view : ledger) :
    result (TER * bool * ledger) :=
  if negb (claimed_seq =? Raw.seq (Raw.info_ view)) then Ok (tefEXCEPTION, false, view)
  else if negb (likelyToClaimFee ter) then Ok (ter, false, view)
  else if Raw.txExists view (getTransactionID tx) then Ok (tefALREADY, false, view)
  else
    match transactors (getTxnType tx) with
    | None => Ok (temUNKNOWN, false, view)
    | Some T => run T rules flags tx view ter baseFee
    end.

(** [apply]: all three on one view. *)
Definition apply_transaction (rules : Rules) (flags : Z) (tx : STTx) (router : Router.HashRouter) (view : ledger) :
    result (TER * bool * Router.HashRouter * ledger) :=
  let* r := preflight rules tx flags router in
  let* r := preclaim rules rules r.1 view flags tx r.2 in
  let '((ter, baseFee), router) := r in
  let* r := doApply rules (Raw.seq (Raw.info_ view)) ter baseFee flags tx view in
  Ok (r.1.1, r.1.2, router, r.2).

End transactor.

End Transact.
