(* ===== verification/SignFacts.v ===== *)
(** * Who may sign

    The walk of [checkMultiSign] over two lists in the order of the accounts, and
    what it stands for: every signer is on the list of the account and may use its
    key, and their weights together reach the quorum. *)

From stdpp Require Import strings.
From S2P Require Import Prelude StateMonad Issue STAmount BigNum STAmountArith Views Overlay RawStateTable ApplyStateTable.
From S2P Require Import ViewLogic Objects Directory Indexes TrustLines LoadFeeTrack Transaction HashRouter LedgerFormats Metadata.
From S2P Require Import Transactor.
Import Idx Tx Trust Obj Transact.

Open Scope Z_scope.

Module Sign.

Section sign.
Context `{Digest} `{Keys} {V : Type} {RV : ReadView STObject V}.
Context (view : Raw.OpenView STObject V).

Definition signer_id (s : STInner) : AccountID := inner_getAccountID sfAccount s.

(** The weight of an account in a list of signers. *)
Fixpoint weight_of (l : list SignerEntry) (a : AccountID) : option Z :=
  match l with
  | [] => None
  | e :: l => if s_account e =? a then Some (s_weight e) else weight_of l a
  end.

(** The weights of the signers of a transaction, or the first objection. *)
Fixpoint total_weight (l : list SignerEntry) (txSigners : list STInner) : TER + Z :=
  match txSigners with
  | [] => inr 0
  | s :: txSigners =>
      match weight_of l (signer_id s), authorized view (signer_id s) (calcAccountID (inner_getFieldVL sfSigningPubKey s)) with
      | None, _ => inl tefBAD_SIGNATURE
      | Some w, tesSUCCESS => match total_weight l txSigners with inl ter => inl ter | inr sum => inr (w + sum) end
      | Some _, ter => inl ter
      end
  end.

Definition multi_sign_spec (tx : STTx) : TER :=
  match rv_read view (keylet.signers (tx_account tx)) with
  | None => tefNOT_MULTI_SIGNING
  | Some sle =>
      match deserialize (fields sle) with
      | inl ter => ter
      | inr l =>
          match total_weight l (getFieldArray sfSigners (tx_fields tx)) with
          | inl ter => ter
          | inr sum => if sum <? getFieldU32 sfSignerQuorum (fields sle) then tefBAD_QUORUM else tesSUCCESS
          end
      end
  end.

(** What a signer list is like: in order, not empty, with weights of 16 bits. *)
Definition entry_lt (x y : SignerEntry) : Prop := s_account x < s_account y.

Record list_ok (l : list SignerEntry) : Prop := {
  list_sorted : StronglySorted entry_lt l;
  list_nonempty : l ≠ [];
  list_weights : Forall (λ e, 0 ≤ s_weight e < 2 ^ 16) l
}.

Lemma weight_of_above l a : Forall (λ e, a < s_account e) l → weight_of l a = None.
Proof. induction 1 as [|e l He _ IH]; [done|]. simpl. rewrite (proj2 (Z.eqb_neq _ _)) by lia. done. Qed.

(** [advance] drops only entries that come before the signer, and says whether
    there are others. *)
Lemma advance_spec a l :
  StronglySorted entry_lt l → l ≠ [] →
  (advance a l = Ok None ∧ ∀ b, a ≤ b → weight_of l b = None) ∨
  (∃ e l', advance a l = Ok (Some (e :: l')) ∧ a ≤ s_account e ∧ StronglySorted entry_lt (e :: l') ∧
     (e :: l') `suffix_of` l ∧ ∀ b, a ≤ b → weight_of l b = weight_of (e :: l') b).
Proof.
  induction 1 as [|e l Hs IH Hall]; [done|]. intros _. cbn [advance weight_of].
  destruct (Z.ltb_spec (s_account e) a) as [Hlt|Hge].
  - destruct l as [|e' l'].
    + left. split; [done|]. intros b Hb. by rewrite (proj2 (Z.eqb_neq _ _)) by lia.
    + destruct IH as [[E Hw]|(e1 & l1 & E & Ha & Hs1 & Hsuf & Hw)]; [done|left|right; exists e1, l1]; split; try done.
      * intros b Hb. rewrite (proj2 (Z.eqb_neq _ _)) by lia. by apply Hw.
      * split; [done|]. split; [done|]. split; [by apply suffix_cons_r|].
        intros b Hb. rewrite (proj2 (Z.eqb_neq _ _)) by lia. by apply Hw.
  - right. exists e, l. split; [done|]. split; [done|]. split; [by constructor|]. done.
Qed.

Lemma weight_bound l a w : Forall (λ e, 0 ≤ s_weight e < 2 ^ 16) l → weight_of l a = Some w → 0 ≤ w < 2 ^ 16.
Proof. induction 1 as [|e l He _ IH]; [done|]. simpl. destruct (_ =? a); [by intros [= <-]|done]. Qed.

(** The walk finds the weights of the signers, as long as the sum fits. *)
Lemma match_signers_spec txSigners iter sum :
  list_ok iter → StronglySorted (λ x y, signer_id x < signer_id y) txSigners →
  0 ≤ sum → sum + Z.of_nat (length txSigners) * 2 ^ 16 ≤ 2 ^ 32 →
  match_signers view iter sum txSigners =
    Ok (match total_weight iter txSigners with inl ter => inl ter | inr w => inr (sum + w) end).
Proof.
  intros Hok Hs. revert iter sum Hok. induction Hs as [|s l Hs IH Hall]; intros iter sum [Hsort Hne Hw] Hpos Hb.
  { cbn [match_signers total_weight]. do 2 f_equal. lia. }
  cbn [match_signers total_weight]. change (inner_getAccountID sfAccount s) with (signer_id s).
  rewrite length_cons in Hb.
  destruct (advance_spec (signer_id s) iter Hsort Hne) as [[-> Hnone]|(e & l' & -> & Ha & Hsort' & Hsuf & Hsame)]; cbn [rbind].
  { by rewrite Hnone by lia. }
  rewrite (Hsame (signer_id s)) by lia. cbn [weight_of].
  destruct (Z.eqb_spec (s_account e) (signer_id s)) as [E|E]; cbn [negb].
  2: { rewrite weight_of_above; [done|]. apply StronglySorted_inv in Hsort' as [_ Hgt].
       eapply Forall_impl; [done|]. unfold entry_lt. lia. }
  assert (Forall (λ e, 0 ≤ s_weight e < 2 ^ 16) (e :: l')) as Hw'.
  { destruct Hsuf as [k ->]. by apply Forall_app in Hw as [_ ?]. }
  pose proof (Forall_inv Hw') as He. simpl in He.
  unfold is_success. set (ter := authorized view _ _). clearbody ter.
  destruct (decide (ter = tesSUCCESS)) as [->|Hter].
  2: { rewrite bool_decide_false by done. by destruct ter. }
  rewrite bool_decide_true by done. cbn [negb]. unfold u32, uwrap.
  rewrite Z.mod_small by lia. rewrite IH; [|by split|lia|lia].
  assert (total_weight (e :: l') l = total_weight iter l) as ->.
  { assert (∀ x, x ∈ l → signer_id s ≤ signer_id x) as Hle by (rewrite Forall_forall in Hall; intros x Hx%Hall; lia).
    clear -Hsame Hle. induction l as [|x l IH]; [done|]. cbn [total_weight].
    rewrite (Hsame (signer_id x)) by (apply Hle; left). rewrite IH; [done|]. intros y Hy. apply Hle. by right. }
  destruct (total_weight iter l) as [ter|w]; [done|]. do 2 f_equal. lia.
Qed.

(** The signature check lets only signers in order through, at most eight. *)
Lemma check_signers_sorted tx last l :
  check_signers tx last l = true →
  StronglySorted (λ x y, signer_id x < signer_id y) l ∧ Forall (λ x, last < signer_id x) l.
Proof.
  revert last. induction l as [|s l IH]; intros last Hc; [by split; constructor|]. cbn [check_signers] in Hc.
  change (inner_getAccountID sfAccount s) with (signer_id s) in Hc.
  destruct (_ =? tx_account tx); [done|]. destruct (Z.leb_spec (signer_id s) last); [done|].
  destruct (verify _ _ _ _); [|done]. apply IH in Hc as [Hs Hall].
  split; constructor; try done. eapply Forall_impl; [done|]. simpl. lia.
Qed.

Lemma checkMultiSign_sorted tx :
  Tx.checkMultiSign tx = true →
  StronglySorted (λ x y, signer_id x < signer_id y) (getFieldArray sfSigners (tx_fields tx)) ∧
  (length (getFieldArray sfSigners (tx_fields tx)) ≤ 8)%nat.
Proof.
  unfold Tx.checkMultiSign. destruct (negb _); [done|]. destruct (present _ _); [done|].
  destruct (_ || _) eqn:E; [done|]. apply orb_false_iff in E as [_ Hle%Nat.ltb_ge]. intros Hc.
  split; [by eapply check_signers_sorted|done].
Qed.

Lemma checkMultiSign_spec tx :
  Tx.checkMultiSign tx = true →
  (∀ sle l, rv_read view (keylet.signers (tx_account tx)) = Some sle → deserialize (fields sle) = inr l → list_ok l) →
  checkMultiSign view tx = Ok (multi_sign_spec tx).
Proof.
  intros [Hs Hlen]%checkMultiSign_sorted Hl. unfold checkMultiSign, multi_sign_spec.
  destruct (rv_read view _) as [sle|]; [|done]. destruct (deserialize _) as [ter|l] eqn:E; [done|].
  rewrite match_signers_spec; [|by eapply Hl|done|done|lia]. cbn [rbind].
  destruct (total_weight l _) as [ter|w]; [done|]. rewrite Z.add_0_l. by destruct (w <? _).
Qed.

End sign.

End Sign.
