(* ===== verification/TxSettings.v ===== *)
(** * Transactions that set up an account

    app/tx/impl/SetRegularKey.cpp, app/tx/impl/SetAccount.cpp, app/tx/impl/SetSignerList.cpp,
    app/tx/impl/AddReferee.cpp, app/tx/impl/CreateTicket.cpp, app/tx/impl/CancelTicket.cpp
    and app/tx/impl/CancelOffer.cpp. *)

From stdpp Require Import strings.
From S2P Require Import Prelude StateMonad Issue STAmount BigNum STAmountArith Views Overlay RawStateTable ApplyStateTable.
From S2P Require Import ViewLogic Objects Directory Indexes TrustLines LoadFeeTrack Transaction HashRouter LedgerFormats Metadata.
From S2P Require Import Transactor.
Import Apply VL Dir Idx Tx Trust Obj Transact.

Open Scope Z_scope.
Open Scope prog_scope.

Module Settings.

Definition sfSetFlag : string := "SetFlag".
Definition sfClearFlag : string := "ClearFlag".
Definition sfMessageKey : string := "MessageKey".
Definition sfDomain : string := "Domain".
Definition sfEmailHash : string := "EmailHash".
Definition sfWalletLocator : string := "WalletLocator".
Definition sfSignerListID : string := "SignerListID".
Definition sfTarget : string := "Target".
Definition sfTicketID : string := "TicketID".
Definition sfOfferSequence : string := "OfferSequence".

Definition lsfRequireDestTag : Z := 0x00020000.
Definition lsfRequireAuth : Z := 0x00040000.
Definition lsfDisallowXRP : Z := 0x00080000.
Definition lsfNoFreeze : Z := 0x00200000.

Definition PUBLIC_BYTES_MAX : nat := 33.
Definition DOMAIN_BYTES_MAX : nat := 256.

Section settings.
Context `{Digest} `{BN : BigNum} `{Keys} `{Meta.MetaWire} {V : Type} {RV : ReadView STObject V}.
Abbreviation ledger := (Raw.OpenView STObject V).
Abbreviation prog := (prog STObject ledger).
Context (config : Config) (feeTrack : LoadFee.LoadFeeTrack) (fees : Fees) (now : Z).

(** No amount is reported as delivered. *)
Definition plain (p : prog TER) : prog (TER * option Amt.STAmount) := let! ter := p in ret (ter, None).

Abbreviation preflight_with := (preflight_with config now).
Abbreviation calculateBaseFee := (calculateBaseFee fees).
Abbreviation accountReserve := (Transact.accountReserve fees).

(** ** SetRegularKey *)

Definition SetRegularKey_calculateBaseFee (view : ledger) (tx : STTx) : Z :=
  let id := tx_account tx in
  match read_account view id with
  | Some sle =>
      if negb (has_any (getFieldU32 sfFlags sle) lsfPasswordSpent) && (calcAccountID (getSigningPubKey tx) =? id)
      then 0 else calculateBaseFee tx
  | None => calculateBaseFee tx
  end.

Definition no_flags (tx : STTx) : result TER :=
  Ok (if has_any (getFlags tx) tfUniversalMask then temINVALID_FLAG else tesSUCCESS).

Definition SetRegularKey_doApply (tx : STTx) (st : State) : prog TER :=
  let! sle := peek (keylet.account (account_ st)) in
  let! sle := non_null sle in
  when (mFeeDue st =? 0) (set sle (setFlag lsfPasswordSpent));;
  match accounts (tx_fields tx) !! sfRegularKey with
  | Some key => set sle (setAccountID sfRegularKey key);; ret tesSUCCESS
  | None =>
      let! disabled := get sle (isFlag lsfDisableMaster) in
      let! signers := if disabled then peek (keylet.signers (account_ st)) else ret None in
      if disabled && match signers with None => true | Some _ => false end then ret tecNO_ALTERNATIVE_KEY
      else set sle (makeFieldAbsent sfRegularKey);; ret tesSUCCESS
  end.

Definition SetRegularKey : Transactor := {|
  t_preflight rules flags := preflight_with rules flags no_flags;
  t_calculateBaseFee := SetRegularKey_calculateBaseFee;
  t_preclaim _ _ _ := Ok tesSUCCESS;
  t_doApply _ _ _ tx st := plain (SetRegularKey_doApply tx st)
|}.

(** ** SetAccount *)

(** The settings that have flags of their own in the transaction. *)
Definition bSetRequireDest (tx : STTx) : bool :=
  has_any (getFlags tx) requireDestTag || (getFieldU32 sfSetFlag (tx_fields tx) =? asfRequireDest).
Definition bClearRequireDest (tx : STTx) : bool :=
  has_any (getFlags tx) tfOptionalDestTag || (getFieldU32 sfClearFlag (tx_fields tx) =? asfRequireDest).
Definition bSetRequireAuth (tx : STTx) : bool :=
  has_any (getFlags tx) tfRequireAuth || (getFieldU32 sfSetFlag (tx_fields tx) =? asfRequireAuth).
Definition bClearRequireAuth (tx : STTx) : bool :=
  has_any (getFlags tx) tfOptionalAuth || (getFieldU32 sfClearFlag (tx_fields tx) =? asfRequireAuth).
Definition bSetDisallowXRP (tx : STTx) : bool :=
  has_any (getFlags tx) tfDisallowXRP || (getFieldU32 sfSetFlag (tx_fields tx) =? asfDisallowXRP).
Definition bClearDisallowXRP (tx : STTx) : bool :=
  has_any (getFlags tx) tfAllowXRP || (getFieldU32 sfClearFlag (tx_fields tx) =? asfDisallowXRP).

Definition SetAccount_check (tx : STTx) : result TER :=
  let o := tx_fields tx in
  let uSetFlag := getFieldU32 sfSetFlag o in
  let uClearFlag := getFieldU32 sfClearFlag o in
  let uRate := getFieldU32 sfTransferRate o in
  Ok (
    if has_any (getFlags tx) tfAccountSetMask then temINVALID_FLAG
    else if negb (uSetFlag =? 0) && (uSetFlag =? uClearFlag) then temINVALID_FLAG
    else if bSetRequireAuth tx && bClearRequireAuth tx then temINVALID_FLAG
    else if bSetRequireDest tx && bClearRequireDest tx then temINVALID_FLAG
    else if bSetDisallowXRP tx && bClearDisallowXRP tx then temINVALID_FLAG
    else if present (u32s o) sfTransferRate && negb (uRate =? 0) && (uRate <? QUALITY_ONE) then temBAD_TRANSFER_RATE
    else if (PUBLIC_BYTES_MAX <? length (getFieldVL sfMessageKey o))%nat then telBAD_PUBLIC_KEY
    else if (DOMAIN_BYTES_MAX <? length (getFieldVL sfDomain o))%nat then telBAD_DOMAIN
    else tesSUCCESS).

Definition SetAccount_preclaim (view : ledger) (flags : Z) (tx : STTx) : result TER :=
  let id := tx_account tx in
  let* sle := must (read_account view id) in
  if bSetRequireAuth tx && negb (has_any (getFieldU32 sfFlags sle) lsfRequireAuth) &&
     negb (dirIsEmpty view (keylet.ownerDir id))
  then Ok (if has_any flags tapRETRY then terOWNERS else tecOWNERS)
  else Ok tesSUCCESS.

(** [if (set && !(in & flag)) out |= flag; if (clear && (in & flag)) out &= ~flag;] *)
Definition toggle (set_ clear : bool) (flag uFlagsIn uFlagsOut : Z) : Z :=
  let uFlagsOut := if set_ && negb (has_any uFlagsIn flag) then Z.lor uFlagsOut flag else uFlagsOut in
  if clear && has_any uFlagsIn flag then Z.ldiff uFlagsOut flag else uFlagsOut.

(** A field of the account that an empty value removes. *)
Definition set_or_remove {A} (sf : string) (x : option A) (empty : A → bool)
    (setter : string → A → STObject → STObject) (o : STObject) : STObject :=
  match x with
  | None => o
  | Some x => if empty x then makeFieldAbsent sf o else setter sf x o
  end.

Definition set_rate (tx : STTx) (o : STObject) : STObject :=
  match u32s (tx_fields tx) !! sfTransferRate with
  | None => o
  | Some uRate =>
      if (uRate =? 0) || (uRate =? QUALITY_ONE) then makeFieldAbsent sfTransferRate o
      else if QUALITY_ONE <? uRate then setFieldU32 sfTransferRate uRate o
      else o
  end.

(** The fields other than the flags. *)
Definition set_account_fields (tx : STTx) (o : STObject) : STObject :=
  let uSetFlag := getFieldU32 sfSetFlag (tx_fields tx) in
  let uClearFlag := getFieldU32 sfClearFlag (tx_fields tx) in
  let o := if (uSetFlag =? asfAccountTxnID) && negb (present (h256s o) sfAccountTxnID)
           then setFieldH256 sfAccountTxnID 0 o else o in
  let o := if (uClearFlag =? asfAccountTxnID) && present (h256s o) sfAccountTxnID
           then makeFieldAbsent sfAccountTxnID o else o in
  let o := set_or_remove sfEmailHash (h128s (tx_fields tx) !! sfEmailHash) (λ x, x =? 0) setFieldH128 o in
  let o := set_or_remove sfWalletLocator (h256s (tx_fields tx) !! sfWalletLocator) (λ x, x =? 0) setFieldH256 o in
  let o := set_or_remove sfMessageKey (vls (tx_fields tx) !! sfMessageKey) (λ x, bool_decide (x = [])) setFieldVL o in
  let o := set_or_remove sfDomain (vls (tx_fields tx) !! sfDomain) (λ x, bool_decide (x = [])) setFieldVL o in
  set_rate tx o.

(** Freezing: the flags after those for [NoFreeze] and [GlobalFreeze]. *)
Definition freeze_flags (uSetFlag uClearFlag uFlagsOut : Z) : Z :=
  let uFlagsOut := if uSetFlag =? asfNoFreeze then Z.lor uFlagsOut lsfNoFreeze else uFlagsOut in
  let uFlagsOut := if uSetFlag =? asfGlobalFreeze then Z.lor uFlagsOut lsfGlobalFreeze else uFlagsOut in
  if negb (uSetFlag =? asfGlobalFreeze) && (uClearFlag =? asfGlobalFreeze) && (Z.land uFlagsOut lsfNoFreeze =? 0)
  then Z.ldiff uFlagsOut lsfGlobalFreeze else uFlagsOut.

Definition signed_with_master (tx : STTx) (account : AccountID) : bool :=
  negb (bool_decide (getSigningPubKey tx = [])) && (calcAccountID (getSigningPubKey tx) =? account).

(** [DisableMaster] is set: why it may not be. *)
Definition disable_master (rules : Rules) (flags : Z) (tx : STTx) (account : AccountID) (sle : loc) : prog TER :=
  if negb (signed_with_master tx account) then ret tecNEED_MASTER_KEY
  else
    let! hasKey := get sle (λ o, present (accounts o) sfRegularKey) in
    let! signers := if hasKey then ret None else peek (keylet.signers account) in
    if negb hasKey && match signers with None => true | Some _ => false end then
      ret (if multi_sign config rules flags then tecNO_ALTERNATIVE_KEY else tecNO_REGULAR_KEY)
    else ret tesSUCCESS.

(** The flags, but for those about freezing, once it is known whether the master
    key is being disabled. *)
Definition set_account_flags (tx : STTx) (disabling : bool) (uFlagsIn : Z) : Z :=
  let uSetFlag := getFieldU32 sfSetFlag (tx_fields tx) in
  let uClearFlag := getFieldU32 sfClearFlag (tx_fields tx) in
  let uFlagsOut := toggle (bSetRequireAuth tx) (bClearRequireAuth tx) lsfRequireAuth uFlagsIn uFlagsIn in
  let uFlagsOut := toggle (bSetRequireDest tx) (bClearRequireDest tx) lsfRequireDestTag uFlagsIn uFlagsOut in
  let uFlagsOut := toggle (bSetDisallowXRP tx) (bClearDisallowXRP tx) lsfDisallowXRP uFlagsIn uFlagsOut in
  let uFlagsOut := if disabling then Z.lor uFlagsOut lsfDisableMaster else uFlagsOut in
  let uFlagsOut := if (uClearFlag =? asfDisableMaster) && has_any uFlagsIn lsfDisableMaster
                   then Z.ldiff uFlagsOut lsfDisableMaster else uFlagsOut in
  if uSetFlag =? asfDefaultRipple then Z.lor uFlagsOut lsfDefaultRipple
  else if uClearFlag =? asfDefaultRipple then Z.ldiff uFlagsOut lsfDefaultRipple else uFlagsOut.

Definition SetAccount_doApply (rules : Rules) (flags : Z) (tx : STTx) (st : State) : prog TER :=
  let! sle := peek (keylet.account (account_ st)) in
  let! sle := non_null sle in
  let! uFlagsIn := get sle (getFieldU32 sfFlags) in
  let uSetFlag := getFieldU32 sfSetFlag (tx_fields tx) in
  let uClearFlag := getFieldU32 sfClearFlag (tx_fields tx) in
  let disabling := (uSetFlag =? asfDisableMaster) && negb (has_any uFlagsIn lsfDisableMaster) in
  let! ter := if disabling then disable_master rules flags tx (account_ st) sle else ret tesSUCCESS in
  if negb (is_success ter) then ret ter
  else if (uSetFlag =? asfNoFreeze) && negb (signed_with_master tx (account_ st)) && negb (has_any uFlagsIn lsfDisableMaster)
  then ret tecNEED_MASTER_KEY
  else
    let uFlagsOut := freeze_flags uSetFlag uClearFlag (set_account_flags tx disabling uFlagsIn) in
    set sle (set_account_fields tx);;
    when (negb (uFlagsIn =? uFlagsOut)) (set sle (setFieldU32 sfFlags uFlagsOut));;
    ret tesSUCCESS.

Definition SetAccount : Transactor := {|
  t_preflight rules flags := preflight_with rules flags SetAccount_check;
  t_calculateBaseFee _ := calculateBaseFee;
  t_preclaim := SetAccount_preclaim;
  t_doApply _ rules flags tx st := plain (SetAccount_doApply rules flags tx st)
|}.

(** ** SetSignerList *)

Inductive Operation := unknown | set_list | destroy_list.

#[global] Instance Operation_eq_dec : EqDecision Operation.
Proof. solve_decision. Defined.

(** [operator<] on entries. *)
Definition signer_le (x y : SignerEntry) : Prop := s_account x ≤ s_account y.

#[global] Instance signer_le_dec x y : Decision (signer_le x y).
Proof. unfold signer_le. apply _. Defined.

Definition determineOperation (tx : STTx) : TER * Z * list SignerEntry * Operation :=
  let quorum := getFieldU32 sfSignerQuorum (tx_fields tx) in
  let hasSignerEntries := present (arrays (tx_fields tx)) sfSignerEntries in
  if negb (quorum =? 0) && hasSignerEntries then
    match deserialize (tx_fields tx) with
    | inl ter => (ter, quorum, [], unknown)
    | inr signers => (tesSUCCESS, quorum, merge_sort signer_le signers, set_list)
    end
  else if (quorum =? 0) && negb hasSignerEntries then (tesSUCCESS, quorum, [], destroy_list)
  else (tesSUCCESS, quorum, [], unknown).

(** [std::adjacent_find] *)
Fixpoint adjacent_equal (l : list SignerEntry) : bool :=
  match l with
  | x :: (y :: _) as l' => (s_account x =? s_account y) || adjacent_equal l'
  | _ => false
  end.

Fixpoint validate_signers (account : AccountID) (allSignersWeight : Z) (signers : list SignerEntry) : TER + Z :=
  match signers with
  | [] => inr allSignersWeight
  | signer :: signers =>
      if s_weight signer <=? 0 then inl temBAD_WEIGHT
      else if s_account signer =? account then inl temBAD_SIGNER
      else validate_signers account (u64 (allSignersWeight + s_weight signer)) signers
  end.

Definition validateQuorumAndSignerEntries (quorum : Z) (signers : list SignerEntry) (account : AccountID) : TER :=
  if (length signers <? minMultiSigners)%nat || (maxMultiSigners <? length signers)%nat then temMALFORMED
  else if adjacent_equal signers then temBAD_SIGNER
  else
    match validate_signers account 0 signers with
    | inl ter => ter
    | inr allSignersWeight => if (quorum <=? 0) || (allSignersWeight <? quorum) then temBAD_QUORUM else tesSUCCESS
    end.

Definition SetSignerList_check (tx : STTx) : result TER :=
  let '(ter, quorum, signers, op) := determineOperation tx in
  Ok (
    if negb (is_success ter) then ter
    else
      match op with
      | unknown => temMALFORMED
      | set_list => validateQuorumAndSignerEntries quorum signers (tx_account tx)
      | destroy_list => tesSUCCESS
      end).

Definition SetSignerList_preflight (rules : Rules) (flags : Z) (tx : STTx) : M Router.HashRouter TER :=
  if negb (multi_sign config rules flags) then ret temDISABLED
  else preflight_with rules flags SetSignerList_check tx.

Definition ownerCountDelta (entryCount : nat) : Z := 2 + Z.of_nat entryCount.

(** [writeSignersToSLE] *)
Definition signer_object (e : SignerEntry) : STInner :=
  mkInner "SignerEntry" ∅ {[sfSignerWeight := s_weight e]} ∅ ∅ ∅ {[sfAccount := s_account e]} ∅.

Definition writeSignersToSLE (quorum : Z) (signers : list SignerEntry) (o : STObject) : STObject :=
  setFieldArray sfSignerEntries (signer_object <$> signers)
    (setFieldU32 sfSignerListID 0 (setFieldU32 sfSignerQuorum quorum o)).

Definition removeSignersFromLedger (account : AccountID) : prog TER :=
  let! signers := peek (keylet.signers account) in
  match signers with
  | None => ret tesSUCCESS
  | Some signers =>
      let! actualList := get signers (getFieldArray sfSignerEntries) in
      let removeFromOwnerCount := - ownerCountDelta (length actualList) in
      let! hint := get signers (getFieldU64 sfOwnerNode) in
      let! result := dirDelete false hint (getOwnerDirIndex account) (getSignerListIndex account) false (hint =? 0) in
      when (is_success result) (Trust.adjustOwner account removeFromOwnerCount);;
      erase signers;;
      ret result
  end.

Definition replaceSignerList (quorum : Z) (signers : list SignerEntry) (st : State) : prog TER :=
  let! ter := removeSignersFromLedger (account_ st) in
  if negb (is_success ter) then ret ter
  else
    let! sle := peek (keylet.account (account_ st)) in
    let! sle := non_null sle in
    let! oldOwnerCount := get sle (getFieldU32 sfOwnerCount) in
    let addedOwnerCount := ownerCountDelta (length signers) in
    if mPriorBalance st <? accountReserve (u32 (oldOwnerCount + addedOwnerCount)) then ret tecINSUFFICIENT_RESERVE
    else
      let! signerList := make_sle empty_object (keylet.signers (account_ st)) in
      insert signerList;;
      set signerList (writeSignersToSLE quorum signers);;
      let! r := dirAdd (getOwnerDirIndex (account_ st)) (getSignerListIndex (account_ st)) (describeOwnerDir (account_ st)) in
      if negb (is_success r.1) then ret r.1
      else
        set signerList (setFieldU64 sfOwnerNode r.2);;
        adjustOwnerCount sle addedOwnerCount;;
        ret r.1.

Definition destroySignerList (st : State) : prog TER :=
  let! ledgerEntry := peek (keylet.account (account_ st)) in
  let! ledgerEntry := non_null ledgerEntry in
  let! disabled := get ledgerEntry (isFlag lsfDisableMaster) in
  let! hasKey := get ledgerEntry (λ o, present (accounts o) sfRegularKey) in
  if disabled && negb hasKey then ret tecNO_ALTERNATIVE_KEY else removeSignersFromLedger (account_ st).

(** [preCompute] decides on the operation once more. *)
Definition SetSignerList_doApply (tx : STTx) (st : State) : prog TER :=
  let '(_, quorum, signers, op) := determineOperation tx in
  match op with
  | set_list => replaceSignerList quorum signers st
  | destroy_list => destroySignerList st
  | unknown => ret temMALFORMED
  end.

Definition SetSignerList : Transactor := {|
  t_preflight := SetSignerList_preflight;
  t_calculateBaseFee _ := calculateBaseFee;
  t_preclaim _ _ _ := Ok tesSUCCESS;
  t_doApply _ _ _ tx st := plain (SetSignerList_doApply tx st)
|}.

(** ** AddReferee *)

Definition AddReferee_check (tx : STTx) : result TER :=
  let refereeID := getAccountID sfDestination (tx_fields tx) in
  Ok (if refereeID =? 0 then temDST_NEEDED else if tx_account tx =? refereeID then temDST_IS_SRC else tesSUCCESS).

Definition AddReferee : Transactor := {|
  t_preflight rules flags := preflight_with rules flags AddReferee_check;
  t_calculateBaseFee _ := calculateBaseFee;
  t_preclaim _ _ _ := Ok tesSUCCESS;
  t_doApply _ _ _ tx st := plain (Trust.addRefer (getAccountID sfDestination (tx_fields tx)) (account_ st))
|}.

(** ** Tickets *)

Definition ticket_preflight (own : STTx → result TER) (rules : Rules) (flags : Z) (tx : STTx) : M Router.HashRouter TER :=
  if negb (has_any flags tapENABLE_TESTING) then ret temDISABLED else preflight_with rules flags own tx.

Definition CreateTicket_check (tx : STTx) : result TER :=
  let o := tx_fields tx in
  Ok (if present (u32s o) sfExpiration && (getFieldU32 sfExpiration o =? 0) then temBAD_EXPIRATION else tesSUCCESS).

Definition CreateTicket_doApply (info : Trust.LedgerInfo) (tx : STTx) (st : State) : prog TER :=
  let o := tx_fields tx in
  let! sle := peek (keylet.account (account_ st)) in
  let! sle := non_null sle in
  let! ownerCount := get sle (getFieldU32 sfOwnerCount) in
  if mPriorBalance st <? accountReserve (u32 (ownerCount + 1)) then ret tecINSUFFICIENT_RESERVE
  else
    let expiration := getFieldU32 sfExpiration o in
    if present (u32s o) sfExpiration && (expiration <=? Trust.parentCloseTime info) then ret tesSUCCESS
    else
      let ticket := setFieldU32 sfSequence (getSequence tx) (setAccountID sfAccount (account_ st) empty_object) in
      let ticket := if negb (expiration =? 0) then setFieldU32 sfExpiration expiration ticket else ticket in
      let key := getTicketIndex (account_ st) (getSequence tx) in
      let! sleTicket := make_sle ticket (keylet.ticket_key key) in
      insert sleTicket;;
      let! ter :=
        match accounts o !! sfTarget with
        | None => ret tesSUCCESS
        | Some target_account =>
            let! sleTarget := peek (keylet.account target_account) in
            match sleTarget with
            | None => ret tecNO_TARGET
            | Some _ =>
                when (negb (target_account =? account_ st)) (set sleTicket (setAccountID sfTarget target_account));;
                ret tesSUCCESS
            end
        end in
      if negb (is_success ter) then ret ter
      else
        let! r := dirAdd (getOwnerDirIndex (account_ st)) key (describeOwnerDir (account_ st)) in
        if negb (is_success r.1) then ret r.1
        else
          set sleTicket (setFieldU64 sfOwnerNode r.2);;
          adjustOwnerCount sle 1;;
          ret r.1.

Definition CreateTicket : Transactor := {|
  t_preflight := ticket_preflight CreateTicket_check;
  t_calculateBaseFee _ := calculateBaseFee;
  t_preclaim _ _ _ := Ok tesSUCCESS;
  t_doApply info _ _ tx st := plain (CreateTicket_doApply info tx st)
|}.

(** The owner and the target may remove a ticket, and anyone once it has expired. *)
Definition may_cancel (info : Trust.LedgerInfo) (account : AccountID) (ticket : STObject) : bool :=
  (account =? getAccountID sfAccount ticket) ||
  (present (accounts ticket) sfTarget && (account =? getAccountID sfTarget ticket)) ||
  (present (u32s ticket) sfExpiration && (getFieldU32 sfExpiration ticket <=? Trust.parentCloseTime info)).

Definition CancelTicket_doApply (info : Trust.LedgerInfo) (tx : STTx) (st : State) : prog TER :=
  let ticketId := getFieldH256 sfTicketID (tx_fields tx) in
  let! sleTicket := peek (keylet.ticket_key ticketId) in
  match sleTicket with
  | None => ret tecNO_ENTRY
  | Some sleTicket =>
      let! ticket_owner := get sleTicket (getAccountID sfAccount) in
      let! authorized := get sleTicket (may_cancel info (account_ st)) in
      if negb authorized then ret tecNO_PERMISSION
      else
        let! hint := get sleTicket (getFieldU64 sfOwnerNode) in
        let! result := dirDelete false hint (getOwnerDirIndex ticket_owner) ticketId false (hint =? 0) in
        Trust.adjustOwner ticket_owner (-1);;
        erase sleTicket;;
        ret result
  end.

Definition CancelTicket : Transactor := {|
  t_preflight := ticket_preflight (λ _, Ok tesSUCCESS);
  t_calculateBaseFee _ := calculateBaseFee;
  t_preclaim _ _ _ := Ok tesSUCCESS;
  t_doApply info _ _ tx st := plain (CancelTicket_doApply info tx st)
|}.

(** ** CancelOffer *)

Definition CancelOffer_check (tx : STTx) : result TER :=
  Ok (if has_any (getFlags tx) tfUniversalMask then temINVALID_FLAG
      else if getFieldU32 sfOfferSequence (tx_fields tx) =? 0 then temBAD_SEQUENCE else tesSUCCESS).

Definition CancelOffer_preclaim (view : ledger) (flags : Z) (tx : STTx) : result TER :=
  let* sle := must (read_account view (tx_account tx)) in
  Ok (if getFieldU32 sfSequence sle <=? getFieldU32 sfOfferSequence (tx_fields tx) then temBAD_SEQUENCE else tesSUCCESS).

Definition CancelOffer_doApply (tx : STTx) (st : State) : prog TER :=
  let! sleOffer := peek (keylet.offer (account_ st) (getFieldU32 sfOfferSequence (tx_fields tx))) in
  match sleOffer with
  | Some _ => Trust.offerDelete sleOffer
  | None => ret tesSUCCESS
  end.

Definition CancelOffer : Transactor := {|
  t_preflight rules flags := preflight_with rules flags CancelOffer_check;
  t_calculateBaseFee _ := calculateBaseFee;
  t_preclaim := CancelOffer_preclaim;
  t_doApply _ _ _ tx st := plain (CancelOffer_doApply tx st)
|}.

End settings.

End Settings.
