(* ===== verification/Payment.v ===== *)
(** * Payments

    app/tx/impl/Payment.cpp.  The engine that finds and follows paths,
    [path::RippleCalc::rippleCalculate], is not part of the development: it is an
    argument.  Payments in the native currencies do not use it. *)

From stdpp Require Import strings.
From S2P Require Import Prelude StateMonad Issue STAmount BigNum STAmountArith Views Overlay RawStateTable ApplyStateTable.
From S2P Require Import ViewLogic Objects Directory Indexes TrustLines LoadFeeTrack Transaction HashRouter LedgerFormats Metadata.
From S2P Require Import Transactor TxSettings.
Import Apply VL Dir Idx Tx Trust Obj Transact Settings.

Open Scope Z_scope.
Open Scope prog_scope.

Module Pay.

Definition sfSendMax : string := "SendMax".
Definition sfDeliverMin : string := "DeliverMin".
Definition sfDestinationTag : string := "DestinationTag".

Definition MaxPathSize : nat := 6.
Definition MaxPathLength : nat := 8.

(** What the engine is asked for. *)
Record Input := mkInput {
  partialPaymentAllowed : bool;
  defaultPathsAllowed : bool;
  limitQuality : bool;
  isLedgerOpen : bool
}.

Section payment.
Context `{Digest} `{BN : BigNum} `{Keys} `{Meta.MetaWire} {V : Type} {RV : ReadView STObject V}.
Abbreviation ledger := (Raw.OpenView STObject V).
Abbreviation prog := (prog STObject ledger).
Context (config : Config) (feeTrack : LoadFee.LoadFeeTrack) (fees : Fees) (now : Z).

(** The most the source is willing to send. *)
Definition max_source (tx : STTx) (account : AccountID) : result Amt.STAmount :=
  let saDstAmount := getFieldAmount sfAmount (tx_fields tx) in
  match amounts (tx_fields tx) !! sfSendMax with
  | Some sendMax => Ok sendMax
  | None =>
      if Amt.mIsNative saDstAmount then Ok saDstAmount
      else Amt.make (mkIssue (currency_of saDstAmount) account) (Amt.mValue saDstAmount) (Amt.mOffset saDstAmount)
             (Amt.signum saDstAmount <? 0)
  end.

(** Assets go in whole numbers, and neither from nor to their issuer. *)
Definition check_asset (tx : STTx) (bMax : bool) (uSrcCurrency : Currency) (saDstAmount : Amt.STAmount) : result TER :=
  let* dst :=
    if assetCurrency =? currency_of saDstAmount then
      if account (Amt.mIssue saDstAmount) =? getAccountID sfDestination (tx_fields tx) then Ok temBAD_ISSUER
      else
        let* least := Amt.make_signed (Amt.mIssue saDstAmount) (ASSET_TX_MIN config) 0 in
        let* less := Amt.ltb saDstAmount least in
        if less then Ok temBAD_CURRENCY
        else
          let* whole := Arith.isMathematicalInteger saDstAmount in
          Ok (if negb whole then temBAD_CURRENCY else tesSUCCESS)
    else Ok tesSUCCESS in
  if negb (is_success dst) then Ok dst
  else if assetCurrency =? uSrcCurrency then
    Ok (if bMax then temBAD_SEND_XRP_MAX
        else if has_any (getFlags tx) tfPartialPayment then temBAD_SEND_XRP_PARTIAL
        else if account (Amt.mIssue saDstAmount) =? tx_account tx then temBAD_ISSUER
        else tesSUCCESS)
  else Ok tesSUCCESS.

Definition check_deliver_min (tx : STTx) (saDstAmount : Amt.STAmount) : result TER :=
  match amounts (tx_fields tx) !! sfDeliverMin with
  | None => Ok tesSUCCESS
  | Some dMin =>
      if negb (has_any (getFlags tx) tfPartialPayment) then Ok temBAD_AMOUNT
      else if negb (Arith.isLegalNet dMin) || (Amt.signum dMin <=? 0) then Ok temBAD_AMOUNT
      else if negb (issue_eqb (Amt.mIssue dMin) (Amt.mIssue saDstAmount)) then Ok temBAD_AMOUNT
      else
        let* more := Amt.ltb saDstAmount dMin in
        Ok (if more then temBAD_AMOUNT else tesSUCCESS)
  end.

Definition Payment_check (tx : STTx) : result TER :=
  let uTxFlags := getFlags tx in
  if has_any uTxFlags tfPaymentMask then Ok temINVALID_FLAG
  else
    let partialPaymentAllowed := has_any uTxFlags tfPartialPayment in
    let limitQuality := has_any uTxFlags tfLimitQuality in
    let defaultPathsAllowed := negb (has_any uTxFlags tfNoRippleDirect) in
    let bPaths := match tx_paths tx with Some _ => true | None => false end in
    let bMax := present (amounts (tx_fields tx)) sfSendMax in
    let saDstAmount := getFieldAmount sfAmount (tx_fields tx) in
    let account := tx_account tx in
    let* maxSourceAmount := max_source tx account in
    let uSrcCurrency := currency_of maxSourceAmount in
    let uDstCurrency := currency_of saDstAmount in
    let bXRPDirect := ((uSrcCurrency =? 0) && (uDstCurrency =? 0)) || (isVBC uSrcCurrency && isVBC uDstCurrency) in
    let uDstAccountID := getAccountID sfDestination (tx_fields tx) in
    if negb (Arith.isLegalNet saDstAmount) || negb (Arith.isLegalNet maxSourceAmount) then Ok temBAD_AMOUNT
    else if uDstAccountID =? 0 then Ok temDST_NEEDED
    else if bMax && (Amt.signum maxSourceAmount <=? 0) then Ok temBAD_AMOUNT
    else if Amt.signum saDstAmount <=? 0 then Ok temBAD_AMOUNT
    else if (badCurrency =? uSrcCurrency) || (badCurrency =? uDstCurrency) then Ok temBAD_CURRENCY
    else if (account =? uDstAccountID) && (uSrcCurrency =? uDstCurrency) && negb bPaths then Ok temREDUNDANT
    else if bXRPDirect && bMax then Ok temBAD_SEND_XRP_MAX
    else if bXRPDirect && bPaths then Ok temBAD_SEND_XRP_PATHS
    else if bXRPDirect && partialPaymentAllowed then Ok temBAD_SEND_XRP_PARTIAL
    else if bXRPDirect && limitQuality then Ok temBAD_SEND_XRP_LIMIT
    else if bXRPDirect && negb defaultPathsAllowed then Ok temBAD_SEND_XRP_NO_DIRECT
    else
      let* ter := check_asset tx bMax uSrcCurrency saDstAmount in
      if negb (is_success ter) then Ok ter else check_deliver_min tx saDstAmount.

(** [paths || sendMax || !saDstAmount.native ()] *)
Definition is_ripple (tx : STTx) : bool :=
  match tx_paths tx with Some _ => true | None => false end ||
  present (amounts (tx_fields tx)) sfSendMax ||
  negb (Amt.mIsNative (getFieldAmount sfAmount (tx_fields tx))).

Definition Payment_preclaim (view : ledger) (flags : Z) (tx : STTx) : result TER :=
  let saDstAmount := getFieldAmount sfAmount (tx_fields tx) in
  let uDstAccountID := getAccountID sfDestination (tx_fields tx) in
  let* ter :=
    match read_account view uDstAccountID with
    | None =>
        if negb (Amt.mIsNative saDstAmount) then Ok tecNO_DST
        else if is_open view && has_any (getFlags tx) tfPartialPayment then Ok telNO_DST_PARTIAL
        else
          let* reserve := Amt.of_xrp (Amt.mkXRP (Transact.accountReserve fees 0) false) in
          let* less := Amt.ltb saDstAmount reserve in
          Ok (if less then tecNO_DST_INSUF_XRP else tesSUCCESS)
    | Some sleDst =>
        Ok (if has_any (getFieldU32 sfFlags sleDst) lsfRequireDestTag &&
               negb (present (u32s (tx_fields tx)) sfDestinationTag)
            then tecDST_TAG_NEEDED else tesSUCCESS)
    end in
  if negb (is_success ter) then Ok ter
  else if is_ripple tx then
    let spsPaths := default [] (tx_paths tx) in
    let pathTooBig := (MaxPathSize <? length spsPaths)%nat || existsb (λ path, (MaxPathLength <? length path)%nat) spsPaths in
    Ok (if is_open view && pathTooBig then telBAD_PATH_COUNT else tesSUCCESS)
  else Ok tesSUCCESS.

(** [XRPAmount] and [STAmount] mix: [mSourceBalance - saDstAmount]. *)
Definition less_drops (drops : Z) (amount : Amt.STAmount) : result Amt.STAmount :=
  let* x := Amt.of_xrp (Amt.mkXRP drops false) in Amt.sub x amount.

(** What an amount takes of the native balance. *)
Definition native_part (amount : Amt.STAmount) : result Z :=
  if Amt.amt_isVBC amount then Ok 0 else let* x := Amt.xrp amount in Ok (Amt.drops_ x).

(** A direct payment of a native currency. *)
Definition pay_direct (tx : STTx) (st : State) (sleDst : loc) : prog TER :=
  let saDstAmount := getFieldAmount sfAmount (tx_fields tx) in
  let isVBCTransaction := Amt.amt_isVBC saDstAmount in
  let! sle := read (keylet.account (account_ st)) in
  let! sle := non_null (fields <$> sle) in
  let reserve := Transact.accountReserve fees (getFieldU32 sfOwnerCount sle) in
  let! fee := lift (Amt.xrp (getFieldAmount sfFee (tx_fields tx))) in
  let mmm := Z.max reserve (Amt.drops_ fee) in
  let! sent := lift (native_part saDstAmount) in
  let! poor :=
    if mPriorBalance st <? i64 (sent + mmm) then ret true
    else if isVBCTransaction then lift (Amt.ltb (getFieldAmount sfBalanceVBC sle) saDstAmount)
    else ret false in
  if poor then ret tecUNFUNDED_PAYMENT
  else
    let field := if isVBCTransaction then sfBalanceVBC else sfBalance in
    let! src := peek (keylet.account (account_ st)) in
    let! src := non_null src in
    let! rest := lift (if isVBCTransaction then Amt.sub (getFieldAmount sfBalanceVBC sle) saDstAmount
                       else less_drops (mSourceBalance st) saDstAmount) in
    set src (setFieldAmount field rest);;
    let! balance := get sleDst (getFieldAmount field) in
    let! balance := lift (Amt.add balance saDstAmount) in
    set sleDst (setFieldAmount field balance);;
    let! spent := get sleDst (λ o, has_any (getFieldU32 sfFlags o) lsfPasswordSpent) in
    when spent (set sleDst (clearFlag lsfPasswordSpent));;
    ret tesSUCCESS.

(** The destination, which is created if need be. *)
Definition destination (uDstAccountID : AccountID) : prog loc :=
  let k := keylet.account uDstAccountID in
  let! sleDst := peek k in
  match sleDst with
  | Some sleDst => update sleDst;; ret sleDst
  | None =>
      let! sleDst := make_sle (setFieldU32 sfSequence 1 (setAccountID sfAccount uDstAccountID empty_object)) k in
      insert sleDst;;
      ret sleDst
  end.

(** The engine: the result and the amount that got there. *)
Context (rippleCalculate : Amt.STAmount → Amt.STAmount → AccountID → AccountID → list STPath → Input → prog (TER * Amt.STAmount)).

Definition pay_ripple (info : Trust.LedgerInfo) (tx : STTx) (st : State) : prog (TER * option Amt.STAmount) :=
  let saDstAmount := getFieldAmount sfAmount (tx_fields tx) in
  let uTxFlags := getFlags tx in
  let! maxSourceAmount := lift (max_source tx (account_ st)) in
  let! rc := rippleCalculate maxSourceAmount saDstAmount (getAccountID sfDestination (tx_fields tx)) (account_ st)
    (default [] (tx_paths tx))
    (mkInput (has_any uTxFlags tfPartialPayment) (negb (has_any uTxFlags tfNoRippleDirect)) (has_any uTxFlags tfLimitQuality)
      (Trust.open info)) in
  let '(result, actualAmountOut) := rc in
  let! r :=
    if is_success result && negb (Amt.eqb actualAmountOut saDstAmount) then
      let! little := match amounts (tx_fields tx) !! sfDeliverMin with
                     | Some deliverMin => lift (Amt.ltb actualAmountOut deliverMin)
                     | None => ret false
                     end in
      ret (if little then (tecPATH_PARTIAL, None) else (result, Some actualAmountOut))
    else ret (result, None) in
  ret (if isTerRetry r.1 then tecPATH_DRY else r.1, r.2).

Definition Payment_doApply (info : Trust.LedgerInfo) (tx : STTx) (st : State) : prog (TER * option Amt.STAmount) :=
  let! sleDst := destination (getAccountID sfDestination (tx_fields tx)) in
  if is_ripple tx then pay_ripple info tx st else plain (pay_direct tx st sleDst).

Definition Payment : Transactor := {|
  t_preflight rules flags := preflight_with config now rules flags Payment_check;
  t_calculateBaseFee _ := calculateBaseFee fees;
  t_preclaim := Payment_preclaim;
  t_doApply info _ _ tx st := Payment_doApply info tx st
|}.

End payment.

End Pay.
