(* ===== verification/TxTrust.v ===== *)
(** * Transactions about trust lines and assets

    app/tx/impl/SetTrust.cpp, app/tx/impl/IssueAsset.cpp, app/tx/impl/AssetRelease.cpp
    and app/tx/impl/ActiveAccount.cpp. *)

From stdpp Require Import strings.
From S2P Require Import Prelude StateMonad Issue STAmount BigNum STAmountArith Views Overlay RawStateTable ApplyStateTable.
From S2P Require Import ViewLogic Objects Directory Indexes TrustLines LoadFeeTrack Transaction HashRouter LedgerFormats Metadata.
From S2P Require Import Transactor TxSettings Payment.
Import Apply VL Dir Idx Tx Trust Obj Transact Settings Pay.

Open Scope Z_scope.
Open Scope prog_scope.

Module TrustTx.

Definition sfLimitAmount : string := "LimitAmount".
Definition sfQualityIn : string := "QualityIn".
Definition sfQualityOut : string := "QualityOut".
Definition sfAmounts : string := "Amounts".
Definition sfLimits : string := "Limits".

Definition tfSetfAuth : Z := 0x00010000.
Definition tfSetNoRipple : Z := 0x00020000.
Definition tfClearNoRipple : Z := 0x00040000.
Definition tfSetFreeze : Z := 0x00100000.
Definition tfClearFreeze : Z := 0x00200000.
Definition tfTrustSetMask : Z :=
  u32 (Z.lnot (Z.lor tfUniversal (Z.lor tfSetfAuth (Z.lor tfSetNoRipple (Z.lor tfClearNoRipple
    (Z.lor tfSetFreeze tfClearFreeze)))))).

(** ** The terms of one side of a line *)

(** A quality that is given is set, and one of zero is taken away. *)
Definition set_quality (bQuality : bool) (uQuality : Z) (sf : string) (o : STObject) : STObject :=
  if negb bQuality then o
  else if negb (uQuality =? 0) then setFieldU32 sf uQuality o
  else makeFieldAbsent sf o.

(** What a transaction says about one side. *)
Record Terms := mkTerms {
  saLimitAllow : Amt.STAmount;
  bQualityIn : bool;
  uQualityIn : Z;
  bQualityOut : bool;
  uQualityOut : Z
}.

Definition set_terms (bHigh : bool) (t : Terms) (o : STObject) : STObject :=
  set_quality (bQualityOut t) (uQualityOut t) (if bHigh then sfHighQualityOut else sfLowQualityOut)
    (set_quality (bQualityIn t) (uQualityIn t) (if bHigh then sfHighQualityIn else sfLowQualityIn)
      (setFieldAmount (if bHigh then sfHighLimit else sfLowLimit) (saLimitAllow t) o)).

Definition unit_quality (q : Z) : Z := if QUALITY_ONE =? q then 0 else q.

(** Whether a side has anything its owner has to reserve for. *)
Definition reserve_set (high : bool) (uFlagsOut : Z) (saBalance : Amt.STAmount) (o : STObject) : bool :=
  negb (unit_quality (getFieldU32 (if high then sfHighQualityIn else sfLowQualityIn) o) =? 0) ||
  negb (unit_quality (getFieldU32 (if high then sfHighQualityOut else sfLowQualityOut) o) =? 0) ||
  has_any uFlagsOut (if high then lsfHighFreeze else lsfLowFreeze) ||
  negb (Amt.is_zero (getFieldAmount (if high then sfHighLimit else sfLowLimit) o)) ||
  (0 <? Amt.signum saBalance).

(** The flags for rippling and freezing, from those of the transaction. *)
Definition line_flags (uTxFlags : Z) (bHigh bNoFreeze : bool) (saBalance : Amt.STAmount) (uFlagsIn : Z) : Z :=
  let bSetNoRipple := has_any uTxFlags tfSetNoRipple in
  let bClearNoRipple := has_any uTxFlags tfClearNoRipple in
  let bSetFreeze := has_any uTxFlags tfSetFreeze in
  let bClearFreeze := has_any uTxFlags tfClearFreeze in
  let uNoRipple := if bHigh then lsfHighNoRipple else lsfLowNoRipple in
  let uFreeze := if bHigh then lsfHighFreeze else lsfLowFreeze in
  let uFlagsOut :=
    if bSetNoRipple && negb bClearNoRipple && (0 <=? Amt.signum saBalance) then Z.lor uFlagsIn uNoRipple
    else if bClearNoRipple && negb bSetNoRipple then Z.ldiff uFlagsIn uNoRipple
    else uFlagsIn in
  if bSetFreeze && negb bClearFreeze && negb bNoFreeze then Z.lor uFlagsOut uFreeze
  else if bClearFreeze && negb bSetFreeze then Z.ldiff uFlagsOut uFreeze
  else uFlagsOut.

Section trust.
Context `{Digest} `{BN : BigNum} `{Keys} `{Meta.MetaWire} {V : Type} {RV : ReadView STObject V}.
Abbreviation ledger := (Raw.OpenView STObject V).
Abbreviation prog := (prog STObject ledger).
Context (config : Config) (fees : Fees) (now : Z).

(** At least as many as a line has asset states. *)
Context (fuel : nat).

Abbreviation preflight_with := (preflight_with config now).
Abbreviation calculateBaseFee := (calculateBaseFee fees).
Abbreviation accountReserve := (Transact.accountReserve fees).

(** ** SetTrust *)

Definition SetTrust_check (tx : STTx) : result TER :=
  let saLimitAmount := getFieldAmount sfLimitAmount (tx_fields tx) in
  Ok (
    if has_any (getFlags tx) tfTrustSetMask then temINVALID_FLAG
    else if negb (Arith.isLegalNet saLimitAmount) then temBAD_AMOUNT
    else if Amt.mIsNative saLimitAmount then temBAD_LIMIT
    else if badCurrency =? currency_of saLimitAmount then temBAD_CURRENCY
    else if Amt.signum saLimitAmount <? 0 then temBAD_LIMIT
    else if (issuer saLimitAmount =? 0) || (issuer saLimitAmount =? noAccount) then temDST_NEEDED
    else tesSUCCESS).

Definition SetTrust_preclaim (view : ledger) (flags : Z) (tx : STTx) : result TER :=
  let id := tx_account tx in
  let saLimitAmount := getFieldAmount sfLimitAmount (tx_fields tx) in
  let* not_required :=
    if has_any (getFlags tx) tfSetfAuth then
      let* sle := must (read_account view id) in Ok (negb (has_any (getFieldU32 sfFlags sle) lsfRequireAuth))
    else Ok false in
  if not_required then Ok tefNO_AUTH_REQUIRED
  else
    let uDstAccountID := issuer saLimitAmount in
    if id =? uDstAccountID then
      match rv_read view (keylet.line id uDstAccountID (currency_of saLimitAmount)) with
      | None => Ok temDST_IS_SRC
      | Some _ => Ok tesSUCCESS
      end
    else Ok tesSUCCESS.

Definition featureTrustSetAuth : Z :=
  sha512Half [84; 114; 117; 115; 116; 83; 101; 116; 65; 117; 116; 104].

(** The transaction's terms for its account. *)
Definition terms_of (tx : STTx) (account : AccountID) : Terms :=
  let o := tx_fields tx in
  {| saLimitAllow := Amt.setIssuer (getFieldAmount sfLimitAmount o) account;
     bQualityIn := present (u32s o) sfQualityIn;
     uQualityIn := getFieldU32 sfQualityIn o;
     bQualityOut := present (u32s o) sfQualityOut;
     uQualityOut := unit_quality (getFieldU32 sfQualityOut o) |}.

(** Whether there is any asset state in a range of keys. *)
Fixpoint has_asset_state (fuel : nat) (assetStateIndex assetStateEnd : Z) : prog bool :=
  let! sleAssetState := read (keylet.asset_state assetStateIndex) in
  match sleAssetState with
  | Some _ => ret true
  | None =>
      let! next := succ assetStateIndex (Some assetStateEnd) in
      match next, fuel with
      | None, _ => ret false
      | Some _, O => throw (Undefined "more entries than the loop was given")
      | Some next, S fuel => has_asset_state fuel next assetStateEnd
      end
  end.

(** The owner count and the reserve flag of a side. *)
Definition adjust_side (high bReserveSet bReserved : bool) (sleAccount : loc) (uFlagsOut : Z) : prog Z :=
  let uReserve := if high then lsfHighReserve else lsfLowReserve in
  if bReserveSet && negb bReserved then adjustOwnerCount sleAccount 1;; ret (Z.lor uFlagsOut uReserve)
  else if negb bReserveSet && bReserved then adjustOwnerCount sleAccount (-1);; ret (Z.ldiff uFlagsOut uReserve)
  else ret uFlagsOut.

(** An asset line that its account gives up is deleted, unless there is something
    left of the asset. *)
Definition give_up_asset (uDstAccountID uLowAccountID uHighAccountID : AccountID) (currency : Currency) (st : State)
    (sle sleRippleState : loc) : prog TER :=
  let assetStateIndex := getQualityIndex (getAssetStateIndex (account_ st) uDstAccountID currency) 0 in
  let! left_over := has_asset_state fuel assetStateIndex (getQualityNext assetStateIndex) in
  if left_over then ret temDISABLED
  else
    adjustOwnerCount sle (-1);;
    trustDelete sleRippleState uLowAccountID uHighAccountID.

(** A line that exists. *)
Definition modify_line (tx : STTx) (st : State) (bHigh : bool) (uDstAccountID : AccountID) (currency : Currency)
    (reserveCreate : Z) (sle sleDst sleRippleState : loc) : prog TER :=
  let uLowAccountID := if bHigh then uDstAccountID else account_ st in
  let uHighAccountID := if bHigh then account_ st else uDstAccountID in
  let sleLowAccount := if bHigh then sleDst else sle in
  let sleHighAccount := if bHigh then sle else sleDst in
  let! saLowBalance := get sleRippleState (getFieldAmount sfBalance) in
  let saHighBalance := Amt.neg saLowBalance in
  set sleRippleState (set_terms bHigh (terms_of tx (account_ st)));;
  let! uFlagsIn := get sleRippleState (getFieldU32 sfFlags) in
  let! bNoFreeze := get sle (isFlag lsfNoFreeze) in
  let uFlagsOut := line_flags (getFlags tx) bHigh bNoFreeze (if bHigh then saHighBalance else saLowBalance) uFlagsIn in
  let! bLowReserveSet := get sleRippleState (reserve_set false uFlagsOut saLowBalance) in
  let! bHighReserveSet := get sleRippleState (reserve_set true uFlagsOut saHighBalance) in
  let bLowReserved := has_any uFlagsIn lsfLowReserve in
  let bHighReserved := has_any uFlagsIn lsfHighReserve in
  let bClearNoRipple := has_any (getFlags tx) tfClearNoRipple in
  let! high_empty := get sleRippleState (λ o,
    (Amt.signum saHighBalance <=? 0) && Amt.is_zero (getFieldAmount sfHighLimit o) &&
    (unit_quality (getFieldU32 sfHighQualityIn o) =? 0) && (unit_quality (getFieldU32 sfHighQualityOut o) =? 0)) in
  if (assetCurrency =? currency) && negb bLowReserveSet && bClearNoRipple && high_empty then
    give_up_asset uDstAccountID uLowAccountID uHighAccountID currency st sle sleRippleState
  else if (assetCurrency =? currency) && bClearNoRipple then ret temDISABLED
  else
    let uFlagsOut :=
      if has_any (getFlags tx) tfSetfAuth then Z.lor uFlagsOut (if bHigh then lsfHighAuth else lsfLowAuth) else uFlagsOut in
    let! uFlagsOut := adjust_side false bLowReserveSet bLowReserved sleLowAccount uFlagsOut in
    let! uFlagsOut := adjust_side true bHighReserveSet bHighReserved sleHighAccount uFlagsOut in
    let bReserveIncrease :=
      if bHigh then bHighReserveSet && negb bHighReserved else bLowReserveSet && negb bLowReserved in
    when (negb (uFlagsIn =? uFlagsOut)) (set sleRippleState (setFieldU32 sfFlags uFlagsOut));;
    if (negb bLowReserveSet && negb bHighReserveSet) || (badCurrency =? currency) then
      trustDelete sleRippleState uLowAccountID uHighAccountID
    else if bReserveIncrease && (mPriorBalance st <? reserveCreate) then ret tecINSUF_RESERVE_LINE
    else update sleRippleState;; ret tesSUCCESS.

(** A line that does not. *)
Definition create_line (rules : Rules) (flags : Z) (tx : STTx) (st : State) (bHigh : bool) (uDstAccountID : AccountID)
    (currency : Currency) (reserveCreate : Z) (sle : loc) : prog TER :=
  let t := terms_of tx (account_ st) in
  let uTxFlags := getFlags tx in
  let bSetAuth := has_any uTxFlags tfSetfAuth in
  let bSetNoRipple := has_any uTxFlags tfSetNoRipple in
  let bClearNoRipple := has_any uTxFlags tfClearNoRipple in
  let bSetFreeze := has_any uTxFlags tfSetFreeze in
  let bClearFreeze := has_any uTxFlags tfClearFreeze in
  let auth_counts := has_any flags tapENABLE_TESTING || enabled rules featureTrustSetAuth (features config) in
  if Amt.is_zero (saLimitAllow t) && (negb (bQualityIn t) || (uQualityIn t =? 0)) &&
     (negb (bQualityOut t) || (uQualityOut t =? 0)) && (negb auth_counts || negb bSetAuth)
  then ret tecNO_LINE_REDUNDANT
  else if mPriorBalance st <? reserveCreate then ret tecNO_LINE_INSUF_RESERVE
  else if (assetCurrency =? currency) && bClearNoRipple then ret temDISABLED
  else
    trustCreate bHigh (account_ st) uDstAccountID (getRippleStateIndex (account_ st) uDstAccountID currency) (Some sle)
      bSetAuth (bSetNoRipple && negb bClearNoRipple) (bSetFreeze && negb bClearFreeze)
      (Amt.zero_of (mkIssue currency noAccount)) (saLimitAllow t) (uQualityIn t) (uQualityOut t).

Definition SetTrust_doApply (rules : Rules) (flags : Z) (tx : STTx) (st : State) : prog TER :=
  let saLimitAmount := getFieldAmount sfLimitAmount (tx_fields tx) in
  let currency := currency_of saLimitAmount in
  let uDstAccountID := issuer saLimitAmount in
  let bHigh := uDstAccountID <? account_ st in
  let! sle := peek (keylet.account (account_ st)) in
  let! sle := non_null sle in
  let! uOwnerCount := get sle (getFieldU32 sfOwnerCount) in
  let reserveCreate := if uOwnerCount <? 2 then 0 else accountReserve (u32 (uOwnerCount + 1)) in
  if account_ st =? uDstAccountID then
    let! sleDelete := peek (keylet.line (account_ st) uDstAccountID currency) in
    let! sleDelete := non_null sleDelete in
    trustDelete sleDelete (account_ st) uDstAccountID
  else
    let! sleDst := peek (keylet.account uDstAccountID) in
    match sleDst with
    | None => ret tecNO_DST
    | Some sleDst =>
        let! sleRippleState := peek (keylet.line (account_ st) uDstAccountID currency) in
        match sleRippleState with
        | Some sleRippleState => modify_line tx st bHigh uDstAccountID currency reserveCreate sle sleDst sleRippleState
        | None => create_line rules flags tx st bHigh uDstAccountID currency reserveCreate sle
        end
    end.

Definition SetTrust : Transactor := {|
  t_preflight rules flags := preflight_with rules flags SetTrust_check;
  t_calculateBaseFee _ := calculateBaseFee;
  t_preclaim := SetTrust_preclaim;
  t_doApply _ rules flags tx st := plain (SetTrust_doApply rules flags tx st)
|}.

(** ** IssueAsset *)

(** Rates and times of a schedule grow, rates up to one and times by whole days. *)
Fixpoint check_schedule (lastExpiration lastReleaseRate : Z) (releaseSchedule : list STInner) : bool :=
  match releaseSchedule with
  | [] => true
  | releasePoint :: releaseSchedule =>
      let rate := inner_getFieldU32 sfReleaseRate releasePoint in
      let expire := inner_getFieldU32 sfExpiration releasePoint in
      if (rate <=? lastReleaseRate) || (QUALITY_ONE <? rate) then false
      else if (rate =? 0) && negb (expire =? 0) then false
      else if (expire <=? lastExpiration) || negb (expire mod ASSET_INTERVAL_MIN =? 0) then false
      else check_schedule expire rate releaseSchedule
  end.

Definition check_asset_amount (tx : STTx) : TER :=
  let saDstAmount := getFieldAmount sfAmount (tx_fields tx) in
  if Amt.signum saDstAmount <=? 0 then temBAD_AMOUNT
  else if negb (issuer saDstAmount =? tx_account tx) then temBAD_ISSUER
  else if negb (currency_of saDstAmount =? assetCurrency) then temBAD_CURRENCY
  else tesSUCCESS.

Definition IssueAsset_check (tx : STTx) : result TER :=
  let uDstAccountID := getAccountID sfDestination (tx_fields tx) in
  Ok (
    if uDstAccountID =? 0 then temDST_NEEDED
    else if tx_account tx =? uDstAccountID then temDST_IS_SRC
    else
      let ter := check_asset_amount tx in
      if negb (is_success ter) then ter
      else if negb (check_schedule (-1) (-1) (getFieldArray sfReleaseSchedule (tx_fields tx))) then temBAD_RELEASE_SCHEDULE
      else tesSUCCESS).

Definition IssueAsset_preclaim (view : ledger) (flags : Z) (tx : STTx) : result TER :=
  Ok (if rv_exists view (keylet.account (getAccountID sfDestination (tx_fields tx))) then tesSUCCESS else tecNO_DST).

Definition IssueAsset_doApply (info : Trust.LedgerInfo) (tx : STTx) (st : State) : prog TER :=
  let uDstAccountID := getAccountID sfDestination (tx_fields tx) in
  let saDstAmount := getFieldAmount sfAmount (tx_fields tx) in
  let k := keylet.asset (account_ st) (currency_of saDstAmount) in
  let! sleAsset := peek k in
  match sleAsset with
  | Some _ => ret tefCREATED
  | None =>
      let! sleAsset := make_sle
        (setFieldArray sfReleaseSchedule (getFieldArray sfReleaseSchedule (tx_fields tx))
          (setAccountID sfRegularKey uDstAccountID (setFieldAmount sfAmount saDstAmount empty_object))) k in
      insert sleAsset;;
      rippleCredit info fuel (account_ st) uDstAccountID saDstAmount
  end.

Definition IssueAsset : Transactor := {|
  t_preflight rules flags := preflight_with rules flags IssueAsset_check;
  t_calculateBaseFee _ := calculateBaseFee;
  t_preclaim := IssueAsset_preclaim;
  t_doApply info _ _ tx st := plain (IssueAsset_doApply info tx st)
|}.

(** ** AssetRelease *)

Definition AssetRelease_doApply (tx : STTx) (st : State) : prog TER :=
  let! sleAsset := peek (keylet.asset (account_ st) (currency_of (getFieldAmount sfAmount (tx_fields tx)))) in
  match sleAsset with
  | None => ret tefFAILURE
  | Some sleAsset =>
      set sleAsset (setFieldArray sfReleaseSchedule []);;
      update sleAsset;;
      ret tesSUCCESS
  end.

Definition AssetRelease : Transactor := {|
  t_preflight rules flags := preflight_with rules flags (λ tx, Ok (check_asset_amount tx));
  t_calculateBaseFee _ := calculateBaseFee;
  t_preclaim _ _ _ := Ok tesSUCCESS;
  t_doApply _ _ _ tx st := plain (AssetRelease_doApply tx st)
|}.

(** ** ActiveAccount *)

Definition ActiveAccount_check (tx : STTx) : result TER :=
  let saDstAmount := getFieldAmount sfAmount (tx_fields tx) in
  let account := tx_account tx in
  let uDstAccountID := getAccountID sfReference (tx_fields tx) in
  let uReferee := getAccountID sfReferee (tx_fields tx) in
  if match tx_paths tx with Some _ => true | None => false end then Ok temBAD_SEND_XRP_PATHS
  else if present (amounts (tx_fields tx)) sfSendMax then Ok temBAD_SEND_XRP_MAX
  else
    let* maxSourceAmount := max_source tx account in
    let uSrcCurrency := currency_of maxSourceAmount in
    let uDstCurrency := currency_of saDstAmount in
    Ok (
      if negb (Arith.isLegalNet saDstAmount) || negb (Arith.isLegalNet maxSourceAmount) then temBAD_AMOUNT
      else if uDstAccountID =? 0 then temDST_NEEDED
      else if uReferee =? 0 then temDST_NEEDED
      else if uDstAccountID =? uReferee then temDST_IS_SRC
      else if Amt.signum maxSourceAmount <? 0 then temBAD_AMOUNT
      else if Amt.signum saDstAmount <? 0 then temBAD_AMOUNT
      else if (badCurrency =? uSrcCurrency) || (badCurrency =? uDstCurrency) then temBAD_CURRENCY
      else if (account =? uDstAccountID) && (uSrcCurrency =? uDstCurrency) then temREDUNDANT
      else if (assetCurrency =? uDstCurrency) || (assetCurrency =? uSrcCurrency) then temBAD_CURRENCY
      else tesSUCCESS).

Definition ActiveAccount_preclaim (view : ledger) (flags : Z) (tx : STTx) : result TER :=
  let saDstAmount := getFieldAmount sfAmount (tx_fields tx) in
  if rv_exists view (keylet.account (getAccountID sfReference (tx_fields tx))) then Ok tefCREATED
  else if negb (Amt.mIsNative saDstAmount) then Ok tecNO_DST
  else
    let* reserve := Amt.of_xrp (Amt.mkXRP (accountReserve 0) false) in
    let* less := Amt.ltb saDstAmount reserve in
    Ok (if less then tecNO_DST_INSUF_XRP else tesSUCCESS).

(** The reserve of the source, or the fee if that is more. *)
Definition held_back (tx : STTx) (st : State) : prog Z :=
  let! sle := read (keylet.account (account_ st)) in
  let! sle := non_null (fields <$> sle) in
  let! fee := lift (Amt.xrp (getFieldAmount sfFee (tx_fields tx))) in
  ret (Z.max (accountReserve (getFieldU32 sfOwnerCount sle)) (Amt.drops_ fee)).

(** [transfer]: what is left of the XRP of the source is the balance after the fee
    without the amount, every time. *)
Definition transfer (st : State) (mmm : Z) (sleDst : loc) (amount : Amt.STAmount) : prog TER :=
  let isVBCTransaction := Amt.amt_isVBC amount in
  let! sle := read (keylet.account (account_ st)) in
  let! sle := non_null (fields <$> sle) in
  let! sent := lift (native_part amount) in
  let! poor :=
    if mPriorBalance st <? i64 (sent + mmm) then ret true
    else if isVBCTransaction then lift (Amt.ltb (getFieldAmount sfBalanceVBC sle) amount)
    else ret false in
  if poor then ret tecUNFUNDED_PAYMENT
  else
    let field := if isVBCTransaction then sfBalanceVBC else sfBalance in
    let! src := peek (keylet.account (account_ st)) in
    let! src := non_null src in
    let! rest := lift (if isVBCTransaction then Amt.sub (getFieldAmount sfBalanceVBC sle) amount
                       else less_drops (mSourceBalance st) amount) in
    set src (setFieldAmount field rest);;
    let! balance := get sleDst (getFieldAmount field) in
    let! balance := lift (Amt.add balance amount) in
    set sleDst (setFieldAmount field balance);;
    let! spent := get sleDst (λ o, has_any (getFieldU32 sfFlags o) lsfPasswordSpent) in
    when spent (set sleDst (clearFlag lsfPasswordSpent));;
    ret tesSUCCESS.

(** The further amounts; only one that is not native ends the loop. *)
Fixpoint transfer_all (st : State) (mmm : Z) (sleDst : loc) (terResult : TER) (saAmounts : list STInner) : prog TER :=
  match saAmounts with
  | [] => ret terResult
  | saEntry :: saAmounts =>
      let saAmount := inner_getFieldAmount sfAmount saEntry in
      if negb (Amt.mIsNative saAmount) then ret temBAD_CURRENCY
      else
        let! terResult := transfer st mmm sleDst saAmount in
        transfer_all st mmm sleDst terResult saAmounts
  end.

(** The lines of the new account.  That [tfClearNoRipple] is not for assets is noted
    in a result that [trustCreate] overwrites. *)
Fixpoint set_limits (dstAccountID : AccountID) (sleDst : loc) (saLimits : list STInner) : prog TER :=
  match saLimits with
  | [] => ret tesSUCCESS
  | saEntry :: saLimits =>
      let saLimitAmount := inner_getFieldAmount sfLimitAmount saEntry in
      let currency := currency_of saLimitAmount in
      let uDstAccountID := issuer saLimitAmount in
      let index := getRippleStateIndex dstAccountID uDstAccountID currency in
      let! known := exists_ (keylet.line_key index) in
      if known then ret tefEXCEPTION
      else
        let uTxFlags := inner_getFieldU32 sfFlags saEntry in
        let bSetAuth := has_any uTxFlags tfSetfAuth in
        let bClearNoRipple := has_any uTxFlags tfClearNoRipple in
        let bSetNoRipple := has_any uTxFlags tfSetNoRipple in
        let bSetFreeze := has_any uTxFlags tfSetFreeze in
        let bClearFreeze := has_any uTxFlags tfClearFreeze in
        let! terResult :=
          trustCreate (uDstAccountID <? dstAccountID) dstAccountID uDstAccountID index (Some sleDst)
            bSetAuth (bSetNoRipple && negb bClearNoRipple) (bSetFreeze && negb bClearFreeze)
            (Amt.zero_of (mkIssue currency noAccount)) (Amt.setIssuer saLimitAmount dstAccountID)
            (inner_getFieldU32 sfQualityIn saEntry) (unit_quality (inner_getFieldU32 sfQualityOut saEntry)) in
        if negb (is_success terResult) then ret terResult else set_limits dstAccountID sleDst saLimits
  end.

Definition ActiveAccount_doApply (tx : STTx) (st : State) : prog TER :=
  let srcAccountID := getAccountID sfReferee (tx_fields tx) in
  let dstAccountID := getAccountID sfReference (tx_fields tx) in
  let saDstAmount := getFieldAmount sfAmount (tx_fields tx) in
  let k := keylet.account dstAccountID in
  let! found := peek k in
  let! sleDst :=
    match found with
    | Some sleDst => ret sleDst
    | None =>
        let! sleDst := make_sle (setFieldU32 sfSequence 1 (setAccountID sfAccount dstAccountID empty_object)) k in
        insert sleDst;;
        ret sleDst
    end in
  let! mmm := held_back tx st in
  let! terResult := transfer st mmm sleDst saDstAmount in
  let! terResult :=
    if is_success terResult then transfer_all st mmm sleDst terResult (getFieldArray sfAmounts (tx_fields tx))
    else ret terResult in
  let! terResult :=
    if is_success terResult then set_limits dstAccountID sleDst (getFieldArray sfLimits (tx_fields tx)) else ret terResult in
  if is_success terResult then addRefer srcAccountID dstAccountID else ret terResult.

Definition ActiveAccount : Transactor := {|
  t_preflight rules flags := preflight_with rules flags ActiveAccount_check;
  t_calculateBaseFee _ := calculateBaseFee;
  t_preclaim := ActiveAccount_preclaim;
  t_doApply _ _ _ tx st := plain (ActiveAccount_doApply tx st)
|}.

End trust.

End TrustTx.
