(* ===== verification/TxSystem.v ===== *)
(** * Transactions of the system

    app/tx/impl/Change.cpp, app/tx/impl/Dividend.cpp, app/tx/impl/Proposal.cpp and
    app/tx/impl/SusPay.cpp: amendments and fees, dividends, proposals with their
    votes, and suspended payments. *)

From stdpp Require Import strings.
From S2P Require Import Prelude StateMonad Issue STAmount BigNum STAmountArith Views Overlay RawStateTable ApplyStateTable.
From S2P Require Import ViewLogic Objects Directory Indexes TrustLines LoadFeeTrack Transaction HashRouter LedgerFormats Metadata.
From S2P Require Import Transactor TxSettings Payment.
Import Apply VL Dir Idx Tx Trust Obj Transact Settings Pay.

Open Scope Z_scope.
Open Scope prog_scope.

Module System.

Definition sfAmendment : string := "Amendment".
Definition sfAmendments : string := "Amendments".
Definition sfMajorities : string := "Majorities".
Definition sfCloseTime : string := "CloseTime".
Definition sfBaseFee : string := "BaseFee".
Definition sfReferenceFeeUnits : string := "ReferenceFeeUnits".
Definition sfReserveBase : string := "ReserveBase".
Definition sfReserveIncrement : string := "ReserveIncrement".
Definition sfDividendType : string := "DividendType".
Definition sfDividendCoins : string := "DividendCoins".
Definition sfDividendCoinsVBC : string := "DividendCoinsVBC".
Definition sfDividendCoinsVBCRank : string := "DividendCoinsVBCRank".
Definition sfDividendCoinsVBCSprd : string := "DividendCoinsVBCSprd".
Definition sfDividendVRank : string := "DividendVRank".
Definition sfDividendTSprd : string := "DividendTSprd".
Definition sfDividendHash : string := "DividendHash".
Definition sfDividendMarker : string := "DividendMarker".
Definition sfProposalIndex : string := "ProposalIndex".
Definition sfProposalOptions : string := "ProposalOptions".
Definition sfProposalExpire : string := "ProposalExpire".
Definition sfProposalAppendix : string := "ProposalAppendix".
Definition sfProposalCloseLedger : string := "ProposalCloseLedger".
Definition sfProposalVote : string := "ProposalVote".
Definition sfProposalVotes : string := "ProposalVotes".
Definition sfOwner : string := "Owner".
Definition sfMethod : string := "Method".
Definition sfDigest : string := "Digest".
Definition sfProof : string := "Proof".
Definition sfCancelAfter : string := "CancelAfter".
Definition sfFinishAfter : string := "FinishAfter".
Definition sfSourceTag : string := "SourceTag".

Definition tfGotMajority : Z := 0x00010000.
Definition tfLostMajority : Z := 0x00020000.

(** What a transaction tells the rest of the server. *)
Inductive Notice := AmendmentEnabled (amendment : Z) | AmendmentBlocked | DividendStarted.

Section system.
Context `{Digest} `{BN : BigNum} `{Keys} `{Meta.MetaWire} {V : Type} {RV : ReadView STObject V}.
Abbreviation ledger := (Raw.OpenView STObject V).
Abbreviation prog := (prog STObject ledger).
Context (config : Config) (fees : Fees) (now : Z).

Abbreviation preflight_with := (preflight_with config now).
Abbreviation calculateBaseFee := (calculateBaseFee fees).
Abbreviation accountReserve := (Transact.accountReserve fees).

(** The engine has no use for the notices. *)
Definition quiet (p : prog (TER * list Notice)) : prog (TER * option Amt.STAmount) := let! r := p in ret (r.1, None).

(** An entry that is made if need be. *)
Definition peek_or_insert (k : Keylet) : prog loc :=
  let! sle := peek k in
  match sle with
  | Some sle => ret sle
  | None => let! sle := make_sle empty_object k in insert sle;; ret sle
  end.

(** ** Change *)

Definition Change_preflight (tx : STTx) : TER :=
  let o := tx_fields tx in
  let ret := preflight0 tx in
  if negb (isTesSuccess ret) then ret
  else if negb (tx_account tx =? 0) then temBAD_SRC_ACCOUNT
  else
    let fee := getFieldAmount sfFee o in
    if negb (Amt.mIsNative fee) || negb (Amt.is_zero fee) then temBAD_FEE
    else if negb (bool_decide (getSigningPubKey tx = [])) || negb (bool_decide (getFieldVL sfTxnSignature o = [])) ||
            present (arrays o) sfSigners
    then temBAD_SIGNATURE
    else if negb (getSequence tx =? 0) || present (h256s o) Meta.sfPreviousTxnID then temBAD_SEQUENCE
    else tesSUCCESS.

Definition Change_preclaim (view : ledger) (flags : Z) (tx : STTx) : result TER :=
  Ok (if is_open view then temINVALID
      else if negb (bool_decide (getTxnType tx = ttAMENDMENT)) && negb (bool_decide (getTxnType tx = ttFEE)) then temUNKNOWN
      else tesSUCCESS).

(** [STObject (sfMajority)] with the amendment and the time. *)
Definition majority (amendment closeTime : Z) : STInner :=
  mkInner "Majority" ∅ ∅ {[sfCloseTime := closeTime]} {[sfAmendment := amendment]} ∅ ∅ ∅.

(** The loop: the majorities of the other amendments and whether there was one of
    this. *)
Fixpoint other_majorities (amendment : Z) (gotMajority : bool) (oldMajorities : list STInner) : option (list STInner * bool) :=
  match oldMajorities with
  | [] => Some ([], false)
  | x :: oldMajorities =>
      if inner_getFieldH256 sfAmendment x =? amendment then
        if gotMajority then None
        else (λ r, (r.1, true)) <$> other_majorities amendment gotMajority oldMajorities
      else (λ r, (x :: r.1, r.2)) <$> other_majorities amendment gotMajority oldMajorities
  end.

(** Which amendments the server knows. *)
Context (isSupported : Z → bool).

Definition applyAmendment (info : Trust.LedgerInfo) (tx : STTx) : prog (TER * list Notice) :=
  let amendment := getFieldH256 sfAmendment (tx_fields tx) in
  let! amendmentObject := peek_or_insert keylet.amendments in
  let! amendments := get amendmentObject (getFieldV256 sfAmendments) in
  let gotMajority := has_any (getFlags tx) tfGotMajority in
  let lostMajority := has_any (getFlags tx) tfLostMajority in
  if bool_decide (amendment ∈ amendments) then ret (tefALREADY, [])
  else if gotMajority && lostMajority then ret (temINVALID_FLAG, [])
  else
    let! oldMajorities := get amendmentObject (getFieldArray sfMajorities) in
    match other_majorities amendment gotMajority oldMajorities with
    | None => ret (tefALREADY, [])
    | Some (newMajorities, found) =>
        if negb found && lostMajority then ret (tefALREADY, [])
        else
          let newMajorities :=
            if gotMajority then newMajorities ++ [majority amendment (Trust.parentCloseTime info)] else newMajorities in
          let enable := negb gotMajority && negb lostMajority in
          when enable (set amendmentObject (setFieldV256 sfAmendments (amendments ++ [amendment])));;
          set amendmentObject (λ o, if bool_decide (newMajorities = []) then makeFieldAbsent sfMajorities o
                                    else setFieldArray sfMajorities newMajorities o);;
          update amendmentObject;;
          ret (tesSUCCESS,
               if enable then AmendmentEnabled amendment :: (if isSupported amendment then [] else [AmendmentBlocked]) else [])
    end.

Definition applyFee (tx : STTx) : prog TER :=
  let o := tx_fields tx in
  let! feeObject := peek_or_insert keylet.fees in
  set feeObject (setFieldU64 sfBaseFee (getFieldU64 sfBaseFee o));;
  set feeObject (setFieldU32 sfReferenceFeeUnits (getFieldU32 sfReferenceFeeUnits o));;
  set feeObject (setFieldU32 sfReserveBase (getFieldU32 sfReserveBase o));;
  set feeObject (setFieldU32 sfReserveIncrement (getFieldU32 sfReserveIncrement o));;
  update feeObject;;
  ret tesSUCCESS.

Definition Change_doApply (info : Trust.LedgerInfo) (tx : STTx) : prog (TER * list Notice) :=
  if bool_decide (getTxnType tx = ttAMENDMENT) then applyAmendment info tx
  else let! ter := applyFee tx in ret (ter, []).

Definition Change : Transactor := {|
  t_preflight _ _ tx := ret (Change_preflight tx);
  t_calculateBaseFee _ _ := 0;
  t_preclaim := Change_preclaim;
  t_doApply info _ _ tx _ := quiet (Change_doApply info tx)
|}.

(** ** Dividend *)

(** The account that may pay dividends, if it is configured and if it can be read,
    and the digest of a transaction without its signature. *)
Context (dividend_account : option (option AccountID)) (unsigned_hash : STTx → Z).

Definition Dividend_preflight (tx : STTx) : TER :=
  let o := tx_fields tx in
  let ret := preflight0 tx in
  let fee := getFieldAmount sfFee o in
  if negb (isTesSuccess ret) then ret
  else if negb (tx_account tx =? 0) then temBAD_SRC_ACCOUNT
  else if negb (Amt.mIsNative fee) || negb (Amt.is_zero fee) then temBAD_FEE
  else if negb (present (u8s o) sfDividendType) then temBAD_DIV_TYPE
  else if negb (present (u32s o) sfDividendLedger) then temINVALID
  else if negb (present (u64s o) sfDividendCoins) then temINVALID
  else if negb (present (u64s o) sfDividendCoinsVBC) then temINVALID
  else if negb (present (u64s o) sfDividendVRank) then temINVALID
  else if negb (present (u64s o) sfDividendVSprd) then temINVALID
  else
    match dividend_account with
    | None => tefBAD_AUTH
    | Some accountPublic =>
        if negb (bool_decide (accountPublic = Some (calcAccountID (getSigningPubKey tx)))) then temBAD_SIGNATURE
        else if negb (getSequence tx =? 0) || present (h256s o) Meta.sfPreviousTxnID then temBAD_SEQUENCE
        else tesSUCCESS
    end.

Definition DivType_Start : Z := 1.
Definition DivType_Apply : Z := 2.
Definition DivState_Done : Z := 0.
Definition DivState_Start : Z := 1.

(** [getFieldIndex (sfDividendLedger)]: not the number of the ledger but the place
    of the field in the template, after three common fields and one of its own. *)
Definition dividend_ledger_index : Z := 4.

Definition Dividend_preclaim (view : ledger) (flags : Z) (tx : STTx) : result TER :=
  let o := tx_fields tx in
  let divType := getFieldU8 sfDividendType o in
  let sle := fields <$> rv_read view keylet.dividend in
  let dividendLedger := getFieldU32 sfDividendLedger o in
  Ok (
    if Raw.txExists view (getTransactionID tx) then tefALREADY
    else if divType =? DivType_Apply then
      if negb (present (accounts o) sfDestination) then temDST_NEEDED
      else if negb (present (u64s o) sfDividendCoinsVBCRank) then temINVALID
      else if negb (present (u64s o) sfDividendCoinsVBCSprd) then temINVALID
      else
        match sle with
        | None => tefBAD_LEDGER
        | Some sle =>
            if negb (present (u32s sle) sfDividendLedger) then tefBAD_LEDGER
            else if negb (dividendLedger =? getFieldU32 sfDividendLedger sle) then tefBAD_LEDGER
            else
              match read_account view (getAccountID sfDestination o) with
              | None => tefEXCEPTION
              | Some accountSLE =>
                  if dividendLedger =? getFieldU32 sfDividendLedger accountSLE then tefBAD_LEDGER else tesSUCCESS
              end
        end
    else if divType =? DivType_Start then
      if negb (present (h256s o) sfDividendHash) then temINVALID
      else
        match sle with
        | None => tesSUCCESS
        | Some sle =>
            if present (u32s sle) sfDividendLedger && (dividendLedger <=? dividend_ledger_index)
            then tefBAD_LEDGER else tesSUCCESS
        end
    else temBAD_DIV_TYPE).

(** What both [startCalc] and [doneApply] take from the transaction. *)
Definition dividend_terms (state : Z) (from o : STObject) : STObject :=
  setFieldU64 sfDividendVSprd (getFieldU64 sfDividendVSprd from)
    (setFieldU64 sfDividendVRank (getFieldU64 sfDividendVRank from)
    (setFieldU64 sfDividendCoinsVBC (getFieldU64 sfDividendCoinsVBC from)
    (setFieldU64 sfDividendCoins (getFieldU64 sfDividendCoins from)
    (setFieldU32 sfDividendLedger (getFieldU32 sfDividendLedger from)
    (setFieldU8 sfDividendState state o))))).

Definition startCalc (tx : STTx) : prog (TER * list Notice) :=
  let o := tx_fields tx in
  let! dividendObject := peek_or_insert keylet.dividend in
  set dividendObject (dividend_terms DivState_Start o);;
  set dividendObject (setFieldH256 sfDividendMarker 0);;
  set dividendObject (setFieldH256 sfDividendHash (getFieldH256 sfDividendHash o));;
  update dividendObject;;
  ret (tesSUCCESS, [DividendStarted]).

(** Which nothing calls. *)
Definition doneApply (tx : STTx) : prog TER :=
  let o := tx_fields tx in
  let! dividendObject := peek_or_insert keylet.dividend in
  set dividendObject (dividend_terms DivState_Done o);;
  set dividendObject (setFieldH256 sfDividendHash (getFieldH256 sfDividendHash o));;
  update dividendObject;;
  ret tesSUCCESS.

Definition updateDividendMap (tx : STTx) : prog () :=
  let! dividendObj := peek keylet.dividend in
  let! dividendObj := non_null dividendObj in
  set dividendObj (setFieldH256 sfDividendMarker (unsigned_hash tx));;
  update dividendObj.

(** Coins that are made, added to a balance and counted. *)
Definition pay_dividend (sle : loc) (field : string) (coins : Z) (create : Z → prog ()) : prog () :=
  when (0 <? coins)
    (let! balance := get sle (getFieldAmount field) in
     let! balance := lift (Amt.add balance (Amt.of_drops coins false)) in
     set sle (setFieldAmount field balance);;
     create coins).

(** A field of the transaction that the account takes over. *)
Definition take_u64 (sf : string) (from o : STObject) : STObject :=
  match u64s from !! sf with Some x => setFieldU64 sf x o | None => o end.

Definition record_dividend (from o : STObject) : STObject :=
  match u32s from !! sfDividendLedger with
  | None => o
  | Some divLedgerSeq =>
      take_u64 sfDividendTSprd from (take_u64 sfDividendVSprd from (take_u64 sfDividendVRank from
        (setFieldU32 sfDividendLedger divLedgerSeq o)))
  end.

Definition applyTx (tx : STTx) : prog TER :=
  let o := tx_fields tx in
  let! sleAccoutModified := peek (keylet.account (getAccountID sfDestination o)) in
  match sleAccoutModified with
  | None => ret tefBAD_LEDGER
  | Some sle =>
      pay_dividend sle sfBalanceVBC (getFieldU64 sfDividendCoinsVBC o) (λ n v, Ok ((), createVBC v (i64 n)));;
      pay_dividend sle sfBalance (getFieldU64 sfDividendCoins o) (λ n v, Ok ((), createXRP v (i64 n)));;
      set sle (record_dividend o);;
      update sle;;
      updateDividendMap tx;;
      ret tesSUCCESS
  end.

Definition Dividend_doApply (tx : STTx) : prog (TER * list Notice) :=
  if bool_decide (getTxnType tx = ttDIVIDEND) then
    let divOpType := default DivType_Start (u8s (tx_fields tx) !! sfDividendType) in
    if divOpType =? DivType_Start then startCalc tx
    else if divOpType =? DivType_Apply then let! ter := applyTx tx in ret (ter, [])
    else ret (temUNKNOWN, [])
  else ret (temUNKNOWN, []).

Definition Dividend : Transactor := {|
  t_preflight _ _ tx := ret (Dividend_preflight tx);
  t_calculateBaseFee _ _ := 0;
  t_preclaim := Dividend_preclaim;
  t_doApply _ _ _ tx _ := quiet (Dividend_doApply tx)
|}.

(** ** Proposals *)

(** The account that may make proposals: whether the section is there, and whether
    an account can be read from it. *)
Context (vote_admin : option (option AccountID)).

Definition CreateProposal_preflight (tx : STTx) : TER :=
  let o := tx_fields tx in
  match vote_admin with
  | None | Some None => tefINTERNAL
  | Some (Some _) =>
      if getFieldU8 sfProposalOptions o <=? 0 then temINVALID
      else if getFieldU32 sfProposalExpire o <=? 0 then temBAD_EXPIRATION
      else tesSUCCESS
  end.

Definition CreateProposal_preclaim (view : ledger) (flags : Z) (tx : STTx) : result TER :=
  let expire := getFieldU32 sfProposalExpire (tx_fields tx) in
  let adminAccount := default 0 (mjoin vote_admin) in
  Ok (if expire <=? Trust.parentCloseTime (view_info fees view) then temBAD_EXPIRATION
      else
        match read_account view (tx_account tx) with
        | None => terNO_ACCOUNT
        | Some _ => if negb (adminAccount =? tx_account tx) then temINVALID else tesSUCCESS
        end).

(** The entry under the number 0 holds the last number in use. *)
Definition proposal_info : prog (loc * Z) :=
  let! proposalInfo := peek (keylet.proposal 0) in
  match proposalInfo with
  | Some proposalInfo =>
      let! lastProposalIndex := get proposalInfo (getFieldU32 sfProposalIndex) in
      ret (proposalInfo, lastProposalIndex)
  | None =>
      let! proposalInfo := make_sle (setFieldU32 sfProposalIndex 0 empty_object) (keylet.proposal 0) in
      insert proposalInfo;;
      ret (proposalInfo, 0)
  end.

Definition proposal (index : Z) (account : AccountID) (o : STObject) : STObject :=
  let newProposal :=
    setFieldU32 sfProposalExpire (getFieldU32 sfProposalExpire o)
      (setFieldU8 sfProposalOptions (getFieldU8 sfProposalOptions o)
      (setAccountID sfAccount account
      (setFieldU32 sfProposalIndex index empty_object))) in
  match vls o !! sfProposalAppendix with
  | Some appendix => setFieldVL sfProposalAppendix appendix newProposal
  | None => newProposal
  end.

Definition CreateProposal_doApply (tx : STTx) (st : State) : prog TER :=
  let! r := proposal_info in
  let '(proposalInfo, lastProposalIndex) := r in
  let index := u32 (lastProposalIndex + 1) in
  let! newProposal := make_sle (proposal index (account_ st) (tx_fields tx)) (keylet.proposal index) in
  insert newProposal;;
  set proposalInfo (setFieldU32 sfProposalIndex index);;
  update proposalInfo;;
  ret tesSUCCESS.

Definition CreateProposal : Transactor := {|
  t_preflight _ _ tx := ret (CreateProposal_preflight tx);
  t_calculateBaseFee _ := calculateBaseFee;
  t_preclaim := CreateProposal_preclaim;
  t_doApply _ _ _ tx st := plain (CreateProposal_doApply tx st)
|}.

(** [isFieldPresent (sfProposalCloseLedger) && getFieldU32 (sfProposalCloseLedger) > 0] *)
Definition proposal_closed (o : STObject) : bool :=
  present (u32s o) sfProposalCloseLedger && (0 <? getFieldU32 sfProposalCloseLedger o).

Definition CloseProposal_preflight (tx : STTx) : TER :=
  if getFieldU32 sfProposalIndex (tx_fields tx) <=? 0 then temINVALID else tesSUCCESS.

Definition CloseProposal_preclaim (view : ledger) (flags : Z) (tx : STTx) : result TER :=
  let proposalIndex := getFieldU32 sfProposalIndex (tx_fields tx) in
  Ok (match fields <$> rv_read view (keylet.proposal proposalIndex) with
      | None => tecNO_ENTRY
      | Some proposalSle =>
          if proposal_closed proposalSle then temINVALID
          else if present (accounts proposalSle) sfAccount && negb (tx_account tx =? getAccountID sfAccount proposalSle)
          then temINVALID else tesSUCCESS
      end).

Definition CloseProposal_doApply (info : Trust.LedgerInfo) (tx : STTx) : prog TER :=
  let! proposalInfo := peek (keylet.proposal (getFieldU32 sfProposalIndex (tx_fields tx))) in
  let! proposalInfo := non_null proposalInfo in
  let! expireTime := get proposalInfo (getFieldU32 sfProposalExpire) in
  when (Trust.l_closeTime info <=? expireTime)
    (set proposalInfo (setFieldU32 sfProposalCloseLedger (Trust.l_seq info));; update proposalInfo);;
  ret tesSUCCESS.

Definition CloseProposal : Transactor := {|
  t_preflight _ _ tx := ret (CloseProposal_preflight tx);
  t_calculateBaseFee _ := calculateBaseFee;
  t_preclaim := CloseProposal_preclaim;
  t_doApply info _ _ tx _ := plain (CloseProposal_doApply info tx)
|}.

Definition VoteProposal_preflight (tx : STTx) : TER :=
  let o := tx_fields tx in
  if getFieldU32 sfProposalIndex o <=? 0 then temINVALID
  else if negb (present (u8s o) sfProposalVote) then temINVALID
  else tesSUCCESS.

Definition VoteProposal_preclaim (view : ledger) (flags : Z) (tx : STTx) : result TER :=
  let o := tx_fields tx in
  Ok (match fields <$> rv_read view (keylet.proposal (getFieldU32 sfProposalIndex o)) with
      | None => tecNO_ENTRY
      | Some proposalSle =>
          if proposal_closed proposalSle then temINVALID
          else if getFieldU32 sfProposalExpire proposalSle <? Trust.l_closeTime (view_info fees view) then temINVALID
          else if getFieldU8 sfProposalOptions proposalSle <? getFieldU8 sfProposalVote o then temINVALID
          else tesSUCCESS
      end).

(** [STObject (sfVoteRecords)] with the proposal and the vote. *)
Definition vote_record (index vote : Z) : STInner :=
  mkInner "VoteRecords" {[sfProposalVote := vote]} ∅ {[sfProposalIndex := index]} ∅ ∅ ∅ ∅.

(** Whether a vote on the proposal is kept. *)
Definition proposal_live (closeTime : Z) (o : STObject) : bool :=
  negb (proposal_closed o) && negb (getFieldU32 sfProposalExpire o <? closeTime).

(** One vote of the loop, given whether its proposal is live: what is kept of it,
    and whether it is on the proposal of this transaction. *)
Definition revise_vote (live : bool) (proposalIndex proposalVote : Z) (vote : STInner) : list STInner * bool :=
  if negb live then ([], false)
  else
    let same := inner_getFieldU32 sfProposalIndex vote =? proposalIndex in
    let vote := if same then inner_setFieldU8 sfProposalVote proposalVote vote else vote in
    (if inner_getFieldU8 sfProposalVote vote =? 0 then [] else [vote], same).

Fixpoint revise_votes (closeTime proposalIndex proposalVote : Z) (originVotes : list STInner) : prog (list STInner * bool) :=
  match originVotes with
  | [] => ret ([], false)
  | vote :: originVotes =>
      let! proposalSle := peek (keylet.proposal (inner_getFieldU32 sfProposalIndex vote)) in
      let! proposalSle := non_null proposalSle in
      let! live := get proposalSle (proposal_live closeTime) in
      let '(kept, found) := revise_vote live proposalIndex proposalVote vote in
      let! r := revise_votes closeTime proposalIndex proposalVote originVotes in
      ret (kept ++ r.1, found || r.2)
  end.

Definition VoteProposal_doApply (info : Trust.LedgerInfo) (tx : STTx) (st : State) : prog TER :=
  let proposalIndex := getFieldU32 sfProposalIndex (tx_fields tx) in
  let proposalVote := getFieldU8 sfProposalVote (tx_fields tx) in
  let! accountSle := peek (keylet.account (account_ st)) in
  let! accountSle := non_null accountSle in
  let! originVotes := get accountSle (getFieldArray sfProposalVotes) in
  let! r := revise_votes (Trust.l_closeTime info) proposalIndex proposalVote originVotes in
  let '(votes, found) := r in
  let votes := if negb found && negb (proposalVote =? 0) then votes ++ [vote_record proposalIndex proposalVote] else votes in
  set accountSle (setFieldArray sfProposalVotes votes);;
  update accountSle;;
  ret tesSUCCESS.

Definition VoteProposal : Transactor := {|
  t_preflight _ _ tx := ret (VoteProposal_preflight tx);
  t_calculateBaseFee _ := calculateBaseFee;
  t_preclaim := VoteProposal_preclaim;
  t_doApply info _ _ tx st := plain (VoteProposal_doApply info tx st)
|}.

(** ** Suspended payments *)

(** The digest of a proof. *)
Context (sha256 : list Z → Z).

Definition featureSusPay : Z := sha512Half [83; 117; 115; 80; 97; 121].

Definition susPay_preflight (own : STTx → result TER) (rules : Rules) (flags : Z) (tx : STTx) : M Router.HashRouter TER :=
  if negb (has_any flags tapENABLE_TESTING) && negb (enabled rules featureSusPay (features config)) then ret temDISABLED
  else preflight_with rules flags own tx.

Definition SusPayCreate_check (tx : STTx) : result TER :=
  let o := tx_fields tx in
  let amount := getFieldAmount sfAmount o in
  Ok (if negb (isXRP (currency_of amount)) then temBAD_AMOUNT
      else if Amt.signum amount <=? 0 then temBAD_AMOUNT
      else
        match u32s o !! sfCancelAfter, u32s o !! sfFinishAfter with
        | None, None => temBAD_EXPIRATION
        | Some cancelAfter, Some finishAfter => if cancelAfter <=? finishAfter then temBAD_EXPIRATION else tesSUCCESS
        | _, _ => tesSUCCESS
        end).

(** [seconds{days(7)}.count()] *)
Definition susPay_week : Z := 604800.

(** Whether the payment could not be resolved within a week. *)
Definition too_long (maxExpire : Z) (o : STObject) : bool :=
  let late sf := match u32s o !! sf with Some t => maxExpire <=? t | None => false end in
  if present (h256s o) sfDigest then negb (present (u32s o) sfCancelAfter) || late sfCancelAfter
  else late sfCancelAfter || late sfFinishAfter.

(** An optional field that a new entry takes over. *)
Definition take_u32 (sf : string) (from o : STObject) : STObject :=
  match u32s from !! sf with Some x => setFieldU32 sf x o | None => o end.
Definition take_h256 (sf : string) (from o : STObject) : STObject :=
  match h256s from !! sf with Some x => setFieldH256 sf x o | None => o end.

Definition susPay_entry (account : AccountID) (o : STObject) : STObject :=
  take_u32 sfDestinationTag o (take_u32 sfFinishAfter o (take_u32 sfCancelAfter o
    (setAccountID sfDestination (getAccountID sfDestination o)
    (take_u32 sfSourceTag o (take_h256 sfDigest o
    (setAccountID sfAccount account
    (setFieldAmount sfAmount (getFieldAmount sfAmount o) empty_object))))))).

(** The reserve with one more entry, and the payment on top of it. *)
Definition susPay_funds (sle : STObject) (amount : Amt.STAmount) : result TER :=
  let* balance := Amt.xrp (getFieldAmount sfBalance sle) in
  let reserve := accountReserve (u32 (getFieldU32 sfOwnerCount sle + 1)) in
  if Amt.drops_ balance <? reserve then Ok tecINSUFFICIENT_RESERVE
  else
    let* amount := Amt.xrp amount in
    Ok (if Amt.drops_ balance <? i64 (reserve + Amt.drops_ amount) then tecUNFUNDED else tesSUCCESS).

Definition susPay_destination (sled : option STObject) (o : STObject) : TER :=
  match sled with
  | None => tecNO_DST
  | Some sled =>
      if has_any (getFieldU32 sfFlags sled) lsfRequireDestTag && negb (present (u32s o) sfDestinationTag)
      then tecDST_TAG_NEEDED
      else if has_any (getFieldU32 sfFlags sled) lsfDisallowXRP then tecNO_TARGET
      else tesSUCCESS
  end.

Definition SusPayCreate_doApply (info : Trust.LedgerInfo) (tx : STTx) : prog TER :=
  let o := tx_fields tx in
  let account := tx_account tx in
  let amount := getFieldAmount sfAmount o in
  if too_long (Trust.parentCloseTime info + susPay_week) o then ret tecNO_PERMISSION
  else
    let! sle := peek (keylet.account account) in
    let! sle := non_null sle in
    let! funds := get sle (λ f, susPay_funds f amount) in
    let! ter := lift funds in
    if negb (is_success ter) then ret ter
    else
      let! sled := read (keylet.account (getAccountID sfDestination o)) in
      let ter := susPay_destination (fields <$> sled) o in
      if negb (is_success ter) then ret ter
      else
        let! sequence := get sle (getFieldU32 sfSequence) in
        let k := keylet.susPay account (u32 (sequence - 1)) in
        let! slep := make_sle (susPay_entry account o) k in
        insert slep;;
        let! r := dirAdd (getOwnerDirIndex account) (k_key k) (describeOwnerDir account) in
        if negb (is_success r.1) then ret r.1
        else
          set slep (setFieldU64 sfOwnerNode r.2);;
          let! balance := get sle (getFieldAmount sfBalance) in
          let! balance := lift (Amt.sub balance amount) in
          set sle (setFieldAmount sfBalance balance);;
          set sle (λ f, setFieldU32 sfOwnerCount (u32 (getFieldU32 sfOwnerCount f + 1)) f);;
          update sle;;
          ret tesSUCCESS.

Definition SusPayCreate : Transactor := {|
  t_preflight := susPay_preflight SusPayCreate_check;
  t_calculateBaseFee _ := calculateBaseFee;
  t_preclaim _ _ _ := Ok tesSUCCESS;
  t_doApply info _ _ tx _ := plain (SusPayCreate_doApply info tx)
|}.

Definition SusPayFinish_check (tx : STTx) : result TER :=
  let o := tx_fields tx in
  Ok (match u8s o !! sfMethod with
      | Some method =>
          if method =? 1 then
            match h256s o !! sfDigest, vls o !! sfProof with
            | Some digest, Some proof =>
                if negb (length proof =? 32)%nat then temMALFORMED
                else if negb (sha256 proof =? digest) then temBAD_SIGNATURE
                else tesSUCCESS
            | _, _ => temMALFORMED
            end
          else temMALFORMED
      | None => if present (h256s o) sfDigest || present (vls o) sfProof then temMALFORMED else tesSUCCESS
      end).

(** Too soon, too late, or with another digest. *)
Definition may_finish (parentCloseTime : Z) (o slep : STObject) : bool :=
  negb (match u32s slep !! sfFinishAfter with Some t => parentCloseTime <=? t | None => false end) &&
  negb (match u32s slep !! sfCancelAfter with Some t => t <=? parentCloseTime | None => false end) &&
  negb (present (h256s slep) sfDigest &&
        (negb (present (u8s o) sfMethod) || negb (bool_decide (h256s o !! sfDigest = h256s slep !! sfDigest)))).

Definition susPay_key (o : STObject) : Keylet := keylet.susPay (getAccountID sfOwner o) (getFieldU32 sfOfferSequence o).

(** The entry leaves its owner's directory. *)
Definition susPay_unlink (slep : loc) (k : Keylet) : prog TER :=
  let! account := get slep (getAccountID sfAccount) in
  let! page := get slep (getFieldU64 sfOwnerNode) in
  dirDelete true page (getOwnerDirIndex account) (k_key k) false (page =? 0).

(** The balance grows by the amount. *)
Definition susPay_credit (sle : loc) (amount : Amt.STAmount) : prog () :=
  let! balance := get sle (getFieldAmount sfBalance) in
  let! balance := lift (Amt.add balance amount) in
  set sle (setFieldAmount sfBalance balance).

Definition one_entry_less (o : STObject) : STObject := setFieldU32 sfOwnerCount (u32 (getFieldU32 sfOwnerCount o - 1)) o.

Definition SusPayFinish_doApply (info : Trust.LedgerInfo) (tx : STTx) : prog TER :=
  let o := tx_fields tx in
  let k := susPay_key o in
  let! slep := peek k in
  match slep with
  | None => ret tecNO_TARGET
  | Some slep =>
      let! allowed := get slep (may_finish (Trust.parentCloseTime info) o) in
      if negb allowed then ret tecNO_PERMISSION
      else
        let! account := get slep (getAccountID sfAccount) in
        let! ter := susPay_unlink slep k in
        if negb (is_success ter) then ret ter
        else
          let! destination := get slep (getAccountID sfDestination) in
          let! sled := peek (keylet.account destination) in
          match sled with
          | None => ret tecNO_DST
          | Some sled =>
              let! amount := get slep (getFieldAmount sfAmount) in
              susPay_credit sled amount;;
              update sled;;
              let! sle := peek (keylet.account account) in
              let! sle := non_null sle in
              set sle one_entry_less;;
              update sle;;
              erase slep;;
              ret tesSUCCESS
          end
  end.

Definition SusPayFinish : Transactor := {|
  t_preflight := susPay_preflight SusPayFinish_check;
  t_calculateBaseFee _ := calculateBaseFee;
  t_preclaim _ _ _ := Ok tesSUCCESS;
  t_doApply info _ _ tx _ := plain (SusPayFinish_doApply info tx)
|}.

Definition may_cancel_payment (parentCloseTime : Z) (slep : STObject) : bool :=
  match u32s slep !! sfCancelAfter with Some t => negb (parentCloseTime <=? t) | None => false end.

Definition SusPayCancel_doApply (info : Trust.LedgerInfo) (tx : STTx) : prog TER :=
  let k := susPay_key (tx_fields tx) in
  let! slep := peek k in
  match slep with
  | None => ret tecNO_TARGET
  | Some slep =>
      let! allowed := get slep (may_cancel_payment (Trust.parentCloseTime info)) in
      if negb allowed then ret tecNO_PERMISSION
      else
        let! account := get slep (getAccountID sfAccount) in
        let! ter := susPay_unlink slep k in
        if negb (is_success ter) then ret ter
        else
          let! sle := peek (keylet.account account) in
          let! sle := non_null sle in
          let! amount := get slep (getFieldAmount sfAmount) in
          susPay_credit sle amount;;
          set sle one_entry_less;;
          update sle;;
          erase slep;;
          ret tesSUCCESS
  end.

Definition SusPayCancel : Transactor := {|
  t_preflight := susPay_preflight (λ _, Ok tesSUCCESS);
  t_calculateBaseFee _ := calculateBaseFee;
  t_preclaim _ _ _ := Ok tesSUCCESS;
  t_doApply info _ _ tx _ := plain (SusPayCancel_doApply info tx)
|}.

End system.

End System.
