(* ===== verification/MetadataFacts.v ===== *)
(** * Facts about transaction metadata

    Threading changes nothing but where an entry was threaded to; the metadata
    lists what a transaction changed, each entry once and under its kind. *)

From stdpp Require Import strings.
From S2P Require Import Prelude StateMonad Issue STAmount Views Overlay RawStateTable RawFacts ApplyStateTable ApplyFacts.
From S2P Require Import ViewLogic Objects Directory Indexes LedgerFormats TrustLines Transaction Metadata.
Import Apply ApplyFacts Obj Idx Formats Tx Meta.

Open Scope Z_scope.

Module MetaFacts.

Definition prev_id (s : SLE STObject) : Z := getFieldH256 sfPreviousTxnID (fields s).

(** The fields but for those that thread an entry. *)
Definition unthreaded (o : STObject) : STObject :=
  mkObject (u8s o) (u16s o) (delete sfPreviousTxnLgrSeq (u32s o)) (u64s o) (h128s o) (delete sfPreviousTxnID (h256s o))
    (v256s o) (vls o) (accounts o) (amounts o) (arrays o).

(** Two entries that differ in nothing else. *)
Definition thread_eq (s s' : SLE STObject) : Prop :=
  sle_key s' = sle_key s ∧ sle_type s' = sle_type s ∧ unthreaded (fields s') = unthreaded (fields s).

#[global] Instance thread_eq_equiv : Equivalence thread_eq.
Proof.
  split; [done|by intros ?? (? & ? & ?)|]. intros s1 s2 s3 (? & ? & ?) (? & ? & ?). split_and!; by etrans.
Qed.

(** Two ledgers that differ in nothing else. *)
Definition ledger_eq (m m' : gmap Z (SLE STObject)) : Prop := ∀ k, option_Forall2 thread_eq (m !! k) (m' !! k).

#[global] Instance ledger_eq_equiv : Equivalence ledger_eq.
Proof.
  split.
  - intros m k. by apply option_Forall2_refl.
  - intros m m' Hm k. destruct (Hm k); constructor. by symmetry.
  - intros m1 m2 m3 H12 H23 k. specialize (H12 k). specialize (H23 k).
    destruct H12; inversion H23; constructor. by etrans.
Qed.

(** ** Nodes *)

Definition indexes (l : list AffectedNode) : list Z := n_index <$> l.

Section nodes.
Context (i : Z) (f : AffectedNode → AffectedNode) (fresh_node : AffectedNode).
Context (Hf : ∀ n, n_index (f n) = n_index n) (Hfresh : n_index fresh_node = i).

Lemma at_node_indexes l : indexes (at_node i f fresh_node l) = if decide (i ∈ indexes l) then indexes l else indexes l ++ [i].
Proof using Hf Hfresh.
  induction l as [|n l IH]; cbn [at_node].
  { rewrite decide_False by (unfold indexes; simpl; apply not_elem_of_nil). unfold indexes. simpl. by rewrite Hf, Hfresh. }
  destruct (Z.eqb_spec (n_index n) i) as [<-|Hne].
  - rewrite decide_True by by left. unfold indexes. simpl. by rewrite Hf.
  - assert (i ∈ indexes (n :: l) ↔ i ∈ indexes l) as Hiff by (unfold indexes; rewrite fmap_cons, elem_of_cons; intuition congruence).
    change (indexes (n :: at_node i f fresh_node l)) with (n_index n :: indexes (at_node i f fresh_node l)).
    rewrite IH. by destruct (decide (i ∈ indexes l)), (decide (i ∈ indexes (n :: l))); try tauto.
Qed.

Lemma at_node_nodup l : NoDup (indexes l) → NoDup (indexes (at_node i f fresh_node l)).
Proof using Hf Hfresh.
  intros Hnd. rewrite at_node_indexes. case_decide as Hin; [done|].
  apply NoDup_app. split; [done|]. split; [|apply NoDup_singleton]. by intros x Hx ->%list_elem_of_singleton.
Qed.

Lemma at_node_listed l k : k ∈ indexes (at_node i f fresh_node l) ↔ k ∈ indexes l ∨ k = i.
Proof using Hf Hfresh.
  rewrite at_node_indexes. case_decide as Hin; [intuition congruence|]. by rewrite elem_of_app, list_elem_of_singleton.
Qed.

(** The other nodes stay, the one in question is changed. *)
Lemma at_node_elem l n :
  NoDup (indexes l) → n ∈ at_node i f fresh_node l →
  (n ∈ l ∧ n_index n ≠ i) ∨ ∃ n0, (n0 ∈ l ∨ (n0 = fresh_node ∧ i ∉ indexes l)) ∧ n_index n0 = i ∧ n = f n0.
Proof using Hf Hfresh.
  unfold indexes. induction l as [|n' l IH]; cbn [at_node].
  { intros _ ->%list_elem_of_singleton. right. exists fresh_node. split; [right; split; [done|apply not_elem_of_nil]|done]. }
  rewrite fmap_cons. intros [Hni Hnd]%NoDup_cons. destruct (Z.eqb_spec (n_index n') i) as [E|Hne].
  - intros [->|Hin]%elem_of_cons; [right; exists n'; split; [left; by left|done]|left]. split; [by right|].
    intros E'. apply Hni. rewrite E, <- E'. by apply list_elem_of_fmap_2.
  - intros [->|Hin]%elem_of_cons; [left; split; [by left|done]|].
    destruct (IH Hnd Hin) as [[? ?]|(n0 & [?|[-> Hno]] & ? & ?)]; [left; split; [by right|done]|right..].
    + exists n0. split; [left; by right|done].
    + exists fresh_node. split; [right; split; [done|]|done]. intros [?|?]%elem_of_cons; [congruence|done].
Qed.
End nodes.

(** ** Threading *)

Section threading.
Context `{Digest} {V V' : Type} {RV : ReadView STObject V}.
Context (v : ApplyView STObject V') (to : Raw.OpenView STObject V) (c : gmap Z (SLE STObject)) (txID seq : Z).
Abbreviation items := (items_ v).
Context (Hto : reads_as to c) (Hv : view_ok c v) (Hclean : clean_but c ∅ v).

(** An entry that was threaded or not. *)
Definition threads (s s' : SLE STObject) : Prop :=
  s' = s ∨ (prev_id s ≠ txID ∧ s' = (thread txID seq s).2).

Lemma threads_eq s s' : threads s s' → thread_eq s s'.
Proof.
  intros [->|[_ ->]]; [done|]. unfold thread. destruct (_ =? _); [done|]. split_and!; [done|done|].
  unfold unthreaded. simpl. by rewrite !delete_insert_eq.
Qed.

(** Once is enough. *)
Lemma thread_threads s s' : threads s s' → threads s (thread txID seq s').2.
Proof.
  intros [->|[Hne ->]].
  - unfold thread at 1. fold (prev_id s). destruct (Z.eqb_spec (prev_id s) txID) as [|Hne]; [by left|].
    right. split; [done|]. unfold thread. fold (prev_id s). by rewrite (proj2 (Z.eqb_neq _ _)).
  - right. split; [done|]. unfold thread. fold (prev_id s). rewrite (proj2 (Z.eqb_neq _ _) Hne). cbn [snd fields].
    unfold getFieldH256 at 1. simpl. rewrite lookup_insert_eq. simpl. by rewrite Z.eqb_refl.
Qed.

Definition listed (t : Threading) (k : Z) : Prop := k ∈ indexes (mNodes (t_meta t)).

(** The nodes of the items in [P] have their kind. *)
Definition node_ok (P : gset Z) (n : AffectedNode) : Prop :=
  match items !! n_index n with
  | Some (erase_, _) => n_kind n = sfDeletedNode
  | Some (insert_, _) => n_index n ∈ P → n_kind n = sfCreatedNode
  | _ => n_kind n = sfModifiedNode ∧ is_Some (c !! n_index n)
  end.

(** What the metadata lists once the items in [P] have been looked at. *)
Definition lists (P : gset Z) (t : Threading) (k : Z) : Prop :=
  match items !! k with
  | Some (erase_, _) | Some (insert_, _) => k ∈ P → listed t k
  | Some (modify, p) => ∀ s s0, store v !! p = Some s → c !! k = Some s0 → prev_id s ≠ 0 →
      listed t k ∨ (t_store t !! p = Some s ∧ (k ∈ P → same_entry s s0 = true))
  | _ => ∀ s0, c !! k = Some s0 → prev_id s0 ≠ 0 → listed t k ∨ t_mods t !! k = None ∨ t_mods t !! k = Some s0
  end.

Definition unknown (k : Z) : Prop := items !! k = None ∨ ∃ p, items !! k = Some (cache, p).

Record inv (P : gset Z) (t : Threading) : Prop := {
  inv_id : mTransactionID (t_meta t) = txID ∧ mLedger (t_meta t) = seq;
  inv_store p s : store v !! p = Some s → ∃ s', t_store t !! p = Some s' ∧ threads s s';
  inv_mods k s' : t_mods t !! k = Some s' → unknown k ∧ ∃ s, c !! k = Some s ∧ threads s s';
  inv_nodup : NoDup (indexes (mNodes (t_meta t)));
  inv_kind n : n ∈ mNodes (t_meta t) → node_ok P n;
  inv_lists k : lists P t k
}.

(** More nodes are listed. *)
Lemma lists_mono P t t' k :
  lists P t k → t_store t' = t_store t → t_mods t' = t_mods t → (∀ j, listed t j → listed t' j) → lists P t' k.
Proof.
  unfold lists. intros Hl Hs Hm Hj. rewrite Hs, Hm. destruct (items !! k) as [[[] p]|]; auto.
  - intros s0 H1 H2. destruct (Hl s0 H1 H2); auto.
  - intros s s0 H1 H2 H3. destruct (Hl s s0 H1 H2 H3); auto.
  - intros s0 H1 H2. destruct (Hl s0 H1 H2); auto.
Qed.

(** Changing the node of a key, which keeps or gets its kind. *)
Lemma inv_at_node P t k f fresh_node :
  inv P t → (∀ n, n_index (f n) = n_index n) → n_index fresh_node = k →
  (∀ n, n_index n = k → n ∈ mNodes (t_meta t) ∨ (n = fresh_node ∧ ¬ listed t k) → node_ok P (f n)) →
  inv P (mkThreading (t_store t) (set_nodes (at_node k f fresh_node (mNodes (t_meta t))) (t_meta t)) (t_mods t)).
Proof.
  intros [Hid Hst Hmods Hnd Hkind Hlists] Hf Hfresh Hk. split; try done; cbn [t_meta mNodes set_nodes].
  - by apply at_node_nodup.
  - intros n Hn. apply at_node_elem in Hn as [[Hn _]|(n0 & Hn0 & E & ->)]; [by apply Hkind|by apply Hk; auto|done..].
  - intros j. eapply lists_mono; [apply Hlists|done|done|]. intros j' Hj. unfold listed. simpl.
    apply at_node_listed; auto.
Qed.

(** ** The steps *)

Definition valid (x : Target) (k : Z) (t : Threading) : Prop :=
  match x with
  | in_table p => items !! k = Some (insert_, p) ∨ items !! k = Some (modify, p)
  | in_mods k' => k' = k ∧ is_Some (t_mods t !! k)
  end.

(** The pointers of different items are different. *)
Lemma items_apart k k' a a' p s : items !! k = Some (a, p) → items !! k' = Some (a', p) → store v !! p = Some s → k = k'.
Proof using Hv. intros H1 H2 Hs. pose proof (Hv _ _ H1) as H1'. pose proof (Hv _ _ H2) as H2'.
  unfold item_ok in *. simpl in *. rewrite Hs in *. destruct H1', H2'. congruence. Qed.

Lemma known_store k a p : items !! k = Some (a, p) → ∃ s, store v !! p = Some s ∧ sle_key s = k.
Proof using Hv.
  intros Hi. pose proof (Hv _ _ Hi) as Hok. unfold item_ok in Hok. simpl in Hok.
  destruct (store v !! p) as [s|]; [|done]. exists s. by destruct Hok.
Qed.

(** The entry of a target and what it was before. *)
Lemma target_entry P t x k :
  inv P t → valid x k t →
  ∃ s s', sle_key s' = k ∧ threads s s' ∧
    match x with
    | in_table p => store v !! p = Some s ∧ t_store t !! p = Some s'
    | in_mods k' => c !! k = Some s ∧ t_mods t !! k' = Some s'
    end.
Proof using Hv Hto.
  intros Hi Hx. destruct x as [p|k'].
  - assert (∃ s, store v !! p = Some s ∧ sle_key s = k) as (s & Hs & Hk) by (destruct Hx; by eapply known_store).
    destruct (inv_store _ _ Hi p s Hs) as (s' & Hs' & Ht). exists s, s'. split; [|done].
    by destruct (threads_eq _ _ Ht) as [-> _].
  - destruct Hx as [-> [s' Hs']]. destruct (inv_mods _ _ Hi k s' Hs') as (_ & s & Hs & Ht). exists s, s'.
    split; [|done]. destruct (threads_eq _ _ Ht) as [-> _]. by apply (reads_keyed _ _ Hto).
Qed.

(** A target that is threaded. *)
Definition put_into (x : Target) (s : SLE STObject) (t : Threading) (meta : TxMeta) : Threading :=
  match x with
  | in_table p => mkThreading (<[p := s]> (t_store t)) meta (t_mods t)
  | in_mods k => mkThreading (t_store t) meta (<[k := s]> (t_mods t))
  end.

Lemma inv_put P t x k s s' :
  inv P t → valid x k t → sle_key s' = k → threads s s' →
  match x with
  | in_table p => store v !! p = Some s ∧ t_store t !! p = Some s'
  | in_mods k' => c !! k = Some s ∧ t_mods t !! k' = Some s'
  end →
  listed t k ∨ prev_id s = 0 →
  inv P (put_into x (thread txID seq s').2 t (t_meta t)).
Proof using Hv.
  intros [Hid Hst Hmods Hnd Hkind Hlists] Hx Hk Ht Hsrc Hl.
  assert (threads s (thread txID seq s').2) as Ht' by by apply thread_threads.
  destruct x as [p|k']; destruct Hsrc as [Hs Hs']; split; try done; cbn [put_into t_store t_mods t_meta].
  - intros q s1 Hq. destruct (decide (q = p)) as [->|Hne]; [|rewrite lookup_insert_ne by done; by apply Hst].
    rewrite lookup_insert_eq. assert (s1 = s) as -> by congruence. eauto.
  - intros j. specialize (Hlists j). unfold lists in *. cbn [t_store t_mods].
    destruct (items !! j) as [[[] q]|] eqn:Ej; try done. intros s1 s0 H1 H2 H3.
    destruct (Hlists s1 s0 H1 H2 H3) as [?|[H4 H5]]; [by left|].
    destruct (decide (q = p)) as [->|Hne]; [|right; by rewrite lookup_insert_ne].
    assert (s1 = s) as -> by congruence. destruct Hl as [Hl|]; [|done]. left.
    assert (j = k) as ->; [|done]. destruct Hx as [Hx|Hx]; by eapply (items_apart j k); [exact Ej|exact Hx|].
  - intros j s1. destruct Hx as [-> Hx]. intros [[<- <-]|[Hne Hj]]%lookup_insert_Some; [|by apply Hmods].
    split; [by eapply Hmods|]. eauto.
  - intros j. specialize (Hlists j). destruct Hx as [-> Hx]. unfold lists in *. cbn [t_store t_mods].
    pose proof (Hmods k _ Hs') as [Hu _]. destruct (decide (j = k)) as [->|Hne].
    + destruct Hu as [Hu|[q Hu]]; rewrite Hu in *; intros s0 H1 H2; destruct Hl as [?|Hl]; [by left| |by left|];
        exfalso; apply H2; congruence.
    + destruct (items !! j) as [[[] q]|] eqn:Ej; try done; intros s0 H1 H2;
        (destruct (Hlists s0 H1 H2) as [?|?]; [by left|right]); by rewrite lookup_insert_ne.
Qed.

(** The entry in the base of an item that is not inserted. *)
Lemma known_base k a p : items !! k = Some (a, p) → a ≠ insert_ → ∃ s, rv_read to (unchecked k) = Some s ∧ c !! k = Some s.
Proof using Hv Hto.
  intros Hk Ha. pose proof (Hv _ _ Hk) as Hok. unfold item_ok in Hok. simpl in Hok.
  destruct (store v !! p) as [s1|]; [|done]. destruct Hok as [_ Hok].
  assert (is_Some (c !! k)) as [s Hs] by by destruct a. exists s. split; [|done].
  by rewrite (reads_read _ _ Hto); unfold lookup_keylet; simpl; rewrite Hs.
Qed.

Lemma wp_threadItem P t x k (Q : () → Threading → Prop) :
  inv P t → valid x k t → (∀ t', inv P t' → (∀ j, listed t j → listed t' j) → Q tt t') → wp (threadItem x) t Q.
Proof using Hv Hto.
  intros Hi Hx HQ. destruct (target_entry P t x k Hi Hx) as (s & s' & Hk & Ht & Hsrc).
  destruct (inv_id _ _ Hi) as [Eid Eseq]. unfold threadItem, wp, bind, fetch_target, gets.
  assert ((match x with in_table p => t_store t !! p | in_mods k => t_mods t !! k end) = Some s') as E
    by (destruct x; apply Hsrc).
  cbn [rbind fst snd bind]. unfold bind. cbn [rbind fst snd]. rewrite E. cbn [non_null ret rbind fst snd].
  rewrite Eid, Eseq. unfold thread at 1. fold (prev_id s').
  destruct (Z.eqb_spec (prev_id s') txID) as [|Hne]; [by apply HQ|].
  assert (s' = s) as ->.
  { destruct Ht as [|[Hne' ->]]; [done|]. exfalso. apply Hne. unfold thread. fold (prev_id s).
    rewrite (proj2 (Z.eqb_neq _ _) Hne'). unfold prev_id, getFieldH256. simpl. by rewrite lookup_insert_eq. }
  set (s2 := mkSLE _ _ _). assert ((thread txID seq s).2 = s2) as E2.
  { unfold thread. fold (prev_id s). by rewrite (proj2 (Z.eqb_neq _ _) Hne). }
  unfold bind, put_target, StateMonad.modify. cbn [rbind fst snd].
  destruct (Z.eqb_spec (prev_id s) 0) as [Hz|Hz].
  - cbn [ret]. pose proof (inv_put P t x k s s Hi Hx Hk Ht Hsrc (or_intror Hz)) as H'. rewrite E2 in H'.
    destruct x; apply HQ; done.
  - set (m' := thread_node s (prev_id s, getFieldU32 sfPreviousTxnLgrSeq (fields s)) (t_meta t)).
    assert (inv P (mkThreading (t_store t) m' (t_mods t))) as H1.
    { apply inv_at_node; [done|done|done|]. intros n En [Hn|[-> Hno]]; [by apply (inv_kind _ _ Hi n)|].
      unfold node_ok. cbn [n_index new_node n_kind]. rewrite Hk in Hno |- *. pose proof (inv_lists _ _ Hi k) as Hl. unfold lists in Hl.
      destruct x as [p|k']; [destruct Hx as [Hx|Hx]|destruct Hx as [-> [y Hy]]].
      - rewrite Hx in *. intros HP. by destruct Hno; apply Hl.
      - rewrite Hx. split; [done|]. destruct (known_base _ _ _ Hx) as (o & _ & Ho); [done|by exists o].
      - destruct (inv_mods _ _ Hi k y Hy) as [[Hu|[q Hu]] (o & Ho & _)]; rewrite Hu; (split; [done|by exists o]). }
    assert (listed (mkThreading (t_store t) m' (t_mods t)) k) as Hl.
    { unfold listed, m'. simpl. apply at_node_listed; [done|done|]. by right. }
    assert (inv P (put_into x s2 (mkThreading (t_store t) m' (t_mods t)) m')) as H2.
    { rewrite <- E2. apply (inv_put P (mkThreading (t_store t) m' (t_mods t)) x k s s); try done. by left. }
    unfold on_meta, StateMonad.modify. destruct x; apply HQ; try exact H2;
      intros j Hj; unfold listed, m'; simpl; apply at_node_listed; auto.
Qed.

Lemma wp_getForMod P t k (Q : option Target → Threading → Prop) :
  inv P t → (∀ x t', inv P t' → t_meta t' = t_meta t → (∀ y, x = Some y → valid y k t') → Q x t') →
  wp (getForMod items to k) t Q.
Proof using Hto.
  intros Hi HQ. apply wp_bind, wp_gets. destruct (t_mods t !! k) as [s|] eqn:Em.
  { apply wp_ret, HQ; [done|done|]. intros y [= <-]. split; [done|by rewrite Em]. }
  assert (unknown k → wp match rv_read to (unchecked k) with
      | None => ret None
      | Some c => StateMonad.modify (λ t, mkThreading (t_store t) (t_meta t) (<[k := c]> (t_mods t)));; ret (Some (in_mods k))
      end t Q) as Hbase.
  { intros Hu. rewrite (reads_read _ _ Hto). unfold lookup_keylet. simpl.
    destruct (c !! k) as [s|] eqn:Ec; [|by apply wp_ret, HQ].
    apply wp_bind, wp_modify, wp_ret, HQ; [|done|intros y [= <-]; split; [done|by simpl; rewrite lookup_insert_eq]].
    destruct Hi as [Hid Hst Hmods Hnd Hkind Hlists]. split; try done; cbn [t_mods t_store t_meta].
    - intros j s'. intros [[<- <-]|[_ Hj]]%lookup_insert_Some; [|by apply Hmods]. split; [done|]. exists s. split; [done|by left].
    - intros j. specialize (Hlists j). unfold lists in *. cbn [t_mods t_store].
      destruct (decide (j = k)) as [->|Hne].
      + destruct Hu as [Hu|[q Hu]]; rewrite Hu in *; intros s0 H1 H2; right; right; rewrite lookup_insert_eq; congruence.
      + destruct (items !! j) as [[[] q]|]; try done; intros s0 H1 H2; rewrite lookup_insert_ne by done; by apply Hlists. }
  destruct (items !! k) as [[[] p]|] eqn:Ei.
  - apply Hbase. right. by exists p.
  - by apply wp_ret, HQ.
  - apply wp_ret, HQ; [done|done|]. intros y [= <-]. by left.
  - apply wp_ret, HQ; [done|done|]. intros y [= <-]. by right.
  - apply Hbase. by left.
Qed.

Lemma wp_threadTx P t a (Q : () → Threading → Prop) :
  inv P t → (∀ t', inv P t' → (∀ j, listed t j → listed t' j) → Q tt t') → wp (threadTx items to a) t Q.
Proof using Hv Hto.
  intros Hi HQ. apply wp_bind. apply (wp_getForMod P); [done|]. intros x t1 H1 Em Hx.
  assert (∀ j, listed t j → listed t1 j) as Hl by (unfold listed; rewrite Em; done).
  destruct x as [y|]; [|by apply wp_ret, HQ]. eapply (wp_threadItem P); [done|by apply Hx|].
  intros t' H' Hl'. apply HQ; auto.
Qed.

Lemma wp_threadOwners P t s (Q : () → Threading → Prop) :
  inv P t → (∀ t', inv P t' → (∀ j, listed t j → listed t' j) → Q tt t') → wp (threadOwners items to s) t Q.
Proof using Hv Hto.
  intros Hi HQ. unfold threadOwners.
  assert (∀ a b, wp (threadTx items to a;; threadTx items to b) t Q) as Htwo.
  { intros a b. apply wp_bind. apply (wp_threadTx P); [done|]. intros t1 H1 L1. apply (wp_threadTx P); [done|].
    intros t2 H2 L2. apply HQ; auto. }
  destruct (_ =? ltACCOUNT_ROOT); [by apply wp_ret, HQ|]. destruct (_ =? ltSUSPAY); [apply Htwo|].
  destruct (_ =? ltRIPPLE_STATE); [apply Htwo|]. destruct (accounts _ !! _); [by apply (wp_threadTx P)|by apply wp_ret, HQ].
Qed.

(** An item has been looked at when its node has its kind. *)
Lemma inv_grow P t k a p :
  inv P t → items !! k = Some (a, p) → a ≠ cache →
  (a = insert_ → ∀ n, n ∈ mNodes (t_meta t) → n_index n = k → n_kind n = sfCreatedNode) →
  listed t k ∨ (a = modify ∧ ∀ s s0, t_store t !! p = Some s → c !! k = Some s0 → same_entry s s0 = true) →
  inv ({[k]} ∪ P) t.
Proof.
  intros [Hid Hst Hmods Hnd Hkind Hlists] Hk Ha Hins Hl. split; try done.
  - intros n Hn. pose proof (Hkind n Hn) as Hn'. unfold node_ok in *.
    destruct (items !! n_index n) as [[[] q]|] eqn:Ej; try done.
    intros [E%elem_of_singleton|?]%elem_of_union; [|by apply Hn']. apply Hins; [congruence|done|done].
  - intros j. specialize (Hlists j). unfold lists in *. destruct (decide (j = k)) as [->|Hne].
    + rewrite Hk in *. destruct a; [done| | |].
      * intros _. by destruct Hl as [?|[? _]].
      * intros _. by destruct Hl as [?|[? _]].
      * intros s s0 H1 H2 H3. destruct (Hlists s s0 H1 H2 H3) as [?|[H4 _]]; [by left|].
        destruct Hl as [?|[_ Hl]]; [by left|right]. split; [done|]. intros _. by apply Hl.
    + assert (j ∈ {[k]} ∪ P ↔ j ∈ P) as Hiff.
      { split; [by intros [?%elem_of_singleton|?]%elem_of_union|by apply elem_of_union_r]. }
      destruct (items !! j) as [[[] q]|]; rewrite ?Hiff; try done.
      intros s s0. rewrite Hiff. apply Hlists.
Qed.

Definition kind_of (a : Action) : NodeKind :=
  match a with insert_ => sfCreatedNode | erase_ => sfDeletedNode | _ => sfModifiedNode end.

Lemma wp_setAffected P t k a p ty (Q : () → Threading → Prop) :
  inv P t → items !! k = Some (a, p) → a ≠ cache →
  (∀ t', inv ({[k]} ∪ P) t' → t_store t' = t_store t → listed t' k → Q tt t') →
  wp (on_meta (setAffectedNode k (kind_of a) ty)) t Q.
Proof using Hv Hto.
  intros Hi Hk Ha HQ. unfold on_meta. apply wp_modify. set (t' := mkThreading _ _ _).
  assert (inv P t') as H1.
  { apply inv_at_node; [done|done|done|]. intros n <- _. unfold node_ok. simpl. rewrite Hk. destruct a; try done. split; [done|].
    destruct (known_base _ _ _ Hk) as (o & _ & Ho); [done|by exists o]. }
  assert (listed t' k) as Hl by (apply at_node_listed; [done|done|by right]).
  apply HQ; [|done|done]. eapply inv_grow; [done|done|done| |by left]. intros -> n Hn E.
  apply at_node_elem in Hn as [[_ ?]|(n0 & _ & _ & ->)]; [congruence|done|done|done|apply (inv_nodup _ _ Hi)].
Qed.

Lemma wp_describe P t k x y z (Q : () → Threading → Prop) :
  inv P t → listed t k → (∀ t', inv P t' → Q tt t') → wp (on_meta (describe k x y z)) t Q.
Proof.
  intros Hi Hl HQ. unfold on_meta. apply wp_modify, HQ. apply inv_at_node; [done|done|done|].
  intros n E [Hn|[_ ?]]; [|done]. by apply (inv_kind _ _ Hi n).
Qed.

Lemma wp_fetch_table P t k a p (Q : SLE STObject → Threading → Prop) :
  inv P t → items !! k = Some (a, p) → (∀ s s', store v !! p = Some s → t_store t !! p = Some s' → Q s' t) →
  wp (fetch_target (in_table p)) t Q.
Proof using Hv.
  intros Hi Hk HQ. destruct (known_store _ _ _ Hk) as (s & Hs & _).
  destruct (inv_store _ _ Hi p s Hs) as (s' & Hs' & _). unfold fetch_target. apply wp_bind, wp_gets.
  rewrite Hs'. by apply wp_ret, HQ with s.
Qed.

Lemma wp_when_threadItem P t k a p ty (Q : () → Threading → Prop) :
  inv P t → items !! k = Some (a, p) → a = insert_ ∨ a = modify →
  (∀ t', inv P t' → (∀ j, listed t j → listed t' j) → Q tt t') →
  wp (when (isThreadedType ty) (threadItem (in_table p))) t Q.
Proof using Hv Hto.
  intros Hi Hk Ha HQ. unfold when. destruct (isThreadedType ty); [|by apply wp_ret, HQ].
  eapply (wp_threadItem P _ _ k); [done| |done]. unfold valid. destruct Ha as [->| ->]; auto.
Qed.

Lemma wp_affected P t k a p (Q : () → Threading → Prop) :
  inv P t → items !! k = Some (a, p) → a ≠ cache →
  (∀ t', inv ({[k]} ∪ P) t' → Q tt t') → wp (affected items to k (kind_of a) p) t Q.
Proof using Hv Hto.
  intros Hi Hk Ha HQ. unfold affected. apply wp_bind. eapply wp_fetch_table; [done|done|]. intros s s' Hs Hs'.
  destruct a; [done| | |]; cbn [kind_of].
  - destruct (known_base _ _ _ Hk) as (o & -> & Ho); [done|].
    apply wp_bind. eapply (wp_setAffected P _ _ erase_); [done|done|done|]. intros t1 H1 _ L1.
    cbn [non_null]. apply wp_bind, wp_ret, wp_bind. eapply wp_threadOwners; [done|]. intros t2 H2 L2.
    apply wp_bind. eapply wp_fetch_table; [done|done|]. intros _ s2 _ _. eapply wp_describe; [done|by apply L2|done].
  - apply wp_bind. eapply (wp_setAffected P _ _ insert_); [done|done|done|]. intros t1 H1 _ L1.
    apply wp_bind. eapply wp_threadOwners; [done|]. intros t2 H2 L2.
    apply wp_bind. eapply wp_when_threadItem; [done|done|by left|]. intros t3 H3 L3.
    apply wp_bind. eapply wp_fetch_table; [done|done|]. intros _ s2 _ _. eapply wp_describe; [done|by apply L3, L2|done].
  - destruct (known_base _ _ _ Hk) as (o & -> & Ho); [done|]. cbn [non_null]. apply wp_bind, wp_ret.
    destruct (same_entry s' o) eqn:Esame.
    { apply wp_ret, HQ. eapply inv_grow; [done|done|done|done|]. right. split; [done|]. congruence. }
    apply wp_bind. eapply (wp_setAffected P _ _ modify); [done|done|done|]. intros t1 H1 _ L1.
    apply wp_bind. eapply wp_when_threadItem; [done|done|by right|]. intros t2 H2 L2.
    apply wp_bind. eapply wp_fetch_table; [done|done|]. intros _ s2 _ _. eapply wp_describe; [done|by apply L2|done].
Qed.

Lemma wp_affect_all l P t (Q : () → Threading → Prop) :
  inv P t → (∀ k i, (k, i) ∈ l → items !! k = Some i) →
  (∀ t', inv (list_to_set (map fst (filter (λ x, known x.2 = true) l)) ∪ P) t' → Q tt t') →
  wp (affect_all items to l) t Q.
Proof using Hv Hto.
  unfold affect_all. revert P t. induction l as [|[k [a p]] l IH]; intros P t Hi Hl HQ; cbn [foldM].
  { apply wp_ret, HQ. change (inv (∅ ∪ P) t). by rewrite (left_id_L ∅ (∪)). }
  assert (items !! k = Some (a, p)) as Hk by (apply Hl; by left).
  assert (∀ k i, (k, i) ∈ l → items !! k = Some i) as Hl' by (intros; apply Hl; by right).
  apply wp_bind. unfold affected_item at 1. cbn [fst snd]. rewrite filter_cons in HQ.
  destruct (decide (a = cache)) as [->|Ha].
  { apply wp_ret, (IH P); [done|done|]. intros t' H'. by apply HQ; rewrite decide_False. }
  rewrite decide_True in HQ by (unfold known; simpl; by rewrite bool_decide_false).
  cbn [map list_to_set fst] in HQ.
  assert (wp (affected items to k (kind_of a) p) t (λ x t', wp (foldM (λ _, affected_item items to) x l) t' Q)) as Hw.
  { eapply wp_affected; [done|done|done|]. intros t' H'. eapply IH; [done|done|]. intros t2 H2. apply HQ.
    by rewrite (comm_L _ {[k]}), <- (assoc_L _). }
  destruct a; [done|exact Hw..].
Qed.

(** The table before a transaction's changes are looked at. *)
Lemma inv_init deliver takers : inv ∅ (mkThreading (store v) (mkMeta txID seq [] deliver takers) ∅).
Proof.
  split; cbn [t_store t_mods t_meta mNodes]; try done.
  - intros p s Hs. exists s. split; [done|by left].
  - apply NoDup_nil_2.
  - by intros n ?%elem_of_nil.
  - intros k. unfold lists. cbn [t_store t_mods]. destruct (items !! k) as [[[] p]|]; try by intros ?%elem_of_empty.
    + intros. right. by left.
    + intros s s0 H1 H2 H3. right. split; [done|]. by intros ?%elem_of_empty.
    + intros. right. by left.
Qed.

(** The keys the transaction has changed. *)
Definition touched : gset Z := list_to_set (map fst (filter (λ x, known x.2 = true) (in_order items))).

Lemma affect_all_ok deliver takers :
  ∃ t, affect_all items to (in_order items) (mkThreading (store v) (mkMeta txID seq [] deliver takers) ∅) = Ok ((), t) ∧
    inv touched t.
Proof using Hv Hto.
  assert (wp (affect_all items to (in_order items)) (mkThreading (store v) (mkMeta txID seq [] deliver takers) ∅)
    (λ _ t, inv touched t)) as Hw.
  { eapply wp_affect_all; [apply inv_init|by intros k i Hin%elem_of_in_order|]. intros t'. by rewrite (right_id_L ∅ (∪)). }
  unfold wp in Hw. destruct (affect_all _ _ _ _) as [[[] t]|]; [|done]. by exists t.
Qed.

(** What the threading of other entries leaves of the base. *)
Lemma mods_base P t : inv P t → ledger_eq c (t_mods t ∪ c).
Proof using Hto.
  intros Hi k. rewrite lookup_union. destruct (t_mods t !! k) as [s'|] eqn:E.
  - destruct (inv_mods _ _ Hi k s' E) as (_ & s & -> & Ht).
    change (option_Forall2 thread_eq (Some s) (Some s')). constructor. by apply threads_eq.
  - assert (None ∪ c !! k = c !! k) as -> by by destruct (c !! k). by apply (reflexivity (R := ledger_eq) c).
Qed.

(** The view with the entries that were threaded, on the base that was. *)
Lemma threaded_view P t :
  inv P t →
  view_ok (t_mods t ∪ c) (set_store v (t_store t)) ∧
  ledger_eq (contents c v) (committed (t_mods t ∪ c) (set_store v (t_store t))).
Proof using Hv Hto Hclean.
  intros Hi. assert (∀ k, is_Some ((t_mods t ∪ c) !! k) ↔ is_Some (c !! k)) as Hdom.
  { intros k. pose proof (mods_base P t Hi k) as Hk. destruct Hk; by rewrite !is_Some_alt. }
  split.
  - intros k [a p] Hk. destruct (known_store _ _ _ Hk) as (s & Hs & E). pose proof (Hv _ _ Hk) as Hok.
    destruct (inv_store _ _ Hi p s Hs) as (s' & Hs' & Ht). unfold item_ok in *. simpl in *. rewrite Hs in Hok. rewrite Hs'.
    destruct (threads_eq _ _ Ht) as [-> _]. destruct Hok as [? Hok]. split; [done|].
    destruct a; try by apply Hdom. apply eq_None_not_Some. by rewrite Hdom, <- eq_None_not_Some.
  - rewrite <- (committed_clean c v Hv Hclean). intros k. unfold committed. rewrite !lookup_overlay.
    cbn [items_ set_store store]. destruct (filter _ (items_ v) !! k) as [[a p]|] eqn:Hk; [|by apply (mods_base P)].
    apply map_lookup_filter_Some in Hk as [Hk _]. destruct (known_store _ _ _ Hk) as (s & Hs & _).
    destruct (inv_store _ _ Hi p s Hs) as (s' & Hs' & Ht). unfold live. simpl. destruct (is_erase _); [constructor|].
    rewrite Hs, Hs'. constructor. by apply threads_eq.
Qed.

Lemma elem_of_touched k : k ∈ touched ↔ ∃ a p, items !! k = Some (a, p) ∧ a ≠ cache.
Proof.
  unfold touched. rewrite elem_of_list_to_set, list_elem_of_In, in_map_iff. split.
  - intros ([k' [a p]] & <- & Hin). apply list_elem_of_In, list_elem_of_filter in Hin as [Hn Hin%elem_of_in_order].
    exists a, p. split; [done|]. intros ->. done.
  - intros (a & p & Hk & Ha). exists (k, (a, p)). split; [done|]. apply list_elem_of_In, list_elem_of_filter.
    split; [unfold known; simpl; by rewrite bool_decide_false|]. by apply elem_of_in_order.
Qed.

(** What a node says happened to its entry. *)
Definition kind_for (before after : option (SLE STObject)) : NodeKind :=
  match before, after with
  | None, _ => sfCreatedNode
  | Some _, None => sfDeletedNode
  | Some _, Some _ => sfModifiedNode
  end.

Lemma known_before k a p : items !! k = Some (a, p) → a = insert_ ∧ c !! k = None ∨ a ≠ insert_ ∧ is_Some (c !! k).
Proof using Hv.
  intros Hk. pose proof (Hv _ _ Hk) as Hok. unfold item_ok in Hok. simpl in Hok.
  destruct (store v !! p) as [s|]; [|done]. destruct Hok as [_ Hok]. destruct a; auto.
Qed.

Lemma after_lookup k : contents c v !! k = match items !! k with Some (erase_, _) => None | Some (_, p) => store v !! p | None => c !! k end.
Proof. rewrite apply_contents_lookup. unfold live, is_erase. by destruct (items !! k) as [[[] p]|]. Qed.

(** The nodes are of entries that were there before or are there after, and of the
    kind that goes with that. *)
Lemma nodes_kind t n :
  inv touched t → n ∈ mNodes (t_meta t) →
  n_kind n = kind_for (c !! n_index n) (contents c v !! n_index n) ∧
  (is_Some (c !! n_index n) ∨ is_Some (contents c v !! n_index n)).
Proof using Hv.
  intros Hi Hn. pose proof (inv_kind _ _ Hi n Hn) as Hk. unfold node_ok in Hk. rewrite after_lookup.
  destruct (items !! n_index n) as [[a p]|] eqn:E; [|destruct Hk as [-> [s Hs]]; rewrite Hs; split; [done|by left]].
  destruct (known_store _ _ _ E) as (s & Hs & _). rewrite Hs.
  destruct (known_before _ _ _ E) as [[-> Hc]|[Ha [s0 Hc]]]; rewrite Hc.
  - split; [|by right]. apply Hk, elem_of_touched. eauto.
  - destruct a; try done; [destruct Hk as [-> _]|rewrite Hk|destruct Hk as [-> _]]; (split; [done|by left]).
Qed.

(** Entries that come or go have nodes. *)
Lemma nodes_created_deleted t k :
  inv touched t → (c !! k = None ↔ is_Some (contents c v !! k)) → listed t k.
Proof using Hv.
  intros Hi Hiff. pose proof (inv_lists _ _ Hi k) as Hl. unfold lists in Hl. rewrite after_lookup in Hiff.
  destruct (items !! k) as [[a p]|] eqn:E; [|exfalso; destruct (c !! k); [by discriminate (proj2 Hiff (mk_is_Some _ _ eq_refl))|by destruct (proj1 Hiff eq_refl)]].
  destruct (known_store _ _ _ E) as (s & Hs & _). rewrite Hs in Hiff.
  destruct (known_before _ _ _ E) as [[-> Hc]|[Ha [s0 Hc]]]; [apply Hl, elem_of_touched; eauto|].
  rewrite Hc in Hiff. destruct a; try done; try by discriminate (proj2 Hiff (mk_is_Some _ _ eq_refl)).
  apply Hl, elem_of_touched. eauto.
Qed.

(** An entry that is threaded already and has no node has not changed. *)
Lemma nodes_modified t k s s' :
  inv touched t → contents c v !! k = Some s → prev_id s ≠ 0 →
  committed (t_mods t ∪ c) (set_store v (t_store t)) !! k = Some s' → ¬ listed t k →
  ∃ s0, c !! k = Some s0 ∧ same_entry s' s0 = true.
Proof using Hv Hto Hclean.
  intros Hi Hs Hp Hs' Hno. pose proof (inv_lists _ _ Hi k) as Hl. unfold lists in Hl. rewrite after_lookup in Hs.
  unfold committed in Hs'. rewrite lookup_overlay in Hs'. cbn [items_ set_store store] in Hs'.
  assert (unknown k → contents c v !! k = c !! k → ∃ s0, c !! k = Some s0 ∧ same_entry s' s0 = true) as Hbase.
  { intros Hu Hc. rewrite after_lookup, Hs in Hc. symmetry in Hc. exists s. split; [done|].
    assert (t_mods t !! k = None ∨ t_mods t !! k = Some s) as Hm
      by (destruct Hu as [Hu|[q Hu]]; rewrite Hu in Hl; destruct (Hl s Hc Hp); [done|done|done|done]).
    rewrite map_lookup_filter_None_2 in Hs'
      by (destruct Hu as [Hu|[q Hu]]; [by left|right; intros x Hx; assert (x = (cache, q)) as -> by congruence; done]).
    rewrite lookup_union, Hc in Hs'.
    assert (s' = s) as -> by (destruct Hm as [Hm|Hm]; rewrite Hm in Hs'; by injection Hs').
    apply same_entry_refl. }
  destruct (items !! k) as [[a p]|] eqn:E; [|apply Hbase; [by left|by rewrite after_lookup, E]].
  destruct a; [|done| |].
  - apply Hbase; [right; eauto|]. rewrite after_lookup, E. by apply Hclean.
  - exfalso. apply Hno, Hl, elem_of_touched. eauto.
  - destruct (known_before _ _ _ E) as [[? _]|[_ [s0 Hc]]]; [done|]. exists s0. split; [done|].
    destruct (Hl s s0 Hs Hc Hp) as [?|[Ht He]]; [done|].
    erewrite map_lookup_filter_Some_2 in Hs'; [|done|done]. unfold live in Hs'. simpl in Hs'.
    assert (s' = s) as -> by congruence. apply He, elem_of_touched. eauto.
Qed.

End threading.

(** ** Into the open ledger *)

Section apply_tx.
Context `{Digest} `{Keys} `{MetaWire} {V V' : Type} {RV : ReadView STObject V}.
Abbreviation ledger := (Raw.OpenView STObject V).
Abbreviation open_holds := (RawFacts.open_holds (V := V)).

(** What writing entries leaves of an open ledger. *)
Definition same_txs (to to' : ledger) : Prop :=
  Raw.info_ to' = Raw.info_ to ∧ Raw.base_ to' = Raw.base_ to ∧ Raw.txs_ to' = Raw.txs_ to.

#[global] Instance same_txs_preorder : PreOrder same_txs.
Proof. split; [done|]. intros t1 t2 t3 (? & ? & ?) (? & ? & ?). split_and!; by etrans. Qed.

Lemma set_table_txs (to : ledger) f r : rmap (Raw.set_table to) f = Ok r → same_txs to r.
Proof. destruct f; [|done]. by intros [= <-]. Qed.

Lemma items_txs st l (to to' : ledger) : Apply.apply_items st to l = Ok to' → same_txs to to'.
Proof.
  revert to. induction l as [|[k [a p]] l IH]; simpl; intros to; [by intros [= <-]|].
  intros (to1 & E & E'%IH)%rbind_Ok_inv. etrans; [|exact E'].
  unfold Apply.apply_item in E. simpl in E. destruct a, (st !! p); try done; [by injection E as <-|by injection E as <-|..];
    by eapply set_table_txs.
Qed.

Lemma replace_all_ok l (to : ledger) c d :
  open_holds to c d → NoDup l.*1 → (∀ k s, (k, s) ∈ l → sle_key s = k ∧ is_Some (c !! k)) →
  ∃ to', replace_all to l = Ok to' ∧ open_holds to' (list_to_map l ∪ c) d ∧ same_txs to to'.
Proof.
  revert to c. induction l as [|[k s] l IH]; intros to c Ho Hnd Hl.
  { exists to. cbn [list_to_map foldr]. by rewrite (left_id_L ∅ (∪)). }
  rewrite fmap_cons in Hnd. apply NoDup_cons in Hnd as [Hni Hnd]. simpl in Hni.
  destruct (Hl k s) as [Ek Hk]; [by left|].
  destruct (rawReplace_ok (RawViewLaws := RawFacts.open_laws) to c d s Ho) as (to1 & E1 & Ho1); [by rewrite Ek|].
  destruct (IH to1 _ Ho1 Hnd) as (to2 & E2 & Ho2 & T2).
  { intros k' s' Hin. destruct (Hl k' s') as [? ?]; [by right|]. split; [done|].
    apply lookup_insert_is_Some'. by right. }
  exists to2. cbn [replace_all]. rewrite E1. cbn [rbind]. split; [done|]. split.
  - cbn [list_to_map foldr fst snd]. rewrite Ek in Ho2. rewrite <- insert_union_l, insert_union_r; [done|].
    by apply not_elem_of_list_to_map.
  - etrans; [exact (set_table_txs to _ _ E1)|done].
Qed.

(** A view, its transaction and what it did go into the ledger. *)
Lemma insert_apply_ok {W : Type} (v : ApplyView STObject W) (to : ledger) c d id bytes meta :
  open_holds to c d → view_ok c v → Raw.txs_ to !! id = None →
  ∃ to', rbind (Raw.rawTxInsert to id bytes meta) (λ to, Apply.apply v to) = Ok to' ∧
    open_holds to' (committed c v) (add_drops d (drops v)) ∧
    Raw.info_ to' = Raw.info_ to ∧ Raw.base_ to' = Raw.base_ to ∧ Raw.txs_ to' = <[id := (bytes, meta)]> (Raw.txs_ to).
Proof.
  intros Ho Hv Hid. unfold Raw.rawTxInsert. rewrite Hid. cbn [rbind]. set (to1 := Raw.mkOpen _ _ _ _).
  assert (holds (RawViewLaws := RawFacts.open_laws) to1 c d) as Ho1 by exact Ho.
  destruct (apply_committed v to1 c d Hv Ho1) as (to' & E & H').
  exists to'. split; [done|]. split; [done|]. apply (items_txs _ _ _ _ E).
Qed.

(** In a closed ledger the entries a change belongs to are threaded first. *)
Lemma apply_tx_closed (v : ApplyView STObject V') (to : ledger) tx ter deliver c d m :
  open_holds to c d → sees c ∅ v m → Raw.txs_ to !! getTransactionID tx = None → Raw.open (Raw.info_ to) = false →
  ∃ to' t index, apply_tx v to tx ter deliver = Ok to' ∧
    inv v c (getTransactionID tx) (Raw.seq (Raw.info_ to)) (touched v) t ∧
    open_holds to' (committed (t_mods t ∪ c) (set_store v (t_store t))) (add_drops d (drops v)) ∧
    ledger_eq m (committed (t_mods t ∪ c) (set_store v (t_store t))) ∧
    Raw.info_ to' = Raw.info_ to ∧ Raw.base_ to' = Raw.base_ to ∧
    Raw.txs_ to' = <[getTransactionID tx := (tx_bytes tx, Some (addRaw (t_meta t) ter index))]> (Raw.txs_ to).
Proof.
  intros Ho (Hv & Hcl & <-) Hid Eopen. unfold apply_tx. rewrite Eopen.
  assert (reads_as to c) as Hto by (destruct Ho as (c0 & ? & ? & -> & _); by apply RawFacts.open_reads).
  destruct (affect_all_ok v to c (getTransactionID tx) (Raw.seq (Raw.info_ to)) Hto Hv deliver (feeShareTakers_ v))
    as (t & -> & Hi). cbn [rbind fst snd].
  destruct (replace_all_ok (in_order (t_mods t)) to c d Ho) as (to1 & -> & Ho1 & (I1 & B1 & T1)).
  { apply in_order_nodup. }
  { intros k s' Hin%elem_of_in_order. destruct (inv_mods _ _ _ _ _ _ Hi k s' Hin) as (_ & s & Hs & Ht).
    destruct (threads_eq _ _ _ _ Ht) as [-> _]. split; [by apply (reads_keyed _ _ Hto)|by exists s]. }
  rewrite list_to_map_in_order in Ho1. cbn [rbind].
  destruct (threaded_view v to c _ _ Hto Hv Hcl _ t Hi) as [Hv' Hm].
  destruct (insert_apply_ok (set_store v (t_store t)) to1 _ d (getTransactionID tx) (tx_bytes tx)
    (Some (addRaw (t_meta t) ter (Z.of_nat (Raw.txCount to1)))) Ho1 Hv') as (to' & E & H' & I' & B' & T'); [by rewrite T1|].
  exists to', t, (Z.of_nat (Raw.txCount to1)). split; [exact E|]. split; [done|].
  split; [exact H'|]. split; [done|]. rewrite I', B', T'. by rewrite I1, B1, T1.
Qed.

(** The changes of a transaction always go in; in an open ledger as they are. *)
Lemma apply_tx_ok (v : ApplyView STObject V') (to : ledger) tx ter deliver c d m :
  open_holds to c d → sees c ∅ v m → Raw.txs_ to !! getTransactionID tx = None →
  ∃ to' m' meta, apply_tx v to tx ter deliver = Ok to' ∧ open_holds to' m' (add_drops d (drops v)) ∧
    ledger_eq m m' ∧ (Raw.open (Raw.info_ to) = true → m' = m) ∧
    Raw.info_ to' = Raw.info_ to ∧ Raw.base_ to' = Raw.base_ to ∧
    Raw.txs_ to' = <[getTransactionID tx := (tx_bytes tx, meta)]> (Raw.txs_ to).
Proof.
  intros Ho Hs Hid. destruct (Raw.open (Raw.info_ to)) eqn:Eopen.
  - destruct Hs as (Hv & Hcl & <-). unfold apply_tx. rewrite Eopen.
    destruct (insert_apply_ok v to c d _ (tx_bytes tx) None Ho Hv Hid) as (to' & E & H' & Ht).
    rewrite (committed_clean c v Hv Hcl) in H'. exists to', (contents c v), None. by rewrite E.
  - destruct (apply_tx_closed v to tx ter deliver c d m Ho Hs Hid Eopen) as (to' & t & i & E & _ & H' & Hm & Ht).
    by exists to', (committed (t_mods t ∪ c) (set_store v (t_store t))), (Some (addRaw (t_meta t) ter i)).
Qed.

End apply_tx.

End MetaFacts.
