(* ===== verification/Funds.v ===== *)
(** * The accounts of a ledger

    What every transaction may rely on and keeps: the balances of the accounts are
    native amounts that are not negative and together no more than there may be.
    The sum of the balances is what is in circulation. *)

From stdpp Require Import strings.
From S2P Require Import Prelude StateMonad Issue STAmount STAmountFacts Views Overlay ApplyStateTable ApplyFacts.
From S2P Require Import ViewLogic Objects Directory Indexes TrustLines LedgerFormats Transaction Metadata MetadataFacts Transactor.
Import ApplyFacts Obj Dir Idx Formats Tx Trust Meta MetaFacts Transact.

Open Scope Z_scope.

Module Funds.

Section funds.
Context `{Digest}.
Implicit Types (m : gmap Z (SLE STObject)) (s : SLE STObject) (o : STObject).

Definition balance_of o : Amt.STAmount := getFieldAmount sfBalance o.
Definition drops_of o : Z := AmtFacts.sv (balance_of o).

(** A native amount that is not negative. *)
Definition funded o : Prop :=
  AmtFacts.wf (balance_of o) ∧ Amt.mIsNative (balance_of o) = true ∧ 0 ≤ drops_of o.

Definition is_root s : bool := sle_type s =? ltACCOUNT_ROOT.

Definition xrp_of s : Z := if is_root s then drops_of (fields s) else 0.

(** The drops in circulation. *)
Definition total m : Z := map_fold (λ _ s n, xrp_of s + n) 0 m.

(** The number of things an account owns, of 32 bits. *)
Definition counted o : Prop := 0 ≤ getFieldU32 sfOwnerCount o < 2 ^ 32.

(** An entry is as the code leaves it. *)
Record entry_ok s : Prop := {
  entry_funded : is_root s = true → funded (fields s);
  entry_counted : is_root s = true → counted (fields s);
  entry_signers : sle_type s = ltSIGNER_LIST → arrays (fields s) !! sfSignerEntries ≠ Some []
}.

Record sound m : Prop := {
  sound_entries : map_Forall (λ _ s, entry_ok s) m;
  sound_roots a s : m !! getAccountRootIndex a = Some s → is_root s = true;
  sound_total : total m ≤ Amt.cMaxNativeN
}.

(** ** Sums *)

Lemma total_insert m k s : m !! k = None → total (<[k := s]> m) = xrp_of s + total m.
Proof using Type.
  intros Hk. unfold total. rewrite map_fold_insert_L; [done| |done]. intros; lia.
Qed.

Lemma total_delete m k s : m !! k = Some s → total m = xrp_of s + total (delete k m).
Proof using Type.
  intros Hk. rewrite <- (insert_delete_id m k s Hk) at 1. apply total_insert, lookup_delete_eq.
Qed.

Lemma total_update m k s s' : m !! k = Some s → total (<[k := s']> m) = total m - xrp_of s + xrp_of s'.
Proof using Type.
  intros Hk. rewrite (total_delete m k s Hk), <- insert_delete_eq, total_insert by apply lookup_delete_eq. lia.
Qed.

Lemma xrp_nonneg s : entry_ok s → 0 ≤ xrp_of s.
Proof using Type. intros [Hf _ _]. unfold xrp_of. destruct (is_root s); [|lia]. by apply Hf. Qed.

Lemma total_nonneg m : map_Forall (λ _ s, entry_ok s) m → 0 ≤ total m.
Proof using Type.
  induction m as [|k s m Hk IH] using map_ind; intros Hm; [by unfold total; rewrite map_fold_empty|].
  rewrite total_insert by done. apply map_Forall_insert in Hm as [Hs Hm]; [|done].
  pose proof (xrp_nonneg s Hs). specialize (IH Hm). lia.
Qed.

(** No account has more than there is. *)
Lemma xrp_le_total m k s : map_Forall (λ _ s, entry_ok s) m → m !! k = Some s → xrp_of s ≤ total m.
Proof using Type.
  intros Hm Hk. rewrite (total_delete m k s Hk).
  pose proof (total_nonneg (delete k m) (map_Forall_delete _ _ _ Hm)). lia.
Qed.

(** ** Threading *)

Lemma thread_entry s s' : thread_eq s s' → amounts (fields s') = amounts (fields s) ∧ arrays (fields s') = arrays (fields s) ∧
  sle_type s' = sle_type s.
Proof using Type. intros (_ & Ht & Hu). unfold unthreaded in Hu. by injection Hu as ?????????? ?. Qed.

Lemma thread_u32 s s' sf : thread_eq s s' → sf ≠ sfPreviousTxnLgrSeq → getFieldU32 sf (fields s') = getFieldU32 sf (fields s).
Proof using Type.
  intros (_ & _ & Hu) Hne. unfold unthreaded in Hu. injection Hu as _ _ Hu _ _ _ _ _ _ _ _. unfold getFieldU32.
  assert (∀ o, u32s o !! sf = delete sfPreviousTxnLgrSeq (u32s o) !! sf) as Hd by (intros; by rewrite lookup_delete_ne).
  by rewrite !Hd, Hu.
Qed.

Lemma thread_xrp s s' : thread_eq s s' → xrp_of s' = xrp_of s ∧ (entry_ok s → entry_ok s').
Proof using Type.
  intros Hst. pose proof (thread_u32 s s' sfOwnerCount Hst ltac:(done)) as Ho. destruct (thread_entry s s' Hst) as (Ha & Har & Ht).
  unfold xrp_of, drops_of, is_root, balance_of, getFieldAmount. rewrite Ha, Ht.
  split; [done|]. intros [Hf Hn Hs]. split; unfold is_root, funded, counted, drops_of, balance_of, getFieldAmount in *;
    by rewrite ?Ha, ?Har, ?Ht, ?Ho.
Qed.

Lemma total_ledger_eq m m' : ledger_eq m m' → total m' = total m.
Proof using Type.
  revert m'. induction m as [|k s m Hk IH] using map_ind; intros m' Hm.
  - assert (m' = ∅) as ->; [|done]. apply map_eq. intros k. specialize (Hm k). rewrite lookup_empty in *. by inversion Hm.
  - pose proof (Hm k) as Hks. rewrite lookup_insert_eq in Hks. inversion Hks as [? s' Ht E1 E2|]; subst. symmetry in E2.
    rewrite (total_delete m' k s' E2), total_insert by done.
    rewrite (IH (delete k m')); [by destruct (thread_xrp s s' Ht) as [-> _]|].
    intros j. destruct (decide (j = k)) as [->|Hne]; [rewrite lookup_delete_eq, Hk; constructor|].
    specialize (Hm j). by rewrite lookup_insert_ne, lookup_delete_ne in * by done.
Qed.

Lemma sound_ledger_eq m m' : ledger_eq m m' → sound m → sound m'.
Proof using Type.
  intros Hm [He Hr Ht]. split.
  - intros k s' Hs'. specialize (Hm k). rewrite Hs' in Hm. inversion Hm as [s ? Hst E1 E2|]; subst.
    apply (thread_xrp s s' Hst). by apply (He k).
  - intros a s' Hs'. specialize (Hm (getAccountRootIndex a)). rewrite Hs' in Hm. inversion Hm as [s ? Hst E1 E2|]; subst.
    unfold is_root. destruct (thread_entry s s' Hst) as (_ & _ & ->). by apply (Hr a).
  - by rewrite (total_ledger_eq m m').
Qed.

(** ** Accounts *)

Definition root_of m (a : AccountID) : option STObject := fields <$> lookup_keylet m (keylet.account a).

Definition seq_of m (a : AccountID) : option Z := getFieldU32 sfSequence <$> root_of m a.

Lemma root_lookup m a : sound m → lookup_keylet m (keylet.account a) = m !! getAccountRootIndex a.
Proof using Type.
  intros Hm. unfold lookup_keylet. simpl. destruct (m !! _) as [s|] eqn:E; [|done].
  pose proof (sound_roots m Hm a s E) as Hr. unfold is_root in Hr. unfold check. simpl. by rewrite Hr.
Qed.

Lemma seq_ledger_eq m m' a : ledger_eq m m' → sound m → seq_of m' a = seq_of m a.
Proof using Type.
  intros Hm Hs. unfold seq_of, root_of. rewrite !root_lookup by (done || by eapply sound_ledger_eq).
  destruct (Hm (getAccountRootIndex a)) as [s s' Hst|]; [|done]. simpl. f_equal. by apply thread_u32.
Qed.

End funds.

End Funds.
