(* ===== verification/TransactorFacts.v ===== *)
(** * What becomes of a transaction

    Charging the fee, the sequence number, and the ways a transaction ends: not
    applied, applied, or only its fee claimed. *)

From stdpp Require Import strings.
From S2P Require Import Prelude StateMonad Issue Decimal STAmount STAmountFacts BigNum STAmountArith Views Overlay RawStateTable RawFacts.
From S2P Require Import ApplyStateTable ApplyFacts ViewLogic Objects Directory Indexes TrustLines LoadFeeTrack Transaction HashRouter.
From S2P Require Import LedgerFormats Metadata Transactor MetadataFacts Funds.
Import Apply ApplyFacts VL Dir Idx Tx Trust Obj Transact MetaFacts Funds.

Open Scope Z_scope.
Open Scope prog_scope.

Module TxFacts.

(** ** Amounts *)

Lemma max_native : Amt.cMaxNativeN < 2 ^ 62.
Proof. by vm_compute. Qed.

(** Drops as an amount. *)
Definition xrp_amount (d : Z) : Amt.STAmount := Amt.mkAmt xrpIssue d 0 true false.

Lemma xrp_native b :
  AmtFacts.wf b → Amt.mIsNative b = true → Amt.xrp b = Ok (Amt.mkXRP (AmtFacts.sv b) false).
Proof.
  intros [_ Hb] Hn. unfold Amt.xrp, AmtFacts.sv. rewrite Hn in *. destruct Hb as (_ & Hv & _).
  pose proof max_native. cbn [negb]. by rewrite i64_id by lia.
Qed.

Lemma of_xrp_ok d : 0 ≤ d ≤ Amt.cMaxNativeN → Amt.of_xrp (Amt.mkXRP d false) = Ok (xrp_amount d).
Proof.
  intros Hd. pose proof max_native. unfold Amt.of_xrp. cbn [Amt.drops_ Amt.isVBC_].
  rewrite (proj2 (Z.ltb_ge d 0)), u64_id by lia. unfold Amt.canonicalize, Amt.amt_isNative. cbn [Amt.mIssue Amt.mValue].
  rewrite (eq_refl : isNative (currency xrpIssue) = true).
  destruct (Z.eqb_spec d 0) as [->|Hne]; [done|].
  cbn [Amt.mOffset Amt.mIsNegative]. change (Amt.native_down d 0) with (d, 0). cbn beta iota. change (Amt.native_up d 0) with (d, 0). cbn beta iota.
  by rewrite (proj2 (Z.ltb_ge Amt.cMaxNativeN d)) by lia.
Qed.

Lemma xrp_amount_wf d : 0 ≤ d ≤ Amt.cMaxNativeN → AmtFacts.wf (xrp_amount d) ∧ AmtFacts.sv (xrp_amount d) = d.
Proof. intros Hd. split; [|done]. split; [done|]. simpl. split_and!; done || lia. Qed.

Section facts.
Context `{Dg : Digest} {V : Type} {RV : ReadView STObject V}.
Abbreviation ledger := (Raw.OpenView STObject V).
Implicit Types (m c : gmap Z (SLE STObject)) (s : SLE STObject) (o : STObject) (base : ledger).

Lemma funded_xrp o : funded o → Amt.xrp (balance_of o) = Ok (Amt.mkXRP (drops_of o) false).
Proof using Type. intros (Hw & Hn & _). by apply xrp_native. Qed.

Definition paid_down (d : Z) o : STObject := setFieldAmount sfBalance (xrp_amount d) o.

Lemma paid_down_funded d o : 0 ≤ d ≤ Amt.cMaxNativeN → funded (paid_down d o) ∧ drops_of (paid_down d o) = d.
Proof using Type.
  intros Hd. unfold funded, drops_of, balance_of, getFieldAmount, paid_down. simpl. rewrite lookup_insert_eq. simpl.
  destruct (xrp_amount_wf d Hd) as [? ->]. split_and!; done || lia.
Qed.

(** ** A fresh view *)

Lemma fresh_state base c : reads_as base c → state c (apply_view base) c ∅ ∅ ∅ (apply_view base).
Proof using Type.
  intros Hb. split; [done| |done|by intros ? ?%elem_of_empty].
  split; [|split]; [by apply map_Forall_empty|done|].
  apply map_eq. intros k. by rewrite apply_contents_lookup.
Qed.

(** ** Accounts that change *)

(** The balance of one account changes. *)
Lemma sound_update m k s f :
  sound m → m !! k = Some s → is_root s = true → funded (f (fields s)) → counted (f (fields s)) →
  total m - drops_of (fields s) + drops_of (f (fields s)) ≤ Amt.cMaxNativeN →
  sound (<[k := with_fields s f]> m) ∧
  total (<[k := with_fields s f]> m) = total m - drops_of (fields s) + drops_of (f (fields s)).
Proof using Type.
  intros [He Hr Ht] Hk Hs Hf Hn Hle.
  assert (total (<[k := with_fields s f]> m) = total m - drops_of (fields s) + drops_of (f (fields s))) as E.
  { rewrite (total_update m k s) by done. unfold xrp_of, with_fields, is_root in *. cbn [sle_type]. by rewrite Hs. }
  split; [|done]. split; [| |lia].
  - apply map_Forall_insert_2; [|done]. split; [done|done|]. unfold is_root in Hs. apply Z.eqb_eq in Hs.
    cbn [sle_type with_fields]. by rewrite Hs.
  - intros a s'. intros [[_ <-]|[_ ?]]%lookup_insert_Some; [done|by apply (Hr a)].
Qed.

Lemma root_of_update m k s f a :
  sound m → sound (<[k := with_fields s f]> m) → m !! k = Some s →
  root_of (<[k := with_fields s f]> m) a = if decide (getAccountRootIndex a = k) then Some (f (fields s)) else root_of m a.
Proof using Type.
  intros Hm Hm' Hk. unfold root_of. rewrite !root_lookup by done. case_decide as E.
  - by rewrite E, lookup_insert_eq.
  - by rewrite lookup_insert_ne.
Qed.

(** ** Claiming a fee *)

Section charge.
Context (tx : STTx) (base : ledger) (c : gmap Z (SLE STObject)) (s : SLE STObject).
Abbreviation key := (getAccountRootIndex (tx_account tx)).
Abbreviation v0 := (apply_view base).
Context (Hb : reads_as base c) (Hc : sound c) (Hs : c !! key = Some s).

Lemma source_root : is_root s = true.
Proof using Hc Hs. by apply (sound_roots c Hc (tx_account tx)). Qed.

Lemma source_lookup : lookup_keylet c (keylet.account (tx_account tx)) = Some s.
Proof using Hc Hs. by rewrite root_lookup. Qed.

Lemma source_funded : funded (fields s).
Proof using Hc Hs. apply (entry_funded s); [by apply (sound_entries c Hc key)|apply source_root]. Qed.

Lemma source_range : 0 ≤ drops_of (fields s) ≤ Amt.cMaxNativeN.
Proof using Hc Hs.
  pose proof (xrp_le_total c key s (sound_entries c Hc) Hs) as Hle. unfold xrp_of in Hle. rewrite source_root in Hle.
  pose proof (sound_total c Hc). destruct source_funded as (_ & _ & ?). lia.
Qed.

(** The source once the fee has been claimed: its balance and its sequence number
    are all that changes. *)
Definition claimed (rest : Z) o : STObject := setFieldU32 sfSequence (u32 (getSequence tx + 1)) (paid_down rest o).

Lemma claim_fee_ok fee oversize :
  0 ≤ fee →
  wp (claim_fee tx oversize [] fee) v0 (λ charged v,
    charged = Z.min fee (drops_of (fields s)) ∧
    ∃ hs D, state c v0 (<[key := with_fields s (claimed (drops_of (fields s) - charged))]> c) hs ∅ D v).
Proof using Hb Hc Hs.
  intros Hfee. pose proof source_range as Hr. pose proof max_native. unfold claim_fee.
  eapply (wp_peek_some c v0 Hb); [by apply fresh_state|apply source_lookup|]. intros p v1 _ H1. cbn [non_null k_key keylet.account] in *.
  apply wp_bind, wp_ret. eapply wp_get_bind; [done|apply lookup_insert_eq|done|]. fold (balance_of (fields s)).
  eapply wp_lift; [apply funded_xrp, source_funded|]. cbn [Amt.drops_].
  set (charged := if _ <? _ then _ else _). assert (charged = Z.min fee (drops_of (fields s))) as ->.
  { unfold charged. destruct (Z.ltb_spec (drops_of (fields s)) fee); lia. }
  rewrite i64_id by lia. eapply wp_lift; [apply of_xrp_ok; lia|].
  apply wp_bind. eapply wp_set; [done|apply lookup_insert_eq|done|]. intros v2 H2. rewrite (right_id_L ∅ (∪)) in H2.
  eapply wp_set_pending; [done|apply lookup_insert_eq|apply lookup_insert_eq|by apply elem_of_singleton|]. intros v3 H3.
  rewrite insert_insert_eq in H3. apply wp_bind. apply wp_when; [intros _; cbn [removeUnfundedOffers]; apply wp_ret|intros _];
    (apply wp_bind; eapply wp_update; [done|apply lookup_insert_eq|apply lookup_insert_eq|]; intros v4 H4;
     apply wp_ret; split; [done|]; rewrite difference_diag_L in H4; by eauto).
Qed.

(** ** Charging the fee *)

Context (config : Config) (info : Trust.LedgerInfo) (fee : Z).
Context (Hfee : Amt.xrp (getFieldAmount sfFee (tx_fields tx)) = Ok (Amt.mkXRP fee false)).
Context (Hfees : 0 ≤ fee ≤ drops_of (fields s)) (Hring : getTxnType tx ≠ ttRING_DEPOSIT).

(** What is set when an account keeps track of its last transaction. *)
Definition tracked o : STObject :=
  if present (h256s o) sfAccountTxnID then setFieldH256 sfAccountTxnID (getTransactionID tx) o else o.

(** The source once its transaction is being applied. *)
Definition charged o : STObject :=
  paid_down (drops_of (fields s) - fee) (tracked (setFieldU32 sfSequence (u32 (getSequence tx + 1)) o)).

Lemma setSeq_ok hs v (Q : () → ApplyView STObject ledger → Prop) :
  state c v0 c hs ∅ ∅ v →
  (∀ hs' v', hs ⊆ hs' →
     state c v0 (<[key := with_fields s (λ o, tracked (setFieldU32 sfSequence (u32 (getSequence tx + 1)) o))]> c) hs' {[key]} ∅ v' → Q tt v') →
  wp (setSeq tx) v Q.
Proof using Hb Hc Hs.
  intros Hst HQ. unfold setSeq. eapply (wp_peek_some c v0 Hb); [done|apply source_lookup|]. intros p v1 Hsub H1.
  cbn [non_null k_key keylet.account] in *. apply wp_bind, wp_ret.
  apply wp_bind. eapply wp_set; [done|apply lookup_insert_eq|done|]. intros v2 H2. rewrite (right_id_L ∅ (∪)) in H2.
  eapply wp_get_bind; [done|apply lookup_insert_eq|apply lookup_insert_eq|].
  cbn [fields with_fields]. unfold tracked in HQ. set (o := setFieldU32 _ _ (fields s)) in *.
  assert (with_fields s (λ o, if present (h256s (setFieldU32 sfSequence (u32 (getSequence tx + 1)) o)) sfAccountTxnID
            then setFieldH256 sfAccountTxnID (getTransactionID tx) (setFieldU32 sfSequence (u32 (getSequence tx + 1)) o)
            else setFieldU32 sfSequence (u32 (getSequence tx + 1)) o) =
          with_fields s (λ _, if present (h256s o) sfAccountTxnID then setFieldH256 sfAccountTxnID (getTransactionID tx) o else o))
    as E by done. rewrite E in HQ. apply wp_when; intros Ep; rewrite Ep in HQ.
  - eapply wp_set; [done|apply lookup_insert_eq|apply lookup_insert_eq|]. intros v3 H3.
    rewrite already_pending, insert_insert_eq in H3 by by apply elem_of_singleton. by eapply HQ.
  - by eapply HQ.
Qed.

Lemma source_left : 0 ≤ drops_of (fields s) - fee ≤ Amt.cMaxNativeN.
Proof using Hc Hs Hfees. pose proof source_range. lia. Qed.

Lemma payFee_ok f hs v (Q : TER * Z → ApplyView STObject ledger → Prop) :
  state c v0 (<[key := with_fields s f]> c) hs {[key]} ∅ v →
  (∀ hs' v', hs ⊆ hs' →
     state c v0 (<[key := with_fields s (λ o, paid_down (drops_of (fields s) - fee) (f o))]> c) hs' {[key]} ∅ v' →
     Q (tesSUCCESS, drops_of (fields s) - fee) v') →
  wp (payFee config info tx (drops_of (fields s))) v Q.
Proof using Hb Hc Hs Hfee Hfees Hring.
  intros Hst HQ. pose proof source_left as Hl. pose proof source_range. pose proof max_native. unfold payFee.
  eapply wp_lift; [exact Hfee|]. rewrite bool_decide_false by done.
  assert (lookup_keylet (<[key := with_fields s f]> c) (keylet.account (tx_account tx)) = Some (with_fields s f)) as Hk.
  { unfold lookup_keylet. cbn [k_key keylet.account]. rewrite lookup_insert_eq. unfold check. simpl.
    pose proof source_root as Hroot. unfold is_root in Hroot. by rewrite Hroot. }
  eapply (wp_peek_some c v0 Hb); [done|exact Hk|]. intros p v1 Hsub H1. cbn [non_null k_key keylet.account Amt.drops_] in *.
  apply wp_bind, wp_ret. rewrite i64_id by lia. eapply wp_lift; [by apply of_xrp_ok|].
  eapply wp_set_pending; [done|apply lookup_insert_eq|apply lookup_insert_eq|by apply elem_of_singleton|]. intros v2 H2.
  rewrite insert_insert_eq in H2. apply wp_ret. by eapply HQ.
Qed.

(** A transaction is applied to the ledger in which its fee has been paid and its
    sequence number used. *)
Lemma apply_charged (feeTrack : LoadFee.LoadFeeTrack) (fees : Fees) (T : Transactor) rules flags baseFee :
  ∃ hs v, state c v0 (<[key := with_fields s charged]> c) hs ∅ {[key]} v ∧
    Transact.apply config feeTrack fees T info rules flags tx baseFee v0 =
    t_doApply T info rules flags tx
      (mkState (tx_account tx) (Amt.drops_ (calculateFee feeTrack fees baseFee flags)) (drops_of (fields s)) (drops_of (fields s) - fee)) v.
Proof using Hb Hc Hs Hfee Hfees Hring.
  unfold Transact.apply. set (doApply := t_doApply T info rules flags tx). clearbody doApply.
  match goal with |- ∃ hs v, _ ∧ ?r = doApply ?st v =>
    change ((λ x, ∃ hs v, state c v0 (<[key := with_fields s charged]> c) hs ∅ {[key]} v ∧ x = doApply st v) r) end.
  apply wp_then. eapply (wp_peek c v0 Hb); [by apply fresh_state|by rewrite source_lookup|]. intros s1 p v1 _ _ H1.
  cbn [k_key keylet.account] in *.
  apply wp_then. eapply wp_get; [done|apply lookup_insert_eq|done|]. fold (balance_of (fields s)).
  apply wp_then. eapply wp_of_run; [unfold lift; by rewrite (funded_xrp _ source_funded)|]. cbn [Amt.drops_].
  apply wp_then. eapply setSeq_ok; [done|]. intros hs2 v2 Hsub2 H2.
  apply wp_then. eapply payFee_ok; [done|]. intros hs3 v3 Hsub3 H3. cbn [fst snd].
  change (is_success tesSUCCESS) with true. cbn [negb].
  apply wp_then. eapply wp_update; [done| |apply lookup_insert_eq|].
  { eapply lookup_weaken; [|etrans; [exact Hsub2|exact Hsub3]]. apply lookup_insert_eq. }
  intros v4 H4. rewrite difference_diag_L, (right_id_L ∅ (∪)) in H4. exists hs3, v4. split; [done|reflexivity].
Qed.

End charge.

(** ** What a type of transaction promises *)

(** An exception that is caught, as opposed to a call of [LogicError]. *)
Definition caught (e : exn) : bool := match e with LogicError _ | Undefined _ => false | _ => true end.

Definition safe {A} (r : result A) (P : A → Prop) : Prop :=
  match r with Ok a => P a | Throw e => caught e = true end.

Lemma catch_safe {A} (r : result A) (P : A → Prop) d : safe r P → P d → ∃ a, catch_std r d = Ok a ∧ P a.
Proof using Type. destruct r as [a|e]; simpl; [by exists a|]. intros He Hd. exists d. by destruct e. Qed.

Lemma safe_bind {A B} (r : result A) (f : A → result B) (P : A → Prop) (Q : B → Prop) :
  safe r P → (∀ a, P a → safe (f a) Q) → safe (rbind r f) Q.
Proof using Type. destruct r; simpl; auto. Qed.

(** No entry goes away. *)
Definition grows m m' : Prop := ∀ k, is_Some (m !! k) → is_Some (m' !! k).

(** The drops and the sequence numbers stay. *)
Record kept m m' : Prop := {
  kept_sound : sound m';
  kept_total : total m' = total m;
  kept_seq a n : seq_of m a = Some n → seq_of m' a = Some n
}.

(** The source has paid its fee. *)
Record paid_for (tx : STTx) m (st : State) : Prop := {
  pf_account : account_ st = tx_account tx;
  pf_fee : ∃ fee, Amt.xrp (getFieldAmount sfFee (tx_fields tx)) = Ok (Amt.mkXRP fee false) ∧ 0 ≤ fee ∧
    mPriorBalance st = mSourceBalance st + fee;
  pf_source : ∃ o, root_of m (tx_account tx) = Some o ∧ drops_of o = mSourceBalance st
}.

(** The checks without a ledger have been passed. *)
Definition checked (T : Transactor (V := V)) (tx : STTx) : Prop :=
  ∃ rules flags router router', t_preflight T rules flags tx router = Ok (tesSUCCESS, router').

Class Lawful (T : Transactor (V := V)) (tx : STTx) : Prop := {
  lawful_preflight rules flags router :
    safe (t_preflight T rules flags tx router)
      (λ r, likelyToClaimFee r.1 = true → r.1 = tesSUCCESS ∧ preflight1 tx = Ok tesSUCCESS);
  lawful_preclaim view c flags :
    reads_as view c → sound c → is_Some (root_of c (tx_account tx)) → checked T tx →
    safe (t_preclaim T view flags tx) (λ _, True);
  lawful_doApply info rules flags st c (v0 v : ApplyView STObject ledger) m hs D :
    checked T tx → reads_as (base_ v0) c → sound m → state c v0 m hs ∅ D v → getAccountRootIndex (tx_account tx) ∈ D →
    paid_for tx m st →
    safe (t_doApply T info rules flags tx st v) (λ r, ∃ m' hs' K D', state c v0 m' hs' K D' r.2 ∧ grows m m' ∧
      (r.1.1 = tesSUCCESS → K = ∅ ∧ kept m m'))
}.

(** ** Oversized transactions *)

(** Where nothing goes away there is no offer to remove once more. *)
Lemma no_removed_offers base c (v0 v : ApplyView STObject ledger) m hs K D : state c v0 m hs K D v → grows c m → removed_offers (Apply.visit v base) = [].
Proof using Type.
  intros Hst Hg. destruct (st_sees _ _ _ _ _ _ _ Hst) as (Hv & _ & Hm).
  assert (∀ k i, (k, i) ∈ in_order (items_ v) → i.1 ≠ erase_) as Hno.
  { intros k [a p] Hin%elem_of_in_order E. simpl in E. subst a. pose proof (Hv _ _ Hin) as Hok. unfold item_ok in Hok. simpl in Hok.
    destruct (store v !! p) as [e|]; [|done]. destruct Hok as [_ Hok]. apply Hg in Hok as [s Hok].
    rewrite <- Hm, apply_contents_lookup, Hin in Hok. done. }
  unfold Apply.visit, removed_offers. revert Hno. generalize (in_order (items_ v)). intros l. induction l as [|[k [a p]] l IH]; [done|].
  intros Hno. assert (∀ k i, (k, i) ∈ l → i.1 ≠ erase_) as Hl by (intros; eapply Hno; by right).
  pose proof (Hno k (a, p) ltac:(by left)) as Ha. simpl in Ha. simpl. destruct a; try done; simpl; by apply IH.
Qed.

(** ** The outcome *)

Section outcome.
Context (config : Config) (feeTrack : LoadFee.LoadFeeTrack) (fees : Fees) (T : Transactor (V := V)) (tx : STTx) {HT : Lawful T tx}.
Context (base : ledger) (c : gmap Z (SLE STObject)) (s : SLE STObject) (fee : Z).
Abbreviation key := (getAccountRootIndex (tx_account tx)).
Abbreviation v0 := (apply_view base).
Context (Hb : reads_as base c) (Hc : sound c) (Hs : c !! key = Some s).
Context (Hfee : Amt.xrp (getFieldAmount sfFee (tx_fields tx)) = Ok (Amt.mkXRP fee false)) (Hfee0 : 0 ≤ fee).
Context (Hring : getTxnType tx ≠ ttRING_DEPOSIT) (Hchecked : checked T tx).

(** What an applied transaction has done: the sequence number of the source has
    been used, the fee is gone, and nothing else if it only claimed the fee. *)
Record outcome (ter : TER) (charge : Z) m' : Prop := {
  out_sound : sound m';
  out_total : total m' = total c - charge;
  out_charge : 0 ≤ charge ≤ fee;
  out_source : seq_of m' (tx_account tx) = Some (u32 (getSequence tx + 1));
  out_others a n : getAccountRootIndex a ≠ key → seq_of c a = Some n → seq_of m' a = Some n;
  out_ter : if isTecClaim ter
    then charge = Z.min fee (drops_of (fields s)) ∧
      m' = <[key := with_fields s (claimed tx (drops_of (fields s) - charge))]> c
    else ter = tesSUCCESS ∧ charge = fee
}.

Lemma update_outcome f rest :
  0 ≤ rest ≤ drops_of (fields s) → funded (f (fields s)) → drops_of (f (fields s)) = rest →
  getFieldU32 sfOwnerCount (f (fields s)) = getFieldU32 sfOwnerCount (fields s) →
  sound (<[key := with_fields s f]> c) ∧ total (<[key := with_fields s f]> c) = total c - (drops_of (fields s) - rest) ∧
  root_of (<[key := with_fields s f]> c) (tx_account tx) = Some (f (fields s)) ∧
  ∀ a, getAccountRootIndex a ≠ key → root_of (<[key := with_fields s f]> c) a = root_of c a.
Proof using Hc Hs.
  intros Hrest Hf Hd Hn. pose proof (sound_total c Hc). pose proof (source_root tx c s Hc Hs) as Hroot.
  destruct (sound_update c key s f Hc Hs Hroot Hf) as [Hm Ht]; [|lia|].
  { unfold counted. rewrite Hn. by apply (entry_counted s); [apply (sound_entries c Hc key)|]. }
  split; [done|]. split; [lia|]. split; [|intros a Ha]; rewrite root_of_update by done; by case_decide.
Qed.

Lemma seq_set o n : getFieldU32 sfSequence (setFieldU32 sfSequence n o) = n.
Proof using Type. unfold getFieldU32. simpl. by rewrite lookup_insert_eq. Qed.

Lemma u32_set_ne sf sf' n o : sf ≠ sf' → getFieldU32 sf' (setFieldU32 sf n o) = getFieldU32 sf' o.
Proof using Type. intros Hne. unfold getFieldU32. simpl. by rewrite lookup_insert_ne. Qed.

Lemma claim_outcome ter charge :
  charge = Z.min fee (drops_of (fields s)) → isTecClaim ter = true →
  outcome ter charge (<[key := with_fields s (claimed tx (drops_of (fields s) - charge))]> c).
Proof using Hc Hs Hfee0.
  intros Hch Hter. pose proof (source_range tx c s Hc Hs) as Hr.
  destruct (paid_down_funded (drops_of (fields s) - charge) (fields s)) as [Hf Hd]; [lia|].
  destruct (update_outcome (claimed tx (drops_of (fields s) - charge)) (drops_of (fields s) - charge)) as (H1 & H2 & H3 & H4);
    [lia|done|done|unfold claimed; by rewrite u32_set_ne|].
  split; [done|lia|lia| | |by rewrite Hter].
  - unfold seq_of. rewrite H3. simpl. f_equal. apply seq_set.
  - intros a n Ha. unfold seq_of. by rewrite H4.
Qed.

Lemma charged_outcome :
  fee ≤ drops_of (fields s) →
  let m1 := <[key := with_fields s (charged tx s fee)]> c in
  sound m1 ∧ total m1 = total c - fee ∧ seq_of m1 (tx_account tx) = Some (u32 (getSequence tx + 1)) ∧
  (∀ a n, getAccountRootIndex a ≠ key → seq_of c a = Some n → seq_of m1 a = Some n) ∧ grows c m1 ∧
  ∃ o, root_of m1 (tx_account tx) = Some o ∧ drops_of o = drops_of (fields s) - fee.
Proof using Hc Hs Hfee0.
  intros Hle m1. pose proof (source_range tx c s Hc Hs) as Hr. unfold charged in m1.
  match goal with m1 := <[_ := with_fields s ?f]> c |- _ => set (f1 := f) in * end.
  destruct (paid_down_funded (drops_of (fields s) - fee)
    (tracked tx (setFieldU32 sfSequence (u32 (getSequence tx + 1)) (fields s)))) as [Hf Hd]; [lia|].
  destruct (update_outcome f1 (drops_of (fields s) - fee)) as (H1 & H2 & H3 & H4); [lia|done|done| |].
  { unfold f1, paid_down, tracked. destruct (present _ _); by apply (u32_set_ne sfSequence sfOwnerCount _ (fields s)). }
  split; [done|]. split; [unfold m1; lia|]. split_and!.
  - unfold seq_of, m1. rewrite H3. simpl. f_equal. unfold f1, paid_down, tracked.
    destruct (present _ _); unfold getFieldU32; simpl; by rewrite lookup_insert_eq.
  - intros a n Ha. unfold seq_of, m1. by rewrite H4.
  - intros k Hk. unfold m1. apply lookup_insert_is_Some'. by right.
  - by eexists.
Qed.

Lemma tes_success ter : isTesSuccess ter = true → ter = tesSUCCESS.
Proof using Type. intros E%Z.eqb_eq. by apply ter_code_inj. Qed.

(** What is left to decide on: the changes of the transaction, or none. *)
Lemma attempt_ok info rules flags pr baseFee :
  (pr = tesSUCCESS → fee ≤ drops_of (fields s)) →
  safe (if is_success pr then Transact.apply config feeTrack fees T info rules flags tx baseFee v0 else Ok ((pr, None), v0))
    (λ r, ∃ m hs K D, state c v0 m hs K D r.2 ∧ grows c m ∧ (r.1.1 = tesSUCCESS → K = ∅ ∧ outcome tesSUCCESS fee m)).
Proof using HT Hb Hc Hs Hfee Hfee0 Hring Hchecked.
  intros Hpr. unfold is_success. case_bool_decide as E.
  2:{ exists c, ∅, ∅, ∅. split; [by apply fresh_state|]. split; [by intros ?|]. by intros ?%E. }
  specialize (Hpr E). destruct (charged_outcome Hpr) as (H1 & H2 & H3 & H4 & H5 & o & H6 & H7).
  destruct (apply_charged tx base c s Hb Hc Hs config info fee Hfee (conj Hfee0 Hpr) Hring feeTrack fees T rules flags baseFee)
    as (hs & v & Hst & ->).
  set (st := mkState _ _ _ _). assert (paid_for tx (<[key := with_fields s (charged tx s fee)]> c) st) as Hpaid.
  { split; [done| |by exists o]. exists fee. split_and!; [done|done|]. simpl. lia. }
  pose proof (lawful_doApply info rules flags st c v0 v _ hs {[key]} Hchecked Hb H1 Hst
    (proj2 (elem_of_singleton _ _) eq_refl) Hpaid) as Hlaw.
  destruct (t_doApply T info rules flags tx st v) as [[[ter deliver] v']|e]; cbn [safe fst snd] in *; [|done].
  destruct Hlaw as (m' & hs' & K & D' & Hst' & Hg & Hk).
  exists m', hs', K, D'. split; [done|]. split; [intros k Hk'; by apply Hg, H5|]. intros Hter.
  destruct (Hk Hter) as [-> [K1 K2 K3]]. split; [done|]. split; [done|by rewrite K2|lia| |by eauto|done]. by apply K3.
Qed.

Lemma decide_ok info rules flags pr baseFee :
  (pr = tesSUCCESS → fee ≤ drops_of (fields s)) →
  safe (decide_ config feeTrack fees T info rules flags tx base pr baseFee) (λ r,
    match r.2 with
    | None => True
    | Some (v, charge, _) => ∃ m' hs D, state c v0 m' hs ∅ D v ∧ outcome r.1 charge m'
    end).
Proof using HT Hb Hc Hs Hfee Hfee0 Hring Hchecked.
  intros Hpr. unfold decide_. eapply safe_bind; [by apply attempt_ok|].
  intros [[ter deliver] v] (m & hs & K & D & Hst & Hg & Hok). cbn [fst snd] in *.
  unfold charged_fee. rewrite bool_decide_false by done. rewrite Hfee. cbn [rbind Amt.drops_].
  rewrite (no_removed_offers base c v0 v m hs K D Hst Hg). set (ter' := if 5200 <? _ then _ else ter).
  destruct (bool_decide (ter' = tecOVERSIZE) || (isTecClaim ter' && negb (has_any flags tapRETRY))) eqn:Eclaim.
  - assert (isTecClaim ter' = true) as Hter.
    { apply orb_true_iff in Eclaim as [->%bool_decide_eq_true|[? _]%andb_true_iff]; done. }
    assert (∀ b : bool, (if b then [] else []) = @nil Z) as -> by by intros [].
    destruct (wp_run _ _ _ (claim_fee_ok tx base c s Hb Hc Hs fee (bool_decide (ter' = tecOVERSIZE)) Hfee0))
      as (charge & v' & -> & -> & hs' & D' & Hst'). cbn [rbind fst snd safe].
    eexists _, hs', D'. split; [exact Hst'|]. by apply claim_outcome.
  - destruct (isTesSuccess ter) eqn:Edid; [|done]. apply tes_success in Edid. cbn [safe fst snd].
    apply orb_false_iff in Eclaim as [Hover%bool_decide_eq_false _].
    assert (ter' = tesSUCCESS) as -> by (unfold ter' in *; destruct (5200 <? _); done).
    destruct (Hok Edid) as [-> Hout]. by exists m, hs, D.
Qed.

Lemma charge_range ter charge m' : outcome ter charge m' → 0 ≤ charge ≤ Amt.cMaxNativeN.
Proof using Hc.
  intros [Hm' Ht Hch _ _ _]. pose proof (total_nonneg m' (sound_entries m' Hm')). pose proof (sound_total c Hc). lia.
Qed.

(** A closed ledger keeps count of the fees. *)
Definition burnt (charge : Z) : Drops := mkDrops 0 0 (if Raw.open (Raw.info_ base) then 0 else charge).

Lemma destroy_fee_ok ter charge m' hs D v :
  outcome ter charge m' → state c v0 m' hs ∅ D v →
  ∃ v', destroy_fee base charge v = Ok v' ∧ sees c ∅ v' m' ∧ drops v' = burnt charge.
Proof using Hc.
  intros Hout Hst. pose proof (charge_range _ _ _ Hout) as Hr. pose proof max_native.
  destruct (st_frame _ _ _ _ _ _ _ Hst) as [_ Hd]. change (drops v = mkDrops 0 0 0) in Hd.
  pose proof (st_sees _ _ _ _ _ _ _ Hst) as Hsees. unfold destroy_fee, burnt. destruct (Raw.open _); [by exists v|].
  rewrite (proj2 (Z.ltb_ge charge 0)) by lia. destruct (Z.eqb_spec charge 0) as [->|Hne]; [by exists v|].
  eexists. split; [done|]. split; [exact Hsees|]. unfold drops in *. simpl. injection Hd as H1 H2 H3.
  by rewrite H1, H2, H3, i64_id by lia.
Qed.

Context `{Ks : Keys} `{MW : Meta.MetaWire} (d : Drops) (Hholds : RawFacts.open_holds base c d).
Context (Hnew : Raw.txs_ base !! getTransactionID tx = None).

(** A transaction that is not applied leaves the ledger as it is; otherwise the
    ledger has it and what it did. *)
Definition after (ter : TER) (applied : bool) (base' : ledger) : Prop :=
  if applied then
    ∃ charge m1 m' meta, outcome ter charge m1 ∧ ledger_eq m1 m' ∧ (Raw.open (Raw.info_ base) = true → m' = m1) ∧
      RawFacts.open_holds base' m' (add_drops d (burnt charge)) ∧
      Raw.info_ base' = Raw.info_ base ∧ Raw.base_ base' = Raw.base_ base ∧
      Raw.txs_ base' = <[getTransactionID tx := (tx_bytes tx, meta)]> (Raw.txs_ base)
  else base' = base.

Lemma run_ok rules flags pr baseFee :
  (pr = tesSUCCESS → fee ≤ drops_of (fields s)) →
  ∃ ter applied base', run config feeTrack fees T rules flags tx base pr baseFee = Ok (ter, applied, base') ∧
    after ter applied base'.
Proof using HT Hb Hc Hs Hfee Hfee0 Hring Hchecked Hholds Hnew.
  intros Hpr. unfold run. match goal with |- context [catch_std ?x ?y] =>
    destruct (catch_safe x (λ r, match r.2 with
      | None => True
      | Some (v, _) => ∃ charge m1, outcome r.1 charge m1 ∧ sees c ∅ v m1 ∧ drops v = burnt charge
      end) y) as ([ter o] & -> & Ho) end.
  - eapply safe_bind; [by apply decide_ok|]. intros [ter [[[v charge] deliver]|]]; [|done].
    intros (m' & hs & D & Hst & Hout). cbn [fst snd] in *.
    destruct (destroy_fee_ok _ _ _ _ _ _ Hout Hst) as (v' & -> & Hv' & Hd'). cbn [rbind safe fst snd]. eauto.
  - done.
  - cbn [rbind fst snd] in *. destruct o as [[v deliver]|]; [|by exists ter, false, base].
    destruct Ho as (charge & m1 & Hout & Hsees & Hd).
    destruct (apply_tx_ok v base tx ter deliver c d m1 Hholds Hsees Hnew) as (base' & m' & meta & -> & Hh & He & Ho & Hi & Hba & Ht).
    cbn [rbind]. exists ter, true, base'. split; [done|]. rewrite Hd in Hh. by exists charge, m1, m', meta.
Qed.

End outcome.

(** ** The checks before *)

(** A signed integer that is small when read without its sign. *)
Lemma unsigned_legal x : u64 (i64 x) ≤ SYSTEM_CURRENCY_START → 0 ≤ i64 x ≤ SYSTEM_CURRENCY_START.
Proof using Type.
  unfold SYSTEM_CURRENCY_START, i64, swrap. change (64 - 1) with 63.
  pose proof (Z.mod_pos_bound (x + 2 ^ 63) (2 ^ 64) ltac:(done)) as Hm. set (y := (x + 2 ^ 63) mod 2 ^ 64 - 2 ^ 63).
  assert (- 2 ^ 63 ≤ y < 2 ^ 63) as Hy by lia. clearbody y. unfold u64, uwrap. destruct (Z.lt_ge_cases y 0) as [Hlt|Hge].
  - rewrite <- (Z_mod_plus_full y 1), Z.mod_small by lia. lia.
  - rewrite Z.mod_small by lia. lia.
Qed.

Lemma preflight1_ok tx :
  preflight1 tx = Ok tesSUCCESS →
  tx_account tx ≠ 0 ∧ ∃ fee, Amt.xrp (getFieldAmount sfFee (tx_fields tx)) = Ok (Amt.mkXRP fee false) ∧ 0 ≤ fee ≤ SYSTEM_CURRENCY_START.
Proof using Type.
  unfold preflight1, preflight0. destruct (getTransactionID tx =? 0); [done|]. cbn.
  destruct (Z.eqb_spec (tx_account tx) 0) as [|Hne]; [done|]. unfold Amt.xrp.
  destruct (Amt.mIsNative _); [|done]. destruct (Amt.mIsNegative _); [done|]. cbn.
  unfold isLegalAmount. cbn [Amt.drops_]. destruct (Z.leb_spec (u64 (i64 (Amt.mValue (getFieldAmount sfFee (tx_fields tx))))) SYSTEM_CURRENCY_START) as [Hle|]; [|done].
  intros _. split; [done|]. eexists. split; [done|]. revert Hle. generalize (Amt.mValue (getFieldAmount sfFee (tx_fields tx))). intros x.
  apply unsigned_legal.
Qed.

Lemma reads_root base c a : reads_as base c → read_account base a = root_of c a.
Proof using Type. intros Hb. unfold read_account, root_of. by rewrite (reads_read _ _ Hb). Qed.

Lemma checkSeq_ok base c flags tx :
  reads_as base c → ∃ ter, checkSeq base flags tx = Ok ter ∧
    (ter = tesSUCCESS → ∃ o, root_of c (tx_account tx) = Some o ∧ getFieldU32 sfSequence o ≤ getSequence tx) ∧
    (likelyToClaimFee ter = true → ter = tesSUCCESS).
Proof using Type.
  intros Hb. unfold checkSeq. rewrite (reads_root base c) by done.
  destruct (root_of c (tx_account tx)) as [o|]; [|by exists terNO_ACCOUNT].
  destruct (Z.eqb_spec (getSequence tx) (getFieldU32 sfSequence o)) as [E|Hne]; cbn [negb].
  - repeat case_match; eexists; (split; [done|]); (split; [|done]); try done. intros _. exists o. split; [done|lia].
  - destruct (Z.ltb_spec (getFieldU32 sfSequence o) (getSequence tx)); repeat case_match; eexists; (split; [done|]); (split; [|done]); try done.
    intros _. exists o. split; [done|lia].
Qed.

(** The fee is no more than the balance, or at least some of it can be claimed. *)
Lemma checkFee_ok `{BN : BigNum} config feeTrack fees base c flags tx baseFee fee o :
  reads_as base c → Amt.xrp (getFieldAmount sfFee (tx_fields tx)) = Ok (Amt.mkXRP fee false) → 0 ≤ fee →
  getTxnType tx ≠ ttRING_DEPOSIT → root_of c (tx_account tx) = Some o → funded o →
  ∃ ter, checkFee config feeTrack fees base flags tx baseFee = Ok ter ∧ (ter = tesSUCCESS → fee ≤ drops_of o).
Proof using Type.
  intros Hb Hfee H0 Hring Ho Hf. unfold checkFee. rewrite Hfee. cbn [rbind Amt.drops_].
  destruct (negb (isLegalAmount _) || _); [by eexists|]. unfold fee_due. rewrite bool_decide_false by done. cbn [rbind].
  destruct (is_open base && _); [by eexists|]. pose proof Hf as (_ & _ & Hpos).
  destruct (Z.eqb_spec fee 0) as [->|Hne]; [by eexists|].
  rewrite (reads_root base c), Ho by done. cbn [must rbind]. fold (balance_of o). rewrite (funded_xrp o Hf). cbn [rbind Amt.drops_].
  destruct (Z.ltb_spec (drops_of o) fee); [by case_match; eexists|by eexists].
Qed.

Lemma advance_ok a iter : iter ≠ [] → ∃ r, advance a iter = Ok r.
Proof using Type.
  induction iter as [|e rest IH]; [done|]. intros _. cbn [advance]. destruct (_ <? _); [|by eexists].
  destruct rest; [by eexists|]. by apply IH.
Qed.

Lemma match_signers_ok `{Ks : Keys} (base : ledger) signers : ∀ iter w, iter ≠ [] → ∃ r, match_signers base iter w signers = Ok r.
Proof using Type.
  induction signers as [|x signers IH]; intros iter w Hi; [by eexists|]. cbn [match_signers].
  destruct (advance_ok (inner_getAccountID sfAccount x) iter Hi) as [r ->]. cbn [rbind].
  destruct r as [[|e rest]|]; [by eexists| |by eexists]. destruct (negb (_ =? _)); [by eexists|].
  destruct (negb _); [by eexists|]. by apply IH.
Qed.

Lemma checkSign_ok `{Ks : Keys} config base c flags rules tx :
  reads_as base c → sound c → is_Some (root_of c (tx_account tx)) → ∃ ter, checkSign config base flags rules tx = Ok ter.
Proof using Type.
  intros Hb Hc [o Ho]. unfold checkSign. destruct (_ && _).
  - unfold checkMultiSign. rewrite (reads_read _ _ Hb). destruct (lookup_keylet c _) as [sle|] eqn:E; [|by eexists].
    unfold deserialize. destruct (arrays (fields sle) !! sfSignerEntries) as [l|] eqn:El; [|by eexists].
    assert (l ≠ []) as Hl.
    { unfold lookup_keylet in E. simpl in E. destruct (c !! _) as [s'|] eqn:Es; [|done].
      destruct (check _ s') eqn:Ech; [|done]. injection E as ->. pose proof (entry_signers sle (sound_entries c Hc _ _ Es)) as Hn.
      intros ->. apply Hn; [|done]. unfold check in Ech. simpl in Ech. by apply Z.eqb_eq in Ech. }
    destruct (signer_entries l) as [es|] eqn:Ees; [|by eexists].
    assert (es ≠ []) as Hes.
    { destruct l as [|x l]; [done|]. cbn [signer_entries] in Ees. destruct (negb _); [done|].
      by destruct (signer_entries l); simplify_eq/=. }
    destruct (match_signers_ok base (getFieldArray sfSigners (tx_fields tx)) es 0 Hes) as [[ter|w] ->]; cbn [rbind]; [by eexists|].
    case_match; by eexists.
  - unfold checkSingleSign. rewrite (reads_root base c), Ho by done. cbn [must rbind]. repeat case_match; by eexists.
Qed.

(** ** The steps together *)

Section steps.
Context `{BN : BigNum} `{Ks : Keys} `{MW : Meta.MetaWire}.
Context (config : Config) (feeTrack : LoadFee.LoadFeeTrack) (fees : Fees) (now : Z).

(** The source of a transaction and its fee. *)
Record source c (tx : STTx) s (fee : Z) : Prop := {
  src_entry : c !! getAccountRootIndex (tx_account tx) = Some s;
  src_fee : Amt.xrp (getFieldAmount sfFee (tx_fields tx)) = Ok (Amt.mkXRP fee false);
  src_nonneg : 0 ≤ fee;
  src_seq : getFieldU32 sfSequence (fields s) ≤ getSequence tx
}.

Lemma invoke_preclaim_ok T tx `{!Lawful T tx} base c rules flags :
  checked T tx → preflight1 tx = Ok tesSUCCESS → getTxnType tx ≠ ttRING_DEPOSIT → reads_as base c → sound c →
  safe (invoke_preclaim config feeTrack fees T rules base flags tx) (λ r, likelyToClaimFee r.1 = true →
    ∃ s fee, source c tx s fee ∧ (r.1 = tesSUCCESS → fee ≤ drops_of (fields s))).
Proof using Type.
  intros Hch H1 Hring Hb Hc. destruct (preflight1_ok tx H1) as (Ha & fee & Hfee & H0 & _).
  unfold invoke_preclaim. rewrite (proj2 (Z.eqb_neq _ _) Ha).
  destruct (checkSeq_ok base c flags tx Hb) as (ter & -> & Hok & Hcl). cbn [rbind].
  destruct (is_success ter) eqn:E; cbn [negb]; [|intros Hl%Hcl; simpl in Hl; by subst ter].
  apply bool_decide_eq_true in E. destruct (Hok E) as (o & Ho & Hseq). clear Hok Hcl E ter.
  pose proof Ho as Ho'. unfold root_of in Ho'. rewrite root_lookup in Ho' by done. apply fmap_Some in Ho' as (s & Hs & ->).
  pose proof (source_funded tx c s Hc Hs) as Hf. assert (source c tx s fee) as Hsrc by done.
  destruct (checkFee_ok config feeTrack fees base c flags tx (t_calculateBaseFee T base tx) fee (fields s) Hb Hfee H0 Hring Ho Hf) as (ter & -> & Hle).
  cbn [rbind]. destruct (is_success ter) eqn:E; cbn [negb].
  2:{ intros _. exists s, fee. split; [done|]. intros Ht. simpl in Ht. by rewrite Ht in E. }
  apply bool_decide_eq_true in E. specialize (Hle E).
  destruct (checkSign_ok config base c flags rules tx Hb Hc (mk_is_Some _ _ Ho)) as [ter2 ->]. cbn [rbind].
  destruct (is_success ter2); cbn [negb]; [|intros _; by exists s, fee].
  eapply safe_bind; [by eapply lawful_preclaim; eauto|]. intros ter3 _ _. by exists s, fee.
Qed.

Context (transactors : TxType → option (Transactor (V := V))).
Context (tx : STTx) (Hlaw : ∀ T, transactors (getTxnType tx) = Some T → Lawful T tx).

Lemma preflight_ok rules flags router :
  ∃ ter router', preflight transactors rules tx flags router = Ok (ter, router') ∧
    (likelyToClaimFee ter = true → ter = tesSUCCESS ∧
       ∃ T, transactors (getTxnType tx) = Some T ∧ checked T tx ∧ preflight1 tx = Ok tesSUCCESS).
Proof using Hlaw.
  unfold preflight. destruct (transactors (getTxnType tx)) as [T|] eqn:E; [|by exists temUNKNOWN, router].
  pose proof (Hlaw _ eq_refl) as HT. pose proof (lawful_preflight (T := T) rules flags router) as Hp.
  destruct (t_preflight T rules flags tx router) as [[ter router']|e] eqn:Ep; simpl in Hp.
  - exists ter, router'. split; [done|]. intros [-> H1]%Hp. split; [done|]. exists T. split; [done|].
    split; [by exists rules, flags, router, router'|done].
  - exists tefEXCEPTION, router. split; [by destruct e|done].
Qed.

Lemma preclaim_ok rules base c flags router :
  reads_as base c → sound c → getTxnType tx ≠ ttRING_DEPOSIT →
  ∃ ter baseFee router', (let* r := preflight transactors rules tx flags router in
      preclaim config feeTrack fees transactors rules rules r.1 base flags tx r.2) = Ok ((ter, baseFee), router') ∧
    (likelyToClaimFee ter = true → ∃ T s fee, transactors (getTxnType tx) = Some T ∧ checked T tx ∧ source c tx s fee ∧
       (ter = tesSUCCESS → fee ≤ drops_of (fields s))).
Proof using Hlaw.
  intros Hb Hc Hring. destruct (preflight_ok rules flags router) as (ter1 & router1 & -> & Hpf). cbn [rbind fst snd].
  unfold preclaim. rewrite bool_decide_true by done. unfold bind, ret at 1. cbn [rbind fst snd].
  destruct (is_success ter1) eqn:E1; cbn [negb].
  2:{ exists ter1, 0, router1. split; [done|]. intros Hl. destruct (Hpf Hl) as [-> _]. done. }
  apply bool_decide_eq_true in E1. destruct (Hpf ltac:(by rewrite E1)) as (_ & T & HT & Hch & H1). rewrite HT.
  pose proof (Hlaw _ HT) as HTL.
  destruct (catch_safe _ _ (tefEXCEPTION, 0) (invoke_preclaim_ok T tx base c rules flags Hch H1 Hring Hb Hc)) as ([ter fee0] & E & Hok).
  { done. }
  exists ter, fee0, router1. unfold lift. rewrite E. split; [done|]. intros Hl. destruct (Hok Hl) as (s & fee & Hs & Hle).
  by exists T, s, fee.
Qed.

(** A transaction leaves the ledger as it is, or the ledger has it, with what it
    did or with its fee. *)
Lemma apply_transaction_ok rules flags router base c d :
  RawFacts.open_holds base c d → sound c → getTxnType tx ≠ ttRING_DEPOSIT →
  ∃ ter applied router' base', apply_transaction config feeTrack fees transactors rules flags tx router base =
      Ok (ter, applied, router', base') ∧
    (applied = false → base' = base) ∧
    (applied = true → ∃ s fee, source c tx s fee ∧ Raw.txs_ base !! getTransactionID tx = None ∧ after tx base c s fee d ter true base').
Proof using Hlaw.
  intros Hh Hc Hring. assert (reads_as base c) as Hb by (destruct Hh as (c0 & ? & ? & -> & _); by apply RawFacts.open_reads).
  unfold apply_transaction. destruct (preclaim_ok rules base c flags router Hb Hc Hring) as (ter & baseFee & router' & E & Hok).
  destruct (preflight _ _ _ _ _) as [[ter1 router1]|]; [|done]. cbn [rbind fst snd] in *. rewrite E. cbn [rbind].
  unfold doApply. rewrite Z.eqb_refl. cbn [negb].
  destruct (likelyToClaimFee ter) eqn:El; cbn [negb]; [|by exists ter, false, router', base].
  unfold Raw.txExists. case_bool_decide as Hex; [by exists tefALREADY, false, router', base|].
  apply eq_None_not_Some in Hex. destruct (Hok eq_refl) as (T & s & fee & HT & Hch & Hsrc & Hle). rewrite HT.
  pose proof (Hlaw _ HT) as HTL. destruct Hsrc as [Hs Hfee H0 Hseq].
  destruct (run_ok config feeTrack fees T tx base c s fee Hb Hc Hs Hfee H0 Hring Hch d Hh Hex rules flags ter baseFee Hle)
    as (ter2 & applied & base' & -> & Haft). cbn [rbind fst snd].
  exists ter2, applied, router', base'. split; [done|]. destruct applied; [|done]. split; [done|]. intros _.
  by exists s, fee.
Qed.

End steps.

End facts.

End TxFacts.
