(* ===== verification/TxLaws.v ===== *)
(** * The transactions keep what they promise

    Changing the regular key or the settings of an account and paying it are
    lawful: their checks never abort, and they keep the drops and the sequence
    numbers. *)

From stdpp Require Import strings.
From S2P Require Import Prelude StateMonad Issue Decimal STAmount STAmountFacts BigNum STAmountArith Views Overlay RawStateTable RawFacts.
From S2P Require Import ApplyStateTable ApplyFacts ViewLogic Objects Directory Indexes TrustLines LoadFeeTrack Transaction HashRouter.
From S2P Require Import LedgerFormats Metadata Transactor TxSettings Payment MetadataFacts Funds TransactorFacts.
From S2P Require Import SignFacts.
Import Apply ApplyFacts VL Dir Idx Tx Trust Obj Transact Settings Pay MetaFacts Funds TxFacts.

Open Scope Z_scope.
Open Scope prog_scope.

Module TxLaws.

(** ** The router never fails *)

Section router.
Context `{Ks : Keys} (now : Z).

Lemma emplace_total r key : wp (Router.emplace now key) r (λ _ _, True).
Proof using Type.
  apply wp_bind, wp_gets. destruct (_ !! key); [by apply wp_bind, wp_modify, wp_ret|].
  by apply wp_bind, wp_modify, wp_bind, wp_modify, wp_ret.
Qed.

Lemma setFlags_total r key flags : wp (Router.setFlags now key flags) r (λ _ _, True).
Proof using Type.
  apply wp_bind. eapply wp_mono; [apply emplace_total|]. intros e r' _.
  destruct (_ =? flags); [by apply wp_ret|by apply wp_bind, wp_modify, wp_ret].
Qed.

Lemma getFlags_total r key : wp (Router.getFlags now key) r (λ _ _, True).
Proof using Type. apply wp_bind. eapply wp_mono; [apply emplace_total|]. intros. by apply wp_ret. Qed.

Lemma then_total {A B} (p : M Router.HashRouter A) (q : A → M Router.HashRouter B) r :
  wp p r (λ _ _, True) → (∀ a r, wp (q a) r (λ _ _, True)) → wp (bind p q) r (λ _ _, True).
Proof using Type. intros Hp Hq. apply wp_bind. eapply wp_mono; [exact Hp|]. intros. apply Hq. Qed.

Lemma checkValidity_total r tx multi : wp (Router.checkValidity now tx multi) r (λ _ _, True).
Proof using Type.
  assert (∀ (A : Type) (b : bool) (x : A) key flags (p : M Router.HashRouter A) r, wp p r (λ _ _, True) →
    wp (if b then (let! _ := Router.setFlags now key flags in ret x) else p) r (λ _ _, True)) as Hset.
  { intros A [] x key flags p r' Hp; [|done]. apply then_total; [apply setFlags_total|]. intros. by apply wp_ret. }
  assert (∀ (A : Type) (b : bool) (p q : M Router.HashRouter A) r,
    wp p r (λ _ _, True) → wp q r (λ _ _, True) → wp (if b then p else q) r (λ _ _, True)) as Hif by by intros ? [].
  assert (∀ (A : Type) (x : A) (r : Router.HashRouter), wp (ret x) r (λ _ _, True)) as Hret by (intros; by apply wp_ret).
  apply then_total; [apply getFlags_total|]. intros flags r1. apply Hif; [apply Hret|].
  apply then_total.
  - apply Hif; [apply Hret|]. apply Hset. apply then_total; [apply setFlags_total|]. intros. apply Hret.
  - intros good r2. apply Hif; [apply Hret|]. apply Hif; [apply Hret|]. apply Hif; [apply Hret|].
    apply Hset. apply then_total; [apply setFlags_total|]. intros. apply Hret.
Qed.

End router.

Section laws.
Context `{Dg : Digest} `{BN : BigNum} `{Ks : Keys} `{MW : Meta.MetaWire} {V : Type} {RV : ReadView STObject V}.
Abbreviation ledger := (Raw.OpenView STObject V).
Context (config : Config) (feeTrack : LoadFee.LoadFeeTrack) (fees : Fees) (now : Z).
Implicit Types (m c : gmap Z (SLE STObject)) (s : SLE STObject) (o : STObject).

(** ** Checks without a ledger *)

(** A check that does not claim a fee. *)
Definition refuses (ter : TER) : Prop := likelyToClaimFee ter = true → ter = tesSUCCESS.

Lemma preflight1_refuses tx : ∃ ter, preflight1 tx = Ok ter ∧ refuses ter.
Proof using Type.
  unfold preflight1, preflight0. destruct (getTransactionID tx =? 0); [by eexists|]. cbn.
  destruct (tx_account tx =? 0); [by eexists|]. unfold Amt.xrp.
  destruct (Amt.mIsNative _); [|by eexists]. destruct (Amt.mIsNegative _); [by eexists|]. cbn.
  destruct (negb _); by eexists.
Qed.

Lemma preflight_with_ok own rules flags tx router :
  safe (own tx) refuses →
  safe (preflight_with config now rules flags own tx router) (λ r,
    likelyToClaimFee r.1 = true → r.1 = tesSUCCESS ∧ preflight1 tx = Ok tesSUCCESS).
Proof using Type.
  intros Hown. destruct (preflight1_refuses tx) as (ter & E & Hr). unfold preflight_with, bind, lift. rewrite E. cbn [rbind fst snd].
  destruct (isTesSuccess ter) eqn:Et; cbn [negb].
  2:{ cbn. intros Hl. rewrite (Hr Hl) in Et. done. }
  apply tes_success in Et. subst ter. destruct (own tx) as [ter|e]; [|done]. cbn [safe rbind fst snd] in *.
  destruct (isTesSuccess ter) eqn:Et; cbn [negb].
  2:{ cbn. intros Hl. rewrite (Hown Hl) in Et. done. }
  unfold preflight2. destruct (has_any _ _); [done|].
  destruct (wp_run _ _ _ (checkValidity_total now router tx (multi_sign config rules flags))) as (x & r' & E' & _).
  unfold bind. rewrite E'. cbn. by case_bool_decide.
Qed.

(** What a transaction that passed has passed. *)
Lemma preflight_with_own own rules flags tx router router' :
  preflight_with config now rules flags own tx router = Ok (tesSUCCESS, router') → own tx = Ok tesSUCCESS.
Proof using Type.
  unfold preflight_with, bind, lift. destruct (preflight1 tx) as [ter|]; [|done]. cbn [rbind fst snd].
  destruct (isTesSuccess ter) eqn:Et; cbn [negb]; [|by intros [= ->]].
  destruct (own tx) as [ter'|]; [|done]. cbn [rbind fst snd].
  destruct (isTesSuccess ter') eqn:Et'; cbn [negb]; [|by intros [= ->]]. intros _. by rewrite (tes_success _ Et').
Qed.

(** ** Changes to an account that leave its drops and its sequence number *)

Definition gentle (f : STObject → STObject) : Prop :=
  ∀ o, amounts (f o) !! sfBalance = amounts o !! sfBalance ∧ u32s (f o) !! sfSequence = u32s o !! sfSequence ∧
    u32s (f o) !! sfOwnerCount = u32s o !! sfOwnerCount.

Lemma gentle_compose f g : gentle f → gentle g → gentle (λ o, g (f o)).
Proof using Type. intros Hf Hg o. destruct (Hf o) as (? & ? & ?), (Hg (f o)) as (? & ? & ?). split_and!; by etrans. Qed.

Lemma gentle_drops f o : gentle f → drops_of (f o) = drops_of o ∧ (funded o → funded (f o)) ∧
  getFieldU32 sfSequence (f o) = getFieldU32 sfSequence o ∧ (counted o → counted (f o)).
Proof using Type.
  intros Hf. destruct (Hf o) as (Ha & Hs & Hn). unfold funded, counted, drops_of, balance_of, getFieldAmount, getFieldU32.
  by rewrite Ha, Hs, Hn.
Qed.

Lemma grows_insert m k s : grows m (<[k := s]> m).
Proof using Type. intros j Hj. apply lookup_insert_is_Some'. by right. Qed.

Lemma ledger_kept_refl m : sound m → kept m m.
Proof using Type. intros Hm. by split. Qed.

Lemma kept_gentle m k s f : sound m → m !! k = Some s → is_root s = true → gentle f → kept m (<[k := with_fields s f]> m).
Proof using Type.
  intros Hm Hk Hs Hf. destruct (gentle_drops f (fields s) Hf) as (Hd & Hfu & Hseq & Hn). pose proof (sound_total m Hm).
  assert (funded (fields s)) as Hfs by (apply (entry_funded s); [by apply (sound_entries m Hm k)|done]).
  destruct (sound_update m k s f Hm Hk Hs (Hfu Hfs)) as [Hm' Ht]; [|lia|].
  { apply Hn, (entry_counted s); [by apply (sound_entries m Hm k)|done]. }
  split; [done|lia|]. intros a n. unfold seq_of. rewrite root_of_update by done. case_decide as E; [|done].
  unfold root_of. rewrite root_lookup by done. rewrite E, Hk. simpl. by rewrite Hseq.
Qed.

Lemma wp_safe {S A} (p : M S A) v (Q : A → S → Prop) : wp p v Q → safe (p v) (λ r, Q r.1 r.2).
Proof using Type. unfold wp. by destruct (p v) as [[]|]. Qed.

(** Setters of other fields. *)
Lemma gentle_id : gentle (λ o, o).
Proof using Type. done. Qed.

Lemma gentle_u32 sf (g : STObject → Z) : sf ≠ sfSequence → sf ≠ sfOwnerCount → gentle (λ o, setFieldU32 sf (g o) o).
Proof using Type. intros H1 H2 o. split; [done|]. simpl. by rewrite !lookup_insert_ne. Qed.

Lemma gentle_absent sf : sf ≠ sfSequence → sf ≠ sfBalance → sf ≠ sfOwnerCount → gentle (makeFieldAbsent sf).
Proof using Type. intros H1 H2 H3 o. simpl. by rewrite !lookup_delete_ne. Qed.

Lemma gentle_if (b : STObject → bool) f g : gentle f → gentle g → gentle (λ o, if b o then f o else g o).
Proof using Type. intros Hf Hg o. destruct (b o); [apply Hf|apply Hg]. Qed.

(** ** Programs that change the source *)

(** What [doApply] has to give. *)
Definition good c (v0 : ApplyView STObject ledger) m (ter : TER) (v : ApplyView STObject ledger) : Prop :=
  ∃ m' hs K D, state c v0 m' hs K D v ∧ grows m m' ∧ (ter = tesSUCCESS → K = ∅ ∧ kept m m').

Lemma plain_good c (v0 v : ApplyView STObject ledger) m p :
  wp p v (good c v0 m) → safe (plain p v) (λ r, good c v0 m r.1.1 r.2).
Proof using Type. intros Hp. unfold plain, bind. apply wp_safe in Hp. by destruct (p v) as [[ter v']|]. Qed.

Section own.
Context (c : gmap Z (SLE STObject)) (v0 : ApplyView STObject ledger) (Hb : reads_as (base_ v0) c).
Context (m : gmap Z (SLE STObject)) (Hm : sound m) (a : AccountID) (s : SLE STObject) (D : gset Z).
Abbreviation key := (getAccountRootIndex a).
Context (Hs : m !! key = Some s) (HD : key ∈ D).

Definition own (f : STObject → STObject) : gmap Z (SLE STObject) := <[key := with_fields s f]> m.

Lemma own_id : m = own (λ o, o).
Proof using Hs. unfold own, with_fields. destruct s. symmetry. by apply insert_id. Qed.

Lemma own_lookup f : own f !! key = Some (with_fields s f).
Proof using Type. apply lookup_insert_eq. Qed.

Lemma own_root f : lookup_keylet (own f) (keylet.account a) = Some (with_fields s f).
Proof using Hm Hs.
  unfold lookup_keylet. cbn [k_key keylet.account]. rewrite own_lookup. unfold check. simpl.
  pose proof (sound_roots m Hm a s Hs) as Hr. unfold is_root in Hr. by rewrite Hr.
Qed.

Lemma wp_set_own {A} f g hs v p (k : prog STObject ledger A) Q :
  state c v0 (own f) hs ∅ D v → hs !! p = Some key →
  (∀ v', state c v0 (own (λ o, g (f o))) hs ∅ D v' → wp k v' Q) → wp (set p g;; k) v Q.
Proof using HD.
  intros Hst Hp Hk. eapply wp_set_known; [done|done|apply own_lookup|apply not_elem_of_empty|done|].
  intros v' Hst'. apply Hk. unfold own in *. by rewrite insert_insert_eq in Hst'.
Qed.

Lemma wp_when_own {A} f g hs v p (b : bool) (k : prog STObject ledger A) Q :
  state c v0 (own f) hs ∅ D v → hs !! p = Some key →
  (∀ v', state c v0 (own (λ o, if b then g (f o) else f o)) hs ∅ D v' → wp k v' Q) → wp (when b (set p g);; k) v Q.
Proof using HD.
  intros Hst Hp Hk. destruct b; [by eapply wp_set_own|]. apply wp_bind, wp_ret. by apply Hk.
Qed.

(** An account that can sign: with its master key, with a regular key or with the
    signers of its list. *)
Definition signs o : Prop :=
  isFlag lsfDisableMaster o = false ∨ present (accounts o) sfRegularKey = true ∨ is_Some (lookup_keylet m (keylet.signers a)).

(** The signers are not touched. *)
Lemma own_signers f : lookup_keylet (own f) (keylet.signers a) = lookup_keylet m (keylet.signers a).
Proof using Hm Hs.
  unfold lookup_keylet, own. cbn [k_key keylet.signers]. destruct (decide (getSignerListIndex a = key)) as [E|Hne].
  - rewrite E, lookup_insert_eq, Hs. pose proof (sound_roots m Hm a s Hs) as Hr%Z.eqb_eq. unfold check. simpl. by rewrite Hr.
  - by rewrite lookup_insert_ne.
Qed.

(** A program that changed the source, and left it able to sign. *)
Definition own_done (ter : TER) (v : ApplyView STObject ledger) : Prop :=
  ∃ f hs, state c v0 (own f) hs ∅ D v ∧ gentle f ∧ (ter = tesSUCCESS → signs (fields s) → signs (f (fields s))).

Lemma own_good ter v : own_done ter v → good c v0 m ter v.
Proof using Hm Hs.
  intros (f & hs & Hst & Hf & _). exists (own f), hs, ∅, D. split; [done|]. split; [apply grows_insert|]. intros _. split; [done|].
  apply kept_gentle; [done..| |done]. by apply (sound_roots m Hm a).
Qed.

End own.

Lemma SetRegularKey_done c v0 m a s D hs v tx st :
  reads_as (base_ v0) c → sound m → m !! getAccountRootIndex a = Some s → getAccountRootIndex a ∈ D → account_ st = a →
  state c v0 m hs ∅ D v → wp (SetRegularKey_doApply (V := V) tx st) v (own_done c v0 m a s D).
Proof using Type.
  intros Hb Hm Hs HD <- Hst. unfold SetRegularKey_doApply. rewrite (own_id m (account_ st) s Hs) in Hst.
  eapply (wp_peek_some c v0 Hb); [exact Hst|by apply own_root|]. intros p v1 Hsub H1. cbn [k_key keylet.account non_null] in *.
  apply wp_bind, wp_ret. eapply wp_when_own; [done|done|apply lookup_insert_eq|]. intros v2 H2.
  set (f := λ o : STObject, if mFeeDue st =? 0 then setFlag lsfPasswordSpent o else o) in *.
  assert (gentle f) as Hf by (apply (gentle_if (λ _, mFeeDue st =? 0)); [by apply gentle_u32|apply gentle_id]).
  assert (gentle (λ o, makeFieldAbsent sfRegularKey (f o))) as Hf'.
  { apply (gentle_compose _ (makeFieldAbsent sfRegularKey)); [done|by apply gentle_absent]. }
  destruct (accounts (tx_fields tx) !! sfRegularKey) as [k|].
  { eapply wp_set_own; [done|done|apply lookup_insert_eq|]. intros v3 H3. apply wp_ret. eexists _, _. split; [exact H3|].
    split; [by apply (gentle_compose _ (setAccountID sfRegularKey k))|]. intros _ _. right. left.
    unfold present. simpl. by rewrite lookup_insert_eq. }
  eapply wp_get_bind; [done|apply lookup_insert_eq|apply own_lookup|]. cbn [fields with_fields].
  destruct (isFlag lsfDisableMaster (f (fields s))) eqn:Edm.
  - apply wp_bind. eapply (wp_peek c v0 Hb); [done|..]; [intros v3 _ H3|intros s3 q v3 Hsig Hsub3 H3]; cbn [andb].
    + apply wp_ret. by exists f, (<[p := getAccountRootIndex (account_ st)]> hs).
    + eapply wp_set_own; [done|done|eapply lookup_weaken; [apply lookup_insert_eq|done]|]. intros v4 H4. apply wp_ret.
      eexists _, _. split; [exact H4|]. split; [done|]. intros _ _. right. right. rewrite own_signers in Hsig by done. by exists s3.
  - apply wp_bind, wp_ret. cbn [andb]. eapply wp_set_own; [done|done|apply lookup_insert_eq|]. intros v4 H4. apply wp_ret.
    eexists _, _. split; [exact H4|]. split; [done|]. intros _ _. left. rewrite <- Edm.
    unfold isFlag, getFieldU32. simpl. by rewrite lookup_delete_ne.
Qed.

(** *** The fields of an account *)

(** A change that leaves the keys and the flags as well. *)
Definition private (f : STObject → STObject) : Prop :=
  gentle f ∧ ∀ o, accounts (f o) !! sfRegularKey = accounts o !! sfRegularKey ∧ u32s (f o) !! sfFlags = u32s o !! sfFlags.

Lemma private_compose f g : private f → private g → private (λ o, g (f o)).
Proof using Type.
  intros [Hf Hf'] [Hg Hg']. split; [by apply gentle_compose|]. intros o. destruct (Hf' o), (Hg' (f o)). split; by etrans.
Qed.

Lemma private_if (b : STObject → bool) f g : private f → private g → private (λ o, if b o then f o else g o).
Proof using Type. intros [Hf Hf'] [Hg Hg']. split; [by apply gentle_if|]. intros o. destruct (b o); auto. Qed.

Lemma private_absent sf :
  sf ≠ sfSequence → sf ≠ sfBalance → sf ≠ sfOwnerCount → sf ≠ sfRegularKey → sf ≠ sfFlags → private (makeFieldAbsent sf).
Proof using Type. intros ???? H5. split; [by apply gentle_absent|]. intros o. simpl. by rewrite !lookup_delete_ne. Qed.

Lemma private_set_or_remove {A} sf (x : option A) empty setter :
  private (makeFieldAbsent sf) → (∀ x, private (setter sf x)) → private (set_or_remove sf x empty setter).
Proof using Type.
  intros Ha Hset. unfold set_or_remove. destruct x as [x|]; [|done]. destruct (empty x); [done|apply Hset].
Qed.

Lemma private_set_rate tx : private (set_rate tx).
Proof using Type.
  unfold set_rate. destruct (u32s (tx_fields tx) !! sfTransferRate) as [z|]; [|done].
  destruct (_ || _); [by apply private_absent|]. destruct (_ <? _); [|done].
  split; [by apply (gentle_u32 sfTransferRate (λ _, z))|]. intros o. simpl. by rewrite lookup_insert_ne.
Qed.

Lemma private_fields tx : private (set_account_fields tx).
Proof using Type.
  unfold set_account_fields.
  apply (private_compose (λ o, set_or_remove sfDomain _ _ setFieldVL _) (set_rate tx)); [|apply private_set_rate].
  apply (private_compose _ (set_or_remove sfDomain _ _ setFieldVL)); [|by apply private_set_or_remove; [apply private_absent|]].
  apply (private_compose _ (set_or_remove sfMessageKey _ _ setFieldVL)); [|by apply private_set_or_remove; [apply private_absent|]].
  apply (private_compose _ (set_or_remove sfWalletLocator _ _ setFieldH256)); [|by apply private_set_or_remove; [apply private_absent|]].
  apply (private_compose _ (set_or_remove sfEmailHash _ _ setFieldH128)); [|by apply private_set_or_remove; [apply private_absent|]].
  apply (private_compose _ (λ o, if (getFieldU32 sfClearFlag (tx_fields tx) =? asfAccountTxnID) && present (h256s o) sfAccountTxnID
           then makeFieldAbsent sfAccountTxnID o else o)).
  - by apply private_if.
  - apply private_if; [by apply private_absent|done].
Qed.

(** *** The flags of an account *)

Lemma isFlag_bit o : isFlag lsfDisableMaster o = Z.testbit (getFieldU32 sfFlags o) 20.
Proof using Type. unfold isFlag, lsfDisableMaster. rewrite (land_pow2 _ 20) by done. by destruct (Z.testbit _ 20). Qed.

Lemma toggle_bit set_ clear flag x y : Z.testbit flag 20 = false → Z.testbit (toggle set_ clear flag x y) 20 = Z.testbit y 20.
Proof using Type.
  intros Hf. unfold toggle. destruct (set_ && _), (clear && _); rewrite ?Z.ldiff_spec, ?Z.lor_spec, ?Hf; simpl; by rewrite ?orb_false_r, ?andb_true_r.
Qed.

Lemma freeze_bit x y z : Z.testbit (freeze_flags x y z) 20 = Z.testbit z 20.
Proof using Type.
  unfold freeze_flags. repeat case_match; rewrite ?Z.ldiff_spec, ?Z.lor_spec; unfold lsfGlobalFreeze, lsfNoFreeze; simpl;
    by rewrite ?orb_false_r, ?andb_true_r.
Qed.

(** The master key is disabled if it was or if it is being disabled. *)
Lemma set_account_flags_bit tx disabling x :
  Z.testbit (set_account_flags tx disabling x) 20 = true → disabling = true ∨ Z.testbit x 20 = true.
Proof using Type.
  unfold set_account_flags. set (y := toggle _ _ lsfDisallowXRP _ _). assert (Z.testbit y 20 = Z.testbit x 20) as Hy.
  { unfold y. by rewrite !toggle_bit. }
  clearbody y. destruct disabling; [by left|]. rewrite <- Hy. intros Hb. right. revert Hb.
  repeat case_match; rewrite ?Z.ldiff_spec, ?Z.lor_spec, ?Z.ldiff_spec; unfold lsfDefaultRipple, lsfDisableMaster; simpl;
    by rewrite ?orb_false_r, ?andb_true_r, ?andb_false_r.
Qed.

(** The master key is disabled only if there is another way. *)
Lemma disabling_ok c v0 m a s D hs v rules flags tx p (b : bool) :
  reads_as (base_ v0) c → sound m → m !! getAccountRootIndex a = Some s →
  state c v0 (own m a s (λ o, o)) hs ∅ D v → hs !! p = Some (getAccountRootIndex a) →
  wp (if b then disable_master (V := V) config rules flags tx a p else ret tesSUCCESS) v (λ ter v', ∃ hs',
    state c v0 (own m a s (λ o, o)) hs' ∅ D v' ∧ hs' !! p = Some (getAccountRootIndex a) ∧
    (b = true → ter = tesSUCCESS → present (accounts (fields s)) sfRegularKey = true ∨ is_Some (lookup_keylet m (keylet.signers a)))).
Proof using Type.
  intros Hb Hm Hs Hst Hp. destruct b; [|apply wp_ret; by exists hs]. unfold disable_master.
  destruct (negb _); [apply wp_ret; by exists hs|].
  eapply wp_get_bind; [done|done|apply own_lookup|]. cbn [fields with_fields].
  destruct (present (accounts (fields s)) sfRegularKey) eqn:Ek.
  - apply wp_bind, wp_ret, wp_ret. exists hs. split; [done|]. split; [done|]. by left.
  - apply wp_bind. eapply (wp_peek c v0 Hb); [done|..]; [intros v3 _ H3|intros s3 q v3 Hsig Hsub3 H3]; cbn [andb negb]; apply wp_ret.
    + exists hs. split; [done|]. split; [done|]. by destruct (multi_sign config rules flags).
    + eexists. split; [exact H3|]. split; [by eapply lookup_weaken|]. intros _ _. right.
      rewrite own_signers in Hsig by done. by exists s3.
Qed.

Lemma SetAccount_done c v0 m a s D hs v rules flags tx st :
  reads_as (base_ v0) c → sound m → m !! getAccountRootIndex a = Some s → getAccountRootIndex a ∈ D → account_ st = a →
  state c v0 m hs ∅ D v → wp (SetAccount_doApply (V := V) config rules flags tx st) v (own_done c v0 m a s D).
Proof using Type.
  intros Hb Hm Hs HD <- Hst. unfold SetAccount_doApply. rewrite (own_id m (account_ st) s Hs) in Hst.
  eapply (wp_peek_some c v0 Hb); [exact Hst|by apply own_root|]. intros p v1 Hsub H1. cbn [k_key keylet.account non_null] in *.
  apply wp_bind, wp_ret. eapply wp_get_bind; [done|apply lookup_insert_eq|apply own_lookup|]. cbn [fields with_fields].
  apply wp_bind. set (disabling := (_ =? asfDisableMaster) && _). set (x := getFieldU32 sfFlags (fields s)) in *.
  apply (wp_mono _ _ (λ ter v', ∃ hs', state c v0 (own m (account_ st) s (λ o, o)) hs' ∅ D v' ∧
    hs' !! p = Some (getAccountRootIndex (account_ st)) ∧
    (disabling = true → ter = tesSUCCESS → present (accounts (fields s)) sfRegularKey = true ∨ is_Some (lookup_keylet m (keylet.signers (account_ st)))))).
  { eapply disabling_ok; [done..|exact H1|apply lookup_insert_eq]. }
  intros ter v2 (hs2 & H2 & Hp & Hdis). destruct (is_success ter) eqn:Eter; cbn [negb].
  2:{ apply wp_ret. exists (λ o, o), hs2. split; [done|]. split; [done|]. intros ->. done. }
  apply bool_decide_eq_true in Eter. match goal with |- wp (if ?b then _ else _) _ _ => destruct b end.
  { apply wp_ret. by exists (λ o, o), hs2. }
  eapply wp_set_own; [done|done|done|]. intros v3 H3. eapply wp_when_own; [done|done|done|]. intros v4 H4.
  apply wp_ret. eexists _, hs2. split; [exact H4|]. destruct (private_fields tx) as [Hg Hpr]. destruct (Hpr (fields s)) as [Hkey Hfl].
  split; [apply (gentle_if (λ _, _)); [apply (gentle_compose _ (setFieldU32 sfFlags _))|]; [done|by apply (gentle_u32 sfFlags (λ _, _))|done]|].
  intros _ Hsig. unfold signs. rewrite isFlag_bit.
  match goal with |- context [if ?b then setFieldU32 sfFlags ?y ?o else _] =>
    assert (getFieldU32 sfFlags (if b then setFieldU32 sfFlags y o else o) = y) as -> end.
  { destruct (x =? _) eqn:Ex; cbn [negb]; unfold getFieldU32; simpl; [|by rewrite lookup_insert_eq].
    apply Z.eqb_eq in Ex. rewrite Hfl. exact Ex. }
  rewrite freeze_bit. destruct (Z.testbit (set_account_flags tx disabling x) 20) eqn:E20; [right|by left].
  assert (∀ b : bool, accounts (if b then setFieldU32 sfFlags (freeze_flags (getFieldU32 sfSetFlag (tx_fields tx))
    (getFieldU32 sfClearFlag (tx_fields tx)) (set_account_flags tx disabling x)) (set_account_fields tx (fields s))
    else set_account_fields tx (fields s)) !! sfRegularKey = accounts (fields s) !! sfRegularKey) as Hacc by (intros []; exact Hkey).
  unfold present at 1. rewrite Hacc. fold (present (accounts (fields s)) sfRegularKey).
  destruct (set_account_flags_bit _ _ _ E20) as [Hd|Hb20]; [by apply Hdis|].
  destruct Hsig as [Hno|Hsig]; [|done]. rewrite isFlag_bit in Hno. unfold x in Hb20. congruence.
Qed.

(** ** The instances *)

Lemma root_entry m a o : sound m → root_of m a = Some o → ∃ s, m !! getAccountRootIndex a = Some s ∧ fields s = o.
Proof using Type.
  intros Hm Ho. unfold root_of in Ho. rewrite root_lookup in Ho by done. apply fmap_Some in Ho as (s & Hs & ->). by exists s.
Qed.

#[global] Instance SetRegularKey_lawful tx : Lawful (SetRegularKey (V := V) config fees now) tx.
Proof using Type.
  split.
  - intros rules flags router. apply preflight_with_ok. unfold no_flags. simpl. by destruct (has_any _ _).
  - done.
  - intros info rules flags st c v0 v m hs D _ Hb Hm Hst HD [Ha _ (o & Ho & _)].
    destruct (root_entry m _ o Hm Ho) as (s & Hs & _). apply plain_good.
    eapply wp_mono; [by eapply SetRegularKey_done|]. intros ter v'. by apply own_good.
Qed.

#[global] Instance SetAccount_lawful tx : Lawful (SetAccount (V := V) config fees now) tx.
Proof using Type.
  split.
  - intros rules flags router. apply preflight_with_ok. unfold SetAccount_check. cbn [safe]. repeat case_match; done.
  - intros view c flags Hb Hc [o Ho] _. cbn [t_preclaim SetAccount]. unfold SetAccount_preclaim.
    rewrite (reads_root view c), Ho by done. cbn [must rbind]. by case_match.
  - intros info rules flags st c v0 v m hs D _ Hb Hm Hst HD [Ha _ (o & Ho & _)].
    destruct (root_entry m _ o Hm Ho) as (s & Hs & _). apply plain_good.
    eapply wp_mono; [by eapply SetAccount_done|]. intros ter v'. by apply own_good.
Qed.

End laws.

End TxLaws.

(** ** What the settings of an account guarantee

    A signer list that is accepted is one [checkMultiSign] can walk, and whose
    signers reach the quorum together.  An account keeps a way to sign its
    transactions. *)

Import Sign TxLaws.

Module SettingsFacts.

(** ** Signer lists *)

Lemma signers_sorted_strict l : Sorted signer_le l → adjacent_equal l = false → Sorted entry_lt l.
Proof.
  induction 1 as [|x l Hs IH Hx]; [done|]. intros Hadj. destruct Hx as [|y l Hxy]; [by repeat constructor|].
  cbn [adjacent_equal] in Hadj. apply orb_false_iff in Hadj as [Hne%Z.eqb_neq Hadj].
  constructor; [by apply IH|]. constructor. unfold entry_lt, signer_le in *. lia.
Qed.

#[global] Instance signer_le_total : Total signer_le.
Proof. intros x y. unfold signer_le. lia. Qed.

#[global] Instance entry_lt_trans : Transitive entry_lt.
Proof. intros x y z. unfold entry_lt. lia. Qed.

Definition weights (l : list SignerEntry) : Z := foldr (λ e n, s_weight e + n) 0 l.

Lemma weights_range l : Forall (λ e, 0 ≤ s_weight e < 2 ^ 16) l → 0 ≤ weights l ≤ 2 ^ 16 * Z.of_nat (length l).
Proof. induction 1 as [|e l He _ IH]; simpl; [lia|]. lia. Qed.

Lemma validate_signers_ok account l : ∀ w r,
  0 ≤ w → w + 2 ^ 16 * Z.of_nat (length l) < 2 ^ 64 → Forall (λ e, s_weight e < 2 ^ 16) l →
  validate_signers account w l = inr r →
  Forall (λ e, 0 < s_weight e ∧ s_account e ≠ account) l ∧ r = w + weights l.
Proof.
  induction l as [|e l IH]; intros w r Hw Hlen Hf; cbn [validate_signers]; [intros [= <-]; split; [constructor|simpl; lia]|].
  apply Forall_cons in Hf as [He Hf]. cbn [length] in Hlen.
  destruct (Z.leb_spec (s_weight e) 0); [done|]. destruct (Z.eqb_spec (s_account e) account); [done|].
  rewrite u64_id by lia. intros [Hl ->]%IH; [|lia|lia|done]. split; [by constructor|]. simpl. lia.
Qed.

Lemma validate_signers_fails account l : ∀ w, validate_signers account w l ≠ inl tesSUCCESS.
Proof. induction l as [|e l IH]; intros w; cbn [validate_signers]; [done|]. do 2 (destruct (_ : bool); [done|]). apply IH. Qed.

Lemma signer_objects_back l : signer_entries (signer_object <$> l) = Some l.
Proof.
  induction l as [|e l IH]; [done|]. rewrite fmap_cons. cbn [signer_entries]. rewrite IH. by destruct e.
Qed.

(** What is written is what is read. *)
Lemma written_signers quorum l o : deserialize (writeSignersToSLE quorum l o) = inr l.
Proof.
  unfold deserialize, writeSignersToSLE. simpl. rewrite lookup_insert_eq. by rewrite signer_objects_back.
Qed.

(** A list that passes is in order, not empty, does not name the account, and its
    weights reach the quorum. *)
Lemma signer_list_ok tx ter quorum signers l :
  deserialize (tx_fields tx) = inr l → Forall (λ e, s_weight e < 2 ^ 16) l →
  determineOperation tx = (ter, quorum, signers, set_list) → SetSignerList_check tx = Ok tesSUCCESS →
  list_ok signers ∧ signers ≡ₚ l ∧ 0 < quorum ≤ weights signers ∧ Forall (λ e, s_account e ≠ tx_account tx) signers.
Proof.
  intros Hd Hw Hop. unfold SetSignerList_check. rewrite Hop. intros [= Hck].
  assert (signers = merge_sort signer_le l) as Hs.
  { unfold determineOperation in Hop. rewrite Hd in Hop. destruct (_ && _); [by injection Hop|].
    by destruct (_ && _). }
  destruct (is_success ter) eqn:E; cbn [negb] in Hck; [|by rewrite Hck in E].
  pose proof (merge_sort_Permutation signer_le l) as Hp. rewrite <- Hs in Hp.
  assert (Forall (λ e, s_weight e < 2 ^ 16) signers) as Hw' by by rewrite Hp.
  unfold validateQuorumAndSignerEntries in Hck. destruct (_ || _) eqn:Elen in Hck; [done|].
  apply orb_false_iff in Elen as [Hmin%Nat.ltb_ge Hmax%Nat.ltb_ge]. unfold minMultiSigners, maxMultiSigners in *.
  destruct (adjacent_equal signers) eqn:Eadj; [done|].
  destruct (validate_signers (tx_account tx) 0 signers) as [|r] eqn:Ev; [rewrite Hck in Ev; by apply validate_signers_fails in Ev|].
  destruct (_ || _) eqn:Eq in Hck; [done|]. apply orb_false_iff in Eq as [Hq%Z.leb_gt Hq'%Z.ltb_ge].
  apply validate_signers_ok in Ev as [Hall ->]; [|lia|lia|done].
  split_and!; [|done|lia|lia|by eapply Forall_impl; [exact Hall|intros e []]]. split.
  - apply Sorted_StronglySorted; [apply _|]. apply signers_sorted_strict; [|done]. subst signers. apply Sorted_merge_sort, _.
  - intros ->. simpl in Hmin. lia.
  - rewrite Forall_forall in *. intros e He. specialize (Hall e He). specialize (Hw' e He). simpl in *. lia.
Qed.

End SettingsFacts.
