(* ===== verification/PaymentFacts.v ===== *)
(** * Payments of the native currencies

    A direct payment is lawful: the drops that leave one account arrive in the
    other, which is created if need be. *)

From stdpp Require Import strings.
From S2P Require Import Prelude StateMonad Issue Decimal STAmount STAmountFacts BigNum STAmountArith Views Overlay RawStateTable RawFacts.
From S2P Require Import ApplyStateTable ApplyFacts ViewLogic Objects Directory Indexes TrustLines LoadFeeTrack Transaction HashRouter.
From S2P Require Import LedgerFormats Metadata Transactor TxSettings Payment MetadataFacts Funds TransactorFacts TxLaws.
Import Apply ApplyFacts VL Dir Idx Tx Trust Obj Transact Settings Pay MetaFacts Funds TxFacts TxLaws.

Open Scope Z_scope.
Open Scope prog_scope.

Module PayFacts.

(** ** Amounts *)

Lemma safe_scale_down e m x : caught e = true → safe (scale_down e m x) (λ _, True).
Proof.
  intros He. unfold scale_down. generalize (Datatypes.S (Z.to_nat (maxExponent - x))), (m, x).
  intros n. induction n as [|n IH]; intros s; [done|]. cbn [while_throw].
  destruct (maxMantissa <? s.1); [|done]. destruct (maxExponent <=? s.2); [done|]. apply IH.
Qed.

Lemma safe_canonicalize a : safe (Amt.canonicalize a) (λ _, True).
Proof.
  unfold Amt.canonicalize. destruct (Amt.amt_isNative a), (Amt.mValue a =? 0); try done.
  - destruct (Amt.native_down _ _) as [v1 o1], (Amt.native_up _ _) as [v2 o2]. by destruct (_ <? _).
  - destruct (scale_up u64 _ _) as [v1 o1]. eapply safe_bind; [by apply safe_scale_down|]. intros [v2 o2] _.
    by repeat case_match.
Qed.

Lemma safe_ltb a b : safe (Amt.ltb a b) (λ _, True).
Proof. unfold Amt.ltb. by repeat case_match. Qed.

Lemma safe_add a b : safe (Amt.add a b) (λ _, True).
Proof.
  unfold Amt.add, Amt.getSNValue, Amt.make. destruct (negb (Amt.areComparable a b)); [done|].
  destruct (Amt.is_zero b); [done|]. destruct (Amt.is_zero a); [apply safe_canonicalize|].
  destruct (Amt.mIsNative a), (Amt.mIsNative b); cbn [negb rbind safe]; try done.
  all: destruct (align _ _ _) as [vv1 ov1], (align _ _ _) as [vv2 ov2]; repeat case_match; try done; apply safe_canonicalize.
Qed.

Lemma add_issue a b r :
  AmtFacts.wf a → AmtFacts.wf b → Amt.mIsNative a = true → Amt.mIsNative b = true → Amt.add a b = Ok r →
  isNative (currency (Amt.mIssue r)) = true ∧ 0 ≤ Amt.mValue r.
Proof.
  intros Ha Hb Hna Hnb. destruct (AmtFacts.wf_native a Ha Hna) as (Hia & Hoa & Hva & Hsa).
  destruct (AmtFacts.wf_native b Hb Hnb) as (Hib & Hob & Hvb & Hsb).
  unfold Amt.add, Amt.getSNValue. rewrite Hna, Hnb. cbn [negb rbind].
  destruct (negb _); [done|]. destruct (Amt.is_zero b); [intros [= <-]; split; [done|lia]|]. destruct (Amt.is_zero a).
  - rewrite AmtFacts.make_wf by (rewrite Hia; by split). intros [= <-]. simpl. split; [done|lia].
  - intros [= <-]. unfold Amt.make_native_signed, Amt.set_signed. destruct (_ <? 0); cbn [Amt.mIssue Amt.mValue];
      (split; [by destruct (Amt.amt_isVBC a)|apply u64_range]).
Qed.

(** Sums that are neither negative nor too large are amounts again. *)
Lemma add_funded a b :
  AmtFacts.wf a → AmtFacts.wf b → Amt.mIsNative a = true → Amt.mIsNative b = true →
  0 ≤ AmtFacts.sv a + AmtFacts.sv b ≤ Amt.cMaxNativeN →
  ∃ r, Amt.add a b = Ok r ∧ AmtFacts.wf r ∧ Amt.mIsNative r = true ∧ AmtFacts.sv r = AmtFacts.sv a + AmtFacts.sv b.
Proof.
  intros Ha Hb Hna Hnb Hr. destruct (AmtFacts.add_native a b Ha Hb Hna Hnb) as (r & E & Hsv & Hn & Ho & Hz).
  destruct (add_issue a b r Ha Hb Hna Hnb E) as [Hi Hpos].
  exists r. split_and!; [done| |done|done]. rewrite <- Hsv in Hr.
  unfold AmtFacts.wf. rewrite Hn. split; [done|]. split; [done|]. split; [|done]. unfold AmtFacts.sv in Hr.
  destruct (Amt.mIsNegative r) eqn:Eneg; [|lia]. destruct (Z.eq_dec (Amt.mValue r) 0) as [E0|]; [by specialize (Hz E0)|lia].
Qed.

Lemma sub_funded d b :
  0 ≤ d ≤ Amt.cMaxNativeN → AmtFacts.wf b → Amt.mIsNative b = true → 0 ≤ AmtFacts.sv b ≤ d →
  ∃ r, less_drops d b = Ok r ∧ AmtFacts.wf r ∧ Amt.mIsNative r = true ∧ AmtFacts.sv r = d - AmtFacts.sv b.
Proof.
  intros Hd Hb Hnb Hle. unfold less_drops. rewrite of_xrp_ok by done. cbn [rbind]. unfold Amt.sub.
  destruct (xrp_amount_wf d Hd) as [Hw Hsv]. assert (AmtFacts.sv (Amt.neg b) = - AmtFacts.sv b) as Hneg.
  { unfold Amt.neg, AmtFacts.sv. destruct (Z.eqb_spec (Amt.mValue b) 0) as [->|]; [by destruct (Amt.mIsNegative b)|].
    simpl. destruct (Amt.mIsNegative b); simpl; lia. }
  destruct (add_funded (xrp_amount d) (Amt.neg b)) as (r & E & Hwr & Hnr & Hr); [done| |done| |rewrite Hneg, Hsv; lia|].
  - destruct Hb as [Hi Hb]. unfold Amt.neg. destruct (Z.eqb_spec (Amt.mValue b) 0); [done|]. split; [done|]. simpl.
    destruct (Amt.mIsNative b); [|done]. destruct Hb as (? & ? & ?). split; [done|]. by split.
  - unfold Amt.neg. by destruct (_ =? 0).
  - exists r. split_and!; [done..|]. rewrite Hr, Hneg, Hsv. lia.
Qed.

Section direct.
Context `{Dg : Digest} `{BN : BigNum} `{Ks : Keys} `{MW : Meta.MetaWire} {V : Type} {RV : ReadView STObject V}.
Abbreviation ledger := (Raw.OpenView STObject V).
Context (fees : Fees).
Implicit Types (m c : gmap Z (SLE STObject)) (s : SLE STObject) (o : STObject).

Lemma ledger_kept_trans m1 m2 m3 : kept m1 m2 → kept m2 m3 → kept m1 m3.
Proof using Type. intros [? H1 H1'] [? H2 H2']. split; [done|by rewrite H2|]. intros a n ?. by apply H2', H1'. Qed.

Lemma ledger_grows_trans m1 m2 m3 : grows m1 m2 → grows m2 m3 → grows m1 m3.
Proof using Type. intros H1 H2 k Hk. by apply H2, H1. Qed.

(** ** The destination *)

Definition new_account (a : AccountID) : STObject := setFieldU32 sfSequence 1 (setAccountID sfAccount a empty_object).

Lemma new_account_funded a : funded (new_account a) ∧ drops_of (new_account a) = 0 ∧ counted (new_account a).
Proof using Type. by split_and!. Qed.

Lemma kept_create m a :
  sound m → m !! getAccountRootIndex a = None →
  kept m (<[getAccountRootIndex a := mkSLE (getAccountRootIndex a) ltACCOUNT_ROOT (new_account a)]> m).
Proof using Type.
  intros Hm Hk. set (s := mkSLE _ _ _). destruct (new_account_funded a) as (Hf & Hd & Hn).
  assert (total (<[getAccountRootIndex a := s]> m) = total m) as Ht.
  { rewrite total_insert by done. unfold xrp_of. change (is_root s) with true. cbn [s fields]. lia. }
  destruct Hm as [He Hr Hle]. assert (sound (<[getAccountRootIndex a := s]> m)) as Hm'.
  { split; [|intros b s' [[_ <-]|[_ ?]]%lookup_insert_Some; [done|by apply (Hr b)]|lia].
    apply map_Forall_insert_2; [by split|done]. }
  split; [done|done|]. intros b n. unfold seq_of, root_of. rewrite !root_lookup by done.
  destruct (decide (getAccountRootIndex a = getAccountRootIndex b)) as [E|Hne]; [by rewrite <- E, Hk|by rewrite lookup_insert_ne].
Qed.

Lemma destination_ok c (v0 v : ApplyView STObject ledger) m hs D dst (Q : loc → ApplyView STObject ledger → Prop) :
  reads_as (base_ v0) c → sound m → state c v0 m hs ∅ D v →
  (∀ p m1 hs1 v1 s1, state c v0 m1 hs1 ∅ ({[getAccountRootIndex dst]} ∪ D) v1 → hs1 !! p = Some (getAccountRootIndex dst) →
     m1 !! getAccountRootIndex dst = Some s1 → kept m m1 → grows m m1 →
     (∀ k s, m !! k = Some s → m1 !! k = Some s) → Q p v1) →
  wp (destination (V := V) dst) v Q.
Proof using Type.
  intros Hb Hm Hst HQ. unfold destination. destruct (m !! getAccountRootIndex dst) as [s|] eqn:E.
  - eapply (wp_peek_some c v0 Hb); [done|by rewrite root_lookup|]. intros p v1 Hsub H1. cbn [k_key keylet.account] in *.
    eapply wp_update_clean; [done|apply lookup_insert_eq|done|apply not_elem_of_empty|]. intros v2 H2. apply wp_ret.
    eapply HQ; [exact H2|apply lookup_insert_eq|done|by apply ledger_kept_refl|by intros ?|done].
  - eapply (wp_peek_none c v0 Hb); [done|by rewrite root_lookup|]. intros v1 H1. cbn [k_key keylet.account] in *.
    eapply wp_make_insert_clean; [done|done|apply not_elem_of_empty|]. intros p v2 Hsub H2. apply wp_ret.
    eapply HQ; [exact H2|apply lookup_insert_eq|apply lookup_insert_eq|by apply kept_create|apply grows_insert|].
    intros k s Hk. rewrite lookup_insert_ne; [done|]. simpl. congruence.
Qed.

(** ** The payment *)

(** A program that returns or throws what is caught. *)
Definition wps {A} (p : prog STObject ledger A) v (Q : A → ApplyView STObject ledger → Prop) : Prop :=
  safe (p v) (λ r, Q r.1 r.2).

Lemma wps_bind {A B} (p : prog STObject ledger A) (k : A → prog STObject ledger B) v Q :
  wp p v (λ a v', wps (k a) v' Q) → wps (bind p k) v Q.
Proof using Type. apply (wp_then p k v (λ r, safe r (λ r, Q r.1 r.2))). Qed.

Lemma wps_lift {A B} (r : result A) (P : A → Prop) (k : A → prog STObject ledger B) v Q :
  safe r P → (∀ a, P a → wps (k a) v Q) → wps (bind (lift r) k) v Q.
Proof using Type. intros Hr Hk. unfold wps, bind, lift. destruct r; cbn [rbind fst snd]; [by apply Hk|done]. Qed.

Lemma wps_ret {A} (a : A) v (Q : A → ApplyView STObject ledger → Prop) : Q a v → wps (ret a) v Q.
Proof using Type. done. Qed.

(** Reserves that are far from what a 64 bit integer can hold. *)
Definition sane_fees : Prop := 0 ≤ reserve fees ∧ 0 ≤ increment fees ∧ reserve fees + 2 ^ 32 * increment fees ≤ 2 ^ 61.

Lemma reserve_range n : sane_fees → 0 ≤ n < 2 ^ 32 → 0 ≤ Transact.accountReserve fees n ≤ 2 ^ 61.
Proof using Type.
  intros (H1 & H2 & H3) Hn. unfold Transact.accountReserve. assert (0 ≤ n * increment fees ≤ 2 ^ 32 * increment fees) by nia.
  rewrite u64_id, i64_id by lia. lia.
Qed.

Section pay.
Context (c : gmap Z (SLE STObject)) (v0 : ApplyView STObject ledger) (Hb : reads_as (base_ v0) c).
Context (m : gmap Z (SLE STObject)) (Hm : sound m) (D : gset Z) (a dst : AccountID) (s sd : SLE STObject).
Context (Hs : m !! getAccountRootIndex a = Some s) (HD : getAccountRootIndex a ∈ D).
Context (Hsd : m !! getAccountRootIndex dst = Some sd) (HdD : getAccountRootIndex dst ∈ D).
Context (amount : Amt.STAmount) (Hw : AmtFacts.wf amount) (Hn : Amt.mIsNative amount = true) (Hpos : 0 < AmtFacts.sv amount).

Lemma root_at m' b e : sound m' → m' !! getAccountRootIndex b = Some e →
  is_root e = true ∧ funded (fields e) ∧ counted (fields e) ∧ drops_of (fields e) ≤ total m'.
Proof using Type.
  intros Hm' He. pose proof (sound_roots m' Hm' b e He) as Hr. pose proof (sound_entries m' Hm' _ _ He) as [Hf Hc _].
  pose proof (xrp_le_total m' _ _ (sound_entries m' Hm') He) as Hle. unfold xrp_of in Hle. rewrite Hr in Hle. auto.
Qed.

(** A balance that is set. *)
Lemma set_balance m' b e r :
  sound m' → m' !! getAccountRootIndex b = Some e → AmtFacts.wf r → Amt.mIsNative r = true → 0 ≤ AmtFacts.sv r →
  total m' - drops_of (fields e) + AmtFacts.sv r ≤ Amt.cMaxNativeN →
  let m2 := <[getAccountRootIndex b := with_fields e (setFieldAmount sfBalance r)]> m' in
  sound m2 ∧ total m2 = total m' - drops_of (fields e) + AmtFacts.sv r ∧ ∀ x n, seq_of m' x = Some n → seq_of m2 x = Some n.
Proof using Type.
  intros Hm' He Hr Hnr H0 Hle m2. destruct (root_at m' b e Hm' He) as (Hroot & Hf & Hc & _).
  assert (balance_of (setFieldAmount sfBalance r (fields e)) = r) as Eb
    by (unfold balance_of, getFieldAmount; simpl; by rewrite lookup_insert_eq).
  assert (drops_of (setFieldAmount sfBalance r (fields e)) = AmtFacts.sv r) as Ed by (unfold drops_of; by rewrite Eb).
  destruct (sound_update m' (getAccountRootIndex b) e (setFieldAmount sfBalance r) Hm' He Hroot) as [Hm2 Ht];
    [unfold funded; rewrite Ed, Eb; done|exact Hc|lia|].
  split; [done|]. split; [unfold m2; lia|]. intros x n. unfold m2, seq_of. rewrite root_of_update by done.
  case_decide as E; [|done]. unfold root_of. rewrite root_lookup by done. by rewrite E, He.
Qed.

(** The last step: the destination may change its password again. *)
Lemma rearm_good m2 hs v q e :
  state c v0 m2 hs ∅ D v → hs !! q = Some (getAccountRootIndex dst) → m2 !! getAccountRootIndex dst = Some e → kept m m2 → grows m m2 →
  wps (let! spent := get q (λ o, has_any (getFieldU32 sfFlags o) lsfPasswordSpent) in
       when spent (set q (clearFlag lsfPasswordSpent));;
       ret tesSUCCESS) v (good c v0 m).
Proof using HdD.
  intros Hst Hq He Hk Hg. apply wps_bind. eapply wp_get; [done..|]. apply wps_bind. apply wp_when; intros _.
  - eapply wp_set; [done..|]. intros v' Hst'. apply (state_settle _ _ _ _ _ _ _ (getAccountRootIndex dst)) in Hst'; [|done].
    rewrite settled in Hst' by apply not_elem_of_empty. apply wps_ret. eexists _, hs, ∅, D. split; [exact Hst'|].
    split; [eapply ledger_grows_trans; [done|apply grows_insert]|]. intros _. split; [done|].
    eapply ledger_kept_trans; [done|]. apply kept_gentle; [by apply (kept_sound m)|done| |by apply gentle_u32].
    by apply (sound_roots m2 (kept_sound _ _ Hk) dst).
  - apply wps_ret. by exists m2, hs, ∅, D.
Qed.

Abbreviation rearm q := (
  let! spent := get q (λ o, has_any (getFieldU32 sfFlags o) lsfPasswordSpent) in
  when spent (set q (clearFlag lsfPasswordSpent));;
  ret tesSUCCESS).

Lemma wps_set_known m' hs v p k e f (Q : () → ApplyView STObject ledger → Prop) :
  state c v0 m' hs ∅ D v → hs !! p = Some k → m' !! k = Some e → k ∈ D →
  (∀ v', state c v0 (<[k := with_fields e f]> m') hs ∅ D v' → Q tt v') → wp (set p f) v Q.
Proof using Type.
  intros Hst Hp He Hk HQ. eapply wp_set; [done..|]. intros v' Hst'.
  apply (state_settle _ _ _ _ _ _ _ k) in Hst'; [|done]. rewrite settled in Hst' by apply not_elem_of_empty. by apply HQ.
Qed.

Lemma move_xrp hs v p q :
  state c v0 m hs ∅ D v → hs !! p = Some (getAccountRootIndex a) → hs !! q = Some (getAccountRootIndex dst) →
  AmtFacts.sv amount ≤ drops_of (fields s) →
  wps (let! rest := lift (less_drops (drops_of (fields s)) amount) in
       set p (setFieldAmount sfBalance rest);;
       let! balance := get q (getFieldAmount sfBalance) in
       let! balance := lift (Amt.add balance amount) in
       set q (setFieldAmount sfBalance balance);;
       rearm q) v (good c v0 m).
Proof using Hm Hs HD Hsd HdD Hw Hn Hpos.
  intros Hst Hp Hq Hle. destruct (root_at m a s Hm Hs) as (_ & Hf & _ & Hts). pose proof (sound_total m Hm) as Hmax.
  pose proof Hf as (_ & _ & H0). destruct (sub_funded (drops_of (fields s)) amount) as (r & Er & Hwr & Hnr & Hsr); [lia|done|done|lia|].
  eapply (wps_lift _ (λ x, x = r)); [by rewrite Er|]. intros _ ->.
  destruct (set_balance m a s r Hm Hs Hwr Hnr) as (Hm2 & Ht2 & Hq2); [lia|lia|].
  apply wps_bind. eapply (wps_set_known m); [done..|]. intros v2 H2. set (m2 := <[_ := _]> m) in *.
  assert (∃ e, m2 !! getAccountRootIndex dst = Some e) as [e He].
  { destruct (grows_insert m (getAccountRootIndex a) (with_fields s (setFieldAmount sfBalance r)) (getAccountRootIndex dst)) as [e He]; eauto. }
  destruct (root_at m2 dst e Hm2 He) as (_ & (Hwe & Hne & H0e) & _ & Hte).
  apply wps_bind. eapply wp_get; [done..|]. fold (balance_of (fields e)). fold (drops_of (fields e)) in *.
  destruct (add_funded (balance_of (fields e)) amount) as (r' & Er' & Hwr' & Hnr' & Hsr'); [done|done|done|done|unfold drops_of in *; lia|].
  eapply (wps_lift _ (λ x, x = r')); [by rewrite Er'|]. intros _ ->. change (AmtFacts.sv (balance_of (fields e))) with (drops_of (fields e)) in Hsr'.
  destruct (set_balance m2 dst e r' Hm2 He Hwr' Hnr') as (Hm3 & Ht3 & Hq3); [lia|lia|].
  apply wps_bind. eapply (wps_set_known m2); [done..|]. intros v3 H3.
  eapply rearm_good; [exact H3|done|apply lookup_insert_eq| |].
  - split; [done|lia|]. intros x n Hx. by apply Hq3, Hq2.
  - eapply ledger_grows_trans; apply grows_insert.
Qed.

Lemma gentle_vbc r : gentle (setFieldAmount sfBalanceVBC r).
Proof using Type. intros o. simpl. by rewrite lookup_insert_ne. Qed.

Lemma move_vbc hs v p q x :
  state c v0 m hs ∅ D v → hs !! p = Some (getAccountRootIndex a) → hs !! q = Some (getAccountRootIndex dst) →
  wps (let! rest := lift (Amt.sub x amount) in
       set p (setFieldAmount sfBalanceVBC rest);;
       let! balance := get q (getFieldAmount sfBalanceVBC) in
       let! balance := lift (Amt.add balance amount) in
       set q (setFieldAmount sfBalanceVBC balance);;
       rearm q) v (good c v0 m).
Proof using Hm Hs HD Hsd HdD.
  intros Hst Hp Hq. eapply wps_lift; [apply safe_add|]. intros r _.
  assert (kept m (<[getAccountRootIndex a := with_fields s (setFieldAmount sfBalanceVBC r)]> m)) as Hk2.
  { apply kept_gentle; [done|done|by apply (sound_roots m Hm a)|apply gentle_vbc]. }
  apply wps_bind. eapply (wps_set_known m); [done..|]. intros v2 H2. set (m2 := <[_ := _]> m) in *.
  assert (∃ e, m2 !! getAccountRootIndex dst = Some e) as [e He].
  { destruct (grows_insert m (getAccountRootIndex a) (with_fields s (setFieldAmount sfBalanceVBC r)) (getAccountRootIndex dst)) as [e He]; eauto. }
  apply wps_bind. eapply wp_get; [done..|]. eapply wps_lift; [apply safe_add|]. intros r' _.
  apply wps_bind. eapply (wps_set_known m2); [done..|]. intros v3 H3.
  eapply rearm_good; [exact H3|done|apply lookup_insert_eq| |eapply ledger_grows_trans; apply grows_insert].
  eapply ledger_kept_trans; [done|]. pose proof (kept_sound _ _ Hk2) as Hm2.
  apply kept_gentle; [done|done|by apply (sound_roots m2 Hm2 dst)|apply gentle_vbc].
Qed.

Lemma pay_direct_good (tx : STTx) (st : State) fee hs v q :
  sane_fees → getFieldAmount sfAmount (tx_fields tx) = amount → account_ st = a → mSourceBalance st = drops_of (fields s) →
  mPriorBalance st = drops_of (fields s) + fee → 0 ≤ fee ≤ SYSTEM_CURRENCY_START → Amt.xrp (getFieldAmount sfFee (tx_fields tx)) = Ok (Amt.mkXRP fee false) →
  state c v0 m hs ∅ D v → hs !! q = Some (getAccountRootIndex dst) →
  wps (pay_direct (V := V) fees tx st q) v (good c v0 m).
Proof using Hb Hm Hs HD Hsd HdD Hw Hn Hpos.
  intros Hsane Eamt Ha Hsrc Hprior Hfee0 Hfee Hst Hq. unfold pay_direct. rewrite Ha, Eamt.
  assert (lookup_keylet m (keylet.account a) = Some s) as Hl by by rewrite root_lookup.
  pose proof (reads_read _ _ (state_view_reads c v0 Hb _ _ _ _ _ Hst) (keylet.account a)) as Hrd. rewrite Hl in Hrd.
  apply wps_bind. unfold wp, read. cbn beta. rewrite (Hrd : Apply.read v _ = _).
  apply wps_bind, wp_ret. eapply (wps_lift _ (λ x, x = Amt.mkXRP fee false)); [by rewrite Hfee|]. intros _ ->. cbn [Amt.drops_].
  destruct (root_at m a s Hm Hs) as (_ & Hf & Hcnt & Hts). pose proof (sound_total m Hm) as Hmax. pose proof Hf as (_ & _ & H0).
  pose proof (reserve_range _ Hsane Hcnt) as Hres. set (res := Transact.accountReserve _ _) in *.
  destruct (AmtFacts.wf_native amount Hw Hn) as (_ & _ & Hv & _).
  assert (AmtFacts.sv amount ≤ Amt.cMaxNativeN) as Hamt by (unfold AmtFacts.sv; destruct (Amt.mIsNegative amount); lia).
  pose proof max_native as Hmx.
  assert (safe (native_part amount) (λ x, x = if Amt.amt_isVBC amount then 0 else AmtFacts.sv amount)) as Hpart.
  { unfold native_part. destruct (Amt.amt_isVBC amount); [done|]. by rewrite (xrp_native amount Hw Hn). }
  eapply wps_lift; [exact Hpart|]. intros sent ->.
  assert (∀ (b : bool) (P Q : prog STObject ledger TER), (b = true → wps P v (good c v0 m)) → (b = false → wps Q v (good c v0 m)) →
    wps (if b then P else Q) v (good c v0 m)) as Hif by (intros []; auto).
  assert (wps (ret (S := ApplyView STObject ledger) tecUNFUNDED_PAYMENT) v (good c v0 m)) as Hpoor.
  { exists m, hs, ∅, D. split; [done|]. by split; [intros ?|]. }
  assert (∀ hs', hs ⊆ hs' → hs' !! q = Some (getAccountRootIndex dst)) as Hq' by (intros hs' Hsub; by eapply lookup_weaken).
  destruct (Amt.amt_isVBC amount) eqn:Evbc; cbv zeta.
  - assert (∀ b : bool, wps (if b then ret tecUNFUNDED_PAYMENT else
        let! src := peek (keylet.account a) in
        let! src := non_null src in
        let! rest := lift (Amt.sub (getFieldAmount sfBalanceVBC (fields s)) amount) in
        set src (setFieldAmount sfBalanceVBC rest);;
        let! balance := get q (getFieldAmount sfBalanceVBC) in
        let! balance := lift (Amt.add balance amount) in
        set q (setFieldAmount sfBalanceVBC balance);; rearm q) v (good c v0 m)) as Hgo.
    { intros b. apply Hif; [done|intros _]. apply wps_bind. eapply (wp_peek c v0 Hb); [done|congruence|].
      intros s' p v' _ Hsub H'. apply wps_bind, wp_ret. cbn [k_key keylet.account] in *.
      eapply move_vbc; [done|apply lookup_insert_eq|by apply Hq']. }
    destruct (_ <? _); [apply wps_bind, wp_ret, (Hgo true)|]. eapply wps_lift; [apply safe_ltb|]. intros b _. apply Hgo.
  - destruct (Z.ltb_spec (mPriorBalance st) (i64 (AmtFacts.sv amount + Z.max res fee))) as [Hlt|Hge].
    { by apply wps_bind, wp_ret. }
    apply wps_bind, wp_ret. apply wps_bind. eapply (wp_peek c v0 Hb); [done|congruence|].
    intros s' p v' _ Hsub H'. apply wps_bind, wp_ret. cbn [k_key keylet.account] in *. rewrite Hsrc.
    eapply move_xrp; [done|apply lookup_insert_eq|by apply Hq'|].
    unfold SYSTEM_CURRENCY_START in *. rewrite i64_id in Hge by lia. lia.
Qed.

End pay.

(** ** The law *)

Context (config : Config) (now : Z).
Context (rippleCalculate : Amt.STAmount → Amt.STAmount → AccountID → AccountID → list STPath → Input →
  prog STObject ledger (TER * Amt.STAmount)).

Lemma check_asset_safe tx bMax cur amount : 0 < Amt.signum amount → safe (check_asset config tx bMax cur amount) refuses.
Proof using Type.
  intros Hsg. unfold check_asset. eapply (safe_bind _ _ refuses).
  - destruct (_ =? _); [|done]. destruct (_ =? _); [done|].
    eapply safe_bind; [unfold Amt.make_signed; destruct (Amt.set_signed _); apply safe_canonicalize|]. intros least _.
    eapply safe_bind; [apply safe_ltb|]. intros [] _; [done|]. unfold Arith.isMathematicalInteger, Arith.ctzll.
    unfold Amt.signum in Hsg. destruct (_ =? 0); [lia|]. cbn [rbind safe]. by destruct (negb _).
  - intros ter Hter. destruct (is_success ter) eqn:E; cbn [negb]; [|done]. destruct (_ =? cur); [|done]. by repeat case_match.
Qed.

Lemma Payment_check_safe tx : safe (Payment_check config tx) refuses.
Proof using Type.
  unfold Payment_check. destruct (has_any _ _); [done|]. eapply (safe_bind _ _ (λ _, True)).
  { unfold max_source. destruct (_ !! _); [done|]. destruct (Amt.mIsNative _); [done|]. apply safe_canonicalize. }
  intros maxSource _. cbv zeta. do 3 (match goal with |- safe (if ?b then _ else _) _ => destruct b; [done|] end).
  destruct (Z.leb_spec (Amt.signum (getFieldAmount sfAmount (tx_fields tx))) 0) as [|Hsg]; [done|].
  do 7 (match goal with |- safe (if ?b then _ else _) _ => destruct b; [done|] end).
  eapply safe_bind; [by apply check_asset_safe|]. intros ter Hter. destruct (is_success ter) eqn:E; cbn [negb]; [|done].
  unfold check_deliver_min. destruct (_ !! _); [|done].
  do 3 (match goal with |- safe (if ?b then _ else _) _ => destruct b; [done|] end).
  eapply safe_bind; [apply safe_ltb|]. by intros [] _.
Qed.

(** What is paid is more than nothing. *)
Lemma Payment_check_positive tx : Payment_check config tx = Ok tesSUCCESS → 0 < Amt.signum (getFieldAmount sfAmount (tx_fields tx)).
Proof using Type.
  unfold Payment_check. destruct (has_any _ _); [done|]. destruct (max_source _ _); [|done]. cbn [rbind].
  do 3 (match goal with |- (if ?b then _ else _) = _ → _ => destruct b; [done|] end).
  destruct (Z.leb_spec (Amt.signum (getFieldAmount sfAmount (tx_fields tx))) 0); [done|lia].
Qed.

Lemma Payment_preclaim_safe view flags tx : safe (Payment_preclaim (V := V) fees view flags tx) (λ _, True).
Proof using Type.
  unfold Payment_preclaim. eapply (safe_bind _ _ (λ _, True)).
  - destruct (read_account _ _); [done|]. destruct (negb _); [done|]. destruct (_ && _); [done|].
    eapply safe_bind; [apply safe_canonicalize|]. intros res _. eapply safe_bind; [apply safe_ltb|]. done.
  - intros ter _. destruct (negb _); [done|]. by destruct (is_ripple tx).
Qed.

Lemma Payment_doApply_good info tx st fee c (v0 v : ApplyView STObject ledger) m hs D s :
  sane_fees → is_ripple tx = false → AmtFacts.wf (getFieldAmount sfAmount (tx_fields tx)) →
  0 < AmtFacts.sv (getFieldAmount sfAmount (tx_fields tx)) → reads_as (base_ v0) c → sound m → state c v0 m hs ∅ D v →
  m !! getAccountRootIndex (tx_account tx) = Some s → getAccountRootIndex (tx_account tx) ∈ D → account_ st = tx_account tx →
  mSourceBalance st = drops_of (fields s) → mPriorBalance st = drops_of (fields s) + fee → 0 ≤ fee ≤ SYSTEM_CURRENCY_START →
  Amt.xrp (getFieldAmount sfFee (tx_fields tx)) = Ok (Amt.mkXRP fee false) →
  safe (Payment_doApply fees rippleCalculate info tx st v) (λ r, good c v0 m r.1.1 r.2).
Proof using Type.
  intros Hsane Hdir Hw Hpos Hb Hm Hst Hs HD Ha Hsrc Hprior Hmax Hfee.
  assert (Amt.mIsNative (getFieldAmount sfAmount (tx_fields tx)) = true) as Hn.
  { unfold is_ripple in Hdir. apply orb_false_iff in Hdir as [_ ?%negb_false_iff]. done. }
  unfold Payment_doApply. rewrite Hdir. apply (wp_then _ _ _ (λ r, safe r (λ r, good c v0 m r.1.1 r.2))).
  eapply destination_ok; [done..|]. intros p m1 hs1 v1 s1 H1' Hp Hs1 Hk Hg Hsub.
  set (dst := getAccountID sfDestination (tx_fields tx)) in *.
  assert (wps (pay_direct fees tx st p) v1 (good c v0 m1)) as Hgood.
  { apply (pay_direct_good c v0 Hb m1 (kept_sound _ _ Hk) ({[getAccountRootIndex dst]} ∪ D) (tx_account tx) dst s s1 (Hsub _ _ Hs)
      (elem_of_union_r _ _ _ HD) Hs1 (elem_of_union_l _ _ _ (proj2 (elem_of_singleton _ _) eq_refl)) _ Hw Hn Hpos tx st fee hs1); done. }
  unfold wps in Hgood. unfold plain, bind. destruct (pay_direct fees tx st p v1) as [[ter v2]|]; [|done]. cbn [rbind safe ret fst snd] in *.
  destruct Hgood as (m2 & hs2 & K2 & D2 & H2 & Hg2 & Hk2). exists m2, hs2, K2, D2. split; [done|].
  split; [by eapply ledger_grows_trans|]. intros Hter. destruct (Hk2 Hter) as [-> ?]. split; [done|]. by eapply ledger_kept_trans.
Qed.

(** Direct payments are lawful, whatever the engine. *)
Lemma Payment_lawful tx :
  sane_fees → is_ripple tx = false → AmtFacts.wf (getFieldAmount sfAmount (tx_fields tx)) →
  Lawful (Payment config fees now rippleCalculate) tx.
Proof using Type.
  intros Hsane Hdir Hw. split.
  - intros rules flags router. apply preflight_with_ok, Payment_check_safe.
  - intros view c flags _ _ _ _. apply Payment_preclaim_safe.
  - intros info rules flags st c v0 v m hs D (rules' & flags' & router & router' & Hch) Hb Hm Hst HD [Ha (fee & Hfee & Hfee0 & Hprior) (o & Ho & Hsrc)].
    pose proof (preflight_with_ok config now (Payment_check config) rules' flags' tx router (Payment_check_safe tx)) as Hpf.
    cbn [t_preflight Payment] in Hch. rewrite Hch in Hpf. destruct (Hpf eq_refl) as [_ H1].
    destruct (preflight1_ok tx H1) as (_ & fee' & Hfee' & Hmax). assert (fee' = fee) as -> by congruence.
    apply preflight_with_own, Payment_check_positive in Hch. destruct (root_entry m _ o Hm Ho) as (s & Hs & <-).
    eapply Payment_doApply_good; try done; [|congruence].
    unfold Amt.signum in Hch. unfold AmtFacts.sv. destruct Hw as [_ Hw].
    destruct (Z.eqb_spec (Amt.mValue (getFieldAmount sfAmount (tx_fields tx))) 0); [lia|].
    destruct (Amt.mIsNegative _); [lia|]. unfold is_ripple in Hdir. apply orb_false_iff in Hdir as [_ Hn%negb_false_iff].
    rewrite Hn in Hw. lia.
Qed.

End direct.

End PayFacts.
