(* ===== verification/TxProps.v ===== *)
(** * Properties of transactions *)

From stdpp Require Import strings.
From S2P Require Import Prelude StateMonad Issue Decimal STAmount STAmountFacts BigNum STAmountArith Views Overlay RawStateTable RawFacts.
From S2P Require Import ApplyStateTable ApplyFacts ViewLogic Objects Directory Indexes TrustLines LoadFeeTrack Transaction HashRouter.
From S2P Require Import LedgerFormats Metadata Transactor SignFacts TxSettings Payment MetadataFacts Funds TransactorFacts TxLaws PaymentFacts.
Import Apply ApplyFacts VL Dir Idx Formats Tx Trust Obj Transact Settings Pay MetaFacts Funds TxFacts TxLaws PayFacts SettingsFacts.

Open Scope Z_scope.
Open Scope prog_scope.

Module TxProps.

Section properties.
Context `{Dg : Digest} `{BN : BigNum} `{Ks : Keys} `{MW : Meta.MetaWire} {V : Type} {RV : ReadView STObject V}.
Abbreviation ledger := (Raw.OpenView STObject V).
Abbreviation open_holds := (RawFacts.open_holds (V := V)).
Context (config : Config) (feeTrack : LoadFee.LoadFeeTrack) (fees : Fees) (now : Z).
Context (transactors : TxType → option (Transactor (V := V))).
Abbreviation apply_transaction := (apply_transaction config feeTrack fees transactors).

(** The transaction is of a type that keeps what it promises, and not a ring
    deposit, whose fee goes to an account. *)
Definition ordinary (tx : STTx) : Prop :=
  getTxnType tx ≠ ttRING_DEPOSIT ∧ ∀ T, transactors (getTxnType tx) = Some T → Lawful T tx.




(** Ledgers that transactions lead to. *)
Inductive reaches (base : ledger) : ledger → Prop :=
  | reaches_refl : reaches base base
  | reaches_step base1 base2 rules flags tx router ter applied router' :
      reaches base base1 → ordinary tx →
      apply_transaction rules flags tx router base1 = Ok (ter, applied, router', base2) → reaches base base2.


(** C9: The metadata of a transaction in a closed ledger is complete and right.  It
    is stored with the transaction; no entry has two nodes; every node is of an
    entry that was there before or is there now and says rightly whether it was
    created, deleted or modified; every entry that came or went has a node; and an
    entry that is there now, was threaded to a transaction before and has no node
    is the same as before. *)
Theorem metadata_complete (v : ApplyView STObject ledger) to tx ter deliver c d m :
  open_holds to c d → sees c ∅ v m → Raw.txs_ to !! getTransactionID tx = None → Raw.open (Raw.info_ to) = false →
  ∃ to' m' meta index, Meta.apply_tx v to tx ter deliver = Ok to' ∧ open_holds to' m' (add_drops d (drops v)) ∧ ledger_eq m m' ∧
    Raw.txs_ to' !! getTransactionID tx = Some (tx_bytes tx, Some (Meta.addRaw meta ter index)) ∧
    let nodes := Meta.mNodes meta in
    NoDup (Meta.n_index <$> nodes) ∧
    (∀ n, n ∈ nodes → Meta.n_kind n = kind_for (c !! Meta.n_index n) (m !! Meta.n_index n) ∧
       (is_Some (c !! Meta.n_index n) ∨ is_Some (m !! Meta.n_index n))) ∧
    (∀ k, (c !! k = None ↔ is_Some (m !! k)) → k ∈ Meta.n_index <$> nodes) ∧
    (∀ k s s', m !! k = Some s → prev_id s ≠ 0 → m' !! k = Some s' → k ∉ Meta.n_index <$> nodes →
       ∃ s0, c !! k = Some s0 ∧ same_entry s' s0 = true).
Proof using Type.
  intros Hh Hs Hid Hopen. destruct (apply_tx_closed v to tx ter deliver c d m Hh Hs Hid Hopen) as (to' & t & i & E & Hi & Hh' & Hm & _ & _ & Ht).
  assert (reads_as to c) as Hto by (destruct Hh as (c0 & ? & ? & -> & _); by apply RawFacts.open_reads).
  destruct Hs as (Hv & Hcl & <-). eexists to', _, (Meta.t_meta t), i. split; [done|]. split; [exact Hh'|]. split; [done|].
  split; [rewrite Ht; apply lookup_insert_eq|]. cbv zeta. split; [apply (inv_nodup _ _ _ _ _ _ Hi)|]. split_and!.
  - intros n Hn. by eapply nodes_kind.
  - intros k Hk. by eapply (nodes_created_deleted v c).
  - intros k s s' Hs Hp Hs' Hno. by eapply (nodes_modified v to c).
Qed.

(** C23: Three types of transaction keep what the engine relies on: changing the
    regular key and the settings of an account, always, and direct payments, in
    XRP and in VBC, when the reserves are far from overflowing.  Their checks never
    abort nor claim a fee before there is a ledger, they take no entry away, and on
    success they keep every sequence number and the sum of all balances, also when
    a payment creates its destination. *)
Theorem transactors_lawful rippleCalculate tx :
  sane_fees fees →
  Lawful (SetRegularKey (V := V) config fees now) tx ∧ Lawful (SetAccount (V := V) config fees now) tx ∧
  (is_ripple tx = false → AmtFacts.wf (getFieldAmount sfAmount (tx_fields tx)) →
   Lawful (Payment (V := V) config fees now rippleCalculate) tx).
Proof using Type. intros Hs. split; [apply _|]. split; [apply _|]. intros. by apply Payment_lawful. Qed.

(** An account that can sign transactions: its master key is not disabled, it has a
    regular key, or it has a list of signers. *)
Definition can_sign (m : gmap Z (SLE STObject)) (a : AccountID) : Prop :=
  ∃ o, root_of m a = Some o ∧
    (isFlag lsfDisableMaster o = false ∨ present (accounts o) sfRegularKey = true ∨ is_Some (lookup_keylet m (keylet.signers a))).


(** C25: The check of several signatures, a walk over two lists in the order of the
    accounts, gives what it should: it accepts exactly if every signer of the
    transaction is on the account's list and uses a key it may use, and the
    weights of the signers add up to the quorum.  The list has to be one that
    [SetSignerList] accepts and the transaction one whose signatures were
    verified. *)
Theorem multi_sign_equivalent (view : ledger) tx :
  Tx.checkMultiSign tx = true →
  (∀ sle l, rv_read view (keylet.signers (tx_account tx)) = Some sle → deserialize (fields sle) = inr l → Sign.list_ok l) →
  Transact.checkMultiSign view tx = Ok (Sign.multi_sign_spec view tx).
Proof using Type. apply Sign.checkMultiSign_spec. Qed.

(** C26: A list of signers that passes the checks of [SetSignerList] is a good one:
    sorted without the same account twice, neither empty nor naming the account
    itself, a reordering of what the transaction has, with weights that reach the
    quorum when all sign, and what is written into the ledger is read back as the
    same list, so that [checkMultiSign] can walk it. *)
Theorem signer_list_accepted tx ter quorum signers l o :
  deserialize (tx_fields tx) = inr l → Forall (λ e, s_weight e < 2 ^ 16) l →
  determineOperation tx = (ter, quorum, signers, set_list) → SetSignerList_check tx = Ok tesSUCCESS →
  Sign.list_ok signers ∧ signers ≡ₚ l ∧ 0 < quorum ≤ weights signers ∧ Forall (λ e, s_account e ≠ tx_account tx) signers ∧
  deserialize (writeSignersToSLE quorum signers o) = inr signers.
Proof using Type.
  intros Hd Hw Hop Hck. destruct (signer_list_ok tx ter quorum signers l Hd Hw Hop Hck) as (? & ? & ? & ?).
  split_and!; try done; try lia. apply written_signers.
Qed.


End properties.

(** ** Witnesses

    A ledger with the account of Alice, who pays Bob. *)

(** A digest that keeps its input apart, keys that are account numbers, and no
    serialization. *)
#[local] Instance plain_hash : Digest := λ bs, be_int (1 :: bs).
#[local] Instance plain_keys : Keys := {|
  verify _ _ _ _ := true;
  calcAccountID pk := be_int pk;
  signing_data _ := [];
  multi_signing_data _ _ := [];
  tx_bytes _ := [];
  passesLocalChecks _ := true
|}.
#[local] Instance no_meta : Meta.MetaWire := λ _ _ _, [].

Definition alice_id : AccountID := 10.
Definition bob_id : AccountID := 20.

Definition account_root (a : AccountID) (drops seq : Z) : SLE STObject :=
  mkSLE (getAccountRootIndex a) ltACCOUNT_ROOT
    (setFieldH256 Meta.sfPreviousTxnID 1 (setFieldU32 sfSequence seq (setFieldAmount sfBalance (xrp_amount drops)
      (setAccountID sfAccount a empty_object)))).

Definition village : gmap Z (SLE STObject) := {[getAccountRootIndex alice_id := account_root alice_id 1000 5]}.

Definition closing : Raw.LedgerInfo := Raw.mkInfo 7 0 0 0 0 false false false.
Definition village_ledger : Raw.OpenView STObject (gmap Z (SLE STObject)) := Raw.over village closing.

Lemma village_holds : RawFacts.open_holds village_ledger village (mkDrops 0 0 0).
Proof.
  exists village. split; [apply map_reads_as; by_computation|]. split; [apply map_Forall_empty|]. split; [|done].
  apply map_eq. intros k. by rewrite RawFacts.contents_lookup.
Qed.

Lemma root_sound a drops seq : 0 ≤ drops ≤ Amt.cMaxNativeN → entry_ok (account_root a drops seq) ∧ is_root (account_root a drops seq) = true.
Proof. intros Hd. split; [|done]. split; [intros _|by intros _|done]. apply (paid_down_funded drops). done. Qed.

Lemma village_sound : sound village.
Proof.
  destruct (root_sound alice_id 1000 5) as [He Hr]; [by vm_compute|]. split.
  - by apply map_Forall_singleton.
  - intros a s Hs. unfold village in Hs. by apply lookup_singleton_Some in Hs as [_ <-].
  - by vm_compute.
Qed.

Definition some_config : Config := mkConfig ∅ 0 0 0 0 5 None.
Definition no_load : LoadFee.LoadFeeTrack := LoadFee.mkFees 256 256 256 0.
Definition some_fees : Fees := mkFees 10 10 20 5.
Definition no_paths (_ _ : Amt.STAmount) (_ _ : AccountID) (_ : list STPath) (_ : Input) :
    prog STObject (Raw.OpenView STObject (gmap Z (SLE STObject))) (TER * Amt.STAmount) :=
  ret (tecPATH_DRY, Amt.of_drops 0 false).

Definition some_transactors (ty : TxType) : option (Transactor (V := gmap Z (SLE STObject))) :=
  match ty with
  | ttPAYMENT => Some (Payment some_config some_fees 0 no_paths)
  | ttREGULAR_KEY_SET => Some (SetRegularKey some_config some_fees 0)
  | ttACCOUNT_SET => Some (SetAccount some_config some_fees 0)
  | _ => None
  end.

Definition pay_bob (id drops seq : Z) : STTx :=
  mkTx id ttPAYMENT (setAccountID sfAccount alice_id (setAccountID sfDestination bob_id (setFieldAmount sfAmount (xrp_amount drops)
    (setFieldAmount sfFee (xrp_amount 10) (setFieldU32 sfSequence seq (setFieldVL sfSigningPubKey [alice_id] empty_object)))))) None.

Lemma some_fees_sane : sane_fees some_fees.
Proof. by vm_compute. Qed.

Lemma pay_bob_ordinary id drops seq : 0 ≤ drops ≤ Amt.cMaxNativeN → ordinary some_transactors (pay_bob id drops seq).
Proof.
  intros Hd. split; [done|]. intros T [= <-]. apply Payment_lawful; [apply some_fees_sane|done|]. by apply (xrp_amount_wf drops).
Qed.

Lemma paid_ordinary : ordinary some_transactors (pay_bob 99 300 5).
Proof. apply pay_bob_ordinary. by vm_compute. Qed.

Lemma late_ordinary : ordinary some_transactors (pay_bob 100 20 5).
Proof. apply pay_bob_ordinary. by vm_compute. Qed.

Lemma unfunded_ordinary : ordinary some_transactors (pay_bob 99 5000 5).
Proof. apply pay_bob_ordinary. by vm_compute. Qed.

Abbreviation submit := (apply_transaction some_config no_load some_fees some_transactors ∅ 0).
Definition router0 : Router.HashRouter := Router.hash_router 300.

(** What became of a transaction. *)
Definition verdict_of {A B} (r : result (TER * bool * A * B)) : option (TER * bool) :=
  match r with Ok (ter, applied, _, _) => Some (ter, applied) | Throw _ => None end.

Definition ledger_of {A} (r : result (TER * bool * A * Raw.OpenView STObject (gmap Z (SLE STObject)))) :=
  match r with Ok (_, _, _, base) => base | Throw _ => village_ledger end.

Definition router_of {B} (r : result (TER * bool * Router.HashRouter * B)) :=
  match r with Ok (_, _, router, _) => router | Throw _ => router0 end.

(** Alice pays Bob, who gets an account; then she has too little for more. *)
Lemma paid : verdict_of (submit (pay_bob 99 300 5) router0 village_ledger) = Some (tesSUCCESS, true).
Proof. vm_compute. reflexivity. Qed.

Lemma unfunded : verdict_of (submit (pay_bob 99 5000 5) router0 village_ledger) = Some (tecUNFUNDED_PAYMENT, true).
Proof. vm_compute. reflexivity. Qed.

Lemma verdict_run {A B} (r : result (TER * bool * A * B)) ter applied :
  verdict_of r = Some (ter, applied) → ∃ a b, r = Ok (ter, applied, a, b).
Proof. destruct r as [[[[t x] a] b]|]; [|done]. intros [= -> ->]. by exists a, b. Qed.





Lemma transactors_lawful_witness :
  Lawful (Payment some_config some_fees 0 no_paths) (pay_bob 99 300 5).
Proof.
  destruct (transactors_lawful some_config some_fees 0 no_paths (pay_bob 99 300 5) some_fees_sane) as (_ & _ & Hp).
  apply Hp; [reflexivity|]. apply (xrp_amount_wf 300). split; vm_compute; discriminate.
Defined.

(** A view in which Alice has changed. *)
Definition changed_village : gmap Z (SLE STObject) := {[getAccountRootIndex alice_id := account_root alice_id 900 6]}.

Definition village_view : ApplyView STObject (Raw.OpenView STObject (gmap Z (SLE STObject))) :=
  mkApply village_ledger {[1%positive := account_root alice_id 900 6]} {[getAccountRootIndex alice_id := (modify, 1%positive)]} 0 0 0 [].

Lemma village_view_sees : sees village ∅ village_view changed_village.
Proof.
  split; [|split].
  - unfold view_ok. cbn [items_ village_view]. apply map_Forall_singleton. split; [done|]. by eexists.
  - intros k p Hi. cbn [items_ village_view] in Hi. by apply lookup_singleton_Some in Hi as [_ ?].
  - vm_compute. reflexivity.
Qed.

Lemma village_view_state : state village village_view changed_village ∅ ∅ {[getAccountRootIndex alice_id]} village_view.
Proof.
  split; [done|exact village_view_sees|by intros p k; rewrite lookup_empty|].
  intros k ->%elem_of_singleton. exists modify, 1%positive. split; [apply lookup_singleton_eq|done].
Qed.

Lemma changed_village_sound : sound changed_village.
Proof.
  destruct (root_sound alice_id 900 6) as [He Hr]; [by vm_compute|]. split.
  - by apply map_Forall_singleton.
  - intros a s Hs. unfold changed_village in Hs. by apply lookup_singleton_Some in Hs as [_ <-].
  - by vm_compute.
Qed.

Lemma metadata_complete_witness :
  ∃ to' m' meta, Meta.apply_tx village_view village_ledger (pay_bob 99 300 5) tesSUCCESS None = Ok to' ∧ ledger_eq changed_village m' ∧
    NoDup (Meta.n_index <$> Meta.mNodes meta) ∧
    ∀ n, n ∈ Meta.mNodes meta → Meta.n_kind n = kind_for (village !! Meta.n_index n) (changed_village !! Meta.n_index n).
Proof.
  destruct (metadata_complete village_view village_ledger (pay_bob 99 300 5) tesSUCCESS None village (mkDrops 0 0 0) changed_village)
    as (to' & m' & meta & index & E & _ & He & _ & Hnd & Hk & _).
  - exact village_holds.
  - exact village_view_sees.
  - reflexivity.
  - reflexivity.
  - exists to', m', meta. split; [exact E|]. split; [exact He|]. split; [exact Hnd|]. intros n Hn. exact (proj1 (Hk n Hn)).
Defined.


(** Bob signs for Alice. *)
Definition with_signers : gmap Z (SLE STObject) :=
  <[getSignerListIndex alice_id := mkSLE (getSignerListIndex alice_id) ltSIGNER_LIST
      (writeSignersToSLE 1 [mkSigner bob_id 1] empty_object)]> village.

Definition signed_by_bob : STTx :=
  mkTx 101 ttACCOUNT_SET (setAccountID sfAccount alice_id (setFieldArray sfSigners
    [mkInner "Signer" ∅ ∅ ∅ ∅ {[sfSigningPubKey := [bob_id]]} {[sfAccount := bob_id]} ∅] empty_object)) None.

Lemma multi_sign_equivalent_witness : Transact.checkMultiSign (Raw.over with_signers closing) signed_by_bob = Ok tesSUCCESS.
Proof.
  rewrite (multi_sign_equivalent (Raw.over with_signers closing) signed_by_bob).
  - vm_compute. reflexivity.
  - vm_compute. reflexivity.
  - intros sle l Hr Hd. vm_compute in Hr. injection Hr as <-. vm_compute in Hd. injection Hd as <-.
    split; [repeat constructor|discriminate|]. repeat constructor; vm_compute; discriminate.
Defined.

Definition set_signers : STTx :=
  mkTx 102 ttSIGNER_LIST_SET (setAccountID sfAccount alice_id (setFieldU32 sfSignerQuorum 2 (setFieldArray sfSignerEntries
    [signer_object (mkSigner 30 2); signer_object (mkSigner bob_id 1)] empty_object))) None.

Lemma signer_list_accepted_witness :
  Sign.list_ok [mkSigner bob_id 1; mkSigner 30 2] ∧
  deserialize (writeSignersToSLE 2 [mkSigner bob_id 1; mkSigner 30 2] empty_object) = inr [mkSigner bob_id 1; mkSigner 30 2].
Proof.
  destruct (signer_list_accepted set_signers tesSUCCESS 2 [mkSigner bob_id 1; mkSigner 30 2] [mkSigner 30 2; mkSigner bob_id 1] empty_object)
    as (Hl & _ & _ & _ & Hd).
  - vm_compute. reflexivity.
  - repeat constructor.
  - vm_compute. reflexivity.
  - vm_compute. reflexivity.
  - split; [exact Hl|exact Hd].
Defined.


End TxProps.
